(* ===== verification/_CoqProject ===== *)
-Q . S2P
Prelude.v
GoStd.v
GoTime.v
Http.v
Request.v
Path.v
Sha1.v
Fs.v
Interference.v
DiskCache.v
Shards.v
HeadCache.v
Budget.v
Singleflight.v
Chunk.v
Flights.v
FlightsInv.v
FlightsProps.v
FlightsLive.v
FlightsData.v
WriteGuard.v
Evictor.v
Store.v
StoreCalls.v
StoreRef.v
Interleave.v
Fetcher.v
Serve.v
ServeInv.v
ServeOut.v
ServeLive.v
Readahead.v
Web.v
Service.v
ServiceInv.v
ServiceLive.v
ServiceOut.v
System.v
SystemOut.v
SystemLive.v
SystemEnd.v
ServiceStore.v
ServerDisk.v
Process.v
