(* ===== verification/Prelude.v ===== *)
(** * s3-cache: a verification development

    s3-cache is an HTTP proxy in front of S3. A GET is resolved against the
    object's metadata, split into chunks aligned to a fixed size, and each
    chunk comes from a disk cache, from a fetch that is already running, or
    from S3; the chunks are streamed to the client in order while later ones
    are fetched in parallel. Memory is bounded by a budget of chunk buffers
    shared by all requests.

    ** The parts, and where they are modelled

    - Standard library: [GoStd] (strings, strconv, errors), [GoTime] (instants,
      RFC 3339, durations), [Path] (path/filepath), [Sha1] (crypto/sha1),
      [Http] (ResponseWriter, http.Error) and [Fs] (package os: a file system
      whose every call may fail, or the process die in it).
    - services/web.go: [Request] has [parseRange], [parseKey] and
      [httpErrorFromS3]; [Web] has the parts of [handle] before and after the
      metadata lookup ([check], [reply_with]) and the contract of a request:
      what it asks for ([asks]), when it is refused unseen ([refused]) and
      what it is answered otherwise ([answers]).
    - services/fetcher.go: [Fetcher] has the sequential parts (configuration,
      metadata, range resolution, headers, the chunk grid, upstream requests);
      [Serve] has [serveAligned] as a machine (dispatcher, fetch goroutines,
      consumer); [Flights] has [fetchChunk] and [lead] as a machine over the
      shared heap of [Chunk], the calls of [Singleflight] and the [Budget].
      [Service] composes any number of streams with one set of fetches: a
      step of a stream makes, closes and cancels its [fetchChunk] calls, and
      sees only what these calls have come to; the readahead's calls are the
      fetches' own events.
    - services/chunk.go: [Chunk]. services/singleflight.go: [Singleflight].
      services/budget.go: [Budget]. services/write_guard.go: [WriteGuard].
      services/head_cache.go: [HeadCache]. services/cache.go: [DiskCache], as
      programs over [Fs], and [Shards], which has the abstract choice of a
      key's shard among the directories a location with a wildcard stands
      for. services/eviction.go: [Evictor], as programs over [Fs].
      [Interference] is a logic for such a program among others, and
      [Interleave] runs any number of them at once, call by call.
      services/readahead.go: [Readahead].
    - The whole server: [System], any number of requests from their arrival
      to their end, with the metadata cache, the streams and fetches of
      [Service] and the readahead as one machine. [Store] runs a machine with
      the fetches in it over [DiskCache] and [Evictor], in place of a map of
      chunks; [ServiceStore] shows that the server is such a machine, and
      [ServerDisk] is the server over the disk. configure.go and the flags of
      each service: [Process], which builds the server of [ServerDisk].

    A definition carries the name of the function it models and the lines it
    translates. Sequential code is a function; code whose calls fail is a
    program of the file-system monad, the sequence of its system calls, and
    its error paths are its runs under an oracle that lets calls fail;
    concurrent code is an instance of
    [Machine] (below): a state, and events that are the atomic steps of its
    goroutines (between two synchronisation points) and of its environment.
    An interleaving is a list of events [run] accepts, so a theorem about
    [run] is about every schedule. Pointers are numbers; the objects they
    point to live in finite maps of the state.

    ** What the theorems show

    - The server ([SystemOut], [SystemLive], [SystemEnd]): in every run of
      everything together each request is answered as its contract says: with
      405 or 400 if it asks for nothing the server has, and otherwise for one
      version of the object; the whole never deadlocks; and once no
      request arrives it comes to rest. [Process]: what a configuration leads
      to, and that the default one is such a server.
    - The service ([ServiceInv] has the invariant, [ServiceOut] and
      [ServiceLive] the theorems): whatever the other requests do, each client
      receives exactly the requested bytes, or a prefix of them, or an error
      page that claims nothing about the object; a stream waits for budget with
      its last chunk only, so requests that share the budget never deadlock, and all of them end with nothing held.
    - One request ([Web], [ServeOut]): what its response is, given its
      metadata and what its fetches deliver.
    - Streams ([ServeInv], [ServeLive]): the
      window bounds what a request holds, nothing is left when it ends, and it
      always ends.
    - Fetches ([FlightsInv] has the invariant, [FlightsProps], [FlightsLive]
      and [FlightsData] the theorems): memory bound, exact reference counts,
      one fetch per chunk, no leak, no deadlock, termination, and the bytes
      delivered are those of the version asked for.
    - Requests ([Request], [Fetcher]): the grammar of Range headers, their
      reading by RFC 9110, the chunk grid, upstream requests, metadata.
    - The disk cache ([DiskCache], [Shards], [Evictor]): a stored chunk is read
      back and a lookup finds what it should, at a location with a wildcard
      too (the default one; [Shards] takes its paths to be absolute); crashes and faults never tear one, versions do not mix, a sweep trims a
      shard to its target and touches nothing else. At the same time as any
      others, interleaved at every system call ([Interleave]): no finished
      file is ever torn, each handle handed out reads whole and right bytes,
      and every operation returns.
    - Over the real disk ([StoreCalls], [StoreRef]): a machine with the
      fetches in it refines the same machine over a map, and is not blocked
      by the disk. So ([ServerDisk]) the server answers as its contract says,
      does not deadlock and leaks no descriptor, however system calls fail,
      and with stale chunks from before versioning on the disk, as long as the
      marker times tell them from current ones.
    - [Budget], [HeadCache], [WriteGuard], [Chunk], [Readahead]: the contract
      of each component.

    ** Bounds and fuel

    Go's int and int64 are [Z] with wrap-around ([wrap64]); int32 counters
    wrap at 32 bits. Theorems about sizes assume what the code needs to be
    right: an object and one chunk more fit an int64; at most 2^31 - 1 calls
    in the lifetime of the concurrent model ([flinv.small]). No definition
    has a fuel that can run out: loops recurse on the data, on the number of
    iterations the code computes, or (in [itoa]) on the room left in its
    buffer, where running out is a panic that is shown not to happen.

    ** What is abstracted

    S3, clients and clocks are arguments or events. The heap a run of [Serve]
    alone reads from is fixed; in [Service] each step reads from the heap the
    fetches have come to. Contexts are the error they end with. In the
    concurrent models the disk cache is a map from key, version and offset to
    bytes, and an open file is its bytes; [StoreRef] justifies both, for
    chunks whose digests do not collide and whatever shards the cache has: a
    run over the file system ([Store]), with any system call failing, is a run
    over the map. There a [Get], a [Put], a probe and a
    sweep are each one step: what another goroutine does between two of their
    system calls (a sweep that removes a directory [Put] has just made, say)
    appears as the next call failing. That nothing worse comes of it is what
    [Interleave] shows of the operations alone, each call a step; it takes
    the random names of temporary files to be distinct, and reads the memo of
    marker times once per operation instead of sharing it.

    ** Not modelled

    Prometheus counters and log lines (no effect on the program); main.go; the
    flag parser, the probes, the S3 client with its HTTP transport, the accept
    loop and the graceful shutdown of the HTTP server (third-party code and
    net/http); and goroutine scheduling beyond interleaving. *)
From Stdlib Require Export ZArith Lia Ascii String.
From stdpp Require Export base tactics gmap strings pretty list sorting numbers fin_maps relations.

(** ** Scope and notations *)

Declare Scope s3c_scope.
Delimit Scope s3c_scope with s3c.
#[global] Open Scope Z_scope.
#[global] Open Scope s3c_scope.

(** stdpp keeps [+:+] folded; the string lemmas here compute with it. *)
#[global] Arguments String.append !_ _ / : simpl nomatch.

(** ** Machine integers

    A Go [int64] (and [int] on the 64-bit platforms the image is built for)
    is a [Z] kept inside [int64_min .. int64_max]; every arithmetic operation
    of the source wraps. *)

Definition int64_min : Z := - 9223372036854775808.
Definition int64_max : Z := 9223372036854775807.
Definition int32_max : Z := 2147483647.

Definition wrap64 (z : Z) : Z :=
  (z + 9223372036854775808) mod 18446744073709551616 - 9223372036854775808.
Definition wrap32 (z : Z) : Z :=
  (z + 2147483648) mod 4294967296 - 2147483648.

Notation "x ⊕ y" := (wrap64 (x + y)) (at level 50, left associativity) : s3c_scope.
Notation "x ⊖ y" := (wrap64 (x - y)) (at level 50, left associativity) : s3c_scope.
Notation "x ⊗ y" := (wrap64 (x * y)) (at level 40, left associativity) : s3c_scope.
(** Go's [/] truncates towards zero. *)
Notation "x ÷₆₄ y" := (wrap64 (Z.quot x y)) (at level 40, left associativity) : s3c_scope.

Definition int64_ok (z : Z) : Prop := int64_min <= z <= int64_max.

#[global] Instance int64_ok_dec z : Decision (int64_ok z).
Proof. unfold int64_ok. apply _. Defined.

Lemma wrap64_small z : int64_min <= z <= int64_max -> wrap64 z = z.
Proof.
  unfold wrap64, int64_min, int64_max. intros ?.
  rewrite Z.mod_small; lia.
Qed.

Lemma wrap64_ok z : int64_ok (wrap64 z).
Proof.
  unfold int64_ok, wrap64, int64_min, int64_max.
  pose proof (Z.mod_pos_bound (z + 9223372036854775808) 18446744073709551616).
  lia.
Qed.

Lemma wrap32_small z : - 2147483648 <= z <= int32_max -> wrap32 z = z.
Proof. unfold wrap32, int32_max. intros ?. rewrite Z.mod_small; lia. Qed.

Lemma quot_div_nonneg a b : 0 <= a -> 0 < b -> Z.quot a b = a / b.
Proof. intros. apply Z.quot_div_nonneg; lia. Qed.

(** [int64_simp] evaluates wrapped arithmetic whose operands [lia] can bound. *)
Ltac int64_simp :=
  repeat match goal with
  | |- context [wrap64 ?z] =>
      rewrite (wrap64_small z) by (unfold int64_min, int64_max in *; nia)
  | H : context [wrap64 ?z] |- _ =>
      rewrite (wrap64_small z) in H by (unfold int64_min, int64_max in *; nia)
  end.

(** Case analysis on the boolean comparisons of the source. *)
Ltac zcases :=
  repeat match goal with
  | |- context [Z.ltb ?a ?b] => destruct (Z.ltb_spec a b)
  | |- context [Z.leb ?a ?b] => destruct (Z.leb_spec a b)
  | |- context [Z.eqb ?a ?b] => destruct (Z.eqb_spec a b)
  | H : context [Z.ltb ?a ?b] |- _ => destruct (Z.ltb_spec a b)
  | H : context [Z.leb ?a ?b] |- _ => destruct (Z.leb_spec a b)
  | H : context [Z.eqb ?a ?b] |- _ => destruct (Z.eqb_spec a b)
  end.

(** ** Slices

    [slice a b l] is Go's [l[a:b]] for bounds that lie inside [l]. *)
Definition slice {A} (a b : Z) (l : list A) : list A :=
  take (Z.to_nat (b - a)) (drop (Z.to_nat a) l).

Section slice.
Context {A : Type}.
Implicit Types (l : list A) (a b c : Z).

Lemma slice_length a b l :
  0 <= a <= b -> b <= Z.of_nat (length l) -> Z.of_nat (length (slice a b l)) = b - a.
Proof. intros. unfold slice. rewrite length_take, length_drop. lia. Qed.

Lemma slice_all l : slice 0 (Z.of_nat (length l)) l = l.
Proof. unfold slice. rewrite Z.sub_0_r, Nat2Z.id. apply firstn_all. Qed.

Lemma slice_nil a b l : b <= a -> slice a b l = [].
Proof. intros. unfold slice. by replace (Z.to_nat (b - a)) with 0%nat by lia. Qed.

Lemma slice_app a b c l : 0 <= a <= b -> b <= c -> slice a b l ++ slice b c l = slice a c l.
Proof.
  intros. unfold slice.
  replace (Z.to_nat (c - a)) with (Z.to_nat (b - a) + Z.to_nat (c - b))%nat by lia.
  rewrite <- take_take_drop, drop_drop. do 3 f_equal. lia.
Qed.

Lemma slice_slice a b c d l :
  0 <= a -> 0 <= c <= d -> d <= b - a -> slice c d (slice a b l) = slice (a + c) (a + d) l.
Proof.
  intros. unfold slice. rewrite skipn_firstn_comm, drop_drop, take_take.
  f_equal; [lia|]. f_equal. lia.
Qed.

Lemma take_slice a b n l :
  0 <= a <= b -> 0 <= n <= b - a -> take (Z.to_nat n) (slice a b l) = slice a (a + n) l.
Proof. intros. unfold slice. rewrite take_take. f_equal. lia. Qed.
End slice.

(** ** Weighted sums over finite maps

    [msum f m] adds [f x] over the values of [m]. Reference counts, budget
    units and buffered bytes are all such sums, so each invariant of the
    concurrent model is an equation between a counter of the code and an
    [msum]. *)

Section msum.
Context {K A : Type} `{Countable K}.
Implicit Types (m : gmap K A) (f g : A -> Z).

Definition msum f m : Z := map_fold (fun _ x acc => f x + acc) 0 m.

Lemma msum_empty f : msum f ∅ = 0.
Proof. apply map_fold_empty. Qed.

Lemma msum_insert_new f m i x :
  m !! i = None -> msum f (<[i:=x]> m) = f x + msum f m.
Proof. intros. unfold msum. rewrite map_fold_insert_L; [done | intros; lia | done]. Qed.

Lemma msum_lookup f m i x :
  m !! i = Some x -> msum f m = f x + msum f (delete i m).
Proof.
  intros Hi. rewrite <- (insert_delete_id m i x Hi) at 1.
  apply msum_insert_new, lookup_delete_eq.
Qed.

Lemma msum_insert_old f m i x y :
  m !! i = Some y -> msum f (<[i:=x]> m) = msum f m - f y + f x.
Proof.
  intros Hi. rewrite (msum_lookup f (<[i:=x]> m) i x) by apply lookup_insert_eq.
  rewrite (msum_lookup f m i y) by done. rewrite delete_insert_eq. lia.
Qed.

Lemma msum_delete f m i x : m !! i = Some x -> msum f (delete i m) = msum f m - f x.
Proof. intros Hi. rewrite (msum_lookup f m i x) by done. lia. Qed.

Lemma msum_nonneg f m : (forall i x, m !! i = Some x -> 0 <= f x) -> 0 <= msum f m.
Proof.
  induction m as [|i x m Hi IH] using map_ind; intros Hf.
  - by rewrite msum_empty.
  - rewrite msum_insert_new by done.
    assert (0 <= f x) by (eapply Hf, lookup_insert_eq).
    assert (0 <= msum f m); [|lia].
    apply IH. intros j y Hj. apply (Hf j).
    rewrite lookup_insert_ne; [done | congruence].
Qed.

Lemma msum_ge f m i x :
  (forall j y, m !! j = Some y -> 0 <= f y) -> m !! i = Some x -> f x <= msum f m.
Proof.
  intros Hf Hi. rewrite (msum_lookup f m i x) by done.
  assert (0 <= msum f (delete i m)); [|lia].
  apply msum_nonneg. intros j y [_ Hj]%lookup_delete_Some. eauto.
Qed.

Lemma msum_pos_inv f m : 0 < msum f m -> exists i x, m !! i = Some x /\ 0 < f x.
Proof.
  induction m as [|i x m Hi IH] using map_ind.
  - rewrite msum_empty. lia.
  - rewrite msum_insert_new by done. intros Hs.
    destruct (decide (0 < f x)) as [?|?].
    + exists i, x. by rewrite lookup_insert_eq.
    + destruct IH as (j & y & Hj & ?); [lia|]. exists j, y.
      rewrite lookup_insert_ne; [done | congruence].
Qed.

Lemma msum_zero f m : (forall i x, m !! i = Some x -> f x = 0) -> msum f m = 0.
Proof.
  induction m as [|i x m Hi IH] using map_ind; intros Hf.
  - apply msum_empty.
  - rewrite msum_insert_new by done. rewrite (Hf i x) by apply lookup_insert_eq.
    rewrite IH; [done|]. intros j y Hj. apply (Hf j).
    rewrite lookup_insert_ne; [done | congruence].
Qed.

Lemma msum_zero_inv f m :
  (forall i x, m !! i = Some x -> 0 <= f x) -> msum f m = 0 ->
  forall i x, m !! i = Some x -> f x = 0.
Proof. intros Hf H0 i x Hi. pose proof (msum_ge f m i x Hf Hi). specialize (Hf _ _ Hi). lia. Qed.

Lemma msum_ext f g m : (forall i x, m !! i = Some x -> f x = g x) -> msum f m = msum g m.
Proof.
  induction m as [|i x m Hi IH] using map_ind; intros Hf.
  - by rewrite !msum_empty.
  - rewrite !msum_insert_new by done. rewrite (Hf i x) by apply lookup_insert_eq.
    rewrite IH; [done|]. intros j y Hj. apply (Hf j).
    rewrite lookup_insert_ne; [done | congruence].
Qed.

Lemma msum_le f g m : (forall i x, m !! i = Some x -> f x <= g x) -> msum f m <= msum g m.
Proof.
  induction m as [|i x m Hi IH] using map_ind; intros Hf.
  - by rewrite !msum_empty.
  - rewrite !msum_insert_new by done.
    assert (f x <= g x) by (apply (Hf i), lookup_insert_eq).
    assert (msum f m <= msum g m); [|lia].
    apply IH. intros j y Hj. apply (Hf j).
    rewrite lookup_insert_ne; [done | congruence].
Qed.

Lemma msum_add f g m : msum (fun x => f x + g x) m = msum f m + msum g m.
Proof.
  induction m as [|i x m Hi IH] using map_ind.
  - by rewrite !msum_empty.
  - rewrite !msum_insert_new by done. rewrite IH. lia.
Qed.

Lemma msum_scale c f m : msum (fun x => c * f x) m = c * msum f m.
Proof.
  induction m as [|i x m Hi IH] using map_ind.
  - rewrite !msum_empty. lia.
  - rewrite !msum_insert_new by done. rewrite IH. lia.
Qed.
End msum.

(** Rewrites an [msum] of an updated map using the lookup in the context. *)
Ltac msum_simp :=
  repeat match goal with
  | Hi : ?m !! ?i = Some ?y |- context [msum ?f (<[?i:=?x]> ?m)] =>
      rewrite (msum_insert_old f m i x y Hi)
  | Hi : ?m !! ?i = None |- context [msum ?f (<[?i:=?x]> ?m)] =>
      rewrite (msum_insert_new f m i x Hi)
  | Hi : ?m !! ?i = Some ?y |- context [msum ?f (delete ?i ?m)] =>
      rewrite (msum_delete f m i y Hi)
  end.

Lemma alter_is_Some {K A} `{Countable K} (g : A -> A) (m : gmap K A) i j :
  is_Some (alter g i m !! j) <-> is_Some (m !! j).
Proof.
  rewrite lookup_alter. case_decide as Hij; [subst; by rewrite fmap_is_Some | done].
Qed.

(** ** Event-driven machines

    A concurrent component is an executable partial function [exec]: an event
    (one atomic step of some goroutine, or of the environment) applied to a
    state gives the next state, or [None] when the event is not enabled. The
    interleavings of the goroutines are exactly the event sequences [run]
    accepts. *)

Class Machine (S E : Type) := exec : S -> E -> option S.

Section machine.
Context {S E : Type} `{Machine S E}.

Fixpoint run (s : S) (es : list E) : option S :=
  match es with
  | [] => Some s
  | e :: es => exec s e ≫= fun s' => run s' es
  end.

Definition step (s s' : S) : Prop := exists e, exec s e = Some s'.

Definition preserved (I : S -> Prop) : Prop :=
  forall s e s', I s -> exec s e = Some s' -> I s'.

Lemma run_app s es1 es2 : run s (es1 ++ es2) = run s es1 ≫= fun s' => run s' es2.
Proof.
  revert s. induction es1 as [|e es1 IH]; intros s; simpl; [done|].
  destruct (exec s e); simpl; auto.
Qed.

Lemma run_invariant (I : S -> Prop) s es s' :
  preserved I -> I s -> run s es = Some s' -> I s'.
Proof.
  intros HI. revert s. induction es as [|e es IH]; intros s Hs; simpl.
  - by intros [= <-].
  - destruct (exec s e) as [s1|] eqn:He; simpl; [|done]. eauto.
Qed.

(** Every event meets [P] in the state it happens in. *)
Fixpoint along (P : S -> E -> Prop) (s : S) (es : list E) : Prop :=
  match es with
  | [] => True
  | e :: es => P s e /\ match exec s e with Some s' => along P s' es | None => True end
  end.

Lemma along_app P s es1 es2 s1 :
  along P s (es1 ++ es2) -> run s es1 = Some s1 -> along P s es1 /\ along P s1 es2.
Proof.
  revert s. induction es1 as [|e es1 IH]; intros s; simpl; [by intros ? [= <-]|].
  intros [He Hes]. destruct (exec s e) as [s2|]; simpl; [|done]. intros Hr.
  destruct (IH s2 Hes Hr). done.
Qed.

Lemma along_join P s es1 es2 s1 :
  along P s es1 -> run s es1 = Some s1 -> along P s1 es2 -> along P s (es1 ++ es2).
Proof.
  revert s. induction es1 as [|e es1 IH]; intros s; simpl; [by intros _ [= <-]|].
  intros [He Hes]. destruct (exec s e) as [s2|]; simpl; [|done]. intros Hr Ht. split; [done|by apply IH].
Qed.

Lemma along_all (P : S -> E -> Prop) (Q : E -> Prop) s es :
  (forall s e, Q e -> P s e) -> Forall Q es -> along P s es.
Proof.
  intros HQ Hes. revert s. induction Hes as [|e es He Hes IH]; intros s; simpl; [done|].
  split; [by apply HQ|]. by destruct (exec s e).
Qed.

(** A bound that steps never restore held all along. *)
Lemma run_back (B : S -> Prop) s es s' :
  (forall s e s', exec s e = Some s' -> B s' -> B s) -> run s es = Some s' -> B s' -> B s.
Proof.
  intros HB. revert s. induction es as [|e es IH]; intros s; simpl; [by intros [= ->]|].
  destruct (exec s e) as [s1|] eqn:He; simpl; [|done]. eauto.
Qed.

Lemma along_invariant (P : S -> E -> Prop) (I B : S -> Prop) s es s' :
  (forall s e s', exec s e = Some s' -> B s' -> B s) ->
  (forall s e s', I s -> P s e -> B s' -> exec s e = Some s' -> I s') ->
  I s -> along P s es -> run s es = Some s' -> B s' -> I s'.
Proof.
  intros HB HI. revert s. induction es as [|e es IH]; intros s Hs; simpl; [by intros _ [= <-]|].
  intros [HP Hes]. destruct (exec s e) as [s1|] eqn:He; simpl; [|done]. intros Hr Hb.
  apply (IH s1); [|done..]. apply (HI s e); [done..| |done]. by eapply run_back.
Qed.

(** The same for an invariant that holds only while a bound [B] does, which
    steps never restore. *)
Lemma run_invariant_while (I B : S -> Prop) s es s' :
  (forall s e s', exec s e = Some s' -> B s' -> B s) ->
  (forall s e s', I s -> B s' -> exec s e = Some s' -> I s') ->
  I s -> run s es = Some s' -> B s' -> I s'.
Proof.
  intros HB HI Hs Hr. apply (along_invariant (fun _ _ => True) I B s es s' HB); [eauto|done| |done].
  apply (along_all _ (fun _ => True)); [done|by apply Forall_true].
Qed.

(** The check of a decidable [P] decides it along a run. *)
Fixpoint alongb (P : S -> E -> bool) (s : S) (es : list E) : bool :=
  match es with
  | [] => true
  | e :: es => P s e && match exec s e with Some s' => alongb P s' es | None => true end
  end.

Lemma alongb_sound (P : S -> E -> Prop) (Pb : S -> E -> bool) s es :
  (forall s e, Pb s e = true -> P s e) -> alongb Pb s es = true -> along P s es.
Proof.
  intros HP. revert s. induction es as [|e es IH]; intros s; simpl; [done|].
  intros [He Hes]%andb_true_iff. split; [by apply HP|]. destruct (exec s e); auto.
Qed.

Lemma run_steps s es s' : run s es = Some s' -> rtc step s s'.
Proof.
  revert s. induction es as [|e es IH]; intros s; simpl.
  - intros [= <-]. done.
  - destruct (exec s e) as [s1|] eqn:He; simpl; [|done].
    intros ?. eapply rtc_l; [by exists e | auto].
Qed.

Lemma steps_run s s' : rtc step s s' -> exists es, run s es = Some s'.
Proof.
  induction 1 as [s|s s1 s' [e He] _ [es Hes]].
  - by exists [].
  - exists (e :: es). simpl. by rewrite He.
Qed.

(** A run whose events all decrease a natural-number measure is no longer
    than the measure of its first state. *)
Lemma run_bounded (I : S -> Prop) (P : E -> Prop) (μ : S -> nat) s es s' :
  (forall s e s', I s -> P e -> exec s e = Some s' -> I s' /\ (μ s' < μ s)%nat) ->
  I s -> Forall P es -> run s es = Some s' -> I s' /\ (length es + μ s' <= μ s)%nat.
Proof.
  intros Hdec. revert s. induction es as [|e es IH]; intros s Hs HP; simpl.
  - intros [= <-]. split; [done|lia].
  - inversion HP as [|? ? He HP']; subst.
    destruct (exec s e) as [s1|] eqn:Hx; simpl; [|done]. intros Hr.
    destruct (Hdec s e s1 Hs He Hx) as [Hs1 Hlt]. destruct (IH s1 Hs1 HP' Hr). split; [done|lia].
Qed.

(** If moreover some decreasing event is enabled until a goal holds, the
    goal is reached. *)
Lemma run_reaches (I : S -> Prop) (P : E -> Prop) (μ : S -> nat) (G : S -> Prop) s :
  (forall s, Decision (G s)) ->
  (forall s e s', I s -> P e -> exec s e = Some s' -> I s' /\ (μ s' < μ s)%nat) ->
  (forall s, I s -> ~ G s -> exists e s', P e /\ exec s e = Some s') ->
  I s -> exists es s', Forall P es /\ run s es = Some s' /\ G s'.
Proof.
  intros HG Hdec Hprog. remember (μ s) as n eqn:Hn. revert s Hn.
  induction n as [n IH] using lt_wf_ind. intros s -> Hs.
  destruct (decide (G s)) as [|HnG]; [by exists [], s|].
  destruct (Hprog s Hs HnG) as (e & s1 & He & Hx).
  destruct (Hdec s e s1 Hs He Hx) as [Hs1 Hlt].
  destruct (IH (μ s1) Hlt s1 eq_refl Hs1) as (es & s' & HP & Hr & ?).
  exists (e :: es), s'. split; [by constructor|]. simpl. by rewrite Hx.
Qed.
End machine.

(** ** Hints shared by the development *)

Create HintDb s3c discriminated.
#[export] Hint Resolve wrap64_ok lookup_insert_eq lookup_delete_eq : s3c.
Create Rewrite HintDb s3crw.
#[export] Hint Rewrite @lookup_insert_eq @lookup_delete_eq @length_app @length_insert : s3crw.

(** Unfolds one [option]-valued step of an executable definition. *)
Ltac inv_bind :=
  repeat match goal with
  | H : ?o ≫= _ = Some _ |- _ =>
      let E := fresh "E" in destruct o eqn:E; simpl in H; [|discriminate]
  | H : Some _ = Some _ |- _ => injection H as H
  | H : None = Some _ |- _ => discriminate
  | H : (if ?b then _ else None) = Some _ |- _ =>
      let E := fresh "E" in destruct b eqn:E; [|discriminate]
  | H : (if ?b then None else _) = Some _ |- _ =>
      let E := fresh "E" in destruct b eqn:E; [discriminate|]
  end.
