(* ===== verification/GoStd.v ===== *)
(** * The parts of Go's standard library the program calls

    Executable models of the functions of [strings], [strconv], [fmt],
    [errors] and [net/http] that the sources use, on byte strings
    ([String.string], one [ascii] per byte as in Go). *)
From S2P Require Import Prelude.

(** ** Package strings *)
Module strings.
(** [s[n:]] and [s[:n]]. *)
Fixpoint drop (n : nat) (s : string) : string :=
  match n, s with
  | O, _ => s
  | S n', String _ s' => drop n' s'
  | S _, EmptyString => EmptyString
  end.

Fixpoint take (n : nat) (s : string) : string :=
  match n, s with
  | O, _ => EmptyString
  | S n', String c s' => String c (take n' s')
  | S _, EmptyString => EmptyString
  end.

Definition HasPrefix (s p : string) : bool := String.prefix p s.

Definition TrimPrefix (s p : string) : string :=
  if HasPrefix s p then drop (String.length p) s else s.

Definition HasSuffix (s q : string) : bool :=
  bool_decide (String.length q <= String.length s)%nat &&
  bool_decide (drop (String.length s - String.length q) s = q).

Definition TrimSuffix (s q : string) : string :=
  if HasSuffix s q then take (String.length s - String.length q) s else s.

Fixpoint Contains (s sub : string) : bool :=
  String.prefix sub s ||
  match s with
  | String _ s' => Contains s' sub
  | EmptyString => false
  end.

(** Splits at the first occurrence of a one-byte separator. *)
Fixpoint cut (s : string) (sep : ascii) : option (string * string) :=
  match s with
  | EmptyString => None
  | String c s' =>
      if Ascii.eqb c sep then Some (EmptyString, s')
      else match cut s' sep with
           | Some (a, b) => Some (String c a, b)
           | None => None
           end
  end.

(** [strings.SplitN(s, sep, 2)]. *)
Definition SplitN2 (s : string) (sep : ascii) : list string :=
  match cut s sep with
  | Some (a, b) => [a; b]
  | None => [s]
  end.

(** Occurrence of a byte. *)
Fixpoint has_byte (c : ascii) (s : string) : bool :=
  match s with
  | EmptyString => false
  | String d s' => Ascii.eqb d c || has_byte c s'
  end.

Lemma drop_length_app p s : drop (String.length p) (p +:+ s) = s.
Proof. induction p; simpl; auto. Qed.

(** What is joined can be split off again. *)
Lemma length_append a b : String.length (a +:+ b) = (String.length a + String.length b)%nat.
Proof. induction a; simpl; auto. Qed.

Lemma take_length_append a b : take (String.length a) (a +:+ b) = a.
Proof. induction a as [|c a IH]; simpl; [by destruct b|by rewrite IH]. Qed.

Lemma HasSuffix_app p q : HasSuffix (p +:+ q) q = true.
Proof.
  unfold HasSuffix. rewrite length_append. apply andb_true_iff. split; apply bool_decide_eq_true; [lia|].
  replace (_ - _)%nat with (String.length p) by lia. apply drop_length_app.
Qed.

Lemma TrimSuffix_app p q : TrimSuffix (p +:+ q) q = p.
Proof.
  unfold TrimSuffix. rewrite HasSuffix_app, length_append.
  replace (_ - _)%nat with (String.length p) by lia. apply take_length_append.
Qed.

Lemma prefix_app p s : String.prefix p (p +:+ s) = true.
Proof.
  induction p as [|c p IH]; simpl; [by destruct s|].
  by destruct (Ascii.ascii_dec c c).
Qed.

Lemma prefix_inv p s : String.prefix p s = true -> s = p +:+ drop (String.length p) s.
Proof.
  revert s. induction p as [|c p IH]; intros [|d s]; simpl; try done.
  destruct (Ascii.ascii_dec c d) as [->|]; [|done]. intros ?. cbn. f_equal. auto.
Qed.

Lemma TrimPrefix_app p s : TrimPrefix (p +:+ s) p = s.
Proof. unfold TrimPrefix, HasPrefix. by rewrite prefix_app, drop_length_app. Qed.

Lemma cut_Some s sep a b :
  cut s sep = Some (a, b) <-> s = a +:+ String sep b /\ has_byte sep a = false.
Proof.
  revert a b. induction s as [|c s IH]; intros a b; simpl.
  { split; [done|]. by intros [? _]; destruct a. }
  destruct (Ascii.eqb_spec c sep) as [->|Hc].
  - split.
    + intros [= <- <-]. done.
    + intros [Heq Hb]. destruct a as [|d a]; simpl in *; [congruence|].
      injection Heq as -> ->. by rewrite Ascii.eqb_refl in Hb.
  - destruct (cut s sep) as [[a' b']|] eqn:E.
    + split.
      * intros [= <- <-]. destruct (IH a' b') as [IH1 _].
        destruct IH1 as [-> Hb]; [done|]. simpl. rewrite Hb.
        apply Ascii.eqb_neq in Hc. by rewrite Hc.
      * intros [Heq Hb]. destruct a as [|d a]; simpl in *; [congruence|].
        injection Heq as -> ->. apply orb_false_iff in Hb as [_ Hb].
        destruct (IH a b) as [_ IH2]. specialize (IH2 (conj eq_refl Hb)).
        by injection IH2 as -> ->.
    + split; [done|]. intros [Heq Hb]. destruct a as [|d a]; simpl in *; [congruence|].
      injection Heq as -> ->. apply orb_false_iff in Hb as [_ Hb].
      destruct (IH a b) as [_ IH2]. by specialize (IH2 (conj eq_refl Hb)).
Qed.

Lemma cut_None s sep : cut s sep = None <-> has_byte sep s = false.
Proof.
  induction s as [|c s IH]; simpl; [done|].
  destruct (Ascii.eqb_spec c sep) as [->|Hc]; simpl; [done|].
  destruct (cut s sep) as [[a b]|]; [|by rewrite <- IH].
  rewrite <- IH. done.
Qed.

Lemma cut_app a sep b :
  has_byte sep a = false -> cut (a +:+ String sep b) sep = Some (a, b).
Proof. intros. by apply cut_Some. Qed.

Lemma Contains_byte s c : Contains s (String c EmptyString) = has_byte c s.
Proof.
  induction s as [|d s IH]; simpl; [done|]. rewrite IH.
  destruct (Ascii.ascii_dec c d) as [->|Hd]; simpl.
  - rewrite Ascii.eqb_refl. by destruct s.
  - destruct (Ascii.eqb_spec d c); [congruence | done].
Qed.

Lemma has_byte_app c a b : has_byte c (a +:+ b) = has_byte c a || has_byte c b.
Proof. induction a as [|d a IH]; simpl; [done|]. by rewrite IH, orb_assoc. Qed.

Lemma app_assoc (a b c : string) : (a +:+ b) +:+ c = a +:+ (b +:+ c).
Proof. induction a as [|x a IH]; simpl; [done|]. by rewrite IH. Qed.

Lemma app_nil_r (a : string) : a +:+ "" = a.
Proof. induction a as [|x a IH]; simpl; [done|]. by rewrite IH. Qed.

Lemma app_inv_l (k a b : string) : k +:+ a = k +:+ b -> a = b.
Proof. induction k as [|c k IH]; simpl; [done|]. intros [= He]. auto. Qed.

(** Two separator-free texts, each followed by nothing or by the separator
    and more, are equal with their tails when the wholes are. *)
Definition tail_of (sep : ascii) (s : string) : Prop :=
  s = "" \/ exists r, s = String sep r.

Lemma app_sep_inj sep a b s t :
  tail_of sep s -> tail_of sep t ->
  has_byte sep a = false -> has_byte sep b = false ->
  a +:+ s = b +:+ t -> a = b /\ s = t.
Proof.
  intros Hs Ht. revert b. induction a as [|c a IH]; intros [|d b] Ha Hb; simpl in *.
  - done.
  - intros ->. destruct Hs as [?|[r [= -> _]]]; [done|]. by rewrite Ascii.eqb_refl in Hb.
  - intros <-. destruct Ht as [?|[r [= -> _]]]; [done|]. by rewrite Ascii.eqb_refl in Ha.
  - intros [= -> He]. apply orb_false_iff in Ha as [_ Ha], Hb as [_ Hb].
    by destruct (IH b Ha Hb He) as [-> ->].
Qed.
End strings.

(** ** Package strconv *)
Module strconv.
Definition digit_char (d : Z) : ascii := Ascii.ascii_of_nat (48 + Z.to_nat d).
Definition digit_val (c : ascii) : Z := Z.of_nat (Ascii.nat_of_ascii c) - 48.
Definition is_digit (c : ascii) : bool :=
  (48 <=? Z.of_nat (Ascii.nat_of_ascii c)) && (Z.of_nat (Ascii.nat_of_ascii c) <=? 57).

#[global] Arguments digit_char : simpl never.
#[global] Arguments digit_val : simpl never.
#[global] Arguments is_digit : simpl never.

Fixpoint all_digits (s : string) : bool :=
  match s with
  | EmptyString => true
  | String c s' => is_digit c && all_digits s'
  end.

(** The value of a digit string, most significant digit first. *)
Fixpoint digits_val (acc : Z) (s : string) : Z :=
  match s with
  | EmptyString => acc
  | String c s' => digits_val (acc * 10 + digit_val c) s'
  end.

(** [strconv.FormatInt(n, 10)], also what [fmt]'s [%d] prints. *)
Definition FormatInt (n : Z) : string := pretty n.

Inductive num_error := ErrSyntax | ErrRange.

#[global] Instance num_error_eq_dec : EqDecision num_error.
Proof. solve_decision. Defined.

Definition uint64_max : Z := 18446744073709551615.

(** The digit loop of [ParseUint(s, 10, 64)]: a byte that is not a digit is
    a syntax error, a value past 2^64-1 stops the loop with a range error. *)
Fixpoint parse_uint_loop (n : Z) (s : string) : num_error + Z :=
  match s with
  | EmptyString => inr n
  | String c s' =>
      if negb (is_digit c) then inl ErrSyntax
      else if uint64_max / 10 + 1 <=? n then inl ErrRange
      else
        let n1 := n * 10 + digit_val c in
        if uint64_max <? n1 then inl ErrRange
        else parse_uint_loop n1 s'
  end.

Definition ParseUint (s : string) : num_error + Z :=
  match s with
  | EmptyString => inl ErrSyntax
  | _ => parse_uint_loop 0 s
  end.

#[global] Arguments ParseUint : simpl never.

(** [strconv.ParseInt(s, 10, 64)]; the value returned beside an error is
    never read by the callers. *)
Definition ParseInt (s : string) : num_error + Z :=
  match s with
  | EmptyString => inl ErrSyntax
  | String c s' =>
      let neg := Ascii.eqb c "-"%char in
      let u := if neg || Ascii.eqb c "+"%char then s' else s in
      match ParseUint u with
      | inl e => inl e
      | inr un =>
          if negb neg && (9223372036854775808 <=? un) then inl ErrRange
          else if neg && (9223372036854775808 <? un) then inl ErrRange
          else inr (if neg then - un else un)
      end
  end.

Lemma digit_val_char d : 0 <= d < 10 -> digit_val (digit_char d) = d.
Proof.
  intros ?. unfold digit_val, digit_char.
  rewrite Ascii.nat_ascii_embedding; lia.
Qed.

Lemma is_digit_char d : 0 <= d < 10 -> is_digit (digit_char d) = true.
Proof.
  intros ?. unfold is_digit, digit_char.
  rewrite Ascii.nat_ascii_embedding by lia.
  apply andb_true_iff; split; apply Z.leb_le; lia.
Qed.

Lemma is_digit_val c : is_digit c = true -> 0 <= digit_val c < 10.
Proof.
  unfold is_digit, digit_val. intros [H1%Z.leb_le H2%Z.leb_le]%andb_true_iff. lia.
Qed.

Lemma digits_val_app acc a b : digits_val acc (a +:+ b) = digits_val (digits_val acc a) b.
Proof. revert acc. induction a as [|c a IH]; intros acc; simpl; auto. Qed.

Lemma all_digits_app a b : all_digits (a +:+ b) = all_digits a && all_digits b.
Proof. induction a as [|c a IH]; simpl; [done|]. by rewrite IH, andb_assoc. Qed.

Lemma digits_val_ge acc s :
  0 <= acc -> all_digits s = true -> acc <= digits_val acc s.
Proof.
  revert acc. induction s as [|c s IH]; intros acc Ha; simpl; [lia|].
  intros [Hc Hs]%andb_true_iff. apply is_digit_val in Hc.
  specialize (IH (acc * 10 + digit_val c) ltac:(lia) Hs). lia.
Qed.

(** The loop computes the value exactly when all bytes are digits and the
    value fits 64 bits. *)
Lemma parse_uint_loop_spec n s v :
  0 <= n <= uint64_max ->
  parse_uint_loop n s = inr v <->
  all_digits s = true /\ digits_val n s = v /\ v <= uint64_max.
Proof.
  revert n. induction s as [|c s IH]; intros n Hn; simpl.
  - split; [intros [= <-]; repeat split; lia | by intros (_ & -> & _)].
  - destruct (is_digit c) eqn:Hc; simpl; [|split; [done|]; by intros [? _]].
    pose proof (is_digit_val _ Hc) as Hd.
    assert (0 <= n * 10 + digit_val c) by lia.
    unfold uint64_max in *.
    destruct (Z.leb_spec (18446744073709551615 / 10 + 1) n) as [Hbig|Hsmall].
    + split; [done|]. intros (Hs & Hv & Hle).
      pose proof (digits_val_ge (n * 10 + digit_val c) s ltac:(lia) Hs).
      change (18446744073709551615 / 10) with 1844674407370955161 in Hbig. lia.
    + destruct (Z.ltb_spec 18446744073709551615 (n * 10 + digit_val c)).
      * split; [done|]. intros (Hs & Hv & Hle).
        pose proof (digits_val_ge (n * 10 + digit_val c) s ltac:(lia) Hs). lia.
      * apply IH. lia.
Qed.

Lemma all_digits_no_byte c s :
  is_digit c = false -> all_digits s = true -> strings.has_byte c s = false.
Proof.
  intros Hc. induction s as [|d s IH]; simpl; [done|].
  intros [Hd Hs]%andb_true_iff. rewrite IH by done.
  destruct (Ascii.eqb_spec d c); [congruence | done].
Qed.

(** [pretty] on [N] prints decimal digits. *)
Lemma pretty_N_char_digit x : (x < 10)%N -> pretty_N_char x = digit_char (Z.of_N x).
Proof.
  intros Hx. assert (x = 0 \/ x = 1 \/ x = 2 \/ x = 3 \/ x = 4 \/ x = 5 \/ x = 6
    \/ x = 7 \/ x = 8 \/ x = 9)%N as Hc by lia.
  by repeat destruct Hc as [-> | Hc]; [done..|subst].
Qed.

Lemma pretty_N_go_digits x s :
  all_digits s = true ->
  all_digits (pretty_N_go x s) = true /\
  digits_val 0 (pretty_N_go x s) = digits_val (Z.of_N x) s.
Proof.
  revert s. induction (N.lt_wf_0 x) as [x _ IH]; intros s Hs.
  destruct (decide (x = 0)%N) as [->|Hx]; [by rewrite pretty_N_go_0|].
  rewrite pretty_N_go_step by lia.
  assert (x `mod` 10 < 10)%N as Hm by (apply N.mod_lt; lia).
  assert (0 <= Z.of_N (x `mod` 10) < 10) as Hz
    by (split; [apply N2Z.is_nonneg | by apply (N2Z.inj_lt _ 10)]).
  rewrite pretty_N_char_digit by done.
  destruct (IH (x `div` 10)%N ltac:(apply N.div_lt; lia)
    (String (digit_char (Z.of_N (x `mod` 10))) s)) as [IH1 IH2].
  { cbn [all_digits]. by rewrite Hs, is_digit_char. }
  split; [done|]. rewrite IH2. cbn [digits_val]. f_equal.
  rewrite digit_val_char by done. rewrite N2Z.inj_div, N2Z.inj_mod.
  change (Z.of_N 10) with 10.
  pose proof (Z.div_mod (Z.of_N x) 10 ltac:(lia)). lia.
Qed.

Lemma pretty_N_digits (x : N) :
  all_digits (pretty x) = true /\ digits_val 0 (pretty x) = Z.of_N x /\
  pretty x <> EmptyString.
Proof.
  unfold pretty, pretty_N. case_decide as Hx; [by subst|].
  destruct (pretty_N_go_digits x "" eq_refl) as [H1 H2]. repeat split; [done..|].
  intros He. rewrite He in H2. simpl in H2. lia.
Qed.

Lemma FormatInt_nonneg n :
  0 <= n ->
  all_digits (FormatInt n) = true /\ digits_val 0 (FormatInt n) = n /\
  FormatInt n <> EmptyString.
Proof.
  intros Hn. pose proof (pretty_N_digits (Z.to_N n)) as Hd.
  assert (FormatInt n = pretty (Z.to_N n)) as ->.
  { unfold FormatInt. by destruct n. }
  destruct Hd as (? & Hv & ?). repeat split; [done | | done]. lia.
Qed.

#[global] Instance FormatInt_inj : Inj (=) (=) FormatInt.
Proof. intros x y. apply (inj pretty). Qed.

Lemma FormatInt_no_byte c n :
  is_digit c = false -> c <> "-"%char -> strings.has_byte c (FormatInt n) = false.
Proof.
  intros Hc Hm. destruct n as [|p|p].
  - apply all_digits_no_byte; [done|]. by apply (FormatInt_nonneg 0).
  - apply all_digits_no_byte; [done|]. by apply (FormatInt_nonneg (Z.pos p)).
  - change (FormatInt (Z.neg p)) with ("-" +:+ pretty (N.pos p)).
    rewrite strings.has_byte_app, (all_digits_no_byte c (pretty _));
      [|done|by apply pretty_N_digits].
    change (Ascii.eqb "-" c || false || false = false).
    by rewrite (proj2 (Ascii.eqb_neq "-" c)).
Qed.

Lemma first_digit_not_sign c s :
  all_digits (String c s) = true ->
  Ascii.eqb c "-"%char = false /\ Ascii.eqb c "+"%char = false.
Proof.
  simpl. intros [Hc _]%andb_true_iff.
  split; apply Ascii.eqb_neq; intros ->; done.
Qed.

(** An unsigned decimal literal parses to its value when it fits. *)
Lemma ParseInt_digits s :
  s <> EmptyString -> all_digits s = true -> digits_val 0 s <= int64_max ->
  ParseInt s = inr (digits_val 0 s).
Proof.
  destruct s as [|c s]; [done|]. intros _ Hd Hv.
  destruct (first_digit_not_sign _ _ Hd) as [Hm Hp].
  unfold ParseInt. rewrite Hm, Hp. cbn [orb andb negb].
  unfold ParseUint. unfold int64_max in Hv.
  destruct (parse_uint_loop_spec 0 (String c s) (digits_val 0 (String c s))
    ltac:(unfold uint64_max; lia)) as [_ Hok].
  rewrite Hok by (unfold uint64_max; repeat split; [done | lia]).
  zcases; [lia | done].
Qed.

Lemma ParseInt_FormatInt_nonneg n :
  0 <= n <= int64_max -> ParseInt (FormatInt n) = inr n.
Proof.
  intros [H0 H1]. destruct (FormatInt_nonneg n H0) as (Hd & Hv & Hne).
  rewrite ParseInt_digits; [by rewrite Hv | done..| by rewrite Hv].
Qed.

Lemma ParseInt_range s v : ParseInt s = inr v -> int64_min <= v <= int64_max.
Proof.
  destruct s as [|c s]; [done|]. unfold ParseInt, int64_min, int64_max.
  set (u := if _ || _ then s else String c s).
  destruct (ParseUint u) as [e|un] eqn:Hu; [done|].
  assert (0 <= un).
  { unfold ParseUint in Hu. destruct u as [|d u]; [done|].
    apply parse_uint_loop_spec in Hu as (Hd & <- & _); [|unfold uint64_max; lia].
    by apply digits_val_ge. }
  destruct (Ascii.eqb c "-"%char); simpl; zcases; try done; intros [= <-]; lia.
Qed.

(** A literal that does not start with a minus sign is not negative. *)
Lemma ParseInt_nonneg s v :
  ParseInt s = inr v -> strings.has_byte "-" s = false -> 0 <= v.
Proof.
  destruct s as [|c s]; [done|]. unfold ParseInt. simpl strings.has_byte.
  intros Hp [Hc _]%orb_false_iff. rewrite Hc in Hp. simpl in Hp.
  destruct (ParseUint _) as [e|un] eqn:Hu; [done|].
  assert (0 <= un) as Hun.
  { unfold ParseUint in Hu. destruct (if Ascii.eqb c "+" then s else String c s); [done|].
    apply parse_uint_loop_spec in Hu as (Hd & <- & _); [|unfold uint64_max; lia].
    by apply digits_val_ge. }
  destruct (9223372036854775808 <=? un); [done|]. simpl in Hp. by injection Hp as <-.
Qed.
End strconv.

(** ** Errors

    The error values the program tells apart. [Error] is Go's [err.Error()],
    which the status mapping of the handler searches. *)
Inductive goerr :=
| ErrorString (msg : string)                          (* errors.New, errors.Errorf *)
| Wrap (msg : string) (cause : goerr)                 (* errors.Wrap(cause, msg) *)
| NumError (num : string) (e : strconv.num_error)     (* *strconv.NumError *)
| Canceled                                            (* context.Canceled *)
| DeadlineExceeded                                    (* context.DeadlineExceeded *)
| OsNotExist (msg : string)                           (* os.IsNotExist *)
| OsError (msg : string)
| OsDeadlineExceeded                                  (* os.ErrDeadlineExceeded *)
| RequestFailure (code : Z) (msg : string)            (* awserr.RequestFailure *)
| IoEOF
| IoUnexpectedEOF
| HttpNotSupported.                                   (* http.ErrNotSupported *)

#[global] Instance goerr_eq_dec : EqDecision goerr.
Proof. solve_decision. Defined.

Module errors.
Definition quote : ascii := ascii_of_nat 34.

(** [strconv.Quote] on the bytes of header values that need no escape. *)
Definition Quote (s : string) : string := String quote s +:+ String quote EmptyString.

Fixpoint Error (e : goerr) : string :=
  match e with
  | ErrorString m | OsNotExist m | OsError m | RequestFailure _ m => m
  | Wrap m c => m +:+ ": " +:+ Error c
  | NumError num strconv.ErrSyntax =>
      "strconv.ParseInt: parsing " +:+ Quote num +:+ ": invalid syntax"
  | NumError num strconv.ErrRange =>
      "strconv.ParseInt: parsing " +:+ Quote num +:+ ": value out of range"
  | Canceled => "context canceled"
  | DeadlineExceeded => "context deadline exceeded"
  | OsDeadlineExceeded => "i/o timeout"
  | IoEOF => "EOF"
  | IoUnexpectedEOF => "unexpected EOF"
  | HttpNotSupported => "feature not supported"
  end.

Definition IsNotExist (e : goerr) : bool :=
  match e with OsNotExist _ => true | _ => false end.

Fixpoint IsDeadlineExceeded (e : goerr) : bool :=
  match e with
  | OsDeadlineExceeded => true
  | Wrap _ c => IsDeadlineExceeded c
  | _ => false
  end.

Fixpoint IsNotSupported (e : goerr) : bool :=
  match e with
  | HttpNotSupported => true
  | Wrap _ c => IsNotSupported c
  | _ => false
  end.

(** [errors.As(err, &rf) && rf.StatusCode() == code]. *)
Fixpoint IsRequestFailure (code : Z) (e : goerr) : bool :=
  match e with
  | RequestFailure c _ => c =? code
  | Wrap _ c => IsRequestFailure code c
  | _ => false
  end.
End errors.
