(* ===== verification/GoTime.v ===== *)
(** * Package time: instants and RFC 3339 text

    What the version markers rely on: instants as nanoseconds, and the layout
    [time.RFC3339Nano], printed in UTC and parsed back. The client side is the
    interface [TimeLayout]; [rfc3339] is its implementation. *)
From S2P Require Import Prelude GoStd.

(** ** Instants

    A [time.Time] is its Unix time in nanoseconds; the zero [time.Time] is
    the start of year 1. *)
Definition time_zero : Z := - 62135596800000000000.
Definition IsZero (t : Z) : bool := t =? time_zero.
Definition Before (t u : Z) : bool := t <? u.
(** [t.Sub(u)], a [time.Duration], saturates. *)
Definition Sub (t u : Z) : Z := Z.max int64_min (Z.min int64_max (t - u)).

(** ** [strings.TrimSpace] for ASCII text *)
Definition is_space (c : ascii) : bool :=
  let n := nat_of_ascii c in bool_decide (n = 32 \/ 9 <= n <= 13)%nat.
Fixpoint trim_left (s : string) : string :=
  match s with
  | String c s' => if is_space c then trim_left s' else s
  | EmptyString => s
  end.
Definition string_rev (s : string) : string :=
  string_of_list_ascii (rev (list_ascii_of_string s)).
Definition TrimSpace (s : string) : string := string_rev (trim_left (string_rev (trim_left s))).

(** What the cache needs of the layout: it reads back what it printed. *)
Class TimeLayout := {
  RFC3339Nano_Format : Z -> string;
  RFC3339Nano_Parse : string -> goerr + Z;
  RFC3339Nano_ok : Z -> Prop;
  RFC3339Nano_roundtrip t :
    RFC3339Nano_ok t -> RFC3339Nano_Parse (TrimSpace (RFC3339Nano_Format t)) = inr t;
}.

(** ** The proleptic Gregorian calendar *)
Module civil.
Definition leap (y : Z) : bool :=
  (y mod 4 =? 0) && (negb (y mod 100 =? 0) || (y mod 400 =? 0)).
Definition days_in (m : Z) (lp : bool) : Z :=
  if m =? 2 then (if lp then 29 else 28)
  else if (m =? 4) || (m =? 6) || (m =? 9) || (m =? 11) then 30 else 31.

(** Within a 400-year era counted from March 1st: centuries, four-year
    cycles and years, the last of each possibly a leap day longer; then
    month and day from the day of such a year. *)
Definition era_year (doe : Z) : Z * Z :=
  let c := Z.min (doe / 36524) 3 in
  let r1 := doe - 36524 * c in
  let r2 := r1 mod 1461 in
  let y := Z.min (r2 / 365) 3 in
  (100 * c + 4 * (r1 / 1461) + y, r2 - 365 * y).
Definition month_day (doy : Z) : Z * Z :=
  let mp := (5 * doy + 2) / 153 in
  (if mp <? 10 then mp + 3 else mp - 9, doy - (153 * mp + 2) / 5 + 1).
Definition day_of_year (m d : Z) : Z :=
  (153 * (if 2 <? m then m - 3 else m + 9) + 2) / 5 + d - 1.
Definition era_day (yoe doy : Z) : Z := yoe * 365 + yoe / 4 - yoe / 100 + doy.
Definition early (m : Z) : Z := if m <=? 2 then 1 else 0.

(** Days since 1970-01-01 to year, month and day, and back. *)
Definition of_days (n : Z) : Z * Z * Z :=
  let z := n + 719468 in
  let '(yoe, doy) := era_year (z mod 146097) in
  let '(m, d) := month_day doy in
  (yoe + z / 146097 * 400 + early m, m, d).
Definition to_days (y m d : Z) : Z :=
  let y := y - early m in
  y / 400 * 146097 + era_day (y mod 400) (day_of_year m d) - 719468.

Definition valid (y m d : Z) : bool :=
  (1 <=? m) && (m <=? 12) && (1 <=? d) && (d <=? days_in m (leap y)).

Lemma era_year_spec doe :
  0 <= doe < 146097 ->
  let '(yoe, doy) := era_year doe in
  0 <= yoe < 400 /\ 0 <= doy <= 365 /\ era_day yoe doy = doe /\
  (doy = 365 -> leap (yoe + 1) = true).
Proof.
  intros Hd. unfold era_year, era_day, leap.
  set (c := Z.min (doe / 36524) 3). set (r1 := doe - 36524 * c).
  set (q := r1 / 1461). set (r2 := r1 mod 1461). set (y := Z.min (r2 / 365) 3).
  assert (0 <= c <= 3 /\ 0 <= r1 <= 36524 /\ (c < 3 -> r1 <= 36523)) as (Hc & Hr1 & Hc3).
  { unfold r1, c. pose proof (Z.div_mod doe 36524 ltac:(lia)).
    pose proof (Z.mod_pos_bound doe 36524 ltac:(lia)). lia. }
  pose proof (Z.div_mod r1 1461 ltac:(lia)) as Hdm. fold q r2 in Hdm.
  pose proof (Z.mod_pos_bound r1 1461 ltac:(lia)) as Hr2. fold r2 in Hr2.
  assert (0 <= y <= 3 /\ 0 <= r2 - 365 * y <= 365 /\ (r2 - 365 * y = 365 -> y = 3)) as (Hy & Hdoy & H365).
  { unfold y. pose proof (Z.div_mod r2 365 ltac:(lia)).
    pose proof (Z.mod_pos_bound r2 365 ltac:(lia)). lia. }
  assert (0 <= q <= 24) as Hq by lia.
  assert ((100 * c + 4 * q + y) / 4 = 25 * c + q) as ->
    by (symmetry; apply (Z.div_unique _ 4 _ y); lia).
  assert ((100 * c + 4 * q + y) / 100 = c) as ->
    by (symmetry; apply (Z.div_unique _ 100 _ (4 * q + y)); lia).
  repeat split; try lia. intros Hl. specialize (H365 Hl). rewrite H365 in *.
  assert ((100 * c + 4 * q + 3 + 1) mod 4 = 0) as ->
    by (symmetry; apply (Z.mod_unique _ 4 (25 * c + q + 1)); lia).
  destruct (decide (q = 24)) as [->|Hq'].
  - assert (c = 3) as -> by lia. done.
  - assert ((100 * c + 4 * q + 3 + 1) mod 100 = 4 * q + 4) as ->
      by (symmetry; apply (Z.mod_unique _ 100 c); lia).
    destruct (Z.eqb_spec (4 * q + 4) 0); [lia|done].
Qed.

Fixpoint all_below (n : nat) (p : Z -> bool) (i : Z) : bool :=
  match n with O => true | S n' => p i && all_below n' p (i + 1) end.

Lemma all_below_spec n p i j :
  all_below n p i = true -> i <= j < i + Z.of_nat n -> p j = true.
Proof.
  revert i. induction n as [|n IH]; intros i; cbn [all_below]; [lia|].
  intros [Hp Ha]%andb_true_iff Hj. destruct (decide (i = j)) as [->|]; [done|].
  apply (IH (i + 1)); [done|lia].
Qed.

Definition month_ok (doy : Z) : bool :=
  let '(m, d) := month_day doy in
  (1 <=? m) && (m <=? 12) && (1 <=? d) && (d <=? days_in m (doy =? 365)) &&
  (day_of_year m d =? doy) && (if doy =? 365 then m =? 2 else true).
Lemma months_checked : all_below 366 month_ok 0 = true.
Proof. vm_compute. reflexivity. Qed.

Lemma days_in_mono m lp lp' :
  (lp = true -> lp' = true) -> days_in m lp <= days_in m lp'.
Proof. intros Hl. unfold days_in. destruct lp; [rewrite Hl by done; lia|]. by destruct (m =? 2), lp'. Qed.

Lemma month_day_spec doy y :
  0 <= doy <= 365 -> (doy = 365 -> leap (y + 1) = true) ->
  let '(m, d) := month_day doy in
  valid (y + early m) m d = true /\ day_of_year m d = doy.
Proof.
  intros Hd Hl. pose proof (all_below_spec _ _ 0 doy months_checked ltac:(lia)) as Hok.
  unfold month_ok in Hok. destruct (month_day doy) as [m d].
  repeat (apply andb_true_iff in Hok as [Hok ?]).
  split; [|by apply Z.eqb_eq]. unfold valid.
  repeat (apply andb_true_iff; split); try done.
  apply Z.leb_le. etrans; [by apply Z.leb_le|]. apply days_in_mono.
  intros ->%Z.eqb_eq. simpl in *. assert (m = 2) as -> by (by apply Z.eqb_eq). by apply Hl.
Qed.

Lemma leap_period y e : leap (y + e * 400) = leap y.
Proof.
  unfold leap.
  replace ((y + e * 400) mod 4) with (y mod 4).
  2:{ replace (e * 400) with ((e * 100) * 4) by lia. by rewrite Z.mod_add. }
  replace ((y + e * 400) mod 100) with (y mod 100).
  2:{ replace (e * 400) with ((e * 4) * 100) by lia. by rewrite Z.mod_add. }
  by rewrite Z.mod_add.
Qed.

Lemma of_days_spec n :
  let '(y, m, d) := of_days n in valid y m d = true /\ to_days y m d = n.
Proof.
  unfold of_days. set (z := n + 719468).
  pose proof (era_year_spec (z mod 146097) (Z.mod_pos_bound z 146097 ltac:(lia))) as He.
  destruct (era_year (z mod 146097)) as [yoe doy]. destruct He as (Hy & Hdoy & He & Hl).
  pose proof (month_day_spec doy yoe Hdoy Hl) as Hm. destruct (month_day doy) as [m d].
  destruct Hm as [Hv Hm]. split.
  - unfold valid in *.
    replace (yoe + z / 146097 * 400 + early m) with (yoe + early m + z / 146097 * 400) by lia.
    by rewrite leap_period.
  - unfold to_days.
    replace (yoe + z / 146097 * 400 + early m - early m) with (yoe + z / 146097 * 400) by lia.
    rewrite Z.div_add, Z.mod_add by lia.
    rewrite (Z.div_small yoe), (Z.mod_small yoe), Hm, He by lia.
    pose proof (Z.div_mod z 146097 ltac:(lia)). unfold z in *. lia.
Qed.
End civil.

(** ** The layout [time.RFC3339Nano] *)
Module rfc3339.
Import strconv.

(** [k] decimal digits, zero padded. *)
Fixpoint digits (k : nat) (x : Z) : string :=
  match k with
  | O => EmptyString
  | S k' => digits k' (x / 10) +:+ String (digit_char (x mod 10)) EmptyString
  end.

Fixpoint trim_zeros (s : string) : string :=
  match s with
  | EmptyString => EmptyString
  | String c s' =>
      match trim_zeros s' with
      | EmptyString => if Ascii.eqb c "0" then EmptyString else String c EmptyString
      | t => String c t
      end
  end.

Definition second : Z := 1000000000.
Definition fraction (ns : Z) : string :=
  if ns =? 0 then EmptyString else "." +:+ trim_zeros (digits 9 ns).

(** [t.UTC().Format(time.RFC3339Nano)] for the years 0 to 9999 the layout
    has room for. *)
Definition Format (t : Z) : string :=
  let s := t / second in
  let '(y, m, d) := civil.of_days (s / 86400) in
  let sod := s mod 86400 in
  digits 4 y +:+ "-" +:+ digits 2 m +:+ "-" +:+ digits 2 d +:+ "T" +:+
  digits 2 (sod / 3600) +:+ ":" +:+ digits 2 (sod / 60 mod 60) +:+ ":" +:+
  digits 2 (sod mod 60) +:+ fraction (t mod second) +:+ "Z".

(** The parser: [None] stands for any [*time.ParseError]. *)
Definition fixed (k : nat) (s : string) : option (Z * string) :=
  let p := strings.take k s in
  if bool_decide (String.length p = k) && all_digits p
  then Some (digits_val 0 p, strings.drop k s) else None.
Definition lit (c : ascii) (s : string) : option string :=
  match s with
  | String d s' => if Ascii.eqb c d then Some s' else None
  | EmptyString => None
  end.
Fixpoint span_digits (s : string) : string * string :=
  match s with
  | String c s' =>
      if is_digit c then let '(a, b) := span_digits s' in (String c a, b) else (EmptyString, s)
  | EmptyString => (EmptyString, s)
  end.
(** The hour may have one digit. *)
Definition hour (s : string) : option (Z * string) :=
  match fixed 2 s with Some r => Some r | None => fixed 1 s end.
(** An optional fraction after a period or comma: at most nine digits count. *)
Definition frac (s : string) : Z * string :=
  match s with
  | String c s' =>
      if Ascii.eqb c "." || Ascii.eqb c "," then
        match span_digits s' with
        | (EmptyString, _) => (0, s)
        | (ds, rest) =>
            let ds := strings.take 9 ds in
            (digits_val 0 ds * 10 ^ (9 - Z.of_nat (String.length ds)), rest)
        end
      else (0, s)
  | EmptyString => (0, s)
  end.
Definition zone (s : string) : option (Z * string) :=
  match s with
  | String c s' =>
      if Ascii.eqb c "Z" then Some (0, s')
      else if Ascii.eqb c "+" || Ascii.eqb c "-" then
        '(h, r) ← fixed 2 s'; r ← lit ":" r; '(m, r) ← fixed 2 r;
        if (24 <? h) || (60 <? m) then None
        else Some ((h * 60 + m) * 60 * (if Ascii.eqb c "+" then 1 else -1), r)
      else None
  | EmptyString => None
  end.
Definition parse (s : string) : option Z :=
  '(y, r) ← fixed 4 s; r ← lit "-" r;
  '(mo, r) ← fixed 2 r; r ← lit "-" r;
  '(d, r) ← fixed 2 r; r ← lit "T" r;
  '(h, r) ← hour r; r ← lit ":" r;
  '(mi, r) ← fixed 2 r; r ← lit ":" r;
  '(se, r) ← fixed 2 r;
  let '(ns, r) := frac r in
  '(off, r) ← zone r;
  if negb (String.eqb r "") || negb (civil.valid y mo d) ||
     (24 <=? h) || (60 <=? mi) || (60 <=? se) then None
  else Some ((civil.to_days y mo d * 86400 + h * 3600 + mi * 60 + se - off) * second + ns).
Definition Parse (s : string) : goerr + Z :=
  match parse s with
  | Some t => inr t
  | None => inl (ErrorString ("parsing time " +:+ errors.Quote s))
  end.

Definition year (t : Z) : Z := (civil.of_days (t / second / 86400)).1.1.
Definition in_range (t : Z) : Prop := 0 <= year t < 10000.

Lemma all_digits_digits k x : all_digits (digits k x) = true.
Proof.
  revert x. induction k as [|k IH]; intros x; cbn [digits]; [done|].
  rewrite all_digits_app, IH. cbn [all_digits].
  by rewrite is_digit_char by (apply Z.mod_pos_bound; lia).
Qed.

Lemma length_app (a b : string) :
  String.length (a +:+ b) = (String.length a + String.length b)%nat.
Proof. induction a as [|c a IH]; cbn; [done|]. by rewrite IH. Qed.

Lemma length_digits k x : String.length (digits k x) = k.
Proof.
  revert x. induction k as [|k IH]; intros x; cbn [digits]; [done|].
  rewrite length_app, IH. cbn. lia.
Qed.

Lemma digits_val_digits k x :
  0 <= x < 10 ^ Z.of_nat k -> digits_val 0 (digits k x) = x.
Proof.
  revert x. induction k as [|k IH]; intros x Hx; cbn [digits].
  { cbn in *. lia. }
  rewrite Nat2Z.inj_succ, Z.pow_succ_r in Hx by lia.
  pose proof (Z.div_mod x 10 ltac:(lia)). pose proof (Z.mod_pos_bound x 10 ltac:(lia)).
  rewrite digits_val_app, IH.
  - cbn [digits_val]. rewrite digit_val_char by lia. lia.
  - split; [apply Z.div_pos; lia | apply Z.div_lt_upper_bound; lia].
Qed.

Lemma take_app a b : strings.take (String.length a) (a +:+ b) = a.
Proof. induction a as [|c a IH]; cbn; [by destruct b|]. by rewrite IH. Qed.

Lemma fixed_digits k x r :
  0 <= x < 10 ^ Z.of_nat k -> fixed k (digits k x +:+ r) = Some (x, r).
Proof.
  intros Hx. unfold fixed.
  pose proof (take_app (digits k x) r) as Ht. pose proof (strings.drop_length_app (digits k x) r) as Hd.
  rewrite length_digits in Ht, Hd. rewrite Ht, Hd, length_digits, all_digits_digits.
  rewrite bool_decide_true by done. cbn [andb]. by rewrite digits_val_digits.
Qed.

Lemma span_digits_app a r :
  all_digits a = true -> (forall c r', r = String c r' -> is_digit c = false) ->
  span_digits (a +:+ r) = (a, r).
Proof.
  intros Ha Hr. induction a as [|c a IH]; cbn.
  - destruct r as [|c r]; [done|]. cbn. by rewrite (Hr c r eq_refl).
  - cbn in Ha. apply andb_true_iff in Ha as [Hc Ha]. by rewrite Hc, IH.
Qed.

(** Trimming the zeros divides by a power of ten. *)
Lemma trim_zeros_spec s :
  all_digits s = true ->
  all_digits (trim_zeros s) = true /\
  (String.length (trim_zeros s) <= String.length s)%nat /\
  (forall acc, digits_val acc (trim_zeros s) *
     10 ^ Z.of_nat (String.length s - String.length (trim_zeros s)) = digits_val acc s).
Proof.
  induction s as [|c s IH]; cbn [trim_zeros all_digits].
  { intros _. split; [done|]. split; [done|]. intros acc. cbn. lia. }
  intros [Hc Hs]%andb_true_iff. destruct (IH Hs) as (IH1 & IH2 & IH3).
  destruct (trim_zeros s) as [|d t] eqn:Ht.
  - destruct (Ascii.eqb_spec c "0") as [->|].
    + split; [done|]. split; [cbn; lia|]. intros acc. cbn [digits_val].
      rewrite <- IH3. cbn [digits_val String.length]. rewrite !Nat.sub_0_r.
      change (digit_val "0") with 0. rewrite Nat2Z.inj_succ, Z.pow_succ_r by lia. ring.
    + cbn [all_digits String.length digits_val] in *. rewrite Hc. split; [done|].
      split; [lia|]. intros acc. rewrite <- IH3. cbn [digits_val String.length]. f_equal.
  - cbn [all_digits String.length digits_val] in *. rewrite Hc. split; [done|].
    split; [lia|]. intros acc. rewrite <- IH3. done.
Qed.

Lemma frac_fraction ns r :
  0 <= ns < second ->
  (forall c r', r = String c r' -> is_digit c = false /\ Ascii.eqb c "." = false /\ Ascii.eqb c "," = false) ->
  frac (fraction ns +:+ r) = (ns, r).
Proof.
  intros Hn Hr. unfold fraction. destruct (Z.eqb_spec ns 0) as [->|Hz].
  { cbn. destruct r as [|c r]; [done|]. destruct (Hr c r eq_refl) as (_ & H1 & H2).
    unfold frac. by rewrite H1, H2. }
  change (("." +:+ ?t) +:+ r) with (String "." (t +:+ r)). unfold frac. cbn [Ascii.eqb Bool.eqb orb].
  destruct (trim_zeros_spec (digits 9 ns) (all_digits_digits 9 ns)) as (Ha & Hl & Hv).
  rewrite length_digits in Hl, Hv. specialize (Hv 0).
  rewrite digits_val_digits in Hv by (cbn; unfold second in *; lia).
  rewrite span_digits_app; [|done|by intros c r' Hc; apply (Hr c r')].
  destruct (trim_zeros (digits 9 ns)) as [|c t] eqn:Ht; [cbn in Hv; lia|].
  replace (strings.take 9 (String c t)) with (String c t).
  - f_equal. rewrite <- Hv. f_equal. f_equal. lia.
  - symmetry. revert Hl. generalize (String c t). intros u Hl. clear -Hl.
    revert u Hl. generalize 9%nat. intros n u. revert n.
    induction u as [|a u IH]; intros [|n]; cbn; try done; [lia|]. intros ?. rewrite IH; [done|lia].
Qed.

Lemma string_rev_app_char s c : string_rev (s +:+ String c EmptyString) = String c (string_rev s).
Proof.
  unfold string_rev. replace (list_ascii_of_string (s +:+ String c EmptyString))
    with (list_ascii_of_string s ++ [c]).
  - by rewrite rev_app_distr.
  - induction s as [|d s IH]; cbn; [done|]. by rewrite IH.
Qed.
Lemma string_rev_involutive s : string_rev (string_rev s) = s.
Proof.
  unfold string_rev.
  by rewrite list_ascii_of_string_of_list_ascii, rev_involutive, string_of_list_ascii_of_string.
Qed.

(** Text between two non-blanks has nothing to trim. *)
Lemma TrimSpace_id c s d :
  is_space c = false -> is_space d = false ->
  TrimSpace (String c s +:+ String d EmptyString) = String c s +:+ String d EmptyString.
Proof.
  intros Hc Hd. unfold TrimSpace. cbn [String.append trim_left]. rewrite Hc.
  change (String c (s +:+ String d EmptyString)) with (String c s +:+ String d EmptyString).
  rewrite string_rev_app_char. cbn [trim_left]. rewrite Hd.
  by rewrite <- string_rev_app_char, string_rev_involutive.
Qed.

Lemma digits_head k x : exists c s, digits (S k) x = String c s /\ is_digit c = true.
Proof.
  pose proof (all_digits_digits (S k) x) as Ha. pose proof (length_digits (S k) x) as Hl.
  destruct (digits (S k) x) as [|c s]; [done|]. apply andb_true_iff in Ha as [? _]. eauto.
Qed.

Lemma is_digit_not_space c : is_digit c = true -> is_space c = false.
Proof.
  intros [H1%Z.leb_le H2%Z.leb_le]%andb_true_iff. unfold is_space.
  apply bool_decide_eq_false. lia.
Qed.

Lemma ends_app (a b z : string) :
  (exists v, b = v +:+ z) -> exists v, a +:+ b = v +:+ z.
Proof. intros [v ->]. exists (a +:+ v). by rewrite strings.app_assoc. Qed.

Lemma TrimSpace_Format t : TrimSpace (Format t) = Format t.
Proof.
  unfold Format. destruct (civil.of_days _) as [[y m] d].
  destruct (digits_head 3 y) as (c & s & -> & Hc).
  match goal with |- TrimSpace (?a +:+ ?b) = _ => set (u := b) end.
  assert (exists v, u = v +:+ "Z") as [v ->].
  { subst u. repeat apply ends_app. by exists "". }
  rewrite <- strings.app_assoc. change (String c s +:+ v) with (String c (s +:+ v)).
  apply TrimSpace_id; [by apply is_digit_not_space | done].
Qed.

Lemma roundtrip t : in_range t -> Parse (TrimSpace (Format t)) = inr t.
Proof.
  intros Hy. rewrite TrimSpace_Format. unfold Parse. unfold in_range, year in Hy.
  enough (parse (Format t) = Some t) as -> by done.
  pose proof (civil.of_days_spec (t / second / 86400)) as Hc. unfold Format, parse.
  destruct (civil.of_days (t / second / 86400)) as [[y m] d]. destruct Hc as [Hv Hd].
  set (s := t / second) in *. set (sod := s mod 86400).
  pose proof (Z.mod_pos_bound s 86400 ltac:(lia)) as Hs. fold sod in Hs.
  assert (0 <= sod / 3600 < 24) as Hh
    by (split; [apply Z.div_pos; lia | apply Z.div_lt_upper_bound; lia]).
  pose proof (Z.mod_pos_bound (sod / 60) 60 ltac:(lia)) as Hmi.
  pose proof (Z.mod_pos_bound sod 60 ltac:(lia)) as Hse.
  pose proof (Z.mod_pos_bound t second ltac:(done)) as Hns.
  pose proof Hv as Hv'. unfold civil.valid in Hv.
  repeat (apply andb_true_iff in Hv as [Hv ?]).
  assert (1 <= m <= 12 /\ 1 <= d <= 31) as [Hm' Hd'].
  { split; [lia|]. split; [lia|]. etrans; [by apply Z.leb_le|].
    unfold civil.days_in. repeat case_match; lia. }
  cbn in Hy.
  repeat (rewrite fixed_digits by (cbn; lia); cbn [mbind option_bind String.append lit Ascii.eqb Bool.eqb]).
  unfold hour.
  repeat (rewrite fixed_digits by (cbn; lia); cbn [mbind option_bind String.append lit Ascii.eqb Bool.eqb]).
  rewrite frac_fraction; [|done|by intros c r' [= <- _]].
  cbn [zone Ascii.eqb Bool.eqb mbind option_bind String.eqb negb]. rewrite Hv'. cbn [negb orb].
  zcases; try lia. cbn [orb]. f_equal. rewrite Hd.
  pose proof (Z.div_mod t second ltac:(done)) as Hdm1. fold s in Hdm1.
  pose proof (Z.div_mod s 86400 ltac:(lia)) as Hdm2. fold sod in Hdm2.
  pose proof (Z.div_mod sod 3600 ltac:(lia)). pose proof (Z.div_mod sod 60 ltac:(lia)).
  pose proof (Z.div_mod (sod / 60) 60 ltac:(lia)).
  rewrite Z.div_div in * by lia. change (60 * 60) with 3600 in *. lia.
Qed.
End rfc3339.

#[global] Instance rfc3339_layout : TimeLayout := {|
  RFC3339Nano_Format := rfc3339.Format;
  RFC3339Nano_Parse := rfc3339.Parse;
  RFC3339Nano_ok := rfc3339.in_range;
  RFC3339Nano_roundtrip := rfc3339.roundtrip;
|}.

Example Format_ex :
  rfc3339.Format 1709210096120000000 = "2024-02-29T12:34:56.12Z".
Proof. reflexivity. Qed.
Example Parse_ex : rfc3339.Parse "2024-02-29T14:34:56.12+02:00" = inr 1709210096120000000.
Proof. reflexivity. Qed.
Example zero_ex : rfc3339.Format time_zero = "0001-01-01T00:00:00Z".
Proof. reflexivity. Qed.

(** ** [time.Duration.String], what [%v] prints of a duration *)
Module duration.
Import strconv rfc3339.

(** [v] with the last [prec] digits after the point, less trailing zeros. *)
Definition fmtFrac (prec : nat) (v : Z) : string :=
  let p := 10 ^ Z.of_nat prec in
  FormatInt (v / p) +:+ if v mod p =? 0 then EmptyString else "." +:+ trim_zeros (digits prec (v mod p)).

(** [u] is the magnitude. *)
Definition format (u : Z) : string :=
  if u =? 0 then "0s"
  else if u <? 1000 then FormatInt u +:+ "ns"
  else if u <? 1000000 then
    fmtFrac 3 u +:+ String (ascii_of_nat 194) (String (ascii_of_nat 181) "s")
  else if u <? second then fmtFrac 6 u +:+ "ms"
  else
    let mins := u / (60 * second) in
    let secs := fmtFrac 9 (u mod (60 * second)) +:+ "s" in
    if mins =? 0 then secs
    else if mins <? 60 then FormatInt mins +:+ "m" +:+ secs
    else FormatInt (mins / 60) +:+ "h" +:+ FormatInt (mins mod 60) +:+ "m" +:+ secs.

Definition String_ (d : Z) : string := if d <? 0 then "-" +:+ format (- d) else format d.

Example String_1 : String_ (-5400000000000) = "-1h30m0s".
Proof. reflexivity. Qed.
Example String_2 : String_ 1500000 = "1.5ms".
Proof. reflexivity. Qed.
Example String_3 : String_ 90000000000 = "1m30s".
Proof. reflexivity. Qed.
End duration.
