(* ===== verification/Http.v ===== *)
(** * The HTTP response and the byte slices written to it

    [http.ResponseWriter] as the handlers see it: a header map that is frozen
    by the first [WriteHeader] (or the first body byte), a body, and a
    connection that may stop taking bytes. *)
From S2P Require Import Prelude GoStd.
From Stdlib Require Export Strings.Byte.

Abbreviation bytes := (list Byte.byte).

Module http.
Definition StatusOK : Z := 200.
Definition StatusPartialContent : Z := 206.
Definition StatusBadRequest : Z := 400.
Definition StatusForbidden : Z := 403.
Definition StatusNotFound : Z := 404.
Definition StatusMethodNotAllowed : Z := 405.
Definition StatusPreconditionFailed : Z := 412.
Definition StatusRequestedRangeNotSatisfiable : Z := 416.
Definition StatusBadGateway : Z := 502.

(** [w_sent] is the status line and the headers as committed; [w_fault]
    says after how many more body bytes the connection fails, and how. *)
Record ResponseWriter := {
  w_hdr : gmap string string;
  w_sent : option (Z * gmap string string);
  w_body : bytes;
  w_fault : option (nat * goerr);
  w_flush : option goerr;
}.

Definition fresh (fault : option (nat * goerr)) (flush : option goerr) : ResponseWriter :=
  {| w_hdr := ∅; w_sent := None; w_body := []; w_fault := fault; w_flush := flush |}.

Definition HeaderSet (k v : string) (w : ResponseWriter) : ResponseWriter :=
  {| w_hdr := <[k:=v]> (w_hdr w); w_sent := w_sent w; w_body := w_body w;
     w_fault := w_fault w; w_flush := w_flush w |}.

Definition HeaderDel (k : string) (w : ResponseWriter) : ResponseWriter :=
  {| w_hdr := delete k (w_hdr w); w_sent := w_sent w; w_body := w_body w;
     w_fault := w_fault w; w_flush := w_flush w |}.

(** Only the first call commits. *)
Definition WriteHeader (code : Z) (w : ResponseWriter) : ResponseWriter :=
  match w_sent w with
  | Some _ => w
  | None => {| w_hdr := w_hdr w; w_sent := Some (code, w_hdr w); w_body := w_body w;
               w_fault := w_fault w; w_flush := w_flush w |}
  end.

(** The bytes a failing connection still takes, and the outcome. *)
Definition Write (p : bytes) (w : ResponseWriter) : ResponseWriter * Z * option goerr :=
  let w := WriteHeader StatusOK w in
  match w_fault w with
  | Some (n, e) =>
      if decide (length p <= n)%nat then
        ({| w_hdr := w_hdr w; w_sent := w_sent w; w_body := w_body w ++ p;
            w_fault := Some ((n - length p)%nat, e); w_flush := w_flush w |},
         Z.of_nat (length p), None)
      else
        ({| w_hdr := w_hdr w; w_sent := w_sent w; w_body := w_body w ++ take n p;
            w_fault := Some (0%nat, e); w_flush := w_flush w |},
         Z.of_nat n, Some e)
  | None =>
      ({| w_hdr := w_hdr w; w_sent := w_sent w; w_body := w_body w ++ p;
          w_fault := None; w_flush := w_flush w |},
       Z.of_nat (length p), None)
  end.

(** [io.CopyN(w, src, n)] where [src] has the bytes [rest] left to read. *)
Definition CopyN (rest : bytes) (n : Z) (w : ResponseWriter)
    : ResponseWriter * Z * option goerr :=
  let '(w', k, e) := Write (take (Z.to_nat n) rest) w in
  match e with
  | Some _ => (w', k, e)
  | None => if k <? n then (w', k, Some IoEOF) else (w', k, None)
  end.

(** [ResponseController.Flush]. *)
Definition Flush (w : ResponseWriter) : option goerr := w_flush w.

(** [http.Error] (Go 1.23 and later): drops Content-Length, sets the two
    text headers, commits the status and writes the message. *)
Definition Error (msg : string) (code : Z) (w : ResponseWriter) : ResponseWriter :=
  let w := HeaderDel "Content-Length" w in
  let w := HeaderSet "Content-Type" "text/plain; charset=utf-8" w in
  let w := HeaderSet "X-Content-Type-Options" "nosniff" w in
  let w := WriteHeader code w in
  (Write (list_byte_of_string (msg +:+ String (ascii_of_nat 10) EmptyString)) w).1.1.

Definition status (w : ResponseWriter) : option Z := fst <$> w_sent w.
Definition sent_header (k : string) (w : ResponseWriter) : option string :=
  w_sent w ≫= fun s => s.2 !! k.

(** Nothing has been committed yet. *)
Definition pristine (w : ResponseWriter) : Prop := w_sent w = None /\ w_body w = [].

Lemma Write_sent p w : w_sent (Write p w).1.1 = w_sent (WriteHeader StatusOK w).
Proof.
  unfold Write. destruct (w_fault (WriteHeader StatusOK w)) as [[n e]|] eqn:Hf;
    [case_decide|]; done.
Qed.

Lemma Write_committed p w s : w_sent w = Some s -> w_sent (Write p w).1.1 = Some s.
Proof. intros Hs. rewrite Write_sent. unfold WriteHeader. by rewrite Hs. Qed.

Lemma Write_hdr p w : w_hdr (Write p w).1.1 = w_hdr w.
Proof.
  unfold Write, WriteHeader. destruct w as [h [s|] b [[n e]|] f]; simpl;
    try case_decide; done.
Qed.

(** The body grows by a prefix of what was written, by all of it when no
    error is reported. *)
Lemma Write_body p w w' k e :
  Write p w = (w', k, e) ->
  0 <= k <= Z.of_nat (length p) /\
  w_body w' = w_body w ++ take (Z.to_nat k) p /\
  (e = None -> k = Z.of_nat (length p)) /\
  (w_fault w = None -> e = None /\ w_fault w' = None) /\
  w_flush w' = w_flush w.
Proof.
  intros Hw.
  assert (w_body (WriteHeader StatusOK w) = w_body w /\
    w_fault (WriteHeader StatusOK w) = w_fault w /\
    w_flush (WriteHeader StatusOK w) = w_flush w) as (Hb & Hf & Hfl).
  { unfold WriteHeader. by destruct (w_sent w). }
  unfold Write in Hw. rewrite Hb, Hf, Hfl in Hw.
  destruct (w_fault w) as [[n er]|]; [case_decide|]; injection Hw as <- <- <-;
    simpl; rewrite ?Nat2Z.id, ?firstn_all; repeat split; try done; lia.
Qed.

Lemma Error_sent msg code w :
  w_sent w = None ->
  w_sent (Error msg code w) =
    Some (code, <["X-Content-Type-Options":="nosniff"]>
                  (<["Content-Type":="text/plain; charset=utf-8"]>
                     (delete "Content-Length" (w_hdr w)))).
Proof.
  intros Hs. unfold Error. rewrite Write_sent. destruct w; simpl in *. by subst.
Qed.

Lemma WriteHeader_sent code w :
  w_sent w = None -> w_sent (WriteHeader code w) = Some (code, w_hdr w).
Proof. intros Hs. unfold WriteHeader. by rewrite Hs. Qed.

Lemma WriteHeader_frame code w :
  w_body (WriteHeader code w) = w_body w /\ w_hdr (WriteHeader code w) = w_hdr w /\
  w_fault (WriteHeader code w) = w_fault w /\ w_flush (WriteHeader code w) = w_flush w.
Proof. unfold WriteHeader. by destruct (w_sent w). Qed.
End http.
