(* ===== verification/Request.v ===== *)
(** * Request parsing and error mapping (services/web.go)

    [parseRange], [parseKey] and [httpErrorFromS3], with the grammar of the
    Range headers the service accepts. *)
From S2P Require Import Prelude GoStd Http.

(** Lines 61-102 of web.go. A Go result with a non-nil error is [inl]: the
    numbers returned beside it are never read. *)
Definition parseRange (h : string) : goerr + (Z * Z * Z) :=
  if String.eqb h "" then inr (0, -1, 0)
  else if negb (strings.HasPrefix h "bytes=") then
    inl (ErrorString "only bytes= ranges supported")
  else
    let spec := strings.TrimPrefix h "bytes=" in
    if strings.Contains spec "," then inl (ErrorString "multi-range not supported")
    else
      match strings.SplitN2 spec "-" with
      | [p0; p1] =>
          if String.eqb p0 "" then
            match strconv.ParseInt p1 with
            | inl e => inl (Wrap "bad suffix range" (NumError p1 e))
            | inr suffixLen =>
                if suffixLen <=? 0 then inl (ErrorString "bad suffix range")
                else inr (0, -1, suffixLen)
            end
          else
            match strconv.ParseInt p0 with
            | inl e => inl (Wrap "bad range start" (NumError p0 e))
            | inr start =>
                if String.eqb p1 "" then inr (start, -1, 0)
                else
                  match strconv.ParseInt p1 with
                  | inl e => inl (Wrap "bad range end" (NumError p1 e))
                  | inr end_ =>
                      if end_ <? start then inl (ErrorString "end before start")
                      else inr (start, end_, 0)
                  end
            end
      | _ => inl (ErrorString "bad range")
      end.

(** Lines 108-114 of web.go. *)
Definition parseKey (p : string) : string * bool :=
  let p := strings.TrimPrefix p "/" in
  if String.eqb p "" then ("", false) else (p, true).

(** Lines 169-179 of web.go. *)
Definition httpErrorFromS3 (w : http.ResponseWriter) (err : goerr) : http.ResponseWriter :=
  let msg := errors.Error err in
  if strings.Contains msg "NoSuchKey" || strings.Contains msg "NotFound"
     || strings.Contains msg "status code: 404"
  then http.Error "not found" http.StatusNotFound w
  else if strings.Contains msg "Forbidden" || strings.Contains msg "status code: 403"
  then http.Error "forbidden" http.StatusForbidden w
  else http.Error "upstream error" http.StatusBadGateway w.

(** ** The accepted headers

    A decimal literal as [ParseInt] takes it, and the four header forms. *)
Inductive int_lit : string -> Z -> Prop :=
| lit_plain d v :
    d <> "" -> strconv.all_digits d = true -> strconv.digits_val 0 d = v ->
    v <= int64_max -> int_lit d v
| lit_plus d v :
    d <> "" -> strconv.all_digits d = true -> strconv.digits_val 0 d = v ->
    v <= int64_max -> int_lit (String "+" d) v
| lit_minus d v :
    d <> "" -> strconv.all_digits d = true -> strconv.digits_val 0 d = - v ->
    int64_min <= v -> int_lit (String "-" d) v.

Inductive range_header : string -> Z -> Z -> Z -> Prop :=
| rh_absent : range_header "" 0 (-1) 0
| rh_open a s :
    int_lit a s -> strings.has_byte "-" a = false ->
    range_header ("bytes=" +:+ a +:+ String "-" "") s (-1) 0
| rh_closed a b s e :
    int_lit a s -> strings.has_byte "-" a = false -> int_lit b e -> s <= e ->
    range_header ("bytes=" +:+ a +:+ String "-" b) s e 0
| rh_suffix b n :
    int_lit b n -> 0 < n ->
    range_header ("bytes=" +:+ String "-" b) 0 (-1) n.

Lemma ParseUint_spec u v :
  strconv.ParseUint u = inr v <->
  u <> "" /\ strconv.all_digits u = true /\ strconv.digits_val 0 u = v /\
  v <= strconv.uint64_max.
Proof.
  unfold strconv.ParseUint. destruct u as [|c u].
  - split; [done|]. by intros [[] _].
  - rewrite strconv.parse_uint_loop_spec by (unfold strconv.uint64_max; lia).
    split; [by intros [? ?] | by intros [_ ?]].
Qed.

Lemma ParseUint_ok u v :
  u <> "" -> strconv.all_digits u = true -> strconv.digits_val 0 u = v ->
  v <= strconv.uint64_max -> strconv.ParseUint u = inr v.
Proof. intros. by apply ParseUint_spec. Qed.

Lemma int_lit_ParseInt s v : int_lit s v -> strconv.ParseInt s = inr v.
Proof.
  destruct 1 as [d v Hne Hd Hv ?|d v Hne Hd Hv ?|d v Hne Hd Hv ?];
    unfold int64_max, int64_min in *.
  - rewrite <- Hv. apply strconv.ParseInt_digits; [done..|]. unfold int64_max. lia.
  - unfold strconv.ParseInt. simpl.
    rewrite (ParseUint_ok d v) by (done || (unfold strconv.uint64_max; lia)).
    zcases; [lia | done].
  - pose proof (strconv.digits_val_ge 0 d ltac:(lia) Hd).
    unfold strconv.ParseInt. simpl.
    rewrite (ParseUint_ok d (- v)) by (done || (unfold strconv.uint64_max; lia)).
    zcases; [lia|]. cbn. f_equal. lia.
Qed.

Lemma ParseInt_int_lit s v : strconv.ParseInt s = inr v -> int_lit s v.
Proof.
  destruct s as [|c s]; [done|]. unfold strconv.ParseInt.
  destruct (Ascii.eqb_spec c "-") as [->|Hm]; simpl.
  { destruct (strconv.ParseUint s) as [e|un] eqn:Hu; [done|].
    apply ParseUint_spec in Hu as (? & ? & ? & ?).
    zcases; [done|]. intros [= <-]. apply lit_minus; [done..|lia|unfold int64_min; lia]. }
  destruct (Ascii.eqb_spec c "+") as [->|Hp]; simpl.
  - destruct (strconv.ParseUint s) as [e|un] eqn:Hu; [done|].
    apply ParseUint_spec in Hu as (? & ? & ? & ?).
    zcases; [done|]. intros [= <-]. apply lit_plus; [done..|unfold int64_max; lia].
  - destruct (strconv.ParseUint (String c s)) as [e|un] eqn:Hu; [done|].
    apply ParseUint_spec in Hu as (? & ? & ? & ?).
    zcases; [done|]. intros [= <-]. apply lit_plain; [done..|unfold int64_max; lia].
Qed.

Lemma ParseInt_spec s v : strconv.ParseInt s = inr v <-> int_lit s v.
Proof. split; [apply ParseInt_int_lit | apply int_lit_ParseInt]. Qed.

Lemma int_lit_nonempty s v : int_lit s v -> s <> "".
Proof. by intros []. Qed.

Lemma int_lit_no_comma s v : int_lit s v -> strings.has_byte "," s = false.
Proof.
  intros [d ? _ Hd _ _|d ? _ Hd _ _|d ? _ Hd _ _]; simpl;
      by rewrite (strconv.all_digits_no_byte "," d).
Qed.

(** ** Properties *)

Lemma bytes_prefix h :
  strings.HasPrefix h "bytes=" = true -> h = "bytes=" +:+ strings.TrimPrefix h "bytes=".
Proof.
  unfold strings.TrimPrefix. intros Hp. rewrite Hp. by apply strings.prefix_inv.
Qed.

Lemma parseRange_sound h s e n : parseRange h = inr (s, e, n) -> range_header h s e n.
Proof.
  unfold parseRange. destruct (String.eqb_spec h "") as [->|_].
  { intros [= <- <- <-]. constructor. }
  destruct (strings.HasPrefix h "bytes=") eqn:Hp; simpl; [|done].
  apply bytes_prefix in Hp. revert Hp. generalize (strings.TrimPrefix h "bytes=").
  intros spec ->.
  destruct (strings.Contains spec ","); [done|].
  unfold strings.SplitN2. destruct (strings.cut spec "-") as [[a b]|] eqn:Hc; [|done].
  apply strings.cut_Some in Hc as [-> Ha].
  destruct (String.eqb_spec a "") as [->|Hne].
  - destruct (strconv.ParseInt b) as [er|v] eqn:Hb; [done|].
    destruct (Z.leb_spec v 0); [done|]. intros [= <- <- <-].
    apply (rh_suffix b); [by apply ParseInt_spec | done].
  - destruct (strconv.ParseInt a) as [er|v] eqn:Hav; [done|].
    apply ParseInt_spec in Hav. destruct (String.eqb_spec b "") as [->|Hbne].
    + intros [= <- <- <-]. by apply rh_open.
    + destruct (strconv.ParseInt b) as [er|ve] eqn:Hb; [done|].
      apply ParseInt_spec in Hb. destruct (Z.ltb_spec ve v); [done|].
      intros [= <- <- <-]. by apply rh_closed.
Qed.

Lemma parseRange_spec_form a b :
  strings.has_byte "-" a = false -> strings.has_byte "," a = false ->
  strings.has_byte "," b = false ->
  parseRange ("bytes=" +:+ a +:+ String "-" b) =
    if String.eqb a "" then
      match strconv.ParseInt b with
      | inl e => inl (Wrap "bad suffix range" (NumError b e))
      | inr n => if n <=? 0 then inl (ErrorString "bad suffix range") else inr (0, -1, n)
      end
    else
      match strconv.ParseInt a with
      | inl e => inl (Wrap "bad range start" (NumError a e))
      | inr s =>
          if String.eqb b "" then inr (s, -1, 0)
          else match strconv.ParseInt b with
               | inl e => inl (Wrap "bad range end" (NumError b e))
               | inr e => if e <? s then inl (ErrorString "end before start")
                          else inr (s, e, 0)
               end
      end.
Proof.
  intros Ha Hca Hcb. unfold parseRange. rewrite strings.TrimPrefix_app.
  unfold strings.HasPrefix. rewrite strings.prefix_app.
  change (String.eqb ("bytes=" +:+ a +:+ String "-" b) "") with false.
  rewrite strings.Contains_byte, strings.has_byte_app, Hca.
  change (strings.has_byte "," (String "-" b)) with (strings.has_byte "," b).
  rewrite Hcb. unfold strings.SplitN2. by rewrite strings.cut_app.
Qed.

Lemma parseRange_complete h s e n : range_header h s e n -> parseRange h = inr (s, e, n).
Proof.
  destruct 1 as [|a s Ha Hd|a b s e Ha Hd Hb Hle|b n Hb Hn]; [done|..].
  - rewrite parseRange_spec_form; [|done|by eapply int_lit_no_comma|done].
    destruct (String.eqb_spec a "") as [->|_]; [by destruct (int_lit_nonempty _ _ Ha)|].
    by rewrite (int_lit_ParseInt _ _ Ha).
  - rewrite parseRange_spec_form; [|done|by eapply int_lit_no_comma..].
    destruct (String.eqb_spec a "") as [->|_]; [by destruct (int_lit_nonempty _ _ Ha)|].
    destruct (String.eqb_spec b "") as [->|_]; [by destruct (int_lit_nonempty _ _ Hb)|].
    rewrite (int_lit_ParseInt _ _ Ha), (int_lit_ParseInt _ _ Hb).
    destruct (Z.ltb_spec e s); [lia | done].
  - change ("bytes=" +:+ String "-" b) with ("bytes=" +:+ "" +:+ String "-" b).
    rewrite parseRange_spec_form; [|done..|by eapply int_lit_no_comma].
    simpl. rewrite (int_lit_ParseInt _ _ Hb). destruct (Z.leb_spec n 0); [lia | done].
Qed.

(** C25: [parseRange] accepts exactly the grammar [range_header], and returns
    the numbers the header denotes: no header outside it is accepted, none
    inside it is refused. *)
Theorem parseRange_iff_grammar h s e n :
  parseRange h = inr (s, e, n) <-> range_header h s e n.
Proof. split; [apply parseRange_sound | apply parseRange_complete]. Qed.
