(* ===== verification/Path.v ===== *)
(** * Slash-separated paths (packages path and path/filepath)

    [Clean], [Join], [Dir], [Base] and [Split] as Go defines them on Unix,
    with the facts the cache layout relies on: joining plain names onto a root
    is injective, and the last name is what [Base] returns. *)
From S2P Require Import Prelude GoStd.

Module filepath.
Definition slash : ascii := "/"%char.

(** [strings.Split(s, "/")]: never empty. *)
Fixpoint Split (s : string) : list string :=
  match s with
  | EmptyString => [EmptyString]
  | String c s' =>
      if Ascii.eqb c slash then EmptyString :: Split s'
      else match Split s' with
           | x :: l => String c x :: l
           | [] => [String c EmptyString]
           end
  end.

(** [strings.Join(l, "/")]. *)
Fixpoint Joined (l : list string) : string :=
  match l with
  | [] => EmptyString
  | [x] => x
  | x :: l' => x +:+ String slash (Joined l')
  end.

(** One path element against the reversed output of [Clean]. *)
Definition clean_step (rooted : bool) (out : list string) (c : string) : list string :=
  if String.eqb c "" || String.eqb c "." then out
  else if String.eqb c ".." then
    match out with
    | top :: rest => if String.eqb top ".." then c :: out else rest
    | [] => if rooted then [] else [".."]
    end
  else c :: out.

Definition rooted (p : string) : bool := strings.HasPrefix p "/".

Definition clean_comps (p : string) : list string :=
  rev (fold_left (clean_step (rooted p)) (Split p) []).

Definition Clean (p : string) : string :=
  if String.eqb p "" then "."
  else if rooted p then String slash (Joined (clean_comps p))
  else match clean_comps p with
       | [] => "."
       | l => Joined l
       end.

(** [filepath.Join]: empty leading elements are skipped. *)
Fixpoint Join (elems : list string) : string :=
  match elems with
  | [] => ""
  | e :: rest => if String.eqb e "" then Join rest else Clean (Joined elems)
  end.

(** [path.Split]: everything up to and including the last slash, the rest. *)
Fixpoint SplitLast (p : string) : string * string :=
  match p with
  | EmptyString => (EmptyString, EmptyString)
  | String c p' =>
      let '(d, b) := SplitLast p' in
      if String.eqb d "" then
        if Ascii.eqb c slash then (String c EmptyString, b) else (EmptyString, String c b)
      else (String c d, b)
  end.

Definition Dir (p : string) : string := Clean (SplitLast p).1.

(** The last element, as [fs.DirEntry.Name] reports it. *)
Definition Base (p : string) : string := (SplitLast p).2.

(** A plain file name: one path element, not empty, [.] or [..]. *)
Definition plain (s : string) : Prop :=
  strings.has_byte slash s = false /\ s <> "" /\ s <> "." /\ s <> "..".

#[global] Instance plain_dec s : Decision (plain s).
Proof. unfold plain. apply _. Defined.

Lemma Split_nonempty s : Split s <> [].
Proof.
  destruct s as [|c s]; simpl; [done|].
  destruct (Ascii.eqb c slash); [done|]. by destruct (Split s).
Qed.

Lemma Split_app a b : Split (a +:+ String slash b) = Split a ++ Split b.
Proof.
  induction a as [|c a IH]; simpl; [done|].
  rewrite IH. destruct (Ascii.eqb c slash); [done|].
  pose proof (Split_nonempty a). by destruct (Split a).
Qed.

Lemma Split_plain s : strings.has_byte slash s = false -> Split s = [s].
Proof.
  induction s as [|c s IH]; simpl; [done|].
  intros [Hc Hs]%orb_false_iff. by rewrite Hc, IH.
Qed.

Lemma Split_Joined l :
  l <> [] -> Forall (fun s => strings.has_byte slash s = false) l -> Split (Joined l) = l.
Proof.
  intros Hne Hl. induction Hl as [|x l Hx Hl IH]; [done|].
  destruct l as [|y l]; [by apply Split_plain|].
  change (Joined (x :: y :: l)) with (x +:+ String slash (Joined (y :: l))).
  rewrite Split_app, IH by done. by rewrite Split_plain.
Qed.

Lemma Joined_app a b : a <> [] -> b <> [] -> Joined (a ++ b) = Joined a +:+ String slash (Joined b).
Proof.
  intros Ha Hb. induction a as [|x a IH]; [done|].
  destruct a as [|y a].
  - destruct b; [done|]. done.
  - change (Joined ((x :: y :: a) ++ b)) with (x +:+ String slash (Joined ((y :: a) ++ b))).
    rewrite IH by done.
    change (Joined (x :: y :: a)) with (x +:+ String slash (Joined (y :: a))).
    generalize (Joined (y :: a)) (Joined b). clear. intros u v.
    induction x as [|c x IH]; simpl; [done|]. by rewrite IH.
Qed.

Lemma clean_step_plain r out c : plain c -> clean_step r out c = c :: out.
Proof.
  intros (_ & H1 & H2 & H3). unfold clean_step.
  apply String.eqb_neq in H1, H2, H3. by rewrite H1, H2, H3.
Qed.

Lemma fold_clean_plain r l out :
  Forall plain l -> fold_left (clean_step r) l out = rev l ++ out.
Proof.
  intros Hl. revert out. induction Hl as [|x l Hx Hl IH]; intros out; simpl; [done|].
  rewrite clean_step_plain, IH by done. by rewrite <- app_assoc.
Qed.

Lemma rooted_cons a t : rooted (String a t) = Ascii.eqb a slash.
Proof.
  unfold rooted, strings.HasPrefix. cbn [String.prefix].
  destruct (ascii_dec "/" a) as [<-|Hne].
  - by destruct t.
  - symmetry. apply Ascii.eqb_neq. by intros ->.
Qed.

Lemma rooted_slash j : rooted (String slash j) = true.
Proof. by rewrite rooted_cons. Qed.

Lemma rooted_app a b : a <> "" -> rooted (a +:+ b) = rooted a.
Proof. unfold rooted, strings.HasPrefix. destruct a as [|c a]; [done|]. simpl. by destruct a, b. Qed.

Lemma clean_comps_join root l :
  root <> "" -> l <> [] -> Forall plain l ->
  clean_comps (root +:+ String slash (Joined l)) = clean_comps root ++ l.
Proof.
  intros Hr Hne Hl. unfold clean_comps.
  rewrite rooted_app, Split_app by done.
  rewrite Split_Joined; [|done|eapply Forall_impl; [exact Hl|by intros ? []]].
  rewrite fold_left_app, fold_clean_plain, rev_app_distr, rev_involutive by done. done.
Qed.

(** Joining plain names appends them to the cleaned root. *)
Lemma Join_plain root l :
  root <> "" -> l <> [] -> Forall plain l ->
  Join (root :: l) =
    (if rooted root then String slash (Joined (clean_comps root ++ l))
     else Joined (clean_comps root ++ l)).
Proof.
  intros Hr Hne Hl. simpl. destruct (String.eqb_spec root "") as [|_]; [done|].
  assert (match l with [] => root | _ :: _ => root +:+ String slash (Joined l) end
    = root +:+ String slash (Joined l)) as -> by (by destruct l).
  unfold Clean. destruct (String.eqb_spec (root +:+ String slash (Joined l)) "") as [He|_].
  { by destruct root. }
  rewrite rooted_app, clean_comps_join by done.
  destruct (rooted root); [done|]. by destruct (clean_comps root), l.
Qed.

(** The reversed output of [Clean]: plain names above a block of [..] that
    only an unrooted path can have. *)
Inductive normal (r : bool) : list string -> Prop :=
| normal_dots out : (r = false \/ out = []) -> Forall (eq "..") out -> normal r out
| normal_name c out : plain c -> normal r out -> normal r (c :: out).

Lemma clean_step_normal r out c :
  strings.has_byte slash c = false -> normal r out -> normal r (clean_step r out c).
Proof.
  intros Hc Hn. unfold clean_step.
  destruct (String.eqb_spec c ""); [done|]. destruct (String.eqb_spec c "."); [done|]. simpl.
  destruct (String.eqb_spec c ".."); [|by apply normal_name].
  subst c. destruct Hn as [out Hr Hd|x out Hx Hn].
  - destruct out as [|t o]; [destruct r; constructor; auto|].
    inversion Hd as [|? ? <- Ho]; subst. simpl.
    destruct Hr as [->|?]; [|done]. constructor; auto.
  - destruct Hx as (_ & _ & _ & Hx). apply String.eqb_neq in Hx. by rewrite Hx.
Qed.

Lemma fold_normal r l out :
  Forall (fun s => strings.has_byte slash s = false) l -> normal r out ->
  normal r (fold_left (clean_step r) l out).
Proof.
  intros Hl. revert out. induction Hl as [|c l Hc _ IH]; intros out Hn; simpl; [done|].
  by apply IH, clean_step_normal.
Qed.

(** Cleaning a cleaned list of elements changes nothing. *)
Lemma fold_clean_normal r out : normal r out -> fold_left (clean_step r) (rev out) [] = out.
Proof.
  induction 1 as [out Hr Hd|c out Hc _ IH].
  - induction Hd as [|x out <- Hd IH]; [done|]. simpl.
    destruct Hr as [->|?]; [|done].
    rewrite fold_left_app, IH by auto. simpl.
    destruct Hd as [|y out <- Hd]; done.
  - simpl. rewrite fold_left_app, IH. by apply clean_step_plain.
Qed.

Lemma Split_noslash p : Forall (fun s => strings.has_byte slash s = false) (Split p).
Proof.
  induction p as [|c p IH]; simpl; [by repeat constructor|].
  destruct (Ascii.eqb c slash) eqn:Hc; [by constructor|].
  destruct (Split p) as [|x l].
  - constructor; [|done]. simpl. by rewrite Hc.
  - inversion IH; subst. constructor; [|done]. simpl. by rewrite Hc.
Qed.

Lemma clean_comps_normal p : normal (rooted p) (rev (clean_comps p)).
Proof.
  unfold clean_comps. rewrite rev_involutive.
  apply fold_normal; [apply Split_noslash|]. constructor; auto.
Qed.

Lemma clean_comps_noslash p :
  Forall (fun s => strings.has_byte slash s = false) (clean_comps p).
Proof.
  pose proof (clean_comps_normal p) as Hn. rewrite <- (rev_involutive (clean_comps p)). apply Forall_rev.
  induction Hn as [out _ Hd|c out [Hc _] _ IH]; [|by constructor].
  eapply Forall_impl; [exact Hd|]. by intros ? <-.
Qed.

(** The elements of a joined path end with the names that were joined. *)
Lemma Split_Join root l :
  root <> "" -> l <> [] -> Forall plain l -> exists k, Split (Join (root :: l)) = k ++ l.
Proof.
  intros Hr Hn Hl. rewrite Join_plain by done.
  assert (Split (Joined (clean_comps root ++ l)) = clean_comps root ++ l) as Hs.
  { apply Split_Joined; [by destruct (clean_comps root), l|]. apply Forall_app. split; [apply clean_comps_noslash|].
    eapply Forall_impl; [exact Hl|by intros ? []]. }
  destruct (rooted root); [|by exists (clean_comps root)]. exists ("" :: clean_comps root).
  pose proof (Split_app "" (Joined (clean_comps root ++ l))) as Ha. rewrite Hs in Ha. exact Ha.
Qed.

(** Distinct plain suffixes under one root are distinct paths. *)
Lemma Join_inj root l1 l2 :
  root <> "" -> l1 <> [] -> l2 <> [] -> Forall plain l1 -> Forall plain l2 ->
  Join (root :: l1) = Join (root :: l2) -> l1 = l2.
Proof.
  intros Hr Hn1 Hn2 H1 H2. rewrite !Join_plain by done.
  assert (forall l, l <> [] -> Forall plain l ->
    Split (Joined (clean_comps root ++ l)) = clean_comps root ++ l) as Hsp.
  { intros l Hn Hl. apply Split_Joined.
    - by destruct (clean_comps root), l.
    - apply Forall_app. split; [apply clean_comps_noslash|].
      eapply Forall_impl; [exact Hl|by intros ? []]. }
  intros He. assert (Joined (clean_comps root ++ l1) = Joined (clean_comps root ++ l2)) as Hj.
  { destruct (rooted root); congruence. }
  apply (f_equal Split) in Hj. rewrite !Hsp in Hj by done. by apply app_inv_head in Hj.
Qed.

Lemma Clean_idemp p : Clean (Clean p) = Clean p.
Proof.
  unfold Clean at 2 3. destruct (String.eqb p "") eqn:Hp; [done|].
  pose proof (clean_comps_normal p) as Hn. pose proof (clean_comps_noslash p) as Hs.
  pose proof (fold_clean_normal _ _ Hn) as Hf. rewrite rev_involutive in Hf.
  destruct (rooted p) eqn:Hr.
  - assert (clean_comps (String slash (Joined (clean_comps p))) = clean_comps p) as He.
    { unfold clean_comps at 1.
      rewrite rooted_slash.
      change (Split (String slash ?j)) with ("" :: Split j).
      destruct (decide (clean_comps p = [])) as [->|Hne]; [done|].
      rewrite Split_Joined by done. cbn [fold_left].
      change (clean_step true [] "") with (@nil string).
      rewrite Hf. apply rev_involutive. }
    unfold Clean. rewrite rooted_slash.
    cbn [String.eqb]. by rewrite He.
  - destruct (clean_comps p) as [|c l] eqn:Hc; [done|]. rewrite <- Hc in *.
    assert (rooted (Joined (clean_comps p)) = false /\ Joined (clean_comps p) <> "") as [Hr' Hne].
    { rewrite Hc in *. inversion Hs as [|? ? Hcs _]; subst.
      assert (c <> "") as Hcne.
      { assert (c ∈ rev (c :: l)) as Hin by (rewrite list_elem_of_In, <- in_rev; by left).
        revert Hin. clear -Hn. induction Hn as [out _ Hd|x out Hx _ IH].
        - rewrite Forall_forall in Hd. intros Hin%Hd. by subst.
        - intros [->|?]%elem_of_cons; [apply Hx | auto]. }
      destruct c as [|a c]; [done|]. simpl in Hcs. apply orb_false_iff in Hcs as [Ha _].
      assert (exists t, Joined (String a c :: l) = String a t) as [t ->].
      { destruct l; simpl; eauto. }
      split; [|done]. by rewrite rooted_cons. }
    unfold Clean. apply String.eqb_neq in Hne. rewrite Hne, Hr'.
    assert (clean_comps (Joined (clean_comps p)) = clean_comps p) as ->; [|by rewrite Hc].
    unfold clean_comps at 1. rewrite Hr', Split_Joined; [|by rewrite Hc|done].
    rewrite Hf. apply rev_involutive.
Qed.

Lemma Clean_Dir p : Clean (Dir p) = Dir p.
Proof. apply Clean_idemp. Qed.

Lemma SplitLast_app d b :
  strings.has_byte slash b = false ->
  SplitLast (d +:+ String slash b) = (d +:+ String slash "", b).
Proof.
  intros Hb. assert (SplitLast b = ("", b)) as Hs.
  { induction b as [|c b IH]; simpl; [done|].
    simpl in Hb. apply orb_false_iff in Hb as [Hc Hb]. rewrite IH by done. simpl. by rewrite Hc. }
  induction d as [|c d IH]; simpl.
  - by rewrite Hs.
  - rewrite IH. by destruct d.
Qed.

Lemma Base_app d b : strings.has_byte slash b = false -> Base (d +:+ String slash b) = b.
Proof. intros. unfold Base. by rewrite SplitLast_app. Qed.

Lemma Base_Join root l b :
  root <> "" -> Forall plain l -> plain b -> Base (Join (root :: l ++ [b])) = b.
Proof.
  intros Hr Hl Hb. rewrite Join_plain; [|done|by destruct l|apply Forall_app; by auto].
  rewrite app_assoc. destruct (clean_comps root ++ l) as [|x k] eqn:E.
  - simpl. destruct (rooted root).
    + apply (Base_app "" b), Hb.
    + unfold Base. destruct Hb as [Hb _]. clear -Hb.
      assert (SplitLast b = ("", b)) as ->; [|done].
      induction b as [|c b IH]; simpl; [done|].
      simpl in Hb. apply orb_false_iff in Hb as [Hc Hb]. rewrite IH by done. simpl. by rewrite Hc.
  - rewrite Joined_app by done. simpl Joined at 2. destruct (rooted root).
    + apply (Base_app (String slash (Joined (x :: k))) b), Hb.
    + apply Base_app, Hb.
Qed.

Lemma Joined_Split s : Joined (Split s) = s.
Proof.
  induction s as [|c s IH]; [done|]. cbn [Split]. pose proof (Split_nonempty s) as Hne.
  destruct (Ascii.eqb_spec c slash) as [->|Hc].
  - destruct (Split s) as [|x l]; [done|]. simpl. by rewrite <- IH.
  - destruct (Split s) as [|x [|y l]]; [done|simpl in *; by rewrite <- IH..].
Qed.

Lemma Base_Split q k b : Split q = k ++ [b] -> Base q = b.
Proof.
  intros Hs. pose proof (Split_noslash q) as Hn. rewrite Hs in Hn. apply Forall_app in Hn as [_ Hb].
  apply Forall_cons in Hb as [Hb _]. rewrite <- (Joined_Split q), Hs. destruct k as [|x k].
  - unfold Base. simpl. clear -Hb. assert (SplitLast b = ("", b)) as ->; [|done].
    induction b as [|c b IH]; simpl; [done|].
    simpl in Hb. apply orb_false_iff in Hb as [Hc Hb]. rewrite IH by done. simpl. by rewrite Hc.
  - rewrite Joined_app by done. by apply Base_app.
Qed.

(** The same with a root that may be empty, below at least one name. *)
Lemma Base_Join_names root l b :
  l <> [] -> Forall plain l -> plain b -> Base (Join (root :: l ++ [b])) = b.
Proof.
  intros Hne Hl Hb. destruct (decide (root = "")) as [->|Hr]; [|by apply Base_Join].
  destruct l as [|x l]; [done|]. inversion Hl as [|? ? Hx Hl']; subst.
  change (Join ("" :: (x :: l) ++ [b])) with (Join (x :: l ++ [b])).
  apply Base_Join; [apply Hx | done..].
Qed.

(** ** A directory's files *)

(** A trailing slash is nothing to [Clean]. *)
Lemma clean_comps_slash p : p <> "" -> clean_comps (p +:+ String slash "") = clean_comps p.
Proof.
  intros Hp. unfold clean_comps. rewrite rooted_app, Split_app, fold_left_app by done. done.
Qed.

Lemma Clean_slash p : p <> "" -> Clean (p +:+ String slash "") = Clean p.
Proof.
  intros Hp. unfold Clean. rewrite rooted_app, clean_comps_slash by done.
  apply String.eqb_neq in Hp as Hp'. rewrite Hp'. by destruct p.
Qed.

Lemma SplitLast_plain b : strings.has_byte slash b = false -> SplitLast b = ("", b).
Proof.
  induction b as [|c b IH]; simpl; [done|]. intros [Hc Hb]%orb_false_iff. rewrite IH by done. simpl. by rewrite Hc.
Qed.

(** The file [b] of a directory is in it. *)
Lemma Dir_Join root b : root <> "" -> plain b -> Dir (Join [root; b]) = Clean root.
Proof.
  intros Hr Hb. rewrite Join_plain by (done || by (constructor; [|constructor])). pose proof (Clean_idemp root) as Hi.
  destruct (String.eqb_spec root "") as [|_]; [done|]. unfold Clean at 2 3 in Hi. unfold Clean.
  assert (forall k, k <> [] -> Joined (k ++ [b]) = Joined k +:+ String slash b) as Hj by (intros; by rewrite Joined_app).
  apply String.eqb_neq in Hr as Hr'. rewrite Hr' in *. unfold Dir. destruct (rooted root).
  - destruct (decide (clean_comps root = [])) as [He|Hn].
    + rewrite He. change (String slash (Joined ([] ++ [b]))) with ("" +:+ String slash b).
      by rewrite SplitLast_app by apply Hb.
    + rewrite Hj by done.
      change (String slash (Joined (clean_comps root) +:+ String slash b))
        with (String slash (Joined (clean_comps root)) +:+ String slash b).
      rewrite SplitLast_app by apply Hb. cbn [fst]. rewrite Clean_slash by done. exact Hi.
  - destruct (clean_comps root) as [|x k] eqn:He.
    + simpl app. change (Joined [b]) with b. by rewrite SplitLast_plain by apply Hb.
    + rewrite Hj by done. rewrite SplitLast_app by apply Hb. cbn [fst]. rewrite Clean_slash; [exact Hi|].
      intros Hx. by rewrite Hx in Hi.
Qed.

(** ** Absolute paths

    A clean absolute path is its plain elements. *)
Definition abs (k : list string) : string := String slash (Joined k).

Lemma rooted_normal out : normal true out -> Forall plain out.
Proof. induction 1 as [out [?| ->] _|c out Hc _ IH]; [done|by constructor|by constructor]. Qed.

Lemma clean_comps_plain p : rooted p = true -> Forall plain (clean_comps p).
Proof.
  intros Hp. pose proof (clean_comps_normal p) as Hn. rewrite Hp in Hn. apply rooted_normal in Hn.
  rewrite <- (rev_involutive (clean_comps p)). by apply Forall_rev.
Qed.

Lemma Clean_rooted p : rooted p = true -> Clean p = abs (clean_comps p).
Proof. intros Hp. unfold Clean. rewrite Hp. by destruct p. Qed.

Lemma clean_comps_abs k : Forall plain k -> clean_comps (abs k) = k.
Proof.
  intros Hk. unfold clean_comps, abs. rewrite rooted_slash. change (Split (String slash ?j)) with ("" :: Split j).
  destruct k as [|x k]; [done|]. rewrite Split_Joined; [|done|eapply Forall_impl; [exact Hk|intros y Hy; apply Hy]].
  change (rev (fold_left (clean_step true) (x :: k) []) = x :: k). rewrite fold_clean_plain by done.
  by rewrite app_nil_r, rev_involutive.
Qed.

Lemma Clean_abs k : Forall plain k -> Clean (abs k) = abs k.
Proof. intros Hk. by rewrite Clean_rooted, clean_comps_abs by (done || apply rooted_slash). Qed.

Lemma abs_inj k k' : Forall plain k -> Forall plain k' -> abs k = abs k' -> k = k'.
Proof. intros Hk Hk' He. by rewrite <- (clean_comps_abs k), He, clean_comps_abs. Qed.

Lemma Join_abs root l : rooted root = true -> l <> [] -> Forall plain l -> Join (root :: l) = abs (clean_comps root ++ l).
Proof. intros Hr Hn Hl. rewrite Join_plain by (done || (by intros ->)). by rewrite Hr. Qed.

Lemma Join_abs_abs k l : Forall plain k -> l <> [] -> Forall plain l -> Join (abs k :: l) = abs (k ++ l).
Proof. intros Hk Hn Hl. rewrite Join_abs by (done || apply rooted_slash). by rewrite clean_comps_abs. Qed.

Lemma SplitLast_abs k b :
  plain b -> SplitLast (abs (k ++ [b])) = (match k with [] => "/" | _ => abs k +:+ String slash "" end, b).
Proof.
  intros [Hb _]. unfold abs. destruct k as [|x k]; [by apply (SplitLast_app "" b)|]. rewrite Joined_app by done.
  apply (SplitLast_app (String slash (Joined (x :: k))) b Hb).
Qed.

Lemma Dir_abs k b : Forall plain k -> plain b -> Dir (abs (k ++ [b])) = abs k.
Proof.
  intros Hk Hb. unfold Dir. rewrite SplitLast_abs by done. destruct k as [|x k]; [done|]. cbn [fst].
  by rewrite Clean_slash, Clean_abs.
Qed.

Lemma Base_abs k b : plain b -> Base (abs (k ++ [b])) = b.
Proof. intros Hb. unfold Base. by rewrite SplitLast_abs. Qed.

Lemma SplitLast_spec p :
  p = (SplitLast p).1 +:+ (SplitLast p).2 /\ strings.has_byte slash (SplitLast p).2 = false /\
  ((SplitLast p).1 = "" \/ exists d, (SplitLast p).1 = d +:+ String slash "").
Proof.
  induction p as [|c p (Hp & Hb & Hd)]; [by auto|]. cbn [SplitLast]. destruct (SplitLast p) as [d b]. cbn [fst snd] in *.
  destruct (String.eqb_spec d "") as [->|Hne].
  - subst p. destruct (Ascii.eqb_spec c slash) as [->|Hc]; cbn [fst snd].
    + split; [done|]. split; [done|]. right. by exists "".
    + split; [done|]. split; [|by left]. simpl. apply Ascii.eqb_neq in Hc. by rewrite Hc.
  - cbn [fst snd]. split; [by rewrite Hp at 1|]. split; [done|]. right. destruct Hd as [?|[d' ->]]; [done|].
    by exists (String c d').
Qed.

(** An absolute path that ends with the beginning of a name: the directory,
    and its files of which the name begins so. *)
Lemma prefix_spec p : rooted p = true -> exists d k,
  SplitLast p = (d, Base p) /\ d <> "" /\ rooted d = true /\ clean_comps d = k /\ Forall plain k /\
  Clean d = abs k /\ Dir p = abs k /\ strings.has_byte slash (Base p) = false /\
  forall x, plain (Base p +:+ x) -> clean_comps (p +:+ x) = k ++ [Base p +:+ x].
Proof.
  intros Hr. destruct (SplitLast_spec p) as (Hp & Hb & Hd). unfold Dir, Base. destruct (SplitLast p) as [d b].
  cbn [fst snd] in *. destruct Hd as [->|[d' ->]].
  { exfalso. subst p. destruct b as [|a b]; [done|]. change (rooted (String a b) = true) in Hr. rewrite rooted_cons in Hr. simpl in Hb. by rewrite Hr in Hb. }
  assert (p = d' +:+ String slash b) as He.
  { rewrite Hp. clear. induction d' as [|c d IH]; [done|]. simpl. by rewrite IH. }
  assert (rooted (d' +:+ String slash "") = true) as Hrd.
  { rewrite He in Hr. destruct d' as [|c d']; [done|]. by rewrite rooted_app in * by done. }
  exists (d' +:+ String slash ""), (clean_comps (d' +:+ String slash "")). split; [done|]. split; [by destruct d'|].
  split; [exact Hrd|]. split; [reflexivity|]. split; [by apply clean_comps_plain|]. rewrite Clean_rooted by exact Hrd.
  do 2 (split; [reflexivity|]). split; [exact Hb|]. intros x Hx. rewrite He.
  replace ((d' +:+ String slash b) +:+ x) with (d' +:+ String slash (b +:+ x))
    by (clear; induction d' as [|c d IH]; [done|]; simpl; by rewrite IH).
  assert (rooted (d' +:+ String slash (b +:+ x)) = true) as Hrx.
  { destruct d' as [|c d']; [apply rooted_slash|]. by rewrite rooted_app in * by done. }
  unfold clean_comps. rewrite Hrx, Hrd, !Split_app, !fold_left_app. rewrite (Split_plain (b +:+ x)) by apply Hx.
  cbn [fold_left Split]. rewrite clean_step_plain by done. done.
Qed.
End filepath.
