(* ===== verification/Sha1.v ===== *)
(** * crypto/sha1 and encoding/hex

    The digest the cache names its files with, as an executable definition
    (FIPS 180-4), and the only facts about it that hold unconditionally: a hex
    digest is forty lower-case hex digits, hence a plain file name. *)
From S2P Require Import Prelude GoStd Path.

Module sha1.
Definition mask32 (z : Z) : Z := Z.land z 4294967295.
Definition rotl (n x : Z) : Z :=
  mask32 (Z.lor (Z.shiftl x n) (Z.shiftr x (32 - n))).

Fixpoint bytes_of (s : string) : list Z :=
  match s with
  | EmptyString => []
  | String c s' => Z.of_nat (nat_of_ascii c) :: bytes_of s'
  end.

(** [n] big-endian bytes of [z]. *)
Fixpoint be_bytes (n : nat) (z : Z) : list Z :=
  match n with
  | O => []
  | S n' => be_bytes n' (Z.shiftr z 8) ++ [Z.land z 255]
  end.

Definition pad (m : list Z) : list Z :=
  let l := Z.of_nat (length m) in
  m ++ [128] ++ replicate (Z.to_nat ((55 - l) mod 64)) 0 ++ be_bytes 8 (8 * l).

Fixpoint words (fuel : nat) (l : list Z) : list Z :=
  match fuel, l with
  | S f, a :: b :: c :: d :: l' =>
      (Z.shiftl a 24 + Z.shiftl b 16 + Z.shiftl c 8 + d) :: words f l'
  | _, _ => []
  end.

(** The message schedule, newest word first. *)
Fixpoint schedule (n : nat) (w : list Z) : list Z :=
  match n with
  | O => w
  | S n' =>
      let x := Z.lxor (Z.lxor (nth 2 w 0) (nth 7 w 0)) (Z.lxor (nth 13 w 0) (nth 15 w 0)) in
      schedule n' (rotl 1 x :: w)
  end.

Definition state : Type := Z * Z * Z * Z * Z.

Definition round (acc : Z * state) (w : Z) : Z * state :=
  let '(t, (a, b, c, d, e)) := acc in
  let '(f, k) :=
    if t <? 20 then (Z.lor (Z.land b c) (Z.land (Z.lxor b 4294967295) d), 1518500249)
    else if t <? 40 then (Z.lxor (Z.lxor b c) d, 1859775393)
    else if t <? 60 then
      (Z.lor (Z.lor (Z.land b c) (Z.land b d)) (Z.land c d), 2400959708)
    else (Z.lxor (Z.lxor b c) d, 3395469782) in
  let tmp := mask32 (rotl 5 a + f + e + k + w) in
  (t + 1, (tmp, a, rotl 30 b, c, d)).

Definition block (h : state) (ws : list Z) : state :=
  let w := rev (schedule 64 (rev ws)) in
  let '(h0, h1, h2, h3, h4) := h in
  let '(_, (a, b, c, d, e)) := fold_left round w (0, h) in
  (mask32 (h0 + a), mask32 (h1 + b), mask32 (h2 + c), mask32 (h3 + d), mask32 (h4 + e)).

Fixpoint blocks (fuel : nat) (h : state) (ws : list Z) : state :=
  match fuel with
  | O => h
  | S f => match ws with
           | [] => h
           | _ => blocks f (block h (take 16 ws)) (drop 16 ws)
           end
  end.

Definition init : state := (1732584193, 4023233417, 2562383102, 271733878, 3285377520).

(** The 20 bytes of the digest. *)
Definition Sum (s : string) : list Z :=
  let p := pad (bytes_of s) in
  let ws := words (length p) p in
  let '(a, b, c, d, e) := blocks (length ws) init ws in
  be_bytes 4 a ++ be_bytes 4 b ++ be_bytes 4 c ++ be_bytes 4 d ++ be_bytes 4 e.
End sha1.

Module hex.
Definition digit (d : Z) : ascii :=
  if d <? 10 then ascii_of_nat (48 + Z.to_nat d) else ascii_of_nat (87 + Z.to_nat d).

(** [hex.EncodeToString], also [fmt]'s [%x] on a byte array. *)
Fixpoint EncodeToString (l : list Z) : string :=
  match l with
  | [] => EmptyString
  | b :: l' => String (digit (Z.shiftr b 4)) (String (digit (Z.land b 15)) (EncodeToString l'))
  end.
End hex.

(** [hex.EncodeToString(sum[:])] of a SHA-1. *)
Definition sha1hex (s : string) : string := hex.EncodeToString (sha1.Sum s).

Example sha1_abc : sha1hex "abc" = "a9993e364706816aba3e25717850c26c9cd0d89d".
Proof. vm_compute. reflexivity. Qed.

Example sha1_empty : sha1hex "" = "da39a3ee5e6b4b0d3255bfef95601890afd80709".
Proof. vm_compute. reflexivity. Qed.

Example sha1_two_blocks :
  sha1hex "abcdbcdecdefdefgefghfghighijhijkijkljklmklmnlmnomnopnopq" =
  "84983e441c3bd26ebaae4aa1f95129e5e54670f1".
Proof. vm_compute. reflexivity. Qed.

Definition is_hex (c : ascii) : bool :=
  let n := nat_of_ascii c in
  (48 <=? Z.of_nat n) && (Z.of_nat n <=? 57) || (97 <=? Z.of_nat n) && (Z.of_nat n <=? 102).

Fixpoint all_hex (s : string) : bool :=
  match s with
  | EmptyString => true
  | String c s' => is_hex c && all_hex s'
  end.

Lemma length_be_bytes n z : length (sha1.be_bytes n z) = n.
Proof. revert z. induction n as [|n IH]; intros z; simpl; [done|]. rewrite length_app, IH. simpl. lia. Qed.

Lemma be_bytes_range n z : Forall (fun b => 0 <= b < 256) (sha1.be_bytes n z).
Proof.
  revert z. induction n as [|n IH]; intros z; simpl; [done|].
  apply Forall_app. split; [apply IH|]. constructor; [|done].
  change 255 with (Z.ones 8). rewrite Z.land_ones by lia. apply Z.mod_pos_bound. lia.
Qed.

Lemma Sum_shape s : length (sha1.Sum s) = 20%nat /\ Forall (fun b => 0 <= b < 256) (sha1.Sum s).
Proof.
  unfold sha1.Sum. destruct (sha1.blocks _ _ _) as [[[[a b] c] d] e]. split.
  - by rewrite !length_app, !length_be_bytes.
  - rewrite !Forall_app. auto 10 using be_bytes_range.
Qed.

Lemma is_hex_digit d : 0 <= d < 16 -> is_hex (hex.digit d) = true.
Proof.
  intros Hd. assert (d = 0 \/ d = 1 \/ d = 2 \/ d = 3 \/ d = 4 \/ d = 5 \/ d = 6 \/ d = 7 \/
    d = 8 \/ d = 9 \/ d = 10 \/ d = 11 \/ d = 12 \/ d = 13 \/ d = 14 \/ d = 15) as Hc by lia.
  by repeat destruct Hc as [-> | Hc]; [done..|subst].
Qed.

Lemma EncodeToString_hex l :
  Forall (fun b => 0 <= b < 256) l ->
  all_hex (hex.EncodeToString l) = true /\
  String.length (hex.EncodeToString l) = (2 * length l)%nat.
Proof.
  induction 1 as [|b l Hb _ [IH1 IH2]]; [done|].
  assert (0 <= Z.shiftr b 4 < 16) as H1.
  { rewrite Z.shiftr_div_pow2 by lia. change (2 ^ 4) with 16. split.
    - apply Z.div_pos; lia.
    - apply Z.div_lt_upper_bound; lia. }
  assert (0 <= Z.land b 15 < 16) as H2.
  { change 15 with (Z.ones 4). rewrite Z.land_ones by lia. apply Z.mod_pos_bound. lia. }
  cbn [hex.EncodeToString all_hex String.length length].
  rewrite !is_hex_digit, IH1 by done. split; [done|]. rewrite IH2. lia.
Qed.

(** A hex digest is forty hex digits. *)
Lemma sha1hex_shape s : all_hex (sha1hex s) = true /\ String.length (sha1hex s) = 40%nat.
Proof.
  unfold sha1hex. destruct (Sum_shape s) as [Hl Hr].
  destruct (EncodeToString_hex _ Hr) as [H1 H2]. split; [done|]. by rewrite H2, Hl.
Qed.

Lemma all_hex_no_slash s : all_hex s = true -> strings.has_byte filepath.slash s = false.
Proof.
  induction s as [|c s IH]; simpl; [done|].
  intros [Hc Hs]%andb_true_iff. rewrite IH by done.
  destruct (Ascii.eqb_spec c filepath.slash) as [->|]; [done|done].
Qed.

Lemma all_hex_plain s : all_hex s = true -> s <> "" -> filepath.plain s.
Proof.
  intros Hs Hne. repeat split; [by apply all_hex_no_slash|done|..]; by intros ->.
Qed.

Lemma all_hex_take n s : all_hex s = true -> all_hex (strings.take n s) = true.
Proof.
  revert s. induction n as [|n IH]; intros [|c s]; simpl; try done.
  intros [Hc Hs]%andb_true_iff. by rewrite Hc, IH.
Qed.

Lemma sha1hex_plain s : filepath.plain (sha1hex s).
Proof.
  destruct (sha1hex_shape s) as [Hh Hl]. apply all_hex_plain; [done|].
  intros He. by rewrite He in Hl.
Qed.

Lemma sha1hex_take2_plain s : filepath.plain (strings.take 2 (sha1hex s)).
Proof.
  destruct (sha1hex_shape s) as [Hh Hl]. apply all_hex_plain; [by apply all_hex_take|].
  destruct (sha1hex s) as [|c [|d t]]; done.
Qed.

#[export] Hint Resolve sha1hex_plain sha1hex_take2_plain : s3c.
