(* ===== verification/Fs.v ===== *)
(** * The operating system under the cache

    A file system with directories, directory entries, inodes and open
    handles, and the system calls of package [os] the cache makes. Each call
    asks an oracle whether it fails or the process dies in it, so the error
    paths and the crash points of the code are runs of the same definitions.
    A small Hoare logic over the resulting monad proves what holds whatever
    the oracle answers. *)
From S2P Require Import Prelude GoStd Http Path.

Record inode := Inode { i_data : bytes; i_mtime : Z }.

(** [fs_files] maps a path to the inode its directory entry names;
    [fs_handles] maps an open handle to its inode, which stays readable after
    the entry is gone. [fs_rand] is the entropy of [os.CreateTemp]. *)
Record fsys := {
  fs_dirs : gset string;
  fs_files : gmap string nat;
  fs_inodes : gmap nat inode;
  fs_handles : gmap nat nat;
  fs_next : nat;
  fs_now : Z;
  fs_rand : list Z;
}.

(** What happens to one system call: it succeeds, fails after part of its
    effect, or the process dies after part of its effect. *)
Inductive fault :=
| NoFault
| Fails (e : goerr) (part : nat)
| Dies (part : nat).

Record world := { w_fs : fsys; w_faults : list fault }.

(** A program: its atomic calls in order, each with what follows it. A call
    that gives no value is the death of the process. *)
Inductive M (A : Type) : Type :=
| Ret (a : A)
| Call (X : Type) (call : world -> world * option X) (next : X -> M A).
Arguments Ret {A} a.
Arguments Call {A X} call next.

(** Alone on the machine, a program runs from a world to a world. *)
Fixpoint alone {A} (m : M A) (w : world) : world * option A :=
  match m with
  | Ret a => (w, Some a)
  | Call call next =>
      match call w with
      | (w', Some x) => alone (next x) w'
      | (w', None) => (w', None)
      end
  end.
Coercion alone : M >-> Funclass.

Definition io_ret {A} (a : A) : M A := Ret a.
Fixpoint io_bind {A B} (m : M A) (k : A -> M B) : M B :=
  match m with
  | Ret a => k a
  | Call call next => Call call (fun x => io_bind (next x) k)
  end.

Notation "'let!' x ':=' m 'in' k" := (io_bind m (fun x => k))
  (at level 10, x pattern, m at level 100, k at level 200) : s3c_scope.

Definition sys_call {A} (part : nat -> fsys -> fsys) (act : fsys -> fsys * (goerr + A)) (w : world)
    : world * option (goerr + A) :=
  let f := w_fs w in
  match w_faults w with
  | [] | NoFault :: _ =>
      let '(f', r) := act f in
      ({| w_fs := f'; w_faults := tail (w_faults w) |}, Some r)
  | Fails e n :: l => ({| w_fs := part n f; w_faults := l |}, Some (inl e))
  | Dies n :: l => ({| w_fs := part n f; w_faults := l |}, None)
  end.
Definition sys {A} (part : nat -> fsys -> fsys) (act : fsys -> fsys * (goerr + A)) : M (goerr + A) :=
  Call (sys_call part act) Ret.

(** A look at the state that cannot fail. *)
Definition look {A} (g : fsys -> A) : M A := Call (fun w => (w, Some (g (w_fs w)))) Ret.

Lemma alone_bind {A B} (m : M A) (k : A -> M B) w :
  io_bind m k w = match m w with (w', Some a) => k a w' | (w', None) => (w', None) end.
Proof.
  revert w. induction m as [a|X call next IH]; intros w; simpl; [done|].
  destruct (call w) as [w' [x|]]; [apply IH|done].
Qed.

Lemma alone_sys {A} part (act : fsys -> fsys * (goerr + A)) w : sys part act w = sys_call part act w.
Proof. unfold sys. simpl. by destruct (sys_call part act w) as [w' [x|]]. Qed.

Lemma alone_look {A} (g : fsys -> A) w : look g w = (w, Some (g (w_fs w))).
Proof. done. Qed.

Arguments alone : simpl never.
Arguments io_bind : simpl never.
Arguments sys : simpl never.

(** Frame updates of the record. *)
Definition set_files (m : gmap string nat) (f : fsys) : fsys :=
  {| fs_dirs := fs_dirs f; fs_files := m; fs_inodes := fs_inodes f;
     fs_handles := fs_handles f; fs_next := fs_next f; fs_now := fs_now f;
     fs_rand := fs_rand f |}.
Definition set_dirs (d : gset string) (f : fsys) : fsys :=
  {| fs_dirs := d; fs_files := fs_files f; fs_inodes := fs_inodes f;
     fs_handles := fs_handles f; fs_next := fs_next f; fs_now := fs_now f;
     fs_rand := fs_rand f |}.
Definition set_inodes (m : gmap nat inode) (f : fsys) : fsys :=
  {| fs_dirs := fs_dirs f; fs_files := fs_files f; fs_inodes := m;
     fs_handles := fs_handles f; fs_next := fs_next f; fs_now := fs_now f;
     fs_rand := fs_rand f |}.
Definition set_handles (m : gmap nat nat) (f : fsys) : fsys :=
  {| fs_dirs := fs_dirs f; fs_files := fs_files f; fs_inodes := fs_inodes f;
     fs_handles := m; fs_next := fs_next f; fs_now := fs_now f;
     fs_rand := fs_rand f |}.

(** The inode and content a path names now. *)
Definition file_inode (f : fsys) (p : string) : option inode :=
  fs_files f !! p ≫= fun i => fs_inodes f !! i.
Definition file_data (f : fsys) (p : string) : option bytes := i_data <$> file_inode f p.
(** What reading an open handle gives. *)
Definition handle_data (f : fsys) (h : nat) : option bytes :=
  fs_handles f !! h ≫= fun i => i_data <$> fs_inodes f !! i.

Definition is_dir (f : fsys) (p : string) : bool :=
  bool_decide (p ∈ fs_dirs f) || String.eqb p "/" || String.eqb p ".".

(** [p] and the directories above it, outermost first. *)
Fixpoint ancestors_go (fuel : nat) (p : string) (acc : list string) : list string :=
  match fuel with
  | O => p :: acc
  | S n => if String.eqb (filepath.Dir p) p then p :: acc
           else ancestors_go n (filepath.Dir p) (p :: acc)
  end.
Definition ancestors (p : string) : list string := ancestors_go (String.length p) p [].

Lemma ancestors_self p : p ∈ ancestors p.
Proof.
  unfold ancestors.
  assert (forall n q acc x, x = q \/ x ∈ acc -> x ∈ ancestors_go n q acc) as Hgo.
  { induction n as [|n IH]; intros q acc x Hx; cbn [ancestors_go].
    - set_solver.
    - case_match; [set_solver|]. apply IH. right. set_solver. }
  apply Hgo. by left.
Qed.

Module os.
Definition ErrNotExist (p : string) : goerr :=
  OsNotExist ("open " +:+ p +:+ ": no such file or directory").

Definition alloc_handle (i : nat) (f : fsys) : fsys * nat :=
  ({| fs_dirs := fs_dirs f; fs_files := fs_files f; fs_inodes := fs_inodes f;
      fs_handles := <[fs_next f := i]> (fs_handles f); fs_next := S (fs_next f);
      fs_now := fs_now f; fs_rand := fs_rand f |}, fs_next f).

(** [os.Open] of a regular file: a new handle on its inode. *)
Definition Open_act (p : string) (f : fsys) : fsys * (goerr + nat) :=
  match fs_files f !! p with
  | Some i => let '(f', h) := alloc_handle i f in (f', inr h)
  | None => (f, inl (ErrNotExist p))
  end.
Definition Open (p : string) : M (goerr + nat) := sys (fun _ f => f) (Open_act p).

Definition ReadFile (p : string) : M (goerr + bytes) :=
  sys (fun _ f => f) (fun f =>
    match file_data f p with
    | Some d => (f, inr d)
    | None => (f, inl (ErrNotExist p))
    end).

(** [f.Stat().Size()]. *)
Definition Stat (h : nat) : M (goerr + Z) :=
  sys (fun _ f => f) (fun f =>
    match handle_data f h with
    | Some d => (f, inr (Z.of_nat (length d)))
    | None => (f, inl (OsError "file already closed"))
    end).

(** The handle is gone whether or not [Close] reports an error. *)
Definition close_handle (h : nat) (f : fsys) : fsys := set_handles (delete h (fs_handles f)) f.
Definition Close (h : nat) : M (goerr + unit) :=
  sys (fun _ => close_handle h) (fun f => (close_handle h f, inr tt)).

Definition set_mtime (p : string) (t : Z) (f : fsys) : fsys :=
  match fs_files f !! p with
  | Some i => set_inodes (alter (fun x => Inode (i_data x) t) i (fs_inodes f)) f
  | None => f
  end.
Definition Chtimes (p : string) (t : Z) : M (goerr + unit) :=
  sys (fun _ f => f) (fun f =>
    match fs_files f !! p with
    | Some _ => (set_mtime p t f, inr tt)
    | None => (f, inl (ErrNotExist p))
    end).

Definition add_dirs (l : list string) (f : fsys) : fsys :=
  set_dirs (list_to_set l ∪ fs_dirs f) f.
Definition MkdirAll (p : string) : M (goerr + unit) :=
  let l := ancestors (filepath.Clean p) in
  sys (fun n => add_dirs (take n l)) (fun f =>
    if bool_decide (Exists (fun a => is_Some (fs_files f !! a)) l)
    then (f, inl (OsError "not a directory"))
    else (add_dirs l f, inr tt)).

(** [os.CreateTemp(dir, prefix + "*")]: the first random name that does not
    exist yet, opened for writing. *)
Definition temp_name (dir prefix : string) (r : Z) : string :=
  dir +:+ String filepath.slash (prefix +:+ strconv.FormatInt r).
Fixpoint pick_name (f : fsys) (dir prefix : string) (rs : list Z) : option (string * list Z) :=
  match rs with
  | [] => None
  | r :: rs' =>
      let p := temp_name dir prefix r in
      if bool_decide (is_Some (fs_files f !! p)) || is_dir f p
      then pick_name f dir prefix rs' else Some (p, rs')
  end.
Definition CreateTemp_act (dir prefix : string) (f : fsys) : fsys * (goerr + (nat * string)) :=
  if negb (is_dir f dir) then (f, inl (ErrNotExist dir))
  else match pick_name f dir prefix (fs_rand f) with
       | None => (f, inl (OsError "file exists"))
       | Some (p, rs) =>
           let i := fs_next f in
           ({| fs_dirs := fs_dirs f; fs_files := <[p := i]> (fs_files f);
               fs_inodes := <[i := Inode [] (fs_now f)]> (fs_inodes f);
               fs_handles := <[S i := i]> (fs_handles f); fs_next := S (S i);
               fs_now := fs_now f; fs_rand := rs |}, inr (S i, p))
       end.
Definition CreateTemp (dir prefix : string) : M (goerr + (nat * string)) :=
  sys (fun _ f => f) (CreateTemp_act dir prefix).

(** Appends to the inode; a failing write may have written a prefix. *)
Definition append (h : nat) (d : bytes) (f : fsys) : fsys :=
  match fs_handles f !! h with
  | Some i => set_inodes (alter (fun x => Inode (i_data x ++ d) (fs_now f)) i (fs_inodes f)) f
  | None => f
  end.
Definition Write (h : nat) (d : bytes) : M (goerr + unit) :=
  sys (fun n => append h (take n d)) (fun f => (append h d f, inr tt)).
Definition Sync (h : nat) : M (goerr + unit) := sys (fun _ f => f) (fun f => (f, inr tt)).

Definition Rename_act (a b : string) (f : fsys) : fsys * (goerr + unit) :=
  match fs_files f !! a with
  | None => (f, inl (ErrNotExist a))
  | Some i =>
      if is_dir f b then (f, inl (OsError "file exists"))
      else if negb (is_dir f (filepath.Dir b)) then (f, inl (ErrNotExist b))
      else (set_files (<[b := i]> (delete a (fs_files f))) f, inr tt)
  end.
Definition Rename (a b : string) : M (goerr + unit) := sys (fun _ f => f) (Rename_act a b).

(** A directory is empty when nothing has it as its [Dir]. *)
Definition children (f : fsys) (p : string) : list string :=
  filter (fun q => q <> p /\ filepath.Dir q = p)
    (elements (fs_dirs f ∪ dom (fs_files f))).
Definition Remove_act (p : string) (f : fsys) : fsys * (goerr + unit) :=
  match fs_files f !! p with
  | Some _ => (set_files (delete p (fs_files f)) f, inr tt)
  | None =>
      if bool_decide (p ∈ fs_dirs f) then
        match children f p with
        | [] => (set_dirs (fs_dirs f ∖ {[p]}) f, inr tt)
        | _ => (f, inl (OsError "directory not empty"))
        end
      else (f, inl (ErrNotExist p))
  end.
Definition Remove (p : string) : M (goerr + unit) := sys (fun _ f => f) (Remove_act p).

(** [os.ReadDir]: name and kind of each entry, sorted by name. *)
Definition entries (f : fsys) (p : string) : list (string * bool) :=
  (fun q => (filepath.Base q, bool_decide (q ∈ fs_dirs f))) <$>
    merge_sort String.le (children f p).
Definition ReadDir (p : string) : M (goerr + list (string * bool)) :=
  sys (fun _ f => f) (fun f =>
    let p := filepath.Clean p in
    if is_dir f p then (f, inr (entries f p)) else (f, inl (ErrNotExist p))).
End os.

Module time.
Definition Now : M Z := look fs_now.
End time.

(** ** Hoare logic

    [hoare P m Q C]: from a state satisfying [P], a run of [m] under any
    oracle either returns a value and a state related by [Q] or dies in a
    state satisfying [C]. *)
Definition hoare {A} (P : fsys -> Prop) (m : M A) (Q : A -> fsys -> Prop) (C : fsys -> Prop) : Prop :=
  forall w, P (w_fs w) ->
    match m w with
    | (w', Some a) => Q a (w_fs w')
    | (w', None) => C (w_fs w')
    end.

Lemma hoare_ret {A} (a : A) (P : fsys -> Prop) (Q : A -> fsys -> Prop) C :
  (forall f, P f -> Q a f) -> hoare P (io_ret a) Q C.
Proof. intros HP w Hw. simpl. auto. Qed.

Lemma hoare_bind {A B} (m : M A) (k : A -> M B) P R Q C :
  hoare P m R C -> (forall a, hoare (R a) (k a) Q C) -> hoare P (io_bind m k) Q C.
Proof.
  intros Hm Hk w Hw. specialize (Hm w Hw). rewrite alone_bind.
  destruct (m w) as [w' [a|]]; [by apply Hk | done].
Qed.

Lemma hoare_conseq {A} (m : M A) (P P' : fsys -> Prop) (Q Q' : A -> fsys -> Prop) (C C' : fsys -> Prop) :
  hoare P' m Q' C' -> (forall f, P f -> P' f) -> (forall a f, Q' a f -> Q a f) ->
  (forall f, C' f -> C f) -> hoare P m Q C.
Proof.
  intros Hm HP HQ HC w Hw. specialize (Hm w (HP _ Hw)).
  destruct (m w) as [w' [a|]]; auto.
Qed.

Lemma hoare_sys {A} part (act : fsys -> fsys * (goerr + A)) P Q C :
  (forall f, P f -> Q (act f).2 (act f).1) ->
  (forall f e n, P f -> Q (inl e) (part n f)) ->
  (forall f n, P f -> C (part n f)) ->
  hoare P (sys part act) Q C.
Proof.
  intros Ha Hf Hc w Hw. rewrite alone_sys. unfold sys_call.
  destruct (w_faults w) as [|[|e n|n] l]; simpl; auto;
    specialize (Ha _ Hw); by destruct (act (w_fs w)).
Qed.

(** A call whose partial effect is the identity: only success needs proof. *)
Lemma hoare_sys_atomic {A} (act : fsys -> fsys * (goerr + A)) (P : fsys -> Prop) Q C :
  (forall f, P f -> Q (act f).2 (act f).1) ->
  (forall f e, P f -> Q (inl e) f) -> (forall f, P f -> C f) ->
  hoare P (sys (fun _ f => f) act) Q C.
Proof. intros Ha Hf Hc. apply hoare_sys; auto. Qed.

Lemma hoare_now P (Q : Z -> fsys -> Prop) C :
  (forall f, P f -> Q (fs_now f) f) -> hoare P time.Now Q C.
Proof. intros HP w Hw. simpl. auto. Qed.

Lemma hoare_pure {A} (φ : Prop) (P : fsys -> Prop) (m : M A) Q C :
  (φ -> hoare P m Q C) -> hoare (fun f => φ /\ P f) m Q C.
Proof. intros Hm w [Hφ Hw]. by apply Hm. Qed.

Lemma hoare_pure_r {A} (φ : Prop) (P : fsys -> Prop) (m : M A) Q C :
  (φ -> hoare P m Q C) -> hoare (fun f => P f /\ φ) m Q C.
Proof. intros Hm w [Hw Hφ]. by apply Hm. Qed.

Lemma hoare_exists {A X} (P : X -> fsys -> Prop) (m : M A) Q C :
  (forall x, hoare (P x) m Q C) -> hoare (fun f => exists x, P x f) m Q C.
Proof. intros Hm w [x Hw]. by apply (Hm x). Qed.

Lemma hoare_crash {A} (m : M A) P Q (C C' : fsys -> Prop) :
  hoare P m Q C -> (forall f, C f -> C' f) -> hoare P m Q C'.
Proof. intros Hm HC. by eapply hoare_conseq. Qed.

Lemma hoare_pre {A} (P P' : fsys -> Prop) (m : M A) Q C :
  hoare P' m Q C -> (forall f, P f -> P' f) -> hoare P m Q C.
Proof. intros Hm HP w Hw. apply Hm, HP, Hw. Qed.

Lemma hoare_false {A} (m : M A) (P : fsys -> Prop) Q C :
  (forall f, ~ P f) -> hoare P m Q C.
Proof. intros HP w Hw. by destruct (HP _ Hw). Qed.

(** ** Runs the process survives *)

Definition survives (x : fault) : Prop := match x with Dies _ => False | _ => True end.

(** Calls may fail, but not the process: no call of [m] ends it of itself. *)
Fixpoint alive {A} (m : M A) : Prop :=
  match m with
  | Ret _ => True
  | Call call next =>
      (forall w, Forall survives (w_faults w) ->
         exists w' a, call w = (w', Some a) /\ Forall survives (w_faults w')) /\
      forall a, alive (next a)
  end.

(** Such a program returns. *)
Lemma alive_returns {A} (m : M A) w : alive m -> Forall survives (w_faults w) ->
  exists w' a, m w = (w', Some a) /\ Forall survives (w_faults w').
Proof.
  revert w. induction m as [a|Y call next IH]; intros w Hm Hw; [by exists w, a|]. destruct Hm as [Hc Hn].
  destruct (Hc w Hw) as (w1 & x & Hx & Hw1). unfold alone. rewrite Hx. by apply IH.
Qed.

Lemma alive_ret {A} (a : A) : alive (io_ret a).
Proof. done. Qed.

Lemma alive_look {A} (g : fsys -> A) : alive (look g).
Proof. split; [|done]. intros w Hw. by eexists _, _. Qed.

Lemma alive_now : alive time.Now.
Proof. apply alive_look. Qed.

Lemma alive_bind {A B} (m : M A) (k : A -> M B) : alive m -> (forall a, alive (k a)) -> alive (io_bind m k).
Proof.
  unfold io_bind. intros Hm Hk. induction m as [a|Y call next IH]; [apply Hk|]. destruct Hm as [Hc Hn].
  split; [done|]. intros a. apply IH, Hn.
Qed.

Lemma alive_sys {A} part (act : fsys -> fsys * (goerr + A)) : alive (sys part act).
Proof.
  split; [|done]. intros w Hw. unfold sys_call. destruct (w_faults w) as [|x l]; simpl in *.
  { destruct (act (w_fs w)) as [f' r]. by eexists _, _. }
  inversion Hw as [|? ? Hx Hl]; subst. destruct x; [|by eexists _, _|done].
  destruct (act (w_fs w)) as [f' r]. by eexists _, _.
Qed.

Create HintDb alive.
#[export] Hint Resolve alive_ret alive_now alive_look alive_sys : alive.

(** Through the binds and case distinctions of a program. *)
Ltac alive :=
  repeat first
    [ solve [auto with alive]
    | apply alive_bind; [|intros ?]
    | progress cbv zeta
    | match goal with |- alive (match ?x with _ => _ end) => destruct x end ].

(** ** Runs without faults *)

Definition calm (f : fsys) : world := {| w_fs := f; w_faults := [] |}.

Lemma sys_calm {A} part (act : fsys -> fsys * (goerr + A)) f :
  sys part act (calm f) = (calm (act f).1, Some (act f).2).
Proof. rewrite alone_sys. unfold sys_call, calm. simpl. by destruct (act f). Qed.

Lemma io_bind_calm {A B} (m : M A) (k : A -> M B) f f' a :
  m (calm f) = (calm f', Some a) -> io_bind m k (calm f) = k a (calm f').
Proof. rewrite alone_bind. by intros ->. Qed.

(** ** Well-formedness: numbers at or above [fs_next] are unused *)
Definition fs_wf (f : fsys) : Prop :=
  (forall p i, fs_files f !! p = Some i -> is_Some (fs_inodes f !! i)) /\
  (forall h i, fs_handles f !! h = Some i -> is_Some (fs_inodes f !! i) /\ (h < fs_next f)%nat) /\
  (forall i x, fs_inodes f !! i = Some x -> (i < fs_next f)%nat).

(** ** What the calls preserve

    [kept f f']: every inode keeps its content, so an open handle reads what
    it read. [same_view f f']: besides, every path shows the same content in
    both states, and numbers stay well formed. *)
Definition kept (f f' : fsys) : Prop :=
  forall i x, fs_inodes f !! i = Some x -> exists x', fs_inodes f' !! i = Some x' /\ i_data x' = i_data x.

#[global] Instance kept_preorder : PreOrder kept.
Proof.
  split; [by intros f i x Hx; exists x|]. intros f1 f2 f3 H1 H2 i x Hx.
  destruct (H1 i x Hx) as (x2 & Hx2 & <-). by apply H2.
Qed.

Lemma kept_inodes f f' : fs_inodes f' = fs_inodes f -> kept f f'.
Proof. intros He i x Hx. exists x. by rewrite He. Qed.

Lemma kept_handle f f' h d :
  kept f f' -> handle_data f h = Some d -> fs_handles f' !! h = fs_handles f !! h -> handle_data f' h = Some d.
Proof.
  unfold handle_data. intros Hk Hd ->. destruct (fs_handles f !! h) as [i|]; [|done]. simpl in *.
  destruct (fs_inodes f !! i) as [x|] eqn:Hx; [|done]. simpl in Hd. destruct (Hk i x Hx) as (x' & -> & Hx'). simpl. congruence.
Qed.

Definition same_view (f f' : fsys) : Prop :=
  (forall q, file_data f' q = file_data f q) /\ (fs_wf f -> fs_wf f') /\ kept f f'.

Lemma same_view_refl f : same_view f f.
Proof. split; [done|]. split; [done|reflexivity]. Qed.

#[global] Instance same_view_preorder : PreOrder same_view.
Proof.
  split; [intros f; apply same_view_refl|]. intros f1 f2 f3 (H1 & H2 & H3) (H4 & H5 & H6).
  split; [intros q; by rewrite H4|]. split; [auto|by etrans].
Qed.

Lemma same_view_Open p f : same_view f (os.Open_act p f).1.
Proof.
  unfold os.Open_act. destruct (fs_files f !! p) as [i|] eqn:Hp; [|apply same_view_refl].
  simpl. split; [done|]. split; [|by apply kept_inodes]. intros (H1 & H2 & H3). repeat split; simpl in *.
  - exact H1.
  - apply lookup_insert_Some in H as [[_ <-]|[_ H]]; [eauto | by apply (H2 _ _ H)].
  - apply lookup_insert_Some in H as [[<- _]|[_ H]]; [lia | apply H2 in H as [_ ?]; lia].
  - intros j x Hj. specialize (H3 _ _ Hj). lia.
Qed.

Lemma same_view_close h f : same_view f (os.close_handle h f).
Proof.
  split; [done|]. split; [|by apply kept_inodes]. intros (H1 & H2 & H3). repeat split; simpl in *; [exact H1|..|exact H3];
    apply lookup_delete_Some in H as [_ H]; by apply (H2 _ _ H).
Qed.

Lemma same_view_dirs l f : same_view f (os.add_dirs l f).
Proof. split; [done|]. split; [done|by apply kept_inodes]. Qed.

Lemma kept_alter g i f f' :
  (forall x, i_data (g x) = i_data x) -> fs_inodes f' = alter g i (fs_inodes f) -> kept f f'.
Proof.
  intros Hg He j x Hx. rewrite He. destruct (decide (i = j)) as [->|Hne].
  - exists (g x). rewrite lookup_alter_eq, Hx. simpl. auto.
  - exists x. by rewrite lookup_alter_ne.
Qed.

Lemma same_view_mtime p t f : same_view f (os.set_mtime p t f).
Proof.
  unfold os.set_mtime. destruct (fs_files f !! p) as [i|]; [|apply same_view_refl].
  pose proof (alter_is_Some (fun x => Inode (i_data x) t) (fs_inodes f) i) as Ha.
  split; [|split; [|by apply (kept_alter (fun x => Inode (i_data x) t) i)]].
  - intros q. unfold file_data, file_inode. simpl. destruct (fs_files f !! q) as [j|]; [|done].
    simpl. rewrite lookup_alter. case_decide; [subst|done]. by destruct (fs_inodes f !! j).
  - intros (H1 & H2 & H3). repeat split; simpl in *.
    + intros q j Hq. apply Ha. eauto.
    + apply Ha. by apply (H2 _ _ H).
    + by apply (H2 _ _ H).
    + intros j x Hj. destruct (proj1 (Ha j)) as [y Hy]; [by eexists|]. eauto.
Qed.

(** ** Temporary files *)

(** Files whose name starts with [.tmp_] are the caches' unfinished writes:
    nothing ever reads them as content. *)
Definition is_tmp (p : string) : bool := strings.HasPrefix (filepath.Base p) ".tmp_".

Lemma temp_name_tmp dir pre r :
  strings.HasPrefix pre ".tmp_" = true -> strings.has_byte filepath.slash pre = false ->
  is_tmp (os.temp_name dir pre r) = true.
Proof.
  intros Hp Hs. unfold is_tmp, os.temp_name. rewrite filepath.Base_app.
  - apply strings.prefix_inv in Hp. rewrite Hp.
    generalize (strings.drop (String.length ".tmp_") pre). intros t.
    change ((".tmp_" +:+ t) +:+ ?s) with (".tmp_" +:+ (t +:+ s)). apply strings.prefix_app.
  - rewrite strings.has_byte_app, Hs.
    rewrite strconv.FormatInt_no_byte; [done | done | done].
Qed.

Lemma pick_name_fresh f dir pre rs p rs' :
  os.pick_name f dir pre rs = Some (p, rs') ->
  fs_files f !! p = None /\ is_dir f p = false /\ exists r, p = os.temp_name dir pre r.
Proof.
  induction rs as [|r rs IH]; simpl; [done|].
  case_bool_decide as Hb; simpl; [auto|].
  destruct (is_dir f (os.temp_name dir pre r)) eqn:Hd; [auto|]. intros Heq.
  simplify_eq. repeat split; [by apply eq_None_not_Some | done | eauto].
Qed.

(** The state between the creation of a temporary file and its rename:
    [h] is open on the inode the temporary [name] stands for, which [f0] did
    not have, no finished path shares and which holds [d] so far. *)
Definition tmp_file (f0 : fsys) (i : nat) (name : string) (d : bytes) (f : fsys) : Prop :=
  exists x, fs_inodes f0 !! i = None /\ fs_files f !! name = Some i /\
    fs_inodes f !! i = Some x /\ i_data x = d /\ is_tmp name = true /\
    (forall q, fs_files f !! q = Some i -> is_tmp q = true).
Definition tmp_open (f0 : fsys) (h : nat) (name : string) (d : bytes) (f : fsys) : Prop :=
  exists i, fs_handles f !! h = Some i /\ tmp_file f0 i name d f.

(** Finished paths show what they showed in [f0], or content [X] allows, and
    the inodes of [f0] hold what they held. *)
Definition stable (X : string -> bytes -> Prop) (f0 f : fsys) : Prop :=
  (fs_wf f /\ kept f0 f) /\ forall q, is_tmp q = false ->
    file_data f q = file_data f0 q \/ exists d, X q d /\ file_data f q = Some d.

Lemma stable_mono (X X' : string -> bytes -> Prop) f0 f :
  (forall q d, X q d -> X' q d) -> stable X f0 f -> stable X' f0 f.
Proof.
  intros HX [Hwf Hs]. split; [done|]. intros q Hq. destruct (Hs q Hq) as [?|(d & ? & ?)]; [by left|right]. exists d. auto.
Qed.

Lemma stable_view X f0 f f' : stable X f0 f -> same_view f f' -> stable X f0 f'.
Proof.
  intros [[Hwf Hk] Hs] (Hv & Hw & Hk'). split; [split; [auto|by etrans]|]. intros q Hq. rewrite Hv. auto.
Qed.

Lemma CreateTemp_spec X f0 dir pre f :
  strings.HasPrefix pre ".tmp_" = true -> strings.has_byte filepath.slash pre = false ->
  stable X f0 f ->
  let '(f', r) := os.CreateTemp_act dir pre f in
  stable X f0 f' /\ match r with
                    | inl _ => fs_handles f' = fs_handles f
                    | inr (h, name) => tmp_open f0 h name [] f' /\ fs_handles f !! h = None /\
                                       delete h (fs_handles f') = fs_handles f
                    end.
Proof.
  intros Hpre Hsl [[Hwf Hk] Hst]. unfold os.CreateTemp_act.
  destruct (is_dir f dir); simpl; [|done].
  destruct (os.pick_name f dir pre (fs_rand f)) as [[p rs]|] eqn:Hp; [|done].
  apply pick_name_fresh in Hp as (Hnone & _ & r & ->).
  pose proof (temp_name_tmp dir pre r Hpre Hsl) as Htmp.
  destruct Hwf as (H1 & H2 & H3).
  assert (fs_inodes f !! fs_next f = None) as Hin.
  { apply eq_None_not_Some. intros [x Hx]. specialize (H3 _ _ Hx). lia. }
  assert (fs_handles f !! S (fs_next f) = None) as Hhn.
  { apply eq_None_not_Some. intros [x Hx]. apply H2 in Hx as [_ ?]. lia. }
  assert (fs_inodes f0 !! fs_next f = None) as Hin0.
  { apply eq_None_not_Some. intros [x Hx]. destruct (Hk _ _ Hx) as (x' & Hx' & _). congruence. }
  split; [split; [split|]|].
  - repeat split; simpl in *.
    + intros q j. rewrite lookup_insert_Some. intros [[_ <-]|[_ Hq]].
      * rewrite lookup_insert_eq. eauto.
      * destruct (H1 _ _ Hq) as [x Hx]. rewrite lookup_insert_ne; [eauto|congruence].
    + apply lookup_insert_Some in H as [[_ <-]|[_ H]]; [rewrite lookup_insert_eq; eauto|].
      destruct (H2 _ _ H) as [[x Hx] _]. rewrite lookup_insert_ne; [eauto|congruence].
    + apply lookup_insert_Some in H as [[<- _]|[_ H]]; [lia|]. apply H2 in H as [_ ?]. lia.
    + intros j x. rewrite lookup_insert_Some. intros [[<- _]|[_ Hj]]; [lia|].
      specialize (H3 _ _ Hj). lia.
  - etrans; [exact Hk|]. intros j x Hj. exists x. simpl. rewrite lookup_insert_ne; [done|congruence].
  - intros q Hq. assert (q <> os.temp_name dir pre r) by (intros ->; congruence).
    enough (file_data _ q = file_data f q) as -> by auto.
    unfold file_data, file_inode. simpl. rewrite lookup_insert_ne by done.
    destruct (fs_files f !! q) as [j|] eqn:Hj; [|done]. simpl.
    destruct (H1 _ _ Hj) as [x Hx]. rewrite lookup_insert_ne; [done|congruence].
  - split; [|split; [done|]].
    + exists (fs_next f). simpl. rewrite lookup_insert_eq. split; [done|].
      exists (Inode [] (fs_now f)). simpl. rewrite !lookup_insert_eq.
      split; [exact Hin0|]. do 2 (split; [done|]). split; [done|]. split; [done|].
      intros q. rewrite lookup_insert_Some. intros [[<- _]|[_ Hq]]; [done|].
      destruct (H1 _ _ Hq) as [x Hx]. congruence.
    + simpl. by apply delete_insert_id.
Qed.

Lemma append_spec X f0 h name d e f :
  stable X f0 f -> tmp_open f0 h name d f ->
  stable X f0 (os.append h e f) /\ tmp_open f0 h name (d ++ e) (os.append h e f).
Proof.
  intros [[Hwf Hk] Hst] (i & Hh & x & H0 & Hf & Hi & Hd & Htmp & Hq). unfold os.append. rewrite Hh.
  set (g := fun x => Inode (i_data x ++ e) (fs_now f)).
  pose proof (alter_is_Some g (fs_inodes f) i) as Ha.
  destruct Hwf as (H1 & H2 & H3). split; [split; [split|]|].
  - repeat split; simpl in *.
    + intros q j Hj. apply Ha. eauto.
    + apply Ha. by apply (H2 _ _ H).
    + by apply (H2 _ _ H).
    + intros j y Hj. destruct (proj1 (Ha j)) as [z Hz]; [by eexists|]. eauto.
  - intros j y Hj. destruct (Hk j y Hj) as (y' & Hy' & Hy). exists y'.
    simpl. rewrite lookup_alter_ne; [done|congruence].
  - intros q Hnt. enough (file_data _ q = file_data f q) as -> by auto.
    unfold file_data, file_inode. simpl. destruct (fs_files f !! q) as [j|] eqn:Hj; [|done].
    simpl. rewrite lookup_alter_ne; [done|]. intros ->. rewrite (Hq _ Hj) in Hnt. done.
  - exists i. split; [done|]. exists (g x). simpl.
    rewrite lookup_alter_eq, Hi, H0. simpl. rewrite Hd. by repeat (split; [done|]).
Qed.

Lemma tmp_open_handle f0 h name d f : tmp_open f0 h name d f -> handle_data f h = Some d.
Proof.
  intros (i & Hh & x & _ & _ & Hi & Hd & _). unfold handle_data. rewrite Hh. simpl. by rewrite Hi, <- Hd.
Qed.

(** A successful rename publishes exactly the bytes written so far. *)
Lemma Rename_spec X f0 i name d p f :
  stable X f0 f -> tmp_file f0 i name d f -> is_tmp p = false -> X p d ->
  let '(f', r) := os.Rename_act name p f in
  stable X f0 f' /\ fs_handles f' = fs_handles f /\ fs_inodes f' = fs_inodes f /\
  match r with
  | inl _ => f' = f
  | inr _ => file_data f' p = Some d
  end.
Proof.
  intros [[Hwf Hk] Hst] Ht Hp HX. pose proof Ht as (x & _ & Hf & Hi & Hd & Htmp & Hq).
  unfold os.Rename_act. rewrite Hf.
  destruct (is_dir f p); [done|]. destruct (is_dir f (filepath.Dir p)); simpl; [|done].
  assert (file_data (set_files (<[p:=i]> (delete name (fs_files f))) f) p = Some d) as Hpd.
  { unfold file_data, file_inode. simpl. rewrite lookup_insert_eq. simpl. by rewrite Hi, <- Hd. }
  split; [split; [split|]|done].
  - destruct Hwf as (H1 & H2 & H3). repeat split; simpl in *; [|by apply (H2 _ _ H)..|done].
    intros q j. rewrite lookup_insert_Some. intros [[_ <-]|[_ [_ Hj]%lookup_delete_Some]]; eauto.
  - etrans; [exact Hk|by apply kept_inodes].
  - intros q Hnt. destruct (decide (q = p)) as [->|Hne]; [right; by exists d|].
    enough (file_data _ q = file_data f q) as -> by auto.
    unfold file_data, file_inode. simpl. rewrite lookup_insert_ne by done.
    rewrite lookup_delete_ne; [done|]. intros ->. congruence.
Qed.

(** Removing a temporary name changes no finished path. *)
Lemma Remove_tmp_spec X f0 name f :
  stable X f0 f -> is_tmp name = true ->
  stable X f0 (os.Remove_act name f).1 /\
  fs_handles (os.Remove_act name f).1 = fs_handles f.
Proof.
  intros [[Hwf Hk] Hst] Ht. unfold os.Remove_act.
  destruct (fs_files f !! name) as [i|] eqn:Hi.
  - split; [|done]. split; [split|].
    + destruct Hwf as (H1 & H2 & H3). repeat split; simpl in *; [|by apply (H2 _ _ H)..|done].
      intros q j [_ Hj]%lookup_delete_Some. eauto.
    + etrans; [exact Hk|by apply kept_inodes].
    + intros q Hq. enough (file_data _ q = file_data f q) as -> by auto.
      unfold file_data, file_inode. simpl. rewrite lookup_delete_ne; [done|]. intros ->. congruence.
  - case_bool_decide; [|done]. destruct (os.children f name); [|done].
    split; [|done]. split; [split; [done|]|done]. etrans; [exact Hk|by apply kept_inodes].
Qed.
