(* ===== verification/Interference.v ===== *)
(** * Programs among others

    The cache's operations run on many goroutines, and the evictor beside
    them, so between two system calls of one program come system calls of
    others. A rely-guarantee logic for the programs of [Fs]: [rely] is what
    the others may do to the file system between a program's calls, [guar]
    what its own calls may do, and [wp] what a program ends with when [rely]
    is all it can count on. *)
From S2P Require Import Prelude GoStd GoTime Http Path Fs.

Definition data_of (f : fsys) (i : nat) : option bytes := i_data <$> fs_inodes f !! i.

(** The names [os.CreateTemp] can still give. *)
Definition tmp_prefix (pre : string) : Prop := pre = ".tmp_chunk_" \/ pre = ".tmp_marker_".
Definition may_name (f : fsys) (p : string) : Prop :=
  exists dir pre r, tmp_prefix pre /\ r ∈ fs_rand f /\ p = os.temp_name dir pre r.

Lemma tmp_prefix_tmp pre :
  tmp_prefix pre -> strings.HasPrefix pre ".tmp_" = true /\ strings.has_byte filepath.slash pre = false.
Proof. by intros [-> | ->]. Qed.

Lemma temp_name_inj dir pre r dir' pre' r' :
  tmp_prefix pre -> tmp_prefix pre' -> os.temp_name dir pre r = os.temp_name dir' pre' r' -> r = r'.
Proof.
  intros Hp Hp' He%(f_equal filepath.Base). unfold os.temp_name in He.
  assert (forall pre r, tmp_prefix pre -> strings.has_byte filepath.slash (pre +:+ strconv.FormatInt r) = false) as Hs.
  { intros q n Hq. rewrite strings.has_byte_app, strconv.FormatInt_no_byte by done.
    by rewrite (proj2 (tmp_prefix_tmp q Hq)). }
  rewrite !filepath.Base_app in He by auto.
  destruct Hp as [-> | ->], Hp' as [-> | ->]; simpl in He; try done.
  - by apply (strings.app_inv_l ".tmp_chunk_"), (inj strconv.FormatInt) in He.
  - by apply (strings.app_inv_l ".tmp_marker_"), (inj strconv.FormatInt) in He.
Qed.

(** ** What a step leaves alone

    [spares K f f']: the step from [f] to [f'] keeps the handles and inodes
    numbered in [K], links none of them anywhere new, and takes new temporary
    names from the random ones left. *)
Record spares (K : nat -> Prop) (f f' : fsys) : Prop := {
  sp_handles : forall n, K n -> fs_handles f' !! n = fs_handles f !! n;
  sp_data : forall n, K n -> data_of f' n = data_of f n;
  sp_links : forall p n, fs_files f' !! p = Some n ->
    fs_files f !! p = Some n \/ ~ K n /\ (is_tmp p = true -> may_name f p);
  sp_rand : forall r, r ∈ fs_rand f' -> r ∈ fs_rand f;
  sp_next : (fs_next f <= fs_next f')%nat;
}.
Arguments sp_handles {K f f'}.
Arguments sp_data {K f f'}.
Arguments sp_links {K f f'}.
Arguments sp_rand {K f f'}.
Arguments sp_next {K f f'}.

Lemma may_name_mono f f' p : (forall r, r ∈ fs_rand f' -> r ∈ fs_rand f) -> may_name f' p -> may_name f p.
Proof. intros Hr (dir & pre & r & Hp & Hin & ->). exists dir, pre, r. auto. Qed.

Lemma spares_refl K f : spares K f f.
Proof. split; auto. Qed.

Lemma spares_mono (K K' : nat -> Prop) f f' : (forall n, K' n -> K n) -> spares K f f' -> spares K' f f'.
Proof.
  intros HK [H1 H2 H3 H4 H5]. split; auto. intros p n Hp. destruct (H3 p n Hp) as [?|[Hn ?]]; [by left|right].
  split; auto.
Qed.

Lemma spares_trans K f1 f2 f3 : spares K f1 f2 -> spares K f2 f3 -> spares K f1 f3.
Proof.
  intros [A1 A2 A3 A4 A5] [B1 B2 B3 B4 B5]. split.
  - intros n Hn. rewrite B1 by done. auto.
  - intros n Hn. rewrite B2 by done. auto.
  - intros p n Hp. destruct (B3 p n Hp) as [Hp'|[Hn Ht]]; [auto|]. right. split; [done|].
    intros Hx. eapply may_name_mono; [exact A4|auto].
  - auto.
  - lia.
Qed.

(** The sequence number of a thread's things, and of what is finished: a
    program owns the handles it opened and the inode it is still writing;
    an inode in [S] is sealed, its content never changes again. *)
Definition below (f : fsys) (N : gset nat) : Prop := forall n, n ∈ N -> (n < fs_next f)%nat.

Lemma below_mono f f' N : (fs_next f <= fs_next f')%nat -> below f N -> below f' N.
Proof. intros Hn Hb n Hin. specialize (Hb n Hin). lia. Qed.

Section logic.
(** The content a finished path may have. *)
Context (X : string -> bytes -> Prop).

Record inv (f : fsys) (S : gset nat) : Prop := {
  i_wf : fs_wf f;
  i_sealed : forall p i, is_tmp p = false -> fs_files f !! p = Some i -> i ∈ S;
  i_below : below f S;
  i_content : forall p d, is_tmp p = false -> file_data f p = Some d -> X p d;
  i_rand : NoDup (fs_rand f);
}.
#[local] Arguments i_wf {f S}.
#[local] Arguments i_sealed {f S}.
#[local] Arguments i_below {f S}.
#[local] Arguments i_content {f S}.
#[local] Arguments i_rand {f S}.

Record holds (O : gset nat) (f : fsys) (S : gset nat) : Prop := {
  h_inv : inv f S;
  h_apart : O ## S;
  h_below : below f O;
}.

Record rely (O : gset nat) (f : fsys) (S : gset nat) (f' : fsys) (S' : gset nat) : Prop := {
  r_spares : spares (fun n => n ∈ O \/ n ∈ S) f f';
  r_sealed : S ⊆ S';
  r_holds : holds O f' S';
}.

Record guar (O : gset nat) (f : fsys) (S O' : gset nat) (f' : fsys) (S' : gset nat) : Prop := {
  g_spares : spares (fun n => (n < fs_next f)%nat /\ n ∉ O) f f';
  g_sealed : S ⊆ S';
  g_new : forall n, n ∈ S' -> n ∈ S \/ n ∈ O \/ (fs_next f <= n)%nat;
  g_owned : forall n, n ∈ O' -> n ∈ O \/ (fs_next f <= n)%nat;
  g_holds : holds O' f' S';
}.

Lemma rely_refl O f S : holds O f S -> rely O f S f S.
Proof. intros Hh. split; [apply spares_refl|done..]. Qed.

Lemma rely_trans O f1 S1 f2 S2 f3 S3 :
  rely O f1 S1 f2 S2 -> rely O f2 S2 f3 S3 -> rely O f1 S1 f3 S3.
Proof.
  intros [A1 A2 A3] [B1 B2 B3]. split; [|set_solver|done].
  eapply spares_trans; [exact A1|]. eapply spares_mono; [|exact B1]. intros n [?|?]; [by left|right; set_solver].
Qed.

(** What one program does is what the others count on. *)
Lemma guar_rely O f S O1 f' S' O2 :
  guar O f S O1 f' S' -> holds O f S -> holds O2 f S -> O ## O2 -> rely O2 f S f' S' /\ O1 ## O2.
Proof.
  intros [G1 G2 G3 G4 G5] [_ Ha _] [Hi Ha2 Hb2] Hd. split.
  - split; [|done|].
    + eapply spares_mono; [|exact G1]. intros n [Hn|Hn].
      * split; [by apply Hb2|set_solver].
      * split; [by apply (i_below Hi)|set_solver].
    + split; [apply G5| |eapply below_mono; [apply (sp_next G1)|done]].
      intros n Hn Hs. destruct (G3 n Hs) as [?|[?|?]]; [set_solver..|]. specialize (Hb2 n Hn). lia.
  - intros n Hn Hn2. destruct (G4 n Hn) as [?|?]; [set_solver|]. specialize (Hb2 n Hn2). lia.
Qed.

(** ** Programs

    After each of its calls, whatever became of the call, the program goes on
    from any state the others can make. *)
Definition assn : Type := gset nat -> fsys -> gset nat -> Prop.

Definition steady (P : assn) : Prop := forall O f S f' S', P O f S -> rely O f S f' S' -> P O f' S'.

Fixpoint wp {A} (m : M A) (Q : A -> assn) (O : gset nat) (f : fsys) (S : gset nat) : Prop :=
  match m with
  | Ret a => Q a O f S
  | Call call next => forall x,
      match call {| w_fs := f; w_faults := [x] |} with
      | (w', Some a) => exists O' S', guar O f S O' (w_fs w') S' /\
          forall f' S2, rely O' (w_fs w') S' f' S2 -> wp (next a) Q O' f' S2
      | (w', None) => exists O' S', guar O f S O' (w_fs w') S'
      end
  end.

Lemma wp_mono {A} (m : M A) (Q Q' : A -> assn) O f S :
  (forall a O f S, Q a O f S -> Q' a O f S) -> wp m Q O f S -> wp m Q' O f S.
Proof.
  intros HQ. revert O f S. induction m as [a|Y call next IH]; intros O f S; simpl; [auto|]. intros Hw x. specialize (Hw x).
  destruct (call _) as [w' [a|]]; [|done]. destruct Hw as (O' & S' & Hg & Hw). exists O', S'. split; [done|]. auto.
Qed.

Lemma wp_bind {A B} (m : M A) (k : A -> M B) Q O f S :
  wp m (fun a => wp (k a) Q) O f S -> wp (io_bind m k) Q O f S.
Proof.
  revert O f S. unfold io_bind. induction m as [a|Y call next IH]; intros O f S; [done|]. simpl. intros Hw x. specialize (Hw x).
  destruct (call _) as [w' [a|]]; [|done]. destruct Hw as (O' & S' & Hg & Hw). exists O', S'. split; [done|]. auto.
Qed.

(** [rg P m Q]: started with [P], [m] ends with [Q]. *)
Definition rg {A} (P : assn) (m : M A) (Q : A -> assn) : Prop := forall O f S,
  holds O f S -> P O f S -> wp m (fun a O f S => holds O f S /\ Q a O f S) O f S.

Lemma rg_ret {A} (a : A) (P : assn) (Q : A -> assn) :
  (forall O f S, P O f S -> Q a O f S) -> rg P (io_ret a) Q.
Proof. intros HQ O f S Hh HP. simpl. auto. Qed.

Lemma rg_bind {A B} (m : M A) (k : A -> M B) P R Q :
  rg P m R -> (forall a, rg (R a) (k a) Q) -> rg P (io_bind m k) Q.
Proof.
  intros Hm Hk O f S Hh HP. apply wp_bind. eapply wp_mono; [|by apply Hm].
  intros a O' f' S' [? ?]. by apply Hk.
Qed.

Lemma rg_conseq {A} (m : M A) (P P' : assn) (Q Q' : A -> assn) :
  rg P' m Q' -> (forall O f S, P O f S -> P' O f S) -> (forall a O f S, Q' a O f S -> Q a O f S) -> rg P m Q.
Proof.
  intros Hm HP HQ O f S Hh Hp. eapply wp_mono; [|apply Hm; auto]. intros a O' f' S' [? ?]. auto.
Qed.

Lemma rg_pure {A} (φ : Prop) (P : assn) (m : M A) Q :
  (φ -> rg P m Q) -> rg (fun O f S => P O f S /\ φ) m Q.
Proof. intros Hm O f S Hh [HP Hφ]. by apply Hm. Qed.

(** A system call that is all or nothing, as each but [MkdirAll] and [Write]
    is: its own step meets the guarantee and establishes [Q]. *)
Lemma rg_sys {A} part (act : fsys -> fsys * (goerr + A)) (P : assn) (Q : goerr + A -> assn) :
  (forall r, steady (Q r)) ->
  (forall O f S, holds O f S -> P O f S -> exists O' S',
     guar O f S O' (act f).1 S' /\ Q (act f).2 O' (act f).1 S') ->
  (forall O f S e n, holds O f S -> P O f S -> exists O' S',
     guar O f S O' (part n f) S' /\ Q (inl e) O' (part n f) S') ->
  (forall O f S n, holds O f S -> P O f S -> exists O' S', guar O f S O' (part n f) S') ->
  rg P (sys part act) Q.
Proof.
  intros Hst Ha Hf Hc O f S Hh HP. unfold sys. simpl. intros x. unfold sys_call. simpl.
  assert (forall r f1, (exists O' S', guar O f S O' f1 S' /\ Q r O' f1 S') -> exists O' S', guar O f S O' f1 S' /\
    forall f' S2, rely O' f1 S' f' S2 -> holds O' f' S2 /\ Q r O' f' S2) as Hgo.
  { intros r f1 (O' & S' & Hg & HQ). exists O', S'. split; [done|]. intros f' S2 Hr. split; [apply Hr|]. by eapply Hst. }
  destruct x as [|e n|n].
  - pose proof (Ha O f S Hh HP) as Hx. destruct (act f) as [f1 r]. simpl in *. by apply Hgo.
  - simpl. by apply Hgo, Hf.
  - simpl. by eapply Hc.
Qed.

Lemma guar_refl O f S : holds O f S -> guar O f S O f S.
Proof. intros Hh. split; [apply spares_refl|done|auto..|done]. Qed.

Lemma rg_sys_atomic {A} (act : fsys -> fsys * (goerr + A)) (P : assn) (Q : goerr + A -> assn) :
  (forall r, steady (Q r)) ->
  (forall O f S, holds O f S -> P O f S -> exists O' S',
     guar O f S O' (act f).1 S' /\ Q (act f).2 O' (act f).1 S') ->
  (forall O f S e, P O f S -> Q (inl e) O f S) ->
  rg P (sys (fun _ f => f) act) Q.
Proof.
  intros Hst Ha Hf. apply rg_sys; [done|done| |].
  - intros O f S e _ Hh HP. exists O, S. split; [by apply guar_refl|auto].
  - intros O f S _ Hh _. exists O, S. by apply guar_refl.
Qed.

(** ** Silent programs

    Calls that touch no handle and no content, and name nothing new: whatever
    the others count on, and whatever the program knows, still holds. *)
Definition silent_step (f f' : fsys) : Prop := spares (fun _ => True) f f' /\ forall S, inv f S -> inv f' S.

Fixpoint silent {A} (m : M A) : Prop :=
  match m with
  | Ret _ => True
  | Call call next =>
      (forall x f, silent_step f (w_fs (call {| w_fs := f; w_faults := [x] |}).1)) /\ forall a, silent (next a)
  end.

Lemma silent_ret {A} (a : A) : silent (io_ret a).
Proof. done. Qed.

Lemma silent_bind {A B} (m : M A) (k : A -> M B) : silent m -> (forall a, silent (k a)) -> silent (io_bind m k).
Proof.
  unfold io_bind. intros Hm Hk. induction m as [a|Y call next IH]; [apply Hk|]. destruct Hm as [Hc Hn].
  split; [done|]. intros a. apply IH, Hn.
Qed.

Lemma silent_refl f : silent_step f f.
Proof. split; [apply spares_refl|done]. Qed.

Lemma silent_sys {A} part (act : fsys -> fsys * (goerr + A)) :
  (forall f, silent_step f (act f).1) -> (forall n f, silent_step f (part n f)) -> silent (sys part act).
Proof.
  intros Ha Hp. split; [|done]. intros x f. unfold sys_call. simpl. destruct x; simpl; auto.
  specialize (Ha f). by destruct (act f).
Qed.

Lemma silent_look {A} (g : fsys -> A) : silent (look g).
Proof. split; [|done]. intros x f. apply silent_refl. Qed.

Lemma silent_rely O f S f' : silent_step f f' -> holds O f S -> rely O f S f' S.
Proof.
  intros [Hs Hi] [H1 H2 H3]. split; [by eapply (spares_mono (fun _ => True))|done|]. split; [auto|done|].
  eapply below_mono; [apply (sp_next Hs)|done].
Qed.

Lemma rg_silent {A} (m : M A) (P : assn) : silent m -> steady P -> rg P m (fun _ => P).
Proof.
  intros Hm HP. induction m as [a|Y call next IH]; intros O f S Hh Hp; [done|]. destruct Hm as [Hc Hn]. simpl. intros x.
  specialize (Hc x f). pose proof (silent_rely O f S _ Hc Hh) as Hr.
  assert (guar O f S O (w_fs (call {| w_fs := f; w_faults := [x] |}).1) S) as Hg.
  { split; [|done|auto..|apply Hr]. eapply spares_mono; [|exact (proj1 Hc)]. done. }
  destruct (call _) as [w' [a|]]; simpl in *.
  - exists O, S. split; [done|]. intros f' S2 Hr'. apply IH; [apply Hn|apply Hr'|]. eapply HP; [exact Hp|]. by eapply rely_trans.
  - by exists O, S.
Qed.

(** [rg_bind] after a silent program. *)
Lemma rg_silently {A B} (m : M A) (k : A -> M B) P Q :
  silent m -> steady P -> (forall a, rg P (k a) Q) -> rg P (io_bind m k) Q.
Proof. intros Hm HP Hk. eapply rg_bind; [by apply rg_silent|done]. Qed.

(** Nothing but directories, times and missing names differs. *)
Lemma silent_intro f f' :
  (fs_wf f -> fs_wf f') -> (forall p n, fs_files f' !! p = Some n -> fs_files f !! p = Some n) ->
  (forall n, data_of f' n = data_of f n) -> fs_handles f' = fs_handles f -> fs_rand f' = fs_rand f ->
  fs_next f' = fs_next f -> silent_step f f'.
Proof.
  intros Hwf Hfi Hd Hh Hr Hn. split.
  - split; [by rewrite Hh|done|auto|by rewrite Hr|lia].
  - intros S [H1 H2 H3 H4 H5]. split; [auto|eauto|unfold below; by rewrite Hn| |by rewrite Hr].
    intros p d Hp Hx. apply H4; [done|]. unfold file_data, file_inode in *. destruct (fs_files f' !! p) as [i|] eqn:Hi; [|done].
    rewrite (Hfi p i Hi). simpl in *. specialize (Hd i). unfold data_of in Hd. congruence.
Qed.

Lemma silent_read {A} (act : fsys -> fsys * (goerr + A)) :
  (forall f, (act f).1 = f) -> silent (sys (fun _ f => f) act).
Proof. intros Ha. apply silent_sys; intros; [rewrite Ha|]; apply silent_refl. Qed.

Lemma silent_dirs l f : silent_step f (os.add_dirs l f).
Proof. by apply silent_intro. Qed.

Lemma silent_MkdirAll p : silent (os.MkdirAll p).
Proof.
  apply silent_sys; [|intros; apply silent_dirs]. intros f. case_bool_decide; [apply silent_refl|apply silent_dirs].
Qed.

Lemma silent_ReadDir p : silent (os.ReadDir p).
Proof. apply silent_read. intros f. cbv zeta. by destruct (is_dir f (filepath.Clean p)). Qed.

Lemma silent_ReadFile p : silent (os.ReadFile p).
Proof. apply silent_read. intros f. by destruct (file_data f p). Qed.

Lemma silent_Sync h : silent (os.Sync h).
Proof. by apply silent_read. Qed.

Lemma silent_Remove p : silent (os.Remove p).
Proof.
  apply silent_sys; [|intros; apply silent_refl]. intros f. unfold os.Remove_act.
  destruct (fs_files f !! p) as [i|].
  - apply silent_intro; try done.
    + intros (H1 & H2 & H3). split; [|done]. intros q j Hj. simpl in Hj. apply lookup_delete_Some in Hj as [_ Hj]. by apply (H1 q j).
    + intros q j Hj. simpl in Hj. apply lookup_delete_Some in Hj as [_ Hj]. done.
  - case_bool_decide; [|apply silent_refl]. destruct (os.children f p); [by apply silent_intro|apply silent_refl].
Qed.

Lemma silent_mtime p t f : silent_step f (os.set_mtime p t f).
Proof.
  pose proof (same_view_mtime p t f) as (_ & Hwf & _). unfold os.set_mtime in *.
  destruct (fs_files f !! p) as [i|]; [|apply silent_refl]. apply silent_intro; try done.
  intros n. unfold data_of. simpl. rewrite lookup_alter. case_decide; [subst|done]. by destruct (fs_inodes f !! n).
Qed.

Lemma silent_Chtimes p t : silent (os.Chtimes p t).
Proof.
  apply silent_sys; [|intros; apply silent_refl]. intros f. destruct (fs_files f !! p); [apply silent_mtime|apply silent_refl].
Qed.
(** ** What a program knows of its own files *)

(** Handle [h] is the program's and reads the finished bytes [d]. *)
Definition opened (h : nat) (d : bytes) : assn := fun O f S =>
  exists i, h ∈ O /\ fs_handles f !! h = Some i /\ i ∈ S /\ data_of f i = Some d.

(** Inode [i] is a temporary file being written: it holds [d] so far; its
    [name], unless removed, still stands for it and will not be given again. *)
Definition drafted (i : nat) (name : string) (d : bytes) : assn := fun O f _ =>
  i ∈ O /\ data_of f i = Some d /\ is_tmp name = true /\ ~ may_name f name /\
  forall j, fs_files f !! name = Some j -> j = i.
Definition draft (h : nat) (name : string) (d : bytes) : assn := fun O f S =>
  exists i, h ∈ O /\ h <> i /\ fs_handles f !! h = Some i /\ drafted i name d O f S.
Definition nothing : assn := fun _ _ _ => True.
Definition owned (h : nat) : assn := fun O _ _ => h ∈ O.

Lemma steady_nothing : steady nothing.
Proof. done. Qed.

Lemma steady_owned h : steady (owned h).
Proof. by intros O f S f' S' Ho _. Qed.

Lemma steady_and (P Q : assn) : steady P -> steady Q -> steady (fun O f S => P O f S /\ Q O f S).
Proof. intros HP HQ O f S f' S' [? ?] Hr. split; eauto. Qed.

Lemma steady_ex {Y} (P : Y -> assn) : (forall y, steady (P y)) -> steady (fun O f S => exists y, P y O f S).
Proof. intros HP O f S f' S' [y ?] Hr. exists y. by eapply HP. Qed.

Lemma steady_pure (φ : Prop) : steady (fun _ _ _ => φ).
Proof. by intros O f S f' S' Hφ _. Qed.

Lemma steady_opened h d : steady (opened h d).
Proof.
  intros O f S f' S' (i & Ho & Hh & Hi & Hd) [Hs Hsub _]. exists i. rewrite (sp_handles Hs), (sp_data Hs) by auto.
  split; [done|]. split; [done|]. split; [set_solver|done].
Qed.

Lemma steady_drafted i name d : steady (drafted i name d).
Proof.
  intros O f S f' S' (Ho & Hd & Ht & Hn & Hj) [Hs _ _]. rewrite <- (sp_data Hs) in Hd by auto. do 3 (split; [done|]). split.
  - intros Hm. by apply Hn, (may_name_mono f f'), Hm; apply (sp_rand Hs).
  - intros j Hf. destruct (sp_links Hs _ _ Hf) as [?|[_ Hm]]; [auto|]. by destruct Hn; apply Hm.
Qed.

Lemma steady_draft h name d : steady (draft h name d).
Proof.
  intros O f S f' S' (i & Ho & Hne & Hh & Hd) Hr. exists i. rewrite (sp_handles (r_spares _ _ _ _ _ Hr)) by auto.
  do 3 (split; [done|]). by eapply steady_drafted.
Qed.

Lemma file_data_of f p : file_data f p = fs_files f !! p ≫= data_of f.
Proof. unfold file_data, file_inode, data_of. by destruct (fs_files f !! p). Qed.

Lemma opened_handle h d O f S : opened h d O f S -> handle_data f h = Some d.
Proof. intros (i & _ & Hh & _ & Hd). unfold handle_data. rewrite Hh. exact Hd. Qed.

(** ** The calls on files *)

Lemma rg_Open p (P : assn) :
  is_tmp p = false ->
  rg P (os.Open p) (fun r => match r with
                             | inl _ => nothing
                             | inr h => fun O f S => exists d, X p d /\ opened h d O f S
                             end).
Proof.
  intros Hp. apply rg_sys_atomic; [|  |done].
  - intros [e|h]; [apply steady_nothing|]. apply steady_ex. intros d. apply steady_and; [apply steady_pure|apply steady_opened].
  - intros O f S Hh _. pose proof (same_view_Open p f) as (_ & Hwf & _). unfold os.Open_act in *.
    destruct (fs_files f !! p) as [i|] eqn:Hi; simpl in *; [|exists O, S; split; [by apply guar_refl|done]].
    destruct Hh as [[H1 H2 H3 H4 H5] Ha Hb]. set (f1 := {| fs_dirs := _ |}) in *.
    exists ({[fs_next f]} ∪ O), S. split.
    + split; [|done|auto|set_solver by lia|].
      * split; simpl; auto. intros n [Hn _]. rewrite lookup_insert_ne by lia. done.
      * split; [split; auto|..].
        -- intros n Hn. specialize (H3 n Hn). simpl. lia.
        -- intros n Hn Hs. specialize (H3 n Hs). assert (n = fs_next f \/ n ∈ O) as [-> |?] by set_solver; [lia|set_solver].
        -- intros n Hn. simpl. assert (n = fs_next f \/ n ∈ O) as [-> |Hn'] by set_solver; [lia|]. specialize (Hb n Hn'). lia.
    + destruct (proj1 H1 p i Hi) as [x Hx]. exists (i_data x). split.
      * apply H4; [done|]. rewrite file_data_of, Hi. simpl. unfold data_of. by rewrite Hx.
      * exists i. split; [set_solver|]. simpl. rewrite lookup_insert_eq. split; [done|]. split; [eauto|].
        unfold data_of. simpl. by rewrite Hx.
Qed.

Lemma rg_Stat h d :
  rg (opened h d) (os.Stat h) (fun r O f S => opened h d O f S /\ forall size, r = inr size -> size = Z.of_nat (length d)).
Proof.
  apply rg_sys_atomic; [|  |done].
  - intros r. apply steady_and; [apply steady_opened|apply steady_pure].
  - intros O f S Hh Ho. exists O, S. rewrite (opened_handle _ _ _ _ _ Ho). simpl. split; [by apply guar_refl|].
    split; [done|]. by intros size [= <-].
Qed.

Lemma holds_close h O f S : holds O f S -> h ∈ O -> guar O f S O (os.close_handle h f) S.
Proof.
  intros [[H1 H2 H3 H4 H5] Ha Hb] Hh. pose proof (same_view_close h f) as (_ & Hwf & _).
  split; [|done|auto|auto|].
  - split; simpl; auto. intros n [_ Hn]. rewrite lookup_delete_ne; [done|set_solver].
  - split; [split; auto|done|done].
Qed.

Lemma rg_Close h (P Q : assn) :
  steady Q -> (forall O f S, P O f S -> h ∈ O /\ Q O (os.close_handle h f) S) -> rg P (os.Close h) (fun _ => Q).
Proof.
  intros HQ HP. apply rg_sys; [done|..].
  - intros O f S Hh Hp. destruct (HP _ _ _ Hp). exists O, S. split; [by apply holds_close|done].
  - intros O f S _ _ Hh Hp. destruct (HP _ _ _ Hp). exists O, S. split; [by apply holds_close|done].
  - intros O f S _ Hh Hp. destruct (HP _ _ _ Hp). exists O, S. by apply holds_close.
Qed.

Lemma pick_name_spent f dir pre rs p rs' :
  NoDup rs -> os.pick_name f dir pre rs = Some (p, rs') ->
  exists r, r ∈ rs /\ r ∉ rs' /\ p = os.temp_name dir pre r /\ NoDup rs' /\ forall x, x ∈ rs' -> x ∈ rs.
Proof.
  intros Hnd. induction Hnd as [|r rs Hr Hnd IH]; simpl; [done|]. destruct (_ || _).
  - intros Hp. destruct (IH Hp) as (x & Hx & ? & ? & ? & Hs). exists x. split; [by right|]. do 3 (split; [done|]).
    intros y Hy. right. auto.
  - intros [= <- <-]. exists r. split; [by left|]. do 3 (split; [done|]). by right.
Qed.

Lemma rg_CreateTemp dir pre (P : assn) :
  tmp_prefix pre ->
  rg P (os.CreateTemp dir pre) (fun r => match r with
                                         | inl _ => nothing
                                         | inr (h, name) => draft h name []
                                         end).
Proof.
  intros Hpre. apply rg_sys_atomic; [|  |done].
  - intros [e|[h name]]; [apply steady_nothing|apply steady_draft].
  - intros O f S Hh _. destruct (tmp_prefix_tmp pre Hpre) as [Hp Hsl]. pose proof Hh as [[H1 H2 H3 H4 H5] Ha Hb].
    pose proof (CreateTemp_spec (fun _ _ => False) f dir pre f Hp Hsl) as Hc. unfold os.CreateTemp_act in *.
    destruct (is_dir f dir); simpl in *; [|exists O, S; split; [by apply guar_refl|done]].
    destruct (os.pick_name f dir pre (fs_rand f)) as [[p rs]|] eqn:Hpick; [|exists O, S; split; [by apply guar_refl|done]].
    destruct Hc as [[[Hwf' _] Hst] _]; [split; [split; [done|reflexivity]|by intros; left]|]. simpl in *.
    destruct (pick_name_fresh _ _ _ _ _ _ Hpick) as (Hnone & _ & _).
    apply pick_name_spent in Hpick as (r & Hr & Hr' & -> & Hnd & Hsub); [|done].
    pose proof (temp_name_tmp dir pre r Hp Hsl) as Htmp. set (name := os.temp_name dir pre r) in *.
    set (i := fs_next f) in *. set (f1 := {| fs_dirs := _ |}) in *.
    assert (forall n, n ∈ {[i; Datatypes.S i]} ∪ O -> n ∈ O \/ i <= n < Datatypes.S (Datatypes.S i))%nat as Hn.
    { intros n Hn. assert (n = i \/ n = Datatypes.S i \/ n ∈ O) as [-> |[-> |?]] by set_solver; [right; lia..|by left]. }
    exists ({[i; Datatypes.S i]} ∪ O), S. split.
    + split; [|done|auto| |].
      * split; simpl; auto.
        -- intros n [Hlt _]. rewrite lookup_insert_ne by lia. done.
        -- intros n [Hlt _]. unfold data_of. simpl. rewrite lookup_insert_ne by lia. done.
        -- intros q n. rewrite lookup_insert_Some. intros [[<- <-]|[_ Hq]]; [right|by left]. split; [lia|].
           intros _. exists dir, pre, r. done.
      * intros n Hx. destruct (Hn n Hx) as [?|?]; [by left|right; lia].
      * split; [split; [done|..]|..].
        -- intros q j Hq. simpl. rewrite lookup_insert_ne by congruence. eauto.
        -- intros n Hx. specialize (H3 n Hx). simpl. lia.
        -- intros q d Hq. destruct (Hst q Hq) as [-> |(? & [] & _)]. auto.
        -- done.
        -- intros n Hx Hs. specialize (H3 n Hs). destruct (Hn n Hx) as [?|?]; [set_solver|lia].
        -- intros n Hx. simpl. destruct (Hn n Hx) as [Hx'|?]; [|lia]. specialize (Hb n Hx'). lia.
    + exists i. split; [set_solver|]. split; [lia|]. simpl. rewrite lookup_insert_eq. split; [done|].
      split; [set_solver|]. split; [unfold data_of; simpl; by rewrite lookup_insert_eq|]. split; [done|]. split.
      * intros (dir' & pre' & r' & Hpre' & Hin & He). apply temp_name_inj in He; [|done..]. by subst r'.
      * intros j. simpl. rewrite lookup_insert_eq. by intros [= <-].
Qed.

Lemma append_draft h name d e O f S :
  holds O f S -> draft h name d O f S ->
  guar O f S O (os.append h e f) S /\ draft h name (d ++ e) O (os.append h e f) S.
Proof.
  intros [[H1 H2 H3 H4 H5] Ha Hb] (i & Ho & Hne & Hh & Hi & Hd & Ht & Hm & Hj). unfold os.append. rewrite Hh.
  set (g := fun x => Inode (i_data x ++ e) (fs_now f)).
  assert (forall n, n <> i -> data_of (set_inodes (alter g i (fs_inodes f)) f) n = data_of f n) as Hdata.
  { intros n Hn. unfold data_of. simpl. by rewrite lookup_alter_ne. }
  split; [split; [|done|auto|auto|]|].
  - split; simpl; auto. intros n [_ Hn]. apply Hdata. intros ->. done.
  - split; [split|done|done]; try done.
    + destruct H1 as (A & B & C). pose proof (alter_is_Some g (fs_inodes f) i) as Hs. split; [|split]; simpl.
      * intros p n Hp. apply Hs. by eapply A.
      * intros n k Hn. destruct (B n k Hn). split; [by apply Hs|done].
      * intros n x Hx. destruct (proj1 (Hs n)) as [y Hy]; [by eexists|]. eauto.
    + intros q x Hq. rewrite file_data_of. simpl. destruct (fs_files f !! q) as [n|] eqn:Hn; [|done]. simpl.
      rewrite Hdata; [|intros ->; specialize (H2 q i Hq Hn); set_solver]. intros Hx. apply H4; [done|].
      rewrite file_data_of, Hn. exact Hx.
  - exists i. do 3 (split; [done|]). split; [done|]. split; [|done].
    unfold data_of in *. simpl. rewrite lookup_alter_eq. destruct (fs_inodes f !! i); [|done]. simpl in *. congruence.
Qed.

(** A write that fails may have written a part. *)
Lemma rg_Write h name d e :
  rg (draft h name d) (os.Write h e)
    (fun r O f S => exists d', draft h name d' O f S /\ (forall u, r = inr u -> d' = d ++ e)).
Proof.
  apply rg_sys.
  - intros r. apply steady_ex. intros d'. apply steady_and; [apply steady_draft|apply steady_pure].
  - intros O f S Hh Hd. exists O, S. destruct (append_draft h name d e O f S Hh Hd). split; [done|]. eexists. split; [done|]. done.
  - intros O f S e' n Hh Hd. exists O, S. destruct (append_draft h name d (take n e) O f S Hh Hd). split; [done|].
    eexists. by split.
  - intros O f S n Hh Hd. exists O, S. by apply (append_draft h name d (take n e) O f S Hh Hd).
Qed.

(** The rename seals the inode: from here on its content is [X]'s. *)
Lemma Rename_sealed i name d p O f S :
  holds O f S -> drafted i name d O f S -> is_tmp p = false -> X p d ->
  (os.Rename_act name p f).1 = f /\ (exists e, (os.Rename_act name p f).2 = inl e) \/
  (os.Rename_act name p f).2 = inr tt /\ fs_handles (os.Rename_act name p f).1 = fs_handles f /\
    fs_inodes (os.Rename_act name p f).1 = fs_inodes f /\ guar O f S (O ∖ {[i]}) (os.Rename_act name p f).1 ({[i]} ∪ S).
Proof.
  intros [[H1 H2 H3 H4 H5] Ha Hb] (Hi & Hd & Ht & Hm & Hj) Hp HX. unfold os.Rename_act.
  destruct (fs_files f !! name) as [j|] eqn:Hn; [|left; by eauto]. rewrite (Hj j eq_refl) in *. clear Hj.
  destruct (is_dir f p); [left; by eauto|]. destruct (is_dir f (filepath.Dir p)); simpl; [|left; by eauto].
  right. do 3 (split; [done|]). split; [|set_solver| |set_solver|].
  - split; simpl; auto. intros q n. rewrite lookup_insert_Some, lookup_delete_Some. intros [[<- <-]|[_ [_ Hq]]]; [right|by left].
    split; [by intros [_ ?]|]. by rewrite Hp.
  - intros n Hx. assert (n = i \/ n ∈ S) as [-> |?] by set_solver; auto.
  - split; [split| set_solver|].
    + destruct H1 as (A & B & C). split; [|done]. simpl. intros q n. rewrite lookup_insert_Some, lookup_delete_Some.
      intros [[_ <-]|[_ [_ Hq]]]; eauto.
    + simpl. intros q n Hq. rewrite lookup_insert_Some, lookup_delete_Some. intros [[_ <-]|[_ [_ Hx]]]; [set_solver|].
      apply elem_of_union_r. eauto.
    + intros n Hx. simpl. assert (n = i \/ n ∈ S) as [-> |?] by set_solver; auto.
    + intros q x Hq. rewrite file_data_of. simpl. destruct (decide (q = p)) as [->|Hne].
      * rewrite lookup_insert_eq. simpl. change (data_of _ i) with (data_of f i). rewrite Hd. by intros [= <-].
      * rewrite lookup_insert_ne, lookup_delete_ne by congruence. intros Hx. apply H4; [done|]. by rewrite file_data_of.
    + done.
    + intros n Hx. apply Hb. set_solver.
Qed.

(** [Put]'s rename, its handle still open. *)
Lemma rg_Rename_open h name d p :
  is_tmp p = false -> X p d ->
  rg (draft h name d) (os.Rename name p) (fun r => match r with inl _ => owned h | inr _ => opened h d end).
Proof.
  intros Hp HX. apply rg_sys_atomic.
  - intros [e|u]; [apply steady_owned|apply steady_opened].
  - intros O f S Hh (i & Ho & Hne & Hhi & Hd). pose proof Hd as (_ & Hdi & _).
    destruct (Rename_sealed i name d p O f S Hh Hd Hp HX) as [[-> [e ->]]|(-> & He & Hin & Hg)].
    + exists O, S. split; [by apply guar_refl|done].
    + eexists _, _. split; [exact Hg|]. exists i. rewrite He. split; [set_solver|]. split; [done|]. split; [set_solver|].
      unfold data_of in *. by rewrite Hin.
  - intros O f S e (i & Ho & _). exact Ho.
Qed.

(** The marker's rename, after its handle is closed. *)
Lemma rg_Rename_closed name d p :
  is_tmp p = false -> X p d ->
  rg (fun O f S => exists i, drafted i name d O f S) (os.Rename name p) (fun _ => nothing).
Proof.
  intros Hp HX. apply rg_sys_atomic; [intros r; apply steady_nothing|  |done].
  intros O f S Hh (i & Hd).
  destruct (Rename_sealed i name d p O f S Hh Hd Hp HX) as [[-> _]|(_ & _ & _ & Hg)]; [|by eexists _, _].
  exists O, S. split; [by apply guar_refl|done].
Qed.
End logic.

Create HintDb silent.
#[export] Hint Resolve silent_ret silent_look silent_MkdirAll silent_ReadDir silent_ReadFile silent_Sync silent_Remove
  silent_Chtimes : silent.

(** Through the binds and case distinctions of a program. *)
Ltac silent :=
  repeat first
    [ solve [auto with silent]
    | apply silent_bind; [|intros ?]
    | progress cbv zeta
    | match goal with |- silent _ (match ?x with _ => _ end) => destruct x end ].
