(* ===== verification/DiskCache.v ===== *)
(** * The on-disk chunk cache (services/cache.go)

    Shard selection, chunk and marker paths, and the two operations [Get] and
    [Put] as programs over the file-system monad, with what holds of one shard
    and of runs with failures. What they do together over several shards is in
    Shards.v. *)
From S2P Require Import Prelude GoStd GoTime Http Path Sha1 Fs.

(** ** Data *)

(** Lines 59-65; [since] is the memo of marker times, [None] being a nil map
    entry and [time_zero] "unknown". A nil [*DiskCache] is [None] of
    [option DiskCache]. *)
Record DiskCache := {
  location : string;
  subdir : string;
  since : gmap string Z;
}.

(** Lines 70-73. *)
Record objVersion := { etag : string; modified : Z }.

Definition noVersion : objVersion := {| etag := ""; modified := time_zero |}.

Definition versionMarker : string := ".versioned-since".

Definition set_since (root : string) (t : Z) (c : DiskCache) : DiskCache :=
  {| location := location c; subdir := subdir c; since := <[root := t]> (since c) |}.

(** ** Shards *)

Definition sortStrings (l : list string) : list string := merge_sort String.le l.

(** [strconv.ParseInt(h, 16, 64)] on unsigned literals. *)
Definition hex_val (c : ascii) : option Z :=
  let n := Z.of_nat (nat_of_ascii c) in
  if (48 <=? n) && (n <=? 57) then Some (n - 48)
  else if (97 <=? n) && (n <=? 102) then Some (n - 87)
  else if (65 <=? n) && (n <=? 70) then Some (n - 55)
  else None.
Fixpoint parse_hex_loop (acc : Z) (s : string) : strconv.num_error + Z :=
  match s with
  | EmptyString => if int64_max <? acc then inl strconv.ErrRange else inr acc
  | String c s' =>
      match hex_val c with
      | None => inl strconv.ErrSyntax
      | Some d => parse_hex_loop (acc * 16 + d) s'
      end
  end.
Definition ParseHex (s : string) : strconv.num_error + Z :=
  match s with EmptyString => inl strconv.ErrSyntax | _ => parse_hex_loop 0 s end.

(** The loop of lines 375-380: the first shard whose upper bound exceeds
    [num], the last one if none does. *)
Fixpoint pick_shard (num interval i : Z) (dirs : list string) (last : string) : string :=
  match dirs with
  | [] => last
  | d :: rest =>
      if num <? (i ⊕ 1) ⊗ interval then d else pick_shard num interval (i ⊕ 1) rest last
  end.

(** Lines 365-381. *)
Definition distributeByHash (dirs : list string) (hash : string) : goerr + string :=
  let dirs := sortStrings dirs in
  let h := strings.take 5 (sha1hex hash) in
  match ParseHex h with
  | inl e => inl (Wrap "failed to parse shard hash" (NumError h e))
  | inr num64 =>
      match dirs with
      | [] => inl (ErrorString "runtime error: integer divide by zero")
      | d0 :: _ =>
          let num := num64 ⊗ 1000 in
          let total := 1048575 * 1000 in
          let interval := total ÷₆₄ Z.of_nat (length dirs) in
          inr (pick_shard num interval 0 dirs (List.last dirs d0))
      end
  end.

(** Lines 339-360. *)
Definition listShards (location : string) : M (goerr + list string) :=
  let prefix := strings.TrimSuffix location "*" in
  let '(dir, lp) := filepath.SplitLast prefix in
  let dir := if String.eqb dir "" then "." else dir in
  let! r := os.ReadDir dir in
  match r with
  | inl e => io_ret (if errors.IsNotExist e then inr [] else inl e)
  | inr entries =>
      io_ret (inr (sortStrings
        ((fun e => filepath.Join [dir; fst e]) <$>
          filter (fun e => snd e = true /\ strings.HasPrefix (fst e) lp = true) entries)))
  end.

(** Lines 316-336. *)
Definition getDir (location hash : string) : M (goerr + string) :=
  if negb (strings.HasSuffix location "*") then io_ret (inr location)
  else
    let! r := listShards location in
    match r with
    | inl e => io_ret (inl e)
    | inr [] =>
        let sh := strings.TrimSuffix location "*" +:+ "1" in
        let! m := os.MkdirAll sh in
        match m with
        | inl e => io_ret (inl e)
        | inr _ => io_ret (inr sh)
        end
    | inr [s] => io_ret (inr s)
    | inr shards => io_ret (distributeByHash shards hash)
    end.

(** Lines 99-112. *)
Definition CacheRoots (c : option DiskCache) : M (goerr + list string) :=
  match c with
  | None => io_ret (inr [])
  | Some c =>
      let! r := listShards (location c) in
      match r with
      | inl e => io_ret (inl e)
      | inr shards => io_ret (inr ((fun s => filepath.Join [s; subdir c]) <$> shards))
      end
  end.

(** Lines 115-123. *)
Definition root (c : DiskCache) (key : string) : M (goerr + (string * string)) :=
  let h := sha1hex key in
  let! r := getDir (location c) h in
  match r with
  | inl e => io_ret (inl e)
  | inr shard => io_ret (inr (filepath.Join [shard; subdir c], h))
  end.

(** The text a chunk's file name is the digest of. *)
Definition chunk_name (key : string) (v : objVersion) (alignedOffset : Z) : string :=
  let name := key +:+ ":" +:+ strconv.FormatInt alignedOffset in
  if String.eqb (etag v) "" then name else name +:+ ":" +:+ etag v.

(** The file of a chunk below a shard root. *)
Definition chunk_path (root key : string) (v : objVersion) (alignedOffset : Z) : string :=
  let h := sha1hex key in
  filepath.Join [root; strings.take 2 h; h; sha1hex (chunk_name key v alignedOffset)].

(** Lines 128-139. *)
Definition path (c : DiskCache) (key : string) (v : objVersion) (alignedOffset : Z)
    : M (goerr + string) :=
  let! r := root c key in
  match r with
  | inl e => io_ret (inl e)
  | inr (rt, h) =>
      io_ret (inr (filepath.Join [rt; strings.take 2 h; h;
                                  sha1hex (chunk_name key v alignedOffset)]))
  end.

(** ** Version markers *)
Section markers.
Context `{TimeLayout}.

Definition parse_marker (b : string) : goerr + Z := RFC3339Nano_Parse (TrimSpace b).

(** Lines 176-206: read the marker, or write a new one through a temporary
    file; [werr] is the first of the write, sync, close and rename errors. *)
Definition readOrCreateMarker (root : string) : M (goerr + Z) :=
  let marker := filepath.Join [root; versionMarker] in
  let! r := os.ReadFile marker in
  match r with
  | inr b => io_ret (parse_marker (string_of_list_byte b))
  | inl e =>
      if negb (errors.IsNotExist e) then io_ret (inl e)
      else
        let! m := os.MkdirAll root in
        match m with
        | inl e => io_ret (inl e)
        | inr _ =>
            let! now := time.Now in
            let b := RFC3339Nano_Format now in
            let! t := os.CreateTemp root ".tmp_marker_" in
            match t with
            | inl e => io_ret (inl e)
            | inr (tmp, tmpName) =>
                let! w := os.Write tmp (list_byte_of_string b) in
                let! s := os.Sync tmp in
                let! cl := os.Close tmp in
                let werr := match w, s, cl with
                            | inl e, _, _ | inr _, inl e, _ | inr _, inr _, inl e => Some e
                            | inr _, inr _, inr _ => None
                            end in
                let! werr := match werr with
                             | Some e => io_ret (Some e)
                             | None =>
                                 let! rn := os.Rename tmpName marker in
                                 io_ret (match rn with inl e => Some e | inr _ => None end)
                             end in
                match werr with
                | Some e => let! _ := os.Remove tmpName in io_ret (inl e)
                | None => io_ret (parse_marker b)
                end
            end
        end
  end.

(** Lines 153-174: memoised, an unreadable marker being remembered as the
    zero time. *)
Definition markerTime (c : DiskCache) (root : string) : M (DiskCache * Z) :=
  match since c !! root with
  | Some t => io_ret (c, t)
  | None =>
      let! r := readOrCreateMarker root in
      let t := match r with inl _ => time_zero | inr t => t end in
      io_ret (set_since root t c, t)
  end.

(** Lines 145-151. *)
Definition versionedSince (c : DiskCache) (key : string) : M (DiskCache * (goerr + Z)) :=
  let! r := root c key in
  match r with
  | inl e => io_ret (c, inl e)
  | inr (rt, _) =>
      let! ct := markerTime c rt in
      io_ret (fst ct, inr (snd ct))
  end.

(** Lines 210-222. *)
Fixpoint mark_all (roots : list string) (c : DiskCache) : M DiskCache :=
  match roots with
  | [] => io_ret c
  | r :: rest => let! ct := markerTime c r in mark_all rest (fst ct)
  end.
Definition ensureMarkers (c : option DiskCache) : M (option DiskCache) :=
  match c with
  | None => io_ret None
  | Some dc =>
      let! r := CacheRoots c in
      match r with
      | inl _ => io_ret c
      | inr roots => let! dc := mark_all roots dc in io_ret (Some dc)
      end
  end.

(** Lines 83-93. *)
Definition NewDiskCache (enabled : bool) (loc sub : string) : M (option DiskCache) :=
  if negb enabled then io_ret None
  else ensureMarkers (Some {| location := loc; subdir := sub; since := ∅ |}).

(** ** Get and Put *)

(** When a chunk cached before versioning may be served (line 245). *)
Definition legacy_trusted (sinceErr : goerr + Z) (v : objVersion) : bool :=
  match sinceErr with
  | inl _ => true
  | inr t => IsZero t || IsZero (modified v) || Before (modified v) t
  end.

(** Lines 238-251: the versioned chunk, or the pre-versioning one. The outer
    [inl] is the early return of line 247, which skips the not-found test. *)
Definition open_chunk (c : DiskCache) (key : string) (v : objVersion) (alignedOffset : Z)
    (p : string) : M (DiskCache * (goerr + (goerr + (nat * string)))) :=
  let! f := os.Open p in
  match f with
  | inr h => io_ret (c, inr (inr (h, p)))
  | inl e =>
      if errors.IsNotExist e && negb (String.eqb (etag v) "") then
        let! cs := versionedSince c key in
        if legacy_trusted (snd cs) v then
          let! p' := path (fst cs) key noVersion alignedOffset in
          match p' with
          | inl e' => io_ret (fst cs, inl e')
          | inr p' =>
              let! f' := os.Open p' in
              io_ret (fst cs, inr (match f' with inl e' => inl e' | inr h => inr (h, p') end))
          end
        else io_ret (fst cs, inr (inl e))
      else io_ret (c, inr (inl e))
  end.

(** Lines 230-269. [inr None] is a miss, [inr (Some (file, size))] a hit. *)
Definition Get (c : option DiskCache) (key : string) (v : objVersion) (alignedOffset : Z)
    : M (option DiskCache * (goerr + option (nat * Z))) :=
  match c with
  | None => io_ret (None, inr None)
  | Some c =>
      let! p := path c key v alignedOffset in
      match p with
      | inl e => io_ret (Some c, inl e)
      | inr p =>
          let! co := open_chunk c key v alignedOffset p in
          let c := Some (fst co) in
          match snd co with
          | inl e => io_ret (c, inl e)
          | inr (inl e) => io_ret (c, if errors.IsNotExist e then inr None else inl e)
          | inr (inr (f, p)) =>
              let! info := os.Stat f in
              match info with
              | inl e => let! _ := os.Close f in io_ret (c, inl e)
              | inr size =>
                  let! now := time.Now in
                  let! _ := os.Chtimes p now in
                  io_ret (c, inr (Some (f, size)))
              end
          end
      end
  end.

(** Lines 278-311. [inr None] is the nil (disabled) cache. *)
Definition Put (c : option DiskCache) (key : string) (v : objVersion) (alignedOffset : Z)
    (data : bytes) : M (option DiskCache * (goerr + option (nat * string))) :=
  match c with
  | None => io_ret (None, inr None)
  | Some c =>
      let! c := (if String.eqb (etag v) "" then io_ret c
                 else let! cs := versionedSince c key in io_ret (fst cs)) in
      let! p := path c key v alignedOffset in
      match p with
      | inl e => io_ret (Some c, inl e)
      | inr p =>
          let dir := filepath.Dir p in
          let! m := os.MkdirAll dir in
          match m with
          | inl e => io_ret (Some c, inl e)
          | inr _ =>
              let! t := os.CreateTemp dir ".tmp_chunk_" in
              match t with
              | inl e => io_ret (Some c, inl e)
              | inr (tmp, tmpName) =>
                  let! w := os.Write tmp data in
                  match w with
                  | inl e =>
                      let! _ := os.Close tmp in
                      let! _ := os.Remove tmpName in
                      io_ret (Some c, inl e)
                  | inr _ =>
                      let! rn := os.Rename tmpName p in
                      match rn with
                      | inl e =>
                          let! _ := os.Close tmp in
                          let! _ := os.Remove tmpName in
                          io_ret (Some c, inl e)
                      | inr _ => io_ret (Some c, inr (Some (tmp, p)))
                      end
                  end
              end
          end
      end
  end.
End markers.

(** ** Paths *)

Lemma hex_not_tmp s : all_hex s = true -> strings.HasPrefix s ".tmp_" = false.
Proof.
  unfold strings.HasPrefix. destruct s as [|c s]; [done|].
  intros [Hc _]%andb_true_iff. cbn [String.prefix].
  destruct (ascii_dec "." c) as [<-|]; [done | done].
Qed.

Lemma chunk_names_plain key v off :
  Forall filepath.plain
    [strings.take 2 (sha1hex key); sha1hex key; sha1hex (chunk_name key v off)].
Proof.
  rewrite !Forall_cons. auto using Forall_nil_2 with s3c.
Qed.

Lemma Base_chunk_path rt key v off :
  filepath.Base (chunk_path rt key v off) = sha1hex (chunk_name key v off).
Proof.
  unfold chunk_path.
  apply (filepath.Base_Join_names rt [strings.take 2 (sha1hex key); sha1hex key]);
    [done | | apply sha1hex_plain].
  pose proof (chunk_names_plain key v off) as Hp.
  by apply (Forall_app _ [_; _]) in Hp as [? _].
Qed.

Lemma chunk_path_not_tmp rt key v off : is_tmp (chunk_path rt key v off) = false.
Proof.
  unfold is_tmp. rewrite Base_chunk_path. apply hex_not_tmp, sha1hex_shape.
Qed.

Lemma marker_not_tmp rt : is_tmp (filepath.Join [rt; versionMarker]) = false.
Proof.
  unfold is_tmp. destruct (decide (rt = "")) as [->|Hr]; [done|].
  change [rt; versionMarker] with (rt :: [] ++ [versionMarker]).
  by rewrite filepath.Base_Join.
Qed.

Lemma Base_marker rt : filepath.Base (filepath.Join [rt; versionMarker]) = versionMarker.
Proof.
  destruct (decide (rt = "")) as [->|Hr]; [done|].
  change [rt; versionMarker] with (rt :: [] ++ [versionMarker]).
  by rewrite filepath.Base_Join.
Qed.

(** The version suffix of a chunk name. *)
Definition etag_suffix (v : objVersion) : string :=
  if String.eqb (etag v) "" then "" else ":" +:+ etag v.

Lemma chunk_name_eq key v off :
  chunk_name key v off = key +:+ ":" +:+ strconv.FormatInt off +:+ etag_suffix v.
Proof.
  unfold chunk_name, etag_suffix. destruct (String.eqb (etag v) "").
  - by rewrite strings.app_nil_r.
  - by rewrite !strings.app_assoc.
Qed.

Lemma etag_suffix_tail v : strings.tail_of ":" (etag_suffix v).
Proof.
  unfold strings.tail_of, etag_suffix. destruct (String.eqb (etag v) ""); [by left|].
  right. by exists (etag v).
Qed.

Lemma etag_suffix_inj v v' : etag_suffix v = etag_suffix v' -> etag v = etag v'.
Proof.
  unfold etag_suffix.
  destruct (String.eqb_spec (etag v) "") as [->|], (String.eqb_spec (etag v') "") as [->|];
    try done. by intros [= ->].
Qed.

(** A chunk name determines the offset and the version it was made from: the
    offset has no colon in it. *)
Lemma chunk_name_inj key v off v' off' :
  chunk_name key v off = chunk_name key v' off' -> off = off' /\ etag v = etag v'.
Proof.
  rewrite !chunk_name_eq. intros He%strings.app_inv_l%strings.app_inv_l.
  apply (strings.app_sep_inj ":") in He as [Ho Hs]; [|apply etag_suffix_tail..|
    by apply strconv.FormatInt_no_byte|by apply strconv.FormatInt_no_byte].
  split; [by apply (inj strconv.FormatInt) | by apply etag_suffix_inj].
Qed.

(** No digest collision between the names two chunks are filed under. *)
Definition no_collision (key : string) (v : objVersion) (off : Z)
    (key' : string) (v' : objVersion) (off' : Z) : Prop :=
  (sha1hex key = sha1hex key' -> key = key') /\
  (sha1hex (chunk_name key v off) = sha1hex (chunk_name key' v' off') ->
   chunk_name key v off = chunk_name key' v' off').

Lemma chunk_path_inj rt key v off key' v' off' :
  rt <> "" -> no_collision key v off key' v' off' ->
  chunk_path rt key v off = chunk_path rt key' v' off' ->
  key = key' /\ off = off' /\ etag v = etag v'.
Proof.
  intros Hr [Hk Hn] Hp. unfold chunk_path in Hp.
  apply filepath.Join_inj in Hp; [|done..|apply chunk_names_plain|apply chunk_names_plain].
  injection Hp as _ Hh Hc. specialize (Hk Hh). subst key'.
  apply Hn in Hc. by apply chunk_name_inj in Hc as [-> ->].
Qed.

(** A chunk's name is a digest, a marker's is not. *)
Lemma chunk_path_not_marker rt key v off rt' :
  chunk_path rt key v off <> filepath.Join [rt'; versionMarker].
Proof.
  intros Hp%(f_equal filepath.Base). rewrite Base_chunk_path, Base_marker in Hp.
  destruct (sha1hex_shape (chunk_name key v off)) as [_ Hl]. by rewrite Hp in Hl.
Qed.

(** C37: within one shard, a chunk file belongs to one key, one offset and one
    object version: unless the digest collides on the names in question, two
    chunks share a file only when all three agree. *)
Theorem chunk_path_identifies_chunk rt key v off key' v' off' :
  rt <> "" -> no_collision key v off key' v' off' ->
  chunk_path rt key v off = chunk_path rt key' v' off' ->
  key = key' /\ off = off' /\ etag v = etag v'.
Proof. apply chunk_path_inj. Qed.

Lemma chunk_path_identifies_chunk_witness :
  chunk_path "/webtor/data1/s3-cache" "k" {| etag := "e1"; modified := 0 |} 0 <>
  chunk_path "/webtor/data1/s3-cache" "k" {| etag := "e2"; modified := 0 |} 0.
Proof.
  intros Hp.
  destruct (chunk_path_identifies_chunk "/webtor/data1/s3-cache" "k"
    {| etag := "e1"; modified := 0 |} 0 "k" {| etag := "e2"; modified := 0 |} 0) as (_ & _ & He).
  - done.
  - split; [done|]. intros Hc. vm_compute in Hc. discriminate.
  - exact Hp.
  - discriminate.
Defined.

(** ** Shard choice *)

Lemma pick_shard_in num interval i dirs last :
  In last dirs -> forall ds, incl ds dirs -> In (pick_shard num interval i ds last) dirs.
Proof.
  intros Hl ds. revert i. induction ds as [|d ds IH]; intros i Hi; simpl; [done|].
  destruct (_ <? _); [by apply Hi; left|]. apply IH. intros x Hx. by apply Hi; right.
Qed.

Lemma hex_val_range c d : hex_val c = Some d -> 0 <= d < 16.
Proof.
  unfold hex_val. set (n := Z.of_nat (nat_of_ascii c)).
  destruct ((48 <=? n) && (n <=? 57)) eqn:E1.
  { apply andb_true_iff in E1 as [?%Z.leb_le ?%Z.leb_le]. intros [= <-]. lia. }
  destruct ((97 <=? n) && (n <=? 102)) eqn:E2.
  { apply andb_true_iff in E2 as [?%Z.leb_le ?%Z.leb_le]. intros [= <-]. lia. }
  destruct ((65 <=? n) && (n <=? 70)) eqn:E3; [|done].
  apply andb_true_iff in E3 as [?%Z.leb_le ?%Z.leb_le]. intros [= <-]. lia.
Qed.

Lemma is_hex_val c : is_hex c = true -> exists d, hex_val c = Some d /\ 0 <= d < 16.
Proof.
  intros Hc. destruct (hex_val c) as [d|] eqn:Hd.
  - exists d. split; [done|]. by apply (hex_val_range c).
  - unfold is_hex in Hc. unfold hex_val in Hd. apply orb_true_iff in Hc as [Hc|Hc].
    + by rewrite Hc in Hd.
    + rewrite Hc in Hd.
      by destruct ((48 <=? Z.of_nat (nat_of_ascii c)) && (Z.of_nat (nat_of_ascii c) <=? 57)).
Qed.

Lemma parse_hex_loop_ok s acc k :
  all_hex s = true -> 0 <= acc < 16 ^ k -> 0 <= k ->
  k + Z.of_nat (String.length s) <= 15 ->
  exists n, parse_hex_loop acc s = inr n /\ 0 <= n < 16 ^ (k + Z.of_nat (String.length s)).
Proof.
  revert acc k. induction s as [|c s IH]; intros acc k Hs Ha Hk Hl.
  - exists acc. cbn. rewrite Z.add_0_r. cbn in Hl. split; [|done].
    assert (16 ^ k <= 16 ^ 15) by (apply Z.pow_le_mono_r; lia).
    change (16 ^ 15) with 1152921504606846976 in *. unfold int64_max. zcases; [lia|done].
  - cbn [all_hex String.length parse_hex_loop] in *. apply andb_true_iff in Hs as [Hc Hs].
    destruct (is_hex_val _ Hc) as (d & -> & Hd).
    destruct (IH (acc * 16 + d) (k + 1)) as (n & Hn & Hb); [done| |lia|lia|].
    { rewrite Z.pow_add_r by lia. lia. }
    exists n. split; [done|]. by replace (k + Z.of_nat (S (String.length s)))
      with (k + 1 + Z.of_nat (String.length s)) by lia.
Qed.

Lemma length_take_string n s :
  (n <= String.length s)%nat -> String.length (strings.take n s) = n.
Proof.
  revert s. induction n as [|n IH]; intros [|c s]; cbn; try done; try lia.
  intros ?. rewrite IH; lia.
Qed.

(** The five hex digits always parse, to a 20-bit number. *)
Lemma shard_hash_parses hash :
  exists n, ParseHex (strings.take 5 (sha1hex hash)) = inr n /\ 0 <= n < 1048576.
Proof.
  destruct (sha1hex_shape hash) as [Hh Hl].
  assert (String.length (strings.take 5 (sha1hex hash)) = 5%nat) as H5
    by (apply length_take_string; lia).
  destruct (parse_hex_loop_ok (strings.take 5 (sha1hex hash)) 0 0) as (n & Hn & Hb);
    [by apply all_hex_take|done|done|rewrite H5; done|].
  rewrite H5 in Hb. exists n. split; [|done].
  unfold ParseHex. by destruct (strings.take 5 (sha1hex hash)).
Qed.

Lemma sortStrings_Permutation l : sortStrings l ≡ₚ l.
Proof. apply merge_sort_Permutation. Qed.

Lemma sortStrings_ext l l' : l ≡ₚ l' -> sortStrings l = sortStrings l'.
Proof.
  intros Hl. apply (StronglySorted_unique String.le).
  - apply StronglySorted_merge_sort; apply _.
  - apply StronglySorted_merge_sort; apply _.
  - by rewrite !sortStrings_Permutation.
Qed.

(** Shard choice is total, reproducible and confined: for any non-empty
    shard list the hash picks one of its members, without error, and the
    choice does not depend on the order the directories were listed in. *)
Theorem distributeByHash_total dirs hash :
  dirs <> [] ->
  exists d, distributeByHash dirs hash = inr d /\ In d dirs /\
    forall dirs', dirs' ≡ₚ dirs -> distributeByHash dirs' hash = inr d.
Proof.
  intros Hne.
  assert (exists d, distributeByHash dirs hash = inr d /\ In d dirs) as (d & Hd & Hin).
  { unfold distributeByHash. destruct (shard_hash_parses hash) as (n & -> & Hn).
    pose proof (sortStrings_Permutation dirs) as Hp.
    destruct (sortStrings dirs) as [|d0 rest] eqn:Hs.
    { by apply Permutation_nil_l in Hp. }
    eexists. split; [done|]. rewrite <- Hp. apply pick_shard_in; [|apply incl_refl].
    destruct (exists_last (l := d0 :: rest)) as (l' & x & ->); [done|].
    rewrite List.last_last. apply in_or_app. right. by left. }
  exists d. split; [done|]. split; [done|]. intros dirs' Hp.
  unfold distributeByHash in *. by rewrite (sortStrings_ext _ _ Hp).
Qed.

Lemma distributeByHash_total_witness :
  exists d, distributeByHash ["/w/data2"; "/w/data1"] (sha1hex "k") = inr d /\
    In d ["/w/data2"; "/w/data1"].
Proof.
  destruct (distributeByHash_total ["/w/data2"; "/w/data1"] (sha1hex "k")) as (d & Hd & Hin & _).
  - discriminate.
  - exists d. split; [exact Hd | exact Hin].
Defined.

(** ** The root of a cache *)

(** A location without a wildcard is its own, single shard. *)
Definition fixed_root (c : DiskCache) : Prop := strings.HasSuffix (location c) "*" = false.
Definition root_of (c : DiskCache) : string := filepath.Join [location c; subdir c].

(** [rt] may be the root [c] resolves a key to. *)
Definition root_for (c : DiskCache) (rt : string) : Prop := fixed_root c -> rt = root_of c.

Definition same_config (c c' : DiskCache) : Prop :=
  location c' = location c /\ subdir c' = subdir c.

Lemma same_config_root c c' rt : same_config c c' -> root_for c' rt -> root_for c rt.
Proof. intros [Hl Hs]. unfold root_for, fixed_root, root_of. by rewrite Hl, Hs. Qed.

(** ** Fault and crash behaviour

    [J X f0 H f]: finished paths of [f] show what they showed in [f0] or
    content [X] allows, and the open handles are exactly [H]. *)
Definition J (X : string -> bytes -> Prop) (f0 : fsys) (H : gmap nat nat) (f : fsys) : Prop :=
  stable X f0 f /\ fs_handles f = H.

Lemma J_ReadDir X f0 H p :
  hoare (J X f0 H) (os.ReadDir p) (fun _ => J X f0 H) (stable X f0).
Proof.
  apply hoare_sys_atomic; [|done|by intros f []].
  intros f Hf. simpl. by destruct (is_dir f (filepath.Clean p)).
Qed.

Lemma J_MkdirAll X f0 H p :
  hoare (J X f0 H) (os.MkdirAll p) (fun _ => J X f0 H) (stable X f0).
Proof.
  apply hoare_sys.
  - intros f [Hs Hh]. case_bool_decide; simpl; [done|].
    split; [|done]. eapply stable_view; [exact Hs | apply same_view_dirs].
  - intros f e n [Hs Hh]. split; [|done]. eapply stable_view; [exact Hs | apply same_view_dirs].
  - intros f n [Hs _]. eapply stable_view; [exact Hs | apply same_view_dirs].
Qed.

Lemma J_ret {A} X f0 H (a : A) (Q : A -> fsys -> Prop) C :
  (forall f, J X f0 H f -> Q a f) -> hoare (J X f0 H) (io_ret a) Q C.
Proof. apply hoare_ret. Qed.

Lemma J_listShards X f0 H loc :
  hoare (J X f0 H) (listShards loc) (fun _ => J X f0 H) (stable X f0).
Proof.
  unfold listShards. destruct (filepath.SplitLast _) as [dir lp].
  eapply hoare_bind; [apply J_ReadDir|]. intros [e|es]; by apply J_ret.
Qed.

Lemma J_getDir X f0 H loc hash :
  hoare (J X f0 H) (getDir loc hash) (fun _ => J X f0 H) (stable X f0).
Proof.
  unfold getDir. destruct (negb _); [by apply J_ret|].
  eapply hoare_bind; [apply J_listShards|]. intros [e|[|s [|s' l]]]; try by apply J_ret.
  eapply hoare_bind; [apply J_MkdirAll|]. intros [e|[]]; by apply J_ret.
Qed.

Lemma J_root X f0 H c key :
  hoare (J X f0 H) (root c key)
    (fun r f => J X f0 H f /\ match r with
                              | inr (rt, h) => h = sha1hex key /\ root_for c rt
                              | inl _ => True
                              end) (stable X f0).
Proof.
  unfold root_for, fixed_root, root_of. destruct (strings.HasSuffix (location c) "*") eqn:Hl.
  - unfold root. eapply hoare_bind; [apply J_getDir|]. intros [e|s]; by apply J_ret.
  - unfold root, getDir. rewrite Hl. by apply J_ret.
Qed.

Lemma J_path X f0 H c key v off :
  hoare (J X f0 H) (path c key v off)
    (fun r f => J X f0 H f /\ match r with
                              | inr p => exists rt, p = chunk_path rt key v off /\ root_for c rt
                              | inl _ => True
                              end) (stable X f0).
Proof.
  unfold path. eapply hoare_bind; [apply J_root|]. intros [e|[rt h]].
  - apply hoare_ret. by intros f [? _].
  - apply hoare_ret. intros f (Hf & -> & Hr). split; [done|]. by exists rt.
Qed.

Section marker_spec.
Context `{TimeLayout} (X : string -> bytes -> Prop) (f0 : fsys).
(** Marker files may appear, each holding one complete timestamp. *)
Hypothesis HX : forall rt t,
  X (filepath.Join [rt; versionMarker]) (list_byte_of_string (RFC3339Nano_Format t)).

(** A temporary file that is still open, over the handles [Hs]. *)
Definition Topen (Hs : gmap nat nat) (h : nat) (name : string) (d : bytes) (f : fsys) : Prop :=
  stable X f0 f /\ tmp_open f0 h name d f /\ Hs !! h = None /\ delete h (fs_handles f) = Hs.

Lemma T_Close Hs h name d :
  hoare (Topen Hs h name d) (os.Close h)
    (fun _ f => J X f0 Hs f /\ exists i, tmp_file f0 i name d f) (stable X f0).
Proof.
  assert (forall f, Topen Hs h name d f ->
    J X f0 Hs (os.close_handle h f) /\ exists i, tmp_file f0 i name d (os.close_handle h f)) as Hc.
  { intros f (Hst & (i & _ & Ht) & _ & Hd). split; [split|].
    - eapply stable_view; [exact Hst | apply same_view_close].
    - exact Hd.
    - exists i. exact Ht. }
  apply hoare_sys; [exact Hc | intros f _ _; apply Hc | intros f _ Hf; apply Hc, Hf].
Qed.

Lemma J_Remove_tmp Hs name :
  is_tmp name = true ->
  hoare (J X f0 Hs) (os.Remove name) (fun _ => J X f0 Hs) (stable X f0).
Proof.
  intros Ht. apply hoare_sys_atomic; [|done|by intros f []].
  intros f [Hst Hh]. destruct (Remove_tmp_spec X f0 name f Hst Ht) as [? Heq].
  split; [done|]. by rewrite Heq.
Qed.

Lemma T_Write Hs h name d e :
  hoare (Topen Hs h name d) (os.Write h e)
    (fun r f => exists d', Topen Hs h name d' f /\
       match r with inr _ => d' = d ++ e | inl _ => True end) (stable X f0).
Proof.
  assert (forall e' f, fs_handles (os.append h e' f) = fs_handles f) as Hfr.
  { intros e' f. unfold os.append. by destruct (fs_handles f !! h). }
  assert (forall e' f, Topen Hs h name d f -> Topen Hs h name (d ++ e') (os.append h e' f)) as Ha.
  { intros e' f (Hst & Ht & Hn & Hd). destruct (append_spec X f0 h name d e' f Hst Ht) as [? ?].
    unfold Topen. by rewrite Hfr. }
  apply hoare_sys.
  - intros f Hf. exists (d ++ e). split; [by apply Ha | done].
  - intros f er n Hf. exists (d ++ take n e). split; [by apply Ha | done].
  - intros f n Hf. by apply (Ha (take n e)) in Hf as [? _].
Qed.

Lemma T_Sync Hs h name d :
  hoare (Topen Hs h name d) (os.Sync h) (fun _ => Topen Hs h name d) (stable X f0).
Proof. apply hoare_sys_atomic; [done|done|by intros f []]. Qed.

Lemma T_CreateTemp Hs dir pre :
  strings.HasPrefix pre ".tmp_" = true -> strings.has_byte filepath.slash pre = false ->
  hoare (J X f0 Hs) (os.CreateTemp dir pre)
    (fun r f => match r with
                | inl _ => J X f0 Hs f
                | inr (h, name) => is_tmp name = true /\ Topen Hs h name [] f
                end) (stable X f0).
Proof.
  intros Hp Hsl. apply hoare_sys_atomic; [|done|by intros f []].
  intros f [Hst <-]. pose proof (CreateTemp_spec X f0 dir pre f Hp Hsl Hst) as Hc.
  destruct (os.CreateTemp_act dir pre f) as [f' [e|[h name]]]; simpl.
  - by destruct Hc as [? ?].
  - destruct Hc as (? & Ht & ? & ?). split; [|done].
    by destruct Ht as (i & _ & x & _ & _ & _ & _ & ? & _).
Qed.

Lemma J_Rename Hs name d p :
  is_tmp p = false -> X p d ->
  hoare (fun f => J X f0 Hs f /\ exists i, tmp_file f0 i name d f) (os.Rename name p)
    (fun r f => J X f0 Hs f /\
       match r with inr _ => file_data f p = Some d | inl _ => True end) (stable X f0).
Proof.
  intros Hp HXp. apply hoare_sys_atomic; [|by intros f e [? _]|by intros f [[] _]].
  intros f [[Hst Hh] [i Ht]]. pose proof (Rename_spec X f0 i name d p f Hst Ht Hp HXp) as Hr.
  destruct (os.Rename_act name p f) as [f' r]. destruct Hr as (? & Heq & Hd). simpl.
  split; [split; [done|by rewrite Heq]|]. by destruct r; destruct Hd.
Qed.

(** The marker file holds text that reads as [t]. *)
Definition marks (rt : string) (t : Z) (f : fsys) : Prop :=
  exists b, file_data f (filepath.Join [rt; versionMarker]) = Some b /\
    parse_marker (string_of_list_byte b) = inr t.

Lemma readOrCreateMarker_hoare Hs rt :
  hoare (J X f0 Hs) (readOrCreateMarker rt)
    (fun r f => J X f0 Hs f /\ match r with inr t => marks rt t f | inl _ => True end)
    (stable X f0).
Proof.
  set (Q := fun (r : goerr + Z) f => J X f0 Hs f /\
    match r with inr t => marks rt t f | inl _ => True end).
  assert (forall (e : goerr) f, J X f0 Hs f -> Q (inl e) f) as HQ by done.
  unfold readOrCreateMarker. eapply hoare_bind.
  { apply (hoare_sys_atomic _ _ (fun r f => J X f0 Hs f /\ match r with
      | inr b => file_data f (filepath.Join [rt; versionMarker]) = Some b | _ => True end));
      [|done|by intros f []].
    intros f Hf. by destruct (file_data f _) eqn:Hd. }
  intros [e|b].
  2:{ apply hoare_ret. intros f [HJ Hd]. split; [done|].
      destruct (parse_marker _) eqn:Hb; [done|]. by exists b. }
  apply hoare_pure_r. intros _. destruct (negb _); [by apply hoare_ret|].
  eapply hoare_bind; [apply J_MkdirAll|]. intros [e'|[]]; [by apply hoare_ret|].
  eapply hoare_bind; [apply (hoare_now _ (fun _ => J X f0 Hs)); done|]. intros now.
  eapply hoare_bind; [by apply T_CreateTemp|]. intros [e'|[tmp name]]; [by apply hoare_ret|].
  apply hoare_pure. intros Htmp.
  eapply hoare_bind; [apply T_Write|]. intros w.
  apply hoare_exists. intros d. apply hoare_pure_r. intros Hd.
  eapply hoare_bind; [apply T_Sync|]. intros sy.
  eapply hoare_bind; [apply T_Close|]. intros cl.
  set (b := RFC3339Nano_Format now) in *.
  apply (hoare_bind _ _ _ (fun o f => J X f0 Hs f /\ match o with
    | None => file_data f (filepath.Join [rt; versionMarker]) = Some (list_byte_of_string b)
    | Some _ => True end)).
  - destruct w as [?|[]]; [apply hoare_ret; by intros f [? _]|]. subst d.
    destruct sy as [?|[]]; [apply hoare_ret; by intros f [? _]|].
    destruct cl as [?|[]]; [apply hoare_ret; by intros f [? _]|].
    eapply hoare_bind; [apply J_Rename; [apply marker_not_tmp | apply HX]|].
    intros [?|[]]; by apply hoare_ret.
  - intros [e'|]; apply hoare_pure_r || idtac.
    + intros _. eapply hoare_bind; [by apply J_Remove_tmp|]. intros ?. by apply hoare_ret.
    + apply hoare_ret. intros f [HJ Hm]. split; [done|].
      destruct (parse_marker b) eqn:Hb; [done|]. exists (list_byte_of_string b).
      by rewrite string_of_list_byte_of_string.
Qed.

Lemma J_readOrCreateMarker Hs rt :
  hoare (J X f0 Hs) (readOrCreateMarker rt) (fun _ => J X f0 Hs) (stable X f0).
Proof. eapply hoare_conseq; [apply readOrCreateMarker_hoare|done|by intros ? f []|done]. Qed.

Lemma J_markerTime Hs c rt :
  hoare (J X f0 Hs) (markerTime c rt) (fun r f => same_config c (fst r) /\ J X f0 Hs f) (stable X f0).
Proof.
  unfold markerTime. destruct (since c !! rt); [by apply J_ret|].
  eapply hoare_bind; [apply J_readOrCreateMarker|]. intros r. by apply J_ret.
Qed.

Lemma J_versionedSince Hs c key :
  hoare (J X f0 Hs) (versionedSince c key) (fun r f => same_config c (fst r) /\ J X f0 Hs f) (stable X f0).
Proof.
  unfold versionedSince. eapply hoare_bind; [apply J_root|].
  intros [e|[rt h]]; [apply hoare_ret; by intros f [? _]|].
  apply hoare_pure_r. intros _.
  eapply hoare_bind; [apply J_markerTime|]. intros ct. apply hoare_pure. intros Hc. by apply J_ret.
Qed.

Lemma J_mark_all Hs roots c : hoare (J X f0 Hs) (mark_all roots c) (fun _ => J X f0 Hs) (stable X f0).
Proof.
  revert c. induction roots as [|r roots IH]; intros c; [by apply J_ret|].
  eapply hoare_bind; [apply J_markerTime|]. intros ct. apply hoare_pure. intros _. apply IH.
Qed.

(** The cache as the process starts: at most markers are new. *)
Lemma NewDiskCache_hoare Hs enabled loc sub :
  hoare (J X f0 Hs) (NewDiskCache enabled loc sub) (fun _ => J X f0 Hs) (stable X f0).
Proof.
  unfold NewDiskCache, ensureMarkers, CacheRoots. destruct enabled; [|by apply J_ret]. cbn [negb location].
  eapply (hoare_bind _ _ _ (fun _ => J X f0 Hs)).
  { eapply hoare_bind; [apply J_listShards|]. intros [e|l]; by apply J_ret. }
  intros [e|roots]; [by apply J_ret|]. eapply hoare_bind; [apply J_mark_all|]. intros dc. by apply J_ret.
Qed.
End marker_spec.

(** Content a [Put] may add: the chunk itself, complete, and a complete
    version marker. *)
Definition put_content `{TimeLayout} (key : string) (v : objVersion) (off : Z) (data : bytes)
    (q : string) (d : bytes) : Prop :=
  (exists rt, q = chunk_path rt key v off /\ d = data) \/
  (exists rt t, q = filepath.Join [rt; versionMarker] /\
     d = list_byte_of_string (RFC3339Nano_Format t)).

(** Content a [Get] may add: a complete version marker. *)
Definition marker_content `{TimeLayout} (q : string) (d : bytes) : Prop :=
  exists rt t, q = filepath.Join [rt; versionMarker] /\
    d = list_byte_of_string (RFC3339Nano_Format t).

Section put_get_spec.
Context `{TimeLayout} (f0 : fsys).

(** What the caller of [Put] or [Get] gets: one more handle, on [d]. *)
Definition gives (X : string -> bytes -> Prop) (Hs : gmap nat nat) (h : nat) (d : bytes)
    (f : fsys) : Prop :=
  stable X f0 f /\ Hs !! h = None /\ delete h (fs_handles f) = Hs /\ handle_data f h = Some d.

(** The rename is where content [X] has beyond [X0] appears. *)
Lemma T_Rename (X0 X : string -> bytes -> Prop) Hs h name d p :
  (forall q b, X0 q b -> X q b) -> is_tmp p = false -> X p d ->
  hoare (Topen X0 f0 Hs h name d) (os.Rename name p)
    (fun r f => match r with
                | inl _ => Topen X0 f0 Hs h name d f
                | inr _ => gives X Hs h d f /\ file_data f p = Some d
                end) (stable X f0).
Proof.
  intros HX Hp HXp. apply hoare_sys_atomic; [|done|by intros f [? _]; eapply stable_mono].
  intros f HT. pose proof HT as (Hst & Ht & Hn & Hd). pose proof (tmp_open_handle _ _ _ _ _ Ht) as Hh.
  destruct Ht as (i & Hi & Ht).
  pose proof (Rename_spec X f0 i name d p f (stable_mono _ _ _ _ HX Hst) Ht Hp HXp) as Hr.
  destruct (os.Rename_act name p f) as [f' [e|[]]]; simpl.
  - by destruct Hr as (_ & _ & _ & ->).
  - destruct Hr as (? & Heq & Hin & ?). split; [|done].
    unfold gives. rewrite Heq. unfold handle_data in *. by rewrite Heq, Hin.
Qed.

Lemma T_abort (X : string -> bytes -> Prop) Hs h name d {A} (a : A) :
  is_tmp name = true ->
  hoare (Topen X f0 Hs h name d)
    (let! _ := os.Close h in let! _ := os.Remove name in io_ret a)
    (fun r f => r = a /\ J X f0 Hs f) (stable X f0).
Proof.
  intros Ht. eapply hoare_bind; [apply T_Close|]. intros cl.
  eapply hoare_bind.
  { eapply hoare_pre; [by apply J_Remove_tmp | by intros f [? _]]. }
  intros rm. by apply hoare_ret.
Qed.

(** A [Put] publishes its chunk at its path, or changes no finished path but
    markers; [X] is what may appear, [X0] what may appear in failure. *)
Lemma Put_hoare (X0 X : string -> bytes -> Prop) Hs c key v off data :
  (forall rt t, X0 (filepath.Join [rt; versionMarker]) (list_byte_of_string (RFC3339Nano_Format t))) ->
  (forall q b, X0 q b -> X q b) -> (forall rt, root_for c rt -> X (chunk_path rt key v off) data) ->
  hoare (J X0 f0 Hs) (Put (Some c) key v off data)
    (fun r f => (exists c', fst r = Some c' /\ same_config c c') /\
                match snd r with
                | inr (Some (h, p)) =>
                    gives X Hs h data f /\ file_data f p = Some data /\
                    exists rt, p = chunk_path rt key v off /\ root_for c rt
                | _ => J X0 f0 Hs f
                end) (stable X f0).
Proof.
  intros HX0 HX HXp. pose proof (fun f => stable_mono X0 X f0 f HX) as Hmono.
  unfold Put. apply (hoare_bind _ _ _ (fun c' f => same_config c c' /\ J X0 f0 Hs f)).
  { destruct (String.eqb _ _); [by apply hoare_ret|].
    eapply hoare_bind; [by eapply hoare_crash, Hmono; apply J_versionedSince|].
    intros cs. apply hoare_pure. intros Hc. by apply hoare_ret. }
  intros c'. apply hoare_pure. intros Hc.
  assert (exists c0, Some c' = Some c0 /\ same_config c c0) as Hc' by (by exists c').
  eapply hoare_bind; [by eapply hoare_crash, Hmono; apply J_path|].
  intros [e|p]; [apply hoare_ret; by intros f [? _]|].
  apply hoare_pure_r. intros (rt & -> & Hrt). apply (same_config_root c c') in Hrt; [|done].
  eapply hoare_bind; [by eapply hoare_crash, Hmono; apply J_MkdirAll|]. intros [e|[]]; [by apply hoare_ret|].
  eapply hoare_bind; [by eapply hoare_crash, Hmono; apply T_CreateTemp|]. intros [e|[tmp name]]; [by apply hoare_ret|].
  apply hoare_pure. intros Htmp.
  eapply hoare_bind; [by eapply hoare_crash, Hmono; apply T_Write|]. intros w.
  apply hoare_exists. intros d. apply hoare_pure_r. intros Hd.
  destruct w as [e|[]].
  { eapply hoare_conseq; [by apply T_abort|done|by intros ? f [-> ?]|done]. }
  subst d. eapply hoare_bind; [apply (T_Rename X0 X); [done|apply chunk_path_not_tmp|by apply HXp]|].
  intros [e|[]].
  - eapply hoare_conseq; [by apply T_abort|done|by intros ? f [-> ?]|done].
  - apply hoare_ret. intros f [? ?]. simpl. eauto 8.
Qed.

Lemma J_Open (X : string -> bytes -> Prop) Hs p :
  hoare (J X f0 Hs) (os.Open p)
    (fun r f => match r with
                | inl _ => J X f0 Hs f
                | inr h => exists d, gives X Hs h d f /\ file_data f p = Some d
                end) (stable X f0).
Proof.
  apply hoare_sys_atomic; [|done|by intros f []].
  intros f [Hst <-]. pose proof (stable_view X f0 f _ Hst (same_view_Open p f)) as Hst'.
  revert Hst'. unfold os.Open_act. destruct (fs_files f !! p) as [i|] eqn:Hp; [|done].
  simpl. intros Hst'. destruct Hst as [[(H1 & H2 & H3) _] _]. destruct (H1 _ _ Hp) as [x Hx].
  exists (i_data x). unfold file_data, file_inode. simpl. rewrite Hp. simpl. rewrite Hx. split; [|done].
  split; [exact Hst'|].
  assert (fs_handles f !! fs_next f = None) as Hn.
  { apply eq_None_not_Some. intros [j Hj]. apply H2 in Hj as [_ ?]. lia. }
  split; [done|]. simpl. split; [by apply delete_insert_id|].
  unfold handle_data. simpl. rewrite lookup_insert_eq. simpl. by rewrite Hx.
Qed.

(** [d] is a chunk's content, or that of the chunk before versioning. *)
Definition found (c : DiskCache) (key : string) (v : objVersion) (off : Z) (d : bytes) (f : fsys) : Prop :=
  exists rt v', root_for c rt /\ (v' = v \/ etag v <> "" /\ v' = noVersion) /\
    file_data f (chunk_path rt key v' off) = Some d.

Lemma found_view c key v off d f f' : found c key v off d f -> same_view f f' -> found c key v off d f'.
Proof. intros (rt & v' & ? & ? & Hd) [Hv _]. exists rt, v'. by rewrite Hv. Qed.

Lemma open_chunk_hoare Hs c key v off rt :
  root_for c rt ->
  hoare (J marker_content f0 Hs) (open_chunk c key v off (chunk_path rt key v off))
    (fun co f => same_config c (fst co) /\ match snd co with
       | inr (inr (h, _)) => exists d, gives marker_content Hs h d f /\ found c key v off d f
       | _ => J marker_content f0 Hs f end) (stable marker_content f0).
Proof.
  assert (forall rt t, marker_content (filepath.Join [rt; versionMarker])
    (list_byte_of_string (RFC3339Nano_Format t))) as HX by (intros; eexists; eauto).
  intros Hrt. unfold open_chunk. eapply hoare_bind; [apply J_Open|].
  intros [e|h].
  2: { apply hoare_ret. intros f (d & Hg & Hd). split; [done|]. exists d. split; [done|]. exists rt, v. auto. }
  destruct (errors.IsNotExist e && negb (String.eqb (etag v) "")) eqn:Hv; [|by apply hoare_ret].
  apply andb_true_iff in Hv as [_ Hv]. apply negb_true_iff, String.eqb_neq in Hv.
  eapply hoare_bind; [by apply J_versionedSince|]. intros [c' t]. apply hoare_pure. intros Hc.
  destruct (legacy_trusted _ _); [|by apply hoare_ret].
  eapply hoare_bind; [apply J_path|]. intros [e'|p']; [apply hoare_ret; by intros f [? _]|].
  apply hoare_pure_r. intros (rt' & -> & Hrt'). eapply hoare_bind; [apply J_Open|].
  intros [e'|h]; apply hoare_ret; [done|]. intros f (d & Hg & Hd). split; [done|]. exists d. split; [done|].
  exists rt', noVersion. split; [by eapply same_config_root|]. auto.
Qed.

(** The end of a [Get] that has opened a file, with what else is known of it. *)
Lemma Get_tail_hoare Hs (c : option DiskCache) h p' d (R : fsys -> Prop) :
  (forall f f', R f -> same_view f f' -> R f') ->
  hoare (fun f => gives marker_content Hs h d f /\ R f)
    (let! info := os.Stat h in
     match info with
     | inl e => let! _ := os.Close h in io_ret (c, inl e)
     | inr size => let! now := time.Now in let! _ := os.Chtimes p' now in io_ret (c, inr (Some (h, size)))
     end)
    (fun r f => fst r = c /\ match snd r with
       | inr (Some (h', size)) =>
           gives marker_content Hs h' d f /\ size = Z.of_nat (length d) /\ R f
       | _ => J marker_content f0 Hs f end) (stable marker_content f0).
Proof.
  intros HR. set (G := fun f => gives marker_content Hs h d f /\ R f).
  apply (hoare_bind _ _ _ (fun r f => G f /\ match r with inr s => s = Z.of_nat (length d) | inl _ => True end)).
  { apply hoare_sys_atomic; [|done|by intros f [[] _]].
    intros f Hf. pose proof Hf as [(_ & _ & _ & Hda) _]. simpl. by rewrite Hda. }
  intros [e|size]; apply hoare_pure_r.
  - intros _. apply (hoare_bind _ _ _ (fun _ => J marker_content f0 Hs));
      [|intros cl; by apply hoare_ret].
    assert (forall f, G f -> J marker_content f0 Hs (os.close_handle h f)) as Hcl.
    { intros f [(Hst & _ & Hde & _) _]. split; [|exact Hde].
      eapply stable_view; [exact Hst|apply same_view_close]. }
    apply hoare_sys; [exact Hcl | intros f _ _; apply Hcl | intros f _ Hf; by apply Hcl].
  - intros ->. eapply hoare_bind; [by apply (hoare_now _ (fun _ => G)); intros f []|].
    intros now. apply (hoare_bind _ _ _ (fun _ => G)); [|intros r; apply hoare_ret; by intros f []].
    apply (hoare_sys_atomic _ _ (fun _ => G)); [|done|by intros f [[] _]].
    intros f Hf. destruct (fs_files f !! p') as [i|] eqn:Hp; simpl; [|done].
    destruct Hf as [(Hst & Hn & Hde & Hda) Hfd]. pose proof (same_view_mtime p' now f) as Hv.
    split; [|by eapply HR]. split; [by eapply stable_view|].
    unfold os.set_mtime, handle_data in *. rewrite Hp in *. simpl in *. split; [done|]. split; [done|].
    destruct (fs_handles f !! h) as [j|]; [|done]. simpl in *. rewrite lookup_alter.
    case_decide; [subst|done]. by destruct (fs_inodes f !! j).
Qed.

(** A [Get] adds one handle on a hit, on the chunk; none otherwise. *)
Lemma Get_hoare Hs c key v off :
  hoare (J marker_content f0 Hs) (Get (Some c) key v off)
    (fun r f => (exists c', fst r = Some c' /\ same_config c c') /\
                match snd r with
                | inr (Some (h, size)) =>
                    exists d, gives marker_content Hs h d f /\ size = Z.of_nat (length d) /\ found c key v off d f
                | _ => J marker_content f0 Hs f
                end) (stable marker_content f0).
Proof.
  assert (exists c0, Some c = Some c0 /\ same_config c c0) as Hc0 by (by exists c).
  unfold Get. eapply hoare_bind; [apply J_path|].
  intros [e|p]; [apply hoare_ret; by intros f [? _]|]. apply hoare_pure_r. intros (rt & -> & Hrt).
  eapply hoare_bind; [by apply open_chunk_hoare|]. intros [c' co]. apply hoare_pure. cbn [fst snd]. intros Hc.
  assert (exists c0, Some c' = Some c0 /\ same_config c c0) as Hc' by (by exists c').
  destruct co as [e|[e|[h p']]].
  - by apply hoare_ret.
  - apply hoare_ret. intros f Hf. by destruct (errors.IsNotExist e).
  - apply hoare_exists. intros d. eapply hoare_conseq; [apply (Get_tail_hoare Hs (Some c') h p' d (found c key v off d))| | |].
    + intros f f'. apply found_view.
    + done.
    + intros [oc r] f [-> Hr]. cbn [fst snd] in *. split; [done|]. destruct r as [e|[[h' size]|]]; [done| |done].
      exists d. by destruct Hr as (? & ? & ?).
    + done.
Qed.
End put_get_spec.

(** ** Theorems on Get and Put *)
Section theorems.
Context `{TimeLayout}.

Lemma J_start X f : fs_wf f -> J X f (fs_handles f) f.
Proof. intros Hwf. split; [|done]. split; [done|]. intros q _. by left. Qed.

(** What a [Put] of these files does. *)
Lemma Put_outcome c key v off data w :
  fs_wf (w_fs w) ->
  match Put (Some c) key v off data w with
  | (w', Some r) =>
      (exists c', fst r = Some c' /\ same_config c c') /\
      match snd r with
      | inr (Some (h, p)) =>
          gives (w_fs w) (put_content key v off data) (fs_handles (w_fs w)) h data (w_fs w') /\
          file_data (w_fs w') p = Some data /\ exists rt, p = chunk_path rt key v off /\ root_for c rt
      | _ => J marker_content (w_fs w) (fs_handles (w_fs w)) (w_fs w')
      end
  | (w', None) => stable (put_content key v off data) (w_fs w) (w_fs w')
  end.
Proof.
  intros Hwf. apply (Put_hoare (w_fs w) marker_content (put_content key v off data) (fs_handles (w_fs w)) c key v off data);
    [| | |by apply J_start].
  - intros rt t. by exists rt, t.
  - intros q b Hm. by right.
  - intros rt _. left. by exists rt.
Qed.

Lemma Put_stable c key v off data w :
  fs_wf (w_fs w) -> stable (put_content key v off data) (w_fs w) (w_fs (Put (Some c) key v off data w).1).
Proof.
  intros Hwf. pose proof (Put_outcome c key v off data w Hwf) as Hp.
  assert (forall f, J marker_content (w_fs w) (fs_handles (w_fs w)) f -> stable (put_content key v off data) (w_fs w) f) as HJ.
  { intros f [Hst _]. eapply stable_mono; [|exact Hst]. intros q b Hm. by right. }
  destruct (Put (Some c) key v off data w) as [w' [r|]]; [|exact Hp]. destruct Hp as [_ Hp]. simpl.
  destruct (snd r) as [e|[[h p]|]]; [by apply HJ| |by apply HJ]. by destruct Hp as [[? _] _].
Qed.

(** Whatever system call of a [Put] fails, and wherever the process dies
    in it, every finished path of the cache shows either what it showed
    before or one complete chunk (or one complete version marker): a torn
    chunk is never visible. *)
Theorem Put_never_tears c key v off data w q :
  fs_wf (w_fs w) -> is_tmp q = false ->
  let w' := (Put (Some c) key v off data w).1 in
  file_data (w_fs w') q = file_data (w_fs w) q \/
  exists d, put_content key v off data q d /\ file_data (w_fs w') q = Some d.
Proof.
  intros Hwf Hq. pose proof (Put_stable c key v off data w Hwf) as [_ Hst]. by apply Hst.
Qed.

(** A [Put] that reports success has published exactly [data] at the
    chunk's path and returns one new handle that reads it; one that reports
    an error has left no handle open. *)
Theorem Put_success_or_no_handle c key v off data w w' r :
  fs_wf (w_fs w) -> Put (Some c) key v off data w = (w', Some r) ->
  match snd r with
  | inr (Some (h, p)) =>
      (exists rt, p = chunk_path rt key v off) /\
      file_data (w_fs w') p = Some data /\
      handle_data (w_fs w') h = Some data /\
      fs_handles (w_fs w) !! h = None /\
      delete h (fs_handles (w_fs w')) = fs_handles (w_fs w)
  | _ => fs_handles (w_fs w') = fs_handles (w_fs w)
  end.
Proof.
  intros Hwf He. pose proof (Put_outcome c key v off data w Hwf) as Hp. rewrite He in Hp. destruct Hp as [_ Hp].
  destruct (snd r) as [e|[[h p]|]]; [by apply Hp| |by apply Hp].
  destruct Hp as ((_ & ? & ? & ?) & ? & rt & ? & _). by split; [exists rt|].
Qed.

(** Under any fault schedule a [Get] opens exactly one handle on a hit,
    reports as size what that handle reads, and leaves no handle behind on a
    miss or an error. *)
Theorem Get_handles c key v off w w' r :
  fs_wf (w_fs w) -> Get (Some c) key v off w = (w', Some r) ->
  match snd r with
  | inr (Some (h, size)) =>
      exists d, handle_data (w_fs w') h = Some d /\ size = Z.of_nat (length d) /\
        fs_handles (w_fs w) !! h = None /\
        delete h (fs_handles (w_fs w')) = fs_handles (w_fs w)
  | _ => fs_handles (w_fs w') = fs_handles (w_fs w)
  end.
Proof.
  intros Hwf He. pose proof (Get_hoare (w_fs w) (fs_handles (w_fs w)) c key v off w
    (J_start _ _ Hwf)) as Hp.
  rewrite He in Hp. destruct Hp as [_ Hp]. destruct (snd r) as [e|[[h p]|]]; [by apply Hp| |by apply Hp].
  destruct Hp as (d & (_ & ? & ? & ?) & ? & _). eauto.
Qed.

(** *** The functional behaviour, without faults *)

Lemma root_fixed c key w :
  fixed_root c -> root c key w = (w, Some (inr (root_of c, sha1hex key))).
Proof. intros Hf. unfold root, getDir. unfold fixed_root in Hf. by rewrite Hf. Qed.

Lemma path_fixed c key v off w :
  fixed_root c -> path c key v off w = (w, Some (inr (chunk_path (root_of c) key v off))).
Proof. intros Hf. unfold path. by rewrite alone_bind, root_fixed. Qed.

Lemma versionedSince_memo c key t w :
  fixed_root c -> since c !! root_of c = Some t ->
  versionedSince c key w = (w, Some (c, inr t)).
Proof.
  intros Hf Ht. unfold versionedSince. rewrite alone_bind, root_fixed, alone_bind by done.
  unfold markerTime. by rewrite Ht.
Qed.

Lemma Open_calm p f :
  fs_wf f ->
  match file_data f p with
  | Some d => exists f' h, os.Open p (calm f) = (calm f', Some (inr h)) /\
      handle_data f' h = Some d /\ is_Some (fs_files f' !! p) /\ fs_dirs f' = fs_dirs f
  | None => os.Open p (calm f) = (calm f, Some (inl (os.ErrNotExist p)))
  end.
Proof.
  intros (H1 & _). unfold os.Open. rewrite sys_calm.
  unfold file_data, file_inode, os.Open_act.
  destruct (fs_files f !! p) as [i|] eqn:Hp; [|done]. simpl.
  destruct (H1 _ _ Hp) as [x Hx]. rewrite Hx. simpl. eexists _, _. split; [done|].
  unfold handle_data. simpl. rewrite lookup_insert_eq. simpl. by rewrite Hx, Hp.
Qed.

(** The end of [Get] once a file is open: its size, and the LRU touch. *)
Lemma Get_tail_calm {A} f h d p (a : Z -> A) (err : goerr -> A) :
  handle_data f h = Some d -> is_Some (fs_files f !! p) ->
  exists f', (let! info := os.Stat h in
    match info with
    | inl e => let! _ := os.Close h in io_ret (err e)
    | inr size => let! now := time.Now in let! _ := os.Chtimes p now in io_ret (a size)
    end) (calm f) = (calm f', Some (a (Z.of_nat (length d)))) /\ handle_data f' h = Some d /\ fs_dirs f' = fs_dirs f.
Proof.
  intros Hd [i Hp]. exists (os.set_mtime p (fs_now f) f).
  erewrite io_bind_calm by (unfold os.Stat; rewrite sys_calm, Hd; done). cbn [fst snd]. cbv beta iota.
  erewrite io_bind_calm by done.
  erewrite io_bind_calm by (unfold os.Chtimes; rewrite sys_calm, Hp; done). split; [done|].
  unfold os.set_mtime, handle_data in *. rewrite Hp. simpl.
  destruct (fs_handles f !! h) as [j|]; [|done]. simpl in *. rewrite lookup_alter.
  case_decide; [subst|done]. by destruct (fs_inodes f !! j).
Qed.

(** As far as is known, the object has not changed since the time [t]. *)
Definition unchanged_since (t : Z) (v : objVersion) : bool :=
  (t =? time_zero) || (modified v =? time_zero) || (modified v <? t).

(** What a lookup should find: the chunk of this version, or the
    pre-versioning chunk when the marker time allows it. *)
Definition cache_lookup (f : fsys) (rt : string) (t : Z) (key : string) (v : objVersion)
    (off : Z) : option bytes :=
  match file_data f (chunk_path rt key v off) with
  | Some d => Some d
  | None =>
      if negb (String.eqb (etag v) "") && unchanged_since t v
      then file_data f (chunk_path rt key noVersion off) else None
  end.

(** C18: storing a chunk of one version of an object changes nothing about
    what a lookup of another version finds, whatever fails during the
    store: a re-uploaded object never sees its old bytes, nor the old
    object the new ones. *)
Theorem versions_isolated c key v1 off1 data w rt t v2 off2 :
  fs_wf (w_fs w) -> etag v1 <> "" -> etag v2 <> etag v1 ->
  no_collision key v2 off2 key v1 off1 -> no_collision key noVersion off2 key v1 off1 ->
  cache_lookup (w_fs (Put (Some c) key v1 off1 data w).1) rt t key v2 off2 =
  cache_lookup (w_fs w) rt t key v2 off2.
Proof.
  intros Hwf H1 H2 Hcol2 Hcol0.
  assert (forall v, no_collision key v off2 key v1 off1 -> etag v <> etag v1 ->
    file_data (w_fs (Put (Some c) key v1 off1 data w).1) (chunk_path rt key v off2) =
    file_data (w_fs w) (chunk_path rt key v off2)) as Hkeep.
  { intros v [_ Hcol] Hv.
    destruct (Put_stable c key v1 off1 data w Hwf) as [_ Hst].
    destruct (Hst _ (chunk_path_not_tmp rt key v off2)) as [->|(d & [(rt' & Hp & _)|(rt' & t' & Hp & _)] & _)];
      [done|exfalso..].
    - apply (f_equal filepath.Base) in Hp. rewrite !Base_chunk_path in Hp.
      by apply Hcol, chunk_name_inj in Hp as [_ ?].
    - by apply chunk_path_not_marker in Hp. }
  unfold cache_lookup. rewrite !Hkeep; [done|done|simpl; congruence|done..].
Qed.

(** C40: a shard's version time, once read or written successfully, is on
    disk: after any restart the same marker reads as the same time, and
    reading it changes nothing. *)
Theorem marker_persists rt w w' t :
  fs_wf (w_fs w) -> readOrCreateMarker rt w = (w', Some (inr t)) ->
  readOrCreateMarker rt (calm (w_fs w')) = (calm (w_fs w'), Some (inr t)).
Proof.
  intros Hwf He.
  pose proof (readOrCreateMarker_hoare marker_content (w_fs w)
    (fun rt t => ex_intro _ rt (ex_intro _ t (conj eq_refl eq_refl)))
    (fs_handles (w_fs w)) rt w (J_start _ _ Hwf)) as Hm.
  rewrite He in Hm. destruct Hm as (_ & b & Hb & Hp).
  unfold readOrCreateMarker, os.ReadFile.
  rewrite alone_bind, sys_calm, Hb. simpl. by rewrite Hp.
Qed.
(** On a healthy disk a [Put] succeeds: nothing but a file in the way of
    its directories, a directory at the chunk's own path or the loss of
    the random name stops it. *)
Theorem Put_succeeds c key v off data f r rs :
  fixed_root c -> (etag v = "" \/ is_Some (since c !! root_of c)) ->
  let p := chunk_path (root_of c) key v off in
  let dir := filepath.Dir p in
  Forall (fun a => fs_files f !! a = None) (ancestors dir) ->
  is_dir f p = false -> p ∉ ancestors dir ->
  fs_rand f = r :: rs ->
  fs_files f !! os.temp_name dir ".tmp_chunk_" r = None ->
  is_dir (os.add_dirs (ancestors dir) f) (os.temp_name dir ".tmp_chunk_" r) = false ->
  exists w' h, Put (Some c) key v off data (calm f) = (w', Some (Some c, inr (Some (h, p)))).
Proof.
  intros Hf Hv p dir Hanc Hp Hpa Hr Htf Htd. unfold Put.
  rewrite (io_bind_calm _ _ f f c).
  2:{ destruct (String.eqb_spec (etag v) "") as [|Hne]; [done|].
      destruct Hv as [?|[t Ht]]; [done|]. by rewrite alone_bind, (versionedSince_memo c key t). }
  rewrite (io_bind_calm _ _ _ _ _ (path_fixed c key v off (calm f) Hf)).
  cbv beta iota zeta. fold p dir.
  set (l := ancestors dir) in *. set (f1 := os.add_dirs l f) in *.
  rewrite (io_bind_calm _ _ f f1 (inr tt)).
  2:{ unfold os.MkdirAll. rewrite sys_calm. unfold dir. rewrite filepath.Clean_Dir. fold dir l.
      rewrite bool_decide_false; [done|]. rewrite Exists_exists. intros (a & Ha & x & Hx).
      rewrite Forall_forall in Hanc. by rewrite Hanc in Hx. }
  assert (is_dir f1 dir = true) as Hd.
  { unfold is_dir, f1, os.add_dirs. simpl. rewrite bool_decide_true; [done|].
    apply elem_of_union_l, elem_of_list_to_set, ancestors_self. }
  set (name := os.temp_name dir ".tmp_chunk_" r) in *.
  cbv beta iota. eexists _, (S (fs_next f)).
  erewrite io_bind_calm.
  2:{ unfold os.CreateTemp. rewrite sys_calm. unfold os.CreateTemp_act.
      rewrite Hd. simpl. rewrite Hr. simpl. fold name. rewrite Htd, Htf.
      rewrite bool_decide_false by (by intros [? ?]). simpl. reflexivity. }
  cbv beta iota. erewrite io_bind_calm by (unfold os.Write; by rewrite sys_calm).
  cbn [fst snd]. cbv beta iota. erewrite (io_bind_calm _ _ _ _ (inr tt)); [reflexivity|].
  unfold os.Rename. rewrite sys_calm. unfold os.append. cbn -[is_dir]. rewrite lookup_insert_eq.
  cbn -[is_dir]. unfold os.Rename_act. cbn -[is_dir]. rewrite lookup_insert_eq. cbn -[is_dir].
  assert (is_dir f1 p = false) as Hp1.
  { unfold is_dir in *. apply orb_false_iff in Hp as [Hp ?]. apply orb_false_iff in Hp as [Hp ?].
    apply orb_false_iff; split; [apply orb_false_iff; split|]; [|done..].
    apply bool_decide_eq_false in Hp. apply bool_decide_eq_false. simpl.
    rewrite elem_of_union, elem_of_list_to_set. tauto. }
  unfold is_dir in *. cbn in *. rewrite Hp1. cbn. fold dir. by rewrite Hd.
Qed.
End theorems.

(** ** Every operation returns, whatever its system calls report *)

Lemma alive_root c key : alive (root c key).
Proof. unfold root, getDir, listShards, os.ReadDir, os.MkdirAll. destruct (filepath.SplitLast _). alive. Qed.

#[export] Hint Resolve alive_root : alive.

Lemma alive_path c key v off : alive (path c key v off).
Proof. unfold path. alive. Qed.

#[export] Hint Resolve alive_path : alive.

Section alive.
Context `{TimeLayout}.

Lemma alive_versionedSince c key : alive (versionedSince c key).
Proof.
  unfold versionedSince, markerTime, readOrCreateMarker, os.ReadFile, os.MkdirAll, os.CreateTemp, os.Write, os.Sync,
    os.Close, os.Rename, os.Remove. alive.
Qed.
#[local] Hint Resolve alive_versionedSince : alive.

Lemma alive_Get c key v off : alive (Get c key v off).
Proof. unfold Get, open_chunk, os.Open, os.Stat, os.Close, os.Chtimes. alive. Qed.

Lemma alive_Put c key v off data : alive (Put c key v off data).
Proof. unfold Put, os.MkdirAll, os.CreateTemp, os.Write, os.Close, os.Rename, os.Remove. alive. Qed.
End alive.

(** ** A concrete cache *)
Module examples.
Definition t0 : Z := 1709210096000000000.
Definition c0 : DiskCache :=
  {| location := "/d/1"; subdir := "s3"; since := {[ "/d/1/s3" := t0 ]} |}.
Definition disk0 : fsys :=
  {| fs_dirs := {[ "/d"; "/d/1" ]}; fs_files := ∅; fs_inodes := ∅; fs_handles := ∅;
     fs_next := 0; fs_now := t0; fs_rand := [7; 8] |}.
Definition v1 : objVersion := {| etag := "e1"; modified := t0 + 1 |}.
Definition v2 : objVersion := {| etag := "e2"; modified := t0 + 1 |}.
Definition data0 : bytes := list_byte_of_string "payload".
Definition stored : world := (Put (Some c0) "b/k" v1 0 data0 (calm disk0)).1.
Definition path0 : string := "/d/1/s3/" +:+ strings.take 2 (sha1hex "b/k") +:+ "/" +:+
  sha1hex "b/k" +:+ "/" +:+ sha1hex "b/k:0:e1".

Lemma disk0_wf : fs_wf disk0.
Proof. split; [|split]; simpl; intros ? ? Hx; by rewrite lookup_empty in Hx. Qed.

Lemma stored_wf : fs_wf (w_fs stored).
Proof. apply (Put_stable c0 "b/k" v1 0 data0 (calm disk0) disk0_wf). Qed.
End examples.

Lemma Put_never_tears_witness :
  let w' := (Put (Some examples.c0) "b/k" examples.v1 0 examples.data0
    {| w_fs := examples.disk0; w_faults := [NoFault; NoFault; Dies 3] |}).1 in
  file_data (w_fs w') examples.path0 = file_data examples.disk0 examples.path0 \/
  exists d, put_content "b/k" examples.v1 0 examples.data0 examples.path0 d /\
    file_data (w_fs w') examples.path0 = Some d.
Proof.
  apply (Put_never_tears examples.c0 "b/k" examples.v1 0 examples.data0
    {| w_fs := examples.disk0; w_faults := [NoFault; NoFault; Dies 3] |}).
  - apply examples.disk0_wf.
  - vm_compute. reflexivity.
Defined.

Lemma Get_handles_witness :
  let w' := (Get (Some examples.c0) "b/k" examples.v1 0 examples.stored).1 in
  exists d, handle_data (w_fs w') 2 = Some d /\ 7 = Z.of_nat (length d) /\
    fs_handles (w_fs examples.stored) !! 2%nat = None /\
    delete 2%nat (fs_handles (w_fs w')) = fs_handles (w_fs examples.stored).
Proof.
  apply (Get_handles examples.c0 "b/k" examples.v1 0 examples.stored
    (Get (Some examples.c0) "b/k" examples.v1 0 examples.stored).1
    (Some examples.c0, inr (Some (2%nat, 7)))).
  - exact examples.stored_wf.
  - vm_compute. reflexivity.
Defined.

Lemma versions_isolated_witness :
  cache_lookup (w_fs (Put (Some examples.c0) "b/k" examples.v2 0 examples.data0 examples.stored).1)
    "/d/1/s3" examples.t0 "b/k" examples.v1 0 =
  cache_lookup (w_fs examples.stored) "/d/1/s3" examples.t0 "b/k" examples.v1 0.
Proof.
  apply (versions_isolated examples.c0 "b/k" examples.v2 0 examples.data0 examples.stored).
  - apply examples.stored_wf.
  - discriminate.
  - discriminate.
  - split; [done|]. intros Hc. vm_compute in Hc. discriminate.
  - split; [done|]. intros Hc. vm_compute in Hc. discriminate.
Defined.

Lemma marker_persists_witness :
  let w := (readOrCreateMarker "/d/1/s3" (calm examples.disk0)).1 in
  readOrCreateMarker "/d/1/s3" (calm (w_fs w)) = (calm (w_fs w), Some (inr examples.t0)).
Proof.
  apply (marker_persists "/d/1/s3" (calm examples.disk0)).
  - apply examples.disk0_wf.
  - vm_compute. reflexivity.
Defined.

Lemma Put_succeeds_witness :
  exists w' h, Put (Some examples.c0) "b/k" examples.v1 0 examples.data0 (calm examples.disk0) =
    (w', Some (Some examples.c0, inr (Some (h, chunk_path "/d/1/s3" "b/k" examples.v1 0)))).
Proof.
  apply (Put_succeeds examples.c0 "b/k" examples.v1 0 examples.data0 examples.disk0 7 [8]).
  - vm_compute. reflexivity.
  - right. exists examples.t0. vm_compute. reflexivity.
  - vm_compute. repeat constructor.
  - vm_compute. reflexivity.
  - apply (bool_decide_unpack _). vm_compute. exact I.
  - reflexivity.
  - vm_compute. reflexivity.
  - vm_compute. reflexivity.
Defined.

(** An older chunk is trusted by the object's date and the marker's alone: one
    cached (here ten nanoseconds) before the marker is served for an object
    that was uploaded again after that and before the marker. *)
Lemma legacy_window :
  let p := chunk_path "/d/1/s3" "b/k" noVersion 0 in
  let cached := Inode (list_byte_of_string "old bytes") (examples.t0 - 10) in
  let v := {| etag := "e2"; modified := examples.t0 - 1 |} in
  let f := set_inodes {[ 0%nat := cached ]} (set_files {[ p := 0%nat ]} examples.disk0) in
  i_mtime cached < modified v /\
  exists f' c' h, Get (Some examples.c0) "b/k" v 0 (calm f) = (calm f', Some (c', inr (Some (h, 9)))) /\
    handle_data f' h = Some (i_data cached).
Proof. split; [done|]. eexists _, _, _. split; vm_compute; reflexivity. Qed.
