(* ===== verification/Shards.v ===== *)
(** * The cache over several shards (services/cache.go: getDir, listShards, distributeByHash)

    The default location, [/webtor/data*], stands for all directories with
    that prefix. Which of them holds a key, stated of the directories there
    are, and what follows for [Put] and [Get]: a chunk that was stored is
    found again, and a lookup finds what it should. *)
From S2P Require Import Prelude GoStd GoTime Http Path Sha1 Fs DiskCache.

Module shards.
Import filepath.

(** ** Directories *)

Lemma length_Joined k : Forall plain k -> (length k <= String.length (Joined k))%nat.
Proof.
  induction 1 as [|x k (_ & Hx & _) Hk IH]; [done|]. assert (1 <= String.length x)%nat as H1 by (destruct x; simpl; [done|lia]).
  destruct k as [|y k]; [simpl in *; lia|].
  change (Joined (x :: y :: k)) with (x +:+ String slash (Joined (y :: k))). rewrite strings.length_append.
  cbn [length String.length] in *. lia.
Qed.

Lemma abs_child n k b : k !! n = Some b -> Forall plain k -> take (S n) k = take n k ++ [b] /\ plain b /\ Forall plain (take n k).
Proof.
  intros Hn Hk. split; [by apply take_S_r|]. split; [by eapply Forall_lookup_1|by apply Forall_take].
Qed.

(** A clean absolute path, and the directories above it. *)
Lemma ancestors_abs k : Forall plain k -> ancestors (abs k) = (fun i => abs (take i k)) <$> seq 0 (S (length k)).
Proof.
  intros Hk. assert (forall n fuel acc, (n <= length k)%nat -> (n <= fuel)%nat ->
    ancestors_go fuel (abs (take n k)) acc = ((fun i => abs (take i k)) <$> seq 0 (S n)) ++ acc) as Hgo.
  { induction n as [|n IH]; intros fuel acc Hn Hf.
    { rewrite take_0. by destruct fuel. }
    destruct fuel as [|fuel]; [lia|]. destruct (lookup_lt_is_Some_2 k n) as [b Hb]; [lia|].
    destruct (abs_child n k b Hb Hk) as (Ht & Hpb & Hpt). cbn [ancestors_go]. rewrite Ht, Dir_abs by done.
    destruct (String.eqb_spec (abs (take n k)) (abs (take n k ++ [b]))) as [He|_].
    { apply abs_inj in He; [|done|apply Forall_app; by auto]. apply (f_equal length) in He. rewrite length_app in He.
      simpl in He. lia. }
    rewrite IH by lia. rewrite (seq_S (S n)), fmap_app, <- app_assoc. simpl. by rewrite Ht. }
  unfold ancestors. rewrite <- (firstn_all k) at 2. rewrite Hgo.
  - by rewrite app_nil_r.
  - done.
  - unfold abs. simpl. pose proof (length_Joined k Hk). lia.
Qed.

(** Directories are named by clean absolute paths, and what contains one is
    one. *)
Definition tidy (f : fsys) : Prop :=
  forall q, q ∈ fs_dirs f -> exists k, Forall plain k /\ q = abs k /\ is_dir f (Dir q) = true.

Lemma tidy_same f f' : fs_dirs f' = fs_dirs f -> tidy f -> tidy f'.
Proof. unfold tidy, is_dir. intros ->. done. Qed.

Lemma is_dir_add l f q : is_dir f q = true -> is_dir (os.add_dirs l f) q = true.
Proof.
  unfold is_dir. rewrite !orb_true_iff, !bool_decide_eq_true. simpl. intros [[?|?]|?]; [left; left|left; by right|by right].
  set_solver.
Qed.

(** What [os.MkdirAll] has made, however far it got. *)
Lemma elem_of_made n k q :
  Forall plain k -> q ∈ take n (ancestors (abs k)) <-> exists i, (i < n)%nat /\ (i <= length k)%nat /\ q = abs (take i k).
Proof.
  intros Hk. rewrite ancestors_abs, <- fmap_take, list_elem_of_fmap by done. split.
  - intros (i & -> & (j & Hi & Hj)%elem_of_take). apply lookup_seq in Hi. exists i. split; [lia|split; [lia|done]].
  - intros (i & Hi & Hl & ->). exists i. split; [done|]. apply elem_of_take. exists i.
    split; [apply lookup_seq; lia|lia].
Qed.

Lemma tidy_made n k f : Forall plain k -> tidy f -> tidy (os.add_dirs (take n (ancestors (abs k))) f).
Proof.
  intros Hk Hf q. simpl. rewrite elem_of_union, elem_of_list_to_set, elem_of_made by done.
  intros [(i & Hi & Hl & ->)|(kq & ? & ? & ?)%Hf].
  - exists (take i k). split; [by apply Forall_take|]. split; [done|]. destruct i as [|i].
    { rewrite take_0. unfold is_dir. rewrite !orb_true_iff. left. by right. }
    destruct (lookup_lt_is_Some_2 k i) as [b Hb]; [lia|]. destruct (abs_child i k b Hb Hk) as (-> & Hpb & Hpt).
    rewrite Dir_abs by done. unfold is_dir. rewrite !orb_true_iff, bool_decide_eq_true. left. left. simpl.
    rewrite elem_of_union, elem_of_list_to_set, elem_of_made by done. left. exists i. split; [lia|split; [lia|done]].
  - exists kq. split; [done|]. split; [done|]. by apply is_dir_add.
Qed.

Lemma tidy_removed p f : tidy f -> tidy (os.Remove_act p f).1.
Proof.
  intros Hf. unfold os.Remove_act. destruct (fs_files f !! p); [by eapply tidy_same|].
  case_bool_decide as Hp; [|done]. destruct (os.children f p) as [|x l] eqn:Hc; [|done]. simpl.
  intros q [Hq Hne]%elem_of_difference. apply not_elem_of_singleton in Hne. destruct (Hf q Hq) as (k & ? & ? & Hd).
  exists k. split; [done|]. split; [done|]. unfold is_dir in *. rewrite !orb_true_iff, !bool_decide_eq_true in *. simpl.
  destruct Hd as [[Hd|?]|?]; [|left; by right|by right]. left. left. apply elem_of_difference. split; [done|].
  apply not_elem_of_singleton. intros Hx. assert (q ∈ os.children f p) as Hin; [|by rewrite Hc in Hin; apply elem_of_nil in Hin].
  unfold os.children. apply list_elem_of_filter. split; [done|]. apply elem_of_elements. set_solver.
Qed.

(** ** The shards, and the one a key lives in *)

(** The location [prefix*], of absolute paths, with one name for the
    subdirectory. *)
Definition multi (c : DiskCache) (prefix : string) : Prop :=
  location c = prefix +:+ "*" /\ rooted prefix = true /\ plain (subdir c).

Definition is_shard (prefix q : string) : Prop :=
  Dir q = Dir prefix /\ q <> Dir prefix /\ strings.HasPrefix (Base q) (Base prefix) = true.
#[global] Instance is_shard_dec prefix q : Decision (is_shard prefix q).
Proof. unfold is_shard. apply _. Defined.

(** The directories the location stands for, in order. *)
Definition shards (prefix : string) (f : fsys) : list string :=
  sortStrings (elements (filter (is_shard prefix) (fs_dirs f))).

Lemma elem_of_shards prefix f q : q ∈ shards prefix f <-> q ∈ fs_dirs f /\ is_shard prefix q.
Proof. unfold shards. rewrite (sortStrings_Permutation _), elem_of_elements, elem_of_filter. tauto. Qed.

(** A key's place among [n] shards: the first five digits of a digest are a
    number below 2^20, and the range is cut into [n] equal pieces. *)
Definition slot (n : nat) (key : string) : nat :=
  match ParseHex (strings.take 5 (sha1hex (sha1hex key))) with
  | inr x =>
      let piece := 1048575000 / Z.of_nat n in
      if piece =? 0 then pred n else Nat.min (pred n) (Z.to_nat (x * 1000 / piece))
  | inl _ => 0
  end.

(** The shard root a key's chunks live in; none without a shard. *)
Definition home (c : DiskCache) (key : string) (f : fsys) : option string :=
  if strings.HasSuffix (location c) "*" then
    let l := shards (strings.TrimSuffix (location c) "*") f in
    (fun s => Join [s; subdir c]) <$> l !! slot (length l) key
  else Some (root_of c).

Lemma home_multi c prefix key f :
  multi c prefix -> home c key f = (fun s => Join [s; subdir c]) <$> shards prefix f !! slot (length (shards prefix f)) key.
Proof. intros (Hl & _). unfold home. by rewrite Hl, strings.HasSuffix_app, strings.TrimSuffix_app. Qed.

Lemma pick_shard_slot num piece n i ds last :
  0 <= num -> 0 < piece -> n * piece <= 1048575000 -> 0 <= i -> i + Z.of_nat (length ds) = n -> i * piece <= num ->
  pick_shard num piece i ds last = default last (ds !! Z.to_nat (num / piece - i)).
Proof.
  intros Hn Hp Hmax Hi Hl Hlow. revert i Hi Hl Hlow. induction ds as [|d ds IH]; intros i Hi Hl Hlow; [done|].
  cbn [pick_shard length] in *. assert (i + 1 <= 1048575000) by nia. assert ((i + 1) * piece <= 1048575000) by nia.
  rewrite (wrap64_small (i + 1)), wrap64_small by (unfold int64_min, int64_max; nia).
  destruct (Z.ltb_spec num ((i + 1) * piece)) as [Hlt|Hge].
  - assert (num / piece = i) as -> by (symmetry; apply (Z.div_unique num piece i (num - i * piece)); lia).
    by rewrite Z.sub_diag.
  - rewrite IH by lia. assert (i + 1 <= num / piece) by (apply Z.div_le_lower_bound; lia).
    by replace (Z.to_nat (num / piece - i)) with (S (Z.to_nat (num / piece - (i + 1)))) by lia.
Qed.

Lemma pick_shard_last num i ds last : 0 <= num -> pick_shard num 0 i ds last = last.
Proof.
  intros Hn. revert i. induction ds as [|d ds IH]; intros i; cbn [pick_shard]; [done|].
  rewrite Z.mul_0_r. change (wrap64 0) with 0. destruct (Z.ltb_spec num 0); [lia|apply IH].
Qed.

Lemma last_lookup (l : list string) d : l <> [] -> l !! pred (length l) = Some (List.last l d).
Proof.
  intros Hl. destruct (exists_last Hl) as (l' & x & ->). rewrite List.last_last, length_app. simpl.
  replace (pred (length l' + 1)) with (length l') by lia. by rewrite lookup_app_r, Nat.sub_diag by done.
Qed.

Lemma sortStrings_sorted l : sortStrings (sortStrings l) = sortStrings l.
Proof. apply sortStrings_ext, sortStrings_Permutation. Qed.

Lemma distributeByHash_slot l key :
  l <> [] ->
  exists s, distributeByHash l (sha1hex key) = inr s /\ sortStrings l !! slot (length l) key = Some s.
Proof.
  intros Hne. unfold distributeByHash, slot. destruct (shard_hash_parses (sha1hex key)) as (x & -> & Hx).
  pose proof (Permutation_length (sortStrings_Permutation l)) as Hlen.
  destruct (sortStrings l) as [|d0 rest] eqn:Hs; [by destruct l|]. rewrite <- Hs in *. eexists. split; [reflexivity|].
  assert (sortStrings l <> []) as Hsn by (by rewrite Hs). rewrite <- Hlen in *.
  assert (0 < Z.of_nat (length (sortStrings l))) as Hpos by (rewrite Hs; simpl; lia).
  set (n := length (sortStrings l)) in *. rewrite Z.quot_div_nonneg by lia.
  change (1048575 * 1000) with 1048575000.
  assert (0 <= 1048575000 / Z.of_nat n <= 1048575000) as Hq.
  { split; [apply Z.div_pos; lia|]. apply Z.div_le_upper_bound; [lia|nia]. }
  rewrite (wrap64_small (_ / _)), (wrap64_small (x * 1000)) by (unfold int64_min, int64_max in *; lia).
  destruct (Z.eqb_spec (1048575000 / Z.of_nat n) 0) as [->|Hz].
  - rewrite pick_shard_last by lia. by apply last_lookup.
  - assert (Z.of_nat n * (1048575000 / Z.of_nat n) <= 1048575000) by (apply Z.mul_div_le; lia).
    rewrite (pick_shard_slot _ _ (Z.of_nat n)) by (try lia; try (unfold n; lia)). rewrite Z.sub_0_r.
    set (i := Z.to_nat _). destruct (decide (i < n)%nat) as [Hi|Hi].
    + replace (Nat.min (pred n) i) with i by lia. by destruct (lookup_lt_is_Some_2 (sortStrings l) i Hi) as [y ->].
    + replace (Nat.min (pred n) i) with (pred n) by lia. rewrite (lookup_ge_None_2 (sortStrings l) i) by (fold n; lia).
      by apply last_lookup.
Qed.

Lemma tidy_child f q k :
  tidy f -> q ∈ fs_dirs f -> Forall plain k -> Dir q = abs k -> q <> abs k ->
  exists b, plain b /\ q = abs (k ++ [b]) /\ Base q = b.
Proof.
  intros Hf Hq Hk Hd Hne. destruct (Hf q Hq) as (kq & Hkq & -> & _).
  destruct (decide (kq = [])) as [->|Hn]; [by destruct Hne; rewrite <- Hd|].
  destruct (exists_last Hn) as (k' & b & ->). apply Forall_app in Hkq as [Hk' [Hb _]%Forall_cons].
  rewrite Dir_abs in Hd by done. apply abs_inj in Hd as ->; [|done..]. exists b. by rewrite Base_abs.
Qed.

Lemma filter_map {A B} (g : A -> B) (P : B -> Prop) `{forall x, Decision (P x)} (l : list A) :
  filter P (g <$> l) = g <$> filter (fun x => P (g x)) l.
Proof.
  induction l as [|x l IH]; [done|]. cbn [fmap list_fmap]. rewrite !filter_cons, IH. by repeat case_decide.
Qed.

(** What [listShards] makes of the directory's entries. *)
Lemma entries_shards prefix d f :
  rooted prefix = true -> SplitLast prefix = (d, Base prefix) -> tidy f ->
  sortStrings ((fun e => Join [d; fst e]) <$>
    filter (fun e => snd e = true /\ strings.HasPrefix (fst e) (Base prefix) = true) (os.entries f (Clean d))) =
  shards prefix f.
Proof.
  intros Hr Hsp Hf. destruct (prefix_spec prefix Hr) as (d' & k & Hsp' & Hd & Hrd & Hck & Hk & Hcl & Hdir & _ & _).
  assert (d' = d) as -> by congruence. clear Hsp'. rewrite Hcl. apply sortStrings_ext.
  unfold os.entries. rewrite filter_map, <- list_fmap_compose.
  set (l := filter _ (merge_sort String.le _)).
  assert (forall q, q ∈ l <-> q ∈ fs_dirs f /\ is_shard prefix q) as Hl.
  { intros q. unfold l, is_shard. rewrite list_elem_of_filter, (merge_sort_Permutation _ _). unfold os.children.
    rewrite list_elem_of_filter, elem_of_elements, elem_of_union, elem_of_dom, Hdir. cbn [fst snd].
    rewrite bool_decide_eq_true.
    split; [intros [[? ?] [[? ?] _]]|intros (? & ? & ? & ?)]; by auto 6. }
  assert (NoDup l) as Hnd.
  { unfold l. apply NoDup_filter. rewrite merge_sort_Permutation. apply NoDup_filter, NoDup_elements. }
  assert (forall q, q ∈ l -> Join [d; Base q] = q) as Hj.
  { intros q (Hq & Hdq & Hne & _)%Hl. rewrite Hdir in *. destruct (tidy_child f q k Hf Hq Hk Hdq Hne) as (b & Hb & -> & ->).
    by rewrite Join_abs, Hck by (done || (constructor; [done|constructor])). }
  assert ((fun x => Join [d; fst (Base x, bool_decide (x ∈ fs_dirs f))]) <$> l = l) as Hid.
  { clear Hl Hnd. induction l as [|q l IH]; [done|]. cbn [fmap list_fmap fst]. rewrite Hj by apply list_elem_of_here.
    f_equal. apply IH. intros q' Hq'. by apply Hj, list_elem_of_further. }
  unfold compose. rewrite Hid. apply NoDup_Permutation; [exact Hnd|apply NoDup_elements|].
  intros q. rewrite Hl, elem_of_elements, elem_of_filter. tauto.
Qed.

Lemma shards_no_dir prefix f : tidy f -> is_dir f (Dir prefix) = false -> shards prefix f = [].
Proof.
  intros Hf Hd. destruct (shards prefix f) as [|q l] eqn:Hs; [done|]. exfalso.
  assert (q ∈ shards prefix f) as [Hq (Hdq & _)]%elem_of_shards by (rewrite Hs; apply list_elem_of_here).
  destruct (Hf q Hq) as (_ & _ & _ & Hx). rewrite Hdq in Hx. congruence.
Qed.

(** ** A key keeps its shard *)

Lemma shards_only prefix f f' :
  filter (is_shard prefix) (fs_dirs f') = filter (is_shard prefix) (fs_dirs f) -> shards prefix f' = shards prefix f.
Proof. unfold shards. by intros ->. Qed.

Lemma home_shape c prefix key rt f :
  multi c prefix -> tidy f -> home c key f = Some rt ->
  exists k b, Forall plain (k ++ [b; subdir c]) /\ Dir prefix = abs k /\ abs (k ++ [b]) ∈ fs_dirs f /\
    rt = abs (k ++ [b; subdir c]).
Proof.
  intros Hm Hf. rewrite (home_multi c prefix key f Hm). intros (q & Hq%list_elem_of_lookup_2 & ->)%fmap_Some.
  apply elem_of_shards in Hq as [Hq (Hd & Hne & _)]. destruct Hm as (_ & Hr & Hsub).
  destruct (prefix_spec prefix Hr) as (d & k & _ & _ & _ & _ & Hk & _ & Hdir & _). rewrite Hdir in *.
  destruct (tidy_child f q k Hf Hq Hk Hd Hne) as (b & Hb & -> & _). exists k, b.
  assert (Forall plain (k ++ [b])) as Hkb by (apply Forall_app; auto).
  split; [apply Forall_app; by auto|]. split; [done|]. split; [done|].
  rewrite Join_abs_abs by auto. by rewrite <- app_assoc.
Qed.

(** What is made below a shard root adds no shard. *)
Lemma shards_made prefix k b l n f :
  Forall plain (k ++ b :: l) -> Dir prefix = abs k -> abs (k ++ [b]) ∈ fs_dirs f ->
  shards prefix (os.add_dirs (take n (ancestors (abs (k ++ b :: l)))) f) = shards prefix f.
Proof.
  intros Hk Hd Hb. pose proof Hk as [Hkk _]%Forall_app. apply shards_only, set_eq. intros x. rewrite !elem_of_filter. simpl.
  rewrite elem_of_union, elem_of_list_to_set, elem_of_made by done. unfold is_shard. rewrite Hd.
  split; [|tauto]. intros [(Hdx & Hne & Hp) [(i & _ & Hl & ->)|?]]; [|tauto]. split; [done|].
  destruct i as [|i]; [rewrite take_0 in *; by destruct Hne; rewrite <- Hdx|].
  destruct (lookup_lt_is_Some_2 (k ++ b :: l) i) as [y Hy]; [lia|].
  destruct (abs_child i _ y Hy Hk) as (Ht & Hpy & Hpt). rewrite Ht in *. rewrite Dir_abs in Hdx by done.
  apply abs_inj in Hdx; [|done..]. assert (i = length k) as ->.
  { apply (f_equal length) in Hdx. rewrite length_take in Hdx. rewrite length_app in *. simpl in *. lia. }
  rewrite Hdx. rewrite lookup_app_r, Nat.sub_diag in Hy by done. by injection Hy as <-.
Qed.

(** Nor does what is removed there take one away. *)
Lemma shards_removed prefix q f :
  Dir q <> Dir prefix -> shards prefix (os.Remove_act q f).1 = shards prefix f.
Proof.
  intros Hq. apply shards_only. unfold os.Remove_act. destruct (fs_files f !! q); [done|]. case_bool_decide; [|done].
  destruct (os.children f q); [|done]. apply set_eq. intros x. rewrite !elem_of_filter. simpl.
  rewrite elem_of_difference, elem_of_singleton. split; [tauto|]. intros [Hs Hx]. split; [done|]. split; [done|].
  intros ->. by destruct Hs.
Qed.

(** Without a shard, the first one is made. *)
Definition first_shard (prefix : string) : string := Clean (prefix +:+ "1").

Lemma plain_one b : strings.has_byte slash b = false -> plain (b +:+ "1").
Proof.
  intros Hb. split; [rewrite strings.has_byte_app; by rewrite Hb|]. split; [by destruct b|].
  split; [by destruct b as [|? [|]]|by destruct b as [|? [|? [|]]]].
Qed.

Lemma first_shard_abs prefix : rooted prefix = true -> exists k,
  Forall plain (k ++ [Base prefix +:+ "1"]) /\ Dir prefix = abs k /\
  clean_comps (prefix +:+ "1") = k ++ [Base prefix +:+ "1"] /\ first_shard prefix = abs (k ++ [Base prefix +:+ "1"]).
Proof.
  intros Hr. destruct (prefix_spec prefix Hr) as (d & k & _ & _ & _ & _ & Hk & _ & Hdir & Hb & Hx).
  pose proof (plain_one _ Hb) as Hp. exists k. split; [apply Forall_app; by auto|]. split; [done|].
  rewrite <- (Hx "1") by done. split; [done|]. unfold first_shard. apply Clean_rooted.
  rewrite rooted_app; [done|by intros ->].
Qed.

Lemma first_shard_made prefix f :
  rooted prefix = true -> shards prefix f = [] ->
  shards prefix (os.add_dirs (ancestors (first_shard prefix)) f) = [first_shard prefix].
Proof.
  intros Hr Hs. destruct (first_shard_abs prefix Hr) as (k & Hk & Hd & _ & ->). set (b := Base prefix +:+ "1") in *.
  pose proof Hk as [Hkk [Hb _]%Forall_cons]%Forall_app.
  assert (filter (is_shard prefix) (fs_dirs (os.add_dirs (ancestors (abs (k ++ [b]))) f)) = {[ abs (k ++ [b]) ]}) as He.
  2: { unfold shards. by rewrite He, elements_singleton. }
  apply set_eq. intros x. rewrite elem_of_filter, elem_of_singleton. simpl. rewrite elem_of_union, elem_of_list_to_set.
  rewrite <- (firstn_all (ancestors _)), elem_of_made by done. split.
  - intros [Hx [(i & _ & Hl & ->)|Hin]].
    2: { assert (x ∈ shards prefix f) as Hin' by (by apply elem_of_shards). rewrite Hs in Hin'. by apply elem_of_nil in Hin'. }
    destruct Hx as (Hdx & Hne & _). rewrite Hd in *.
    destruct i as [|i]; [rewrite take_0 in *; by destruct Hne; rewrite <- Hdx|].
    destruct (lookup_lt_is_Some_2 (k ++ [b]) i) as [y Hy]; [lia|].
    destruct (abs_child i _ y Hy Hk) as (Ht & Hpy & Hpt). rewrite Ht in *. rewrite Dir_abs in Hdx by done.
    apply abs_inj in Hdx; [|done..]. rewrite <- Ht. rewrite take_ge; [done|].
    apply (f_equal length) in Hdx. rewrite length_take in Hdx. rewrite length_app in *. simpl in *. lia.
  - intros ->. split.
    + unfold is_shard. rewrite Hd, Dir_abs, Base_abs by done. split; [done|]. split.
      * intros He%abs_inj; [|done..]. apply (f_equal length) in He. rewrite length_app in He. simpl in He. lia.
      * unfold strings.HasPrefix, b. apply strings.prefix_app.
    + left. exists (length (k ++ [b])). rewrite ancestors_abs, length_fmap, length_seq by done.
      split; [lia|]. split; [done|]. by rewrite take_ge.
Qed.

(** ** Runs in which no failure is a lie

    A call that fails may fail in any way, but not with the claim that a file
    or directory does not exist: [choare] is [hoare] for such runs. *)
Definition candid (x : fault) : Prop :=
  match x with Fails e _ => errors.IsNotExist e = false | _ => True end.

Definition choare {A} (P : fsys -> Prop) (m : M A) (Q : A -> fsys -> Prop) : Prop :=
  forall w, Forall candid (w_faults w) -> P (w_fs w) ->
    match m w with
    | (w', Some a) => Forall candid (w_faults w') /\ Q a (w_fs w')
    | (_, None) => True
    end.

Lemma choare_ret {A} (a : A) (P : fsys -> Prop) (Q : A -> fsys -> Prop) :
  (forall f, P f -> Q a f) -> choare P (io_ret a) Q.
Proof. intros HQ w Hw HP. split; [done|]. by apply HQ. Qed.

Lemma choare_bind {A B} (m : M A) (k : A -> M B) P R Q :
  choare P m R -> (forall a, choare (R a) (k a) Q) -> choare P (io_bind m k) Q.
Proof.
  intros Hm Hk w Hw HP. specialize (Hm w Hw HP). rewrite alone_bind. destruct (m w) as [w' [a|]]; [|done].
  destruct Hm. by apply Hk.
Qed.

Lemma choare_pre {A} (m : M A) (P P' : fsys -> Prop) Q : (forall f, P f -> P' f) -> choare P' m Q -> choare P m Q.
Proof. intros HP Hm w Hw H. by apply Hm, HP. Qed.

Lemma choare_pure {A} (φ : Prop) (P : fsys -> Prop) (m : M A) Q :
  (φ -> choare P m Q) -> choare (fun f => φ /\ P f) m Q.
Proof. intros Hm w Hw [Hφ HP]. by apply Hm. Qed.

Lemma choare_pure_r {A} (φ : Prop) (P : fsys -> Prop) (m : M A) Q :
  (φ -> choare P m Q) -> choare (fun f => P f /\ φ) m Q.
Proof. intros Hm w Hw [HP Hφ]. by apply Hm. Qed.

Lemma choare_exists {A X} (P : X -> fsys -> Prop) (m : M A) Q :
  (forall x, choare (P x) m Q) -> choare (fun f => exists x, P x f) m Q.
Proof. intros Hm w Hw [x HP]. by apply (Hm x). Qed.

Lemma choare_sys {A} part (act : fsys -> fsys * (goerr + A)) (P : fsys -> Prop) Q :
  (forall f, P f -> Q (act f).2 (act f).1) ->
  (forall f e n, errors.IsNotExist e = false -> P f -> Q (inl e) (part n f)) -> choare P (sys part act) Q.
Proof.
  intros Ha Hf w Hw HP. rewrite alone_sys. unfold sys_call. destruct (w_faults w) as [|x l]; simpl.
  { specialize (Ha _ HP). by destruct (act (w_fs w)). }
  inversion Hw as [|? ? Hx Hl]; subst. destruct x as [|e n|n]; [|split; [done|by apply Hf]|done].
  specialize (Ha _ HP). by destruct (act (w_fs w)).
Qed.

(** A call that leaves the directories alone. *)
Lemma choare_keep {A} part (act : fsys -> fsys * (goerr + A)) (P : fsys -> Prop) :
  (forall f f', fs_dirs f' = fs_dirs f -> P f -> P f') ->
  (forall f, fs_dirs (act f).1 = fs_dirs f) -> (forall n f, fs_dirs (part n f) = fs_dirs f) ->
  choare P (sys part act) (fun _ => P).
Proof. intros HP Ha Hp. apply choare_sys; eauto. Qed.

(** What [P] says stays true of what the cache does below [rt]. *)
Record sturdy (rt : string) (P : fsys -> Prop) : Prop := {
  st_dirs f f' : fs_dirs f' = fs_dirs f -> P f -> P f';
  st_made l n f : Forall plain l -> P f -> P (os.add_dirs (take n (ancestors (Clean (Join (rt :: l))))) f);
  st_removed pre r f : strings.has_byte slash pre = false -> P f -> P (os.Remove_act (os.temp_name rt pre r) f).1;
}.

Lemma made_abs k l : Forall plain k -> Forall plain l -> Clean (Join (abs k :: l)) = abs (k ++ l).
Proof.
  intros Hk Hl. destruct l as [|x l].
  - rewrite app_nil_r. change (Join [abs k]) with (Clean (abs k)). by rewrite Clean_idemp, Clean_abs.
  - rewrite Join_abs_abs by done. by apply Clean_abs, Forall_app.
Qed.

Lemma Dir_temp rt pre r : rt <> "" -> strings.has_byte slash pre = false -> Dir (os.temp_name rt pre r) = Clean rt.
Proof.
  intros Hr Hp. unfold os.temp_name, Dir. rewrite SplitLast_app; [cbn [fst]; by apply Clean_slash|].
  rewrite strings.has_byte_app, Hp. by apply strconv.FormatInt_no_byte.
Qed.

Lemma sturdy_tidy k : Forall plain k -> sturdy (abs k) tidy.
Proof.
  intros Hk. split.
  - intros f f'. apply tidy_same.
  - intros l n f Hl. rewrite made_abs by done. apply tidy_made, Forall_app. auto.
  - intros pre r f _. apply tidy_removed.
Qed.

(** The root [c] resolves a key to. *)
Definition lives (c : DiskCache) (key rt : string) (f : fsys) : Prop :=
  (fixed_root c /\ rt = root_of c) \/ (exists prefix, multi c prefix /\ tidy f /\ home c key f = Some rt).

Lemma lives_home c key rt f : lives c key rt f -> home c key f = Some rt.
Proof. intros [[Hf ->]|(prefix & _ & _ & ?)]; [|done]. unfold home, fixed_root in *. by rewrite Hf. Qed.

Lemma lives_config c c' key rt f : same_config c c' -> lives c key rt f -> lives c' key rt f.
Proof. intros [Hl Hs]. unfold lives, fixed_root, root_of, multi, home, root_of. by rewrite Hl, Hs. Qed.

Lemma sturdy_lives c key rt : sturdy rt (lives c key rt).
Proof.
  split.
  - intros f f' Hd [?|(prefix & Hm & Hf & Hh)]; [by left|right]. exists prefix. split; [done|]. split; [by eapply tidy_same|].
    rewrite (home_multi c prefix) in * by done. unfold shards in *. by rewrite Hd.
  - intros l n f Hl [?|(prefix & Hm & Hf & Hh)]; [by left|right]. exists prefix. split; [done|].
    destruct (home_shape c prefix key rt f Hm Hf Hh) as (k & b & Hk & Hd & Hb & ->). rewrite made_abs by done.
    pose proof (proj2 (Forall_app plain (k ++ [b; subdir c]) l) (conj Hk Hl)) as Hkl. split; [by apply tidy_made|].
    rewrite (home_multi c prefix) in * by done. rewrite <- app_assoc in *. cbn [app] in *.
    by rewrite (shards_made prefix k b (subdir c :: l)).
  - intros pre r f Hp [?|(prefix & Hm & Hf & Hh)]; [by left|right]. exists prefix. split; [done|]. split; [by apply tidy_removed|].
    destruct (home_shape c prefix key rt f Hm Hf Hh) as (k & b & Hk & Hd & Hb & ->).
    rewrite (home_multi c prefix) in * by done. rewrite shards_removed; [done|].
    rewrite Dir_temp, Clean_abs, Hd by done. pose proof Hk as [Hkk _]%Forall_app. intros He%abs_inj; [|done..].
    apply (f_equal length) in He. rewrite length_app in He. simpl in He. lia.
Qed.

(** ** The shard the code picks *)

Lemma slot_one key : slot 1 key = O.
Proof. unfold slot. destruct (ParseHex _); [done|]. by case_match. Qed.

Lemma home_one c prefix key s f : multi c prefix -> shards prefix f = [s] -> home c key f = Some (Join [s; subdir c]).
Proof. intros Hm Hs. by rewrite (home_multi c prefix), Hs, slot_one. Qed.

Lemma home_many c prefix key f :
  multi c prefix -> shards prefix f <> [] ->
  exists s, distributeByHash (shards prefix f) (sha1hex key) = inr s /\ home c key f = Some (Join [s; subdir c]).
Proof.
  intros Hm Hs. destruct (distributeByHash_slot _ key Hs) as (s & Hd & Hl). exists s. split; [done|].
  assert (sortStrings (shards prefix f) = shards prefix f) as Hss by apply sortStrings_sorted. rewrite Hss in Hl.
  by rewrite (home_multi c prefix), Hl.
Qed.

Lemma home_first c prefix key f :
  multi c prefix -> shards prefix f = [] ->
  home c key (os.add_dirs (ancestors (first_shard prefix)) f) = Some (Join [prefix +:+ "1"; subdir c]).
Proof.
  intros Hm Hs. pose proof Hm as (_ & Hr & Hsub). rewrite (home_one c prefix key (first_shard prefix)) by (done || by apply first_shard_made).
  destruct (first_shard_abs prefix Hr) as (k & Hk & _ & Hc & ->). f_equal.
  assert (Forall plain [subdir c]) as Hs1 by (by constructor).
  rewrite Join_abs_abs, Join_abs, Hc by (done || (by rewrite rooted_app by (by intros ->))). done.
Qed.

Lemma split_prefix c prefix : multi c prefix ->
  exists d, strings.TrimSuffix (location c) "*" = prefix /\ strings.HasSuffix (location c) "*" = true /\
    SplitLast prefix = (d, Base prefix) /\ String.eqb d "" = false /\ Clean d = Dir prefix.
Proof.
  intros (Hl & Hr & _). rewrite Hl, strings.TrimSuffix_app, strings.HasSuffix_app.
  destruct (prefix_spec prefix Hr) as (d & k & Hsp & Hd & _ & _ & _ & Hc & Hdir & _). exists d.
  do 3 (split; [done|]). split; [by apply String.eqb_neq|congruence].
Qed.

(** What [os.ReadDir] gives [listShards]. *)
Lemma listed prefix d f :
  rooted prefix = true -> SplitLast prefix = (d, Base prefix) -> Clean d = Dir prefix -> tidy f ->
  match (if is_dir f (Clean d) then inr (os.entries f (Clean d)) else inl (os.ErrNotExist (Clean d))) with
  | inl e => errors.IsNotExist e = true /\ shards prefix f = []
  | inr es => sortStrings ((fun e => Join [d; fst e]) <$>
      filter (fun e => snd e = true /\ strings.HasPrefix (fst e) (Base prefix) = true) es) = shards prefix f
  end.
Proof.
  intros Hr Hsp Hd Hf. destruct (is_dir f (Clean d)) eqn:Hi; [by apply entries_shards|].
  split; [done|]. apply shards_no_dir; [done|by rewrite <- Hd].
Qed.

Lemma choare_listShards c prefix :
  multi c prefix -> choare tidy (listShards (location c))
    (fun r f => tidy f /\ match r with inr l => l = shards prefix f | inl _ => True end).
Proof.
  intros Hm. destruct (split_prefix c prefix Hm) as (d & Ht & _ & Hsp & Hd & Hc). destruct Hm as (_ & Hr & _).
  unfold listShards. rewrite Ht, Hsp, Hd. apply (choare_bind _ _ _ (fun r f => tidy f /\ match r with
    | inl e => errors.IsNotExist e = true -> shards prefix f = []
    | inr es => sortStrings ((fun e => Join [d; fst e]) <$>
        filter (fun e => snd e = true /\ strings.HasPrefix (fst e) (Base prefix) = true) es) = shards prefix f end)).
  - apply choare_sys; [|intros f e n He Hf; split; [done|congruence]].
    intros f Hf. pose proof (listed prefix d f Hr Hsp Hc Hf) as Hl. simpl. destruct (is_dir f (Clean d)); simpl; [done|].
    split; [done|]. by destruct Hl.
  - intros [e|es]; apply choare_ret; intros f [Hf He]; (split; [done|]); [|done].
    destruct (errors.IsNotExist e); [by rewrite He|done].
Qed.

Lemma choare_root c prefix key :
  multi c prefix -> choare tidy (root c key)
    (fun r f => tidy f /\ match r with inr (rt, h) => h = sha1hex key /\ lives c key rt f | inl _ => True end).
Proof.
  intros Hm. destruct (split_prefix c prefix Hm) as (d & Ht & Hs & _). unfold root.
  apply (choare_bind _ _ _ (fun r f => tidy f /\ match r with inr s => home c key f = Some (Join [s; subdir c]) | inl _ => True end)).
  2: { intros [e|s]; apply choare_ret; intros f [Hf Hh]; (split; [done|]); [done|]. split; [done|]. right. by exists prefix. }
  unfold getDir. rewrite Hs. cbn [negb].
  eapply choare_bind; [by apply choare_listShards|]. intros [e|l]; [by apply choare_ret|].
  destruct l as [|s [|s' l]]; [|apply choare_ret; intros f [Hf Hl]; split; [done|by eapply home_one]|].
  - eapply choare_bind with (R := fun r f => tidy f /\ match r with
      | inr _ => home c key f = Some (Join [prefix +:+ "1"; subdir c]) | inl _ => True end).
    + rewrite Ht. pose proof Hm as (_ & Hr & _). destruct (first_shard_abs prefix Hr) as (k & Hk & _ & _ & Hfs).
      unfold os.MkdirAll. fold (first_shard prefix). rewrite Hfs. apply choare_sys.
      * intros f [Hf Hl]. case_bool_decide; [done|]. cbn [fst snd]. split.
        -- rewrite <- (firstn_all (ancestors _)). by apply tidy_made.
        -- rewrite <- Hfs. by apply home_first.
      * intros f e n _ [Hf _]. split; [by apply tidy_made|done].
    + rewrite Ht. intros [e|[]]; by apply choare_ret.
  - apply choare_ret. intros f [Hf Hl]. split; [done|]. rewrite Hl.
    destruct (home_many c prefix key f Hm) as (x & -> & Hx); [by rewrite <- Hl|done].
Qed.

(** ** What the cache does below a root *)

Lemma Clean_Join_one rt : Clean (Join [rt]) = Clean rt.
Proof. simpl. destruct (String.eqb_spec rt "") as [->|_]; [done|apply Clean_idemp]. Qed.

Section below.
Context (rt : string) (P : fsys -> Prop) (HP : sturdy rt P).

Lemma choare_MkdirAll l p :
  Forall plain l -> Clean p = Clean (Join (rt :: l)) -> choare P (os.MkdirAll p) (fun _ => P).
Proof.
  intros Hl Hp. unfold os.MkdirAll. rewrite Hp. apply choare_sys.
  - intros f Hf. case_bool_decide; [done|]. cbn [fst snd]. rewrite <- (firstn_all (ancestors _)). by apply (st_made _ _ HP).
  - intros f e n _ Hf. by apply (st_made _ _ HP).
Qed.

Lemma choare_CreateTemp dir pre :
  choare P (os.CreateTemp dir pre) (fun r f => P f /\ match r with inr (_, name) => exists x, name = os.temp_name dir pre x | inl _ => True end).
Proof.
  apply choare_sys; [|done]. intros f Hf. unfold os.CreateTemp_act. destruct (negb (is_dir f dir)); [done|].
  assert (forall rs, match os.pick_name f dir pre rs with Some (n, _) => exists x, n = os.temp_name dir pre x | None => True end) as Hp.
  { induction rs as [|r rs IH]; [done|]. cbn [os.pick_name]. destruct (_ || _); [exact IH|by exists r]. }
  specialize (Hp (fs_rand f)). destruct (os.pick_name _ _ _ _) as [[n rs]|]; [|done].
  cbn [fst snd]. split; [by apply (st_dirs _ _ HP f)|done].
Qed.

Lemma choare_Remove_temp pre x :
  strings.has_byte slash pre = false -> choare P (os.Remove (os.temp_name rt pre x)) (fun _ => P).
Proof. intros Hp. apply choare_sys; [|done]. intros f Hf. by apply (st_removed _ _ HP). Qed.
End below.

Lemma dirs_append h d f : fs_dirs (os.append h d f) = fs_dirs f.
Proof. unfold os.append. by destruct (fs_handles f !! h). Qed.

Lemma dirs_Rename a b f : fs_dirs (os.Rename_act a b f).1 = fs_dirs f.
Proof. unfold os.Rename_act. destruct (fs_files f !! a); [|done]. destruct (is_dir f b); [done|]. by destruct (negb _). Qed.

(** The calls that leave the directories alone. *)
Ltac keep HP :=
  apply choare_keep; [apply (st_dirs _ _ HP)|intros f; simpl; rewrite ?dirs_append, ?dirs_Rename; by repeat case_match|
    intros n f; simpl; by rewrite ?dirs_append].

Section operations.
Context `{TimeLayout}.

Lemma choare_marker rt P : sturdy rt P -> choare P (readOrCreateMarker rt) (fun _ => P).
Proof.
  intros HP. unfold readOrCreateMarker. eapply choare_bind; [keep HP|]. intros [e|b]; [|by apply choare_ret].
  destruct (negb _); [by apply choare_ret|].
  eapply choare_bind; [apply (choare_MkdirAll rt P HP []); [done|by rewrite Clean_Join_one]|]. intros [e1|[]]; [by apply choare_ret|].
  eapply choare_bind with (R := fun _ => P); [by intros w Hw HPw|]. intros now.
  eapply choare_bind; [by apply (choare_CreateTemp rt P HP)|]. intros [e1|[tmp name]]; [apply choare_ret; by intros f []|].
  apply choare_pure_r. intros [x ->].
  eapply choare_bind; [keep HP|]. intros w. eapply choare_bind; [keep HP|]. intros sy.
  eapply choare_bind; [keep HP|]. intros cl. cbv zeta.
  apply (choare_bind _ _ _ (fun _ => P)).
  - destruct w, sy, cl; try by apply choare_ret. eapply choare_bind; [keep HP|]. intros r. by apply choare_ret.
  - intros [e1|]; [|by apply choare_ret]. eapply choare_bind; [by apply choare_Remove_temp|]. intros r. by apply choare_ret.
Qed.

Lemma choare_markerTime c rt P :
  sturdy rt P -> choare P (markerTime c rt) (fun r f => same_config c (fst r) /\ P f).
Proof.
  intros HP. unfold markerTime. destruct (since c !! rt); [by apply choare_ret|].
  eapply choare_bind; [by apply choare_marker|]. intros r. by apply choare_ret.
Qed.

Lemma choare_versionedSince c prefix key :
  multi c prefix -> choare tidy (versionedSince c key) (fun r f => same_config c (fst r) /\ tidy f).
Proof.
  intros Hm. unfold versionedSince. eapply choare_bind; [by apply (choare_root c prefix)|].
  intros [e|[rt h]]; [apply choare_ret; by intros f []|].
  apply (choare_pre _ _ (fun f => (exists k, Forall plain k /\ rt = abs k) /\ tidy f)).
  { intros f (Hf & _ & Hl%lives_home). split; [|done].
    destruct (home_shape c prefix key rt f Hm Hf Hl) as (k & b & Hk & _ & _ & ->). by eexists. }
  apply choare_pure. intros (k & Hk & ->). eapply choare_bind; [by apply choare_markerTime, sturdy_tidy|].
  intros ct. by apply choare_ret.
Qed.

Lemma choare_path c prefix key v off :
  multi c prefix -> choare tidy (path c key v off)
    (fun r f => match r with inr p => exists rt, p = chunk_path rt key v off /\ lives c key rt f | inl _ => True end).
Proof.
  intros Hm. unfold path. eapply choare_bind; [by apply (choare_root c prefix)|].
  intros [e|[rt h]]; apply choare_ret; [done|]. intros f (_ & -> & Hl). by exists rt.
Qed.

Lemma Dir_chunk_path k key v off :
  Forall plain k -> Dir (chunk_path (abs k) key v off) = abs (k ++ [strings.take 2 (sha1hex key); sha1hex key]).
Proof.
  intros Hk. pose proof (chunk_names_plain key v off) as Hp. unfold chunk_path. rewrite Join_abs_abs by done.
  change [?a; ?b; ?x] with ([a; b] ++ [x]). rewrite app_assoc. apply (Forall_app _ [_; _]) in Hp as [Hp Hx].
  apply Dir_abs; [by apply Forall_app|by inversion Hx].
Qed.

(** A chunk that was stored is in the shard that the key lives in from then on. *)
Lemma choare_Put c prefix key v off data :
  multi c prefix -> choare tidy (Put (Some c) key v off data)
    (fun r f => match snd r with
      | inr (Some (h, p)) => exists rt, p = chunk_path rt key v off /\ lives c key rt f
      | _ => True
      end).
Proof.
  intros Hm. unfold Put. apply (choare_bind _ _ _ (fun c' f => same_config c c' /\ tidy f)).
  { destruct (String.eqb _ _); [by apply choare_ret|].
    eapply choare_bind; [by apply (choare_versionedSince c prefix)|]. intros cs. by apply choare_ret. }
  intros c'. apply choare_pure. intros [Hl Hs].
  assert (multi c' prefix) as Hm' by (destruct Hm as (? & ? & ?); unfold multi; by rewrite Hl, Hs).
  eapply choare_bind; [by apply (choare_path c' prefix)|]. intros [e|p]; [by apply choare_ret|].
  apply choare_exists. intros rt. apply choare_pure. intros ->.
  apply (choare_pre _ _ (fun f => (exists k, Forall plain k /\ rt = abs k) /\ lives c' key rt f)).
  { intros f Hli. split; [|done]. destruct Hli as [[Hfx _]|(prefix' & Hm2 & Hf & Hh)].
    - unfold fixed_root in Hfx. destruct (split_prefix c' prefix Hm') as (_ & _ & Hx & _). congruence.
    - destruct (home_shape c' prefix' key rt f Hm2 Hf Hh) as (k & b & Hk & _ & _ & ->). by eexists. }
  apply choare_pure. intros (k & Hk & ->).
  pose proof (sturdy_lives c' key (abs k)) as HP. pose proof (chunk_names_plain key v off) as Hn.
  apply (Forall_app _ [_; _]) in Hn as [Hn _]. rewrite Dir_chunk_path by done.
  eapply choare_bind; [apply (choare_MkdirAll _ _ HP _ _ Hn); by rewrite made_abs, Clean_abs by (done || by apply Forall_app)|].
  intros [e|[]]; [by apply choare_ret|]. eapply choare_bind; [by apply (choare_CreateTemp _ _ HP)|].
  intros [e|[tmp name]]; [by apply choare_ret|].
  apply (choare_pre _ _ (lives c' key (abs k))); [by intros f []|].
  assert (forall e : goerr, choare (lives c' key (abs k))
    (let! _ := os.Close tmp in let! _ := os.Remove name in io_ret (Some c', @inl goerr (option (nat * string)) e))
    (fun r f => match snd r with
      | inr (Some (h, p)) => exists rt, p = chunk_path rt key v off /\ lives c key rt f | _ => True end)) as Hfail.
  { intros e. eapply choare_bind with (R := fun _ _ => True); [by apply choare_sys|]. intros cl.
    eapply choare_bind with (R := fun _ _ => True); [by apply choare_sys|]. intros rm. by apply choare_ret. }
  eapply choare_bind; [keep HP|]. intros [e|[]]; [apply Hfail|].
  eapply choare_bind; [keep HP|]. intros [e|[]]; [apply Hfail|].
  apply choare_ret. intros f Hf. cbn [snd]. exists (abs k). split; [done|]. by apply (lives_config c' c).
Qed.

(** ** On a healthy disk *)

Lemma listShards_calm c prefix f :
  multi c prefix -> tidy f -> listShards (location c) (calm f) = (calm f, Some (inr (shards prefix f))).
Proof.
  intros Hm Hf. destruct (split_prefix c prefix Hm) as (d & Ht & _ & Hsp & Hd & Hc). destruct Hm as (_ & Hr & _).
  unfold listShards. rewrite Ht, Hsp, Hd. pose proof (listed prefix d f Hr Hsp Hc Hf) as Hl.
  unfold os.ReadDir. rewrite alone_bind, sys_calm. cbv zeta. destruct (is_dir f (Clean d)); cbn [fst snd].
  - by rewrite Hl.
  - destruct Hl as [-> ->]. done.
Qed.

(** Where a key has its shard, it is found, and nothing changes. *)
Lemma lives_root c key rt f : lives c key rt f -> root c key (calm f) = (calm f, Some (inr (rt, sha1hex key))).
Proof.
  intros [[Hf ->]|(prefix & Hm & Hf & Hh)]; [by apply root_fixed|].
  destruct (split_prefix c prefix Hm) as (d & _ & Hs & _). unfold root, getDir. rewrite Hs. cbn [negb].
  rewrite alone_bind, alone_bind, (listShards_calm c prefix) by done.
  destruct (shards prefix f) as [|s [|s' l]] eqn:Hsh.
  - rewrite (home_multi c prefix), Hsh in Hh by done. done.
  - rewrite (home_one c prefix key s) in Hh by done. by injection Hh as <-.
  - rewrite <- Hsh. destruct (home_many c prefix key f Hm) as (x & -> & Hx); [by rewrite Hsh|].
    rewrite Hx in Hh. by injection Hh as <-.
Qed.

Lemma lives_path c key rt v off f :
  lives c key rt f -> path c key v off (calm f) = (calm f, Some (inr (chunk_path rt key v off))).
Proof. intros Hl. unfold path. by rewrite alone_bind, (lives_root c key rt). Qed.

(** Where there is no shard, the first one is made, unless a file is in the
    way. *)
Lemma no_shard_path c prefix key v off f :
  multi c prefix -> tidy f -> home c key f = None ->
  (Exists (fun a => is_Some (fs_files f !! a)) (ancestors (first_shard prefix)) /\
   exists e, path c key v off (calm f) = (calm f, Some (inl e))) \/
  ~ Exists (fun a => is_Some (fs_files f !! a)) (ancestors (first_shard prefix)) /\
  exists rt, let f1 := os.add_dirs (ancestors (first_shard prefix)) f in
    lives c key rt f1 /\ path c key v off (calm f) = (calm f1, Some (inr (chunk_path rt key v off))).
Proof.
  intros Hm Hf Hh. assert (shards prefix f = []) as Hsh.
  { destruct (shards prefix f) eqn:Hs; [done|]. destruct (home_many c prefix key f Hm) as (x & _ & Hx); [by rewrite Hs|]. congruence. }
  destruct (split_prefix c prefix Hm) as (d & Ht & Hs & _). unfold path, root, getDir. rewrite Hs. cbn [negb].
  rewrite !alone_bind, (listShards_calm c prefix), Hsh by done. rewrite alone_bind, Ht. unfold os.MkdirAll.
  rewrite sys_calm. fold (first_shard prefix). case_bool_decide as Hex; cbn [fst snd].
  - left. split; [done|]. by eexists.
  - right. split; [done|]. exists (Join [prefix +:+ "1"; subdir c]). cbv zeta. split; [|done]. right. exists prefix. split; [done|].
    split; [|by apply home_first]. pose proof Hm as (_ & Hr & _). destruct (first_shard_abs prefix Hr) as (k & Hk & _ & _ & ->).
    rewrite <- (firstn_all (ancestors _)). by apply tidy_made.
Qed.

(** A marker can be made in the root [rt]: no file is in the way of its
    directories, no directory has the marker's name and there is a name for
    the temporary file. *)
Definition can_mark (f : fsys) (rt : string) : Prop :=
  let f1 := os.add_dirs (ancestors (Clean rt)) f in
  Clean rt = rt /\ Forall (fun a => fs_files f !! a = None) (ancestors (Clean rt)) /\
  is_dir f1 (Join [rt; versionMarker]) = false /\ is_Some (os.pick_name f1 rt ".tmp_marker_" (fs_rand f)).

Lemma marker_calm rt f : exists f' r, readOrCreateMarker rt (calm f) = (calm f', Some r) /\
  match file_data f (Join [rt; versionMarker]) with
  | Some b => r = parse_marker (string_of_list_byte b)
  | None => r = parse_marker (RFC3339Nano_Format (fs_now f)) \/ (exists e, r = inl e) /\ ~ can_mark f rt
  end.
Proof.
  unfold readOrCreateMarker. erewrite io_bind_calm by (unfold os.ReadFile; rewrite sys_calm; reflexivity).
  destruct (file_data f (Join [rt; versionMarker])) as [b|] eqn:Hb; cbn [fst snd]; [by eexists _, _|].
  cbn [negb errors.IsNotExist os.ErrNotExist]. set (l := ancestors (Clean rt)). set (f1 := os.add_dirs l f).
  unfold os.MkdirAll. fold l. erewrite io_bind_calm by (rewrite sys_calm; reflexivity). case_bool_decide as Hex; cbn [fst snd].
  { eexists _, _. split; [reflexivity|]. right. split; [by eexists|]. intros (_ & Hall & _).
    apply Exists_exists in Hex as (a & Ha & x & Hx). rewrite Forall_forall in Hall. by rewrite Hall in Hx. }
  fold f1. erewrite io_bind_calm by reflexivity. change (fs_now f1) with (fs_now f).
  set (now := fs_now f). erewrite io_bind_calm by (unfold os.CreateTemp; rewrite sys_calm; reflexivity).
  unfold os.CreateTemp_act. change (fs_rand f1) with (fs_rand f).
  assert (is_dir f1 (Clean rt) = true) as Hd.
  { unfold is_dir. rewrite !orb_true_iff, bool_decide_eq_true. left. left. simpl.
    apply elem_of_union_l, elem_of_list_to_set, ancestors_self. }
  destruct (is_dir f1 rt) eqn:Hdr; cbn [negb fst snd].
  2: { eexists _, _. split; [reflexivity|]. right. split; [by eexists|]. intros (Hc & _). rewrite Hc in Hd. congruence. }
  destruct (os.pick_name f1 rt ".tmp_marker_" (fs_rand f)) as [[name rs]|] eqn:Hpn; cbn [fst snd].
  2: { eexists _, _. split; [reflexivity|]. right. split; [by eexists|]. intros (_ & _ & _ & [? Hx]). fold l f1 in Hx. congruence. }
  set (i := fs_next f1). set (f2 := {| fs_dirs := fs_dirs f1; fs_files := _; fs_inodes := _; fs_handles := _; fs_next := _; fs_now := _; fs_rand := _ |}).
  erewrite io_bind_calm by (unfold os.Write; rewrite sys_calm; reflexivity).
  erewrite io_bind_calm by (unfold os.Sync; rewrite sys_calm; reflexivity).
  erewrite io_bind_calm by (unfold os.Close; rewrite sys_calm; reflexivity). cbn [fst snd].
  set (f3 := os.close_handle _ _). cbv zeta.
  assert (fs_files f3 !! name = Some i /\ fs_dirs f3 = fs_dirs f1) as [Hn Hdirs].
  { unfold f3, os.append. cbn. rewrite lookup_insert_eq. cbn. by rewrite lookup_insert_eq. }
  erewrite io_bind_calm.
  2: { rewrite alone_bind. unfold os.Rename. rewrite sys_calm. reflexivity. }
  unfold os.Rename_act. rewrite Hn.
  assert (is_dir f3 (Join [rt; versionMarker]) = is_dir f1 (Join [rt; versionMarker])) as -> by (unfold is_dir; by rewrite Hdirs).
  destruct (is_dir f1 (Join [rt; versionMarker])) eqn:Hdm; cbn [fst snd].
  { erewrite io_bind_calm by (unfold os.Remove; rewrite sys_calm; reflexivity). eexists _, _. split; [reflexivity|].
    right. split; [by eexists|]. intros (_ & _ & Hx & _). fold l f1 in Hx. congruence. }
  destruct (is_dir f3 (Dir (Join [rt; versionMarker]))) eqn:Hdd; cbn [negb fst snd].
  { eexists _, _. split; [reflexivity|]. by left. }
  erewrite io_bind_calm by (unfold os.Remove; rewrite sys_calm; reflexivity). eexists _, _. split; [reflexivity|].
  right. split; [by eexists|]. intros (Hc & _). destruct (decide (rt = "")) as [->|Hr]; [done|].
  rewrite Dir_Join in Hdd by done. unfold is_dir in Hdd, Hd. rewrite Hdirs in Hdd. congruence.
Qed.

(** The time since which the shard [rt] names its chunks by version: the one
    the cache remembers; or the one in the shard's marker, unknown if that is
    not one; or, without a marker, now, or unknown if none can be made. *)
Definition known (r : goerr + Z) : Z := match r with inl _ => time_zero | inr t => t end.
Definition marker_time (c : DiskCache) (f : fsys) (rt : string) (t : Z) : Prop :=
  match since c !! rt with
  | Some t0 => t = t0
  | None =>
      match file_data f (Join [rt; versionMarker]) with
      | Some b => t = known (parse_marker (string_of_list_byte b))
      | None => t = known (parse_marker (RFC3339Nano_Format (fs_now f))) \/ t = time_zero /\ ~ can_mark f rt
      end
  end.

Lemma marker_time_some c f rt : exists t, marker_time c f rt t.
Proof.
  unfold marker_time. destruct (since c !! rt); [by eexists|]. destruct (file_data f _); [by eexists|].
  eexists. by left.
Qed.

Lemma marker_time_fresh c f rt t :
  since c !! rt = None -> file_data f (Join [rt; versionMarker]) = None -> marker_time c f rt t ->
  t = known (parse_marker (RFC3339Nano_Format (fs_now f))) \/ t = time_zero.
Proof. unfold marker_time. intros -> ->. tauto. Qed.

Lemma J_calm f : fs_wf f -> J marker_content f (fs_handles f) f.
Proof. intros Hwf. by apply J_start. Qed.

Lemma versionedSince_calm c key rt f :
  fs_wf f -> lives c key rt f ->
  exists f' c' t, versionedSince c key (calm f) = (calm f', Some (c', inr t)) /\ same_config c c' /\
    lives c key rt f' /\ stable marker_content f f' /\ marker_time c f rt t.
Proof.
  intros Hwf Hl.
  pose proof (J_versionedSince marker_content f (fun rt t => ex_intro _ rt (ex_intro _ t (conj eq_refl eq_refl)))
    (fs_handles f) c key (calm f) (J_calm f Hwf)) as HJ.
  pose proof (choare_markerTime c rt _ (sturdy_lives c key rt) (calm f) (Forall_nil_2 _) Hl) as HC.
  assert (exists f' c' t, markerTime c rt (calm f) = (calm f', Some (c', t)) /\ marker_time c f rt t) as (f' & c' & t & He & Ht).
  { unfold markerTime, marker_time. destruct (since c !! rt) as [t|]; [by eexists _, _, _|].
    destruct (marker_calm rt f) as (f' & r & Hr & Hm). erewrite io_bind_calm by exact Hr.
    eexists f', _, _. split; [reflexivity|]. fold (known r). destruct (file_data f _); [by rewrite Hm|].
    destruct Hm as [->|[[e ->] Hn]]; [by left|by right]. }
  unfold versionedSince in *. rewrite alone_bind, (lives_root c key rt) in * by done. rewrite alone_bind, He in *.
  destruct HC as (_ & _ & Hl'). destruct HJ as (Hc & Hst & _). by exists f', c', t.
Qed.

Lemma stable_chunk f f' rt key v off :
  stable marker_content f f' -> file_data f' (chunk_path rt key v off) = file_data f (chunk_path rt key v off).
Proof.
  intros [_ Hs]. destruct (Hs _ (chunk_path_not_tmp rt key v off)) as [?|(d & (rt' & t & Hp & _) & _)]; [done|].
  by apply chunk_path_not_marker in Hp.
Qed.

(** What a [Get] that resolves its key to [rt] finds in the files [f]. *)
Definition finds (c : DiskCache) (f : fsys) (rt key : string) (v : objVersion) (off : Z) (f' : fsys)
    (r : goerr + option (nat * Z)) : Prop :=
  exists t, marker_time c f rt t /\
    match cache_lookup f rt t key v off with
    | Some d => exists h, r = inr (Some (h, Z.of_nat (length d))) /\ handle_data f' h = Some d
    | None => r = inr None
    end.

(** A file that is there is opened. *)
Lemma Open_hit p f d : fs_wf f -> file_data f p = Some d ->
  exists f' h, os.Open p (calm f) = (calm f', Some (inr h)) /\ handle_data f' h = Some d /\
    is_Some (fs_files f' !! p) /\ fs_dirs f' = fs_dirs f.
Proof. intros Hwf Hd. pose proof (Open_calm p f Hwf) as Ho. by rewrite Hd in Ho. Qed.

Lemma Open_miss p f : fs_wf f -> file_data f p = None -> os.Open p (calm f) = (calm f, Some (inl (os.ErrNotExist p))).
Proof. intros Hwf Hd. pose proof (Open_calm p f Hwf) as Ho. by rewrite Hd in Ho. Qed.

Definition opens (f' : fsys) (co : goerr + (nat * string)) (d : option bytes) : Prop :=
  match d with
  | Some d => exists h p, co = inr (h, p) /\ handle_data f' h = Some d /\ is_Some (fs_files f' !! p)
  | None => exists e, co = inl e /\ errors.IsNotExist e = true
  end.

(** The two chunks a lookup tries. *)
Lemma open_chunk_calm c key v off rt f :
  fs_wf f -> lives c key rt f -> exists f' c' co t,
    open_chunk c key v off (chunk_path rt key v off) (calm f) = (calm f', Some (c', inr co)) /\
    lives c key rt f' /\ same_config c c' /\ marker_time c f rt t /\ opens f' co (cache_lookup f rt t key v off).
Proof.
  intros Hwf Hl. unfold open_chunk, cache_lookup. pose proof (st_dirs _ _ (sturdy_lives c key rt)) as Hst.
  destruct (file_data f (chunk_path rt key v off)) as [d|] eqn:Hd.
  { destruct (Open_hit _ f d Hwf Hd) as (f' & h & Ho & Hh & Hp & Hdir). erewrite io_bind_calm by exact Ho.
    destruct (marker_time_some c f rt) as [t Ht]. eexists f', c, _, t. split; [reflexivity|].
    split; [by apply (Hst f)|]. do 2 (split; [done|]). by eexists _, _. }
  erewrite io_bind_calm by (by apply Open_miss). cbn [errors.IsNotExist os.ErrNotExist andb].
  destruct (negb (String.eqb (etag v) "")) eqn:Hv; cbn [andb].
  2: { destruct (marker_time_some c f rt) as [t Ht]. eexists f, c, _, t. split; [reflexivity|].
    do 3 (split; [done|]). by eexists. }
  destruct (versionedSince_calm c key rt f Hwf Hl) as (f1 & c1 & t & Hvs & Hc & Hl1 & Hsm & Ht).
  erewrite io_bind_calm by exact Hvs. cbn [fst snd legacy_trusted].
  change (IsZero t || IsZero (modified v) || Before (modified v) t) with (unchanged_since t v).
  destruct (unchanged_since t v) eqn:Hu.
  2: { eexists f1, c1, _, t. split; [reflexivity|]. do 3 (split; [done|]). rewrite Hu. by eexists. }
  erewrite io_bind_calm by (exact (lives_path c1 key rt noVersion off f1 (lives_config c c1 key rt f1 Hc Hl1))). cbv beta iota.
  pose proof Hsm as [[Hwf1 _] _]. rewrite <- (stable_chunk f f1 rt key noVersion off Hsm).
  destruct (file_data f1 (chunk_path rt key noVersion off)) as [d|] eqn:Hd1.
  - destruct (Open_hit _ f1 d Hwf1 Hd1) as (f' & h & Ho & Hh & Hp & Hdir). erewrite io_bind_calm by exact Ho.
    eexists f', c1, _, t. split; [reflexivity|]. split; [by apply (Hst f1)|]. do 2 (split; [done|]). rewrite Hu. by eexists _, _.
  - erewrite io_bind_calm by (by apply Open_miss). eexists f1, c1, _, t. split; [reflexivity|].
    do 3 (split; [done|]). rewrite Hu. by eexists.
Qed.

(** The rest of [Get], once the key is resolved. *)
Lemma Get_at c key v off rt f f1 :
  fs_wf f1 -> lives c key rt f1 -> path c key v off (calm f) = (calm f1, Some (inr (chunk_path rt key v off))) ->
  exists f' c' r, Get (Some c) key v off (calm f) = (calm f', Some (Some c', r)) /\ lives c key rt f' /\
    same_config c c' /\ finds c f1 rt key v off f' r.
Proof.
  intros Hwf Hl Hp. unfold Get. erewrite io_bind_calm by exact Hp. cbv beta iota.
  destruct (open_chunk_calm c key v off rt f1 Hwf Hl) as (f2 & c2 & co & t & Hoc & Hl2 & Hc & Ht & Hco).
  erewrite io_bind_calm by exact Hoc. cbn [fst snd]. unfold finds.
  destruct (cache_lookup f1 rt t key v off) as [d|] eqn:Hd; unfold opens in Hco.
  - destruct Hco as (h & p & -> & Hh & Hfp).
    destruct (Get_tail_calm f2 h d p (fun s => (Some c2, @inr goerr _ (Some (h, s)))) (fun e => (Some c2, inl e)) Hh Hfp)
      as (f' & He & Hh' & Hdir).
    eexists f', c2, _. split; [exact He|]. split; [by apply (st_dirs _ _ (sturdy_lives c key rt) f2)|]. split; [done|].
    exists t. rewrite Hd. split; [done|]. by exists h.
  - destruct Hco as (e & -> & He). rewrite He. eexists f2, c2, _. split; [reflexivity|]. do 2 (split; [done|]).
    exists t. by rewrite Hd.
Qed.

(** ** Where the cache is *)

(** A location without a wildcard; or one of absolute paths with one, in a
    file system where directories are named by clean absolute paths. *)
Definition placed (c : DiskCache) (f : fsys) : Prop :=
  fixed_root c \/ exists prefix, multi c prefix /\ tidy f.

Lemma placed_lives c key f :
  placed c f -> (exists rt, lives c key rt f) \/ (exists prefix, multi c prefix /\ tidy f /\ home c key f = None).
Proof.
  intros [Hf|(prefix & Hm & Hf)]; [left; exists (root_of c); by left|].
  destruct (home c key f) as [rt|] eqn:Hh; [left; exists rt; right|right]; by exists prefix.
Qed.

(** A chunk that is in the key's shard is returned, and the cache is left as
    it is. *)
Lemma Get_hit c key v off rt d f :
  fs_wf f -> lives c key rt f -> file_data f (chunk_path rt key v off) = Some d ->
  exists f' h, Get (Some c) key v off (calm f) = (calm f', Some (Some c, inr (Some (h, Z.of_nat (length d))))) /\
    handle_data f' h = Some d.
Proof.
  intros Hwf Hl Hd. destruct (Open_hit _ f d Hwf Hd) as (f1 & h & Ho & Hh & Hp & _). unfold Get.
  erewrite io_bind_calm by (by apply (lives_path c key rt)). cbv beta iota.
  erewrite io_bind_calm by (unfold open_chunk; by erewrite io_bind_calm by exact Ho). cbn [fst snd].
  destruct (Get_tail_calm f1 h d _ (fun s => (Some c, @inr goerr _ (Some (h, s)))) (fun e => (Some c, inl e)) Hh Hp)
    as (f2 & He & Hh2 & _). by exists f2, h.
Qed.

(** C17: a chunk that [Put] reported stored, on a disk that may have failed
    any other call, is what the next [Get] of that key, version and offset
    reads on a healthy one, with its size: a [Get] of the same cache, or of
    one restarted over the same location. With a wildcard in the location
    this is because both resolve the key to the same of the directories that
    match it, those that [Put] itself makes included; only a call that fails
    with the claim that a directory does not exist would make [Put] choose
    among others than [Get] sees. *)
Theorem Put_then_Get c key v off data w w' c' h p :
  fs_wf (w_fs w) ->
  fixed_root c \/ (exists prefix, multi c prefix) /\ tidy (w_fs w) /\ Forall candid (w_faults w) ->
  Put (Some c) key v off data w = (w', Some (Some c', inr (Some (h, p)))) ->
  same_config c c' /\
  forall c2, same_config c c2 ->
    exists f' h', Get (Some c2) key v off (calm (w_fs w')) =
        (calm f', Some (Some c2, inr (Some (h', Z.of_nat (length data))))) /\
      handle_data f' h' = Some data.
Proof.
  intros Hwf Hpl He. pose proof (Put_outcome c key v off data w Hwf) as Hp. rewrite He in Hp.
  destruct Hp as ((? & [= <-] & Hc) & (([[Hwf' _] _] & _) & Hd & rt & -> & Hrt)). split; [done|]. intros c2 Hc2.
  assert (exists rt', chunk_path rt key v off = chunk_path rt' key v off /\ lives c key rt' (w_fs w')) as (rt' & Hq & Hl).
  { destruct Hpl as [Hf|([prefix Hm] & Ht & Hcan)].
    - exists rt. split; [done|]. left. by split; [|apply Hrt].
    - pose proof (choare_Put c prefix key v off data Hm w Hcan Ht) as HC. rewrite He in HC. apply HC. }
  apply (Get_hit c2 key v off rt'); [done|by apply (lives_config c)|by rewrite <- Hq].
Qed.

(** C23: on a healthy disk, wherever the cache is and whatever is in it, [Get]
    is the lookup it promises. It looks in the shard that the key's digest
    picks among the directories that match the location; the time since which
    that shard names chunks by version is the one remembered, the one in its
    marker, or now if it has to be made; and what is returned is a handle on
    exactly the bytes of the chunk of the version asked for, or else, if the
    object has not changed since that time, of the chunk from before
    versioning, with their number, and a clean miss when there are none. It
    fails only where there is no shard and a file is in the way of the first. *)
Theorem Get_refines_lookup c key v off f :
  fs_wf f -> placed c f ->
  exists f' c' r, Get (Some c) key v off (calm f) = (calm f', Some (Some c', r)) /\ same_config c c' /\
    stable marker_content f f' /\
    match home c key f with
    | Some rt => home c key f' = Some rt /\ finds c f rt key v off f' r
    | None => exists prefix, multi c prefix /\
        let f1 := os.add_dirs (ancestors (first_shard prefix)) f in
        if bool_decide (Exists (fun a => is_Some (fs_files f !! a)) (ancestors (first_shard prefix)))
        then exists e, r = inl e
        else exists rt, home c key f1 = Some rt /\ home c key f' = Some rt /\ finds c f1 rt key v off f' r
    end.
Proof.
  intros Hwf Hpl.
  pose proof (Get_hoare f (fs_handles f) c key v off (calm f) (J_calm f Hwf)) as HJ.
  assert (forall f' c' r, Get (Some c) key v off (calm f) = (calm f', Some (Some c', r)) ->
    same_config c c' /\ stable marker_content f f') as Hst.
  { intros f' c' r He. rewrite He in HJ. destruct HJ as [(c0 & [= <-] & ?) HJ]. split; [done|]. cbn [snd w_fs calm] in HJ.
    destruct r as [e|[[h size]|]]; [apply HJ|destruct HJ as (d & Hg & _); apply Hg|apply HJ]. }
  destruct (placed_lives c key f Hpl) as [[rt Hl]|(prefix & Hm & Hf & Hh)].
  - destruct (Get_at c key v off rt f f Hwf Hl (lives_path c key rt v off f Hl)) as (f' & c' & r & He & Hl' & _ & Hfi).
    exists f', c', r. destruct (Hst f' c' r He). do 3 (split; [done|]). by rewrite (lives_home _ _ _ _ Hl), (lives_home _ _ _ _ Hl').
  - rewrite Hh. destruct (no_shard_path c prefix key v off f Hm Hf Hh) as [[Hex [e He]]|(Hex & rt & Hl & Hp)].
    + exists f, c, (inl e). assert (Get (Some c) key v off (calm f) = (calm f, Some (Some c, inl e))) as Hg.
      { unfold Get. by erewrite io_bind_calm by exact He. }
      destruct (Hst f c (inl e) Hg). do 3 (split; [done|]). exists prefix. split; [done|]. cbv zeta.
      rewrite bool_decide_true by done. by exists e.
    + cbv zeta in Hl, Hp. set (f1 := os.add_dirs _ f) in *. assert (fs_wf f1) as Hwf1 by exact Hwf.
      destruct (Get_at c key v off rt f f1 Hwf1 Hl Hp) as (f' & c' & r & He & Hl' & _ & Hfi).
      exists f', c', r. destruct (Hst f' c' r He). do 3 (split; [done|]). exists prefix. split; [done|]. cbv zeta.
      rewrite bool_decide_false by done. exists rt. fold f1. by rewrite (lives_home _ _ _ _ Hl), (lives_home _ _ _ _ Hl').
Qed.
End operations.
End shards.

(** ** At the default location, with two shards *)

Module shards_examples.
Definition c0 : DiskCache := {| location := "/webtor/data*"; subdir := "s3-cache"; since := ∅ |}.
Definition disk0 : fsys :=
  {| fs_dirs := {[ "/webtor"; "/webtor/data1"; "/webtor/data2" ]}; fs_files := ∅; fs_inodes := ∅; fs_handles := ∅;
     fs_next := 0; fs_now := examples.t0; fs_rand := [7; 8; 9] |}.
Definition data0 : bytes := examples.data0.

(** A version of an object that has not changed for a while. *)
Definition v0 : objVersion := {| etag := "e1"; modified := examples.t0 - 3600000000000 |}.

(** The read of the marker fails, and the chunk is stored all the same. *)
Definition w0 : world := {| w_fs := disk0; w_faults := [NoFault; Fails (OsError "input/output error") 0] |}.
Definition stored : world := (Put (Some c0) "a" v0 0 data0 w0).1.
Definition path0 : string := chunk_path "/webtor/data2/s3-cache" "a" v0 0.

(** A chunk of the object from before versioning. *)
Definition old : world := (Put (Some c0) "a" noVersion 0 data0 (calm disk0)).1.

Lemma c0_multi : shards.multi c0 "/webtor/data".
Proof. by split. Qed.

Lemma two_shards_wf : fs_wf disk0.
Proof. split; [|split]; simpl; intros ? ? Hx; by rewrite lookup_empty in Hx. Qed.

Lemma two_shards_tidy : shards.tidy disk0.
Proof.
  intros q [[->%elem_of_singleton| ->%elem_of_singleton]%elem_of_union| ->%elem_of_singleton]%elem_of_union.
  - by exists ["webtor"]; split; [repeat constructor|].
  - by exists ["webtor"; "data1"]; split; [repeat constructor|].
  - by exists ["webtor"; "data2"]; split; [repeat constructor|].
Qed.

Lemma stored_in_shard : exists c', Put (Some c0) "a" v0 0 data0 w0 = (stored, Some (Some c', inr (Some (1%nat, path0)))).
Proof. eexists. vm_compute. reflexivity. Qed.

Lemma old_stored : exists c' h p, Put (Some c0) "a" noVersion 0 data0 (calm disk0) = (old, Some (Some c', inr (Some (h, p)))).
Proof. eexists _, _, _. vm_compute. reflexivity. Qed.

Lemma old_wf : fs_wf (w_fs old).
Proof. apply (Put_stable c0 "a" noVersion 0 data0 (calm disk0) two_shards_wf). Qed.

Lemma old_tidy : shards.tidy (w_fs old).
Proof.
  destruct old_stored as (c' & h & p & He).
  pose proof (shards.choare_Put c0 _ "a" noVersion 0 data0 c0_multi (calm disk0) (Forall_nil_2 _) two_shards_tidy) as HC.
  rewrite He in HC. destruct HC as (_ & rt & _ & [[Hf _]|(_ & _ & Ht & _)]); [discriminate Hf|exact Ht].
Qed.
End shards_examples.

Lemma Put_then_Get_witness :
  exists f' h', Get (Some shards_examples.c0) "a" shards_examples.v0 0 (calm (w_fs shards_examples.stored)) =
      (calm f', Some (Some shards_examples.c0, inr (Some (h', 7)))) /\
    handle_data f' h' = Some shards_examples.data0.
Proof.
  destruct shards_examples.stored_in_shard as [c' He].
  apply (shards.Put_then_Get _ _ _ _ _ shards_examples.w0 _ _ _ _ shards_examples.two_shards_wf) in He as [_ Hg].
  - by apply (Hg shards_examples.c0).
  - right. split; [eexists; apply shards_examples.c0_multi|]. split; [apply shards_examples.two_shards_tidy|].
    by repeat constructor.
Defined.

Lemma Get_refines_lookup_witness :
  exists f' c' h, Get (Some shards_examples.c0) "a" shards_examples.v0 0 (calm (w_fs shards_examples.old)) =
      (calm f', Some (Some c', inr (Some (h, 7)))) /\
    handle_data f' h = Some shards_examples.data0 /\
    shards.home shards_examples.c0 "a" f' = Some "/webtor/data2/s3-cache".
Proof.
  destruct (shards.Get_refines_lookup shards_examples.c0 "a" shards_examples.v0 0 (w_fs shards_examples.old)
    shards_examples.old_wf (or_intror (ex_intro _ _ (conj shards_examples.c0_multi shards_examples.old_tidy))))
    as (f' & c' & r & He & _ & _ & Hr).
  replace (shards.home _ _ (w_fs shards_examples.old)) with (Some "/webtor/data2/s3-cache") in Hr by (vm_compute; reflexivity).
  destruct Hr as (Hh & t & Ht & Hl).
  assert (t = examples.t0 \/ t = time_zero) as Hz.
  { apply shards.marker_time_fresh in Ht as [->| ->]; [left|by right|..]; vm_compute; reflexivity. }
  replace (cache_lookup _ _ _ _ _ _) with (Some shards_examples.data0) in Hl
    by (destruct Hz as [->| ->]; vm_compute; reflexivity).
  destruct Hl as (h & -> & Hd). exists f', c', h. exact (conj He (conj Hd Hh)).
Defined.
