(* ===== verification/HeadCache.v ===== *)
(** * The metadata cache (services/head_cache.go)

    A TTL map of HeadObject results with a size cap. Go's map iteration order
    is unspecified: an iteration is an argument, any permutation of the keys
    present when the loop starts, paired in the expiry loop with the clock
    reading of each [time.Since]. *)
From S2P Require Import Prelude GoStd GoTime.

(** The fields of [s3.HeadObjectOutput] the program reads; [None] is nil. *)
Record HeadObjectOutput := {
  ContentLength : option Z;
  ContentType : option string;
  ETag : option string;
  LastModified : option Z;
}.

(** The field [heads] of the fetcher. *)
Module heads.

(** Lines 20-23. *)
Record headEntry := { out : HeadObjectOutput; at_ : Z }.

(** Lines 13-18. *)
Record headCache := { m : gmap string headEntry; ttl : Z; cap : Z }.

(** Line 25. *)
Definition headCacheCap : Z := 8192.

(** Lines 27-33. *)
Definition newHeadCache (ttl : Z) : headCache := {| m := ∅; ttl := ttl; cap := headCacheCap |}.

Definition set_m (m' : gmap string headEntry) (h : headCache) : headCache :=
  {| m := m'; ttl := ttl h; cap := cap h |}.

(** Lines 36-44: the entry, and whether it is fresh at [now]. *)
Definition get (now : Z) (key : string) (h : headCache) : option HeadObjectOutput * bool :=
  match m h !! key with
  | Some e => (Some (out e), Sub now (at_ e) <? ttl h)
  | None => (None, false)
  end.

(** Lines 47-51. *)
Definition drop (key : string) (h : headCache) : headCache := set_m (delete key (m h)) h.

(** The first loop of [put] (lines 60-64), at one key and clock reading. *)
Definition expire (ttl : Z) (m : gmap string headEntry) (kt : string * Z) : gmap string headEntry :=
  match m !! fst kt with
  | Some e => if ttl <=? Sub (snd kt) (at_ e) then delete (fst kt) m else m
  | None => m
  end.

(** The second loop (lines 65-70): stop once there is room. *)
Fixpoint shed (cap : Z) (it : list string) (m : gmap string headEntry) : gmap string headEntry :=
  match it with
  | [] => m
  | k :: it => if Z.of_nat (size m) <? cap then m else shed cap it (delete k m)
  end.

(** Lines 56-71: what is left before the new entry goes in. *)
Definition make_room (it1 : list (string * Z)) (it2 : list string) (h : headCache)
    : gmap string headEntry :=
  if cap h <=? Z.of_nat (size (m h)) then shed (cap h) it2 (foldl (expire (ttl h)) (m h) it1)
  else m h.

(** Lines 53-73. *)
Definition put (it1 : list (string * Z)) (it2 : list string) (now : Z)
    (key : string) (o : HeadObjectOutput) (h : headCache) : headCache :=
  set_m (<[key := {| out := o; at_ := now |}]> (make_room it1 it2 h)) h.

(** The iterations Go may make: every key present at the loop's start. *)
Definition iterates (it : list string) (m : gmap string headEntry) : Prop :=
  it ≡ₚ elements (dom m).
Definition iterations (it1 : list (string * Z)) (it2 : list string) (h : headCache) : Prop :=
  iterates (fst <$> it1) (m h) /\ iterates it2 (foldl (expire (ttl h)) (m h) it1).

(** ** The two loops *)

Lemma iterates_in it m k : iterates it m -> k ∈ it <-> is_Some (m !! k).
Proof. intros ->. by rewrite elem_of_elements, elem_of_dom. Qed.

Lemma expire_subseteq ttl m kt : expire ttl m kt ⊆ m.
Proof. unfold expire. repeat case_match; [apply delete_subseteq|done..]. Qed.

Lemma expire_all_subseteq ttl it m : foldl (expire ttl) m it ⊆ m.
Proof.
  revert m. induction it as [|kt it IH]; intros m0; simpl; [done|].
  etrans; [apply IH | apply expire_subseteq].
Qed.

(** An entry survives the expiry loop when it is fresh at each check. *)
Lemma expire_all_fresh ttl it m k e :
  m !! k = Some e -> (forall t, (k, t) ∈ it -> Sub t (at_ e) < ttl) ->
  foldl (expire ttl) m it !! k = Some e.
Proof.
  revert m. induction it as [|[k' t] it IH]; intros m0 Hm Hf; simpl; [done|].
  apply IH.
  - unfold expire. simpl. destruct (m0 !! k') as [e'|] eqn:Hk'; [|done].
    destruct (Z.leb_spec ttl (Sub t (at_ e'))); [|done].
    destruct (decide (k' = k)) as [->|Hne]; [|by rewrite lookup_delete_ne].
    simplify_eq. specialize (Hf t (list_elem_of_here _ _)). lia.
  - intros t' Ht'. apply Hf. by apply list_elem_of_further.
Qed.

Lemma shed_subseteq cap it m : shed cap it m ⊆ m.
Proof.
  revert m. induction it as [|k it IH]; intros m0; simpl; [done|].
  case_match; [done|]. etrans; [apply IH | apply delete_subseteq].
Qed.

(** Whoever is left when the loop has met every key: nobody, or there is room. *)
Lemma shed_room cap it m :
  (forall k, is_Some (m !! k) -> k ∈ it) -> 1 <= cap ->
  Z.of_nat (size (shed cap it m)) < cap.
Proof.
  revert m. induction it as [|k it IH]; intros m0 Hk Hc; simpl.
  - assert (m0 = ∅) as ->; [|rewrite map_size_empty; lia].
    apply map_eq. intros k. rewrite lookup_empty. apply eq_None_not_Some.
    intros Hs. by apply Hk, elem_of_nil in Hs.
  - destruct (Z.ltb_spec (Z.of_nat (size m0)) cap); [done|]. apply IH; [|done].
    intros k' Hk'. rewrite lookup_delete_is_Some in Hk'. destruct Hk' as [Hne Hs].
    specialize (Hk _ Hs). by apply elem_of_cons in Hk as [->|].
Qed.

Lemma make_room_subseteq it1 it2 h : make_room it1 it2 h ⊆ m h.
Proof.
  unfold make_room. case_match; [|done].
  etrans; [apply shed_subseteq | apply expire_all_subseteq].
Qed.

Lemma make_room_room it1 it2 h :
  iterations it1 it2 h -> 1 <= cap h -> Z.of_nat (size (make_room it1 it2 h)) < cap h.
Proof.
  intros [_ H2] Hc. unfold make_room. destruct (Z.leb_spec (cap h) (Z.of_nat (size (m h)))); [|done].
  apply shed_room; [|done]. intros k Hk. by apply (iterates_in _ _ _ H2).
Qed.

(** Whatever the iterations, [put] adds one entry and invents none. *)
Lemma put_entries it1 it2 now key o h k e :
  m (put it1 it2 now key o h) !! k = Some e ->
  (k = key /\ out e = o) \/ m h !! k = Some e.
Proof.
  unfold put, set_m. simpl. rewrite lookup_insert_Some. intros [[<- <-]|[_ Hk]]; [by left|right].
  by eapply lookup_weaken, make_room_subseteq.
Qed.

(** ** Theorems *)

(** C38: the cache never outgrows its cap, in whatever order Go walks the map:
    [put] leaves at most [cap] entries, [drop] and [newHeadCache] too. *)
Theorem headCache_bounded it1 it2 now key o h :
  iterations it1 it2 h -> 1 <= cap h ->
  Z.of_nat (size (m (put it1 it2 now key o h))) <= cap h /\
  (Z.of_nat (size (m h)) <= cap h -> Z.of_nat (size (m (drop key h))) <= cap h) /\
  forall t, Z.of_nat (size (m (newHeadCache t))) <= cap (newHeadCache t).
Proof.
  intros Hit Hc. split; [|split].
  - pose proof (make_room_room _ _ _ Hit Hc) as Hr. simpl.
    destruct (make_room it1 it2 h !! key) as [e|] eqn:Hk.
    + rewrite map_size_insert_Some by eauto. lia.
    + rewrite map_size_insert_None by done. lia.
  - simpl. intros Hs. rewrite map_size_delete. destruct (m h !! key); simpl; unfold id; lia.
  - intros t. simpl. unfold headCacheCap. rewrite map_size_empty. lia.
Qed.

(** After [put] the key reads back its value, fresh for exactly [ttl];
    every other entry is one that was there before, and an entry that is
    still fresh is lost only when [cap] entries or more are fresh. *)
Theorem headCache_put_spec it1 it2 now key o h :
  iterations it1 it2 h ->
  (forall t, get t key (put it1 it2 now key o h) = (Some o, Sub t now <? ttl h)) /\
  (forall k e, k <> key -> m (put it1 it2 now key o h) !! k = Some e -> m h !! k = Some e) /\
  (forall k e, k <> key -> m h !! k = Some e ->
     (forall t, (k, t) ∈ it1 -> Sub t (at_ e) < ttl h) ->
     Z.of_nat (size (foldl (expire (ttl h)) (m h) it1)) < cap h ->
     m (put it1 it2 now key o h) !! k = Some e).
Proof.
  intros Hit. split; [|split].
  - intros t. unfold get. simpl. by rewrite lookup_insert_eq.
  - intros k e Hk. simpl. rewrite lookup_insert_ne by done.
    intros Hl. eapply lookup_weaken; [exact Hl|].
    apply make_room_subseteq.
  - intros k e Hk Hl Hf Hroom. simpl. rewrite lookup_insert_ne by done.
    unfold make_room. case_match; [|done].
    pose proof (expire_all_fresh _ _ _ _ _ Hl Hf) as He.
    destruct it2 as [|k2 it2]; [done|]. simpl.
    destruct (Z.ltb_spec (Z.of_nat (size (foldl (expire (ttl h)) (m h) it1))) (cap h)); [done|lia].
Qed.

Module head_examples.
Definition o (n : Z) : HeadObjectOutput :=
  {| ContentLength := Some n; ContentType := None; ETag := None; LastModified := None |}.
(** Two entries fill the cache; [a] is expired at 100, [b] is fresh. *)
Definition full : headCache :=
  {| m := {[ "a" := {| out := o 1; at_ := 0 |}; "b" := {| out := o 2; at_ := 95 |} ]};
     ttl := 10; cap := 2 |}.
Definition it1 : list (string * Z) := [("b", 100); ("a", 101)].

Lemma full_iterations : iterations it1 ["b"] full.
Proof. split; [|vm_compute; reflexivity]. vm_compute. apply Permutation_swap || reflexivity. Qed.
End head_examples.

Lemma headCache_bounded_witness :
  Z.of_nat (size (m (put head_examples.it1 ["b"] 102 "c" (head_examples.o 3) head_examples.full))) <= 2.
Proof.
  refine (proj1 (headCache_bounded head_examples.it1 ["b"] 102 "c" (head_examples.o 3)
    head_examples.full head_examples.full_iterations _)). vm_compute. discriminate.
Defined.

Lemma headCache_put_spec_witness :
  m (put head_examples.it1 ["b"] 102 "c" (head_examples.o 3) head_examples.full) !! "b" =
    Some {| out := head_examples.o 2; at_ := 95 |}.
Proof.
  refine (proj2 (proj2 (headCache_put_spec head_examples.it1 ["b"] 102 "c" (head_examples.o 3)
    head_examples.full head_examples.full_iterations)) _ _ _ _ _ _).
  - discriminate.
  - reflexivity.
  - intros t Ht. unfold head_examples.it1 in Ht.
    apply elem_of_cons in Ht as [[= ->]|Ht]; [reflexivity|].
    apply elem_of_cons in Ht as [[=]|Ht]. by apply elem_of_nil in Ht.
  - reflexivity.
Defined.

End heads.
