(* ===== verification/Budget.v ===== *)
(** * The chunk-buffer budget (services/budget.go)

    A counting semaphore over a buffered channel. The channel is its capacity,
    the number of tokens in it and the senders parked on it in arrival order;
    a parked sender is a goroutine number. *)
From S2P Require Import Prelude GoStd.

Module budget.

(** Lines 19-23. [units] is a [chan struct{}]. *)
Record chunkBudget := {
  units_cap : Z;
  units_held : Z;
  units_queue : list nat;
  inUse : Z;
  peak : Z;
}.

(** Lines 25-28; [make] panics on a negative size. *)
Definition newChunkBudget (units : Z) : option chunkBudget :=
  if units <? 0 then None
  else Some {| units_cap := units; units_held := 0; units_queue := []; inUse := 0; peak := 0 |}.

Definition set_units (held : Z) (q : list nat) (b : chunkBudget) : chunkBudget :=
  {| units_cap := units_cap b; units_held := held; units_queue := q;
     inUse := inUse b; peak := peak b |}.
Definition set_inUse (v p : Z) (b : chunkBudget) : chunkBudget :=
  {| units_cap := units_cap b; units_held := units_held b; units_queue := units_queue b;
     inUse := v; peak := p |}.

(** The send of [acquire] (lines 31-44) by goroutine [g]: the token goes into
    the channel if it has room, otherwise [g] is parked. The first [select]
    is the same send without parking, so a run of both is a run of this. *)
Definition acquire (g : nat) (b : chunkBudget) : chunkBudget * bool :=
  if units_held b <? units_cap b then (set_units (units_held b + 1) (units_queue b) b, true)
  else (set_units (units_held b) (units_queue b ++ [g]) b, false).

(** Line 41: the context of a parked sender ends first. *)
Definition acquire_cancel (g : nat) (b : chunkBudget) : chunkBudget :=
  set_units (units_held b) (filter (fun h => h <> g) (units_queue b)) b.

(** Lines 47-58. *)
Definition alloc (n : Z) (b : chunkBudget) : chunkBudget :=
  let v := inUse b ⊕ n in
  set_inUse v (if v <=? peak b then peak b else v) b.

(** The receive of line 67: the oldest parked sender's token takes the freed
    place. [None] is a receive that blocks. *)
Definition receive (b : chunkBudget) : option (chunkBudget * option nat) :=
  if units_held b <=? 0 then None
  else match units_queue b with
       | g :: q => Some (set_units (units_held b) q b, Some g)
       | [] => Some (set_units (units_held b - 1) [] b, None)
       end.

(** Lines 62-68, with the sender the receive wakes. *)
Definition release (n : Z) (b : chunkBudget) : option (chunkBudget * option nat) :=
  receive (if 0 <? n then set_inUse (inUse b ⊖ n) (peak b) b else b).

(** A parked sender exists only on a full channel. *)
Definition wf (b : chunkBudget) : Prop :=
  0 <= units_held b <= units_cap b /\
  (units_queue b <> [] -> units_held b = units_cap b) /\ NoDup (units_queue b).

Lemma acquire_wf g b : g ∉ units_queue b -> wf b -> wf (acquire g b).1.
Proof.
  intros Hg (Hh & Hq & Hn). unfold acquire. destruct (Z.ltb_spec (units_held b) (units_cap b)).
  - repeat split; simpl; try lia; [|done]. intros Hne. specialize (Hq Hne). lia.
  - repeat split; simpl; try lia. apply NoDup_app. repeat split; [done| |apply NoDup_singleton].
    intros x Hx ->%list_elem_of_singleton. done.
Qed.

Lemma acquire_cancel_wf g b : wf b -> wf (acquire_cancel g b).
Proof.
  intros (Hh & Hq & Hn). repeat split; simpl; try lia.
  - intros Hne. apply Hq. intros He. by rewrite He in Hne.
  - by apply NoDup_filter.
Qed.

Lemma release_wf n b b' o : wf b -> release n b = Some (b', o) -> wf b'.
Proof.
  intros Hwf. unfold release.
  set (b0 := if 0 <? n then _ else b).
  assert (units_held b0 = units_held b /\ units_queue b0 = units_queue b /\
    units_cap b0 = units_cap b) as (H1 & H2 & H3) by (unfold b0; by destruct (0 <? n)).
  unfold receive. rewrite H1, H2. destruct Hwf as (Hh & Hq & Hn).
  destruct (Z.leb_spec (units_held b) 0); [done|].
  destruct (units_queue b) as [|g q]; intros [= <- <-]; repeat split; simpl; try lia.
  - intros []. done.
  - constructor.
  - intros _. rewrite H3. by apply Hq.
  - by inversion Hn.
Qed.

(** A release from a channel that is not empty does not block: it takes one
    token or one parked sender away. *)
Lemma release_spec n b :
  wf b -> 0 < units_held b ->
  exists b' o, release n b = Some (b', o) /\ wf b' /\ units_cap b' = units_cap b /\
    units_held b' + Z.of_nat (length (units_queue b')) =
      units_held b + Z.of_nat (length (units_queue b)) - 1 /\
    inUse b' = (if 0 <? n then inUse b ⊖ n else inUse b) /\
    (forall g, g ∈ units_queue b' -> g ∈ units_queue b).
Proof.
  intros Hwf Hh. destruct (release n b) as [[b' o]|] eqn:Hr.
  - exists b', o. split; [done|]. split; [by eapply release_wf|].
    unfold release in Hr. set (b0 := if 0 <? n then _ else b) in Hr.
    assert (units_held b0 = units_held b /\ units_queue b0 = units_queue b /\
      units_cap b0 = units_cap b /\ inUse b0 = (if 0 <? n then inUse b ⊖ n else inUse b))
      as (H1 & H2 & H3 & H4) by (unfold b0; by destruct (0 <? n)).
    unfold receive in Hr. rewrite H1, H2 in Hr. destruct (Z.leb_spec (units_held b) 0); [done|].
    destruct (units_queue b) as [|g q]; injection Hr as <- <-; simpl; rewrite H3, H4;
      repeat split; try lia; try done. intros g' Hg'. by apply list_elem_of_further.
  - exfalso. unfold release, receive in Hr.
    assert (units_held (if 0 <? n then set_inUse (inUse b ⊖ n) (peak b) b else b) = units_held b)
      as Hu by (by destruct (0 <? n)). rewrite Hu in Hr.
    destruct (Z.leb_spec (units_held b) 0); [lia|]. by destruct (units_queue _).
Qed.

(** ** Arrival order

    A log of the sends that were parked and of the parked senders that got a
    unit. *)
Inductive event :=
| Acquire (g : nat)
| Cancel (g : nat)
| Release (n : Z)
| Alloc (n : Z).

Record logged := { lg_b : chunkBudget; lg_parked : list nat; lg_served : list nat }.

#[global] Instance budget_machine : Machine logged event := fun s e =>
  match e with
  | Acquire g =>
      if decide (g ∈ lg_parked s) then None
      else let '(b, ok) := acquire g (lg_b s) in
           Some {| lg_b := b; lg_served := lg_served s;
                   lg_parked := if ok then lg_parked s else lg_parked s ++ [g] |}
  | Cancel g => Some {| lg_b := acquire_cancel g (lg_b s);
                        lg_parked := lg_parked s; lg_served := lg_served s |}
  | Release n =>
      match release n (lg_b s) with
      | Some (b, o) => Some {| lg_b := b; lg_parked := lg_parked s;
                               lg_served := lg_served s ++ option_list o |}
      | None => None
      end
  | Alloc n => Some {| lg_b := alloc n (lg_b s);
                       lg_parked := lg_parked s; lg_served := lg_served s |}
  end.

Definition fifo (s : logged) : Prop :=
  wf (lg_b s) /\ lg_served s ++ units_queue (lg_b s) `sublist_of` lg_parked s.

Lemma filter_sublist {A} (P : A -> Prop) `{!forall x, Decision (P x)} (l : list A) :
  filter P l `sublist_of` l.
Proof.
  induction l as [|x l IH]; [constructor|]. rewrite filter_cons.
  case_decide; by constructor.
Qed.

Lemma fifo_preserved : preserved fifo.
Proof.
  intros s e s' [Hwf Hsub] He. destruct e as [g|g|n|n]; simpl in He; unfold exec in He; simpl in He.
  - case_decide as Hg; [done|]. destruct (acquire g (lg_b s)) as [b ok] eqn:Ha.
    injection He as <-. split; simpl.
    + change b with (b, ok).1. rewrite <- Ha. apply acquire_wf; [|done]. intros Hq. apply Hg.
      eapply elem_of_submseteq; [|by apply sublist_submseteq]. apply elem_of_app. by right.
    + unfold acquire in Ha. destruct (_ <? _); injection Ha as <- <-; simpl; [done|].
      rewrite app_assoc. by apply sublist_app.
  - injection He as <-. split; simpl; [by apply acquire_cancel_wf|].
    etrans; [|exact Hsub]. apply sublist_app; [done|apply filter_sublist].
  - destruct (release n (lg_b s)) as [[b o]|] eqn:Hr; [|done]. injection He as <-.
    split; simpl; [by eapply release_wf|].
    unfold release, receive in Hr.
    set (b0 := if 0 <? n then _ else lg_b s) in Hr.
    assert (units_queue b0 = units_queue (lg_b s)) as Hq0 by (unfold b0; by destruct (0 <? n)).
    rewrite Hq0 in Hr. destruct (units_held b0 <=? 0); [discriminate|].
    destruct (units_queue (lg_b s)) as [|g q]; injection Hr as <- <-; simpl in *.
    + rewrite app_nil_r in Hsub. by rewrite !app_nil_r.
    + by rewrite <- app_assoc.
  - injection He as <-. by split.
Qed.

(** C31: the budget is fair: over any sequence of acquires, releases and
    cancellations, at most [cap] units are out, a sender waits only while
    all are, and waiting senders get units in the order they arrived; those
    served and those still waiting form a subsequence of the arrivals. *)
Theorem budget_fifo cap b es s :
  newChunkBudget cap = Some b ->
  run {| lg_b := b; lg_parked := []; lg_served := [] |} es = Some s ->
  0 <= units_held (lg_b s) <= units_cap (lg_b s) /\
  (units_queue (lg_b s) <> [] -> units_held (lg_b s) = units_cap (lg_b s)) /\
  lg_served s ++ units_queue (lg_b s) `sublist_of` lg_parked s.
Proof.
  intros Hb Hr. assert (fifo s) as [(? & ? & _) ?]; [|done].
  eapply run_invariant; [apply fifo_preserved| |exact Hr].
  unfold newChunkBudget in Hb. destruct (Z.ltb_spec cap 0); [done|]. injection Hb as <-.
  split; [|constructor]. repeat split; simpl; try lia; [done|constructor].
Qed.

Module budget_examples.
Definition es : list event :=
  [Acquire 1; Acquire 2; Acquire 3; Acquire 4; Cancel 3; Release 0; Release 0].
Definition b1 : chunkBudget :=
  {| units_cap := 1; units_held := 0; units_queue := []; inUse := 0; peak := 0 |}.
Definition final : logged :=
  {| lg_b := set_units 1 [] b1; lg_parked := [2; 3; 4]%nat; lg_served := [2; 4]%nat |}.
End budget_examples.

Lemma budget_fifo_witness :
  [2; 4]%nat `sublist_of` [2; 3; 4]%nat.
Proof.
  refine (proj2 (proj2 (budget_fifo 1 budget_examples.b1 budget_examples.es budget_examples.final
    _ _))); vm_compute; reflexivity.
Defined.

End budget.
