(* ===== verification/Singleflight.v ===== *)
(** * Joining concurrent fetches (services/singleflight.go)

    The map of calls in flight and the calls themselves, each operation as
    the state it leaves. A pointer to an [sfCall] is a number. *)
From S2P Require Import Prelude GoStd.

Module sf.

(** Lines 15-24. [admitted] and [done] are channels, true once closed;
    [res] is the published flight. *)
Record sfCall := {
  admitted : bool;
  done : bool;
  res : option nat;
  waiters : Z;
}.

(** Lines 10-13, with the heap of calls. *)
Record singleflight := {
  g_m : gmap string nat;
  g_calls : gmap nat sfCall;
}.

(** Lines 28-30. *)
Definition newSingleflight : singleflight := {| g_m := ∅; g_calls := ∅ |}.

Definition set_call (i : nat) (c : sfCall) (g : singleflight) : singleflight :=
  {| g_m := g_m g; g_calls := <[i := c]> (g_calls g) |}.

(** Line 26: [sync.Once] around the close. *)
Definition admit_ (c : sfCall) : sfCall :=
  {| admitted := true; done := done c; res := res c; waiters := waiters c |}.

Definition add_waiter (c : sfCall) : sfCall :=
  {| admitted := admitted c; done := done c; res := res c; waiters := wrap32 (waiters c + 1) |}.

(** Lines 34-44; [fresh] is the address of a new call. The call is joined
    only through the map, so it exists. *)
Definition join (key : string) (fresh : nat) (g : singleflight) : option (singleflight * nat * bool) :=
  match g_m g !! key with
  | Some i => c ← g_calls g !! i; Some (set_call i (add_waiter c) g, i, false)
  | None =>
      Some ({| g_m := <[key := fresh]> (g_m g);
               g_calls := <[fresh := {| admitted := false; done := false; res := None;
                                         waiters := 1 |}]> (g_calls g) |}, fresh, true)
  end.

(** Lines 49-53, under the lock: joining ends, and the caller count is what
    the flight's references start at. *)
Definition finish_lock (key : string) (i : nat) (g : singleflight) : option (singleflight * Z) :=
  c ← g_calls g !! i;
  Some ({| g_m := delete key (g_m g); g_calls := g_calls g |}, waiters c).

(** Lines 54-56: publish. Closing [done] twice panics. *)
Definition finish_publish (i : nat) (fl : nat) (g : singleflight) : option singleflight :=
  c ← g_calls g !! i;
  if done c then None
  else Some (set_call i {| admitted := admitted (admit_ c); done := true; res := Some fl;
                           waiters := waiters c |} g).

(** Lines 59-63. *)
Definition inflight (g : singleflight) : Z := Z.of_nat (size (g_m g)).

End sf.
