(* ===== verification/Chunk.v ===== *)
(** * Chunk flights and results (services/chunk.go)

    A heap of open file handles and shared flights, the reference counting
    that frees them, and the slice of a chunk that is written to the client. *)
From S2P Require Import Prelude GoStd Http Budget.

Module chunk.

(** Lines 10-15. *)
Definition viaHit : string := "hit".
Definition viaFile : string := "file".
Definition viaPinned : string := "pinned".
Definition viaBuffer : string := "buffer".

(** The file of a chunk: its key, its version's ETag and its offset, which
    are what [DiskCache.path] is computed from and, by
    [chunk_path_identifies_chunk], what it identifies. *)
Definition chunk_file : Type := string * string * Z.

(** Lines 24-32. [pin] is a handle; [frees] counts the runs of [free]. *)
Record chunkFlight := {
  fl_err : option goerr;
  fl_size : Z;
  fl_path : chunk_file;
  pin : option nat;
  buf : option bytes;
  refs : Z;
  frees : nat;
}.

(** Lines 81-90. [section] is a pinned handle and the length of the section;
    [done] is the flight whose [unref] it is. *)
Record chunkResult := {
  data : option bytes;
  file : option nat;
  section : option (nat * Z);
  fileSize : Z;
  err : option goerr;
  chunkStart : Z;
  via : string;
  done : option nat;
}.

(** The zero [chunkResult{}]. *)
Definition noResult : chunkResult :=
  {| data := None; file := None; section := None; fileSize := 0; err := None;
     chunkStart := 0; via := ""; done := None |}.

(** What the operations share: the bytes behind each open handle, the bytes
    of each chunk file of the cache, the flights and the budget, and
    [Fetcher.flights]. *)
Record heap := {
  handles : gmap nat bytes;
  disk : gmap chunk_file bytes;
  flights : gmap nat chunkFlight;
  bud : budget.chunkBudget;
  nflights : Z;
}.

Definition set_handles (x : gmap nat bytes) (h : heap) : heap :=
  {| handles := x; disk := disk h; flights := flights h; bud := bud h; nflights := nflights h |}.
Definition set_disk (x : gmap chunk_file bytes) (h : heap) : heap :=
  {| handles := handles h; disk := x; flights := flights h; bud := bud h; nflights := nflights h |}.
Definition set_flights (x : gmap nat chunkFlight) (h : heap) : heap :=
  {| handles := handles h; disk := disk h; flights := x; bud := bud h; nflights := nflights h |}.
Definition set_bud (x : budget.chunkBudget) (h : heap) : heap :=
  {| handles := handles h; disk := disk h; flights := flights h; bud := x; nflights := nflights h |}.
Definition set_nflights (x : Z) (h : heap) : heap :=
  {| handles := handles h; disk := disk h; flights := flights h; bud := bud h; nflights := x |}.

Definition set_refs (r : Z) (fl : chunkFlight) : chunkFlight :=
  {| fl_err := fl_err fl; fl_size := fl_size fl; fl_path := fl_path fl; pin := pin fl;
     buf := buf fl; refs := r; frees := frees fl |}.
Definition freed (fl : chunkFlight) : chunkFlight :=
  {| fl_err := fl_err fl; fl_size := fl_size fl; fl_path := fl_path fl; pin := pin fl;
     buf := buf fl; refs := refs fl; frees := S (frees fl) |}.

Definition close_handle (n : nat) (h : heap) : heap := set_handles (delete n (handles h)) h.

(** The [free] function of a flight (fetcher.go, lines 527-535). *)
Definition free (i : nat) (h : heap) : option heap :=
  fl ← flights h !! i;
  let h := set_flights (<[i := freed fl]> (flights h)) h in
  let h := match pin fl with Some p => close_handle p h | None => h end in
  h ← match buf fl with
      | Some _ => '(b, _) ← budget.release (fl_size fl) (bud h); Some (set_bud b h)
      | None => Some h
      end;
  Some (set_nflights (nflights h ⊖ 1) h).

(** Lines 34-38. *)
Definition unref (i : nat) (h : heap) : option heap :=
  fl ← flights h !! i;
  let r := wrap32 (refs fl - 1) in
  let h := set_flights (<[i := set_refs r fl]> (flights h)) h in
  if r =? 0 then free i h else Some h.

(** [os.Open] of a cache path, as the handle [n]; it may fail although the
    file is there. *)
Definition open_path (p : chunk_file) (openable : bool) (n : nat) (h : heap) : option (heap * nat) :=
  if openable then d ← disk h !! p; Some (set_handles (<[n := d]> (handles h)) h, n) else None.

(** Lines 46-70. *)
Definition claim (i : nat) (start : Z) (openable : bool) (n : nat) (h : heap)
    : option (heap * chunkResult) :=
  fl ← flights h !! i;
  match fl_err fl with
  | Some e =>
      h ← unref i h;
      Some (h, {| data := None; file := None; section := None; fileSize := 0; err := Some e;
                  chunkStart := start; via := ""; done := None |})
  | None =>
      match buf fl with
      | Some d =>
          Some (h, {| data := Some d; file := None; section := None; fileSize := 0; err := None;
                      chunkStart := start; via := viaBuffer; done := Some i |})
      | None =>
          match open_path (fl_path fl) openable n h with
          | Some (h, f) =>
              h ← unref i h;
              Some (h, {| data := None; file := Some f; section := None; fileSize := fl_size fl;
                          err := None; chunkStart := start; via := viaFile; done := None |})
          | None =>
              p ← pin fl;
              Some (h, {| data := None; file := None; section := Some (p, fl_size fl);
                          fileSize := fl_size fl; err := None; chunkStart := start;
                          via := viaPinned; done := Some i |})
          end
      end
  end.

(** Lines 92-97. *)
Definition size (cr : chunkResult) : Z :=
  match file cr, section cr with
  | None, None => match data cr with Some d => Z.of_nat (length d) | None => 0 end
  | _, _ => fileSize cr
  end.

(** Lines 99-110. *)
Definition close (cr : chunkResult) (h : heap) : option (heap * chunkResult) :=
  let h := match file cr with Some f => close_handle f h | None => h end in
  h ← match done cr with Some i => unref i h | None => Some h end;
  Some (h, {| data := None; file := None; section := None; fileSize := fileSize cr;
              err := err cr; chunkStart := chunkStart cr; via := via cr; done := None |}).

(** [Seek] and [io.CopyN] from a reader over [content]; a closed handle has none. *)
Definition copy_from (content : option bytes) (from n : Z) (w : http.ResponseWriter)
    : http.ResponseWriter * Z * option goerr :=
  match content with
  | None => (w, 0, Some (OsError "file already closed"))
  | Some d => http.CopyN (drop (Z.to_nat from) d) n w
  end.

(** Lines 116-144. *)
Definition writeSlice (h : heap) (reqStart reqEnd : Z) (cr : chunkResult) (w : http.ResponseWriter)
    : http.ResponseWriter * Z * option goerr :=
  let chunkEnd := (chunkStart cr ⊕ size cr) ⊖ 1 in
  let sliceStart := if chunkStart cr <? reqStart then reqStart ⊖ chunkStart cr else 0 in
  let sliceEnd := if reqEnd <? chunkEnd then (reqEnd ⊖ chunkStart cr) ⊕ 1 else size cr in
  if sliceEnd <=? sliceStart then (w, 0, None)
  else
    match file cr, section cr with
    | Some f, _ => copy_from (handles h !! f) sliceStart (sliceEnd ⊖ sliceStart) w
    | None, Some (p, n) =>
        copy_from (take (Z.to_nat n) <$> handles h !! p) sliceStart (sliceEnd ⊖ sliceStart) w
    | None, None =>
        http.Write (slice sliceStart sliceEnd (default [] (data cr))) w
    end.

(** Lines 149-157: each channel holds at most one result. *)
Fixpoint cleanupPending (pending : list (option chunkResult)) (h : heap) : option heap :=
  match pending with
  | [] => Some h
  | None :: rest => cleanupPending rest h
  | Some cr :: rest => '(h, _) ← close cr h; cleanupPending rest h
  end.

(** ** The bytes of a result *)

(** What a result reads from: exactly one source. *)
Definition content (h : heap) (cr : chunkResult) : option bytes :=
  match file cr, section cr with
  | Some f, _ => handles h !! f
  | None, Some (p, n) => take (Z.to_nat n) <$> handles h !! p
  | None, None => data cr
  end.

(** A result that holds the whole of [d]. *)
Definition holds (h : heap) (cr : chunkResult) (d : bytes) : Prop :=
  err cr = None /\ content h cr = Some d /\ size cr = Z.of_nat (length d).

Lemma copy_from_spec d from n w :
  0 <= from -> 0 <= n -> from + n <= Z.of_nat (length d) ->
  copy_from (Some d) from n w = http.Write (slice from (from + n) d) w.
Proof.
  intros Hf Hn Hd. unfold copy_from, http.CopyN, slice.
  replace (from + n - from) with n by lia.
  destruct (http.Write _ w) as [[w' k] [e|]] eqn:Hw; [done|].
  apply http.Write_body in Hw as (_ & _ & Hk & _). rewrite Hk by done.
  rewrite length_take, length_drop. destruct (Z.ltb_spec (Z.of_nat (Init.Nat.min (Z.to_nat n) (length d - Z.to_nat from))) n); [lia|done].
Qed.

(** Writing a chunk's slice is writing the intersection of the chunk and the
    requested span. *)
Lemma writeSlice_spec h reqStart reqEnd cr d w :
  holds h cr d -> 0 <= chunkStart cr -> chunkStart cr + Z.of_nat (length d) <= int64_max ->
  0 <= reqStart <= int64_max -> 0 <= reqEnd < int64_max ->
  let lo := Z.max 0 (reqStart - chunkStart cr) in
  let hi := Z.min (Z.of_nat (length d)) (reqEnd + 1 - chunkStart cr) in
  writeSlice h reqStart reqEnd cr w =
    if hi <=? lo then (w, 0, None) else http.Write (slice lo hi d) w.
Proof.
  intros (He & Hc & Hs) H0 Hov Hrs Hre lo hi. unfold writeSlice. rewrite Hs.
  pose proof (Nat2Z.is_nonneg (length d)).
  assert (int64_max = 9223372036854775807 /\ int64_min = -9223372036854775808) as [Hmax Hmin] by done.
  rewrite (wrap64_small (chunkStart cr + _)), (wrap64_small (reqEnd - _)),
    (wrap64_small (reqStart - _)) by lia.
  rewrite (wrap64_small (chunkStart cr + _ - 1)), (wrap64_small (reqEnd - _ + 1)) by lia.
  set (a := if chunkStart cr <? reqStart then _ else _).
  set (b := if reqEnd <? _ then _ else _).
  assert (a = lo) as -> by (unfold a, lo; zcases; lia).
  assert (b = hi) as -> by (unfold b, hi; zcases; lia).
  destruct (Z.leb_spec hi lo); [done|].
  assert (0 <= lo /\ hi <= Z.of_nat (length d)) as [Hlo Hhi] by (unfold lo, hi; lia).
  rewrite !wrap64_small by lia. unfold content in Hc.
  destruct (file cr) as [f|], (section cr) as [[p n]|]; rewrite ?Hc.
  - rewrite copy_from_spec by lia. do 2 f_equal. lia.
  - rewrite copy_from_spec by lia. do 2 f_equal. lia.
  - rewrite copy_from_spec by lia. do 2 f_equal. lia.
  - done.
Qed.

Lemma writeSlice_span h obj reqStart reqEnd cr cEnd w :
  holds h cr (slice (chunkStart cr) cEnd obj) ->
  0 <= chunkStart cr <= cEnd -> cEnd <= Z.of_nat (length obj) <= int64_max ->
  0 <= reqStart <= int64_max -> 0 <= reqEnd < int64_max ->
  let lo := Z.max reqStart (chunkStart cr) in
  let hi := Z.min cEnd (reqEnd + 1) in
  writeSlice h reqStart reqEnd cr w = if hi <=? lo then (w, 0, None) else http.Write (slice lo hi obj) w.
Proof.
  intros Hh Hcs Hce Hrs Hre lo hi.
  pose proof (slice_length (chunkStart cr) cEnd obj ltac:(lia) ltac:(lia)) as Hl.
  rewrite (writeSlice_spec h reqStart reqEnd cr _ w Hh); [|lia..]. rewrite Hl.
  set (lo' := Z.max 0 _). set (hi' := Z.min _ _).
  assert (lo = chunkStart cr + lo' /\ hi = chunkStart cr + hi') as [-> ->] by (unfold lo, hi, lo', hi'; lia).
  zcases; try lia; [done|]. by rewrite slice_slice by (unfold lo', hi' in *; lia).
Qed.

Lemma writeSlice_sent h reqStart reqEnd cr w x :
  http.w_sent w = Some x -> http.w_sent (writeSlice h reqStart reqEnd cr w).1.1 = Some x.
Proof.
  intros Hx. unfold writeSlice.
  assert (forall c from n, http.w_sent (copy_from c from n w).1.1 = Some x) as Hc.
  { intros [d|] from n; [|done]. unfold copy_from, http.CopyN.
    pose proof (http.Write_committed (take (Z.to_nat n) (drop (Z.to_nat from) d)) w x Hx) as Hw.
    destruct (http.Write _ w) as [[w1 k] [e|]]; [done|]. by destruct (k <? n). }
  destruct (_ <=? _); [done|]. destruct (file cr); [apply Hc|]. destruct (section cr) as [[p n]|]; [apply Hc|].
  by apply http.Write_committed.
Qed.

(** C27: whatever a chunk is served from (a file, a pinned file or a buffer),
    [writeSlice] adds to the response exactly the part of the object the
    chunk and the request have in common, or, on a connection that fails, a
    prefix of it together with the error; the count is what was added. *)
Theorem writeSlice_exact h obj reqStart reqEnd cr cEnd w w' n e :
  holds h cr (slice (chunkStart cr) cEnd obj) ->
  0 <= chunkStart cr <= cEnd -> cEnd <= Z.of_nat (length obj) <= int64_max ->
  0 <= reqStart <= int64_max -> 0 <= reqEnd < int64_max ->
  writeSlice h reqStart reqEnd cr w = (w', n, e) ->
  let span := slice (Z.max reqStart (chunkStart cr)) (Z.min cEnd (reqEnd + 1)) obj in
  http.w_body w' = http.w_body w ++ take (Z.to_nat n) span /\
  (e = None -> n = Z.of_nat (length span)) /\
  (http.w_fault w = None -> e = None).
Proof.
  intros Hh Hcs Hce Hrs Hre Hw span.
  rewrite (writeSlice_span h obj reqStart reqEnd cr cEnd w Hh) in Hw by done.
  destruct (Z.leb_spec (Z.min cEnd (reqEnd + 1)) (Z.max reqStart (chunkStart cr))) as [Hle|Hlt].
  - injection Hw as <- <- <-. assert (span = []) as -> by (by apply slice_nil). by rewrite app_nil_r.
  - apply http.Write_body in Hw as (_ & ? & ? & Hf & _). split; [done|]. split; [done|].
    intros Hn. by apply Hf.
Qed.

Module chunk_examples.
Definition obj : bytes := list_byte_of_string "0123456789".
Definition b0 : budget.chunkBudget :=
  {| budget.units_cap := 4; budget.units_held := 0; budget.units_queue := [];
     budget.inUse := 0; budget.peak := 0 |}.
Definition h0 : heap :=
  {| handles := {[ 3%nat := slice 4 8 obj ]}; disk := ∅; flights := ∅; bud := b0; nflights := 0 |}.
Definition cr0 : chunkResult :=
  {| data := None; file := Some 3%nat; section := None; fileSize := 4; err := None;
     chunkStart := 4; via := viaHit; done := None |}.
Definition w0 : http.ResponseWriter := http.fresh None None.
End chunk_examples.

Lemma writeSlice_exact_witness :
  http.w_body (writeSlice chunk_examples.h0 5 6 chunk_examples.cr0 chunk_examples.w0).1.1 =
    list_byte_of_string "56".
Proof.
  refine (proj1 (writeSlice_exact chunk_examples.h0 chunk_examples.obj 5 6 chunk_examples.cr0 8
    chunk_examples.w0 _ 2 None _ _ _ _ _ _)).
  - split; [|split]; vm_compute; reflexivity.
  - vm_compute. split; discriminate.
  - vm_compute. split; discriminate.
  - vm_compute. split; [discriminate|discriminate].
  - vm_compute. split; [discriminate|reflexivity].
  - vm_compute. reflexivity.
Defined.

End chunk.
