(* ===== verification/Flights.v ===== *)
(** * Fetching chunks concurrently (services/fetcher.go: fetchChunk, lead)

    Any number of [fetchChunk] calls, the claim goroutine each may start, and
    the detached [lead] goroutine of each upstream fetch, as a machine whose
    events are the atomic steps of those goroutines and of their environment:
    contexts that end, the upstream, the cache directory and its evictor. *)
From S2P Require Import Prelude GoStd Http Budget Singleflight Chunk DiskCache.

Module fl.
Import chunk.

(** Line 478. *)
Definition sfKey (key : string) (start : Z) (v : objVersion) : string :=
  key +:+ "/" +:+ strconv.FormatInt start +:+ "/" +:+ etag v.

(** Where a [lead] goroutine is (lines 520-579). *)
Inductive lead_pc :=
| LStart                    (* before line 525 *)
| LAcquire                  (* before line 537 *)
| LParked                   (* parked on the budget's channel *)
| LUnit                     (* holds a unit, before line 542 *)
| LAdmitted                 (* before line 544 *)
| LDownload                 (* buffer allocated, in line 545 *)
| LFailed (e : goerr)       (* download failed, before line 546 *)
| LPut (b : bytes)          (* downloaded, before line 554 *)
| LStored                   (* cached and pinned, before line 567 *)
| LFinish                   (* the flight is filled in, before sf.finish *)
| LPublish.                 (* inside sf.finish, lock released *)

Record lead := {
  l_key : string; l_v : objVersion; l_start : Z; l_end : Z;
  l_pc : lead_pc;
}.
Definition l_sfKey (l : lead) : string := sfKey (l_key l) (l_start l) (l_v l).
Definition l_size (l : lead) : Z := (l_end l ⊖ l_start l) ⊕ 1.
Definition at_pc (pc : lead_pc) (l : lead) : lead :=
  {| l_key := l_key l; l_v := l_v l; l_start := l_start l; l_end := l_end l; l_pc := pc |}.

(** Where a [fetchChunk] call is (lines 444-515), and its claim goroutine
    (lines 492-500). A call, its lead and its flight share one number. *)
Inductive caller_pc :=
| CLookup                   (* before the cache lookup *)
| CMissed                   (* before line 462 *)
| CWaitAdmitted (c : nat)   (* in the select of line 502 *)
| CWaitOut (c : nat)        (* in the select of line 509 *)
| CReturned (cr : chunkResult)
| CClosed.                  (* its owner closed the result *)
Inductive claim_pc :=
| KNone                     (* not started *)
| KWait (c : nat)           (* on <-c.done *)
| KHave (cr : chunkResult)  (* in the select of line 495 *)
| KGone.

Record caller := {
  c_key : string; c_v : objVersion; c_start : Z; c_end : Z;
  gone : option goerr;      (* its context's error, once done *)
  c_admitted : bool;        (* admit was called *)
  c_pc : caller_pc;
  c_claim : claim_pc;
}.
Definition at_cpc (pc : caller_pc) (k : claim_pc) (adm : bool) (c : caller) : caller :=
  {| c_key := c_key c; c_v := c_v c; c_start := c_start c; c_end := c_end c; gone := gone c;
     c_admitted := adm; c_pc := pc; c_claim := k |}.

Record state := {
  sfg : sf.singleflight;
  hp : heap;
  leads : gmap nat lead;
  callers : gmap nat caller;
  next : nat;
}.

Definition set_sfg (g : sf.singleflight) (s : state) : state :=
  {| sfg := g; hp := hp s; leads := leads s; callers := callers s; next := next s |}.
Definition set_hp (h : heap) (s : state) : state :=
  {| sfg := sfg s; hp := h; leads := leads s; callers := callers s; next := next s |}.
Definition set_lead (i : nat) (l : lead) (s : state) : state :=
  {| sfg := sfg s; hp := hp s; leads := <[i := l]> (leads s); callers := callers s; next := next s |}.
Definition set_caller (i : nat) (c : caller) (s : state) : state :=
  {| sfg := sfg s; hp := hp s; leads := leads s; callers := <[i := c]> (callers s); next := next s |}.

(** The two handles number [i] can come to own: a pin, and a private file. *)
Definition pin_of (i : nat) : nat := (2 * i)%nat.
Definition file_of (i : nat) : nat := (2 * i + 1)%nat.

(** What the cache lookup of line 448 finds. *)
Inductive lookup_outcome :=
| LkError | LkMiss
| LkHit (legacy : bool).

(** The upstream's answer to one range request: an error opening it, or a
    body and the error that ends it early, if any. *)
Definition upstream : Type := goerr + (bytes * option goerr).

Inductive event :=
| EFetch (key : string) (v : objVersion) (start end_ : Z)
| ECancel (i : nat) (e : goerr)
| ELookup (i : nat) (r : lookup_outcome)
| EJoin (i : nat)
| ESeeAdmitted (i : nat)
| EAbandon (i : nat)
| EClaim (i : nat) (openable : bool)
| EHand (i : nat)
| EDropClaim (i : nat)
| EClose (i : nat)
| ELeadStart (i : nat)
| EAcquire (i : nat)
| EGranted (i : nat)
| ETimeout (i : nat)
| EAdmit (i : nat)
| EAlloc (i : nat)
| EDownload (i : nat) (r : upstream) (dctxErr : option goerr)
| EReleaseFailed (i : nat)
| EPut (i : nat) (stored : bool)
| EReleaseStored (i : nat)
| EFinish (i : nat)
| EPublish (i : nat)
| EEvict (p : chunk_file).

Definition chunk_file_of (key : string) (v : objVersion) (start : Z) : chunk_file :=
  (key, etag v, start).

(** The result of a failed fetch, and of a cache hit (line 457). *)
Definition errResult (e : goerr) : chunkResult :=
  {| data := None; file := None; section := None; fileSize := 0; err := Some e;
     chunkStart := 0; via := ""; done := None |}.
Definition hitResult (n : nat) (size start : Z) : chunkResult :=
  {| data := None; file := Some n; section := None; fileSize := size; err := None;
     chunkStart := start; via := viaHit; done := None |}.

(** [download] (lines 590-620) once the upstream has answered: the whole
    buffer filled, or an error. *)
Definition read_chunk (size : Z) (r : upstream) (dctxErr : option goerr) : goerr + bytes :=
  match r with
  | inl e => inl e
  | inr (body, readErr) =>
      if Z.of_nat (length body) <? size then
        match dctxErr with
        | Some e => inl e
        | None =>
            inl (Wrap ("read chunk body: got " +:+ strconv.FormatInt (Z.of_nat (length body)) +:+
                       " of " +:+ strconv.FormatInt size +:+ " bytes")
              (default (match body with [] => IoEOF | _ => IoUnexpectedEOF end) readErr))
        end
      else inr (take (Z.to_nat size) body)
  end.

(** The flight a lead makes (lines 525-535), and fills in. *)
Definition new_flight (l : lead) : chunkFlight :=
  {| fl_err := None; fl_size := l_size l; fl_path := ("", "", 0); pin := None; buf := None;
     refs := 0; frees := 0 |}.
Definition with_err (e : goerr) (f : chunkFlight) : chunkFlight :=
  {| fl_err := Some e; fl_size := fl_size f; fl_path := fl_path f; pin := pin f; buf := buf f;
     refs := refs f; frees := frees f |}.
Definition with_pin (p : chunk_file) (n : nat) (f : chunkFlight) : chunkFlight :=
  {| fl_err := fl_err f; fl_size := fl_size f; fl_path := p; pin := Some n; buf := buf f;
     refs := refs f; frees := frees f |}.
Definition with_buf (b : bytes) (f : chunkFlight) : chunkFlight :=
  {| fl_err := fl_err f; fl_size := fl_size f; fl_path := fl_path f; pin := pin f; buf := Some b;
     refs := refs f; frees := frees f |}.

Definition set_flight (i : nat) (f : chunkFlight) (h : heap) : heap :=
  set_flights (<[i := f]> (flights h)) h.

(** The budget's channel is received from: [None] blocks. *)
Definition release_budget (n : Z) (h : heap) : option heap :=
  '(b, _) ← budget.release n (bud h); Some (set_bud b h).


Section machine.
(** [CHUNK_SIZE]. *)
Context (chunkSize : Z).

(** *** The steps of [fetchChunk] *)

(** A new call, under the contract of lines 440-443: [start] is the start of
    a chunk, [end] at most its last byte. *)
Definition fetch (key : string) (v : objVersion) (start end_ : Z) (s : state) : option state :=
  if (0 <=? start) && (start <=? end_) && (end_ <? start + chunkSize) && (end_ <? int64_max) then
    Some {| sfg := sfg s; hp := hp s; leads := leads s; next := S (next s);
            callers := <[next s := {| c_key := key; c_v := v; c_start := start; c_end := end_;
              gone := None; c_admitted := false; c_pc := CLookup; c_claim := KNone |}]> (callers s) |}
  else None.

(** The caller's context ends. *)
Definition cancel (i : nat) (e : goerr) (s : state) : option state :=
  c ← callers s !! i;
  Some (set_caller i {| c_key := c_key c; c_v := c_v c; c_start := c_start c; c_end := c_end c;
    gone := Some (default e (gone c)); c_admitted := c_admitted c; c_pc := c_pc c; c_claim := c_claim c |} s).

(** Lines 448-460. A hit opens the chunk's file, or the file of the same
    chunk from before versioning. *)
Definition lookup (i : nat) (r : lookup_outcome) (s : state) : option state :=
  c ← callers s !! i;
  match c_pc c with
  | CLookup =>
      match r with
      | LkHit legacy =>
          let v := if legacy : bool then noVersion else c_v c in
          d ← disk (hp s) !! chunk_file_of (c_key c) v (c_start c);
          let h := set_handles (<[file_of i := d]> (handles (hp s))) (hp s) in
          let cr := hitResult (file_of i) (Z.of_nat (length d)) (c_start c) in
          Some (set_caller i (at_cpc (CReturned cr) KNone true c) (set_hp h s))
      | LkError | LkMiss => Some (set_caller i (at_cpc CMissed KNone (c_admitted c) c) s)
      end
  | _ => None
  end.

(** Lines 462-500: the context check, the join, the lead a leader starts and
    the claim goroutine. *)
Definition join (i : nat) (s : state) : option state :=
  c ← callers s !! i;
  match c_pc c with
  | CMissed =>
      match gone c with
      | Some e => Some (set_caller i (at_cpc (CReturned (errResult e)) KNone true c) s)
      | None =>
        '(g, n, leader) ← sf.join (sfKey (c_key c) (c_start c) (c_v c)) (next s) (sfg s);
        let s := set_caller i (at_cpc (CWaitAdmitted n) (KWait n) (c_admitted c) c) (set_sfg g s) in
        Some (if leader : bool then
                {| sfg := sfg s; hp := hp s; callers := callers s; next := S (next s);
                   leads := <[n := {| l_key := c_key c; l_v := c_v c; l_start := c_start c;
                                      l_end := c_end c; l_pc := LStart |}]> (leads s) |}
              else s)
      end
  | _ => None
  end.

(** Lines 503-504. *)
Definition see_admitted (i : nat) (s : state) : option state :=
  c ← callers s !! i;
  match c_pc c with
  | CWaitAdmitted n =>
      sc ← sf.g_calls (sfg s) !! n;
      if sf.admitted sc then Some (set_caller i (at_cpc (CWaitOut n) (c_claim c) true c) s) else None
  | _ => None
  end.

(** Lines 505-507 and 512-513. *)
Definition abandon (i : nat) (s : state) : option state :=
  c ← callers s !! i;
  match c_pc c with
  | CWaitAdmitted _ | CWaitOut _ =>
      e ← gone c;
      Some (set_caller i (at_cpc (CReturned (errResult e)) (c_claim c) true c) s)
  | _ => None
  end.

(** Lines 493-494 of the claim goroutine. *)
Definition claim_flight (i : nat) (openable : bool) (s : state) : option state :=
  c ← callers s !! i;
  match c_claim c with
  | KWait n =>
      sc ← sf.g_calls (sfg s) !! n;
      if sf.done sc then
        f ← sf.res sc;
        '(h, cr) ← claim f (c_start c) openable (file_of i) (hp s);
        Some (set_caller i (at_cpc (c_pc c) (KHave cr) (c_admitted c) c) (set_hp h s))
      else None
  | _ => None
  end.

(** Lines 496 and 510-511: the unbuffered hand-off. *)
Definition hand (i : nat) (s : state) : option state :=
  c ← callers s !! i;
  match c_pc c, c_claim c with
  | CWaitOut _, KHave cr => Some (set_caller i (at_cpc (CReturned cr) KGone (c_admitted c) c) s)
  | _, _ => None
  end.

(** Lines 497-498. *)
Definition drop_claim (i : nat) (s : state) : option state :=
  c ← callers s !! i;
  match c_claim c with
  | KHave cr =>
      _ ← gone c;
      '(h, _) ← close cr (hp s);
      Some (set_caller i (at_cpc (c_pc c) KGone (c_admitted c) c) (set_hp h s))
  | _ => None
  end.

(** The owner of a returned result closes it. *)
Definition close_result (i : nat) (s : state) : option state :=
  c ← callers s !! i;
  match c_pc c with
  | CReturned cr =>
      '(h, _) ← close cr (hp s);
      Some (set_caller i (at_cpc CClosed (c_claim c) (c_admitted c) c) (set_hp h s))
  | _ => None
  end.

(** *** The steps of [lead] *)

Definition with_lead (i : nat) (s : state) (k : lead -> option state) : option state :=
  l ← leads s !! i; k l.
Definition goto (i : nat) (pc : lead_pc) (l : lead) (s : state) : state := set_lead i (at_pc pc l) s.

(** Lines 524-535. *)
Definition lead_start (i : nat) (s : state) : option state :=
  with_lead i s (fun l =>
    match l_pc l with
    | LStart =>
        let h := set_flight i (new_flight l) (set_nflights (nflights (hp s) ⊕ 1) (hp s)) in
        Some (goto i LAcquire l (set_hp h s))
    | _ => None
    end).

(** Line 537, a send that succeeds or parks. *)
Definition lead_acquire (i : nat) (s : state) : option state :=
  with_lead i s (fun l =>
    match l_pc l with
    | LAcquire =>
        let '(b, ok) := budget.acquire i (bud (hp s)) in
        Some (goto i (if ok then LUnit else LParked) l (set_hp (set_bud b (hp s)) s))
    | _ => None
    end).

(** A parked send that a receive completed. *)
Definition lead_granted (i : nat) (s : state) : option state :=
  with_lead i s (fun l =>
    match l_pc l with
    | LParked =>
        if decide (i ∈ budget.units_queue (bud (hp s))) then None
        else Some (goto i LUnit l s)
    | _ => None
    end).

(** Lines 537-539: the fetch's own deadline ends the wait. *)
Definition lead_timeout (i : nat) (s : state) : option state :=
  with_lead i s (fun l =>
    f ← flights (hp s) !! i;
    let h := set_flight i (with_err (ErrorString "chunk fetch queue timeout") f) (hp s) in
    match l_pc l with
    | LAcquire => Some (goto i LFinish l (set_hp h s))
    | LParked =>
        if decide (i ∈ budget.units_queue (bud (hp s))) then
          Some (goto i LFinish l (set_hp (set_bud (budget.acquire_cancel i (bud h)) h) s))
        else None
    | _ => None
    end).

(** Line 542. *)
Definition lead_admit (i : nat) (s : state) : option state :=
  with_lead i s (fun l =>
    match l_pc l with
    | LUnit =>
        sc ← sf.g_calls (sfg s) !! i;
        Some (goto i LAdmitted l (set_sfg (sf.set_call i (sf.admit_ sc) (sfg s)) s))
    | _ => None
    end).

(** Line 544. *)
Definition lead_alloc (i : nat) (s : state) : option state :=
  with_lead i s (fun l =>
    match l_pc l with
    | LAdmitted =>
        Some (goto i LDownload l (set_hp (set_bud (budget.alloc (l_size l) (bud (hp s))) (hp s)) s))
    | _ => None
    end).

(** Line 545. *)
Definition lead_download (i : nat) (r : upstream) (dctxErr : option goerr) (s : state) : option state :=
  with_lead i s (fun l =>
    match l_pc l with
    | LDownload =>
        Some (match read_chunk (l_size l) r dctxErr with
              | inl e => goto i (LFailed e) l s
              | inr b => goto i (LPut b) l s
              end)
    | _ => None
    end).

(** Lines 546-547. *)
Definition lead_release_failed (i : nat) (s : state) : option state :=
  with_lead i s (fun l =>
    match l_pc l with
    | LFailed e =>
        h ← release_budget (l_size l) (hp s);
        f ← flights h !! i;
        Some (goto i LFinish l (set_hp (set_flight i (with_err e f) h) s))
    | _ => None
    end).

(** Lines 554-563 and 576: cached under the chunk's own version and pinned,
    or kept as a buffer. *)
Definition lead_put (i : nat) (stored : bool) (s : state) : option state :=
  with_lead i s (fun l =>
    match l_pc l with
    | LPut b =>
        f ← flights (hp s) !! i;
        let p := chunk_file_of (l_key l) (l_v l) (l_start l) in
        if stored then
          let h := set_disk (<[p := b]> (disk (hp s))) (hp s) in
          let h := set_handles (<[pin_of i := b]> (handles h)) h in
          Some (goto i LStored l (set_hp (set_flight i (with_pin p (pin_of i) f) h) s))
        else Some (goto i LFinish l (set_hp (set_flight i (with_buf b f) (hp s)) s))
    | _ => None
    end).

(** Line 567. *)
Definition lead_release_stored (i : nat) (s : state) : option state :=
  with_lead i s (fun l =>
    match l_pc l with
    | LStored => h ← release_budget (l_size l) (hp s); Some (goto i LFinish l (set_hp h s))
    | _ => None
    end).

(** Lines 539, 548 and 578: [finish] up to its unlock. *)
Definition lead_finish (i : nat) (s : state) : option state :=
  with_lead i s (fun l =>
    match l_pc l with
    | LFinish =>
        '(g, n) ← sf.finish_lock (l_sfKey l) i (sfg s);
        f ← flights (hp s) !! i;
        Some (goto i LPublish l (set_sfg g (set_hp (set_flight i (set_refs n f) (hp s)) s)))
    | _ => None
    end).

(** The rest of [finish], and the end of the goroutine. *)
Definition lead_publish (i : nat) (s : state) : option state :=
  with_lead i s (fun l =>
    match l_pc l with
    | LPublish =>
        g ← sf.finish_publish i i (sfg s);
        Some {| sfg := g; hp := hp s; leads := delete i (leads s); callers := callers s;
                next := next s |}
    | _ => None
    end).

Definition evict (p : chunk_file) (s : state) : option state :=
  Some (set_hp (set_disk (delete p (disk (hp s))) (hp s)) s).

#[global] Instance flights_machine : Machine state event := fun s e =>
  match e with
  | EFetch key v a b => fetch key v a b s
  | ECancel i e => cancel i e s
  | ELookup i r => lookup i r s
  | EJoin i => join i s
  | ESeeAdmitted i => see_admitted i s
  | EAbandon i => abandon i s
  | EClaim i o => claim_flight i o s
  | EHand i => hand i s
  | EDropClaim i => drop_claim i s
  | EClose i => close_result i s
  | ELeadStart i => lead_start i s
  | EAcquire i => lead_acquire i s
  | EGranted i => lead_granted i s
  | ETimeout i => lead_timeout i s
  | EAdmit i => lead_admit i s
  | EAlloc i => lead_alloc i s
  | EDownload i r d => lead_download i r d s
  | EReleaseFailed i => lead_release_failed i s
  | EPut i b => lead_put i b s
  | EReleaseStored i => lead_release_stored i s
  | EFinish i => lead_finish i s
  | EPublish i => lead_publish i s
  | EEvict p => evict p s
  end.
End machine.

End fl.
