(* ===== verification/FlightsInv.v ===== *)
(** * The invariant of the concurrent fetches

    What every reachable state of the machine of Flights.v satisfies:
    reference counts, ownership of handles, the budget's account, and the
    relation between a call, its lead and its callers. Each event preserves
    it. *)
From S2P Require Import Prelude GoStd Http Budget Singleflight Chunk DiskCache Flights.

Module flinv.
Import chunk fl.

(** ** Accounts *)

Definition lead_holds (l : lead) : Z :=
  match l_pc l with
  | LParked | LUnit | LAdmitted | LDownload | LFailed _ | LPut _ | LStored => 1
  | _ => 0
  end.
Definition lead_parked (l : lead) : Z := match l_pc l with LParked => 1 | _ => 0 end.
Definition lead_bytes (l : lead) : Z :=
  match l_pc l with
  | LDownload | LFailed _ | LPut _ | LStored => l_size l
  | _ => 0
  end.
Definition fl_live (f : chunkFlight) : Z := match frees f with O => 1 | S _ => 0 end.
Definition fl_unit (f : chunkFlight) : Z := match buf f with Some _ => fl_live f | None => 0 end.
Definition fl_bytes (f : chunkFlight) : Z := fl_size f * fl_unit f.

(** The references caller [c] still has to flight [i]. *)
Definition owes_cr (i : nat) (cr : chunkResult) : Z := if decide (done cr = Some i) then 1 else 0.
Definition owes_claim (i : nat) (k : claim_pc) : Z :=
  match k with
  | KWait n => if decide (n = i) then 1 else 0
  | KHave cr => owes_cr i cr
  | _ => 0
  end.
Definition owes_pc (i : nat) (pc : caller_pc) : Z :=
  match pc with CReturned cr => owes_cr i cr | _ => 0 end.
Definition owes (i : nat) (c : caller) : Z := owes_claim i (c_claim c) + owes_pc i (c_pc c).
Definition owed (s : state) (i : nat) : Z := msum (owes i) (callers s).

(** ** Shapes *)

(** A flight that is filled in: an error, a buffer, or a pinned file. *)
Definition filled (i : nat) (f : chunkFlight) : Prop :=
  match fl_err f, buf f, pin f with
  | Some _, None, None => True
  | None, Some d, None => Z.of_nat (length d) = fl_size f
  | None, None, Some p => p = pin_of i
  | _, _, _ => False
  end.
Definition empty_flight (f : chunkFlight) : Prop :=
  fl_err f = None /\ buf f = None /\ pin f = None.

Definition past_unit (pc : lead_pc) : Prop :=
  match pc with LStart | LAcquire | LParked | LUnit => False | _ => True end.

(** The flight of a lead that is still running. *)
Definition lead_flight (i : nat) (l : lead) (f : chunkFlight) : Prop :=
  fl_size f = l_size l /\ frees f = O /\
  match l_pc l with
  | LFinish | LPublish => filled i f
  | LStored => fl_err f = None /\ buf f = None /\ pin f = Some (pin_of i)
  | LPut b => empty_flight f /\ Z.of_nat (length b) = l_size l
  | _ => empty_flight f
  end.

Definition has_file_cr (cr : chunkResult) : Prop := file cr <> None.
Definition has_file (c : caller) : Prop :=
  match c_claim c with KHave cr => has_file_cr cr | _ => False end \/
  match c_pc c with CReturned cr => has_file_cr cr | _ => False end.

(** What a result can be, for caller [j]. *)
Definition result_ok (s : state) (j : nat) (cr : chunkResult) : Prop :=
  match err cr with
  | Some _ => file cr = None /\ section cr = None /\ data cr = None /\ done cr = None
  | None =>
      (file cr = Some (file_of j) /\ section cr = None /\ data cr = None /\ done cr = None) \/
      (file cr = None /\ exists i f, done cr = Some i /\ leads s !! i = None /\
         is_Some (sf.g_calls (sfg s) !! i) /\
         flights (hp s) !! i = Some f /\ fl_err f = None /\
         ((section cr = Some (pin_of i, fl_size f) /\ fileSize cr = fl_size f /\ data cr = None /\
           pin f = Some (pin_of i) /\ buf f = None) \/
          (section cr = None /\ is_Some (data cr) /\ data cr = buf f)))
  end.

(** A caller's own program counter, next to its claim goroutine's. *)
Definition waits_on (n : nat) (pc : caller_pc) : Prop :=
  match pc with CWaitAdmitted m | CWaitOut m => m = n | _ => False end.
Definition left (c : caller) : Prop :=
  gone c <> None /\
  match c_pc c with CReturned cr => exists e, cr = errResult e | CClosed => True | _ => False end.

Definition settled (s : state) (n : nat) : Prop :=
  leads s !! n = None /\ is_Some (flights (hp s) !! n).

Definition caller_ok (s : state) (j : nat) (c : caller) : Prop :=
  match c_claim c with
  | KNone => match c_pc c with
             | CLookup | CMissed | CReturned _ | CClosed => True | _ => False end
  | KWait n => is_Some (sf.g_calls (sfg s) !! n) /\ (waits_on n (c_pc c) \/ left c)
  | KHave cr => result_ok s j cr /\ ((exists n, waits_on n (c_pc c) /\ settled s n) \/ left c)
  | KGone => match c_pc c with
             | CWaitAdmitted _ | CWaitOut _ => gone c <> None
             | CReturned _ | CClosed => True
             | _ => False
             end
  end /\
  match c_pc c with
  | CReturned cr => result_ok s j cr
  | CWaitAdmitted n => is_Some (sf.g_calls (sfg s) !! n)
  | CWaitOut n => exists sc, sf.g_calls (sfg s) !! n = Some sc /\ sf.admitted sc = true
  | _ => True
  end /\
  (c_admitted c = true -> match c_pc c with CLookup | CMissed | CWaitAdmitted _ => False | _ => True end).

(** ** The invariant *)

Section inv.
Context (C U : Z).

Record HInv (g : sf.singleflight) (L : gmap nat lead) (h : heap) (ow : nat -> Z)
    (files : nat -> Prop) : Prop := {
  h_lead : forall i l, L !! i = Some l ->
    1 <= l_size l <= C /\ 0 < ow i /\
    exists sc, sf.g_calls g !! i = Some sc /\ sf.done sc = false /\ sf.res sc = None /\
      (sf.admitted sc = true -> past_unit (l_pc l)) /\
      match l_pc l with
      | LStart => flights h !! i = None /\ sf.waiters sc = ow i
      | LPublish => exists f, flights h !! i = Some f /\ lead_flight i l f /\ refs f = ow i
      | _ => sf.waiters sc = ow i /\ exists f, flights h !! i = Some f /\ lead_flight i l f
      end;
  h_done : forall i sc, sf.g_calls g !! i = Some sc -> L !! i = None ->
    sf.done sc = true /\ sf.res sc = Some i /\ sf.admitted sc = true /\
    exists f, flights h !! i = Some f /\ filled i f /\ 1 <= fl_size f <= C /\
      refs f = ow i /\ 0 <= ow i /\ frees f = if decide (ow i = 0) then 1%nat else 0%nat;
  h_call : forall i f, flights h !! i = Some f -> is_Some (sf.g_calls g !! i);
  h_handles : forall n, is_Some (handles h !! n) <->
    (exists i f, n = pin_of i /\ flights h !! i = Some f /\ pin f <> None /\ frees f = O) \/
    (exists j, n = file_of j /\ files j);
  h_wf : budget.wf (bud h);
  h_queue : forall i, i ∈ budget.units_queue (bud h) -> exists l, L !! i = Some l /\ l_pc l = LParked;
  h_units : budget.units_held (bud h) + Z.of_nat (length (budget.units_queue (bud h))) =
    msum lead_holds L + msum fl_unit (flights h);
  h_bytes : budget.inUse (bud h) = msum lead_bytes L + msum fl_bytes (flights h);
  h_live : nflights h = msum fl_live (flights h);
}.

Record Inv (s : state) : Prop := {
  i_ids : forall i, (next s <= i)%nat ->
    leads s !! i = None /\ callers s !! i = None /\ sf.g_calls (sfg s) !! i = None;
  i_map : forall key i, sf.g_m (sfg s) !! key = Some i <->
    exists l, leads s !! i = Some l /\ l_pc l <> LPublish /\ l_sfKey l = key;
  i_callers : forall j c, callers s !! j = Some c -> caller_ok s j c;
  i_bounds : forall j c, callers s !! j = Some c ->
    0 <= c_start c <= c_end c /\ c_end c < c_start c + C /\ c_end c < int64_max;
  i_heap : HInv (sfg s) (leads s) (hp s) (owed s)
    (fun j => exists c, callers s !! j = Some c /\ has_file c);
  i_cap : 1 <= budget.units_cap (bud (hp s)) /\ budget.units_cap (bud (hp s)) * C <= int64_max;
  i_units : budget.units_cap (bud (hp s)) = U;
}.

(** The number of calls so far stays below what an [int32] can count. *)
Definition small (s : state) : Prop := 2 * Z.of_nat (next s) + 2 <= int32_max.

(** ** Growth: what later states keep *)

Definition same_content (f f' : chunkFlight) : Prop :=
  fl_err f' = fl_err f /\ fl_size f' = fl_size f /\ pin f' = pin f /\ buf f' = buf f.

Record extends (s s' : state) : Prop := {
  e_calls : forall n sc, sf.g_calls (sfg s) !! n = Some sc ->
    exists sc', sf.g_calls (sfg s') !! n = Some sc' /\
      (sf.admitted sc = true -> sf.admitted sc' = true);
  e_flights : forall i f, flights (hp s) !! i = Some f -> leads s !! i = None ->
    leads s' !! i = None /\ exists f', flights (hp s') !! i = Some f' /\ same_content f f';
}.

Lemma extends_call s s' n :
  extends s s' -> is_Some (sf.g_calls (sfg s) !! n) -> is_Some (sf.g_calls (sfg s') !! n).
Proof. intros He [sc Hs]. destruct (e_calls _ _ He _ _ Hs) as (sc' & ? & _). by exists sc'. Qed.

Lemma result_ok_extends s s' j cr : extends s s' -> result_ok s j cr -> result_ok s' j cr.
Proof.
  intros He. unfold result_ok. destruct (err cr); [done|].
  intros [?|(Hf & i & f & Hd & Hl & Hc & Hfl & Her & Hr)]; [by left|]. right. split; [done|].
  destruct (e_flights _ _ He _ _ Hfl Hl) as (Hl' & f' & Hf' & H1 & H2 & H3 & H4).
  exists i, f'. rewrite H1, H2, H3, H4. repeat split; try done. by eapply extends_call.
Qed.

Lemma settled_extends s s' n : extends s s' -> settled s n -> settled s' n.
Proof.
  intros He [Hl [f Hf]]. destruct (e_flights _ _ He _ _ Hf Hl) as (? & f' & ? & _).
  split; [done|by exists f'].
Qed.

Lemma caller_ok_extends s s' j c : extends s s' -> caller_ok s j c -> caller_ok s' j c.
Proof.
  intros He (H1 & H2 & H3). split; [|split; [|done]].
  - destruct (c_claim c); [done|destruct H1; split; [by eapply extends_call|done]| |done].
    destruct H1 as [Hr [(n & Hw & Hs)|Hl]]; (split; [by eapply result_ok_extends|]); [left|by right].
    exists n. split; [done|by eapply settled_extends].
  - destruct (c_pc c); try done; [by eapply extends_call| |by eapply result_ok_extends].
    destruct H2 as (sc & Hs & Ha). destruct (e_calls _ _ He _ _ Hs) as (sc' & ? & Hm). eauto.
Qed.

Lemma extends_refl s : extends s s.
Proof. split; [eauto|]. intros i f Hf Hl. split; [done|]. by exists f. Qed.

(** Only the caller map changes. *)
Lemma extends_callers s s' :
  sfg s' = sfg s -> leads s' = leads s -> flights (hp s') = flights (hp s) -> extends s s'.
Proof.
  intros H1 H2 H3. split.
  - rewrite H1. eauto.
  - rewrite H2, H3. intros i f Hf Hl. split; [done|]. by exists f.
Qed.

(** ** Sums *)

Lemma owes_cr_none i cr : done cr = None -> owes_cr i cr = 0.
Proof. intros Hd. unfold owes_cr. by rewrite Hd, decide_False. Qed.

Lemma owes_nonneg i c : 0 <= owes i c <= 2.
Proof.
  unfold owes, owes_claim, owes_pc, owes_cr.
  destruct (c_claim c), (c_pc c); repeat case_decide; lia.
Qed.

Lemma msum_const_le {K A} `{Countable K} (f : A -> Z) (b : Z) (m : gmap K A) :
  (forall i x, m !! i = Some x -> f x <= b) -> 0 <= b -> msum f m <= b * Z.of_nat (base.size m).
Proof.
  intros Hf Hb. induction m as [|i x m Hi IH] using map_ind.
  - rewrite msum_empty. lia.
  - rewrite msum_insert_new, map_size_insert_None by done.
    assert (f x <= b) by (apply (Hf i), lookup_insert_eq).
    assert (msum f m <= b * Z.of_nat (base.size m)); [|lia].
    apply IH. intros j y Hj. apply (Hf j). rewrite lookup_insert_ne; [done|congruence].
Qed.

Lemma size_below {A} (m : gmap nat A) (n : nat) :
  (forall i, (n <= i)%nat -> m !! i = None) -> (base.size m <= n)%nat.
Proof.
  intros Hm. rewrite <- size_dom, <- (size_set_seq (C:=gset nat) 0 n) .
  apply subseteq_size. intros i [x Hx]%elem_of_dom. apply elem_of_set_seq.
  destruct (decide (i < n)%nat); [lia|]. rewrite Hm in Hx by lia. done.
Qed.

Lemma owed_bound s i : Inv s -> 0 <= owed s i <= 2 * Z.of_nat (next s).
Proof.
  intros HI. split.
  - apply msum_nonneg. intros j c _. apply owes_nonneg.
  - etrans; [apply (msum_const_le _ 2); [|done]|].
    + intros j c _. apply owes_nonneg.
    + assert (base.size (callers s) <= next s)%nat; [|lia].
      apply size_below. intros j Hj. by apply (i_ids _ HI).
Qed.

Lemma owed_set s j c c' i :
  callers s !! j = Some c ->
  msum (owes i) (<[j := c']> (callers s)) = owed s i - owes i c + owes i c'.
Proof. intros Hj. unfold owed. by apply msum_insert_old. Qed.

(** ** The budget's account *)

Lemma queue_parked (L : gmap nat lead) q :
  NoDup q -> (forall i, i ∈ q -> exists l, L !! i = Some l /\ l_pc l = LParked) ->
  Z.of_nat (length q) <= msum lead_parked L.
Proof.
  revert L. induction q as [|i q IH]; intros L Hn Hq; simpl.
  - apply msum_nonneg. intros j l _. unfold lead_parked. destruct (l_pc l); lia.
  - inversion Hn as [|? ? Hi Hn']; subst.
    destruct (Hq i (list_elem_of_here _ _)) as (l & Hl & Hp).
    rewrite (msum_lookup _ _ _ _ Hl). unfold lead_parked at 1. rewrite Hp.
    assert (Z.of_nat (length q) <= msum lead_parked (delete i L)); [|lia].
    apply IH; [done|]. intros j Hj. destruct (Hq j (list_elem_of_further _ _ _ Hj)) as (l' & ? & ?).
    exists l'. split; [|done]. rewrite lookup_delete_ne; [done|]. by intros ->.
Qed.

Definition lead_unit (l : lead) : Z := lead_holds l - lead_parked l.

Lemma fl_unit_range f : 0 <= fl_unit f <= 1.
Proof. unfold fl_unit, fl_live. destruct (buf f), (frees f); lia. Qed.

(** The bytes allocated fit the units that are out. *)
Lemma bytes_bound g L h ow files :
  HInv g L h ow files -> 0 <= C ->
  (forall i f, flights h !! i = Some f -> 0 <= fl_size f <= C) ->
  0 <= budget.inUse (bud h) <= C * budget.units_held (bud h).
Proof.
  intros HI HC Hf. rewrite (h_bytes _ _ _ _ _ HI).
  pose proof (h_units _ _ _ _ _ HI) as Hu.
  pose proof (h_wf _ _ _ _ _ HI) as (_ & _ & Hn).
  pose proof (queue_parked L _ Hn (h_queue _ _ _ _ _ HI)) as Hq.
  assert (msum lead_holds L = msum lead_unit L + msum lead_parked L) as Hs.
  { rewrite <- msum_add. apply msum_ext. intros i l _. unfold lead_unit. lia. }
  assert (0 <= msum lead_bytes L <= C * msum lead_unit L) as Hb.
  { split.
    - apply msum_nonneg. intros i l Hl. destruct (h_lead _ _ _ _ _ HI i l Hl) as [? _].
      unfold lead_bytes. destruct (l_pc l); lia.
    - rewrite <- msum_scale. apply msum_le. intros i l Hl.
      destruct (h_lead _ _ _ _ _ HI i l Hl) as [? _].
      unfold lead_bytes, lead_unit, lead_holds, lead_parked. destruct (l_pc l); lia. }
  assert (0 <= msum fl_bytes (flights h) <= C * msum fl_unit (flights h)) as Hfb.
  { split.
    - apply msum_nonneg. intros i f Hi. unfold fl_bytes. specialize (Hf _ _ Hi).
      pose proof (fl_unit_range f). nia.
    - rewrite <- msum_scale. apply msum_le. intros i f Hi. unfold fl_bytes.
      specialize (Hf _ _ Hi). pose proof (fl_unit_range f). nia. }
  nia.
Qed.

(** Every flight's size is a chunk's. *)
Lemma flight_size g L h ow files i f :
  HInv g L h ow files -> flights h !! i = Some f -> 1 <= fl_size f <= C.
Proof.
  intros HI Hf. destruct (h_call _ _ _ _ _ HI _ _ Hf) as [sc Hc].
  destruct (L !! i) as [l|] eqn:Hl.
  - destruct (h_lead _ _ _ _ _ HI _ _ Hl) as (Hs & _ & sc' & _ & _ & _ & _ & Hpc).
    assert (lead_flight i l f \/ False) as [(-> & _)|[]]; [|done].
    left. destruct (l_pc l); destruct Hpc as (?&Hpc);
      try (destruct Hpc as (f' & Hf' & Hlf); simplify_eq; done);
      try (destruct Hpc as (Hf' & Hlf & _); simplify_eq; done); simplify_eq.
  - destruct (h_done _ _ _ _ _ HI _ _ Hc Hl) as (_ & _ & _ & f' & Hf' & _ & ? & _).
    by simplify_eq.
Qed.

(** ** Dropping a reference *)

Definition less (ow : nat -> Z) (i k : nat) : Z := if decide (k = i) then ow k - 1 else ow k.

Lemma less_eq ow i : less ow i i = ow i - 1.
Proof. unfold less. by rewrite decide_True. Qed.
Lemma less_ne ow i k : k <> i -> less ow i k = ow k.
Proof. intros. unfold less. by rewrite decide_False. Qed.

(** The parts of the invariant about calls, when only the flight of a
    finished call changes: its content stays, its counts follow [ow']. *)
Lemma calls_set_flight g L h ow files i f f' h' ow' :
  HInv g L h ow files -> L !! i = None -> flights h !! i = Some f ->
  flights h' = <[i := f']> (flights h) -> same_content f f' ->
  (forall k, k <> i -> ow' k = ow k) ->
  refs f' = ow' i -> 0 <= ow' i -> frees f' = (if decide (ow' i = 0) then 1%nat else 0%nat) ->
  (forall k l, L !! k = Some l ->
    1 <= l_size l <= C /\ 0 < ow' k /\
    exists sc, sf.g_calls g !! k = Some sc /\ sf.done sc = false /\ sf.res sc = None /\
      (sf.admitted sc = true -> past_unit (l_pc l)) /\
      match l_pc l with
      | LStart => flights h' !! k = None /\ sf.waiters sc = ow' k
      | LPublish => exists f, flights h' !! k = Some f /\ lead_flight k l f /\ refs f = ow' k
      | _ => sf.waiters sc = ow' k /\ exists f, flights h' !! k = Some f /\ lead_flight k l f
      end) /\
  (forall k sc, sf.g_calls g !! k = Some sc -> L !! k = None ->
    sf.done sc = true /\ sf.res sc = Some k /\ sf.admitted sc = true /\
    exists f, flights h' !! k = Some f /\ filled k f /\ 1 <= fl_size f <= C /\
      refs f = ow' k /\ 0 <= ow' k /\ frees f = if decide (ow' k = 0) then 1%nat else 0%nat) /\
  (forall k f, flights h' !! k = Some f -> is_Some (sf.g_calls g !! k)).
Proof.
  intros HI Hl Hf Hh' (Hc1 & Hc2 & Hc3 & Hc4) How Hr H0 Hfr. rewrite Hh'. split; [|split].
  - intros k l Hk. assert (k <> i) as Hne by congruence.
    rewrite lookup_insert_ne by done. rewrite How by done. by apply (h_lead _ _ _ _ _ HI).
  - intros k sc Hk Hkl. destruct (h_done _ _ _ _ _ HI _ _ Hk Hkl) as (? & ? & ? & f0 & Hf0 & Hfi & ? & ?).
    do 3 (split; [done|]). destruct (decide (k = i)) as [->|Hne].
    + exists f'. simplify_eq. rewrite lookup_insert_eq. repeat split; try done; try lia.
      unfold filled in *. by rewrite Hc1, Hc2, Hc3, Hc4.
    + exists f0. by rewrite lookup_insert_ne, How.
  - intros k fk. rewrite lookup_insert_Some. intros [[<- _]|[_ Hk]]; by eapply (h_call _ _ _ _ _ HI).
Qed.

Lemma handles_set_flight g L h ow files i f f' :
  HInv g L h ow files -> flights h !! i = Some f -> pin f' = pin f -> frees f' = frees f ->
  forall n, is_Some (handles h !! n) <->
    (exists i0 f0, n = pin_of i0 /\ <[i := f']> (flights h) !! i0 = Some f0 /\ pin f0 <> None /\
       frees f0 = O) \/ (exists j, n = file_of j /\ files j).
Proof.
  intros HI Hf Hp Hfr n. rewrite (h_handles _ _ _ _ _ HI n).
  split; (intros [(k & fk & Hn & Hk & Hpk & Hfk)|?]; [left|by right]);
    destruct (decide (k = i)) as [->|Hne].
  - exists i, f'. simplify_eq. rewrite lookup_insert_eq. repeat split; congruence.
  - exists k, fk. by rewrite lookup_insert_ne.
  - rewrite lookup_insert_eq in Hk. simplify_eq. exists i, f. repeat split; congruence.
  - rewrite lookup_insert_ne in Hk by done. by exists k, fk.
Qed.

(** The handles after the pin of a freed flight is closed. *)
Lemma pin_file_ne i j : pin_of i <> file_of j.
Proof. unfold pin_of, file_of. lia. Qed.
Lemma pin_of_inj i j : pin_of i = pin_of j -> i = j.
Proof. unfold pin_of. lia. Qed.
Lemma file_of_inj i j : file_of i = file_of j -> i = j.
Proof. unfold file_of. lia. Qed.

Lemma handles_freed g L h ow files i f f' p :
  HInv g L h ow files -> flights h !! i = Some f -> pin f = p -> frees f' = 1%nat ->
  (p = None \/ p = Some (pin_of i)) ->
  forall n, is_Some ((match p with Some q => delete q (handles h) | None => handles h end) !! n) <->
    (exists i0 f0, n = pin_of i0 /\ <[i := f']> (flights h) !! i0 = Some f0 /\ pin f0 <> None /\
       frees f0 = O) \/ (exists j, n = file_of j /\ files j).
Proof.
  intros HI Hf Hp Hfr Hpi n.
  assert (is_Some ((match p with Some q => delete q (handles h) | None => handles h end) !! n) <->
    is_Some (handles h !! n) /\ p <> Some n) as ->.
  { destruct p as [q|]; [rewrite lookup_delete_is_Some|]; split; intros; intuition congruence. }
  rewrite (h_handles _ _ _ _ _ HI n). split.
  - intros [[(k & fk & Hn & Hk & Hpk & Hfk)|?] Hne]; [left|by right].
    exists k, fk. rewrite lookup_insert_ne; [done|]. intros ->. simplify_eq.
    destruct Hpi as [Hpi|Hpi]; congruence.
  - intros [(k & fk & Hn & Hk & Hpk & Hfk)|(j & -> & Hj)].
    + rewrite lookup_insert_Some in Hk. destruct Hk as [[_ <-]|[Hne Hk]]; [congruence|].
      split; [left; by exists k, fk|]. destruct Hpi as [->| ->]; [done|]. subst n.
      intros [= Heq%pin_of_inj]. done.
    + split; [right; by exists j|]. destruct Hpi as [->| ->]; [done|].
      intros [= Heq]. by apply pin_file_ne in Heq.
Qed.

Lemma filled_pin i f : filled i f -> pin f = None \/ pin f = Some (pin_of i).
Proof. unfold filled. destruct (fl_err f), (buf f), (pin f); naive_solver. Qed.

Lemma lead_sums_nonneg g L h ow files :
  HInv g L h ow files ->
  0 <= msum lead_holds L /\ 0 <= msum lead_bytes L /\ 0 <= msum fl_unit (flights h) /\
  0 <= msum fl_bytes (flights h) /\ 0 <= msum fl_live (flights h).
Proof.
  intros HI. repeat split; apply msum_nonneg.
  - intros k l _. unfold lead_holds. destruct (l_pc l); lia.
  - intros k l Hk. destruct (h_lead _ _ _ _ _ HI k l Hk) as [? _].
    unfold lead_bytes. destruct (l_pc l); lia.
  - intros k f _. apply fl_unit_range.
  - intros k f Hk. pose proof (flight_size _ _ _ _ _ _ _ HI Hk). unfold fl_bytes.
    pose proof (fl_unit_range f). nia.
  - intros k f _. unfold fl_live. destruct (frees f); lia.
Qed.

(** A holder of a unit and [n] bytes gives them back without blocking. *)
Lemma release_ok g L h ow files n :
  HInv g L h ow files -> 1 <= budget.units_cap (bud h) -> budget.units_cap (bud h) * C <= int64_max ->
  0 < n <= budget.inUse (bud h) -> 1 <= msum lead_holds L + msum fl_unit (flights h) -> 0 <= C ->
  exists b' o, budget.release n (bud h) = Some (b', o) /\ budget.wf b' /\
    budget.units_cap b' = budget.units_cap (bud h) /\
    budget.units_held b' + Z.of_nat (length (budget.units_queue b')) =
      msum lead_holds L + msum fl_unit (flights h) - 1 /\
    budget.inUse b' = budget.inUse (bud h) - n /\
    (forall g, g ∈ budget.units_queue b' -> g ∈ budget.units_queue (bud h)).
Proof.
  intros HI Hcap HC Hn Hsum H0. pose proof (h_wf _ _ _ _ _ HI) as (Hheld & Hfull & _).
  pose proof (h_units _ _ _ _ _ HI) as Hunits.
  assert (0 < budget.units_held (bud h)) as Hpos.
  { destruct (budget.units_queue (bud h)) as [|q0 q] eqn:Hq; simpl in *; [lia|].
    rewrite Hfull by done. lia. }
  pose proof (bytes_bound _ _ _ _ _ HI H0
    (fun k f0 Hk => ltac:(pose proof (flight_size _ _ _ _ _ _ _ HI Hk); lia))) as Hbb.
  destruct (budget.release_spec n (bud h) (h_wf _ _ _ _ _ HI) Hpos)
    as (b' & o & Hrel & Hwf' & Hcap' & Hheld' & Huse & Hq').
  exists b', o. repeat split; try done; try lia; try apply Hwf'.
  rewrite Huse. destruct (Z.ltb_spec 0 n); [|lia]. rewrite wrap64_small; [done|].
  unfold int64_min, int64_max in *. nia.
Qed.

(** What [free] does, component by component. *)
Definition unpinned (p : option nat) (hs : gmap nat bytes) : gmap nat bytes :=
  match p with Some q => delete q hs | None => hs end.

Lemma free_eq i f h :
  flights h !! i = Some f ->
  free i h =
    b ← (match buf f with
         | Some _ => fst <$> budget.release (fl_size f) (bud h)
         | None => Some (bud h)
         end);
    Some {| handles := unpinned (pin f) (handles h); disk := disk h;
            flights := <[i := freed f]> (flights h); bud := b; nflights := nflights h ⊖ 1 |}.
Proof.
  intros Hf. unfold free. rewrite Hf. simpl.
  destruct (pin f), (buf f); simpl; try done;
    by destruct (budget.release (fl_size f) (bud h)) as [[b o]|].
Qed.

Lemma fl_unit_buf f d : buf f = Some d -> frees f = O -> fl_unit f = 1.
Proof. intros Hb Hf. unfold fl_unit, fl_live. by rewrite Hb, Hf. Qed.

(** The budget after a live flight is freed. *)
Lemma release_flight g L h ow files i f :
  HInv g L h ow files -> 1 <= budget.units_cap (bud h) -> budget.units_cap (bud h) * C <= int64_max ->
  flights h !! i = Some f -> frees f = O ->
  exists b', (match buf f with
              | Some _ => fst <$> budget.release (fl_size f) (bud h)
              | None => Some (bud h)
              end) = Some b' /\ budget.wf b' /\ budget.units_cap b' = budget.units_cap (bud h) /\
    budget.units_held b' + Z.of_nat (length (budget.units_queue b')) =
      msum lead_holds L + msum fl_unit (flights h) - fl_unit f /\
    budget.inUse b' = budget.inUse (bud h) - fl_bytes f /\
    (forall g, g ∈ budget.units_queue b' -> g ∈ budget.units_queue (bud h)).
Proof.
  intros HI Hcap HC Hf Hfr. pose proof (flight_size _ _ _ _ _ _ _ HI Hf) as Hsz.
  destruct (lead_sums_nonneg _ _ _ _ _ HI) as (? & ? & ? & ? & _).
  unfold fl_bytes. destruct (buf f) as [d|] eqn:Hb.
  - rewrite (fl_unit_buf _ _ Hb Hfr), Z.mul_1_r.
    assert (1 <= msum fl_unit (flights h)) as Hge.
    { rewrite <- (fl_unit_buf _ _ Hb Hfr). eapply (msum_ge _ _ i); [|done].
      intros; apply fl_unit_range. }
    assert (fl_size f <= msum fl_bytes (flights h)) as Hfs.
    { replace (fl_size f) with (fl_bytes f)
        by (unfold fl_bytes; rewrite (fl_unit_buf _ _ Hb Hfr); lia).
      eapply (msum_ge _ _ i); [|done]. intros k y Hy. unfold fl_bytes.
      pose proof (flight_size _ _ _ _ _ _ _ HI Hy). pose proof (fl_unit_range y). nia. }
    destruct (release_ok _ _ _ _ _ (fl_size f) HI Hcap HC) as (b' & o & Hr & ?);
      [rewrite (h_bytes _ _ _ _ _ HI); lia|lia|lia|].
    exists b'. rewrite Hr. by split.
  - assert (fl_unit f = 0) as -> by (unfold fl_unit; by rewrite Hb).
    exists (bud h). rewrite Z.mul_0_r, !Z.sub_0_r. repeat split; try apply HI. done.
Qed.

Definition same_flights (h h' : heap) : Prop :=
  forall k f, flights h !! k = Some f -> exists f', flights h' !! k = Some f' /\ same_content f f'.

Lemma same_flights_insert h h' i f f' :
  flights h !! i = Some f -> same_content f f' -> flights h' = <[i := f']> (flights h) ->
  same_flights h h'.
Proof.
  intros Hf Hs Hh k f0 Hk. rewrite Hh. destruct (decide (k = i)) as [->|Hne].
  - simplify_eq. exists f'. by rewrite lookup_insert_eq.
  - exists f0. by rewrite lookup_insert_ne.
Qed.

(** The last reference goes: the flight is freed. *)
Lemma free_HInv g L h ow files i f :
  HInv g L h ow files -> 1 <= budget.units_cap (bud h) -> budget.units_cap (bud h) * C <= int64_max ->
  L !! i = None -> is_Some (sf.g_calls g !! i) -> flights h !! i = Some f -> ow i = 1 ->
  nflights h <= int64_max ->
  exists h', free i (set_flights (<[i := set_refs 0 f]> (flights h)) h) = Some h' /\
    HInv g L h' (less ow i) files /\ disk h' = disk h /\
    budget.units_cap (bud h') = budget.units_cap (bud h) /\ same_flights h h'.
Proof.
  intros HI Hcap HC Hl [sc Hsc] Hf How Hnf.
  destruct (h_done _ _ _ _ _ HI _ _ Hsc Hl) as (_ & _ & _ & f0 & Hf0 & Hfi & Hsz & Hr & _ & Hfr).
  simplify_eq. rewrite decide_False in Hfr by lia.
  destruct (release_flight _ _ _ _ _ i f HI Hcap HC Hf Hfr) as (b' & Hb' & Hwf & Hcap' & Hu & Hby & Hq).
  rewrite (free_eq i (set_refs 0 f)) by apply lookup_insert_eq.
  change (buf (set_refs 0 f)) with (buf f). change (bud (set_flights _ h)) with (bud h).
  change (fl_size (set_refs 0 f)) with (fl_size f). rewrite Hb'. simpl. rewrite insert_insert_eq.
  set (f' := freed (set_refs 0 f)). eexists. split; [reflexivity|].
  destruct (calls_set_flight g L h ow files i f f'
    (set_flights (<[i := f']> (flights h)) h) (less ow i) HI Hl Hf eq_refl (conj eq_refl (conj eq_refl (conj eq_refl eq_refl)))
    (less_ne ow i)) as (Hlead & Hdone & Hcall);
    [rewrite less_eq; simpl; lia | rewrite less_eq; lia
    | rewrite less_eq, decide_True by lia; simpl; by rewrite Hfr |].
  assert (fl_live f = 1 /\ fl_live f' = 0 /\ fl_unit f' = 0) as (Hl1 & Hl0 & Hu0).
  { unfold fl_unit, fl_live. simpl. rewrite Hfr. by destruct (buf f). }
  pose proof (msum_ge fl_live (flights h) i f
    ltac:(intros k y _; unfold fl_live; destruct (frees y); lia) Hf) as Hge.
  pose proof (h_live _ _ _ _ _ HI) as Hlive.
  split; [split; simpl|split; [done|split; [done|apply (same_flights_insert _ _ i f f'); [done|by repeat split|done]]]]; try done.
  - apply (handles_freed _ _ _ _ _ i f f' (pin f) HI Hf eq_refl
      ltac:(simpl; by rewrite Hfr) (filled_pin _ _ Hfi)).
  - intros k Hk. by apply (h_queue _ _ _ _ _ HI), Hq.
  - rewrite (msum_insert_old _ _ _ _ _ Hf). lia.
  - rewrite (msum_insert_old _ _ _ _ _ Hf), Hby, (h_bytes _ _ _ _ _ HI).
    assert (fl_bytes f' = 0) by (unfold fl_bytes; rewrite Hu0; lia). lia.
  - rewrite (msum_insert_old _ _ _ _ _ Hf), wrap64_small; [lia|].
    unfold int64_min, int64_max in *. lia.
Qed.

Lemma unref_HInv g L h ow files i :
  HInv g L h ow files -> 1 <= budget.units_cap (bud h) -> budget.units_cap (bud h) * C <= int64_max ->
  L !! i = None -> is_Some (sf.g_calls g !! i) -> 1 <= ow i <= int32_max ->
  nflights h <= int64_max ->
  exists h', unref i h = Some h' /\ HInv g L h' (less ow i) files /\
    disk h' = disk h /\ budget.units_cap (bud h') = budget.units_cap (bud h) /\ same_flights h h'.
Proof.
  intros HI Hcap HC Hl Hc How Hnf. pose proof Hc as [sc Hsc].
  destruct (h_done _ _ _ _ _ HI _ _ Hsc Hl) as (_ & _ & _ & f & Hf & _ & _ & Hr & _ & Hfr).
  rewrite decide_False in Hfr by lia.
  unfold unref. rewrite Hf. simpl. rewrite Hr, wrap32_small by (unfold int32_max in *; lia).
  destruct (Z.eqb_spec (ow i - 1) 0) as [H1|H1].
  { rewrite H1. apply (free_HInv _ _ _ _ _ _ _ HI); try done. lia. }
  set (f' := set_refs (ow i - 1) f).
  destruct (calls_set_flight g L h ow files i f f'
    (set_flights (<[i := f']> (flights h)) h) (less ow i) HI Hl Hf eq_refl (conj eq_refl (conj eq_refl (conj eq_refl eq_refl)))
    (less_ne ow i)) as (Hlead & Hdone & Hcall);
    [rewrite less_eq; done | rewrite less_eq; lia | rewrite less_eq, decide_False by lia; done |].
  eexists. split; [reflexivity|].
  split; [|split; [done|split; [done|apply (same_flights_insert _ _ i f f'); [done|by repeat split|done]]]].
  split; try done; try apply HI; simpl.
  - by apply (handles_set_flight _ _ _ _ _ i f f' HI Hf).
  - rewrite (msum_insert_old _ _ _ _ _ Hf), (h_units _ _ _ _ _ HI).
    change (fl_unit f') with (fl_unit f). lia.
  - rewrite (msum_insert_old _ _ _ _ _ Hf), (h_bytes _ _ _ _ _ HI).
    change (fl_bytes f') with (fl_bytes f). lia.
  - rewrite (msum_insert_old _ _ _ _ _ Hf), (h_live _ _ _ _ _ HI).
    change (fl_live f') with (fl_live f). lia.
Qed.

(** ** Steps of a caller *)

Lemma HInv_ext g L h ow ow' files files' :
  (forall i, ow' i = ow i) -> (forall j, files' j <-> files j) ->
  HInv g L h ow files -> HInv g L h ow' files'.
Proof.
  intros How Hfi HI. split; try apply HI.
  - intros i l Hl. rewrite How. by apply (h_lead _ _ _ _ _ HI).
  - intros i sc Hc Hl. rewrite How. by apply (h_done _ _ _ _ _ HI).
  - intros n. rewrite (h_handles _ _ _ _ _ HI n). by setoid_rewrite Hfi.
Qed.

Definition files (s : state) (j : nat) : Prop := exists c, callers s !! j = Some c /\ has_file c.

Lemma files_insert (m : gmap nat caller) j c' k :
  (exists c, <[j := c']> m !! k = Some c /\ has_file c) <->
  (k = j /\ has_file c') \/ (k <> j /\ exists c, m !! k = Some c /\ has_file c).
Proof.
  setoid_rewrite lookup_insert_Some. split.
  - intros (c & [[-> ->]|[? ?]] & ?); [by left|]. right. eauto.
  - intros [[-> ?]|(? & c & ? & ?)]; [exists c'; auto|]. exists c. auto.
Qed.

(** One caller moves, the heap may change with it. *)
(** The request a caller stands for does not change. *)
Definition same_request (c c' : caller) : Prop :=
  c_key c' = c_key c /\ c_v c' = c_v c /\ c_start c' = c_start c /\ c_end c' = c_end c.

Lemma caller_heap_step s j c c' h' :
  Inv s -> callers s !! j = Some c -> same_request c c' ->
  let s' := set_caller j c' (set_hp h' s) in
  HInv (sfg s) (leads s) h' (owed s') (files s') -> same_flights (hp s) h' ->
  budget.units_cap (bud h') = budget.units_cap (bud (hp s)) -> caller_ok s j c' -> Inv s'.
Proof.
  intros HI Hj Hsr s' HH Hsf Hcap Hok. split; simpl.
  - intros i Hi. destruct (i_ids _ HI i Hi) as (? & Hc & ?). split; [done|]. split; [|done].
    rewrite lookup_insert_ne; [done|]. intros ->. congruence.
  - apply (i_map _ HI).
  - assert (extends s s') as He.
    { split; simpl; [eauto|]. intros i f Hf Hl. split; [done|]. by apply Hsf. }
    intros k ck. rewrite lookup_insert_Some. intros [[<- <-]|[_ Hk]]; (eapply caller_ok_extends; [exact He|]); [done|].
    by apply (i_callers _ HI).
  - intros k ck. rewrite lookup_insert_Some. intros [[_ <-]|[_ Hk]]; [|by apply (i_bounds _ HI k)].
    destruct Hsr as (_ & _ & -> & ->). by apply (i_bounds _ HI j).
  - exact HH.
  - rewrite Hcap. apply (i_cap _ HI).
  - rewrite Hcap. apply (i_units _ HI).
Qed.

Lemma caller_step s j c c' :
  Inv s -> callers s !! j = Some c -> same_request c c' -> (forall i, owes i c' = owes i c) ->
  (has_file c' <-> has_file c) -> caller_ok s j c' -> Inv (set_caller j c' s).
Proof.
  intros HI Hj Hsr How Hfi Hok. change (Inv (set_caller j c' (set_hp (hp s) s))).
  eapply caller_heap_step; try done; [|by intros k f Hk; exists f].
  eapply HInv_ext; [| |apply (i_heap _ HI)].
  - intros i. unfold owed at 1. simpl. rewrite (owed_set _ _ c) by done. rewrite How. lia.
  - intros k. unfold files. simpl. rewrite files_insert, Hfi.
    split; [intros [[-> ?]|[_ ?]]; eauto|]. intros (ck & Hk & ?).
    destruct (decide (k = j)) as [->|]; [left; by simplify_eq|eauto].
Qed.

(** The caller drops its reference to flight [i]. *)
Lemma caller_unref_step s j c c' i h hs :
  Inv s -> small s -> callers s !! j = Some c -> same_request c c' ->
  leads s !! i = None -> is_Some (sf.g_calls (sfg s) !! i) ->
  HInv (sfg s) (leads s) h (owed s) hs -> same_flights (hp s) h ->
  budget.units_cap (bud h) = budget.units_cap (bud (hp s)) ->
  (forall k, owes k c' = owes k c - (if decide (k = i) then 1 else 0)) ->
  (forall s', callers s' = <[j := c']> (callers s) -> forall k, files s' k <-> hs k) ->
  nflights h <= int64_max ->
  exists h', unref i h = Some h' /\
    (caller_ok s j c' -> Inv (set_caller j c' (set_hp h' s))) /\
    disk h' = disk h.
Proof.
  intros HI Hsm Hj Hsr Hl Hc HH Hsf Hcap How Hfi Hnf. destruct (i_cap _ HI) as [Hc1 Hc2].
  assert (1 <= owed s i) as Hge.
  { assert (1 <= owes i c) as H1.
    { specialize (How i). rewrite decide_True in How by done.
      pose proof (owes_nonneg i c'). lia. }
    etrans; [exact H1|]. unfold owed. eapply (msum_ge (owes i) _ j); [|done].
    intros; apply owes_nonneg. }
  pose proof (owed_bound s i HI). unfold small in Hsm.
  destruct (unref_HInv _ _ _ _ _ i HH) as (h' & Hu & HH' & Hd & Hcap' & Hsf');
    [by rewrite Hcap|by rewrite Hcap|done|done|lia|done|].
  exists h'. split; [done|]. split; [|done]. intros Hok. eapply caller_heap_step; try done.
  - eapply HInv_ext; [| |exact HH'].
    + intros k. unfold owed at 1. simpl. rewrite (owed_set _ _ c) by done. rewrite How.
      unfold less. case_decide; lia.
    + intros k. by apply Hfi.
  - intros k f Hk. destruct (Hsf k f Hk) as (f1 & Hf1 & Ha). destruct (Hsf' k f1 Hf1) as (f2 & ? & Hb).
    exists f2. split; [done|]. destruct Hb as (? & ? & ? & ?). destruct Ha as (? & ? & ? & ?). repeat split; congruence.
  - by rewrite Hcap'.
Qed.

Lemma nflights_small s : Inv s -> small s -> nflights (hp s) <= int32_max.
Proof.
  intros HI Hs. rewrite (h_live _ _ _ _ _ (i_heap _ HI)).
  etrans; [apply (msum_const_le _ 1); [|done]|].
  - intros i f _. unfold fl_live. destruct (frees f); lia.
  - assert (base.size (flights (hp s)) <= next s)%nat.
    { apply size_below. intros i Hi. apply eq_None_not_Some. intros [f Hf].
      apply (h_call _ _ _ _ _ (i_heap _ HI)) in Hf as [sc Hc].
      by destruct (i_ids _ HI i Hi) as (_ & _ & Hn); rewrite Hn in Hc. }
    unfold small, int32_max in *. lia.
Qed.

Lemma nflights_bound s : Inv s -> small s -> nflights (hp s) <= int64_max.
Proof. intros HI Hs. etrans; [by apply nflights_small|done]. Qed.

(** Opening and closing a caller's private file. *)
Lemma HInv_open g L h ow fs j d :
  HInv g L h ow fs ->
  HInv g L (set_handles (<[file_of j := d]> (handles h)) h) ow (fun k => k = j \/ fs k).
Proof.
  intros HI. split; try apply HI. intros n. simpl.
  rewrite lookup_insert_is_Some, (h_handles _ _ _ _ _ HI n). split.
  - intros [<-|[_ [?|(k & ? & ?)]]]; [right; by exists j; auto|by left|right; exists k; auto].
  - intros [(k & f & -> & ?)|(k & -> & [->|?])]; [right|by left|].
    + split; [intros ?%eq_sym%pin_file_ne; done|]. left. by exists k, f.
    + destruct (decide (k = j)) as [->|]; [by left|right].
      split; [intros Heq%file_of_inj; congruence|]. right. by exists k.
Qed.

Lemma HInv_close g L h ow fs j :
  HInv g L h ow fs -> HInv g L (close_handle (file_of j) h) ow (fun k => k <> j /\ fs k).
Proof.
  intros HI. split; try apply HI. intros n. simpl.
  rewrite lookup_delete_is_Some, (h_handles _ _ _ _ _ HI n). split.
  - intros [Hn [?|(k & -> & ?)]]; [by left|]. right. exists k. split; [done|].
    split; [by intros ->|done].
  - intros [(k & f & -> & ?)|(k & -> & Hk & ?)].
    + split; [intros ?%eq_sym%pin_file_ne; done|]. left. by exists k, f.
    + split; [intros Heq%file_of_inj; congruence|]. right. by exists k.
Qed.

Lemma heap_eta h : set_handles (handles h) h = h.
Proof. by destruct h. Qed.

(** A caller closes a result it holds. *)
Lemma close_step s j c c' cr :
  Inv s -> small s -> callers s !! j = Some c -> same_request c c' -> result_ok s j cr ->
  (forall k, owes k c' = owes k c - owes_cr k cr) ->
  (has_file_cr cr -> ~ has_file c') -> (has_file c' -> has_file c) ->
  (has_file c -> has_file_cr cr \/ has_file c') ->
  exists h' cr', close cr (hp s) = Some (h', cr') /\
    (caller_ok s j c' -> Inv (set_caller j c' (set_hp h' s))).
Proof.
  intros HI Hsm Hj Hsr Hr How Hf1 Hf2 Hf3. unfold result_ok in Hr.
  assert (forall k, files (set_caller j c' s) k <-> (k = j /\ has_file c') \/ (k <> j /\ files s k)) as Hfs.
  { intros k. unfold files. simpl. apply files_insert. }
  assert (forall k, k = j -> files s k <-> has_file c) as Hfj.
  { intros k ->. split; [intros (c0 & ? & ?); by simplify_eq|]. intros ?. by exists c. }
  assert (done cr = None -> file cr = None ->
    exists h' cr', close cr (hp s) = Some (h', cr') /\
    (caller_ok s j c' -> Inv (set_caller j c' (set_hp h' s)))) as Hnone.
  { intros Hd Hf. unfold close. rewrite Hd, Hf. simpl. eexists _, _. split; [reflexivity|].
    intros Hok. change (Inv (set_caller j c' s)). eapply caller_step; try done.
    - intros i. rewrite How. unfold owes_cr. rewrite Hd, decide_False by done. lia.
    - split; [done|]. intros Hh. destruct (Hf3 Hh) as [Hx|?]; [by unfold has_file_cr in Hx; rewrite Hf in Hx|done]. }
  destruct (err cr) as [e|].
  { destruct Hr as (? & _ & _ & ?). by apply Hnone. }
  destruct Hr as [(Hf & _ & _ & Hd)|(Hf & i & f & Hd & Hl & Hc & _)].
  - unfold close. rewrite Hf, Hd. simpl. eexists _, _. split; [reflexivity|]. intros Hok.
    eapply caller_heap_step; try done; [|by intros k f Hk; exists f].
    eapply HInv_ext; [| |apply (HInv_close _ _ _ _ (files s) j), (i_heap _ HI)].
    + intros k. unfold owed at 1. simpl. rewrite (owed_set _ _ c) by done. rewrite How.
      unfold owes_cr. rewrite Hd, decide_False by done. lia.
    + intros k. rewrite (Hfs k). assert (has_file_cr cr) as Hcr by (unfold has_file_cr; congruence).
      specialize (Hf1 Hcr). tauto.
  - unfold close. rewrite Hf, Hd. simpl.
    destruct (caller_unref_step s j c c' i (hp s) (files s) HI Hsm Hj Hsr Hl Hc) as (h' & Hu & Hok & _).
    + apply (i_heap _ HI).
    + by intros k f0 Hk; exists f0.
    + done.
    + intros k. rewrite How. unfold owes_cr. rewrite Hd. do 2 case_decide; congruence || lia.
    + intros s' Hs' k. unfold files at 1. rewrite Hs', files_insert. fold (files s k).
      assert (~ has_file_cr cr) by (unfold has_file_cr; rewrite Hf; naive_solver).
      specialize (Hfj k). destruct (decide (k = j)) as [->|]; tauto.
    + by apply nflights_bound.
    + rewrite Hu. simpl. eexists _, _. split; [reflexivity|]. exact Hok.
Qed.

(** ** Each event of a caller *)

Ltac caller_at :=
  match goal with
  | HI : Inv ?s, Hj : callers ?s !! ?j = Some ?c |- _ =>
      let H1 := fresh "Hcl" in let H2 := fresh "Hpc" in let H3 := fresh "Hadm" in
      pose proof (i_callers _ HI j c Hj) as (H1 & H2 & H3)
  end.

Lemma result_ok_err s j e : result_ok s j (errResult e).
Proof. by unfold result_ok. Qed.

Lemma fetch_inv key v a b s s' : Inv s -> fetch C key v a b s = Some s' -> Inv s'.
Proof.
  unfold fetch. intros HI He. destruct (_ && _) eqn:Hg; [|done]. injection He as <-.
  set (c' := {| c_key := key |}).
  destruct (i_ids _ HI (next s) (le_n _)) as (_ & Hn & _).
  split; simpl.
  - intros i Hi. destruct (i_ids _ HI i) as (? & ? & ?); [lia|]. split; [done|]. split; [|done].
    rewrite lookup_insert_ne; [done|lia].
  - apply (i_map _ HI).
  - intros k ck. rewrite lookup_insert_Some. intros [[<- <-]|[_ Hk]].
    + split; [|split]; simpl; done.
    + eapply caller_ok_extends; [|by apply (i_callers _ HI)]. by apply extends_callers.
  - intros k ck. rewrite lookup_insert_Some. intros [[_ <-]|[_ Hk]]; [|by apply (i_bounds _ HI k)].
    simpl. repeat (apply andb_true_iff in Hg as [Hg ?]). lia.
  - eapply HInv_ext; [| |apply (i_heap _ HI)].
    + intros i. unfold owed. simpl. by rewrite msum_insert_new.
    + intros k. simpl. rewrite files_insert.
      assert (~ has_file c') by (unfold has_file; simpl; tauto).
      split; [intros [[_ ?]|[_ ?]]; [done|naive_solver]|]. intros (ck & Hk & ?).
      right. split; [intros ->; congruence|]. by exists ck.
  - apply (i_cap _ HI).
  - apply (i_units _ HI).
Qed.

Lemma cancel_inv i e s s' : Inv s -> cancel i e s = Some s' -> Inv s'.
Proof.
  unfold cancel. intros HI He. inv_bind. subst s'. caller_at.
  eapply caller_step; try done. split; [|split]; simpl; [|done|done].
  destruct (c_claim c); [done| | |by destruct (c_pc c)].
  - destruct Hcl as [? [?|[_ ?]]]; (split; [done|]); [by left|by right].
  - destruct Hcl as [? [?|[_ ?]]]; (split; [done|]); [by left|by right].
Qed.

Lemma not_joined s j c :
  caller_ok s j c -> c_pc c = CLookup \/ c_pc c = CMissed -> c_claim c = KNone.
Proof.
  intros (Hcl & _) Hp. destruct (c_claim c) as [|n|cr|]; [done|..].
  - destruct Hcl as (_ & [Hw|[_ Hl]]); destruct Hp as [Hp|Hp]; by rewrite Hp in *.
  - destruct Hcl as (_ & [(? & Hw & _)|[_ Hl]]); destruct Hp as [Hp|Hp]; by rewrite Hp in *.
  - destruct Hp as [Hp|Hp]; by rewrite Hp in *.
Qed.

Lemma lookup_inv i r s s' : Inv s -> lookup i r s = Some s' -> Inv s'.
Proof.
  unfold lookup. intros HI He. inv_bind. destruct (c_pc c) eqn:Hc; try done. caller_at.
  pose proof (not_joined s i c (i_callers _ HI i c E) (or_introl Hc)) as Hk.
  assert (~ has_file c) as Hnf by (unfold has_file; rewrite Hc, Hk; tauto).
  destruct r as [| |legacy].
  1,2: injection He as <-; eapply caller_step; try done;
    [intros k; unfold owes; by rewrite Hc, Hk
    |unfold has_file; rewrite Hc, Hk; simpl; tauto
    |split; [|split]; simpl; [done..|]; rewrite Hc in Hadm; intros Ha; by apply Hadm].
  inv_bind. subst s'. eapply caller_heap_step; try done.
  - eapply HInv_ext; [| |apply (HInv_open _ _ _ _ (files s) i), (i_heap _ HI)].
    + intros k. unfold owed at 1. simpl. rewrite (owed_set _ _ c) by done.
      unfold owes. rewrite Hc, Hk. simpl. rewrite owes_cr_none by done. lia.
    + intros k. unfold files at 1. simpl. rewrite files_insert. fold (files s k).
      assert (has_file (at_cpc (CReturned (hitResult (file_of i) (Z.of_nat (length l)) (c_start c))) KNone true c)).
      { right. simpl. done. }
      destruct (decide (k = i)); tauto.
  - by intros k f Hf; exists f.
  - split; [|split]; simpl; [done| |done]. left. done.
Qed.

Lemma see_admitted_inv i s s' : Inv s -> see_admitted i s = Some s' -> Inv s'.
Proof.
  unfold see_admitted. intros HI He. inv_bind. destruct (c_pc c) as [| |n|n|cr|] eqn:Hc; try done.
  inv_bind. subst s'. caller_at. rewrite Hc in *.
  eapply caller_step; try done.
  - intros k. unfold owes. simpl. by rewrite Hc.
  - unfold has_file. simpl. rewrite Hc. tauto.
  - split; [|split]; simpl; [|by eauto|done]. destruct (c_claim c); try done;
      destruct Hcl as [? [Hw|[_ Hl]]]; try (by rewrite Hc in Hl); (split; [done|]); by left.
Qed.

Lemma abandon_inv i s s' : Inv s -> abandon i s = Some s' -> Inv s'.
Proof.
  unfold abandon. intros HI He. inv_bind. caller_at.
  assert (exists e, gone c = Some e /\
    s' = set_caller i (at_cpc (CReturned (errResult e)) (c_claim c) true c) s) as (e & Hg & ->).
  { destruct (c_pc c); try done; destruct (gone c) as [e|] eqn:Hg; try done;
      injection He as <-; eauto. }
  assert (exists n, c_pc c = CWaitAdmitted n \/ c_pc c = CWaitOut n) as [n Hn].
  { destruct (c_pc c); try done; eauto. }
  clear He. eapply caller_step; try done.
  - intros k. unfold owes. simpl. by destruct Hn as [-> | ->].
  - unfold has_file, has_file_cr. simpl. destruct Hn as [-> | ->]; tauto.
  - split; [|split]; simpl; [|done|done].
    destruct (c_claim c); [done| | |done].
    + destruct Hcl. split; [done|]. right. unfold left. simpl. rewrite Hg. eauto.
    + destruct Hcl. split; [done|]. right. unfold left. simpl. rewrite Hg. eauto.
Qed.

Lemma hand_inv i s s' : Inv s -> hand i s = Some s' -> Inv s'.
Proof.
  unfold hand. intros HI He. inv_bind. caller_at.
  destruct (c_pc c) as [| |n|n|cr|] eqn:Hc; try done.
  destruct (c_claim c) as [|m|cr|] eqn:Hk; try done. inv_bind. subst s'.
  eapply caller_step; try done.
  - intros k. unfold owes. simpl. rewrite Hc, Hk. simpl. lia.
  - unfold has_file. simpl. rewrite Hc, Hk. tauto.
  - split; [|split]; simpl; [done| |done]. apply Hcl.
Qed.

Lemma waits_not_returned n pc cr : waits_on n pc -> pc <> CReturned cr.
Proof. by destruct pc. Qed.

(** While the claim goroutine has a result, the caller has none of its own. *)
Lemma other_result s c cr :
  (exists n, waits_on n (c_pc c) /\ settled s n) \/ left c -> c_pc c = CReturned cr ->
  file cr = None /\ done cr = None.
Proof.
  intros [(n & Hw & _)|[_ Hl]] He; [by eapply waits_not_returned in He|].
  rewrite He in Hl. by destruct Hl as [e ->].
Qed.

Lemma drop_claim_ok i s c cr e :
  Inv s -> small s -> callers s !! i = Some c -> c_claim c = KHave cr -> gone c = Some e ->
  exists s', drop_claim i s = Some s' /\ Inv s'.
Proof.
  intros HI Hsm E Hk Hg. unfold drop_claim. rewrite E. simpl. rewrite Hk, Hg. simpl. caller_at.
  rewrite Hk in Hcl. destruct Hcl as [Hr Hw].
  destruct (close_step s i c (at_cpc (c_pc c) KGone (c_admitted c) c) cr HI Hsm) as (h' & cr' & Hcl & Hok);
    try done.
  - intros k. unfold owes. simpl. rewrite Hk. simpl. lia.
  - intros _ [[]|Hcr]. simpl in Hcr. destruct (c_pc c) as [| | | |cr1|] eqn:Hp; try done.
    apply Hcr. eapply (other_result s c); [by rewrite Hp|done].
  - intros [[]|?]. by right.
  - unfold has_file at 1. rewrite Hk. intros [?|?]; [by left|by right; right].
  - rewrite Hcl. simpl. eexists. split; [reflexivity|]. apply Hok.
    split; [|split]; [|done|done].
    simpl. rewrite Hg. destruct (c_pc c) eqn:Hp; try done; destruct Hw as [(? & ? & ?)|[_ Hl]]; try done;
      by rewrite Hp in Hl.
Qed.

Lemma drop_claim_inv i s s' : Inv s -> small s -> drop_claim i s = Some s' -> Inv s'.
Proof.
  intros HI Hsm He. pose proof He as He'. unfold drop_claim in He'. inv_bind.
  destruct (c_claim c) as [|m|cr|] eqn:Hk; try done. inv_bind.
  edestruct drop_claim_ok as (s1 & ? & ?); [done..|]. congruence.
Qed.

Lemma close_result_ok i s c cr :
  Inv s -> small s -> callers s !! i = Some c -> c_pc c = CReturned cr ->
  exists s', close_result i s = Some s' /\ Inv s'.
Proof.
  intros HI Hsm E Hc. unfold close_result. rewrite E. simpl. rewrite Hc. caller_at. rewrite Hc in Hpc.
  destruct (close_step s i c (at_cpc CClosed (c_claim c) (c_admitted c) c) cr HI Hsm)
    as (h' & cr' & Hclo & Hok); try done.
  - intros k. unfold owes. simpl. rewrite Hc. simpl. lia.
  - intros Hcr [Hk|[]]. simpl in Hk. destruct (c_claim c) as [|m|cr2|] eqn:Hkc; try done.
    destruct Hcl as [_ Hw]. apply Hcr. by eapply (other_result s c).
  - intros [?|[]]. by left.
  - unfold has_file at 1. rewrite Hc. intros [?|?]; [by right; left|by left].
  - rewrite Hclo. simpl. eexists. split; [reflexivity|]. apply Hok.
    rewrite Hc in Hcl. split; [|split]; simpl; [|done|done].
    destruct (c_claim c) as [|m|cr2|]; [done| | |done].
    + destruct Hcl as [? [Hw|[Hg _]]]; [done|]. split; [done|by right].
    + destruct Hcl as [? [(? & ? & ?)|[Hg _]]]; [done|]. split; [done|by right].
Qed.

Lemma close_result_inv i s s' : Inv s -> small s -> close_result i s = Some s' -> Inv s'.
Proof.
  intros HI Hsm He. pose proof He as He'. unfold close_result in He'. inv_bind.
  destruct (c_pc c) as [| |n|n|cr|] eqn:Hc; try done.
  edestruct close_result_ok as (s1 & ? & ?); [done..|]. congruence.
Qed.

(** A call that is done has no lead. *)
Lemma done_no_lead s n sc :
  Inv s -> sf.g_calls (sfg s) !! n = Some sc -> sf.done sc = true -> leads s !! n = None.
Proof.
  intros HI Hc Hd. destruct (leads s !! n) as [l|] eqn:Hl; [|done].
  destruct (h_lead _ _ _ _ _ (i_heap _ HI) n l Hl) as (_ & _ & sc' & Hc' & ? & _).
  congruence.
Qed.

Lemma waits_any s n (c : caller) :
  settled s n -> waits_on n (c_pc c) \/ left c -> (exists n, waits_on n (c_pc c) /\ settled s n) \/ left c.
Proof. intros ? [?|?]; [left; by exists n|by right]. Qed.

(** The claim goroutine with a result. *)
Definition claimed (c : caller) (cr : chunkResult) : caller :=
  at_cpc (c_pc c) (KHave cr) (c_admitted c) c.

Lemma claimed_owes c cr n k :
  c_claim c = KWait n ->
  owes k (claimed c cr) = owes k c - (if decide (k = n) then 1 else 0) + owes_cr k cr.
Proof. intros Hk. unfold owes. simpl. rewrite Hk. simpl. do 2 case_decide; congruence || lia. Qed.

Lemma claimed_ok s i c cr n :
  caller_ok s i c -> c_claim c = KWait n -> settled s n -> result_ok s i cr -> caller_ok s i (claimed c cr).
Proof.
  intros (Hcl & Hpc & Hadm) Hk Hs Hr. split; [|split]; simpl; [|done|done]. split; [done|].
  rewrite Hk in Hcl. apply (waits_any s n c Hs), Hcl.
Qed.

(** The reference passes to the result. *)
Lemma claim_keeps s i c cr n :
  Inv s -> callers s !! i = Some c -> c_claim c = KWait n -> settled s n -> result_ok s i cr ->
  done cr = Some n -> file cr = None -> Inv (set_caller i (claimed c cr) s).
Proof.
  intros HI E Hk Hs Hr Hd Hf. eapply caller_step; try done.
  - intros k. rewrite (claimed_owes c cr n k Hk). unfold owes_cr. rewrite Hd.
    do 2 case_decide; congruence || lia.
  - unfold has_file. simpl. rewrite Hk. unfold has_file_cr at 1. rewrite Hf. tauto.
  - eapply claimed_ok; try done. by apply (i_callers _ HI).
Qed.

(** The reference is dropped: the result is an error or a private file. *)
Lemma claim_drops s i c cr n h :
  Inv s -> small s -> callers s !! i = Some c -> c_claim c = KWait n -> settled s n ->
  result_ok s i cr -> done cr = None -> nflights h <= int64_max ->
  HInv (sfg s) (leads s) h (owed s) (fun k => (k = i /\ has_file_cr cr) \/ files s k) ->
  same_flights (hp s) h -> budget.units_cap (bud h) = budget.units_cap (bud (hp s)) ->
  exists h', unref n h = Some h' /\ Inv (set_caller i (claimed c cr) (set_hp h' s)).
Proof.
  intros HI Hsm E Hk Hs Hr Hd Hnf HH Hsf Hcap. pose proof Hs as [Hl [f Hf]].
  destruct (caller_unref_step s i c (claimed c cr) n h (fun k => (k = i /\ has_file_cr cr) \/ files s k)
    HI Hsm E) as (h' & Hu & Hinv & _); try done.
  - by apply (h_call _ _ _ _ _ (i_heap _ HI) n f).
  - intros k. rewrite (claimed_owes c cr n k Hk). rewrite owes_cr_none by done. lia.
  - intros s1 Hs1 k. unfold files at 1. rewrite Hs1, files_insert. fold (files s k).
    assert (has_file (claimed c cr) <-> has_file_cr cr \/ has_file c) as ->.
    { unfold has_file. simpl. rewrite Hk. tauto. }
    destruct (decide (k = i)) as [->|]; [|tauto].
    assert (files s i <-> has_file c) as ->; [|tauto].
    unfold files. split; [intros (c0 & ? & ?); by simplify_eq|eauto].
  - exists h'. split; [done|]. apply Hinv. eapply claimed_ok; try done. by apply (i_callers _ HI).
Qed.

Lemma claim_ok i o s c n sc :
  Inv s -> small s -> callers s !! i = Some c -> c_claim c = KWait n ->
  sf.g_calls (sfg s) !! n = Some sc -> sf.done sc = true ->
  exists s', claim_flight i o s = Some s' /\ Inv s'.
Proof.
  intros HI Hsm E Hk Hsc Hd. pose proof (i_heap _ HI) as HH.
  pose proof (done_no_lead s n sc HI Hsc Hd) as Hl.
  destruct (h_done _ _ _ _ _ HH n sc Hsc Hl) as (_ & Hres & _ & f & Hf & Hfi & _).
  assert (settled s n) as Hset by (split; [done|by exists f]).
  unfold claim_flight. rewrite E. simpl. rewrite Hk, Hsc. simpl. rewrite Hd, Hres. simpl.
  unfold claim. rewrite Hf. simpl. destruct (fl_err f) as [e|] eqn:Hfe.
  - set (cr := {| data := None |}).
    destruct (claim_drops s i c cr n (hp s) HI Hsm E Hk Hset) as (h' & Hu & Hi); try done;
      [by apply nflights_bound| |by intros k f0 Hf0; exists f0
      |rewrite Hu; simpl; eexists; split; [reflexivity|exact Hi]].
    eapply HInv_ext; [done| |exact HH]. intros k. unfold has_file_cr. simpl. tauto.
  - destruct (buf f) as [d|] eqn:Hb.
    { simpl. eexists. split; [reflexivity|]. eapply (claim_keeps s i c _ n HI E Hk Hset); [|done..].
      right. split; [done|]. exists n, f. repeat split; try done. right. by rewrite Hb. }
    unfold open_path. destruct (if o then _ else None) as [[h1 fh]|] eqn:Ho.
    + destruct o; [|done]. destruct (disk (hp s) !! fl_path f) as [d|]; [|done].
      simpl in Ho. injection Ho as <- <-. simpl.
      set (cr := {| data := None |}).
      destruct (claim_drops s i c cr n (set_handles (<[file_of i := d]> (handles (hp s))) (hp s))
        HI Hsm E Hk Hset) as (h' & Hu & Hi); try done;
        [by left|by apply nflights_bound| |by intros k f0 Hf0; exists f0
        |rewrite Hu; simpl; eexists; split; [reflexivity|exact Hi]].
      eapply HInv_ext; [done| |by apply HInv_open]. intros k. unfold has_file_cr. simpl.
      assert (Some (file_of i) <> None) by done. tauto.
    + unfold filled in Hfi. rewrite Hfe, Hb in Hfi. destruct (pin f) as [p|] eqn:Hp; [|done]. subst p.
      simpl. eexists. split; [reflexivity|]. eapply (claim_keeps s i c _ n HI E Hk Hset); [|done..].
      right. split; [done|]. exists n, f. repeat split; try done. by left.
Qed.

Lemma claim_inv i o s s' : Inv s -> small s -> claim_flight i o s = Some s' -> Inv s'.
Proof.
  intros HI Hsm He. pose proof He as He'. unfold claim_flight in He'. inv_bind.
  destruct (c_claim c) as [|n|cr|] eqn:Hk; try done. inv_bind.
  edestruct (claim_ok i o) as (s1 & ? & ?); [done..|]. congruence.
Qed.

(** ** Joining *)

Definition more (ow : nat -> Z) (i k : nat) : Z := if decide (k = i) then ow k + 1 else ow k.

Lemma HInv_join g L h ow fs n sc l :
  HInv g L h ow fs -> L !! n = Some l -> l_pc l <> LPublish -> sf.g_calls g !! n = Some sc ->
  0 <= ow n < int32_max -> HInv (sf.set_call n (sf.add_waiter sc) g) L h (more ow n) fs.
Proof.
  intros HI Hl Hpc Hsc How. split; try apply HI.
  - intros k lk Hk. destruct (h_lead _ _ _ _ _ HI k lk Hk) as (Hs & H0 & sck & Hck & Hd & Hr & Ha & Hm).
    split; [done|]. unfold more. simpl. destruct (decide (k = n)) as [->|Hne].
    + simplify_eq. split; [lia|]. exists (sf.add_waiter sc). rewrite lookup_insert_eq.
      do 3 (split; [done|]). split; [done|].
      destruct (l_pc l); try done; destruct Hm as [? Hm]; (split; [|done]) || idtac; simpl;
        try (rewrite wrap32_small by (unfold int32_max in *; lia); congruence).
      split; [done|]. rewrite wrap32_small by (unfold int32_max in *; lia). congruence.
    + split; [done|]. exists sck. by rewrite lookup_insert_ne.
  - intros k sck. simpl. rewrite lookup_insert_Some. intros [[-> _]|[Hne Hk]] Hkl; [congruence|].
    unfold more. rewrite decide_False by done. by apply (h_done _ _ _ _ _ HI).
  - intros k f Hf. simpl. apply lookup_insert_is_Some'. right. by eapply (h_call _ _ _ _ _ HI).
Qed.

Lemma HInv_new g L h ow fs n l m :
  HInv g L h ow fs -> L !! n = None -> sf.g_calls g !! n = None -> ow n = 0 ->
  1 <= l_size l <= C -> l_pc l = LStart ->
  HInv {| sf.g_m := m; sf.g_calls := <[n := {| sf.admitted := false; sf.done := false;
            sf.res := None; sf.waiters := 1 |}]> (sf.g_calls g) |}
    (<[n := l]> L) h (more ow n) fs.
Proof.
  intros HI Hl Hsc How Hsz Hpc.
  assert (flights h !! n = None) as Hfn.
  { apply eq_None_not_Some. intros [f Hf]. apply (h_call _ _ _ _ _ HI) in Hf as [? ?]. congruence. }
  split; simpl; try apply HI.
  - intros k lk. rewrite lookup_insert_Some. unfold more. intros [[<- <-]|[Hne Hk]].
    + split; [done|]. rewrite decide_True, How by done. split; [lia|]. eexists.
      rewrite lookup_insert_eq. split; [done|]. rewrite Hpc. repeat split; done.
    + destruct (h_lead _ _ _ _ _ HI k lk Hk) as (? & ? & sck & Hck & ?).
      rewrite decide_False by done. do 2 (split; [done|]). exists sck. by rewrite lookup_insert_ne.
  - intros k sck. rewrite !lookup_insert_Some, lookup_insert_None.
    intros [[<- _]|[Hne Hk]] [Hkl ?]; [done|]. unfold more. rewrite decide_False by done.
    by apply (h_done _ _ _ _ _ HI).
  - intros k f Hf. apply lookup_insert_is_Some'. right. by eapply (h_call _ _ _ _ _ HI).
  - intros k Hk. destruct (h_queue _ _ _ _ _ HI k Hk) as (lk & Hlk & ?). exists lk.
    rewrite lookup_insert_ne; [done|]. intros ->. congruence.
  - rewrite msum_insert_new by done. unfold lead_holds at 1. rewrite Hpc. apply HI.
  - rewrite msum_insert_new by done. unfold lead_bytes at 1. rewrite Hpc. apply HI.
Qed.

Lemma caller_joins s j c n g' :
  caller_ok s j c -> c_claim c = KNone -> c_pc c = CMissed -> is_Some (sf.g_calls g' !! n) ->
  forall s', sfg s' = g' -> caller_ok s' j (at_cpc (CWaitAdmitted n) (KWait n) (c_admitted c) c).
Proof.
  intros (H1 & H2 & H3) Hk Hp Hn s' <-. split; [|split]; simpl.
  - split; [done|]. by left.
  - done.
  - rewrite Hp in H3. exact H3.
Qed.

Lemma owed_fresh s n : Inv s -> sf.g_calls (sfg s) !! n = None -> owed s n = 0.
Proof.
  intros HI Hn. apply msum_zero. intros j c Hj.
  destruct (i_callers _ HI j c Hj) as (Hcl & Hpc & _).
  assert (forall cr, result_ok s j cr -> owes_cr n cr = 0) as Hcr.
  { intros cr Hr. unfold owes_cr. case_decide as Hd; [|done]. unfold result_ok in Hr.
    destruct (err cr); [naive_solver|].
    destruct Hr as [(_ & _ & _ & ?)|(_ & i & f & Hd' & _ & [x Hx] & _)]; congruence. }
  unfold owes. replace (owes_pc n (c_pc c)) with 0.
  - destruct (c_claim c) as [|m|cr|]; simpl; try done.
    + destruct Hcl as [[x Hx] _]. rewrite decide_False; [done|]. intros ->. congruence.
    + rewrite Hcr; [done|]. apply Hcl.
  - destruct (c_pc c); try done. simpl. by rewrite Hcr.
Qed.

Lemma join_owes s i c n k :
  callers s !! i = Some c -> c_claim c = KNone -> c_pc c = CMissed ->
  msum (owes k) (<[i := at_cpc (CWaitAdmitted n) (KWait n) (c_admitted c) c]> (callers s)) =
  more (owed s) n k.
Proof.
  intros Hi Hk Hp. rewrite (owed_set _ _ c) by done. unfold owes. simpl. rewrite Hk, Hp. simpl.
  unfold more. do 2 case_decide; congruence || lia.
Qed.

Lemma join_files s i c n k :
  callers s !! i = Some c -> c_claim c = KNone -> c_pc c = CMissed ->
  (exists c0, <[i := at_cpc (CWaitAdmitted n) (KWait n) (c_admitted c) c]> (callers s) !! k = Some c0 /\
     has_file c0) <-> files s k.
Proof.
  intros Hi Hk Hp. rewrite files_insert. unfold has_file at 1. simpl.
  split; [intros [[_ [[]|[]]]|[_ ?]]; done|]. intros (c0 & Hc0 & Hf).
  destruct (decide (k = i)) as [->|Hne]; [|right; split; [done|by exists c0]].
  simplify_eq. unfold has_file in Hf. rewrite Hk, Hp in Hf. tauto.
Qed.

(** A call in flight is joined. *)
Lemma join_existing s i c n l sc :
  Inv s -> small s -> callers s !! i = Some c -> c_claim c = KNone -> c_pc c = CMissed ->
  leads s !! n = Some l -> l_pc l <> LPublish -> sf.g_calls (sfg s) !! n = Some sc ->
  Inv (set_caller i (at_cpc (CWaitAdmitted n) (KWait n) (c_admitted c) c)
         (set_sfg (sf.set_call n (sf.add_waiter sc) (sfg s)) s)).
Proof.
  intros HI Hsm Hi Hk Hp Hl Hpc Hsc. pose proof (i_callers _ HI i c Hi) as Hok.
  pose proof (owed_bound s n HI). unfold small in Hsm.
  match goal with |- Inv ?x => assert (extends s x) as He end.
  { split; simpl; [|intros k f Hf Hkl; split; [done|by exists f]].
    intros k sck Hck. destruct (decide (k = n)) as [->|Hne].
    - simplify_eq. exists (sf.add_waiter sc). by rewrite lookup_insert_eq.
    - exists sck. by rewrite lookup_insert_ne. }
  split; simpl.
  - intros k Hk'. destruct (i_ids _ HI k Hk') as (Hlk & Hck & Hgk).
    rewrite !lookup_insert_ne; [done|congruence..].
  - apply (i_map _ HI).
  - intros k ck. rewrite lookup_insert_Some. intros [[<- <-]|[_ Hkc]].
    + eapply (caller_joins s i c n _ Hok Hk Hp); [|reflexivity]. simpl.
      apply lookup_insert_is_Some'. by left.
    + eapply caller_ok_extends; [exact He|by apply (i_callers _ HI)].
  - intros k ck. rewrite lookup_insert_Some. intros [[_ <-]|[_ Hkc]]; [|by apply (i_bounds _ HI k)].
    simpl. by apply (i_bounds _ HI i).
  - eapply HInv_ext; [intros k; by apply join_owes|intros k; by apply join_files|].
    apply (HInv_join _ _ _ _ _ _ _ l); [apply (i_heap _ HI)|done|done|done|]. unfold owed in *. simpl. lia.
  - apply (i_cap _ HI).
  - apply (i_units _ HI).
Qed.

(** A new call, with its lead. *)
Lemma join_new s i c :
  Inv s -> callers s !! i = Some c -> c_claim c = KNone -> c_pc c = CMissed ->
  sf.g_m (sfg s) !! sfKey (c_key c) (c_start c) (c_v c) = None ->
  let n := next s in
  Inv {| sfg := {| sf.g_m := <[sfKey (c_key c) (c_start c) (c_v c) := n]> (sf.g_m (sfg s));
                   sf.g_calls := <[n := {| sf.admitted := false; sf.done := false;
                     sf.res := None; sf.waiters := 1 |}]> (sf.g_calls (sfg s)) |};
         hp := hp s;
         callers := <[i := at_cpc (CWaitAdmitted n) (KWait n) (c_admitted c) c]> (callers s);
         next := S n;
         leads := <[n := {| l_key := c_key c; l_v := c_v c; l_start := c_start c;
                            l_end := c_end c; l_pc := LStart |}]> (leads s) |}.
Proof.
  intros HI Hi Hk Hp Hm n. destruct (i_ids _ HI n (le_n _)) as (Hnl & Hnc & Hng).
  set (l := {| l_key := c_key c |}). pose proof (i_callers _ HI i c Hi) as Hok.
  destruct (i_bounds _ HI i c Hi) as (Hb1 & Hb2 & Hb3).
  match goal with |- Inv ?x => assert (extends s x) as He end.
  { split; simpl.
    - intros k sck Hck. exists sck. rewrite lookup_insert_ne; [done|congruence].
    - intros k f Hf Hkl. split; [|by exists f].
      apply lookup_insert_None. split; [done|]. intros <-.
      apply (h_call _ _ _ _ _ (i_heap _ HI)) in Hf as [? ?]. congruence. }
  split; simpl.
  - intros k Hk'. destruct (i_ids _ HI k ltac:(lia)) as (Hlk & Hck & Hgk).
    rewrite !lookup_insert_ne; [done|try lia; congruence..].
  - intros key k. rewrite !lookup_insert_Some. split.
    + intros [[<- <-]|[Hne Hg]].
      * exists l. by rewrite lookup_insert_eq.
      * apply (i_map _ HI) in Hg as (lk & Hlk & ? & ?). exists lk.
        rewrite lookup_insert_ne; [done|congruence].
    + intros (lk & Hlk & Hpk & Hkk). apply lookup_insert_Some in Hlk as [[<- <-]|[Hne Hlk]]; [by left|].
      right. assert (sf.g_m (sfg s) !! key = Some k) as Hgk by (apply (i_map _ HI); eauto).
      split; [congruence|done].
  - intros k ck. rewrite lookup_insert_Some. intros [[<- <-]|[_ Hkc]].
    + eapply (caller_joins s i c n _ Hok Hk Hp); [|reflexivity]. simpl.
      apply lookup_insert_is_Some'. by left.
    + eapply caller_ok_extends; [exact He|by apply (i_callers _ HI)].
  - intros k ck. rewrite lookup_insert_Some. intros [[_ <-]|[_ Hkc]]; [|by apply (i_bounds _ HI k)].
    simpl. by apply (i_bounds _ HI i).
  - eapply HInv_ext; [intros k; by apply join_owes|intros k; by apply join_files|].
    apply HInv_new; [apply (i_heap _ HI)|done|done|by apply owed_fresh| |done].
    unfold l_size. simpl. assert (int64_max = 9223372036854775807) by done.
    rewrite (wrap64_small (c_end c - c_start c)) by (unfold int64_min; lia).
    rewrite wrap64_small by (unfold int64_min; lia). lia.
  - apply (i_cap _ HI).
  - apply (i_units _ HI).
Qed.

Lemma join_inv i s s' : Inv s -> small s -> join i s = Some s' -> Inv s'.
Proof.
  unfold join. intros HI Hsm He. inv_bind. caller_at.
  destruct (c_pc c) eqn:Hc; try done.
  pose proof (not_joined s i c (i_callers _ HI i c E) (or_intror Hc)) as Hk.
  destruct (gone c) as [e|].
  { injection He as <-. eapply caller_step; try done.
    - intros k. unfold owes. by rewrite Hc, Hk.
    - unfold has_file. rewrite Hc, Hk. simpl. unfold has_file_cr. simpl. tauto. }
  unfold sf.join in He. destruct (sf.g_m (sfg s) !! _) as [n|] eqn:Hm.
  - pose proof Hm as (l & Hl & Hpl & _)%(i_map _ HI).
    destruct (sf.g_calls (sfg s) !! n) as [sc|] eqn:Hsc; [|done]. simpl in He. injection He as <-.
    by eapply join_existing.
  - simpl in He. injection He as <-. by apply join_new.
Qed.

(** ** Steps of a lead *)

Definition old {A} (F : A -> Z) (o : option A) : Z := match o with Some x => F x | None => 0 end.

Lemma msum_insert_opt {K A} `{Countable K} (F : A -> Z) (m : gmap K A) i x :
  msum F (<[i := x]> m) = msum F m - old F (m !! i) + F x.
Proof.
  destruct (m !! i) as [y|] eqn:Hi; simpl.
  - by rewrite (msum_insert_old _ _ _ _ _ Hi).
  - rewrite (msum_insert_new _ _ _ _ Hi). lia.
Qed.

Lemma lead_flight_of g L h ow fs i l :
  HInv g L h ow fs -> L !! i = Some l -> l_pc l <> LStart ->
  exists f, flights h !! i = Some f /\ lead_flight i l f.
Proof.
  intros HI Hl Hpc. destruct (h_lead _ _ _ _ _ HI i l Hl) as (_ & _ & sc & _ & _ & _ & _ & Hm).
  destruct (l_pc l); try done; destruct Hm as (? & Hm); try (by destruct Hm as (? & ? & ?); eauto).
Qed.

Lemma lead_call_of g L h ow fs i l :
  HInv g L h ow fs -> L !! i = Some l ->
  exists sc, sf.g_calls g !! i = Some sc /\ sf.done sc = false /\ sf.res sc = None /\
    (sf.admitted sc = true -> past_unit (l_pc l)) /\ (l_pc l <> LPublish -> sf.waiters sc = ow i).
Proof.
  intros HI Hl. destruct (h_lead _ _ _ _ _ HI i l Hl) as (_ & _ & sc & ? & ? & ? & ? & Hm).
  exists sc. do 4 (split; [done|]). intros Hpc. by destruct (l_pc l); try done; destruct Hm.
Qed.

(** A lead moves to [pc'], its flight becomes [f'] and its call [sc']. *)
Lemma HInv_lead g L h ow fs i l pc' sc' f' g' h' :
  HInv g L h ow fs -> L !! i = Some l -> let l' := at_pc pc' l in
  sf.g_calls g' = <[i := sc']> (sf.g_calls g) ->
  (sf.done sc' = false /\ sf.res sc' = None /\ (sf.admitted sc' = true -> past_unit pc')) ->
  flights h' = <[i := f']> (flights h) -> lead_flight i l' f' -> pc' <> LStart ->
  match pc' with LPublish => refs f' = ow i | _ => sf.waiters sc' = ow i end ->
  (forall n, is_Some (handles h' !! n) <->
     is_Some (handles h !! n) \/ (n = pin_of i /\ pin f' <> None)) ->
  (forall f, flights h !! i = Some f -> pin f <> None -> pin f' <> None) ->
  budget.wf (bud h') ->
  (forall k, k ∈ budget.units_queue (bud h') ->
     (k <> i /\ k ∈ budget.units_queue (bud h)) \/ (k = i /\ pc' = LParked)) ->
  budget.units_held (bud h') + Z.of_nat (length (budget.units_queue (bud h'))) =
    budget.units_held (bud h) + Z.of_nat (length (budget.units_queue (bud h)))
    - lead_holds l + lead_holds l' - old fl_unit (flights h !! i) + fl_unit f' ->
  budget.inUse (bud h') = budget.inUse (bud h) - lead_bytes l + lead_bytes l'
    - old fl_bytes (flights h !! i) + fl_bytes f' ->
  nflights h' = nflights h - old fl_live (flights h !! i) + fl_live f' ->
  HInv g' (<[i := l']> L) h' ow fs.
Proof.
  intros HI Hl l' Hg (Hd & Hre & Had) Hfl Hlf Hns Hcnt Hh Hpin Hwf Hq Hu Hb Hn.
  destruct (h_lead _ _ _ _ _ HI i l Hl) as (Hsz & Hpos & sc & Hsc & _).
  split; rewrite ?Hg, ?Hfl.
  - intros k lk. rewrite lookup_insert_Some. intros [[<- <-]|[Hne Hk]].
    + split; [done|]. split; [done|]. exists sc'. rewrite !lookup_insert_eq.
      do 4 (split; [done|]). simpl. destruct pc'; try done; try (split; [done|]; by exists f').
      by exists f'.
    + rewrite !lookup_insert_ne by done. by apply (h_lead _ _ _ _ _ HI).
  - intros k sck. rewrite lookup_insert_None. intros Hk [Hkl Hne].
    rewrite lookup_insert_ne in Hk by done. rewrite lookup_insert_ne by done.
    by apply (h_done _ _ _ _ _ HI).
  - intros k fk. rewrite lookup_insert_Some, lookup_insert_is_Some'.
    intros [[<- _]|[_ Hk]]; [by left|right; by eapply (h_call _ _ _ _ _ HI)].
  - intros n. rewrite Hh, (h_handles _ _ _ _ _ HI n). destruct Hlf as (_ & Hfr & _). split.
    + intros [[(k & fk & -> & Hk & Hp & Hfk)|?]|[-> ?]]; [|by right|].
      * left. destruct (decide (k = i)) as [->|Hne].
        -- exists i, f'. rewrite lookup_insert_eq. eauto.
        -- exists k, fk. by rewrite lookup_insert_ne.
      * left. exists i, f'. by rewrite lookup_insert_eq.
    + intros [(k & fk & -> & Hk & Hp & Hfk)|?]; [|by left; right].
      apply lookup_insert_Some in Hk as [[<- <-]|[Hne Hk]]; [by right|]. left. left. by exists k, fk.
  - done.
  - intros k Hk. destruct (Hq k Hk) as [[Hne Hk']|[-> Hp]].
    + rewrite lookup_insert_ne by done. by apply (h_queue _ _ _ _ _ HI).
    + exists l'. by rewrite lookup_insert_eq.
  - rewrite !msum_insert_opt, Hl, Hu, (h_units _ _ _ _ _ HI). simpl. lia.
  - rewrite !msum_insert_opt, Hl, Hb, (h_bytes _ _ _ _ _ HI). simpl. lia.
  - rewrite msum_insert_opt, Hn, (h_live _ _ _ _ _ HI). lia.
Qed.

Lemma lead_heap_step s i l pc' g' h' sc sc' :
  Inv s -> leads s !! i = Some l -> l_pc l <> LPublish -> pc' <> LPublish ->
  sf.g_m g' = sf.g_m (sfg s) -> sf.g_calls (sfg s) !! i = Some sc ->
  sf.g_calls g' = <[i := sc']> (sf.g_calls (sfg s)) ->
  (sf.admitted sc = true -> sf.admitted sc' = true) ->
  (forall k, k <> i -> flights h' !! k = flights (hp s) !! k) ->
  budget.units_cap (bud h') = budget.units_cap (bud (hp s)) ->
  HInv g' (<[i := at_pc pc' l]> (leads s)) h' (owed s) (files s) ->
  Inv (set_lead i (at_pc pc' l) (set_hp h' (set_sfg g' s))).
Proof.
  intros HI Hl Hpc Hpc' Hm Hsc Hg Had Hfl Hcap HH.
  match goal with |- Inv ?x => assert (extends s x) as He end.
  { split; simpl.
    - rewrite Hg. intros k sck Hk. destruct (decide (k = i)) as [->|Hne].
      + simplify_eq. exists sc'. by rewrite lookup_insert_eq.
      + exists sck. by rewrite lookup_insert_ne.
    - intros k f Hf Hkl. assert (k <> i) as Hne by congruence.
      rewrite lookup_insert_ne, Hfl by done. split; [done|]. by exists f. }
  split; simpl.
  - intros k Hk. destruct (i_ids _ HI k Hk) as (? & ? & ?). rewrite Hg.
    rewrite !lookup_insert_ne; [done|congruence..].
  - intros key k. rewrite Hm, (i_map _ HI key k). split; intros (lk & Hlk & Hpk & Hkk).
    + destruct (decide (k = i)) as [->|Hne].
      * simplify_eq. exists (at_pc pc' l). by rewrite lookup_insert_eq.
      * exists lk. by rewrite lookup_insert_ne.
    + apply lookup_insert_Some in Hlk as [[<- <-]|[Hne Hlk]]; [by exists l|by exists lk].
  - intros k ck Hk. eapply caller_ok_extends; [exact He|by apply (i_callers _ HI)].
  - apply (i_bounds _ HI).
  - exact HH.
  - rewrite Hcap. apply (i_cap _ HI).
  - rewrite Hcap. apply (i_units _ HI).
Qed.

(** A step that leaves the call alone. *)
Lemma lead_step s i l pc' f' h' :
  Inv s -> leads s !! i = Some l -> l_pc l <> LPublish -> pc' <> LPublish -> pc' <> LStart ->
  (past_unit (l_pc l) -> past_unit pc') ->
  flights h' = <[i := f']> (flights (hp s)) -> lead_flight i (at_pc pc' l) f' ->
  (forall n, is_Some (handles h' !! n) <->
     is_Some (handles (hp s) !! n) \/ (n = pin_of i /\ pin f' <> None)) ->
  (forall f, flights (hp s) !! i = Some f -> pin f <> None -> pin f' <> None) ->
  budget.wf (bud h') -> budget.units_cap (bud h') = budget.units_cap (bud (hp s)) ->
  (forall k, k ∈ budget.units_queue (bud h') ->
     (k <> i /\ k ∈ budget.units_queue (bud (hp s))) \/ (k = i /\ pc' = LParked)) ->
  budget.units_held (bud h') + Z.of_nat (length (budget.units_queue (bud h'))) =
    budget.units_held (bud (hp s)) + Z.of_nat (length (budget.units_queue (bud (hp s))))
    - lead_holds l + lead_holds (at_pc pc' l) - old fl_unit (flights (hp s) !! i) + fl_unit f' ->
  budget.inUse (bud h') = budget.inUse (bud (hp s)) - lead_bytes l + lead_bytes (at_pc pc' l)
    - old fl_bytes (flights (hp s) !! i) + fl_bytes f' ->
  nflights h' = nflights (hp s) - old fl_live (flights (hp s) !! i) + fl_live f' ->
  Inv (goto i pc' l (set_hp h' s)).
Proof.
  intros HI Hl Hp1 Hp2 Hp3 Hpast Hfl Hlf Hh Hpin Hwf Hcap Hq Hu Hb Hn.
  destruct (lead_call_of _ _ _ _ _ _ _ (i_heap _ HI) Hl) as (sc & Hsc & Hd & Hr & Ha & Hw).
  assert (sf.g_calls (sfg s) = <[i := sc]> (sf.g_calls (sfg s))) as Hid by (by rewrite insert_id).
  change (Inv (set_lead i (at_pc pc' l) (set_hp h' (set_sfg (sfg s) s)))).
  eapply lead_heap_step; try done.
  - intros k Hne. by rewrite Hfl, lookup_insert_ne.
  - eapply HInv_lead; try done; [apply (i_heap _ HI)|by eauto|].
    specialize (Hw Hp1). by destruct pc'.
Qed.

Lemma queue_not_lead s i l k :
  Inv s -> leads s !! i = Some l -> l_pc l <> LParked -> k ∈ budget.units_queue (bud (hp s)) ->
  k <> i /\ k ∈ budget.units_queue (bud (hp s)).
Proof.
  intros HI Hl Hp Hk. split; [|done]. intros ->.
  destruct (h_queue _ _ _ _ _ (i_heap _ HI) i Hk) as (l' & ? & ?). congruence.
Qed.

Lemma handles_same (m : gmap nat bytes) i (p : option nat) n :
  p = None -> is_Some (m !! n) <-> is_Some (m !! n) \/ (n = pin_of i /\ p <> None).
Proof. intros ->. naive_solver. Qed.

Ltac lead_at :=
  match goal with
  | He : with_lead ?i ?s _ = Some _ |- _ =>
      unfold with_lead in He; destruct (leads s !! i) as [l|] eqn:Hl; [|done]; simpl in He
  end.

(** The flight of a lead that has started. *)
Ltac flight_at :=
  match goal with
  | HI : Inv ?s, Hl : leads ?s !! ?i = Some ?l, Hp : l_pc ?l = _ |- _ =>
      let f := fresh "f" in let Hf := fresh "Hf" in let Hlf := fresh "Hlf" in
      destruct (lead_flight_of _ _ _ _ _ i l (i_heap _ HI) Hl) as (f & Hf & Hlf);
      [by rewrite Hp|]; unfold lead_flight in Hlf; rewrite Hp in Hlf
  end.

Lemma l_size_at pc l : l_size (at_pc pc l) = l_size l.
Proof. done. Qed.

(** The equations of the accounts, at known program counters and flights. *)
Ltac account :=
  unfold old, lead_holds, lead_bytes, fl_bytes, fl_unit, fl_live; simpl;
  repeat match goal with
  | H : l_pc _ = _ |- _ => rewrite H
  | H : buf _ = _ |- _ => rewrite H
  | H : frees _ = _ |- _ => rewrite H
  end; simpl; rewrite ?l_size_at; try lia.

Lemma lead_start_inv i s s' : Inv s -> small s -> lead_start i s = Some s' -> Inv s'.
Proof.
  unfold lead_start. intros HI Hsm He. lead_at. destruct (l_pc l) eqn:Hp; try done.
  injection He as <-. pose proof (nflights_small s HI Hsm) as Hnf.
  destruct (h_lead _ _ _ _ _ (i_heap _ HI) i l Hl) as (_ & _ & sc & _ & _ & _ & _ & Hm).
  rewrite Hp in Hm. destruct Hm as [Hf _].
  pose proof (lead_sums_nonneg _ _ _ _ _ (i_heap _ HI)) as (_ & _ & _ & _ & Hlive).
  pose proof (h_live _ _ _ _ _ (i_heap _ HI)) as Hnl.
  apply (lead_step s i l LAcquire (new_flight l)); simpl; rewrite ?Hf, ?Hp; simpl; try done.
  - intros n. by apply handles_same.
  - apply (i_heap _ HI).
  - intros k Hk. left. eapply queue_not_lead; try done. congruence.
  - account.
  - account.
  - rewrite wrap64_small; [unfold fl_live; simpl; lia|].
    unfold int64_min, int64_max, int32_max in *. lia.
Qed.

Lemma lead_acquire_inv i s s' : Inv s -> lead_acquire i s = Some s' -> Inv s'.
Proof.
  unfold lead_acquire. intros HI He. lead_at. destruct (l_pc l) eqn:Hp; try done. flight_at.
  assert (i ∉ budget.units_queue (bud (hp s))) as Hni.
  { intros Hi. eapply queue_not_lead in Hi as [? _]; try done. congruence. }
  pose proof (budget.acquire_wf i _ Hni (h_wf _ _ _ _ _ (i_heap _ HI))) as Hwf.
  unfold budget.acquire in He, Hwf.
  destruct (budget.units_held (bud (hp s)) <? budget.units_cap (bud (hp s))) eqn:Hlt;
    injection He as <-.
  - apply (lead_step s i l LUnit f); simpl; rewrite ?Hf, ?Hp; try done.
    + by rewrite insert_id.
    + intros n. apply handles_same. apply Hlf.
    + intros f0 [= ->]. done.
    + intros k Hk. left. eapply queue_not_lead; try done. congruence.
    + account.
    + account.
    + account.
  - apply (lead_step s i l LParked f); simpl; rewrite ?Hf, ?Hp; try done.
    + by rewrite insert_id.
    + intros n. apply handles_same. apply Hlf.
    + intros f0 [= ->]. done.
    + intros k. rewrite elem_of_app, list_elem_of_singleton. intros [Hk| ->]; [left|by right].
      eapply queue_not_lead; try done. congruence.
    + rewrite length_app. account.
    + account.
    + account.
Qed.

Lemma lead_granted_inv i s s' : Inv s -> lead_granted i s = Some s' -> Inv s'.
Proof.
  unfold lead_granted. intros HI He. lead_at. destruct (l_pc l) eqn:Hp; try done. flight_at.
  case_decide as Hni; [done|]. injection He as <-.
  change (Inv (goto i LUnit l (set_hp (hp s) s))).
  apply (lead_step s i l LUnit f); rewrite ?Hf, ?Hp; try done.
  - by rewrite insert_id.
  - intros n. apply handles_same. apply Hlf.
  - intros f0 [= ->]. done.
  - apply (i_heap _ HI).
  - intros k Hk. left. split; [by intros ->|done].
  - account.
  - account.
  - account.
Qed.

Lemma with_err_filled i e f : empty_flight f -> filled i (with_err e f).
Proof. intros (_ & Hb & Hp). unfold filled. simpl. by rewrite Hb, Hp. Qed.

Lemma filter_ne_length (q : list nat) i :
  NoDup q -> i ∈ q -> length (filter (fun h => h <> i) q) = (length q - 1)%nat.
Proof.
  intros Hn Hi. induction Hn as [|x q Hx Hn IH]; [by apply elem_of_nil in Hi|].
  rewrite filter_cons. case_decide as Hxi; simpl.
  - apply elem_of_cons in Hi as [->|Hi]; [done|]. rewrite IH by done.
    destruct q; [by apply elem_of_nil in Hi|simpl; lia].
  - assert (x = i) as -> by (destruct (decide (x = i)); tauto).
    assert (filter (fun h => h <> i) q = q) as ->; [|lia].
    clear -Hx. induction q as [|y q IH]; [done|]. rewrite filter_cons, decide_True.
    + f_equal. apply IH. intros ?. apply Hx. by apply list_elem_of_further.
    + intros ->. apply Hx. apply list_elem_of_here.
Qed.

Lemma lead_timeout_inv i s s' : Inv s -> lead_timeout i s = Some s' -> Inv s'.
Proof.
  unfold lead_timeout. intros HI He. lead_at. destruct (flights (hp s) !! i) as [f|] eqn:Hf; [|done].
  simpl in He. set (f' := with_err _ f) in He.
  destruct (l_pc l) eqn:Hp; try done.
  - destruct (lead_flight_of _ _ _ _ _ i l (i_heap _ HI) Hl) as (f0 & Hf0 & Hlf); [congruence|].
    simplify_eq. unfold lead_flight in Hlf. rewrite Hp in Hlf. destruct Hlf as (Hsz & Hfr & Hem).
    apply (lead_step s i l LFinish f'); rewrite ?Hf, ?Hp; try done.
    + split; [done|]. split; [done|]. by apply with_err_filled.
    + intros n. apply handles_same. apply Hem.
    + intros f1 [= ->]. done.
    + apply (i_heap _ HI).
    + intros k Hk. left. eapply queue_not_lead; try done. congruence.
    + destruct Hem as (_ & Hb & _). account.
    + destruct Hem as (_ & Hb & _). account.
    + account.
  - destruct (lead_flight_of _ _ _ _ _ i l (i_heap _ HI) Hl) as (f0 & Hf0 & Hlf); [congruence|].
    simplify_eq. unfold lead_flight in Hlf. rewrite Hp in Hlf. destruct Hlf as (Hsz & Hfr & Hem).
    case_decide as Hq; [|done]. injection He as <-.
    pose proof (h_wf _ _ _ _ _ (i_heap _ HI)) as Hwf.
    apply (lead_step s i l LFinish f'); rewrite ?Hf, ?Hp; try done.
    + split; [done|]. split; [done|]. by apply with_err_filled.
    + intros n. apply handles_same. apply Hem.
    + intros f1 [= ->]. done.
    + by apply budget.acquire_cancel_wf.
    + intros k. simpl. rewrite list_elem_of_filter. intros [? ?]. by left.
    + simpl. rewrite filter_ne_length by (done || apply Hwf).
      assert (length (budget.units_queue (bud (hp s))) <> 0)%nat
        by (destruct (budget.units_queue _); [by apply elem_of_nil in Hq|done]).
      destruct Hem as (_ & Hb & _). account.
    + destruct Hem as (_ & Hb & _). account.
    + account.
Qed.

Lemma lead_admit_inv i s s' : Inv s -> lead_admit i s = Some s' -> Inv s'.
Proof.
  unfold lead_admit. intros HI He. lead_at. destruct (l_pc l) eqn:Hp; try done.
  destruct (lead_flight_of _ _ _ _ _ i l (i_heap _ HI) Hl) as (f & Hf & Hlf); [congruence|].
  destruct (lead_call_of _ _ _ _ _ _ _ (i_heap _ HI) Hl) as (sc & Hsc & Hd & Hr & Ha & Hw).
  rewrite Hsc in He. simpl in He. injection He as <-.
  unfold lead_flight in Hlf. rewrite Hp in Hlf.
  change (Inv (set_lead i (at_pc LAdmitted l) (set_hp (hp s)
    (set_sfg (sf.set_call i (sf.admit_ sc) (sfg s)) s)))).
  eapply (lead_heap_step s i l LAdmitted _ (hp s) sc); try done; [congruence|].
  eapply (HInv_lead _ _ _ _ _ i l LAdmitted (sf.admit_ sc) f); try done;
    rewrite ?Hf, ?Hp; try done.
  - apply (i_heap _ HI).
  - by rewrite insert_id.
  - apply Hw. congruence.
  - intros n. apply handles_same. apply Hlf.
  - intros f0 [= ->]. done.
  - apply (i_heap _ HI).
  - intros k Hk. left. eapply queue_not_lead; try done. congruence.
  - account.
  - account.
  - account.
Qed.

(** The counters of the lead sums at one lead. *)
Lemma lead_holds_ge s i l :
  Inv s -> leads s !! i = Some l -> lead_holds l <= msum lead_holds (leads s).
Proof.
  intros HI Hl. eapply (msum_ge _ _ i); [|done].
  intros k lk _. unfold lead_holds. destruct (l_pc lk); lia.
Qed.
Lemma lead_bytes_ge s i l :
  Inv s -> leads s !! i = Some l -> lead_bytes l <= msum lead_bytes (leads s).
Proof.
  intros HI Hl. eapply (msum_ge _ _ i); [|done]. intros k lk Hk.
  destruct (h_lead _ _ _ _ _ (i_heap _ HI) k lk Hk) as [? _].
  unfold lead_bytes. destruct (l_pc lk); lia.
Qed.

(** One more buffer still fits: its unit is already out. *)
Lemma alloc_fits s i l :
  Inv s -> leads s !! i = Some l -> l_pc l = LAdmitted ->
  0 <= budget.inUse (bud (hp s)) + l_size l <= int64_max.
Proof.
  intros HI Hl Hp. pose proof (i_cap _ HI) as [Hc1 Hc2]. pose proof (i_heap _ HI) as HH.
  destruct (h_lead _ _ _ _ _ HH i l Hl) as [Hsz _].
  pose proof (h_wf _ _ _ _ _ HH) as (Hheld & _ & Hn).
  pose proof (queue_parked _ _ Hn (h_queue _ _ _ _ _ HH)) as Hq.
  pose proof (h_units _ _ _ _ _ HH) as Hu. rewrite (h_bytes _ _ _ _ _ HH).
  destruct (lead_sums_nonneg _ _ _ _ _ HH) as (? & ? & ? & ? & _).
  assert (msum lead_holds (leads s) = msum lead_unit (leads s) + msum lead_parked (leads s)) as Hs.
  { rewrite <- msum_add. apply msum_ext. intros k lk _. unfold lead_unit. lia. }
  assert (msum lead_bytes (leads s) + l_size l <= C * msum lead_unit (leads s)) as Hb.
  { rewrite <- msum_scale, (msum_lookup lead_bytes _ _ _ Hl), (msum_lookup (fun x => C * lead_unit x) _ _ _ Hl).
    unfold lead_bytes at 1, lead_unit at 1, lead_holds at 1, lead_parked at 1. rewrite Hp.
    assert (msum lead_bytes (delete i (leads s)) <= msum (fun x => C * lead_unit x) (delete i (leads s))); [|lia].
    apply msum_le. intros k lk [_ Hk]%lookup_delete_Some.
    destruct (h_lead _ _ _ _ _ HH k lk Hk) as [? _].
    unfold lead_bytes, lead_unit, lead_holds, lead_parked. destruct (l_pc lk); lia. }
  assert (msum fl_bytes (flights (hp s)) <= C * msum fl_unit (flights (hp s))) as Hfb.
  { rewrite <- msum_scale. apply msum_le. intros k f Hk. unfold fl_bytes.
    pose proof (flight_size _ _ _ _ _ _ _ HH Hk). pose proof (fl_unit_range f). nia. }
  split; [lia|]. nia.
Qed.

Lemma lead_alloc_inv i s s' : Inv s -> lead_alloc i s = Some s' -> Inv s'.
Proof.
  unfold lead_alloc. intros HI He. lead_at. destruct (l_pc l) eqn:Hp; try done.
  injection He as <-. flight_at. pose proof (alloc_fits s i l HI Hl Hp) as Hfit.
  destruct Hlf as (Hsz & Hfr & Hem).
  apply (lead_step s i l LDownload f); simpl; rewrite ?Hf, ?Hp; try done.
  - by rewrite insert_id.
  - intros n. apply handles_same. apply Hem.
  - intros f0 [= ->]. done.
  - apply (i_heap _ HI).
  - intros k Hk. left. eapply queue_not_lead; try done. congruence.
  - account.
  - rewrite wrap64_small by (unfold int64_min in *; lia). account.
  - account.
Qed.

Lemma read_chunk_length n r d b :
  0 <= n -> read_chunk n r d = inr b -> Z.of_nat (length b) = n.
Proof.
  unfold read_chunk. intros Hn. destruct r as [e|[body e]]; [done|].
  destruct (Z.ltb_spec (Z.of_nat (length body)) n); [by destruct d|].
  intros [= <-]. rewrite length_take. lia.
Qed.

Lemma lead_download_inv i r d s s' : Inv s -> lead_download i r d s = Some s' -> Inv s'.
Proof.
  unfold lead_download. intros HI He. lead_at. destruct (l_pc l) eqn:Hp; try done.
  injection He as <-. flight_at. destruct Hlf as (Hsz & Hfr & Hem).
  destruct (h_lead _ _ _ _ _ (i_heap _ HI) i l Hl) as [Hls _].
  assert (forall pc', pc' <> LPublish -> pc' <> LStart -> past_unit pc' ->
    lead_flight i (at_pc pc' l) f -> lead_holds (at_pc pc' l) = 1 ->
    lead_bytes (at_pc pc' l) = l_size l -> pc' <> LParked -> Inv (goto i pc' l s)) as Hgo.
  { intros pc' H1 H2 H3 H4 H5 H6 H7. change (Inv (goto i pc' l (set_hp (hp s) s))).
    apply (lead_step s i l pc' f); rewrite ?Hf, ?Hp; try done.
    - by rewrite insert_id.
    - intros n. apply handles_same. apply Hem.
    - intros f0 [= ->]. done.
    - apply (i_heap _ HI).
    - intros k Hk. left. eapply queue_not_lead; try done. congruence.
    - rewrite H5. account.
    - rewrite H6. account.
    - account. }
  destruct (read_chunk _ _ _) as [e|b] eqn:Hr; apply Hgo; try done.
  split; [done|]. split; [done|]. split; [done|]. rewrite l_size_at. eapply read_chunk_length; [|done]. lia.
Qed.

(** A lead gives its unit and its buffer back. *)
Lemma lead_releases s i l :
  Inv s -> leads s !! i = Some l -> lead_holds l = 1 -> lead_bytes l = l_size l ->
  exists b', release_budget (l_size l) (hp s) = Some (set_bud b' (hp s)) /\ budget.wf b' /\
    budget.units_cap b' = budget.units_cap (bud (hp s)) /\
    budget.units_held b' + Z.of_nat (length (budget.units_queue b')) =
      budget.units_held (bud (hp s)) + Z.of_nat (length (budget.units_queue (bud (hp s)))) - 1 /\
    budget.inUse b' = budget.inUse (bud (hp s)) - l_size l /\
    (forall k, k ∈ budget.units_queue b' -> k ∈ budget.units_queue (bud (hp s))).
Proof.
  intros HI Hl Hh Hb. pose proof (i_heap _ HI) as HH. pose proof (i_cap _ HI) as [Hc1 Hc2].
  destruct (h_lead _ _ _ _ _ HH i l Hl) as [Hsz _].
  destruct (lead_sums_nonneg _ _ _ _ _ HH) as (? & ? & ? & ? & _).
  pose proof (lead_holds_ge s i l HI Hl). pose proof (lead_bytes_ge s i l HI Hl).
  destruct (release_ok _ _ _ _ _ (l_size l) HH Hc1 Hc2) as (b' & o & Hr & Hwf & Hcap & Hu & Huse & Hq);
    [rewrite (h_bytes _ _ _ _ _ HH); lia|lia|lia|].
  exists b'. unfold release_budget. rewrite Hr. rewrite (h_units _ _ _ _ _ HH).
  repeat split; try done; apply Hwf.
Qed.

Lemma lead_release_failed_inv i s s' : Inv s -> lead_release_failed i s = Some s' -> Inv s'.
Proof.
  unfold lead_release_failed. intros HI He. lead_at. destruct (l_pc l) eqn:Hp; try done. flight_at.
  destruct (lead_releases s i l HI Hl) as (b' & Hr & Hwf & Hcap & Hu & Huse & Hq); [account|account|].
  rewrite Hr in He. simpl in He. rewrite Hf in He. simpl in He. injection He as <-.
  destruct Hlf as (Hsz & Hfr & Hem). pose proof Hem as (_ & Hb & _).
  apply (lead_step s i l LFinish (with_err e f)); rewrite ?Hf, ?Hp; try done.
  - split; [done|]. split; [done|]. by apply with_err_filled.
  - intros n. apply handles_same. apply Hem.
  - intros f1 [= ->]. done.
  - intros k Hk. left. eapply queue_not_lead; try done; [congruence|by apply Hq].
  - simpl. rewrite Hu. account.
  - simpl. rewrite Huse. account.
  - account.
Qed.

Lemma lead_release_stored_inv i s s' : Inv s -> lead_release_stored i s = Some s' -> Inv s'.
Proof.
  unfold lead_release_stored. intros HI He. lead_at. destruct (l_pc l) eqn:Hp; try done. flight_at.
  destruct (lead_releases s i l HI Hl) as (b' & Hr & Hwf & Hcap & Hu & Huse & Hq); [account|account|].
  rewrite Hr in He. simpl in He. injection He as <-.
  destruct Hlf as (Hsz & Hfr & Her & Hb & Hpin).
  apply (lead_step s i l LFinish f); rewrite ?Hf, ?Hp; try done.
  - by rewrite insert_id.
  - split; [done|]. split; [done|]. unfold filled. by rewrite Her, Hb, Hpin.
  - intros n. simpl. split; [by left|]. intros [?|[-> _]]; [done|].
    apply (h_handles _ _ _ _ _ (i_heap _ HI)). left. exists i, f. by rewrite Hpin.
  - intros f1 [= ->]. done.
  - intros k Hk. left. eapply queue_not_lead; try done; [congruence|by apply Hq].
  - simpl. rewrite Hu. account.
  - simpl. rewrite Huse. account.
  - account.
Qed.

Lemma lead_put_inv i st s s' : Inv s -> lead_put i st s = Some s' -> Inv s'.
Proof.
  unfold lead_put. intros HI He. lead_at. destruct (l_pc l) eqn:Hp; try done. flight_at.
  destruct Hlf as (Hsz & Hfr & (Her & Hb & Hpin) & Hlen). rewrite Hf in He. simpl in He.
  destruct st; injection He as <-.
  - set (f' := with_pin _ _ f).
    apply (lead_step s i l LStored f'); simpl; rewrite ?Hf, ?Hp; try done.
    + intros n. rewrite lookup_insert_is_Some'. simpl.
      split; [intros [<-|?]; [by right|by left]|intros [?|[-> _]]; [by right|by left]].
    + apply (i_heap _ HI).
    + intros k Hk. left. eapply queue_not_lead; try done. congruence.
    + account.
    + account.
    + account.
  - set (f' := with_buf b f).
    apply (lead_step s i l LFinish f'); simpl; rewrite ?Hf, ?Hp; try done.
    + split; [done|]. split; [done|]. unfold filled. simpl. rewrite Her, Hpin. by rewrite Hlen.
    + intros n. by apply handles_same.
    + intros f1 [= ->]. by rewrite Hpin.
    + apply (i_heap _ HI).
    + intros k Hk. left. eapply queue_not_lead; try done. congruence.
    + account.
    + account.
    + account.
Qed.

(** [finish] takes the key out of the map: the caller count is final. *)
Lemma finish_map s i l key k :
  Inv s -> leads s !! i = Some l -> l_pc l = LFinish ->
  delete (l_sfKey l) (sf.g_m (sfg s)) !! key = Some k <->
  exists lk, <[i := at_pc LPublish l]> (leads s) !! k = Some lk /\ l_pc lk <> LPublish /\ l_sfKey lk = key.
Proof.
  intros HI Hl Hp.
  assert (sf.g_m (sfg s) !! l_sfKey l = Some i) as Hi by (apply (i_map _ HI); exists l; rewrite Hp; done).
  rewrite lookup_delete_Some. split.
  - intros [Hne Hg]. apply (i_map _ HI) in Hg as (lk & Hlk & ? & ?). exists lk.
    rewrite lookup_insert_ne; [done|]. intros ->. congruence.
  - intros (lk & Hlk & Hpk & Hkk). apply lookup_insert_Some in Hlk as [[<- <-]|[Hne Hlk]]; [done|].
    assert (sf.g_m (sfg s) !! key = Some k) as Hg by (apply (i_map _ HI); eauto).
    split; [|done]. intros <-. congruence.
Qed.

Lemma lead_finish_inv i s s' : Inv s -> lead_finish i s = Some s' -> Inv s'.
Proof.
  unfold lead_finish. intros HI He. lead_at. destruct (l_pc l) eqn:Hp; try done. flight_at.
  destruct (lead_call_of _ _ _ _ _ _ _ (i_heap _ HI) Hl) as (sc & Hsc & Hd & Hr & Ha & Hw).
  unfold sf.finish_lock in He. rewrite Hsc in He. simpl in He. rewrite Hf in He. simpl in He.
  injection He as <-. destruct Hlf as (Hsz & Hfr & Hfi).
  match goal with |- Inv ?x => assert (extends s x) as He end.
  { split; simpl; [by eauto|]. intros k fk Hk Hkl. assert (k <> i) as Hne by congruence.
    rewrite !lookup_insert_ne by done. split; [done|]. by exists fk. }
  split; simpl.
  - intros k Hk. destruct (i_ids _ HI k Hk) as (? & ? & ?).
    rewrite lookup_insert_ne; [done|congruence].
  - intros key k. by apply finish_map.
  - intros k ck Hk. eapply caller_ok_extends; [exact He|by apply (i_callers _ HI)].
  - apply (i_bounds _ HI).
  - eapply (HInv_lead _ _ _ _ _ i l LPublish sc (set_refs (sf.waiters sc) f)); try done;
      rewrite ?Hf; try done.
    + apply (i_heap _ HI).
    + simpl. by rewrite insert_id.
    + simpl. apply Hw. congruence.
    + intros n. split; [by left|]. intros [?|[-> Hpin]]; [done|].
      apply (h_handles _ _ _ _ _ (i_heap _ HI)). left. by exists i, f.
    + by intros f0 [= ->].
    + apply (i_heap _ HI).
    + intros k Hk. left. eapply queue_not_lead; try done. congruence.
    + account.
    + account.
    + account.
  - apply (i_cap _ HI).
  - apply (i_units _ HI).
Qed.

Lemma HInv_publish g L h ow fs i l sc :
  HInv g L h ow fs -> L !! i = Some l -> l_pc l = LPublish -> sf.g_calls g !! i = Some sc ->
  HInv (sf.set_call i {| sf.admitted := true; sf.done := true; sf.res := Some i;
                         sf.waiters := sf.waiters sc |} g) (delete i L) h ow fs.
Proof.
  intros HI Hl Hp Hsc. destruct (h_lead _ _ _ _ _ HI i l Hl) as (Hsz & Hpos & sc0 & _ & _ & _ & _ & Hm).
  rewrite Hp in Hm. destruct Hm as (f & Hf & (Hfs & Hfr & Hfi) & Hrefs). rewrite Hp in Hfi.
  split; simpl; try apply HI.
  - intros k lk [Hne Hk]%lookup_delete_Some. rewrite lookup_insert_ne by done.
    by apply (h_lead _ _ _ _ _ HI).
  - intros k sck. rewrite lookup_insert_Some. intros [[<- <-]|[Hne Hk]] Hkl.
    + do 3 (split; [done|]). exists f. rewrite Hfs. rewrite decide_False by lia.
      repeat split; try done; lia.
    + rewrite lookup_delete_ne in Hkl by done. by apply (h_done _ _ _ _ _ HI).
  - intros k fk Hk. apply lookup_insert_is_Some'. right. by eapply (h_call _ _ _ _ _ HI).
  - intros k Hk. destruct (h_queue _ _ _ _ _ HI k Hk) as (lk & Hlk & Hpk). exists lk.
    rewrite lookup_delete_ne; [done|]. intros ->. congruence.
  - rewrite (msum_delete _ _ _ _ Hl), (h_units _ _ _ _ _ HI). unfold lead_holds at 3. rewrite Hp. lia.
  - rewrite (msum_delete _ _ _ _ Hl), (h_bytes _ _ _ _ _ HI). unfold lead_bytes at 3. rewrite Hp. lia.
Qed.

Lemma lead_publish_inv i s s' : Inv s -> lead_publish i s = Some s' -> Inv s'.
Proof.
  unfold lead_publish. intros HI He. lead_at. destruct (l_pc l) eqn:Hp; try done.
  destruct (lead_call_of _ _ _ _ _ _ _ (i_heap _ HI) Hl) as (sc & Hsc & Hd & Hr & Ha & _).
  unfold sf.finish_publish in He. rewrite Hsc in He. simpl in He. rewrite Hd in He. simpl in He.
  injection He as <-.
  match goal with |- Inv ?x => assert (extends s x) as He end.
  { split; simpl.
    - intros k sck Hk. destruct (decide (k = i)) as [->|Hne].
      + eexists. by rewrite lookup_insert_eq.
      + exists sck. by rewrite lookup_insert_ne.
    - intros k fk Hk Hkl. assert (k <> i) as Hne by congruence.
      rewrite lookup_delete_ne by done. split; [done|]. by exists fk. }
  split; simpl.
  - intros k Hk. destruct (i_ids _ HI k Hk) as (? & ? & ?).
    rewrite lookup_delete_ne, lookup_insert_ne; [done|congruence..].
  - intros key k. rewrite (i_map _ HI key k). split; intros (lk & Hlk & Hpk & Hkk).
    + exists lk. rewrite lookup_delete_ne; [done|]. intros ->. congruence.
    + apply lookup_delete_Some in Hlk as [_ Hlk]. by exists lk.
  - intros k ck Hk. eapply caller_ok_extends; [exact He|by apply (i_callers _ HI)].
  - apply (i_bounds _ HI).
  - by apply (HInv_publish _ _ _ _ _ _ l _ (i_heap _ HI)).
  - apply (i_cap _ HI).
  - apply (i_units _ HI).
Qed.

Lemma evict_inv p s s' : Inv s -> evict p s = Some s' -> Inv s'.
Proof.
  unfold evict. intros HI [= <-].
  match goal with |- Inv ?x => assert (extends s x) as He by (by apply extends_callers) end.
  split; [apply (i_ids _ HI)|apply (i_map _ HI)| |apply (i_bounds _ HI)| |apply (i_cap _ HI)|apply (i_units _ HI)].
  - intros k ck Hk. eapply caller_ok_extends; [exact He|by apply (i_callers _ HI)].
  - destruct (i_heap _ HI). by split.
Qed.

(** ** All events *)

Lemma Inv_step s e s' : Inv s -> small s -> exec (Machine:=flights_machine C) s e = Some s' -> Inv s'.
Proof.
  intros HI Hsm He. destruct e; unfold exec, flights_machine in He.
  - by eapply fetch_inv.
  - by eapply cancel_inv.
  - by eapply lookup_inv.
  - by eapply join_inv.
  - by eapply see_admitted_inv.
  - by eapply abandon_inv.
  - by eapply claim_inv.
  - by eapply hand_inv.
  - by eapply drop_claim_inv.
  - by eapply close_result_inv.
  - by eapply lead_start_inv.
  - by eapply lead_acquire_inv.
  - by eapply lead_granted_inv.
  - by eapply lead_timeout_inv.
  - by eapply lead_admit_inv.
  - by eapply lead_alloc_inv.
  - by eapply lead_download_inv.
  - by eapply lead_release_failed_inv.
  - by eapply lead_put_inv.
  - by eapply lead_release_stored_inv.
  - by eapply lead_finish_inv.
  - by eapply lead_publish_inv.
  - by eapply evict_inv.
Qed.

(** The number of calls only grows. *)
Lemma next_mono s e s' : exec (Machine:=flights_machine C) s e = Some s' -> (next s <= next s')%nat.
Proof.
  intros He. unfold exec in He.
  destruct e; simpl in He;
    unfold fetch, cancel, lookup, join, see_admitted, abandon, claim_flight, hand, drop_claim,
      close_result, lead_start, lead_acquire, lead_granted, lead_timeout, lead_admit, lead_alloc,
      lead_download, lead_release_failed, lead_put, lead_release_stored, lead_finish, lead_publish,
      evict, with_lead, goto in He;
    repeat match goal with
    | H : None = Some _ |- _ => discriminate H
    | H : Some _ = Some _ |- _ => injection H as H
    | H : ?o ≫= _ = Some _ |- _ => destruct o; simpl in H
    | H : context [match ?x with _ => _ end] |- _ => destruct x; simpl in H
    end; subst; simpl; lia.
Qed.

(** The fetcher with an empty cache directory [d], nothing in flight. *)
Definition init (cap : Z) (d : gmap chunk_file bytes) : state :=
  {| sfg := sf.newSingleflight;
     hp := {| handles := ∅; disk := d; flights := ∅;
              bud := {| budget.units_cap := cap; budget.units_held := 0; budget.units_queue := [];
                        budget.inUse := 0; budget.peak := 0 |}; nflights := 0 |};
     leads := ∅; callers := ∅; next := 0 |}.

Lemma init_inv d : 1 <= U -> U * C <= int64_max -> Inv (init U d).
Proof.
  intros H1 H2. split; simpl; try done.
  - intros key i. rewrite lookup_empty. split; [done|]. intros (l & Hl & _). by rewrite lookup_empty in Hl.
  - split; simpl; try done.
    + intros n. rewrite lookup_empty. split; [intros [? ?]; done|].
      intros [(i & f & _ & Hf & _)|(j & _ & c & Hc & _)]; by rewrite lookup_empty in *.
    + repeat split; simpl; try lia; [done|constructor].
    + intros i Hi. by apply elem_of_nil in Hi.
Qed.

Lemma reachable_inv d es s :
  1 <= U -> U * C <= int64_max ->
  @run _ _ (flights_machine C) (init U d) es = Some s -> small s -> Inv s.
Proof.
  intros H1 H2 Hr Hs.
  eapply (@run_invariant_while _ _ (flights_machine C) Inv small); [| |by apply init_inv|exact Hr|exact Hs].
  - intros s0 e s1 He Hs1. apply next_mono in He. unfold small in *. lia.
  - intros s0 e s1 HI Hs1 He. eapply Inv_step; [done| |done].
    apply next_mono in He. unfold small in *. lia.
Qed.

End inv.
End flinv.
