(* ===== verification/FlightsProps.v ===== *)
(** * What the concurrent fetches guarantee

    Theorems over every interleaving of the machine of Flights.v, from the
    invariant of FlightsInv.v: the memory bound, reference counting, one
    fetch per chunk, admission, the absence of leaks and of deadlocks. *)
From S2P Require Import Prelude GoStd Http Budget Singleflight Chunk DiskCache Flights FlightsInv.

Module flprops.
Import chunk fl flinv.

(** A state the fetcher can be in: configuration [cap] units of [C] bytes,
    initial cache content [d]. *)
Definition reachable (C cap : Z) (d : gmap chunk_file bytes) (s : state) : Prop :=
  1 <= cap /\ 0 < C /\ cap * C <= int64_max /\ small s /\
  exists es, @run _ _ (flights_machine C) (init cap d) es = Some s.

Lemma reachable_Inv C cap d s : reachable C cap d s -> Inv C cap s.
Proof. intros (? & ? & ? & ? & es & ?). by eapply reachable_inv. Qed.

(** C13: chunk bytes in memory are bounded in every interleaving: no more than
    [cap] units are ever out, and the bytes allocated under them, in
    downloads in progress and in buffers still shared with slow readers, are
    at most one chunk per unit that is out. *)
Theorem memory_bound C cap d s :
  reachable C cap d s ->
  let b := bud (hp s) in
  0 <= budget.units_held b <= cap /\
  0 <= budget.inUse b <= C * budget.units_held b /\
  budget.inUse b = msum lead_bytes (leads s) + msum fl_bytes (flights (hp s)).
Proof.
  intros Hr. pose proof (reachable_Inv _ _ _ _ Hr) as HI. destruct Hr as (_ & HC & _).
  pose proof (i_heap _ _ _ HI) as HH. pose proof (h_wf _ _ _ _ _ _ HH) as (Hh & _).
  rewrite (i_units _ _ _ HI) in Hh. split; [done|]. split; [|apply HH].
  eapply bytes_bound; [exact HH|lia|]. intros i f Hf.
  pose proof (flight_size _ _ _ _ _ _ _ _ HH Hf). lia.
Qed.

(** A result still in some hand keeps what it reads from. *)
Definition source_alive (h : heap) (cr : chunkResult) : Prop :=
  match file cr, section cr with
  | Some f, _ => is_Some (handles h !! f)
  | None, Some (p, _) => is_Some (handles h !! p)
  | None, None => is_Some (data cr)
  end.

Lemma owes_owed C cap s j c i :
  Inv C cap s -> callers s !! j = Some c -> 1 <= owes i c -> 1 <= owed s i.
Proof.
  intros HI Hj Ho. etrans; [exact Ho|]. unfold owed. eapply (msum_ge (owes i) _ j); [|done].
  intros; apply owes_nonneg.
Qed.

(** A flight that is owed has not been freed. *)
Lemma owed_alive C cap s i :
  Inv C cap s -> leads s !! i = None -> is_Some (sf.g_calls (sfg s) !! i) -> 1 <= owed s i ->
  exists f, flights (hp s) !! i = Some f /\ frees f = O /\ refs f = owed s i.
Proof.
  intros HI Hl [sc Hc] Ho.
  destruct (h_done _ _ _ _ _ _ (i_heap _ _ _ HI) i sc Hc Hl) as (_ & _ & _ & f & Hf & _ & _ & ? & _ & Hfr).
  rewrite decide_False in Hfr by lia. by exists f.
Qed.

Lemma held_result_alive C cap s j c cr :
  Inv C cap s -> callers s !! j = Some c -> c_pc c = CReturned cr \/ c_claim c = KHave cr ->
  err cr = None ->
  source_alive (hp s) cr /\
  forall i, done cr = Some i -> exists f, flights (hp s) !! i = Some f /\ frees f = O /\ 1 <= refs f.
Proof.
  intros HI Hj Hcr He.
  assert (result_ok s j cr) as Hr.
  { destruct (i_callers _ _ _ HI j c Hj) as (Hcl & Hpc & _).
    destruct Hcr as [Hx|Hx]; rewrite Hx in *; [done|apply Hcl]. }
  unfold result_ok in Hr. rewrite He in Hr. unfold source_alive.
  destruct Hr as [(Hf & _ & _ & Hd)|(Hf & i & f & Hd & Hl & Hc & Hfl & _ & Hs)].
  - rewrite Hf, Hd. split; [|done]. apply (h_handles _ _ _ _ _ _ (i_heap _ _ _ HI)). right.
    exists j. split; [done|]. exists c. split; [done|]. unfold has_file.
    destruct Hcr as [Hx|Hx]; rewrite Hx; [right|left]; unfold has_file_cr; congruence.
  - assert (1 <= owed s i) as Ho.
    { eapply owes_owed; [done..|]. unfold owes.
      assert (owes_cr i cr = 1) as H1 by (unfold owes_cr; by rewrite Hd, decide_True).
      assert (forall k, 0 <= owes_claim i k) as Hn1 by
        (intros k; unfold owes_claim, owes_cr; destruct k; repeat case_decide; lia).
      assert (forall k, 0 <= owes_pc i k) as Hn2 by
        (intros k; unfold owes_pc, owes_cr; destruct k; repeat case_decide; lia).
      destruct Hcr as [Hx|Hx]; rewrite Hx; simpl; rewrite H1;
        [specialize (Hn1 (c_claim c))|specialize (Hn2 (c_pc c))]; lia. }
    destruct (owed_alive _ _ _ _ HI Hl Hc Ho) as (f' & Hf' & Hfr & Href). simplify_eq.
    split.
    + rewrite Hf. destruct Hs as [(-> & _ & _ & Hp & _)|(-> & ? & _)]; [|done].
      apply (h_handles _ _ _ _ _ _ (i_heap _ _ _ HI)). left. exists i, f. by rewrite Hp.
    + intros i' Hi'. assert (i' = i) as -> by congruence. exists f. split; [done|]. split; [done|lia].
Qed.

(** C14: reference counting is exact: a result in a caller's or a claim
    goroutine's hands reads from a handle that is open or a buffer that is
    still accounted for, the flight behind it has a positive count and has
    not been freed, and no flight is ever freed twice. *)
Theorem no_use_after_free C cap d s :
  reachable C cap d s ->
  (forall j c cr, callers s !! j = Some c -> c_pc c = CReturned cr \/ c_claim c = KHave cr ->
     err cr = None ->
     source_alive (hp s) cr /\
     forall i, done cr = Some i ->
       exists f, flights (hp s) !! i = Some f /\ frees f = O /\ 1 <= refs f) /\
  (forall i f, flights (hp s) !! i = Some f -> (frees f <= 1)%nat).
Proof.
  intros Hr. pose proof (reachable_Inv _ _ _ _ Hr) as HI. split.
  - intros j c cr Hj Hcr He. by eapply held_result_alive.
  - intros i f Hf. destruct (h_call _ _ _ _ _ _ (i_heap _ _ _ HI) _ _ Hf) as [sc Hc].
    destruct (leads s !! i) as [l|] eqn:Hl.
    + assert (l_pc l = LStart \/ l_pc l <> LStart) as [Hp|Hp] by (destruct (l_pc l); auto).
      * destruct (h_lead _ _ _ _ _ _ (i_heap _ _ _ HI) i l Hl) as (_ & _ & sc' & _ & _ & _ & _ & Hm).
        rewrite Hp in Hm. destruct Hm. congruence.
      * destruct (lead_flight_of _ _ _ _ _ _ i l (i_heap _ _ _ HI) Hl Hp) as (f' & Hf' & _ & Hfr & _).
        simplify_eq. lia.
    + destruct (h_done _ _ _ _ _ _ (i_heap _ _ _ HI) i sc Hc Hl) as (_ & _ & _ & f' & Hf' & _ & _ & _ & _ & Hfr).
      simplify_eq. rewrite Hfr. case_decide; lia.
Qed.

(** C15: one upstream fetch per chunk: two leads whose calls can still be
    joined and that fetch the same chunk of the same version are the same. *)
Theorem one_fetch_per_chunk C cap d s i i' l l' :
  reachable C cap d s ->
  leads s !! i = Some l -> leads s !! i' = Some l' ->
  l_pc l <> LPublish -> l_pc l' <> LPublish ->
  l_key l = l_key l' -> l_start l = l_start l' -> etag (l_v l) = etag (l_v l') ->
  i = i'.
Proof.
  intros Hr Hl Hl' Hp Hp' Hk Hs He. pose proof (reachable_Inv _ _ _ _ Hr) as HI.
  assert (sf.g_m (sfg s) !! l_sfKey l = Some i) as H1 by (apply (i_map _ _ _ HI); eauto).
  assert (sf.g_m (sfg s) !! l_sfKey l' = Some i') as H2 by (apply (i_map _ _ _ HI); eauto).
  unfold l_sfKey, sfKey in *. rewrite Hk, Hs, He in H1. congruence.
Qed.

Lemma admitted_unqueued C U s j c n l :
  Inv C U s -> callers s !! j = Some c -> waits_on n (c_pc c) -> c_admitted c = true ->
  leads s !! n = Some l -> past_unit (l_pc l) /\ n ∉ budget.units_queue (bud (hp s)).
Proof.
  intros HI Hj Hw Ha Hl. destruct (i_callers _ _ _ HI j c Hj) as (_ & Hpc & Had). specialize (Had Ha).
  destruct (c_pc c) as [| |m|m|cr|]; try done. simpl in Hw. subst m.
  destruct Hpc as (sc & Hsc & Hadm).
  destruct (lead_call_of _ _ _ _ _ _ _ _ (i_heap _ _ _ HI) Hl) as (sc' & Hsc' & _ & _ & Hp & _).
  simplify_eq. split; [by apply Hp|]. intros Hq.
  destruct (h_queue _ _ _ _ _ _ (i_heap _ _ _ HI) n Hq) as (l' & Hl' & Hpk).
  simplify_eq. specialize (Hp Hadm). by rewrite Hpk in Hp.
Qed.

(** Admission in order: once a waiting [fetchChunk] has reported its chunk
    admitted, the fetch it leads or joined is no longer queued for budget:
    it holds a unit, has given up, or is over. *)
Theorem admitted_not_queued C cap d s j c n l :
  reachable C cap d s ->
  callers s !! j = Some c -> waits_on n (c_pc c) -> c_admitted c = true ->
  leads s !! n = Some l -> past_unit (l_pc l) /\ n ∉ budget.units_queue (bud (hp s)).
Proof. intros Hr. by eapply admitted_unqueued, reachable_Inv. Qed.

(** ** Quiescence *)

Definition finished (c : caller) : bool :=
  match c_pc c, c_claim c with
  | CClosed, (KNone | KGone) => true
  | _, _ => false
  end.
Definition quiescent (s : state) : Prop :=
  base.size (leads s) = O /\ map_Forall (fun _ c => finished c = true) (callers s).

Lemma quiescent_leads s : quiescent s -> leads s = ∅.
Proof. intros [Hl _]. by apply map_size_empty_iff. Qed.

Lemma quiescent_owed s i : quiescent s -> owed s i = 0.
Proof.
  intros [_ Hc]. apply msum_zero. intros j c Hj. specialize (Hc j c Hj). simpl in Hc.
  unfold finished in Hc. unfold owes. destruct (c_pc c), (c_claim c); done.
Qed.

Lemma quiescent_flight C cap s i f :
  Inv C cap s -> quiescent s -> flights (hp s) !! i = Some f -> frees f = 1%nat.
Proof.
  intros HI Hq Hf. destruct (h_call _ _ _ _ _ _ (i_heap _ _ _ HI) _ _ Hf) as [sc Hc].
  destruct (h_done _ _ _ _ _ _ (i_heap _ _ _ HI) i sc Hc) as (_ & _ & _ & f' & Hf' & _ & _ & _ & _ & Hfr).
  - by rewrite (quiescent_leads s Hq).
  - simplify_eq. by rewrite (quiescent_owed s i Hq), decide_True in Hfr.
Qed.

(** What is left once everything is over. *)
Definition clean (s : state) : Prop :=
  handles (hp s) = ∅ /\ sf.g_m (sfg s) = ∅ /\ nflights (hp s) = 0 /\
  budget.units_held (bud (hp s)) = 0 /\ budget.units_queue (bud (hp s)) = [] /\
  budget.inUse (bud (hp s)) = 0.

Lemma quiescent_clean C cap s : Inv C cap s -> quiescent s -> clean s.
Proof.
  intros HI Hq. pose proof (i_heap _ _ _ HI) as HH.
  assert (forall F, (forall f, frees f = 1%nat -> F f = 0) -> msum F (flights (hp s)) = 0) as Hz.
  { intros F HF. apply msum_zero. intros i f Hf. apply HF. by eapply quiescent_flight. }
  pose proof (quiescent_leads s Hq) as Hl.
  split.
  { apply map_eq. intros n. rewrite lookup_empty. apply eq_None_not_Some.
    intros Hs. apply (h_handles _ _ _ _ _ _ HH) in Hs as [(i & f & _ & Hf & _ & Hfr)|(j & _ & c & Hc & Hfi)].
    - pose proof (quiescent_flight _ _ _ _ _ HI Hq Hf). congruence.
    - destruct Hq as [_ Hq]. specialize (Hq j c Hc). simpl in Hq. unfold finished in Hq.
      unfold has_file in Hfi. destruct (c_pc c), (c_claim c); naive_solver. }
  split.
  { apply map_eq. intros key. rewrite lookup_empty. destruct (sf.g_m (sfg s) !! key) as [i|] eqn:Hk; [|done].
    apply (i_map _ _ _ HI) in Hk as (l & Hk & _). by rewrite Hl, lookup_empty in Hk. }
  split; [rewrite (h_live _ _ _ _ _ _ HH); apply Hz; intros f Hf; unfold fl_live; by rewrite Hf|].
  pose proof (h_units _ _ _ _ _ _ HH) as Hu. pose proof (h_bytes _ _ _ _ _ _ HH) as Hb.
  rewrite Hl, msum_empty in Hu, Hb.
  rewrite Hz in Hu by (intros f Hf; unfold fl_unit, fl_live; rewrite Hf; by destruct (buf f)).
  rewrite Hz in Hb by (intros f Hf; unfold fl_bytes, fl_unit, fl_live; rewrite Hf; destruct (buf f); lia).
  pose proof (h_wf _ _ _ _ _ _ HH) as (Hh & _).
  destruct (budget.units_queue (bud (hp s))); simpl in Hu; repeat split; lia || done.
Qed.

(** Nothing leaks: once every fetch has returned, its result was closed
    and the background work is over, no file handle is open, no budget unit
    or byte is held, no flight is live and no call is registered. *)
Theorem no_leak C cap d s : reachable C cap d s -> quiescent s -> clean s.
Proof. intros Hr. by eapply quiescent_clean, reachable_Inv. Qed.

(** ** A run of three fetches

    One unit of four bytes. Calls 0 and 2 want the same chunk, call 3 (lead
    4) another one: lead 1 keeps its chunk as a buffer, lead 4 waits for the
    unit that buffer holds. *)
Module fl_examples.
Definition v1 : objVersion := {| etag := "e1"; modified := 0 |}.
Definition body : bytes := list_byte_of_string "abcd".

(** Three misses, one shared lead, which has its unit. *)
Definition es_joined : list event :=
  [EFetch "k" v1 0 3; ELookup 0 LkMiss; EJoin 0;
   EFetch "k" v1 0 3; ELookup 2 LkMiss; EJoin 2;
   EFetch "k" v1 4 7; ELookup 3 LkMiss; EJoin 3;
   ELeadStart 1; EAcquire 1; ELeadStart 4; EAcquire 4; EAdmit 1; ESeeAdmitted 0].
(** Its chunk is downloaded, not cached, and handed to both callers. *)
Definition es_shared : list event :=
  es_joined ++ [EAlloc 1; EDownload 1 (inr (body, None)) None; EPut 1 false; EFinish 1; EPublish 1;
                EClaim 0 false; EHand 0; ESeeAdmitted 2; EClaim 2 false; EHand 2].
(** Both close it, and the other fetch runs, into the cache. *)
Definition es_over : list event :=
  es_shared ++ [EClose 0; EClose 2; EGranted 4; EAdmit 4; EAlloc 4;
                EDownload 4 (inr (body, None)) None; EPut 4 true; EReleaseStored 4; EFinish 4;
                EPublish 4; ESeeAdmitted 3; EClaim 3 true; EHand 3; EClose 3].

Definition at_end (es : list event) : state :=
  default (init 1 ∅) (@run _ _ (flights_machine 4) (init 1 ∅) es).

(** Stays folded when a type that mentions a state is checked. *)
#[global] Strategy 100 [at_end].

Lemma at_end_reachable es :
  match @run _ _ (flights_machine 4) (init 1 ∅) es with Some _ => true | None => false end = true ->
  (2 * Z.of_nat (next (at_end es)) + 2 <=? int32_max) = true ->
  reachable 4 1 ∅ (at_end es).
Proof.
  intros Hr Hs%Z.leb_le. unfold reachable. do 3 (split; [lia||done|]). split; [exact Hs|].
  exists es. unfold at_end. by destruct (run _ es).
Qed.
End fl_examples.

Lemma memory_bound_witness :
  budget.inUse (bud (hp (fl_examples.at_end fl_examples.es_shared))) = 4 /\
  budget.inUse (bud (hp (fl_examples.at_end fl_examples.es_shared))) <=
    4 * budget.units_held (bud (hp (fl_examples.at_end fl_examples.es_shared))).
Proof.
  split; [vm_compute; reflexivity|].
  refine (proj2 (proj1 (proj2 (memory_bound 4 1 ∅ (fl_examples.at_end fl_examples.es_shared) _)))).
  apply fl_examples.at_end_reachable; vm_compute; reflexivity.
Defined.

Lemma no_use_after_free_witness :
  exists f, flights (hp (fl_examples.at_end fl_examples.es_over)) !! 1%nat = Some f /\ (frees f <= 1)%nat.
Proof.
  eexists. split; [vm_compute; reflexivity|].
  refine (proj2 (no_use_after_free 4 1 ∅ (fl_examples.at_end fl_examples.es_over) _) 1%nat _ _).
  - apply fl_examples.at_end_reachable; vm_compute; reflexivity.
  - vm_compute. reflexivity.
Defined.

Lemma one_fetch_per_chunk_witness : 1%nat = 1%nat.
Proof.
  refine (one_fetch_per_chunk 4 1 ∅ (fl_examples.at_end fl_examples.es_joined) 1 1
    {| l_key := "k"; l_v := fl_examples.v1; l_start := 0; l_end := 3; l_pc := LAdmitted |}
    {| l_key := "k"; l_v := fl_examples.v1; l_start := 0; l_end := 3; l_pc := LAdmitted |}
    _ _ _ _ _ _ _ _).
  1: apply fl_examples.at_end_reachable.
  5,6: intros Hx; discriminate Hx.
  all: vm_compute; reflexivity.
Defined.

Lemma admitted_not_queued_witness :
  ~ (1%nat ∈ budget.units_queue (bud (hp (fl_examples.at_end fl_examples.es_joined)))).
Proof.
  refine (proj2 (admitted_not_queued 4 1 ∅ (fl_examples.at_end fl_examples.es_joined) 0
    {| c_key := "k"; c_v := fl_examples.v1; c_start := 0; c_end := 3; gone := None;
       c_admitted := true; c_pc := CWaitOut 1; c_claim := KWait 1 |} 1
    {| l_key := "k"; l_v := fl_examples.v1; l_start := 0; l_end := 3; l_pc := LAdmitted |}
    _ _ _ _ _)).
  1: apply fl_examples.at_end_reachable.
  all: vm_compute; reflexivity.
Defined.

Lemma no_leak_witness : handles (hp (fl_examples.at_end fl_examples.es_over)) = ∅.
Proof.
  refine (proj1 (no_leak 4 1 ∅ (fl_examples.at_end fl_examples.es_over) _ _)).
  - apply fl_examples.at_end_reachable; vm_compute; reflexivity.
  - split; [vm_compute; reflexivity|].
    apply (bool_decide_unpack (map_Forall (fun _ c => finished c = true)
      (callers (fl_examples.at_end fl_examples.es_over)))). vm_compute. exact I.
Defined.

End flprops.
