(* ===== verification/FlightsLive.v ===== *)
(** * The concurrent fetches always come to an end

    No schedule of the fetches, their claim goroutines and their leads runs
    forever or gets stuck: every step but the arrival of a request, the end
    of a context and an eviction lowers a rank, and until everything is
    finished some such step is enabled. *)
From S2P Require Import Prelude GoStd Http Budget Singleflight Chunk DiskCache Flights FlightsInv FlightsProps.

Module fllive.
Import chunk fl flinv flprops.

Definition internal (e : event) : Prop :=
  match e with EFetch _ _ _ _ | ECancel _ _ | EEvict _ => False | _ => True end.

Definition lead_rank (l : lead) : Z :=
  match l_pc l with
  | LStart => 10 | LAcquire => 9 | LParked => 8 | LUnit => 7 | LAdmitted => 6 | LDownload => 5
  | LFailed _ | LPut _ => 4 | LStored => 3 | LFinish => 2 | LPublish => 1
  end.
Definition claim_rank (k : claim_pc) : Z :=
  match k with KNone | KGone => 0 | KWait _ => 2 | KHave _ => 1 end.
Definition caller_rank (c : caller) : Z :=
  claim_rank (c_claim c) +
  match c_pc c with
  | CLookup => 40 | CMissed => 30 | CWaitAdmitted _ => 5 | CWaitOut _ => 4
  | CReturned _ => 1 | CClosed => 0
  end.
Definition rank (s : state) : Z := msum lead_rank (leads s) + msum caller_rank (callers s).

(** Calls that may still start a lead. *)
Definition pending (c : caller) : Z :=
  match c_pc c with CLookup | CMissed => 1 | _ => 0 end.
Definition ids (s : state) : Z := Z.of_nat (next s) + msum pending (callers s).

Lemma rank_nonneg s : 0 <= rank s.
Proof.
  assert (0 <= msum lead_rank (leads s) /\ 0 <= msum caller_rank (callers s)); [|unfold rank; lia].
  split; apply msum_nonneg.
  - intros i l _. unfold lead_rank. destruct (l_pc l); lia.
  - intros i c _. unfold caller_rank, claim_rank. destruct (c_pc c), (c_claim c); lia.
Qed.

(** Case analysis along the definition of a step, keeping what was looked up. *)
Ltac step_cases He :=
  unfold exec, flights_machine, lookup, join, see_admitted, abandon, claim_flight, hand, drop_claim,
    close_result, lead_start, lead_acquire, lead_granted, lead_timeout, lead_admit, lead_alloc,
    lead_download, lead_release_failed, lead_put, lead_release_stored, lead_finish, lead_publish,
    with_lead, goto in He;
  repeat match goal with
  | H : None = Some _ |- _ => discriminate H
  | H : Some _ = Some _ |- _ => injection H as H
  | H : ?o ≫= _ = Some _ |- _ => let E := fresh "E" in destruct o eqn:E; simpl in H
  | H : context [match ?x with _ => _ end] |- _ => let E := fresh "E" in destruct x eqn:E; simpl in H
  end; subst; simpl.

Ltac rank_arith :=
  unfold rank, ids; simpl;
  repeat match goal with
  | H : callers ?s !! ?i = Some ?c |- context [msum ?f (<[?i := ?x]> (callers ?s))] =>
      rewrite (msum_insert_old f (callers s) i x c H)
  | H : leads ?s !! ?i = Some ?l |- context [msum ?f (<[?i := ?x]> (leads ?s))] =>
      rewrite (msum_insert_old f (leads s) i x l H)
  | H : leads ?s !! ?i = Some ?l |- context [msum ?f (delete ?i (leads ?s))] =>
      rewrite (msum_delete f (leads s) i l H)
  | H : leads ?s !! ?i = None |- context [msum ?f (<[?i := ?x]> (leads ?s))] =>
      rewrite (msum_insert_new f (leads s) i x H)
  end;
  unfold lead_rank, caller_rank, pending; simpl;
  repeat match goal with
  | H : l_pc _ = _ |- _ => rewrite H
  | H : c_pc _ = _ |- _ => rewrite H
  | H : c_claim _ = _ |- _ => rewrite H
  end; simpl;
  repeat match goal with
  | |- context [claim_rank (c_claim ?c)] =>
      assert (0 <= claim_rank (c_claim c)) by (unfold claim_rank; destruct (c_claim c); lia);
      generalize dependent (claim_rank (c_claim c)); intros
  end; lia.

Lemma join_leader key fresh g g' n : sf.join key fresh g = Some (g', n, true) -> n = fresh.
Proof.
  unfold sf.join. destruct (sf.g_m g !! key) as [i|]; [destruct (sf.g_calls g !! i); simpl|]; congruence.
Qed.

Lemma internal_step C cap s e s' :
  Inv C cap s -> internal e -> exec (Machine:=flights_machine C) s e = Some s' ->
  rank s' < rank s /\ ids s' <= ids s.
Proof.
  intros HI Hi He. destruct (i_ids _ _ _ HI (next s) (le_n _)) as (Hnl & _).
  destruct e; try done; step_cases He;
    repeat match goal with H : sf.join _ _ _ = Some (_, _, true) |- _ => apply join_leader in H as -> end;
    split; rank_arith.
Qed.

(** ** Progress

    The steps that need no timeout: what is left when every queue wait is
    allowed to last. *)
Definition unforced (e : event) : Prop :=
  match e with ETimeout _ => False | _ => internal e end.

Definition moves (P : event -> Prop) (C : Z) (s : state) : Prop :=
  exists e, P e /\ is_Some (exec (Machine:=flights_machine C) s e).
Definition can_move : Z -> state -> Prop := moves unforced.

(** The steps of leads, and those of a call and its claim goroutine. *)
Definition lead_step (e : event) : Prop :=
  match e with
  | ELeadStart _ | EAcquire _ | EGranted _ | EAdmit _ | EAlloc _ | EDownload _ _ _
  | EReleaseFailed _ | EPut _ _ | EReleaseStored _ | EFinish _ | EPublish _ => True
  | _ => False
  end.
Definition call_step (e : event) : Prop :=
  match e with
  | ELookup _ _ | EJoin _ | ESeeAdmitted _ | EAbandon _ | EClaim _ _ | EHand _ | EDropClaim _ => True
  | _ => False
  end.

Lemma moves_weaken (P Q : event -> Prop) C s : (forall e, P e -> Q e) -> moves P C s -> moves Q C s.
Proof. intros HPQ (e & He & ?). exists e. auto. Qed.

Lemma lead_can_move C s : moves lead_step C s -> can_move C s.
Proof. apply moves_weaken. by intros []. Qed.
Lemma call_can_move C s : moves call_step C s -> can_move C s.
Proof. apply moves_weaken. by intros []. Qed.

(** A step by an enabled event of [can_move]. *)
Ltac by_event e :=
  exists e; split; [done|]; unfold exec, flights_machine.

Lemma lead_moves C U s i l :
  Inv C U s -> leads s !! i = Some l ->
  (l_pc l = LParked /\ i ∈ budget.units_queue (bud (hp s))) \/ moves lead_step C s.
Proof.
  intros HI Hl. pose proof (i_heap _ _ _ HI) as HH.
  destruct (lead_call_of _ _ _ _ _ _ _ _ HH Hl) as (sc & Hsc & Hd & _).
  assert (l_pc l <> LStart -> exists f, flights (hp s) !! i = Some f) as Hf.
  { intros Hp. destruct (lead_flight_of _ _ _ _ _ _ _ _ HH Hl Hp) as (f & ? & _). by exists f. }
  destruct (l_pc l) as [| | | | | |e|b| | |] eqn:Hp.
  3: destruct (decide (i ∈ budget.units_queue (bud (hp s)))) as [Hq|Hq]; [by left|].
  all: right; try (destruct Hf as [f Hf]; [done|]).
  - by_event (ELeadStart i). unfold lead_start, with_lead. rewrite Hl. simpl. by rewrite Hp.
  - by_event (EAcquire i). unfold lead_acquire, with_lead. rewrite Hl. simpl. rewrite Hp.
    by destruct (budget.acquire i _).
  - by_event (EGranted i). unfold lead_granted, with_lead. rewrite Hl. simpl. rewrite Hp.
    by rewrite decide_False.
  - by_event (EAdmit i). unfold lead_admit, with_lead. rewrite Hl. simpl. by rewrite Hp, Hsc.
  - by_event (EAlloc i). unfold lead_alloc, with_lead. rewrite Hl. simpl. by rewrite Hp.
  - by_event (EDownload i (inl IoEOF) None). unfold lead_download, with_lead. rewrite Hl. simpl. by rewrite Hp.
  - by_event (EReleaseFailed i). unfold lead_release_failed, with_lead. rewrite Hl. simpl. rewrite Hp.
    destruct (lead_releases _ _ s i l HI Hl) as (b' & -> & _);
      [unfold lead_holds; by rewrite Hp|unfold lead_bytes; by rewrite Hp|]. simpl. by rewrite Hf.
  - by_event (EPut i false). unfold lead_put, with_lead. rewrite Hl. simpl. by rewrite Hp, Hf.
  - by_event (EReleaseStored i). unfold lead_release_stored, with_lead. rewrite Hl. simpl. rewrite Hp.
    destruct (lead_releases _ _ s i l HI Hl) as (b' & -> & _);
      [unfold lead_holds; by rewrite Hp|unfold lead_bytes; by rewrite Hp|]. done.
  - by_event (EFinish i). unfold lead_finish, with_lead, sf.finish_lock. rewrite Hl. simpl.
    rewrite Hp, Hsc. simpl. by rewrite Hf.
  - by_event (EPublish i). unfold lead_publish, with_lead, sf.finish_publish. rewrite Hl. simpl.
    rewrite Hp, Hsc. simpl. by rewrite Hd.
Qed.

(** A call that has not returned moves, or waits for a lead and its context
    has not ended. *)
Lemma open_moves C U s j c :
  Inv C U s -> small s -> callers s !! j = Some c ->
  match c_pc c with CReturned _ | CClosed => False | _ => True end ->
  (exists n l, c_claim c = KWait n /\ waits_on n (c_pc c) /\ leads s !! n = Some l /\ gone c = None) \/
  moves call_step C s.
Proof.
  intros HI Hsm Hj Hopen. destruct (i_callers _ _ _ HI j c Hj) as (Hcl & Hpc & _).
  destruct (gone c) as [e|] eqn:Hg.
  { right. destruct (c_pc c) as [| |n|n|cr|] eqn:Hp; try done.
    - by_event (ELookup j LkMiss). unfold lookup. rewrite Hj. simpl. by rewrite Hp.
    - by_event (EJoin j). unfold join. rewrite Hj. simpl. by rewrite Hp, Hg.
    - by_event (EAbandon j). unfold abandon. rewrite Hj. simpl. by rewrite Hp, Hg.
    - by_event (EAbandon j). unfold abandon. rewrite Hj. simpl. by rewrite Hp, Hg. }
  destruct (c_claim c) as [|n|cr|] eqn:Hk.
  - right. destruct (c_pc c) as [| |n|n|cr|] eqn:Hp; try done.
    + by_event (ELookup j LkMiss). unfold lookup. rewrite Hj. simpl. by rewrite Hp.
    + by_event (EJoin j). unfold join. rewrite Hj. simpl. rewrite Hp, Hg. unfold sf.join.
      destruct (sf.g_m (sfg s) !! _) as [n|] eqn:Hm; [|done].
      apply (i_map _ _ _ HI) in Hm as (l & Hl & _).
      destruct (lead_call_of _ _ _ _ _ _ _ _ (i_heap _ _ _ HI) Hl) as (sc & -> & _). done.
  - destruct Hcl as [[sc Hsc] Hw]. destruct Hw as [Hw|[Hw _]]; [|done].
    destruct (leads s !! n) as [l|] eqn:Hl; [left; by exists n, l|right].
    destruct (h_done _ _ _ _ _ _ (i_heap _ _ _ HI) n sc Hsc Hl) as (Hd & _).
    destruct (claim_ok _ _ j false s c n sc HI Hsm Hj Hk Hsc Hd) as (s' & He & _).
    by_event (EClaim j false). by rewrite He.
  - right. destruct Hcl as [_ [(n & Hw & Hl & _)|[Hx _]]]; [|done].
    destruct (c_pc c) as [| |m|m|cr'|] eqn:Hp; try done; simpl in Hw; subst m.
    + destruct Hpc as [sc Hsc].
      destruct (h_done _ _ _ _ _ _ (i_heap _ _ _ HI) n sc Hsc Hl) as (_ & _ & Ha & _).
      by_event (ESeeAdmitted j). unfold see_admitted. rewrite Hj. simpl. rewrite Hp, Hsc. simpl.
      by rewrite Ha.
    + by_event (EHand j). unfold hand. rewrite Hj. simpl. by rewrite Hp, Hk.
  - by destruct (c_pc c).
Qed.

(** A claim goroutine that waits for a call that is over, or has its result
    and nobody left to hand it to, moves. *)
Lemma claim_moves C U s j c :
  Inv C U s -> small s -> callers s !! j = Some c ->
  match c_pc c with CReturned _ | CClosed => True | _ => False end ->
  match c_claim c with KWait n => leads s !! n = None | KHave _ => True | _ => False end ->
  moves call_step C s.
Proof.
  intros HI Hsm Hj Hret Hk. destruct (i_callers _ _ _ HI j c Hj) as (Hcl & _ & _).
  destruct (c_claim c) as [|n|cr|] eqn:Hkc; try done.
  - destruct Hcl as [[sc Hsc] _].
    destruct (h_done _ _ _ _ _ _ (i_heap _ _ _ HI) n sc Hsc Hk) as (Hd & _).
    destruct (claim_ok _ _ j false s c n sc HI Hsm Hj Hkc Hsc Hd) as (s' & He & _).
    by_event (EClaim j false). by rewrite He.
  - destruct Hcl as [_ [(n & Hw & _)|[Hg _]]]; [by destruct (c_pc c)|].
    destruct (gone c) as [e|] eqn:Hge; [|done].
    destruct (drop_claim_ok _ _ j s c cr e HI Hsm Hj Hkc Hge) as (s' & He & _).
    by_event (EDropClaim j). by rewrite He.
Qed.

(** A returned result can be closed. *)
Lemma close_moves C U s j c cr :
  Inv C U s -> small s -> callers s !! j = Some c -> c_pc c = CReturned cr ->
  is_Some (exec (Machine:=flights_machine C) s (EClose j)).
Proof.
  intros HI Hsm Hj Hp. destruct (close_result_ok _ _ j s c cr HI Hsm Hj Hp) as (s' & He & _).
  unfold exec, flights_machine. by rewrite He.
Qed.

(** A caller that is not finished moves, or waits for a lead. *)
Lemma caller_moves C U s j c :
  Inv C U s -> small s -> callers s !! j = Some c -> finished c = false ->
  (exists n, c_claim c = KWait n /\ is_Some (leads s !! n) /\ forall cr, c_pc c <> CReturned cr) \/
  can_move C s.
Proof.
  intros HI Hsm Hj Hfin. destruct (c_pc c) as [| |n|n|cr|] eqn:Hp.
  1-4: destruct (open_moves C U s j c HI Hsm Hj) as [(n' & l & Hk & _ & Hl & _)|Hm]; [by rewrite Hp| |];
    [left; exists n'; by rewrite Hl|right; by apply call_can_move].
  - right. exists (EClose j). split; [done|]. by eapply close_moves.
  - destruct (c_claim c) as [|n|cr|] eqn:Hk; try (by unfold finished in Hfin; rewrite Hp, Hk in Hfin).
    + destruct (leads s !! n) as [l|] eqn:Hl; [left; exists n; by rewrite Hl|right].
      apply call_can_move, (claim_moves C U s j c HI Hsm Hj); [by rewrite Hp|by rewrite Hk].
    + right. apply call_can_move, (claim_moves C U s j c HI Hsm Hj); [by rewrite Hp|by rewrite Hk].
Qed.

Definition parked (s : state) (i : nat) (l : lead) : bool :=
  match l_pc l with LParked => bool_decide (i ∈ budget.units_queue (bud (hp s))) | _ => false end.

Lemma parked_spec s i l :
  parked s i l = true <-> l_pc l = LParked /\ i ∈ budget.units_queue (bud (hp s)).
Proof. unfold parked. destruct (l_pc l); rewrite ?bool_decide_eq_true; naive_solver. Qed.

(** If every lead is parked, the units are in buffers some caller still has. *)
Lemma all_parked C U s :
  Inv C U s -> map_Forall (fun i l => parked s i l = true) (leads s) -> leads s <> ∅ ->
  exists i j c, leads s !! i = None /\ callers s !! j = Some c /\ 0 < owes i c.
Proof.
  intros HI Hall Hne. pose proof (i_heap _ _ _ HI) as HH. destruct (i_cap _ _ _ HI) as [Hcap _].
  set (q := budget.units_queue (bud (hp s))).
  assert (Z.of_nat (base.size (leads s)) <= Z.of_nat (length q)) as Hq.
  { pose proof (h_wf _ _ _ _ _ _ HH) as (_ & _ & Hnd). apply Nat2Z.inj_le.
    rewrite <- size_dom, <- (size_list_to_set (C:=gset nat) q) by done. apply subseteq_size. intros i [l Hl]%elem_of_dom. apply elem_of_list_to_set.
    by apply (parked_spec s i l), Hall. }
  assert (msum lead_holds (leads s) <= 1 * Z.of_nat (base.size (leads s))) as Hh.
  { apply msum_const_le; [|done]. intros i l _. unfold lead_holds. destruct (l_pc l); lia. }
  assert (0 < Z.of_nat (base.size (leads s))) as Hpos.
  { destruct (base.size (leads s)) eqn:Hz; [|lia]. by apply map_size_empty_iff in Hz. }
  pose proof (h_wf _ _ _ _ _ _ HH) as (_ & Hfull & _).
  assert (q <> []) as Hqn by (intros Hz; rewrite Hz in Hq; simpl in Hq; lia).
  specialize (Hfull Hqn). pose proof (h_units _ _ _ _ _ _ HH) as Hu. fold q in Hu.
  destruct (msum_pos_inv fl_unit (flights (hp s))) as (i & f & Hf & Hfu); [lia|].
  unfold fl_unit, fl_live in Hfu. destruct (buf f) as [d|] eqn:Hb; [|lia].
  destruct (frees f) eqn:Hfr; [|lia].
  destruct (h_call _ _ _ _ _ _ HH i f Hf) as [sc Hsc]. destruct (leads s !! i) as [l|] eqn:Hl.
  - pose proof (Hall i l Hl) as [Hp _]%parked_spec.
    destruct (lead_flight_of _ _ _ _ _ _ i l HH Hl) as (f' & Hf' & _ & _ & Hlf); [by rewrite Hp|].
    rewrite Hp in Hlf. destruct Hlf as (_ & Hlb & _). congruence.
  - destruct (h_done _ _ _ _ _ _ HH i sc Hsc Hl) as (_ & _ & _ & f' & Hf' & _ & _ & _ & Ho & Hfr').
    simplify_eq. case_decide; [congruence|].
    destruct (msum_pos_inv (owes i) (callers s)) as (j & c & Hj & Hc); [unfold owed in *; lia|].
    by exists i, j, c.
Qed.

Lemma unfinished_of_owes i c : 0 < owes i c -> finished c = false.
Proof. unfold owes, finished. by destruct (c_pc c), (c_claim c). Qed.

Lemma progress C U s : Inv C U s -> small s -> ~ quiescent s -> can_move C s.
Proof.
  intros HI Hsm Hnq.
  destruct (decide (map_Forall (fun i l => parked s i l = true) (leads s))) as [Hall|Hall].
  2: { apply map_not_Forall in Hall as (i & l & Hl & Hp); [|apply _].
       destruct (lead_moves _ _ s i l HI Hl) as [Hq%parked_spec|?]; [done|by apply lead_can_move]. }
  destruct (decide (leads s = ∅)) as [He|Hne].
  - destruct (decide (map_Forall (fun _ c => finished c = true) (callers s))) as [Hf|Hf].
    { destruct Hnq. split; [by rewrite He|done]. }
    apply map_not_Forall in Hf as (j & c & Hj & Hf); [|apply _].
    destruct (caller_moves _ _ s j c HI Hsm Hj) as [(n & _ & [l Hl] & _)|?]; [by destruct (finished c)| |done].
    by rewrite He, lookup_empty in Hl.
  - destruct (all_parked _ _ s HI Hall Hne) as (i & j & c & Hl & Hj & Ho).
    destruct (caller_moves _ _ s j c HI Hsm Hj) as [(n & Hk & Hn & Hp)|?]; [by eapply unfinished_of_owes| |done].
    exfalso. unfold owes in Ho. rewrite Hk in Ho. simpl in Ho.
    case_decide; [subst; by rewrite Hl in Hn; destruct Hn|].
    destruct (c_pc c) as [| | | |cr|]; try done. by destruct (Hp cr).
Qed.

(** No deadlock: in every reachable state in which some fetch, claim or
    upstream read is unfinished, a step is enabled that is not a queue
    timeout, whatever the budget and however many leads are parked on it. *)
Theorem no_deadlock C cap d s :
  reachable C cap d s -> ~ quiescent s ->
  exists e, unforced e /\ is_Some (exec (Machine:=flights_machine C) s e).
Proof.
  intros Hr Hq. pose proof (reachable_Inv _ _ _ _ Hr) as HI.
  destruct Hr as (_ & _ & _ & Hsm & _). by eapply progress.
Qed.

(** Room in the call counter for what is already under way. *)
Definition room (s : state) : Prop := 2 * ids s + 2 <= int32_max.

Lemma room_small s : room s -> small s.
Proof.
  unfold room, small, ids. assert (0 <= msum pending (callers s)); [|lia].
  apply msum_nonneg. intros i c _. unfold pending. destruct (c_pc c); lia.
Qed.

Lemma internal_down C U s e s' :
  Inv C U s /\ room s -> internal e -> exec (Machine:=flights_machine C) s e = Some s' ->
  (Inv C U s' /\ room s') /\ (Z.to_nat (rank s') < Z.to_nat (rank s))%nat.
Proof.
  intros [HI Hr] Hi He. destruct (internal_step _ _ _ _ _ HI Hi He) as [Hrk Hids].
  split; [split|].
  - eapply Inv_step; [done|by apply room_small|done].
  - unfold room in *. lia.
  - pose proof (rank_nonneg s'). lia.
Qed.

(** C21: every fetch ends: once requests stop arriving, every schedule of the
    remaining steps is at most [rank s] long, and a schedule that has run
    out of steps has finished everything; such a schedule without any queue
    timeout exists. *)
Theorem fetches_terminate C cap d s :
  reachable C cap d s -> room s ->
  (forall es s', Forall internal es -> @run _ _ (flights_machine C) s es = Some s' ->
     (length es <= Z.to_nat (rank s))%nat /\ (quiescent s' \/ can_move C s')) /\
  (exists es s', Forall unforced es /\ @run _ _ (flights_machine C) s es = Some s' /\ quiescent s').
Proof.
  intros Hr Hroom. pose proof (reachable_Inv _ _ _ _ Hr) as HI.
  assert (forall e, unforced e -> internal e) as Hui by (by intros []).
  split.
  - intros es s' Hes Hrun.
    destruct (@run_bounded _ _ (flights_machine C) (fun s => Inv C cap s /\ room s) internal
      (fun s => Z.to_nat (rank s)) s es s') as [[HI' Hr'] Hlen]; try done; [by apply internal_down|].
    split; [lia|]. destruct (decide (quiescent s')) as [?|Hq]; [by left|right].
    eapply progress; [done|by apply room_small|done].
  - destruct (@run_reaches _ _ (flights_machine C) (fun s => Inv C cap s /\ room s) unforced
      (fun s => Z.to_nat (rank s)) quiescent s) as (es & s' & ? & ? & ?); try done; [apply _| | |by exists es, s'].
    + intros s0 e s1 H0 He. apply internal_down; [done|by apply Hui].
    + intros s0 [H0 H1] Hq. destruct (progress _ _ s0 H0 (room_small _ H1) Hq) as (e & He & s1 & Hx).
      by exists e, s1.
Qed.

Lemma no_deadlock_witness :
  exists e, unforced e /\
    is_Some (exec (Machine:=flights_machine 4) (fl_examples.at_end fl_examples.es_shared) e).
Proof.
  refine (no_deadlock 4 1 ∅ (fl_examples.at_end fl_examples.es_shared) _ _).
  - apply fl_examples.at_end_reachable; vm_compute; reflexivity.
  - intros [Hl _]. vm_compute in Hl. discriminate Hl.
Defined.

Lemma fetches_terminate_witness :
  exists es s', Forall unforced es /\
    @run _ _ (flights_machine 4) (fl_examples.at_end fl_examples.es_joined) es = Some s' /\ quiescent s'.
Proof.
  refine (proj2 (fetches_terminate 4 1 ∅ (fl_examples.at_end fl_examples.es_joined) _ _)).
  - apply fl_examples.at_end_reachable; vm_compute; reflexivity.
  - vm_compute. intros Hx. discriminate Hx.
Defined.

End fllive.
