(* ===== verification/FlightsData.v ===== *)
(** * The bytes a concurrent fetch delivers

    When the upstream honours [If-Match] and [Range], every chunk any
    interleaving of fetches delivers holds exactly its part of the version
    of the object that was asked for: flights are never mixed up. *)
From S2P Require Import Prelude GoStd Http Budget Singleflight Chunk DiskCache Flights FlightsInv FlightsProps.

Module fldata.
Import chunk fl flinv flprops.

(** ** The key of a flight *)

Definition slashless (et : string) : Prop := strings.has_byte "/"%char et = false.

Lemma app_sep_inj_r sep a b s t :
  strings.has_byte sep s = false -> strings.has_byte sep t = false ->
  a +:+ String sep s = b +:+ String sep t -> a = b /\ s = t.
Proof.
  intros Hs Ht. revert b. induction a as [|x a IH]; intros [|y b]; simpl.
  - intros [= ->]. done.
  - intros [= -> ->]. exfalso. rewrite strings.has_byte_app in Hs. simpl in Hs.
    by rewrite Ascii.eqb_refl, orb_true_r in Hs.
  - intros [= -> <-]. exfalso. rewrite strings.has_byte_app in Ht. simpl in Ht.
    by rewrite Ascii.eqb_refl, orb_true_r in Ht.
  - intros [= -> He]. by destruct (IH b He) as [-> ->].
Qed.

Lemma sfKey_eq k1 s1 v1 k2 s2 v2 :
  slashless (etag v1) -> slashless (etag v2) ->
  sfKey k1 s1 v1 = sfKey k2 s2 v2 -> k1 = k2 /\ s1 = s2 /\ etag v1 = etag v2.
Proof.
  unfold sfKey, slashless. intros H1 H2 He.
  assert (forall k n e, ((k +:+ "/" +:+ strconv.FormatInt n) +:+ "/" +:+ e)%string =
    (k +:+ "/" +:+ strconv.FormatInt n +:+ "/" +:+ e)%string) as Hassoc.
  { intros. rewrite !strings.app_assoc. reflexivity. }
  rewrite <- !Hassoc in He. apply app_sep_inj_r in He as [He ->]; [|done..].
  apply app_sep_inj_r in He as [-> He]; [|by apply strconv.FormatInt_no_byte..].
  split; [done|]. split; [|done]. by apply (inj strconv.FormatInt).
Qed.

(** The deduplication key is unambiguous: two fetches share a flight only
    if they are for the same key, offset and ETag, whatever slashes the keys
    have, as long as ETags have none. *)
Theorem sfKey_identifies_chunk k1 s1 v1 k2 s2 v2 :
  slashless (etag v1) -> slashless (etag v2) ->
  sfKey k1 s1 v1 = sfKey k2 s2 v2 <-> k1 = k2 /\ s1 = s2 /\ etag v1 = etag v2.
Proof.
  intros H1 H2. split; [by apply sfKey_eq|]. intros (-> & -> & He). unfold sfKey. by rewrite He.
Qed.

Lemma sfKey_identifies_chunk_witness :
  sfKey "a/4" 4 {| etag := "e"; modified := 0 |} <> sfKey "a" 4 {| etag := "e"; modified := 0 |}.
Proof.
  intros He. pose proof (proj1 (sfKey_identifies_chunk "a/4" 4 {| etag := "e"; modified := 0 |}
    "a" 4 {| etag := "e"; modified := 0 |} eq_refl eq_refl) He) as [Hk _]. discriminate Hk.
Defined.

(** Without that, it is not: a weak validator has a slash. *)
Example sfKey_slash_collides :
  sfKey "a" 4 {| etag := "5/W"; modified := 0 |} = sfKey "a/4" 5 {| etag := "W"; modified := 0 |}.
Proof. reflexivity. Qed.

(** ** Operations that only release

    [quiet h h']: handles may have been closed and counts have moved, and
    nothing else. *)
Definition same_data (f f' : chunkFlight) : Prop :=
  fl_err f' = fl_err f /\ fl_size f' = fl_size f /\ fl_path f' = fl_path f /\
  pin f' = pin f /\ buf f' = buf f.

Lemma same_data_refl f : same_data f f.
Proof. by repeat split. Qed.
#[local] Hint Resolve same_data_refl : core.

Definition closed_some (hs hs' : gmap nat bytes) : Prop :=
  forall n d, hs' !! n = Some d -> hs !! n = Some d.

Definition quiet (h h' : heap) : Prop :=
  disk h' = disk h /\ closed_some (handles h) (handles h') /\
  forall i f', flights h' !! i = Some f' -> exists f, flights h !! i = Some f /\ same_data f f'.

#[global] Instance quiet_preorder : PreOrder quiet.
Proof.
  split.
  - intros h. split; [done|]. split; [by intros n d|]. intros i f Hf. by exists f.
  - intros h1 h2 h3 (Hd1 & Hh1 & Hf1) (Hd2 & Hh2 & Hf2). split; [congruence|]. split.
    + intros n d Hn. by apply Hh1, Hh2.
    + intros i f3 H3. destruct (Hf2 i f3 H3) as (f2 & H2 & Hs2). destruct (Hf1 i f2 H2) as (f1 & H1 & Hs1).
      exists f1. split; [done|]. destruct Hs1 as (?&?&?&?&?), Hs2 as (?&?&?&?&?). repeat split; congruence.
Qed.

Lemma quiet_flight i f f' h :
  flights h !! i = Some f -> same_data f f' -> quiet h (set_flights (<[i := f']> (flights h)) h).
Proof.
  intros Hf Hs. split; [done|]. split; [by intros n d|]. intros k fk. simpl. rewrite lookup_insert_Some.
  intros [[<- <-]|[_ Hk]]; [by exists f|by exists fk].
Qed.

Lemma quiet_close n h : quiet h (close_handle n h).
Proof.
  split; [done|]. split; [|intros i f Hf; by exists f].
  intros m d. simpl. by intros [_ ?]%lookup_delete_Some.
Qed.

Lemma free_quiet i h h' : free i h = Some h' -> quiet h h'.
Proof.
  unfold free. intros He. inv_bind. subst h'.
  set (h1 := set_flights _ h) in *. assert (quiet h h1) as H1 by (by eapply quiet_flight).
  set (h2 := match pin c with Some p => _ | None => _ end) in *.
  assert (quiet h1 h2) as H2 by (unfold h2; destruct (pin c); [apply quiet_close|reflexivity]).
  assert (quiet h2 h0) as H3.
  { destruct (buf c); [|injection E0 as <-; reflexivity]. inv_bind. destruct p as [b o]. injection E0 as <-.
    split; [done|]. split; [by intros n d|]. intros k f Hf. by exists f. }
  etrans; [exact H1|]. etrans; [exact H2|]. exact H3.
Qed.

Lemma unref_quiet i h h' : unref i h = Some h' -> quiet h h'.
Proof.
  unfold unref. intros He. inv_bind.
  set (h1 := set_flights _ h) in *. assert (quiet h h1) as H1 by (by eapply quiet_flight).
  destruct (_ =? 0); [|injection He as <-; done]. etrans; [exact H1|by eapply free_quiet].
Qed.

Lemma close_quiet cr h h' cr' : close cr h = Some (h', cr') -> quiet h h'.
Proof.
  unfold close. intros He. inv_bind. subst.
  set (h1 := match file cr with Some f => _ | None => _ end) in *.
  assert (quiet h h1) as H1 by (unfold h1; destruct (file cr); [apply quiet_close|reflexivity]).
  etrans; [exact H1|]. destruct (done cr); [by eapply unref_quiet|injection E as <-; reflexivity].
Qed.

(** ** The world

    [object k et] is the content of the version [et] of the object [k];
    [legacy_ok k et] says that chunks cached for [k] before versioning are
    of that version. *)
Section data.
Context (C : Z) (object : string -> string -> bytes) (legacy_ok : string -> string -> Prop).

Definition chunk_end (k et : string) (st : Z) : Z :=
  Z.min (st + C - 1) (Z.of_nat (length (object k et)) - 1).
Definition chunk_of (k et : string) (st : Z) : bytes :=
  slice st (chunk_end k et st + 1) (object k et).
Definition etag_ok (v : objVersion) : Prop := etag v <> "" /\ slashless (etag v).

(** What a step owes to the environment: requests are for chunks of the
    version the HEAD named, the upstream answers a conditional range request
    with (a prefix of) that range of that version, and a legacy chunk is used
    when [DiskCache.Get] trusts it. *)
Definition honest (s : state) (e : event) : Prop :=
  match e with
  | EFetch k v a b => etag_ok v /\ b = chunk_end k (etag v) a
  | ELookup i (LkHit true) =>
      forall c, callers s !! i = Some c -> legacy_ok (c_key c) (etag (c_v c))
  | EDownload i (inr (body, _)) _ =>
      forall l, leads s !! i = Some l ->
        body `prefix_of` chunk_of (l_key l) (etag (l_v l)) (l_start l)
  | _ => True
  end.

Definition honest_run : state -> list event -> Prop := along (H:=flights_machine C) honest.

Definition disk_data (d : gmap chunk_file bytes) : Prop :=
  (forall k et st b, et <> "" -> d !! (k, et, st) = Some b -> b = chunk_of k et st) /\
  (forall k et st b, legacy_ok k et -> d !! (k, "", st) = Some b -> b = chunk_of k et st).

(** ** The invariant *)

Definition only (hs : gmap nat bytes) (n : nat) (b : bytes) : Prop :=
  forall d, hs !! n = Some d -> d = b.

Definition flight_data (hs : gmap nat bytes) (i : nat) (f : chunkFlight) (k et : string) (st : Z) : Prop :=
  fl_size f = Z.of_nat (length (chunk_of k et st)) /\
  (forall b, buf f = Some b -> b = chunk_of k et st) /\
  (pin f <> None -> fl_path f = (k, et, st) /\ only hs (pin_of i) (chunk_of k et st)).

Definition lead_data (h : heap) (i : nat) (l : lead) : Prop :=
  etag_ok (l_v l) /\ 0 <= l_start l <= l_end l /\ l_end l < int64_max /\
  l_end l = chunk_end (l_key l) (etag (l_v l)) (l_start l) /\
  (forall b, l_pc l = LPut b -> b = chunk_of (l_key l) (etag (l_v l)) (l_start l)) /\
  (forall f, flights h !! i = Some f ->
     flight_data (handles h) i f (l_key l) (etag (l_v l)) (l_start l)).

Definition cr_data (h : heap) (c : caller) (cr : chunkResult) : Prop :=
  err cr = None ->
  chunkStart cr = c_start c /\
  size cr = Z.of_nat (length (chunk_of (c_key c) (etag (c_v c)) (c_start c))) /\
  forall d, content h cr = Some d -> d = chunk_of (c_key c) (etag (c_v c)) (c_start c).

Definition wants (L : gmap nat lead) (h : heap) (n : nat) (c : caller) : Prop :=
  match L !! n with
  | Some l => l_key l = c_key c /\ etag (l_v l) = etag (c_v c) /\ l_start l = c_start c
  | None => forall f, flights h !! n = Some f ->
      flight_data (handles h) n f (c_key c) (etag (c_v c)) (c_start c)
  end.

Definition caller_data (L : gmap nat lead) (h : heap) (c : caller) : Prop :=
  etag_ok (c_v c) /\ c_end c = chunk_end (c_key c) (etag (c_v c)) (c_start c) /\
  (forall n, c_claim c = KWait n -> wants L h n c) /\
  (forall cr, c_pc c = CReturned cr \/ c_claim c = KHave cr -> cr_data h c cr).

Record dinv (s : state) : Prop := {
  d_disk : disk_data (disk (hp s));
  d_leads : forall i l, leads s !! i = Some l -> lead_data (hp s) i l;
  d_callers : forall j c, callers s !! j = Some c -> caller_data (leads s) (hp s) c;
}.

(** ** What a change of the heap keeps *)

(** At most the handle [n0] is new. *)
Definition opens (n0 : nat) (h h' : heap) : Prop :=
  forall n d, n <> n0 -> handles h' !! n = Some d -> handles h !! n = Some d.

Lemma cr_data_opens s h' n0 j c cr :
  result_ok s j cr -> opens n0 (hp s) h' -> n0 <> file_of j ->
  (forall i, leads s !! i = None -> n0 <> pin_of i) ->
  cr_data (hp s) c cr -> cr_data h' c cr.
Proof.
  intros Hr Ho Hf Hp Hd He. destruct (Hd He) as (? & ? & Hc). split; [done|]. split; [done|].
  intros d Hx. apply Hc. revert Hx. unfold result_ok in Hr. rewrite He in Hr. unfold content.
  destruct Hr as [(-> & _)|(-> & i & f & _ & Hl & _ & _ & _ & Hr)].
  - apply Ho. by apply not_eq_sym.
  - destruct Hr as [(-> & _)|(-> & _)]; [|done]. rewrite !fmap_Some.
    intros (d0 & Hx & ->). exists d0. split; [|done]. apply Ho; [|done]. intros He2. by eapply Hp.
Qed.

Lemma flight_data_opens h h' n0 i f f' k et st :
  same_data f f' -> opens n0 h h' -> n0 <> pin_of i ->
  flight_data (handles h) i f k et st -> flight_data (handles h') i f' k et st.
Proof.
  intros (_ & H1 & H2 & H3 & H4) Ho Hn (Hs & Hb & Hp). unfold flight_data. rewrite H1, H2, H3, H4.
  split; [done|]. split; [done|]. intros Hpn. destruct (Hp Hpn) as [? Hd]. split; [done|].
  intros d Hx. apply Hd, Ho; [|done]. by apply not_eq_sym.
Qed.

Lemma wants_opens L h h' n0 n c :
  (forall i f', flights h' !! i = Some f' -> exists f, flights h !! i = Some f /\ same_data f f') ->
  opens n0 h h' -> (forall i, L !! i = None -> n0 <> pin_of i) ->
  wants L h n c -> wants L h' n c.
Proof.
  intros Hf Ho Hp. unfold wants. destruct (L !! n) as [l|] eqn:Hl; [done|]. intros Hw f' Hf'.
  destruct (Hf n f' Hf') as (f & Hx & Hs). eapply flight_data_opens; [done|done|by apply Hp|by apply Hw].
Qed.

(** Everything but the moving caller, when at most its file is opened. *)
Lemma dinv_caller U s j c c' h' :
  Inv C U s -> dinv s -> callers s !! j = Some c -> disk h' = disk (hp s) ->
  (forall i f', flights h' !! i = Some f' -> exists f, flights (hp s) !! i = Some f /\ same_data f f') ->
  opens (file_of j) (hp s) h' -> caller_data (leads s) h' c' ->
  dinv (set_caller j c' (set_hp h' s)).
Proof.
  intros HI HD Hj Hdisk Hf Ho Hc'. split; simpl.
  - rewrite Hdisk. apply HD.
  - intros i l Hl. destruct (d_leads _ HD i l Hl) as (? & ? & ? & ? & ? & Hfl).
    do 5 (split; [done|]). intros f' Hf'. destruct (Hf i f' Hf') as (f & Hx & Hs).
    eapply flight_data_opens; [done|done| |by apply Hfl]. intros He. by apply (pin_file_ne i j).
  - intros k ck. rewrite lookup_insert_Some. intros [[<- <-]|[Hne Hk]]; [done|].
    destruct (d_callers _ HD k ck Hk) as (? & ? & Hw & Hcr). do 2 (split; [done|]).
    assert (forall i, leads s !! i = None -> file_of j <> pin_of i) as Hp.
    { intros i _ He. by apply (pin_file_ne i j). }
    split.
    + intros n Hn. eapply wants_opens; [done|done|done|by apply Hw].
    + intros cr Hx. eapply cr_data_opens; [|exact Ho| |exact Hp|by apply Hcr].
      * destruct (i_callers _ _ _ HI k ck Hk) as (Hcl & Hpc & _).
        destruct Hx as [Hx|Hx]; rewrite Hx in *; [done|apply Hcl].
      * intros He. by apply Hne, file_of_inj.
Qed.

(** Everything but the moving lead and its flight. *)
Lemma dinv_lead U s i l pc h' :
  Inv C U s -> dinv s -> leads s !! i = Some l -> disk_data (disk h') ->
  (forall k, k <> i -> flights h' !! k = flights (hp s) !! k) ->
  opens (pin_of i) (hp s) h' ->
  (forall b, pc = LPut b -> b = chunk_of (l_key l) (etag (l_v l)) (l_start l)) ->
  (forall f, flights h' !! i = Some f ->
     flight_data (handles h') i f (l_key l) (etag (l_v l)) (l_start l)) ->
  dinv (goto i pc l (set_hp h' s)).
Proof.
  intros HI HD Hl Hdisk Hf Ho Hb Hfi.
  assert (forall k, k <> i -> pin_of i <> pin_of k) as Hpin.
  { intros k Hne He. by apply Hne, eq_sym, pin_of_inj. }
  assert (forall k, leads s !! k = None -> pin_of i <> pin_of k) as Hpn.
  { intros k Hk. apply Hpin. intros ->. congruence. }
  split; simpl; [done| |].
  - intros k lk. rewrite lookup_insert_Some. intros [[<- <-]|[Hne Hk]].
    + destruct (d_leads _ HD i l Hl) as (? & ? & ? & ? & _ & _).
      do 4 (split; [done|]). split; [exact Hb|exact Hfi].
    + destruct (d_leads _ HD k lk Hk) as (? & ? & ? & ? & ? & Hfl). do 5 (split; [done|]).
      intros f. rewrite Hf by done. intros Hx.
      eapply flight_data_opens; [apply same_data_refl|done|by apply Hpin|by apply Hfl].
  - intros k ck Hk. destruct (d_callers _ HD k ck Hk) as (? & ? & Hw & Hcr). do 2 (split; [done|]).
    split.
    + intros n Hn. specialize (Hw n Hn). unfold wants in *. destruct (decide (n = i)) as [->|Hne].
      * rewrite lookup_insert_eq. by rewrite Hl in Hw.
      * rewrite lookup_insert_ne by done. destruct (leads s !! n) eqn:Hln; [done|].
        intros f. rewrite Hf by done. intros Hx.
        eapply flight_data_opens; [apply same_data_refl|done|by apply Hpin|by apply Hw].
    + intros cr Hx. eapply cr_data_opens; [|exact Ho| |exact Hpn|by apply Hcr].
      * destruct (i_callers _ _ _ HI k ck Hk) as (Hcl & Hpc & _).
        destruct Hx as [Hx|Hx]; rewrite Hx in *; [done|apply Hcl].
      * apply pin_file_ne.
Qed.

(** ** Each event *)

Lemma only_sub hs hs' n b : closed_some hs hs' -> only hs n b -> only hs' n b.
Proof. intros Hs Ho d Hd. by apply Ho, Hs. Qed.

Lemma flight_data_quiet hs hs' i f f' k et st :
  same_data f f' -> closed_some hs hs' -> flight_data hs i f k et st -> flight_data hs' i f' k et st.
Proof.
  intros (_ & H1 & H2 & H3 & H4) Hs (Hz & Hb & Hp). unfold flight_data. rewrite H1, H2, H3, H4.
  split; [done|]. split; [done|]. intros Hpn. destruct (Hp Hpn) as [? Hd]. split; [done|].
  by eapply only_sub.
Qed.

Lemma cr_data_quiet h h' c cr : closed_some (handles h) (handles h') -> cr_data h c cr -> cr_data h' c cr.
Proof.
  intros Hs Hd He. destruct (Hd He) as (? & ? & Hc). split; [done|]. split; [done|].
  intros d Hx. apply Hc. revert Hx. unfold content. destruct (file cr), (section cr) as [[p m]|]; try apply Hs; [|done].
  rewrite !fmap_Some. intros (d0 & Hx & ->). exists d0. split; [by apply Hs|done].
Qed.

Lemma wants_quiet L h h' n c : quiet h h' -> wants L h n c -> wants L h' n c.
Proof.
  intros (_ & Hs & Hf). unfold wants. destruct (L !! n); [done|]. intros Hw f' Hx.
  destruct (Hf n f' Hx) as (f & Hfl & Hsd). eapply flight_data_quiet; [done|done|by apply Hw].
Qed.

Lemma quiet_opens n0 h h' : quiet h h' -> opens n0 h h'.
Proof. intros (_ & Hs & _) n d _. apply Hs. Qed.

(** A caller that moves on to a program counter without a new result. *)
Lemma caller_data_quiet L h h' c pc k adm :
  quiet h h' -> caller_data L h c ->
  (forall n, k = KWait n -> c_claim c = KWait n) ->
  (forall cr, pc = CReturned cr \/ k = KHave cr ->
     c_pc c = CReturned cr \/ c_claim c = KHave cr \/ err cr <> None) ->
  caller_data L h' (at_cpc pc k adm c).
Proof.
  intros Hq (? & ? & Hw & Hcr) Hk Hpc. do 2 (split; [done|]). split; simpl.
  - intros n Hn. eapply wants_quiet; [done|]. apply (Hw n), Hk, Hn.
  - intros cr Hx. destruct (Hpc cr Hx) as [?|[?|He]].
    + eapply cr_data_quiet; [apply Hq|apply Hcr; by left].
    + eapply cr_data_quiet; [apply Hq|apply Hcr; by right].
    + intros Hn. done.
Qed.

(** The steps of a caller that open nothing. *)
Lemma dinv_quiet U s j c h' pc k adm :
  Inv C U s -> dinv s -> callers s !! j = Some c -> quiet (hp s) h' ->
  (forall n, k = KWait n -> c_claim c = KWait n) ->
  (forall cr, pc = CReturned cr \/ k = KHave cr ->
     c_pc c = CReturned cr \/ c_claim c = KHave cr \/ err cr <> None) ->
  dinv (set_caller j (at_cpc pc k adm c) (set_hp h' s)).
Proof.
  intros HI HD Hj Hq Hk Hpc. pose proof Hq as (Hd & _ & Hf).
  eapply dinv_caller; [done|done|exact Hj|done|done|by apply quiet_opens|].
  apply (caller_data_quiet _ (hp s)); [done|by apply (d_callers _ HD j)|done|done].
Qed.

Lemma dinv_same s s' :
  hp s' = hp s -> leads s' = leads s -> callers s' = callers s -> dinv s -> dinv s'.
Proof. intros H1 H2 H3 [? ? ?]. split; by rewrite ?H1, ?H2, ?H3. Qed.

Lemma set_hp_id s : set_hp (hp s) s = s.
Proof. by destruct s. Qed.

Ltac quiet_caller :=
  match goal with
  | HI : Inv ?C ?U ?s, HD : dinv ?s, Hj : callers ?s !! ?j = Some ?c |- dinv (set_caller ?j ?c' ?s) =>
      rewrite <- (set_hp_id s) at 1; apply (dinv_quiet U s j c); [done|done|done|reflexivity|..]
  | HI : Inv ?C ?U ?s, HD : dinv ?s, Hj : callers ?s !! ?j = Some ?c |- dinv (set_caller ?j ?c' (set_hp ?h ?s)) =>
      apply (dinv_quiet U s j c); [done|done|done| |..]
  end; try done.

Lemma fetch_dinv U key v a b s s' :
  Inv C U s -> dinv s -> honest s (EFetch key v a b) -> fetch C key v a b s = Some s' -> dinv s'.
Proof.
  unfold fetch. intros HI HD [Hv Hb] He. destruct (_ && _) eqn:Hc; [|done]. injection He as <-.
  split; simpl; [apply HD|apply HD|]. intros k ck. rewrite lookup_insert_Some.
  intros [[<- <-]|[_ Hk]]; [|by apply (d_callers _ HD k)].
  split; [done|]. split; [done|]. split; [done|]. by intros cr [?|?].
Qed.

Lemma cancel_dinv U i e s s' : Inv C U s -> dinv s -> cancel i e s = Some s' -> dinv s'.
Proof.
  unfold cancel. intros HI HD He. inv_bind. subst s'. split; simpl; [apply HD|apply HD|].
  intros k ck. rewrite lookup_insert_Some. intros [[<- <-]|[_ Hk]]; [|by apply (d_callers _ HD k)].
  apply (d_callers _ HD i c E).
Qed.

Lemma lookup_dinv U i r s s' :
  Inv C U s -> dinv s -> honest s (ELookup i r) -> lookup i r s = Some s' -> dinv s'.
Proof.
  unfold lookup. intros HI HD Hh He. inv_bind. destruct (c_pc c) eqn:Hc; try done.
  pose proof (not_joined s i c (i_callers _ _ _ HI i c E) (or_introl Hc)) as Hk.
  destruct r as [| |legacy]; [injection He as <-; quiet_caller; by intros ? [?|?]..|].
  destruct (disk (hp s) !! _) as [d|] eqn:Hd; [|done]. simpl in He. injection He as <-.
  destruct (d_callers _ HD i c E) as (Hv & Hend & _).
  assert (d = chunk_of (c_key c) (etag (c_v c)) (c_start c)) as ->.
  { destruct (d_disk _ HD) as [H1 H2]. destruct legacy; [by eapply H2; [apply Hh|]|].
    eapply H1; [|exact Hd]. apply Hv. }
  eapply dinv_caller; [done|done|exact E|done|by intros k f Hf; exists f| |].
  - intros n d Hn. simpl. by rewrite lookup_insert_ne.
  - split; [done|]. split; [done|]. split; [done|]. simpl. intros cr [[= <-]|?]; [|done].
    intros _. split; [done|]. split; [done|]. unfold content. simpl.
    intros d. rewrite lookup_insert_eq. congruence.
Qed.

Lemma see_admitted_dinv U i s s' : Inv C U s -> dinv s -> see_admitted i s = Some s' -> dinv s'.
Proof.
  unfold see_admitted. intros HI HD He. inv_bind. destruct (c_pc c) eqn:Hc; try done. inv_bind. subst s'.
  quiet_caller. intros cr [?|?]; [done|]. by right; left.
Qed.

Lemma abandon_dinv U i s s' : Inv C U s -> dinv s -> abandon i s = Some s' -> dinv s'.
Proof.
  unfold abandon. intros HI HD He. inv_bind.
  assert (exists e, s' = set_caller i (at_cpc (CReturned (errResult e)) (c_claim c) true c) s) as [e ->].
  { destruct (c_pc c); try done; inv_bind; eauto. }
  quiet_caller. intros cr [[= <-]|?]; [by right; right|by right; left].
Qed.

Lemma hand_dinv U i s s' : Inv C U s -> dinv s -> hand i s = Some s' -> dinv s'.
Proof.
  unfold hand. intros HI HD He. inv_bind. destruct (c_pc c) eqn:Hc; try done.
  destruct (c_claim c) eqn:Hk; try done. injection He as <-.
  quiet_caller. intros cr' [[= <-]|?]; [|done]. by right; left.
Qed.

Lemma drop_claim_dinv U i s s' : Inv C U s -> dinv s -> drop_claim i s = Some s' -> dinv s'.
Proof.
  unfold drop_claim. intros HI HD He. inv_bind. destruct (c_claim c) as [|m|cr|] eqn:Hk; try done.
  inv_bind. destruct p as [h cr']. injection He as <-. quiet_caller; [by eapply close_quiet|].
  intros cr0 [?|?]; [by left|done].
Qed.

Lemma close_result_dinv U i s s' : Inv C U s -> dinv s -> close_result i s = Some s' -> dinv s'.
Proof.
  unfold close_result. intros HI HD He. inv_bind. destruct (c_pc c) as [| | | |cr|] eqn:Hp; try done.
  inv_bind. destruct p as [h cr']. injection He as <-. quiet_caller; [by eapply close_quiet|].
  intros cr0 [?|?]; [done|]. by right; left.
Qed.

(** What a claim hands out is what the flight has. *)
Lemma claim_data U i o s c n f h cr :
  Inv C U s -> dinv s -> callers s !! i = Some c -> c_claim c = KWait n -> leads s !! n = None ->
  flights (hp s) !! n = Some f -> filled n f -> claim n (c_start c) o (file_of i) (hp s) = Some (h, cr) ->
  disk h = disk (hp s) /\
  (forall k f', flights h !! k = Some f' -> exists f, flights (hp s) !! k = Some f /\ same_data f f') /\
  opens (file_of i) (hp s) h /\ cr_data h c cr.
Proof.
  intros HI HD Hi Hk Hl Hf Hfi. unfold claim. rewrite Hf. simpl.
  destruct (d_callers _ HD i c Hi) as (Hv & _ & Hw & _). specialize (Hw n Hk). unfold wants in Hw.
  rewrite Hl in Hw. destruct (Hw f Hf) as (Hsz & Hbuf & Hpin).
  assert (forall h', quiet (hp s) h' -> disk h' = disk (hp s) /\
    (forall k f', flights h' !! k = Some f' -> exists f, flights (hp s) !! k = Some f /\ same_data f f') /\
    opens (file_of i) (hp s) h') as Hquiet.
  { intros h' Hq. split; [apply Hq|]. split; [apply Hq|by apply quiet_opens]. }
  destruct (fl_err f) as [e|] eqn:Hfe.
  { destruct (unref n (hp s)) as [h0|] eqn:E; [|done]. intros [= <- <-]. destruct (Hquiet h0) as (? & ? & ?); [by eapply unref_quiet|].
    do 3 (split; [done|]). done. }
  destruct (buf f) as [d|] eqn:Hb.
  { intros [= <- <-]. destruct (Hquiet (hp s)) as (? & ? & ?); [reflexivity|]. do 3 (split; [done|]).
    intros _. rewrite (Hbuf d eq_refl). split; [done|]. split; [done|]. by intros d' [= <-]. }
  unfold filled in Hfi. rewrite Hfe, Hb in Hfi. destruct (pin f) as [p|] eqn:Hp; [|done]. subst p.
  destruct Hpin as [Hpath Honly]; [done|]. unfold open_path.
  destruct (if o then _ else None) as [[h1 fh]|] eqn:Ho.
  - destruct o; [|done]. destruct (disk (hp s) !! fl_path f) as [d|] eqn:Hd; [|done].
    simpl in Ho. injection Ho as <- <-. rewrite Hpath in Hd.
    apply (d_disk _ HD) in Hd as ->; [|apply Hv].
    destruct (unref n _) as [h0|] eqn:E; [|done]. intros [= <- <-].
    apply unref_quiet in E as (Hq1 & Hq2 & Hq3). split; [done|]. split; [done|]. split.
    + intros m d Hm Hx. apply Hq2 in Hx. simpl in Hx. by rewrite lookup_insert_ne in Hx.
    + intros _. split; [done|]. split; [done|]. unfold content. simpl. intros d Hx. apply Hq2 in Hx.
      simpl in Hx. rewrite lookup_insert_eq in Hx. congruence.
  - simpl. intros [= <- <-]. destruct (Hquiet (hp s)) as (? & ? & ?); [reflexivity|].
    do 3 (split; [done|]). intros _. split; [done|]. split; [done|]. unfold content. simpl.
    intros d. rewrite fmap_Some. intros (d0 & Hx & ->). rewrite (Honly d0 Hx), Hsz, Nat2Z.id.
    apply firstn_all.
Qed.

Lemma claim_dinv U i o s s' : Inv C U s -> dinv s -> claim_flight i o s = Some s' -> dinv s'.
Proof.
  unfold claim_flight. intros HI HD He. inv_bind. destruct (c_claim c) as [|n|cr|] eqn:Hk; try done.
  inv_bind. destruct p as [h cr]. injection He as <-.
  pose proof (done_no_lead _ _ s n s0 HI E0 E1) as Hl.
  destruct (h_done _ _ _ _ _ _ (i_heap _ _ _ HI) n s0 E0 Hl) as (_ & Hres & _ & f & Hf & Hfi & _).
  assert (n0 = n) as -> by congruence.
  destruct (claim_data U i o s c n f h cr HI HD E Hk Hl Hf Hfi E3) as (Hd & Hq & Ho & Hcr).
  eapply dinv_caller; [done|done|exact E|done|done|done|].
  destruct (d_callers _ HD i c E) as (? & ? & _ & Hold). do 2 (split; [done|]). simpl.
  split; [done|]. intros cr' [Hx|Hx]; [|by injection Hx as <-].
  destruct (i_callers _ _ _ HI i c E) as (Hcl & _). rewrite Hk, Hx in Hcl.
  destruct Hcl as [_ [[]|[_ Hle]]]. rewrite Hx in Hle. by destruct Hle as [e ->].
Qed.

Lemma join_dinv U i s s' :
  Inv C U s -> dinv s -> join i s = Some s' -> dinv s'.
Proof.
  unfold join. intros HI HD He. inv_bind. destruct (c_pc c) eqn:Hc; try done.
  destruct (gone c) as [e|] eqn:Hg.
  { injection He as <-. quiet_caller. intros cr [[= <-]|?]; [by right; right|done]. }
  destruct (d_callers _ HD i c E) as (Hv & Hend & _).
  destruct (i_bounds _ _ _ HI i c E) as (Hb1 & _ & Hb2).
  unfold sf.join in He. destruct (sf.g_m (sfg s) !! _) as [n|] eqn:Hm.
  - destruct (sf.g_calls (sfg s) !! n) as [sc|]; [|done]. simpl in He. injection He as <-.
    apply (i_map _ _ _ HI) in Hm as (l & Hl & _ & Hkey).
    destruct (d_leads _ HD n l Hl) as (Hlv & _). unfold l_sfKey in Hkey.
    apply sfKey_eq in Hkey as (H1 & H2 & H3); [|apply Hlv|apply Hv].
    apply (dinv_same (set_caller i (at_cpc (CWaitAdmitted n) (KWait n) (c_admitted c) c)
      (set_hp (hp s) s))); [done..|].
    eapply (dinv_caller U s i c); [done|done|done|done|by intros k f Hf; exists f|by intros ? ?|].
    split; [done|]. split; [done|]. simpl. split; [|by intros cr [?|?]].
    intros n' [= <-]. unfold wants. by rewrite Hl.
  - simpl in He. injection He as <-. destruct (i_ids _ _ _ HI (next s) (le_n _)) as (Hnl & Hnc & Hng).
    assert (flights (hp s) !! next s = None) as Hnf.
    { apply eq_None_not_Some. intros [f Hf]. destruct (h_call _ _ _ _ _ _ (i_heap _ _ _ HI) _ _ Hf). congruence. }
    split; simpl; [apply HD| |].
    + intros k lk. rewrite lookup_insert_Some. intros [[<- <-]|[_ Hk]]; [|by apply (d_leads _ HD k)].
      split; [done|]. split; [done|]. split; [done|]. split; [done|]. split; [done|]. simpl. congruence.
    + intros k ck. rewrite lookup_insert_Some. intros [[<- <-]|[_ Hk]].
      * split; [done|]. split; [done|]. simpl. split; [|by intros cr [?|?]].
        intros n' [= <-]. unfold wants. by rewrite lookup_insert_eq.
      * destruct (d_callers _ HD k ck Hk) as (? & ? & Hw & ?). do 2 (split; [done|]). split; [|done].
        intros m Hm'. specialize (Hw m Hm'). unfold wants in *. rewrite lookup_insert_ne; [done|].
        intros <-. destruct (i_callers _ _ _ HI k ck Hk) as (Hcl & _). rewrite Hm' in Hcl.
        destruct Hcl as [[? ?] _]. congruence.
Qed.

(** *** The lead *)

(** A step of the lead that leaves disk and handles alone. *)
Lemma dinv_lead_plain U s i l pc h' :
  Inv C U s -> dinv s -> leads s !! i = Some l -> disk h' = disk (hp s) ->
  handles h' = handles (hp s) -> (forall k, k <> i -> flights h' !! k = flights (hp s) !! k) ->
  (forall b, pc = LPut b -> b = chunk_of (l_key l) (etag (l_v l)) (l_start l)) ->
  (forall f, flights h' !! i = Some f ->
     flight_data (handles (hp s)) i f (l_key l) (etag (l_v l)) (l_start l)) ->
  dinv (goto i pc l (set_hp h' s)).
Proof.
  intros HI HD Hl Hd Hh Hf Hb Hfi. eapply dinv_lead; try done.
  - rewrite Hd. apply HD.
  - intros n d _. by rewrite Hh.
  - by rewrite Hh.
Qed.

(** A flight whose counts or error change. *)
Lemma flight_data_same hs i f f' k et st :
  fl_size f' = fl_size f -> fl_path f' = fl_path f -> pin f' = pin f -> buf f' = buf f ->
  flight_data hs i f k et st -> flight_data hs i f' k et st.
Proof. intros H1 H2 H3 H4. unfold flight_data. by rewrite H1, H2, H3, H4. Qed.

Ltac lead_at He :=
  unfold with_lead in He;
  match type of He with (leads ?s !! ?i ≫= _) = Some _ =>
    let l := fresh "l" in let Hl := fresh "Hl" in
    destruct (leads s !! i) as [l|] eqn:Hl; simpl in He; [|done];
    destruct (l_pc l) eqn:Hpc; try done
  end;
  match goal with HD : dinv ?s, Hl : leads ?s !! ?i = Some ?l |- _ =>
    pose proof (d_leads _ HD i l Hl) as (Hlv & Hlb & Hlm & Hle & Hlp & Hlf)
  end.

Ltac plain :=
  match goal with
  | HI : Inv ?C ?U ?s, HD : dinv ?s, Hl : leads ?s !! ?i = Some ?l |- dinv (goto ?i ?pc ?l (set_hp ?h ?s)) =>
      apply (dinv_lead_plain U s i l pc h); simpl; try done
  | HI : Inv ?C ?U ?s, HD : dinv ?s, Hl : leads ?s !! ?i = Some ?l |- dinv (goto ?i ?pc ?l ?s) =>
      rewrite <- (set_hp_id s); apply (dinv_lead_plain U s i l pc (hp s)); simpl; try done
  end.

Lemma l_size_chunk l :
  0 <= l_start l <= l_end l -> l_end l < int64_max ->
  l_end l = chunk_end (l_key l) (etag (l_v l)) (l_start l) ->
  l_size l = Z.of_nat (length (chunk_of (l_key l) (etag (l_v l)) (l_start l))).
Proof.
  intros Hb Hm He. unfold chunk_of. rewrite <- He.
  rewrite slice_length; [|lia|unfold chunk_end in He; lia].
  unfold l_size. assert (int64_max = 9223372036854775807) by done.
  rewrite (wrap64_small (l_end l - l_start l)) by (unfold int64_min; lia).
  rewrite wrap64_small by (unfold int64_min; lia). lia.
Qed.

Lemma lead_start_dinv U i s s' : Inv C U s -> dinv s -> lead_start i s = Some s' -> dinv s'.
Proof.
  unfold lead_start. intros HI HD He. lead_at He. injection He as <-. plain.
  - intros k Hk. by rewrite lookup_insert_ne.
  - intros f. rewrite lookup_insert_eq. intros [= <-]. split; [by apply l_size_chunk|done].
Qed.

Lemma lead_acquire_dinv U i s s' : Inv C U s -> dinv s -> lead_acquire i s = Some s' -> dinv s'.
Proof.
  unfold lead_acquire. intros HI HD He. lead_at He.
  destruct (budget.acquire i _) as [b ok]. injection He as <-. plain. by destruct ok.
Qed.

Lemma lead_granted_dinv U i s s' : Inv C U s -> dinv s -> lead_granted i s = Some s' -> dinv s'.
Proof.
  unfold lead_granted. intros HI HD He. lead_at He. case_decide; [done|]. injection He as <-. plain.
Qed.

Lemma lead_timeout_dinv U i s s' : Inv C U s -> dinv s -> lead_timeout i s = Some s' -> dinv s'.
Proof.
  unfold lead_timeout. intros HI HD He. unfold with_lead in He.
  destruct (leads s !! i) as [l|] eqn:Hl; simpl in He; [|done].
  destruct (flights (hp s) !! i) as [f|] eqn:Hf; simpl in He; [|done].
  pose proof (d_leads _ HD i l Hl) as (_ & _ & _ & _ & _ & Hlf). specialize (Hlf f Hf).
  destruct (l_pc l); try done; [|case_decide; [|done]]; injection He as <-; plain.
  1, 3: intros k Hk; by rewrite lookup_insert_ne.
  all: intros f'; rewrite lookup_insert_eq; intros [= <-]; by eapply flight_data_same.
Qed.

Lemma lead_admit_dinv U i s s' : Inv C U s -> dinv s -> lead_admit i s = Some s' -> dinv s'.
Proof.
  unfold lead_admit. intros HI HD He. lead_at He.
  destruct (sf.g_calls (sfg s) !! i) as [sc|]; [|done]. injection He as <-.
  apply (dinv_same (goto i LAdmitted l s)); [done..|]. plain.
Qed.

Lemma lead_alloc_dinv U i s s' : Inv C U s -> dinv s -> lead_alloc i s = Some s' -> dinv s'.
Proof. unfold lead_alloc. intros HI HD He. lead_at He. injection He as <-. plain. Qed.

Lemma read_chunk_data n r d b c :
  read_chunk n r d = inr b -> n = Z.of_nat (length c) ->
  (forall body e, r = inr (body, e) -> body `prefix_of` c) -> b = c.
Proof.
  unfold read_chunk. destruct r as [|[body e]]; [done|]. intros Hr Hn Hp.
  destruct (Z.ltb_spec (Z.of_nat (length body)) n); [by destruct d|]. injection Hr as <-.
  destruct (Hp body e eq_refl) as [t Ht]. subst c. rewrite length_app in Hn.
  destruct t; [|simpl in *; lia]. rewrite Hn, app_nil_r, Nat2Z.id. simpl. rewrite Nat.add_0_r.
  apply firstn_all.
Qed.

Lemma lead_download_dinv U i r d s s' :
  Inv C U s -> dinv s -> honest s (EDownload i r d) -> lead_download i r d s = Some s' -> dinv s'.
Proof.
  unfold lead_download. intros HI HD Hh He. lead_at He. injection He as <-.
  destruct (read_chunk (l_size l) r d) as [e|b] eqn:Hr; plain.
  intros b' [= <-]. eapply read_chunk_data; [exact Hr|by apply l_size_chunk|].
  intros body e ->. by apply Hh.
Qed.

Lemma release_budget_heap n h h' :
  release_budget n h = Some h' -> disk h' = disk h /\ handles h' = handles h /\ flights h' = flights h.
Proof. unfold release_budget. intros He. inv_bind. destruct p. by injection He as <-. Qed.

Lemma lead_release_failed_dinv U i s s' : Inv C U s -> dinv s -> lead_release_failed i s = Some s' -> dinv s'.
Proof.
  unfold lead_release_failed. intros HI HD He. lead_at He.
  destruct (release_budget _ _) as [h|] eqn:Hr; [|done]. simpl in He.
  apply release_budget_heap in Hr as (H1 & H2 & H3). rewrite H3 in He.
  destruct (flights (hp s) !! i) as [f|] eqn:Hf; [|done]. injection He as <-. plain.
  - intros k Hk. by rewrite lookup_insert_ne, H3.
  - intros f'. rewrite lookup_insert_eq. intros [= <-]. eapply flight_data_same; [..|by apply Hlf]; done.
Qed.

Lemma lead_put_dinv U i st s s' : Inv C U s -> dinv s -> lead_put i st s = Some s' -> dinv s'.
Proof.
  unfold lead_put. intros HI HD He. lead_at He. specialize (Hlp b Hpc) as ->.
  destruct (flights (hp s) !! i) as [f|] eqn:Hf; [|done]. simpl in He. specialize (Hlf f eq_refl).
  destruct (lead_flight_of _ _ _ _ _ _ i l (i_heap _ _ _ HI) Hl) as (f0 & Hf0 & _ & _ & Hempty); [by rewrite Hpc|].
  rewrite Hpc in Hempty. rewrite Hf in Hf0. injection Hf0 as <-. destruct Hempty as [(_ & Hnb & Hnp) _].
  destruct st; injection He as <-.
  - eapply (dinv_lead U s i l); try done; simpl.
    + destruct (d_disk _ HD) as [H1 H2]. split; intros k et st' b Hk; rewrite lookup_insert_Some;
        intros [[Hx <-]|[_ Hx]]; eauto; unfold chunk_file_of in Hx; simplify_eq; [done|].
      by destruct Hlv as [Hlv _].
    + intros k Hk. by rewrite lookup_insert_ne.
    + intros n d Hn. simpl. by rewrite lookup_insert_ne.
    + intros f'. rewrite lookup_insert_eq. intros [= <-]. split; [apply Hlf|]. simpl.
      split; [by rewrite Hnb|]. intros _. split; [done|]. intros d. rewrite lookup_insert_eq. congruence.
  - plain.
    + intros k Hk. by rewrite lookup_insert_ne.
    + intros f'. rewrite lookup_insert_eq. intros [= <-]. split; [apply Hlf|]. simpl.
      split; [by intros b [= <-]|]. by rewrite Hnp.
Qed.

Lemma lead_release_stored_dinv U i s s' : Inv C U s -> dinv s -> lead_release_stored i s = Some s' -> dinv s'.
Proof.
  unfold lead_release_stored. intros HI HD He. lead_at He.
  destruct (release_budget _ _) as [h|] eqn:Hr; [|done]. simpl in He. injection He as <-.
  apply release_budget_heap in Hr as (H1 & H2 & H3). plain; rewrite H3; auto.
Qed.

Lemma lead_finish_dinv U i s s' : Inv C U s -> dinv s -> lead_finish i s = Some s' -> dinv s'.
Proof.
  unfold lead_finish. intros HI HD He. lead_at He.
  destruct (sf.finish_lock _ _ _) as [[g n]|]; [|done]. simpl in He.
  destruct (flights (hp s) !! i) as [f|] eqn:Hf; [|done]. injection He as <-.
  apply (dinv_same (goto i LPublish l (set_hp (set_flight i (set_refs n f) (hp s)) s))); [done..|]. plain.
  - intros k Hk. by rewrite lookup_insert_ne.
  - intros f'. rewrite lookup_insert_eq. intros [= <-]. eapply flight_data_same; [..|by apply Hlf]; done.
Qed.

Lemma lead_publish_dinv U i s s' : Inv C U s -> dinv s -> lead_publish i s = Some s' -> dinv s'.
Proof.
  unfold lead_publish. intros HI HD He. lead_at He.
  destruct (sf.finish_publish _ _ _) as [g|]; [|done]. injection He as <-.
  split; simpl; [apply HD| |].
  - intros k lk [_ Hk]%lookup_delete_Some. by apply (d_leads _ HD k).
  - intros k ck Hk. destruct (d_callers _ HD k ck Hk) as (? & ? & Hw & ?). do 2 (split; [done|]).
    split; [|done]. intros n Hn. specialize (Hw n Hn). unfold wants in *.
    destruct (decide (n = i)) as [->|Hne]; [|by rewrite lookup_delete_ne].
    rewrite lookup_delete_eq. rewrite Hl in Hw. destruct Hw as (<- & <- & <-). done.
Qed.

Lemma evict_dinv p s s' : dinv s -> evict p s = Some s' -> dinv s'.
Proof.
  unfold evict. intros HD [= <-]. split; [|apply HD|apply HD]. simpl.
  destruct (d_disk _ HD) as [H1 H2]. split; intros k et st b Hk [_ Hx]%lookup_delete_Some; eauto.
Qed.

Lemma dinv_step U s e s' :
  Inv C U s -> dinv s -> honest s e -> exec (Machine:=flights_machine C) s e = Some s' -> dinv s'.
Proof.
  intros HI HD Hh He. destruct e; cbn in He;
    [by eapply fetch_dinv|by eapply cancel_dinv|by eapply lookup_dinv|by eapply join_dinv
    |by eapply see_admitted_dinv|by eapply abandon_dinv|by eapply claim_dinv|by eapply hand_dinv
    |by eapply drop_claim_dinv|by eapply close_result_dinv|by eapply lead_start_dinv
    |by eapply lead_acquire_dinv|by eapply lead_granted_dinv|by eapply lead_timeout_dinv
    |by eapply lead_admit_dinv|by eapply lead_alloc_dinv|by eapply lead_download_dinv
    |by eapply lead_release_failed_dinv|by eapply lead_put_dinv|by eapply lead_release_stored_dinv
    |by eapply lead_finish_dinv|by eapply lead_publish_dinv|by eapply evict_dinv].
Qed.

Lemma honest_run_dinv U es s s' :
  Inv C U s -> dinv s -> honest_run s es -> @run _ _ (flights_machine C) s es = Some s' -> small s' ->
  Inv C U s' /\ dinv s'.
Proof.
  intros HI HD. apply (along_invariant (H:=flights_machine C) honest (fun s => Inv C U s /\ dinv s) small); [| |done].
  - intros s1 e s2 He Hs. apply next_mono in He. unfold small in *. lia.
  - intros s1 e s2 [H1 H2] He Hs Hx. split; [|by eapply dinv_step].
    eapply Inv_step; [done| |done]. apply next_mono in Hx. unfold small in *. lia.
Qed.

Lemma init_dinv cap d : disk_data d -> dinv (init cap d).
Proof. intros Hd. by split. Qed.

Lemma returned_bytes U s j c cr :
  Inv C U s -> dinv s -> callers s !! j = Some c -> c_pc c = CReturned cr -> err cr = None ->
  chunkStart cr = c_start c /\
  holds (hp s) cr (chunk_of (c_key c) (etag (c_v c)) (c_start c)).
Proof.
  intros HI HD Hj Hp He.
  destruct (d_callers _ HD j c Hj) as (_ & _ & _ & Hcr).
  destruct (Hcr cr (or_introl Hp) He) as (? & Hsz & Hc). split; [done|]. split; [done|].
  split; [|done]. destruct (held_result_alive _ _ s j c cr HI Hj (or_introl Hp) He) as [Ha _].
  unfold source_alive in Ha. unfold content in *.
  destruct (file cr) as [f|]; [destruct Ha as [x Hx]; rewrite Hx in *; by rewrite (Hc x eq_refl)|].
  destruct (section cr) as [[p n]|].
  - destruct Ha as [x Hx]. rewrite Hx in *. simpl in *. by rewrite (Hc _ eq_refl).
  - destruct Ha as [x Hx]. rewrite Hx in *. by rewrite (Hc x eq_refl).
Qed.

(** C10: the right bytes, in every interleaving: whatever mixture of hits,
    shared and private fetches, evictions, failures and cancellations, a
    result [fetchChunk] returns without an error starts at the offset asked
    for and holds exactly that chunk of the version of the object that was
    asked for, complete and readable. *)
Theorem fetched_bytes cap d es s j c cr :
  1 <= cap -> cap * C <= int64_max -> disk_data d -> honest_run (init cap d) es ->
  @run _ _ (flights_machine C) (init cap d) es = Some s -> small s ->
  callers s !! j = Some c -> c_pc c = CReturned cr -> err cr = None ->
  chunkStart cr = c_start c /\
  holds (hp s) cr (chunk_of (c_key c) (etag (c_v c)) (c_start c)).
Proof.
  intros H1 H2 Hd Hh Hr Hs Hj Hp He.
  pose proof (init_inv C cap d H1 H2) as HI0. pose proof (init_dinv cap d Hd) as HD0.
  destruct (honest_run_dinv cap es (init cap d) s HI0 HD0 Hh Hr Hs) as [HI HD].
  by eapply returned_bytes.
Qed.

#[local] Instance byte_eq_dec : EqDecision Byte.byte := Byte.byte_eq_dec.

(** [honest] as a check, for runs whose upstream never errs. *)
Definition honestb (s : state) (e : event) : bool :=
  match e with
  | EFetch k v a b =>
      negb (bool_decide (etag v = "")) && negb (strings.has_byte "/"%char (etag v)) &&
      (b =? chunk_end k (etag v) a)
  | ELookup i (LkHit true) => false
  | EDownload i (inr (body, _)) _ =>
      match leads s !! i with
      | Some l => bool_decide (body = chunk_of (l_key l) (etag (l_v l)) (l_start l))
      | None => true
      end
  | _ => true
  end.

Lemma honestb_sound s e : honestb s e = true -> honest s e.
Proof.
  destruct e as [k v a b| |i r| | | | | | | | | | | | | |i r d| | | | | |]; simpl; try done.
  - rewrite !andb_true_iff, !negb_true_iff, bool_decide_eq_false. by intros [[? ?] ->%Z.eqb_eq].
  - by destruct r as [| |[]].
  - destruct r as [|[body e]]; [done|]. intros Hb l Hl. rewrite Hl in Hb.
    by apply bool_decide_eq_true in Hb as ->.
Qed.

End data.

(** ** Two readers of one uncached chunk *)
Module data_examples.
Definition object (k et : string) : bytes := list_byte_of_string "abcdefgh".
Definition es : list event := fl_examples.es_shared.
Definition s : state := fl_examples.at_end es.
Definition c0 : caller :=
  {| c_key := "k"; c_v := fl_examples.v1; c_start := 0; c_end := 3; gone := None;
     c_admitted := true;
     c_pc := CReturned {| data := Some (list_byte_of_string "abcd"); file := None; section := None;
       fileSize := 0; err := None; chunkStart := 0; via := viaBuffer; done := Some 1%nat |};
     c_claim := KGone |}.
End data_examples.

Lemma fetched_bytes_witness :
  exists cr, c_pc data_examples.c0 = CReturned cr /\
    holds (hp data_examples.s) cr (list_byte_of_string "abcd").
Proof.
  eexists. split; [reflexivity|].
  refine (proj2 (fetched_bytes 4 data_examples.object (fun _ _ => False) 1 ∅ data_examples.es
    data_examples.s 0 data_examples.c0 _ _ _ _ _ _ _ _ _ _)).
  - discriminate.
  - discriminate.
  - split; intros k et st b _ Hb; by rewrite lookup_empty in Hb.
  - apply (alongb_sound _ _ _ _ (honestb_sound 4 data_examples.object (fun _ _ => False))). vm_compute. reflexivity.
  - vm_compute. reflexivity.
  - vm_compute. discriminate.
  - vm_compute. reflexivity.
  - reflexivity.
  - reflexivity.
Defined.

End fldata.
