(* ===== verification/WriteGuard.v ===== *)
(** * The write guard (services/write_guard.go)

    The three flags of a guard and the write deadline of its connection,
    driven by two goroutines: fetches count the buffered chunks they deliver,
    the consumer brackets its chunk writes. *)
From S2P Require Import Prelude GoStd GoTime Http Budget Chunk.

Module guard.
Import chunk.

(** Lines 33-41. [deadline] is the write deadline of the connection behind
    [rc], which [SetWriteDeadline] sets and the zero time clears. *)
Record writeGuard := {
  timeout : Z;
  held : Z;
  writing : bool;
  armed : bool;
  deadline : option Z;
}.

(** Lines 43-45. *)
Definition newWriteGuard (timeout : Z) : writeGuard :=
  {| timeout := timeout; held := 0; writing := false; armed := false; deadline := None |}.

(** [rc.SetWriteDeadline(t)]; [ok] is whether the connection supports it. *)
Definition SetWriteDeadline (t : option Z) (ok : bool) (g : writeGuard) : writeGuard :=
  {| timeout := timeout g; held := held g; writing := writing g; armed := armed g;
     deadline := if ok then t else deadline g |}.

Definition set_flags (h : Z) (w a : bool) (g : writeGuard) : writeGuard :=
  {| timeout := timeout g; held := h; writing := w; armed := a; deadline := deadline g |}.

(** Lines 82-89. *)
Definition arm (now : Z) (ok : bool) (g : writeGuard) : writeGuard :=
  if timeout g <=? 0 then g
  else
    let g := SetWriteDeadline (Some (now + timeout g)) ok g in
    if ok then set_flags (held g) (writing g) true g else g.

(** Lines 50-57. *)
Definition hold (now : Z) (ok : bool) (g : writeGuard) : writeGuard :=
  let g := set_flags (held g ⊕ 1) (writing g) (armed g) g in
  if writing g && negb (armed g) then arm now ok g else g.

(** Lines 59-66. *)
Definition begin (now : Z) (ok : bool) (g : writeGuard) : writeGuard :=
  let g := set_flags (held g) true (armed g) g in
  if 0 <? held g then arm now ok g else g.

(** Lines 69-80. *)
Definition end_ (buffered ok : bool) (g : writeGuard) : writeGuard :=
  let g := set_flags (if buffered then held g ⊖ 1 else held g) false (armed g) g in
  if armed g then
    let g := SetWriteDeadline None ok g in
    set_flags (held g) (writing g) false g
  else g.

Definition buffered (cr : chunkResult) : bool := String.eqb (via cr) viaBuffer.

(** Lines 98-103: the write and its flush. *)
Definition write_and_flush (h : heap) (reqStart reqEnd : Z) (cr : chunkResult) (w : http.ResponseWriter)
    : http.ResponseWriter * option goerr :=
  let '(w, _, err) := writeSlice h reqStart reqEnd cr w in
  match err with
  | Some e => (w, Some e)
  | None =>
      match http.Flush w with
      | Some e => if errors.IsNotSupported e then (w, None) else (w, Some e)
      | None => (w, None)
      end
  end.

(** Lines 94-107, when the write begins at [now] and buffered chunks arrive
    at the times [arrivals] in the meantime. What an expired deadline does
    to the connection is the [w_fault] of the response. *)
Definition writeChunk (now : Z) (arrivals : list Z) (ok : bool) (h : heap) (reqStart reqEnd : Z)
    (cr : chunkResult) (w : http.ResponseWriter) (g : writeGuard)
    : http.ResponseWriter * option goerr * writeGuard :=
  let g := begin now ok g in
  let g := fold_left (fun g t => hold t ok g) arrivals g in
  let '(w, err) := write_and_flush h reqStart reqEnd cr w in
  (w, err, end_ (buffered cr) ok g).

(** ** The guard under its two goroutines

    [queue] is the buffered chunks delivered and not yet written; the
    consumer can only write a chunk that was delivered, and one at a time. *)
Record state := { gd : writeGuard; queue : Z; cur : option bool }.

Inductive event :=
| Hold (now : Z)              (* a buffered chunk arrives *)
| Begin (buf : bool) (now : Z)
| End.

Section machine.
(** Whether the connection supports write deadlines. *)
Context (ok : bool).

#[global] Instance guard_machine : Machine state event := fun s e =>
  match e with
  | Hold now => if queue s <? int64_max - 2 then
                  Some {| gd := hold now ok (gd s); queue := queue s + 1; cur := cur s |} else None
  | Begin b now =>
      match cur s with
      | None => if b && (queue s <=? 0) then None
                else Some {| gd := begin now ok (gd s); queue := queue s; cur := Some b |}
      | Some _ => None
      end
  | End =>
      match cur s with
      | Some b => Some {| gd := end_ b ok (gd s); queue := if b : bool then queue s - 1 else queue s;
                          cur := None |}
      | None => None
      end
  end.

Definition init (t : Z) : state := {| gd := newWriteGuard t; queue := 0; cur := None |}.

(** The flag [armed] tells the truth about the connection. *)
Definition truthful (g : writeGuard) : Prop :=
  (armed g = true <-> is_Some (deadline g)) /\ (armed g = true -> ok = true).

(** [held] counts the queue, a deadline is set exactly while [armed], only
    inside a write, and always while buffers are held inside one. *)
Record Inv (t : Z) (s : state) : Prop := {
  i_timeout : timeout (gd s) = t;
  i_held : held (gd s) = queue s /\ 0 <= queue s < int64_max;
  i_writing : writing (gd s) = bool_decide (is_Some (cur s));
  i_deadline : truthful (gd s);
  i_armed : armed (gd s) = true -> writing (gd s) = true /\ 0 < queue s;
  i_cut : writing (gd s) = true -> 0 < queue s -> 0 < t -> ok = true -> armed (gd s) = true;
  i_cur : cur s = Some true -> 0 < queue s;
}.

Lemma arm_spec now (g : writeGuard) :
  truthful g ->
  let g' := arm now ok g in
  timeout g' = timeout g /\ held g' = held g /\ writing g' = writing g /\ truthful g' /\
  (armed g' = true -> armed g = true \/ 0 < timeout g) /\
  (0 < timeout g -> ok = true -> armed g' = true).
Proof.
  intros Ha. unfold arm. destruct (Z.leb_spec (timeout g) 0).
  - repeat split; try apply Ha; auto; try lia.
  - destruct ok eqn:Hok; simpl; repeat split; try apply Ha; auto; eauto; done.
Qed.

Lemma guard_hold t s now :
  Inv t s -> queue s < int64_max - 2 ->
  Inv t {| gd := hold now ok (gd s); queue := queue s + 1; cur := cur s |}.
Proof.
  intros [Ht [Hh Hq] Hw Hd Ha Hc Hu] Hlt. assert (int64_max = 9223372036854775807) as Hm by done.
  unfold hold. rewrite Hh, wrap64_small by (unfold int64_min; lia).
  set (g1 := set_flags (queue s + 1) (writing (gd s)) (armed (gd s)) (gd s)).
  destruct (arm_spec now g1 Hd) as (H1 & H2 & H3 & H4 & H5 & H6). simpl in *.
  destruct (writing (gd s) && negb (armed (gd s))) eqn:Hx.
  - apply andb_true_iff in Hx as [Hwr Har%negb_true_iff].
    split; simpl; rewrite ?H1, ?H2, ?H3; try done; try lia.
    + intros _. split; [done|lia].
    + intros _ _ Hpt Hok. apply H6; [lia|done].
  - split; simpl; try done; try lia.
    + intros Har. destruct (Ha Har). split; [done|lia].
    + intros Hwr _ _ _. destruct (armed (gd s)); [done|]. by rewrite Hwr in Hx.
Qed.

Lemma guard_begin t s b now :
  Inv t s -> cur s = None -> (b = true -> 0 < queue s) ->
  Inv t {| gd := begin now ok (gd s); queue := queue s; cur := Some b |}.
Proof.
  intros [Ht [Hh Hq] Hw Hd Ha Hc Hu] Hn Hb. rewrite Hn in *. simpl in Hw. unfold begin.
  set (g1 := set_flags (held (gd s)) true (armed (gd s)) (gd s)).
  destruct (arm_spec now g1 Hd) as (H1 & H2 & H3 & H4 & H5 & H6). simpl in *.
  assert (armed (gd s) = false) as Har.
  { destruct (armed (gd s)); [|done]. destruct Ha as [? _]; [done|congruence]. }
  assert (Some b = Some true -> 0 < queue s) as Hu' by (intros [= ->]; auto).
  rewrite Hh. destruct (Z.ltb_spec 0 (queue s)) as [Hpos|Hpos].
  - split; simpl; rewrite ?H1, ?H2, ?H3; try done; try lia.
    intros _ _ Hpt Hok. apply H6; [lia|done].
  - split; simpl; rewrite ?Har; try done; try lia.
Qed.

Lemma guard_end t s b :
  Inv t s -> cur s = Some b ->
  Inv t {| gd := end_ b ok (gd s); queue := if b then queue s - 1 else queue s; cur := None |}.
Proof.
  intros [Ht [Hh Hq] Hw Hd Ha Hc Hu] Hn. rewrite Hn in *.
  assert (int64_max = 9223372036854775807) as Hm by done.
  assert ((if b then held (gd s) ⊖ 1 else held (gd s)) = (if b then queue s - 1 else queue s)) as Hq'.
  { rewrite Hh. destruct b; [|done]. specialize (Hu eq_refl).
    by rewrite wrap64_small by (unfold int64_min; lia). }
  assert (0 <= (if b then queue s - 1 else queue s) < int64_max) as Hr.
  { destruct b; [specialize (Hu eq_refl)|]; lia. }
  unfold end_. rewrite Hq'. simpl. destruct (armed (gd s)) eqn:Har.
  - destruct Hd as [_ Hok]. specialize (Hok Har). rewrite Hok.
    split; simpl; try done. split; [|done]. split; [done|by intros []].
  - split; simpl; rewrite ?Har; try done. destruct Hd as [Hd Hok]. split; simpl; [by rewrite <- Har|done].
Qed.
Lemma guard_step t s e s' : Inv t s -> exec (Machine:=guard_machine) s e = Some s' -> Inv t s'.
Proof.
  intros HI He. destruct e as [now|b now|]; cbn in He.
  - destruct (Z.ltb_spec (queue s) (int64_max - 2)); [|done]. injection He as <-. by apply guard_hold.
  - destruct (cur s) eqn:Hc; [done|]. destruct (b && (queue s <=? 0)) eqn:Hb; [done|]. injection He as <-.
    apply guard_begin; [done|done|]. intros ->. simpl in Hb. by apply Z.leb_gt in Hb.
  - destruct (cur s) as [b|] eqn:Hc; [|done]. injection He as <-. by apply guard_end.
Qed.

Lemma guard_init t : Inv t (init t).
Proof. split; simpl; try done. split; [|done]. split; [done|by intros []]. Qed.

Lemma guard_inv t es s : run (init t) es = Some s -> Inv t s.
Proof.
  apply run_invariant; [|by apply guard_init]. intros s0 e s1. apply guard_step.
Qed.

(** C30: the guard cuts off exactly the clients that pin memory: however chunk
    arrivals and chunk writes interleave, the count is that of the buffered
    chunks delivered and not yet written, a write deadline is on the
    connection only inside a write of a request that holds buffers, and
    always then when the guard is on and the connection supports it; between
    writes there is none. *)
Theorem guard_deadline t es s :
  run (init t) es = Some s ->
  held (gd s) = queue s /\
  (is_Some (deadline (gd s)) -> is_Some (cur s) /\ 0 < queue s) /\
  (is_Some (cur s) -> 0 < queue s -> 0 < t -> ok = true -> is_Some (deadline (gd s))) /\
  (cur s = None -> deadline (gd s) = None).
Proof.
  intros [Ht [Hh Hq] Hw [Hd Hok] Ha Hc Hu]%guard_inv.
  assert (writing (gd s) = true <-> is_Some (cur s)) as Hw' by (rewrite Hw; apply bool_decide_eq_true).
  split; [done|]. split; [|split].
  - intros Hx%Hd. destruct (Ha Hx). split; [by apply Hw'|done].
  - intros Hx Hp Hpt Hk. apply Hd, Hc; [by apply Hw'|done..].
  - intros Hn. apply eq_None_not_Some. intros Hx%Hd. destruct (Ha Hx) as [Hy _]. apply Hw' in Hy.
    rewrite Hn in Hy. by destruct Hy.
Qed.
End machine.

Lemma guard_deadline_witness :
  exists s, run (H:=guard_machine true) (init 45) [Begin false 100; Hold 101] = Some s /\
    deadline (gd s) = Some 146 /\ is_Some (cur s) /\ 0 < queue s.
Proof.
  eexists. split; [reflexivity|]. split; [reflexivity|].
  apply (proj1 (proj2 (guard_deadline true 45 [Begin false 100; Hold 101] _ eq_refl))). by eexists.
Defined.

(** [writeChunk] over the whole of its guard. *)
Lemma holds_spec ok arrivals g :
  truthful ok g -> 0 <= held g -> held g + Z.of_nat (length arrivals) <= int64_max ->
  let g' := fold_left (fun g t => hold t ok g) arrivals g in
  truthful ok g' /\ held g' = held g + Z.of_nat (length arrivals) /\ timeout g' = timeout g /\
  writing g' = writing g.
Proof.
  revert g. induction arrivals as [|t ts IH]; intros g Hg H0 Hm; simpl in *.
  - repeat split; try apply Hg; lia.
  - assert (truthful ok (hold t ok g) /\ held (hold t ok g) = held g + 1 /\
      timeout (hold t ok g) = timeout g /\ writing (hold t ok g) = writing g) as (H1 & H2 & H3 & H4).
    { unfold hold. rewrite wrap64_small by (unfold int64_min; lia).
      set (g1 := set_flags (held g + 1) (writing g) (armed g) g).
      destruct (arm_spec ok t g1 Hg) as (? & ? & ? & ? & _). destruct (_ && _); auto. }
    destruct (IH (hold t ok g)) as (? & ? & ? & ?); [done|lia|lia|].
    repeat split; try apply H; lia || congruence.
Qed.

(** One guarded chunk write: the response gets exactly what an unguarded
    one would give it, the error is the write's, or the flush's unless the
    connection cannot flush, and afterwards the connection has no write
    deadline and the chunk, if it was buffered, is no longer counted. *)
Theorem writeChunk_guarded now arrivals ok h reqStart reqEnd cr w g :
  truthful ok g -> (if buffered cr then 1 else 0) <= held g ->
  held g + Z.of_nat (length arrivals) <= int64_max ->
  let '(w', err, g') := writeChunk now arrivals ok h reqStart reqEnd cr w g in
  let '(w1, _, e1) := writeSlice h reqStart reqEnd cr w in
  w' = w1 /\
  err = match e1, http.Flush w1 with
        | Some e, _ => Some e
        | None, Some e => if errors.IsNotSupported e then None else Some e
        | None, None => None
        end /\
  held g' = held g + Z.of_nat (length arrivals) - (if buffered cr then 1 else 0) /\
  writing g' = false /\ armed g' = false /\ deadline g' = None.
Proof.
  intros Hg H0 Hm. unfold writeChunk, write_and_flush.
  destruct (writeSlice h reqStart reqEnd cr w) as [[w1 n] e1].
  assert (truthful ok (begin now ok g) /\ held (begin now ok g) = held g) as [Hb1 Hb2].
  { unfold begin. set (g1 := set_flags (held g) true (armed g) g).
    destruct (arm_spec ok now g1 Hg) as (? & ? & ? & ? & _). by destruct (0 <? held g1). }
  assert (0 <= held (begin now ok g)) as H0' by (rewrite Hb2; destruct (buffered cr); lia).
  destruct (holds_spec ok arrivals _ Hb1 H0') as (Ht & Hh & _ & _); [by rewrite Hb2|].
  set (g2 := fold_left _ arrivals _) in *. rewrite Hb2 in Hh.
  assert (int64_max = 9223372036854775807) as Hmax by done.
  assert ((if buffered cr then held g2 ⊖ 1 else held g2) =
    held g + Z.of_nat (length arrivals) - (if buffered cr then 1 else 0)) as Hheld.
  { rewrite Hh. destruct (buffered cr); [rewrite wrap64_small by (unfold int64_min; lia)|]; lia. }
  assert (armed g2 = false -> deadline g2 = None) as Hoff.
  { intros Ha. apply eq_None_not_Some. intros Hs%Ht. congruence. }
  destruct e1 as [e|]; [|destruct (http.Flush w1) as [e|]; [destruct (errors.IsNotSupported e)|]];
    (split; [done|]); (split; [done|]); unfold end_; simpl; rewrite Hheld;
    (destruct (armed g2) eqn:Ha; simpl; [destruct Ht as [_ Ht]; rewrite (Ht Ha)|]); auto.
Qed.

Module guard_examples.
Definition g0 : writeGuard :=
  {| timeout := 45; held := 1; writing := false; armed := false; deadline := None |}.
Definition cr : chunkResult :=
  {| data := Some (list_byte_of_string "abcd"); file := None; section := None; fileSize := 0;
     err := None; chunkStart := 0; via := viaBuffer; done := Some 0%nat |}.
Definition w : http.ResponseWriter := http.fresh None None.
Definition res := writeChunk 100 [101; 102] true chunk_examples.h0 0 3 cr w g0.
End guard_examples.

Lemma writeChunk_guarded_witness :
  http.w_body guard_examples.res.1.1 = list_byte_of_string "abcd" /\
  held guard_examples.res.2 = 2 /\ deadline guard_examples.res.2 = None.
Proof.
  pose proof (writeChunk_guarded 100 [101; 102] true chunk_examples.h0 0 3 guard_examples.cr
    guard_examples.w guard_examples.g0) as Hw.
  destruct Hw as (_ & _ & Hh & _ & _ & Hd); [|done|done|].
  - split; [|done]. split; [done|by intros []].
  - split; [reflexivity|]. split; [exact Hh|exact Hd].
Defined.

End guard.
