(* ===== verification/Evictor.v ===== *)
(** * The cache evictor (services/eviction.go)

    A sweep of one shard of the cache directory, as system calls that may
    fail or be cut short by a crash; what it may remove, and what it leaves
    of a shard that is over its cap. *)
From S2P Require Import Prelude GoStd GoTime Http Path Fs DiskCache.

Module evictor.

(** Lines 46-50. *)
Record Evictor := { cache : option DiskCache; maxBytes : Z; interval : Z }.

(** Line 52, ten minutes in nanoseconds. *)
Definition tmpMaxAge : Z := 600000000000.

(** Lines 54-67, the flags being arguments. *)
Definition NewEvictor (max interval : Z) (cache : option DiskCache) : option Evictor :=
  match cache with
  | None => None
  | Some _ =>
      if max <=? 0 then None
      else Some {| cache := cache; maxBytes := max; interval := interval |}
  end.

(** Lines 105-109. *)
Record fileEntry := { path : string; fsize : Z; mtime : Z }.

(** [d.Info()] of a directory entry. *)
Definition Info (p : string) : M (goerr + (Z * Z)) :=
  sys (fun _ f => f) (fun f =>
    match file_inode f p with
    | Some x => (f, inr (Z.of_nat (length (i_data x)), i_mtime x))
    | None => (f, inl (os.ErrNotExist p))
    end).

Definition below (root p : string) : bool := strings.HasPrefix p (root +:+ "/").
Definition files_below (f : fsys) (root : string) : list string :=
  filter (fun p => below root p = true) (elements (dom (fs_files f))).

(** Line 134. *)
Definition tmp_name (name : string) : bool :=
  (5 <? Z.of_nat (String.length name)) && String.eqb (substring 0 5 name) ".tmp_".

(** Lines 179-190: two rounds. *)
Fixpoint removeIfEmpty (i : nat) (dir : string) : M unit :=
  match i with
  | O => io_ret tt
  | S i =>
      let! r := os.ReadDir dir in
      match r with
      | inl _ => io_ret tt
      | inr (_ :: _) => io_ret tt
      | inr [] =>
          let! r := os.Remove dir in
          match r with
          | inl _ => io_ret tt
          | inr _ => removeIfEmpty i (filepath.Dir dir)
          end
      end
  end.

(** Lines 116-145: the walk function on one regular file (on a directory, or
    with an error, it does nothing). *)
Definition visit (now : Z) (p : string) (acc : list fileEntry * Z) : M (list fileEntry * Z) :=
  let! info := Info p in
  match info with
  | inl _ => io_ret acc
  | inr (sz, mt) =>
      let name := filepath.Base p in
      if String.eqb name versionMarker then io_ret acc
      else if tmp_name name then
        if tmpMaxAge <? Sub now mt then let! _ := os.Remove p in io_ret acc else io_ret acc
      else io_ret (acc.1 ++ [{| path := p; fsize := sz; mtime := mt |}], acc.2 ⊕ sz)
  end.

Fixpoint walk (now : Z) (l : list string) (acc : list fileEntry * Z) : M (list fileEntry * Z) :=
  match l with
  | [] => io_ret acc
  | p :: l => let! acc := visit now p acc in walk now l acc
  end.

(** Lines 159-171; the result is [total] and [freed]. *)
Fixpoint trim (target : Z) (entries : list fileEntry) (total freed : Z) : M (Z * Z) :=
  match entries with
  | [] => io_ret (total, freed)
  | en :: rest =>
      if total <=? target then io_ret (total, freed)
      else
        let! r := os.Remove (path en) in
        match r with
        | inl _ => trim target rest total freed
        | inr _ =>
            let! _ := removeIfEmpty 2 (filepath.Dir (path en)) in
            trim target rest (total ⊖ fsize en) (freed ⊕ fsize en)
        end
  end.

Section sweep.
(** [filepath.WalkDir] visits each file below its root once; its order, and
    how [sort.Slice] orders equal times, are immaterial. *)
Context (walk_order : fsys -> string -> list string)
  (walk_perm : forall f root, walk_order f root ≡ₚ files_below f root)
  (sort_entries : list fileEntry -> list fileEntry)
  (sort_perm : forall l, sort_entries l ≡ₚ l)
  (sort_sorted : forall l, StronglySorted (fun a b => mtime a <= mtime b) (sort_entries l)).

Definition WalkDir (now : Z) (root : string) : M (list fileEntry * Z) :=
  let! l := look (fun f => walk_order f root) in walk now l ([], 0).

(** Lines 111-175. *)
Definition sweepShard (e : Evictor) (shard : string) : M unit :=
  let! now := time.Now in
  let! (entries, total) := WalkDir now shard in
  if total <=? maxBytes e then io_ret tt
  else
    let target := maxBytes e ⊖ (maxBytes e ÷₆₄ 10) in
    let! _ := trim target (sort_entries entries) total 0 in
    io_ret tt.

Fixpoint sweep_all (e : Evictor) (roots : list string) : M unit :=
  match roots with
  | [] => io_ret tt
  | r :: roots => let! _ := sweepShard e r in sweep_all e roots
  end.

(** Lines 87-103. *)
Definition runOnce (e : Evictor) : M unit :=
  let! r := CacheRoots (cache e) in
  match r with
  | inl _ => io_ret tt
  | inr roots => sweep_all e roots
  end.

(** Lines 69-83, up to the given number of ticks; [time.NewTicker] panics
    when its interval is not positive. *)
Fixpoint sweeps (ticks : nat) (e : Evictor) : M (string + unit) :=
  match ticks with
  | O => io_ret (inr tt)
  | S ticks => let! _ := runOnce e in sweeps ticks e
  end.
Definition Serve (ticks : nat) (e : Evictor) : M (string + unit) :=
  let! _ := runOnce e in
  if interval e <=? 0 then io_ret (inl "non-positive interval for NewTicker") else sweeps ticks e.

(** ** What a sweep of a healthy disk leaves *)

(** The entry a file contributes, and whether it is a stale temporary. *)
Definition entry_of (f : fsys) (p : string) : option fileEntry :=
  x ← file_inode f p;
  if String.eqb (filepath.Base p) versionMarker || tmp_name (filepath.Base p) then None
  else Some {| path := p; fsize := Z.of_nat (length (i_data x)); mtime := i_mtime x |}.
Definition stale (now : Z) (f : fsys) (p : string) : bool :=
  match file_inode f p with
  | Some x => negb (String.eqb (filepath.Base p) versionMarker) && tmp_name (filepath.Base p) &&
              (tmpMaxAge <? Sub now (i_mtime x))
  | None => false
  end.

Fixpoint sizes (es : list fileEntry) : Z :=
  match es with [] => 0 | en :: es => fsize en + sizes es end.

Lemma sizes_app a b : sizes (a ++ b) = sizes a + sizes b.
Proof. induction a as [|x a IH]; simpl; lia. Qed.

#[global] Instance sizes_perm : Proper (Permutation ==> eq) sizes.
Proof. intros a b Hp. induction Hp; simpl; lia. Qed.

Definition sized (es : list fileEntry) : Prop := Forall (fun en => 0 <= fsize en) es.

Lemma sizes_nonneg es : sized es -> 0 <= sizes es.
Proof. induction 1; simpl; lia. Qed.

Lemma entries_sized f (l : list string) : sized (omap (entry_of f) l).
Proof.
  induction l as [|p l IH]; [constructor|]. cbn [omap list_omap].
  unfold entry_of at 1. destruct (file_inode f p) as [x|]; [|done]. simpl.
  destruct (_ || _); [done|]. constructor; [simpl; lia|done].
Qed.

Lemma entries_paths f (l : list string) en : en ∈ omap (entry_of f) l -> path en ∈ l /\ is_Some (fs_files f !! path en).
Proof.
  intros (p & Hp & He)%list_elem_of_omap. unfold entry_of, file_inode in He.
  destruct (fs_files f !! p) as [i|] eqn:Hi; [|done]. simpl in He.
  destruct (fs_inodes f !! i); [|done]. simpl in He. destruct (_ || _); [done|].
  injection He as <-. simpl. split; [done|by exists i].
Qed.

Lemma entries_NoDup f (l : list string) : NoDup l -> NoDup (path <$> omap (entry_of f) l).
Proof.
  induction 1 as [|p l Hp Hl IH]; [constructor|]. cbn [omap list_omap].
  destruct (entry_of f p) as [en|] eqn:He; [|done]. rewrite fmap_cons. constructor; [|done].
  assert (path en = p) as ->.
  { unfold entry_of in He. destruct (file_inode f p); [|done]. simpl in He. destruct (_ || _); [done|].
    by injection He as <-. }
  intros (en' & -> & Hx)%list_elem_of_fmap. by apply entries_paths in Hx as [? _].
Qed.

(** Directories and files do not share names. *)
Definition sane (f : fsys) : Prop := forall p, is_dir f p = true -> fs_files f !! p = None.

(** Only the file names differ. *)
Definition same_rest (f f' : fsys) : Prop :=
  fs_inodes f' = fs_inodes f /\ fs_handles f' = fs_handles f /\ fs_now f' = fs_now f.

#[local] Instance same_rest_preorder : PreOrder same_rest.
Proof. split; [done|]. intros f1 f2 f3 (?&?&?) (?&?&?). repeat split; congruence. Qed.

Lemma Remove_calm f p i :
  fs_files f !! p = Some i -> os.Remove p (calm f) = (calm (set_files (delete p (fs_files f)) f), Some (inr tt)).
Proof. intros Hp. unfold os.Remove. rewrite sys_calm. unfold os.Remove_act. by rewrite Hp. Qed.

Lemma visit_calm now p acc f :
  is_Some (file_inode f p) ->
  exists f', visit now p acc (calm f) =
      (calm f', Some (acc.1 ++ option_list (entry_of f p),
                      match entry_of f p with Some en => acc.2 ⊕ fsize en | None => acc.2 end)) /\
    same_rest f f' /\ fs_dirs f' = fs_dirs f /\
    fs_files f' = if stale now f p then delete p (fs_files f) else fs_files f.
Proof.
  intros [x Hx]. unfold visit, Info. rewrite alone_bind, sys_calm, Hx. cbn [fst snd]. cbv beta iota zeta.
  assert (exists i, fs_files f !! p = Some i) as [i Hi].
  { unfold file_inode in Hx. destruct (fs_files f !! p) as [i|]; [by exists i|done]. }
  unfold entry_of, stale. rewrite Hx. simpl.
  destruct (String.eqb (filepath.Base p) versionMarker); simpl.
  { exists f. by rewrite app_nil_r, <- surjective_pairing. }
  destruct (tmp_name (filepath.Base p)); simpl; [|by exists f].
  rewrite app_nil_r, <- surjective_pairing.
  destruct (tmpMaxAge <? Sub now (i_mtime x)); [|by exists f].
  rewrite alone_bind, (Remove_calm f p i Hi). simpl. by eexists.
Qed.

Lemma file_inode_delete f f' p q :
  fs_inodes f' = fs_inodes f -> fs_files f' = delete p (fs_files f) \/ fs_files f' = fs_files f ->
  q <> p -> file_inode f' q = file_inode f q.
Proof.
  intros Hi Hf Hne. unfold file_inode. rewrite Hi. destruct Hf as [-> | ->]; [|done].
  by rewrite lookup_delete_ne.
Qed.

Lemma walk_calm now (l : list string) acc f :
  NoDup l -> Forall (fun p => is_Some (file_inode f p)) l -> 0 <= acc.2 ->
  acc.2 + sizes (omap (entry_of f) l) <= int64_max ->
  exists f', walk now l acc (calm f) =
      (calm f', Some (acc.1 ++ omap (entry_of f) l, acc.2 + sizes (omap (entry_of f) l))) /\
    same_rest f f' /\ fs_dirs f' = fs_dirs f /\
    forall q, fs_files f' !! q = if decide (q ∈ l) then (if stale now f q then None else fs_files f !! q)
                                 else fs_files f !! q.
Proof.
  intros Hnd. revert acc f. induction Hnd as [|p l Hp Hnd IH]; intros acc f Hl H0 Hm.
  { exists f. cbn [walk]. rewrite app_nil_r, Z.add_0_r, <- surjective_pairing. by repeat split. }
  inversion Hl as [|? ? Hx Hl']; subst. cbn [walk].
  destruct (visit_calm now p acc f Hx) as (f1 & Hv & Hr & Hd & Hf). rewrite alone_bind, Hv.
  set (acc1 := (_, _)).
  assert (forall q, q ∈ l -> file_inode f1 q = file_inode f q) as Hsame.
  { intros q Hq. apply (file_inode_delete f f1 p); [apply Hr|destruct (stale now f p); auto|].
    by intros ->. }
  assert (omap (entry_of f1) l = omap (entry_of f) l) as He.
  { apply list_omap_ext, Forall_Forall2_diag, Forall_forall. intros q Hq. unfold entry_of. by rewrite Hsame. }
  pose proof (sizes_nonneg _ (entries_sized f l)) as Hpos.
  assert (omap (entry_of f) (p :: l) = option_list (entry_of f p) ++ omap (entry_of f) l) as Hcons.
  { cbn [omap list_omap]. by destruct (entry_of f p). }
  rewrite Hcons, sizes_app in *.
  assert (0 <= sizes (option_list (entry_of f p))) as Hp0.
  { pose proof (sizes_nonneg _ (entries_sized f [p])) as Hx1. cbn [omap list_omap] in Hx1.
    by destruct (entry_of f p). }
  assert (acc1.2 = acc.2 + sizes (option_list (entry_of f p))) as Hacc.
  { unfold acc1. simpl. destruct (entry_of f p) as [en|]; simpl in *; [|lia].
    rewrite wrap64_small; [lia|]. unfold int64_min. lia. }
  destruct (IH acc1 f1) as (f' & Hw & Hr' & Hd' & Hf'); [|lia|rewrite He; lia|].
  { eapply Forall_impl; [apply Forall_and; split; [exact Hl'|by apply Forall_forall; intros q Hq; apply (Hsame q Hq)]|].
    simpl. intros q [? ->]. done. }
  exists f'. rewrite Hw, He, Hacc. unfold acc1 at 1. simpl. rewrite app_assoc.
  split; [do 3 f_equal; lia|]. split; [by etrans|].
  split; [congruence|]. intros q. rewrite Hf'. destruct (decide (q = p)) as [->|Hne].
  - rewrite decide_False by done. rewrite decide_True by apply list_elem_of_here. rewrite Hf.
    destruct (stale now f p); [apply lookup_delete_eq|done].
  - assert (fs_files f1 !! q = fs_files f !! q) as ->.
    { rewrite Hf. destruct (stale now f p); [by rewrite lookup_delete_ne|done]. }
    destruct (decide (q ∈ l)) as [Hq|Hq].
    + rewrite decide_True by (by apply list_elem_of_further). unfold stale. by rewrite Hsame.
    + rewrite decide_False; [done|]. by rewrite not_elem_of_cons.
Qed.

Lemma sane_sub f f' :
  sane f -> fs_dirs f' ⊆ fs_dirs f ->
  (forall q, is_Some (fs_files f' !! q) -> is_Some (fs_files f !! q)) -> sane f'.
Proof.
  intros Hs Hd Hf p Hp. apply eq_None_not_Some. intros Hi%Hf. rewrite Hs in Hi; [by destruct Hi|].
  revert Hp. unfold is_dir. rewrite !orb_true_iff, !bool_decide_eq_true. set_solver.
Qed.

Lemma removeIfEmpty_calm n d f :
  sane f -> filepath.Clean d = d ->
  exists f', removeIfEmpty n d (calm f) = (calm f', Some tt) /\ same_rest f f' /\
    fs_files f' = fs_files f /\ fs_dirs f' ⊆ fs_dirs f.
Proof.
  revert d f. induction n as [|n IH]; intros d f Hs Hd; cbn [removeIfEmpty]; [by exists f|].
  rewrite alone_bind. unfold os.ReadDir. rewrite sys_calm. cbn zeta. rewrite Hd.
  destruct (is_dir f d) eqn:Hdir; simpl; [|by exists f].
  destruct (os.entries f d) as [|x l]; [|by exists f].
  rewrite alone_bind. unfold os.Remove. rewrite sys_calm. unfold os.Remove_act. rewrite (Hs d Hdir).
  case_bool_decide; [|by exists f]. destruct (os.children f d); [|by exists f]. simpl.
  set (f1 := set_dirs _ f). destruct (IH (filepath.Dir d) f1) as (f' & Hr & Hrest & Hf & Hdirs).
  - eapply sane_sub; [exact Hs| |done]. simpl. set_solver.
  - apply filepath.Clean_Dir.
  - exists f'. split; [done|]. split; [done|]. split; [done|]. etrans; [exact Hdirs|]. simpl. set_solver.
Qed.

Lemma trim_calm target es total freed f :
  sane f -> sized es -> NoDup (path <$> es) -> Forall (fun en => is_Some (fs_files f !! path en)) es ->
  total = sizes es -> total <= int64_max -> 0 <= freed -> freed + total <= int64_max ->
  exists gone kept f', es = gone ++ kept /\
    trim target es total freed (calm f) = (calm f', Some (sizes kept, freed + sizes gone)) /\
    same_rest f f' /\
    (forall q, fs_files f' !! q = if decide (q ∈ path <$> gone) then None else fs_files f !! q) /\
    (kept = [] \/ sizes kept <= target) /\
    (forall pre x, gone = pre ++ [x] -> target < sizes (x :: kept)).
Proof.
  intros Hs Hsz. revert total freed f Hs. induction Hsz as [|en es Hen Hsz IH]; intros total freed f Hs
    Hnd Hfi Ht Hm H0 Hfm; cbn [trim].
  { exists [], [], f. rewrite Z.add_0_r, Ht. split; [done|]. split; [done|]. split; [done|].
    split; [by intros q; case_decide as Hq; [by apply elem_of_nil in Hq|]|]. split; [by left|]. by intros [] ?. }
  pose proof (sizes_nonneg _ Hsz) as Hpos. simpl in Ht.
  destruct (Z.leb_spec total target) as [Hle|Hgt].
  { exists [], (en :: es), f. simpl. rewrite Z.add_0_r, Ht. split; [done|]. split; [done|]. split; [done|].
    split; [done|]. split; [right; lia|]. by intros [] ?. }
  inversion Hfi as [|? ? [i Hi] Hfi']; subst. rewrite fmap_cons in Hnd. apply NoDup_cons in Hnd as [Hne Hnd].
  rewrite alone_bind, (Remove_calm f _ i Hi).
  set (f1 := set_files _ f). assert (sane f1) as Hs1.
  { eapply sane_sub; [exact Hs|done|]. intros q [j Hj]. unfold f1 in Hj. simpl in Hj. apply lookup_delete_Some in Hj as [_ Hj]. by exists j. }
  destruct (removeIfEmpty_calm 2 (filepath.Dir (path en)) f1 Hs1) as (f2 & Hr & Hrest & Hf2 & Hd2);
    [apply filepath.Clean_Dir|].
  rewrite alone_bind, Hr.
  rewrite !wrap64_small by (unfold int64_min; lia).
  destruct (IH (fsize en + sizes es - fsize en) (freed + fsize en) f2) as
    (gone & kept & f' & -> & Htr & Hrest' & Hf' & Hk & Hmin); [| |  |lia|lia|lia|lia|].
  - eapply sane_sub; [exact Hs1|done|]. by rewrite Hf2.
  - done.
  - rewrite Hf2. eapply Forall_impl; [apply Forall_and; split; [exact Hfi'|]|].
    + apply Forall_forall. intros x Hx. exact Hx.
    + simpl. intros x [[j Hj] Hx]. rewrite lookup_delete_ne; [by exists j|].
      intros He. apply Hne. rewrite He. apply list_elem_of_fmap. by exists x.
  - exists (en :: gone), kept, f'. split; [done|]. split; [rewrite Htr; simpl; do 3 f_equal; lia|].
    split; [etrans; [exact Hrest|exact Hrest']|].
    split; [|split; [done|]].
    + intros q. rewrite Hf', Hf2. simpl. destruct (decide (q = path en)) as [->|Hq].
      * rewrite lookup_delete_eq. do 2 case_decide; try done; rewrite elem_of_cons in *; naive_solver.
      * rewrite lookup_delete_ne by done.
        do 2 case_decide; try done; rewrite elem_of_cons in *; naive_solver.
    + intros [|y pre] x; simpl; [|intros [= -> ->]; by eapply Hmin].
      intros [= -> ->]. simpl in Hgt. lia.
Qed.

(** The chunks a shard has, and the most a trimmed shard keeps. *)
Definition chunks (f : fsys) (root : string) : list fileEntry := omap (entry_of f) (files_below f root).
Definition target (cap : Z) : Z := cap - cap / 10.

Lemma target_eq cap : 0 < cap <= int64_max -> cap ⊖ (cap ÷₆₄ 10) = target cap.
Proof.
  intros Hc. unfold target. rewrite quot_div_nonneg by lia.
  assert (0 <= cap / 10 <= cap) by (split; [apply Z.div_pos; lia|apply Z.div_le_upper_bound; lia]).
  assert (int64_max = 9223372036854775807) by done.
  rewrite (wrap64_small (cap / 10)), wrap64_small by (unfold int64_min; lia). done.
Qed.

Lemma walk_order_ok f root :
  fs_wf f -> NoDup (walk_order f root) /\ Forall (fun p => is_Some (file_inode f p)) (walk_order f root).
Proof.
  intros (Hwf & _). split.
  - rewrite walk_perm. apply NoDup_filter, NoDup_elements.
  - apply Forall_forall. intros p Hp. rewrite walk_perm in Hp.
    apply list_elem_of_filter in Hp as [_ Hp]. apply elem_of_elements, elem_of_dom in Hp as [i Hi].
    unfold file_inode. rewrite Hi. by apply (Hwf p).
Qed.

(** The whole walk, when the disk is healthy. *)
Lemma WalkDir_calm root f :
  fs_wf f -> sizes (chunks f root) <= int64_max ->
  exists es f1, WalkDir (fs_now f) root (calm f) = (calm f1, Some (es, sizes (chunks f root))) /\
    es ≡ₚ chunks f root /\ same_rest f f1 /\ fs_dirs f1 = fs_dirs f /\
    forall q, fs_files f1 !! q = if below root q && stale (fs_now f) f q then None else fs_files f !! q.
Proof.
  intros Hwf Hm. destruct (walk_order_ok f root Hwf) as [Hnd Hall].
  assert (omap (entry_of f) (walk_order f root) ≡ₚ chunks f root) as Hp by (unfold chunks; by rewrite walk_perm).
  destruct (walk_calm (fs_now f) (walk_order f root) ([], 0) f Hnd Hall) as (f1 & Hw & Hr & Hd & Hf);
    [simpl; lia|simpl; rewrite Hp; lia|].
  assert (sizes (omap (entry_of f) (walk_order f root)) = sizes (chunks f root)) as Hz by (by rewrite Hp).
  eexists _, f1. unfold WalkDir. rewrite alone_bind, alone_look. cbn [w_fs calm] in *. rewrite Hw, Hz. split; [done|]. do 3 (split; [done|]).
  intros q. rewrite Hf. destruct (stale (fs_now f) f q) eqn:Hs; [|rewrite andb_false_r; by case_decide].
  rewrite andb_true_r. case_decide as Hq; rewrite walk_perm in Hq.
  - apply list_elem_of_filter in Hq as [-> _]. done.
  - destruct (below root q) eqn:Hb; [|done]. apply eq_None_not_Some. intros Hi. apply Hq.
    apply list_elem_of_filter. split; [done|]. by apply elem_of_elements, elem_of_dom.
Qed.

(** A file that counts as a chunk is not removed on the way. *)
Lemma chunk_not_stale now f p en : entry_of f p = Some en -> stale now f p = false.
Proof.
  unfold entry_of, stale. destruct (file_inode f p) as [x|]; [|done]. simpl.
  destruct (String.eqb _ _); simpl; [done|]. by destruct (tmp_name _).
Qed.

Lemma chunks_present root f f1 es :
  es ≡ₚ chunks f root ->
  (forall q, fs_files f1 !! q = if below root q && stale (fs_now f) f q then None else fs_files f !! q) ->
  NoDup (path <$> es) /\ Forall (fun en => is_Some (fs_files f1 !! path en)) es.
Proof.
  intros Hp Hf. split.
  - rewrite Hp. apply entries_NoDup, NoDup_filter, NoDup_elements.
  - apply Forall_forall. intros en Hen. rewrite Hp in Hen. unfold chunks in Hen.
    pose proof Hen as [_ Hi]%entries_paths.
    apply list_elem_of_omap in Hen as (p & _ & He). rewrite Hf.
    assert (p = path en) as ->.
    { unfold entry_of in He. destruct (file_inode f p); [|done]. simpl in He. destruct (_ || _); [done|].
      by injection He as <-. }
    by rewrite (chunk_not_stale (fs_now f) f _ en He), andb_false_r.
Qed.

(** C32: a sweep of a healthy disk enforces the shard's cap: stale temporary
    files go; a shard within its cap loses no chunk; one over it is brought
    to 90%, oldest chunks first and no more of them than needed. *)
Theorem sweep_trims e root f :
  fs_wf f -> sane f -> 0 < maxBytes e <= int64_max -> sizes (chunks f root) <= int64_max ->
  exists gone kept f', sweepShard e root (calm f) = (calm f', Some tt) /\
    gone ++ kept ≡ₚ chunks f root /\
    (forall q, fs_files f' !! q =
       if decide (q ∈ path <$> gone) then None
       else if below root q && stale (fs_now f) f q then None else fs_files f !! q) /\
    (sizes (chunks f root) <= maxBytes e -> gone = []) /\
    (maxBytes e < sizes (chunks f root) -> sizes kept <= target (maxBytes e)) /\
    (forall pre x, gone = pre ++ [x] -> target (maxBytes e) < sizes (x :: kept)) /\
    (forall x y, x ∈ gone -> y ∈ kept -> mtime x <= mtime y).
Proof.
  intros Hwf Hs Hcap Hm. unfold sweepShard. rewrite alone_bind. unfold time.Now. rewrite alone_look. cbn [w_fs calm].
  destruct (WalkDir_calm root f Hwf Hm) as (es & f1 & Hw & Hp & Hr & Hd & Hf).
  rewrite alone_bind. fold (calm f). rewrite Hw.
  destruct (chunks_present root f f1 es Hp Hf) as [Hnd Hpres].
  destruct (Z.leb_spec (sizes (chunks f root)) (maxBytes e)) as [Hle|Hgt].
  { exists [], es, f1. split; [done|]. split; [done|]. split; [done|]. split; [done|]. split; [lia|].
    split; [by intros [] ?|]. by intros x y Hx%elem_of_nil. }
  assert (sized es) as Hsz by (unfold sized; rewrite Hp; apply entries_sized).
  assert (sane f1) as Hs1.
  { eapply sane_sub; [exact Hs|by rewrite Hd|]. intros q. rewrite Hf. by destruct (_ && _). }
  destruct (trim_calm (maxBytes e ⊖ (maxBytes e ÷₆₄ 10)) (sort_entries es) (sizes (chunks f root)) 0 f1 Hs1)
    as (gone & kept & f' & Hsplit & Htr & _ & Hf' & Hk & Hmin); try lia; try (by rewrite ?sort_perm, ?Hp).
  { unfold sized. by rewrite sort_perm. }
  { by rewrite sort_perm. }
  { by rewrite sort_perm. }
  rewrite alone_bind, Htr. rewrite (target_eq _ Hcap) in *. exists gone, kept, f'. split; [done|].
  split; [by rewrite <- Hsplit, sort_perm|]. split; [intros q; by rewrite Hf', Hf|].
  split; [lia|]. split; [intros _|split; [done|]].
  - destruct Hk as [-> |?]; [|done]. simpl. unfold target.
    assert (maxBytes e / 10 <= maxBytes e) by (apply Z.div_le_upper_bound; lia). lia.
  - intros x y Hx Hy. pose proof (sort_sorted es) as Hso. rewrite Hsplit in Hso.
    exact (StronglySorted_app_1_elem_of _ gone kept x y Hso Hx Hy).
Qed.

(** ** What a sweep may remove *)

Definition evictable (root p : string) : Prop :=
  below root p = true /\ filepath.Base p <> versionMarker.

(** [swept P f0 f]: since [f0], files satisfying [P] and empty directories
    may be gone, and that is all. *)
Record swept (P : string -> Prop) (f0 f : fsys) : Prop := {
  sw_inodes : fs_inodes f = fs_inodes f0;
  sw_handles : fs_handles f = fs_handles f0;
  sw_next : fs_next f = fs_next f0;
  sw_files : forall q i, fs_files f !! q = Some i -> fs_files f0 !! q = Some i;
  sw_gone : forall q, is_Some (fs_files f0 !! q) -> fs_files f !! q = None -> P q;
  sw_dirs : fs_dirs f ⊆ fs_dirs f0;
  sw_tree : forall q, (q ∈ fs_dirs f \/ is_Some (fs_files f !! q)) -> filepath.Dir q <> q ->
    filepath.Dir q ∈ fs_dirs f0 -> filepath.Dir q ∈ fs_dirs f;
}.

Lemma swept_refl P f : swept P f f.
Proof. split; try done. intros q [i Hi]. congruence. Qed.

Lemma swept_file P f0 f p :
  swept P f0 f -> P p -> swept P f0 (set_files (delete p (fs_files f)) f).
Proof.
  intros [H1 H2 Hn0 H3 H4 H5 H6] Hp. split; simpl; try done.
  - intros q i [_ Hq]%lookup_delete_Some. auto.
  - intros q Hq. rewrite lookup_delete_None. intros [<-|Hn]; [done|auto].
  - intros q [Hq|[i [_ Hq]%lookup_delete_Some]]; apply H6; eauto.
Qed.

Lemma swept_dir P f0 f p :
  swept P f0 f -> os.children f p = [] -> swept P f0 (set_dirs (fs_dirs f ∖ {[p]}) f).
Proof.
  intros [H1 H2 Hn0 H3 H4 H5 H6] Hc. split; simpl; try done; [set_solver|].
  intros q Hq Hne Hd. apply elem_of_difference.
  assert (q ∈ fs_dirs f \/ is_Some (fs_files f !! q)) as Hq' by (destruct Hq; [left; set_solver|by right]).
  split; [by apply H6|]. intros Hp%elem_of_singleton.
  assert (q ∈ os.children f p) as Hx; [|by rewrite Hc in Hx; apply elem_of_nil in Hx].
  unfold os.children. apply list_elem_of_filter. split; [split; congruence|].
  apply elem_of_elements, elem_of_union. rewrite elem_of_dom. exact Hq'.
Qed.

Lemma swept_Remove_file P f0 f p :
  swept P f0 f -> P p -> swept P f0 (os.Remove_act p f).1.
Proof.
  intros Hs Hp. unfold os.Remove_act. destruct (fs_files f !! p); [by apply swept_file|].
  case_bool_decide; [|done]. destruct (os.children f p) eqn:Hc; [by apply swept_dir|done].
Qed.

(** No path is a directory and a file that [P] protects. *)
Definition sane_for (P : string -> Prop) (f : fsys) : Prop :=
  forall p, is_dir f p = true -> fs_files f !! p = None \/ P p.

Lemma sane_sane_for P f : sane f -> sane_for P f.
Proof. intros Hs p Hp. left. auto. Qed.

Lemma swept_Remove_dir P f0 f p :
  sane_for P f0 -> swept P f0 f -> is_dir f p = true -> os.children f p = [] ->
  swept P f0 (os.Remove_act p f).1.
Proof.
  intros Hsane Hs Hd Hc. destruct (fs_files f !! p) as [i|] eqn:Hp.
  - apply swept_Remove_file; [done|]. destruct (Hsane p) as [Hn|?]; [|by apply (sw_files _ _ _ Hs) in Hp; congruence|done].
    revert Hd. unfold is_dir. rewrite !orb_true_iff, !bool_decide_eq_true. pose proof (sw_dirs _ _ _ Hs). set_solver.
  - unfold os.Remove_act. rewrite Hp. case_bool_decide; [|done]. rewrite Hc. by apply swept_dir.
Qed.

(** An invariant of every call of [m], crashes included. *)
Definition keeps {A} (I : fsys -> Prop) (m : M A) : Prop := hoare I m (fun _ => I) I.

Lemma keeps_ret {A} I (a : A) : keeps I (io_ret a).
Proof. by apply hoare_ret. Qed.

Lemma keeps_bind {A B} I (m : M A) (k : A -> M B) :
  keeps I m -> (forall a, keeps I (k a)) -> keeps I (io_bind m k).
Proof. intros Hm Hk. by eapply hoare_bind. Qed.

Lemma removeIfEmpty_keeps P f0 n d :
  sane_for P f0 -> filepath.Clean d = d -> keeps (swept P f0) (removeIfEmpty n d).
Proof.
  intros Hsane. revert d. induction n as [|n IH]; intros d Hd; cbn [removeIfEmpty]; [apply keeps_ret|].
  eapply hoare_bind with (R := fun r f => swept P f0 f /\
    (r = inr [] -> is_dir f d = true /\ os.children f d = [])).
  { apply hoare_sys_atomic; [|done..]. intros f Hf. simpl. rewrite Hd.
    destruct (is_dir f d) eqn:Hdir; [|done]. simpl. split; [done|]. intros [= He]. split; [done|].
    unfold os.entries in He. apply fmap_nil_inv in He.
    assert (os.children f d ≡ₚ []) as Hp by (rewrite <- He; symmetry; apply merge_sort_Permutation).
    by apply Permutation_nil_r in Hp. }
  intros [e|[|x l]]; [by apply hoare_ret; intros f []| |by apply hoare_ret; intros f []].
  eapply hoare_bind with (R := fun _ => swept P f0).
  { apply hoare_sys_atomic; [|by intros f e []|by intros f []]. intros f [Hf Hc].
    destruct (Hc eq_refl). by apply swept_Remove_dir. }
  intros [e|u]; [apply keeps_ret|]. apply IH, filepath.Clean_Dir.
Qed.

Lemma trim_keeps P f0 target es total freed :
  sane_for P f0 -> Forall (fun en => P (path en)) es -> keeps (swept P f0) (trim target es total freed).
Proof.
  intros Hsane. revert total freed. induction es as [|en es IH]; intros total freed Hes;
    cbn [trim]; [apply keeps_ret|].
  inversion Hes as [|? ? Hen Hes']; subst. destruct (total <=? target); [apply keeps_ret|].
  apply keeps_bind.
  { apply hoare_sys_atomic; [|done..]. intros f Hf. by apply swept_Remove_file. }
  intros [e|u]; [by apply IH|]. apply keeps_bind; [apply removeIfEmpty_keeps; [done|apply filepath.Clean_Dir]|].
  intros _. by apply IH.
Qed.

(** What is collected, and what is removed on the way, is evictable. *)
Lemma walk_keeps P root f0 now l acc :
  (forall p, evictable root p -> P p) -> Forall (fun p => below root p = true) l ->
  Forall (fun en => evictable root (path en)) acc.1 ->
  hoare (swept P f0) (walk now l acc)
    (fun r f => swept P f0 f /\ Forall (fun en => evictable root (path en)) r.1) (swept P f0).
Proof.
  intros HP. revert acc. induction l as [|p l IH]; intros acc Hl Hacc; cbn [walk].
  { apply hoare_ret. by intros f Hf. }
  inversion Hl as [|? ? Hp Hl']; subst.
  eapply hoare_bind with (R := fun r f => swept P f0 f /\
    Forall (fun en => evictable root (path en)) r.1); [|intros a; apply hoare_pure_r; by apply IH].
  unfold visit. eapply hoare_bind with (R := fun _ => swept P f0).
  { apply hoare_sys_atomic; [|done..]. intros f Hf. by destruct (file_inode f p). }
  intros [e|[sz mt]]; [apply hoare_ret; by intros f Hf|].
  destruct (String.eqb_spec (filepath.Base p) versionMarker) as [|Hm]; [apply hoare_ret; by intros f Hf|].
  destruct (tmp_name _); [destruct (tmpMaxAge <? Sub now mt)|].
  - eapply hoare_bind with (R := fun _ => swept P f0);
      [|intros a; apply hoare_ret; by intros f Hf].
    apply hoare_sys_atomic; [|done..]. intros f Hf. apply swept_Remove_file; [done|by apply HP].
  - apply hoare_ret. by intros f Hf.
  - apply hoare_ret. intros f Hf. split; [done|]. simpl. apply Forall_app. split; [done|].
    by repeat constructor.
Qed.

Lemma sweepShard_keeps P e root f0 :
  sane_for P f0 -> (forall p, evictable root p -> P p) -> keeps (swept P f0) (sweepShard e root).
Proof.
  intros Hsane HP. unfold sweepShard.
  eapply hoare_bind with (R := fun _ => swept P f0); [by apply hoare_now|].
  intros now. eapply hoare_bind with (R := fun r f => swept P f0 f /\
    Forall (fun en => evictable root (path en)) r.1).
  { intros w Hw. unfold WalkDir. rewrite alone_bind, alone_look. apply (walk_keeps P root f0 now _ ([], 0)); [done| |done|done].
    apply Forall_forall. intros p Hp. rewrite walk_perm in Hp. by apply list_elem_of_filter in Hp as [? _]. }
  intros [es total]. apply hoare_pure_r. intros Hes. destruct (total <=? maxBytes e); [apply keeps_ret|].
  apply keeps_bind; [|intros _; apply keeps_ret]. apply trim_keeps; [done|]. rewrite sort_perm.
  eapply Forall_impl; [exact Hes|]. intros en. apply HP.
Qed.

(** ** What the evictor may remove *)

Lemma sweep_all_keeps P e roots f0 :
  sane_for P f0 -> Forall (fun root => forall p, evictable root p -> P p) roots -> keeps (swept P f0) (sweep_all e roots).
Proof.
  intros Hsane. induction 1 as [|root roots Hr Hall IH]; cbn [sweep_all]; [apply keeps_ret|].
  apply keeps_bind; [by apply sweepShard_keeps|done].
Qed.

(** The directories a cache owns: one below each shard that matches. *)
Definition own_root (c : DiskCache) (root : string) : Prop :=
  let '(dir, prefix) := filepath.SplitLast (strings.TrimSuffix (location c) "*") in
  exists name, strings.HasPrefix name prefix = true /\
    root = filepath.Join [filepath.Join [if String.eqb dir "" then "." else dir; name]; subdir c].

Lemma CacheRoots_own c (I : fsys -> Prop) :
  hoare I (CacheRoots (Some c)) (fun r f => I f /\ forall roots, r = inr roots -> Forall (own_root c) roots) I.
Proof.
  unfold CacheRoots, listShards, own_root. destruct (filepath.SplitLast _) as [dir prefix]. cbv zeta.
  eapply hoare_bind with (R := fun r f => I f /\ forall shards, r = inr shards ->
    Forall (fun s => exists name, strings.HasPrefix name prefix = true /\
      s = filepath.Join [if String.eqb dir "" then "." else dir; name]) shards).
  - eapply hoare_bind with (R := fun _ => I).
    { apply hoare_sys_atomic; [|done..]. intros f Hf. simpl. by destruct (is_dir f _). }
    intros [e|entries]; apply hoare_ret; intros f Hf; (split; [done|]).
    + destruct (errors.IsNotExist e); intros shards [= <-]. constructor.
    + intros shards [= <-]. rewrite sortStrings_Permutation. apply Forall_fmap, Forall_forall. intros x [[_ Hp] _]%list_elem_of_filter.
      by exists (fst x).
  - intros [e|shards]; apply hoare_ret; intros f [Hf Hs]; (split; [done|]); [done|]. intros roots [= <-].
    apply Forall_fmap. eapply Forall_impl; [by apply Hs|]. intros s (name & Hn & ->). by exists name.
Qed.

Definition mine (e : Evictor) (p : string) : Prop :=
  exists c root, cache e = Some c /\ own_root c root /\ evictable root p.

Lemma runOnce_keeps P e f0 :
  sane_for P f0 -> (forall p, mine e p -> P p) -> keeps (swept P f0) (runOnce e).
Proof.
  intros Hsane HP. unfold runOnce. destruct (cache e) as [c|] eqn:Hc; [|by intros w Hw].
  eapply hoare_bind; [apply CacheRoots_own|]. intros [err|roots]; [by apply hoare_ret; intros f []|].
  apply hoare_pure_r. intros Hr. apply sweep_all_keeps; [done|]. eapply Forall_impl; [by apply Hr|].
  intros root Hroot p Hp. apply HP. by exists c, root.
Qed.

Lemma Serve_keeps P ticks e f0 :
  sane_for P f0 -> (forall p, mine e p -> P p) -> keeps (swept P f0) (Serve ticks e).
Proof.
  intros Hsane HP. unfold Serve. apply keeps_bind; [by apply runOnce_keeps|]. intros _.
  destruct (interval e <=? 0); [apply keeps_ret|]. induction ticks as [|n IH]; cbn [sweeps]; [apply keeps_ret|].
  apply keeps_bind; [by apply runOnce_keeps|done].
Qed.


End sweep.
(** ** A shard of three chunks *)
Module evict_examples.
Definition by_mtime (a b : fileEntry) : Prop := mtime a <= mtime b.
#[local] Instance by_mtime_dec : RelDecision by_mtime.
Proof. intros a b. unfold by_mtime. apply _. Defined.
#[local] Instance by_mtime_total : Total by_mtime.
Proof. intros a b. unfold by_mtime. lia. Qed.
#[local] Instance by_mtime_trans : Transitive by_mtime.
Proof. intros a b c. unfold by_mtime. lia. Qed.

Definition sort (l : list fileEntry) : list fileEntry := merge_sort by_mtime l.
Lemma sort_perm l : sort l ≡ₚ l.
Proof. apply merge_sort_Permutation. Qed.
Lemma sort_sorted l : StronglySorted (fun a b => mtime a <= mtime b) (sort l).
Proof. apply (StronglySorted_merge_sort by_mtime). Qed.

Definition f0 : fsys :=
  {| fs_dirs := {["/c"; "/c/aa"]};
     fs_files := {["/c/aa/1" := 1%nat; "/c/aa/2" := 2%nat; "/c/aa/3" := 3%nat;
                   "/c/.versioned-since" := 4%nat]};
     fs_inodes := {[1%nat := Inode (list_byte_of_string "1111") 30;
                    2%nat := Inode (list_byte_of_string "2222") 10;
                    3%nat := Inode (list_byte_of_string "3333") 20;
                    4%nat := Inode [] 0]};
     fs_handles := ∅; fs_next := 5; fs_now := 100; fs_rand := [] |}.
Definition e0 : Evictor := {| cache := None; maxBytes := 10; interval := 60 |}.

Lemma f0_sane : sane f0.
Proof.
  intros p. unfold is_dir. rewrite !orb_true_iff, bool_decide_eq_true.
  intros [[Hp|Hp%String.eqb_eq]|Hp%String.eqb_eq]; [|by subst..].
  simpl in Hp. apply elem_of_union in Hp as [->%elem_of_singleton| ->%elem_of_singleton]; done.
Qed.

Lemma f0_wf : fs_wf f0.
Proof.
  split; [|split].
  - apply (bool_decide_unpack (map_Forall (fun _ i => is_Some (fs_inodes f0 !! i)) (fs_files f0))).
    vm_compute. exact I.
  - intros h i Hh. simpl in Hh. by rewrite lookup_empty in Hh.
  - apply (bool_decide_unpack (map_Forall (fun i _ => (i < fs_next f0)%nat) (fs_inodes f0))).
    vm_compute. exact I.
Qed.

(** The same as the cache's directory of a shard it shares. *)
Definition f1 : fsys :=
  {| fs_dirs := {["/d1"; "/d1/s3"; "/d1/s3/aa"]};
     fs_files := {["/d1/s3/aa/1" := 1%nat; "/d1/s3/aa/2" := 2%nat; "/d1/s3/aa/3" := 3%nat;
                   "/d1/s3/.versioned-since" := 4%nat; "/d1/torrent" := 5%nat]};
     fs_inodes := <[5%nat := Inode (list_byte_of_string "torrent") 1]> (fs_inodes f0);
     fs_handles := ∅; fs_next := 6; fs_now := 100; fs_rand := [] |}.
Definition e1 : Evictor :=
  {| cache := Some {| location := "/d*"; subdir := "s3"; since := ∅ |}; maxBytes := 10; interval := 60 |}.
Lemma f1_sane : sane f1.
Proof.
  intros p. unfold is_dir. rewrite !orb_true_iff, bool_decide_eq_true.
  intros [[Hp|Hp%String.eqb_eq]|Hp%String.eqb_eq]; [|by subst..].
  simpl in Hp. rewrite !elem_of_union, !elem_of_singleton in Hp. destruct Hp as [[-> | ->] | ->]; done.
Qed.
End evict_examples.


Lemma sweep_trims_witness :
  exists gone kept f', sweepShard files_below evict_examples.sort evict_examples.e0 "/c"
    (calm evict_examples.f0) = (calm f', Some tt) /\
    gone ++ kept ≡ₚ chunks evict_examples.f0 "/c" /\ sizes kept <= 9.
Proof.
  destruct (sweep_trims files_below (fun f root => reflexivity _) evict_examples.sort
    evict_examples.sort_perm evict_examples.sort_sorted evict_examples.e0 "/c" evict_examples.f0
    evict_examples.f0_wf evict_examples.f0_sane) as (gone & kept & f' & Hs & Hp & _ & _ & Hk & _).
  - vm_compute. split; [reflexivity|discriminate].
  - vm_compute. discriminate.
  - exists gone, kept, f'. split; [exact Hs|]. split; [exact Hp|]. apply Hk. vm_compute. reflexivity.
Defined.

End evictor.
