(* ===== verification/Store.v ===== *)
(** * The fetches over the real disk (services/fetcher.go with cache.go and eviction.go)

    The machine of Flights.v keeps the cache directory as a map and an open
    file as its bytes. Here the same fetches run over the file system of
    Fs.v, whose calls may fail: the lookup of [fetchChunk] is [DiskCache.Get],
    [lead] stores with [DiskCache.Put], a claim opens the path [Put] returned,
    a result that is closed closes its descriptor, and the evictor sweeps. The
    theorem is that every run of this machine is a run of the other one. *)
From S2P Require Import Prelude GoStd GoTime Http Path Sha1 Fs DiskCache Budget Singleflight Chunk Flights FlightsInv FlightsProps FlightsData Evictor.

Module store.
Import chunk fl flinv.

(** The events of the fetches that neither open nor store nor remove a chunk
    file. *)
Definition plain (e : event) : bool :=
  match e with
  | ELookup _ _ | EClaim _ _ | EPut _ _ | EEvict _ => false
  | _ => true
  end.

(** The fetches with [d] for the map of chunk files. *)
Definition fl_on (d : gmap chunk_file bytes) (s : state) : state := set_hp (set_disk d (hp s)) s.

(** *** Machines with the fetches in them

    What is done to the fetches and the disk here is the same whether the
    fetches run alone or inside the server: [S] is the state of a machine and
    [E] its events, some of which are events of the fetches. *)
Class Hosting (S E : Type) := {
  fetches_of : S -> state;
  with_fetches : state -> S -> S;
  fetch_event : event -> E;
  as_fetch : E -> option event;
  (** The chunk an event asks the cache for, and the answer it is about. *)
  probes : S -> E -> option (string * objVersion * Z * bool);
}.

Section hosting.
Context {S E : Type} `{Hosting S E}.

Definition on (d : gmap chunk_file bytes) (s : S) : S := with_fetches (fl_on d (fetches_of s)) s.
Definition reading (hs : gmap nat bytes) (s : S) : S :=
  with_fetches (set_hp (set_handles hs (hp (fetches_of s))) (fetches_of s)) s.

Definition plain_event (e : E) : bool :=
  match as_fetch e with Some e => plain e | None => true end.

(** [fds] is the descriptor behind each handle the fetches hold, [paths] the
    [path] field of each flight that was cached. The map of chunk files in
    [st] stays empty. *)
Record store := {
  cache : option DiskCache;
  files : fsys;
  fds : gmap nat nat;
  paths : gmap nat string;
  st : S;
}.

(** Each event has the faults its system calls meet. *)
Inductive devent :=
| DPlain (e : E) (faults : list fault)
| DLookup (i : nat) (faults : list fault)
| DClaim (i : nat) (faults : list fault)
| DPut (i : nat) (faults : list fault)
| DSweep (faults : list fault).

(** *** Closing descriptors *)

Fixpoint close_all (l : list nat) : M unit :=
  match l with
  | [] => io_ret tt
  | fd :: l => let! _ := os.Close fd in close_all l
  end.

(** The handles of [m] that the fetches in state [s] have dropped. *)
Definition dropped_fds (s : state) (m : gmap nat nat) : list nat :=
  snd <$> filter (fun p => handles (hp s) !! p.1 = None) (map_to_list m).
Definition held_fds (s : state) (m : gmap nat nat) : gmap nat nat :=
  filter (fun p => is_Some (handles (hp s) !! p.1)) m.

(** The end of a step that left the machine in [s] and the descriptors [m]. *)
Definition settle (c : option DiskCache) (w : world) (m : gmap nat nat) (ps : gmap nat string)
    (s : S) : option store :=
  match close_all (dropped_fds (fetches_of s) m) w with
  | (w, Some _) =>
      Some {| cache := c; files := w_fs w; fds := held_fds (fetches_of s) m; paths := ps; st := s |}
  | (_, None) => None
  end.

Definition start (l : list fault) (x : store) : world := {| w_fs := files x; w_faults := l |}.
Definition fetches (x : store) : state := fetches_of (st x).
(** The machine once its fetches are in [s]. *)
Definition put_back (s : state) (x : store) : S := with_fetches (fl_on ∅ s) (st x).

Section machine.
Context `{Machine S E} `{TimeLayout}.
(** The evictor's flags, and what it uses of package filepath and sort. *)
Context (maxBytes interval : Z) (walk_order : fsys -> string -> list string)
  (sort_entries : list evictor.fileEntry -> list evictor.fileEntry).

(** fetcher.go, lines 448-460. *)
Definition lookup_step (i : nat) (l : list fault) (x : store) : option store :=
  c ← callers (fetches x) !! i;
  match Get (cache x) (c_key c) (c_v c) (c_start c) (start l x) with
  | (_, None) => None
  | (w, Some (dc, inr (Some (fd, size)))) =>
      match c_pc c with
      | CLookup =>
          d ← handle_data (w_fs w) fd;
          let h := set_handles (<[file_of i := d]> (handles (hp (fetches x)))) (hp (fetches x)) in
          let cr := hitResult (file_of i) size (c_start c) in
          let s := set_caller i (at_cpc (CReturned cr) KNone true c) (set_hp h (fetches x)) in
          Some {| cache := dc; files := w_fs w; fds := <[file_of i := fd]> (fds x); paths := paths x;
                  st := put_back s x |}
      | _ => None
      end
  | (w, Some (dc, r)) =>
      s ← lookup i (match r with inl _ => LkError | inr _ => LkMiss end) (fetches x);
      Some {| cache := dc; files := w_fs w; fds := fds x; paths := paths x; st := put_back s x |}
  end.

(** chunk.go, lines 46-70, for the claim goroutine of caller [i]. *)
Definition claim_step (i : nat) (l : list fault) (x : store) : option store :=
  c ← callers (fetches x) !! i;
  n ← match c_claim c with KWait n => Some n | _ => None end;
  f ← flights (hp (fetches x)) !! n;
  match fl_err f, buf f with
  | None, None =>
      p ← paths x !! n;
      match os.Open p (start l x) with
      | (_, None) => None
      | (w, Some (inr fd)) =>
          d ← handle_data (w_fs w) fd;
          s ← claim_flight i true (fl_on {[fl_path f := d]} (fetches x));
          settle (cache x) w (<[file_of i := fd]> (fds x)) (paths x) (put_back s x)
      | (w, Some (inl _)) =>
          s ← claim_flight i false (fetches x);
          settle (cache x) w (fds x) (paths x) (put_back s x)
      end
  | _, _ =>
      s ← claim_flight i false (fetches x);
      settle (cache x) (start l x) (fds x) (paths x) (put_back s x)
  end.

(** fetcher.go, lines 554-563 and 576. *)
Definition put_step (i : nat) (l : list fault) (x : store) : option store :=
  ld ← leads (fetches x) !! i;
  match l_pc ld with
  | LPut b =>
      match Put (cache x) (l_key ld) (l_v ld) (l_start ld) b (start l x) with
      | (_, None) => None
      | (w, Some (dc, inr (Some (fd, p)))) =>
          s ← lead_put i true (fetches x);
          Some {| cache := dc; files := w_fs w; fds := <[pin_of i := fd]> (fds x);
                  paths := <[i := p]> (paths x); st := put_back s x |}
      | (w, Some (dc, _)) =>
          s ← lead_put i false (fetches x);
          Some {| cache := dc; files := w_fs w; fds := fds x; paths := paths x; st := put_back s x |}
      end
  | _ => None
  end.

(** eviction.go, one sweep of all shards. *)
Definition sweep_step (l : list fault) (x : store) : option store :=
  e ← evictor.NewEvictor maxBytes interval (cache x);
  match evictor.runOnce walk_order sort_entries e (start l x) with
  | (_, None) => None
  | (w, Some _) =>
      Some {| cache := cache x; files := w_fs w; fds := fds x; paths := paths x; st := st x |}
  end.

(** readahead.go, lines 98-102: is the chunk cached? *)
Definition probe (c : option DiskCache) (key : string) (v : objVersion) (off : Z)
    : Fs.M (option DiskCache * bool) :=
  let! r := Get c key v off in
  match snd r with
  | inr (Some (fd, _)) => let! _ := os.Close fd in io_ret (fst r, true)
  | _ => io_ret (fst r, false)
  end.

(** What the cache says before the event, if it is asked. *)
Definition probed (e : E) (l : list fault) (x : store) : option (option DiskCache * world) :=
  match probes (st x) e with
  | None => Some (cache x, start l x)
  | Some (key, v, off, hit) =>
      match probe (cache x) key v off (start l x) with
      | (w, Some (dc, got)) => if Bool.eqb got hit then Some (dc, w) else None
      | (_, None) => None
      end
  end.

(** What the handles of the machine read now: its descriptors. *)
Definition read_now (x : store) : gmap nat bytes := omap (handle_data (files x)) (fds x).

(** Any other step; it reads files through their descriptors, and the
    results it closes close theirs. *)
Definition plain_step (e : E) (l : list fault) (x : store) : option store :=
  if plain_event e then
    '(dc, w) ← probed e l x;
    s ← exec (reading (read_now x) (st x)) e;
    settle dc w (fds x) (paths x) s
  else None.

#[global] Instance store_machine : Machine store devent := fun x e =>
  match e with
  | DPlain e l => plain_step e l x
  | DLookup i l => lookup_step i l x
  | DClaim i l => claim_step i l x
  | DPut i l => put_step i l x
  | DSweep l => sweep_step l x
  end.
End machine.

(** The process at its start, the machine in its initial state [s0]: no file
    is open. *)
Definition boot (c : option DiskCache) (f : fsys) (s0 : S) : store :=
  {| cache := c; files := f; fds := ∅; paths := ∅; st := s0 |}.
End hosting.
#[global] Arguments store S : clear implicits.
#[global] Arguments devent E : clear implicits.

(** ** The disk as a map of chunk files

    A chunk may have been stored in any shard the cache ever had; a copy of it
    is known by the last two elements of its path. *)

Definition version_of (et : string) : objVersion := {| etag := et; modified := 0 |}.

Definition copy_of (x : chunk_file) (q : string) : bool :=
  match rev (filepath.Split q) with
  | n :: h :: _ => String.eqb n (sha1hex (chunk_name x.1.1 (version_of x.1.2) x.2)) && String.eqb h (sha1hex x.1.1)
  | _ => false
  end.

Lemma copy_chunk_path rt key v off : copy_of (chunk_file_of key v off) (chunk_path rt key v off) = true.
Proof.
  set (h := sha1hex key). set (n := sha1hex (chunk_name key v off)).
  assert (exists k, filepath.Split (chunk_path rt key v off) = k ++ [h; n]) as [k Hk].
  { pose proof (chunk_names_plain key v off) as Hp. fold h n in Hp. unfold chunk_path. fold h n.
    destruct (decide (rt = "")) as [->|Hr].
    - inversion Hp as [|? ? H1 H2]. change (filepath.Join _) with (filepath.Join [strings.take 2 h; h; n]).
      apply filepath.Split_Join; [apply H1|done|done].
    - destruct (filepath.Split_Join rt [strings.take 2 h; h; n]) as [k Hk]; [done..|].
      exists (k ++ [strings.take 2 h]). by rewrite Hk, <- app_assoc. }
  unfold copy_of. rewrite Hk, rev_app_distr. cbn -[sha1hex chunk_name]. fold h.
  change (chunk_name key (version_of (etag v)) off) with (chunk_name key v off). fold n.
  by rewrite !String.eqb_refl.
Qed.

Section view.
Context (K : gset chunk_file).

(** The content of the chunks of [K]: of some copy. *)
Definition copies (f : fsys) (x : chunk_file) : list bytes :=
  omap (file_data f) (filter (fun q => copy_of x q = true) (elements (dom (fs_files f)))).
Definition view (f : fsys) : gmap chunk_file bytes :=
  map_imap (fun x _ => head (copies f x)) (gset_to_gmap tt K).

(** All copies of a chunk are the same. *)
Definition agree (f : fsys) : Prop := forall x q q' d d', x ∈ K ->
  copy_of x q = true -> copy_of x q' = true -> file_data f q = Some d -> file_data f q' = Some d' -> d = d'.

(** No two chunks of [K] have digests that collide. *)
Definition apart : Prop := forall a b, a ∈ K -> b ∈ K ->
  no_collision a.1.1 (version_of a.1.2) a.2 b.1.1 (version_of b.1.2) b.2.

Lemma elem_of_copies f x d : d ∈ copies f x <-> exists q, copy_of x q = true /\ file_data f q = Some d.
Proof.
  unfold copies. rewrite list_elem_of_omap. split.
  - intros (q & [Hq _]%list_elem_of_filter & Hd). by exists q.
  - intros (q & Hq & Hd). exists q. split; [|done]. apply list_elem_of_filter. split; [done|].
    apply elem_of_elements, elem_of_dom. unfold file_data, file_inode in Hd. by destruct (fs_files f !! q).
Qed.

Lemma view_Some f x d :
  agree f -> view f !! x = Some d <-> x ∈ K /\ exists q, copy_of x q = true /\ file_data f q = Some d.
Proof.
  intros Ha. unfold view. rewrite map_lookup_imap. destruct (decide (x ∈ K)) as [Hx|Hx].
  - rewrite (proj2 (lookup_gset_to_gmap_Some tt K x tt)) by done. cbn [mbind option_bind].
    pose proof (elem_of_copies f x) as Hc. destruct (copies f x) as [|b l]; cbn [head].
    + split; [done|]. intros [_ Hd%Hc]. by apply elem_of_nil in Hd.
    + destruct (proj1 (Hc b)) as (q & Hq & Hb); [apply list_elem_of_here|]. split.
      * intros [= <-]. split; [done|]. by exists q.
      * intros [_ (q' & Hq' & Hd)]. f_equal. exact (Ha x q q' b d Hx Hq Hq' Hb Hd).
  - rewrite (proj2 (lookup_gset_to_gmap_None tt K x)) by done. split; [done|by intros [? _]].
Qed.

(** A state whose copies are those of [f]. *)
Lemma view_ext f f' :
  agree f -> (forall x q, x ∈ K -> copy_of x q = true -> file_data f' q = file_data f q) -> agree f' /\ view f' = view f.
Proof.
  intros Ha He. assert (agree f') as Ha'.
  { intros x q q' d d' Hx Hq Hq'. rewrite (He x q), (He x q') by done. by eapply Ha. }
  split; [done|]. apply map_eq. intros x. apply option_eq. intros d. rewrite !view_Some by done.
  split; intros [Hx (q & Hq & Hd)]; (split; [done|]); exists q; (split; [done|]); by rewrite (He x q) in *.
Qed.

Lemma copy_split x q : copy_of x q = true -> exists k,
  filepath.Split q = k ++ [sha1hex x.1.1; sha1hex (chunk_name x.1.1 (version_of x.1.2) x.2)].
Proof.
  unfold copy_of. destruct (rev (filepath.Split q)) as [|n [|h k]] eqn:Hr; try done.
  intros [->%String.eqb_eq ->%String.eqb_eq]%andb_true_iff. exists (rev k).
  apply (f_equal (@rev _)) in Hr. rewrite rev_involutive in Hr. rewrite Hr. simpl. by rewrite <- app_assoc.
Qed.

Lemma copy_base x q :
  copy_of x q = true -> filepath.Base q = sha1hex (chunk_name x.1.1 (version_of x.1.2) x.2).
Proof. intros [k Hk]%copy_split. apply (filepath.Base_Split q (k ++ [sha1hex x.1.1])). by rewrite Hk, <- app_assoc. Qed.

(** A copy is neither a temporary file nor a marker. *)
Lemma copy_not_tmp x q : copy_of x q = true -> is_tmp q = false.
Proof. intros Hq%copy_base. unfold is_tmp. rewrite Hq. apply hex_not_tmp, sha1hex_shape. Qed.

Lemma copy_not_marker `{TimeLayout} x q d : copy_of x q = true -> ~ marker_content q d.
Proof.
  intros Hq%copy_base (rt & t & -> & _). rewrite Base_marker in Hq.
  destruct (sha1hex_shape (chunk_name x.1.1 (version_of x.1.2) x.2)) as [_ Hl]. by rewrite <- Hq in Hl.
Qed.

Lemma copy_inj x y q : apart -> x ∈ K -> y ∈ K -> copy_of x q = true -> copy_of y q = true -> x = y.
Proof.
  intros Ha Hx Hy [k Hk]%copy_split [k' Hk']%copy_split. rewrite Hk in Hk'.
  apply app_inj_2 in Hk' as [_ Hk']; [|done]. injection Hk' as Hh Hn. destruct (Ha x y Hx Hy) as [H1 H2].
  specialize (H1 Hh). specialize (H2 Hn). rewrite H1 in H2. apply chunk_name_inj in H2 as [Ho He].
  destruct x as [[kx ex] ox], y as [[ky ey] oy]. simpl in *. congruence.
Qed.

(** Calls that publish nothing but markers do not change it. *)
Lemma view_stable `{TimeLayout} f f' : agree f -> stable marker_content f f' -> agree f' /\ view f' = view f.
Proof.
  intros Ha [_ Hs]. apply view_ext; [done|]. intros x q _ Hq.
  destruct (Hs q (copy_not_tmp _ _ Hq)) as [?|(d & Hm & _)]; [done|]. by apply copy_not_marker with (x := x) in Hm.
Qed.

(** A call that publishes the chunk [x] inserts it, if it is what the other
    copies are. *)
Definition stored_content `{TimeLayout} (x : chunk_file) (b : bytes) (q : string) (d : bytes) : Prop :=
  marker_content q d \/ copy_of x q = true /\ d = b.

Lemma view_stored `{TimeLayout} x b p f f' :
  apart -> agree f -> x ∈ K -> (forall b', view f !! x = Some b' -> b' = b) -> stable (stored_content x b) f f' ->
  copy_of x p = true -> file_data f' p = Some b -> agree f' /\ view f' = <[x := b]> (view f).
Proof.
  intros Hap Ha Hx Hb [_ Hs] Hp Hpb.
  assert (forall y q, y ∈ K -> copy_of y q = true ->
    file_data f' q = file_data f q \/ y = x /\ file_data f' q = Some b) as Hcase.
  { intros y q Hy Hq. destruct (Hs q (copy_not_tmp _ _ Hq)) as [?|(d & [Hm|[Hxq ->]] & ?)]; [by left| |].
    - by apply copy_not_marker with (x := y) in Hm.
    - right. split; [|done]. by eapply copy_inj. }
  assert (forall q d, copy_of x q = true -> file_data f' q = Some d -> d = b) as Hxb.
  { intros q d Hq Hd. destruct (Hcase x q Hx Hq) as [He|[_ He]]; [|congruence].
    apply Hb, view_Some; [done|]. split; [done|]. exists q. split; [done|congruence]. }
  assert (agree f') as Ha'.
  { intros y q q' d d' Hy Hq Hq' Hd Hd'. destruct (decide (y = x)) as [->|Hne].
    - rewrite (Hxb q d), (Hxb q' d'); done.
    - destruct (Hcase y q Hy Hq) as [He|[? _]], (Hcase y q' Hy Hq') as [He'|[? _]]; try done.
      eapply Ha; [exact Hy|exact Hq|exact Hq'|congruence..]. }
  split; [done|]. apply map_eq. intros y. apply option_eq. intros d. rewrite lookup_insert.
  destruct (decide (x = y)) as [<-|Hne].
  - rewrite view_Some by done. split; [intros [_ (q & Hq & Hd)]; f_equal; symmetry; by apply (Hxb q)|].
    intros [= <-]. split; [done|]. by exists p.
  - rewrite !view_Some by done. split; intros [Hy (q & Hq & Hd)]; (split; [done|]); exists q; (split; [done|]);
      destruct (Hcase y q Hy Hq) as [He|[? _]]; congruence.
Qed.
End view.
(** ** Descriptors *)

(** [m] names the open descriptors of the process, one for each handle of
    [hs], and each reads what [hs] says. *)
Record owns (m : gmap nat nat) (f : fsys) (hs : gmap nat bytes) : Prop := {
  o_reads : forall n d, hs !! n = Some d -> exists fd, m !! n = Some fd /\ handle_data f fd = Some d;
  o_held : forall n fd, m !! n = Some fd -> is_Some (hs !! n);
  o_inj : forall n n' fd, m !! n = Some fd -> m !! n' = Some fd -> n = n';
  o_all : forall fd, is_Some (fs_handles f !! fd) -> exists n, m !! n = Some fd;
}.

Lemma owns_fd m f hs n fd : owns m f hs -> m !! n = Some fd -> is_Some (handle_data f fd).
Proof.
  intros Ho Hn. destruct (o_held _ _ _ Ho n fd Hn) as [d Hd].
  destruct (o_reads _ _ _ Ho n d Hd) as (fd' & Hn' & Hf). simplify_eq. by exists d.
Qed.

Lemma owns_read_now m f hs : owns m f hs -> omap (handle_data f) m = hs.
Proof.
  intros Ho. apply map_eq. intros n. rewrite lookup_omap. destruct (hs !! n) as [d|] eqn:Hd.
  - by destruct (o_reads _ _ _ Ho n d Hd) as (fd & -> & ?).
  - destruct (m !! n) as [fd|] eqn:Hn; [|done]. apply (o_held _ _ _ Ho) in Hn as [d Hn]. congruence.
Qed.

(** A call that opens and closes nothing. *)
Lemma owns_keep m f f' hs : kept f f' -> fs_handles f' = fs_handles f -> owns m f hs -> owns m f' hs.
Proof.
  intros Hk He Ho. split; [|apply Ho|apply Ho|].
  - intros n d Hd. destruct (o_reads _ _ _ Ho n d Hd) as (fd & ? & ?). exists fd. split; [done|].
    eapply kept_handle; [done..|by rewrite He].
  - intros fd. rewrite He. apply Ho.
Qed.

(** A call that opens one more. *)
Lemma owns_open X m f f' hs n fd d :
  owns m f hs -> hs !! n = None -> gives f X (fs_handles f) fd d f' ->
  owns (<[n := fd]> m) f' (<[n := d]> hs).
Proof.
  intros Ho Hn ([[_ Hk] _] & Hfd & Hdel & Hd).
  assert (forall n' fd', m !! n' = Some fd' -> fd' <> fd) as Hne.
  { intros n' fd' Hm ->. destruct (owns_fd _ _ _ _ _ Ho Hm) as [d' Hd']. unfold handle_data in Hd'. by rewrite Hfd in Hd'. }
  assert (m !! n = None) as Hmn.
  { apply eq_None_not_Some. intros [fd' Hm]. apply (o_held _ _ _ Ho) in Hm as [d' Hx]. congruence. }
  split.
  - intros n' d'. rewrite lookup_insert_Some. intros [[<- <-]|[Hnn Hd']].
    + exists fd. by rewrite lookup_insert_eq.
    + destruct (o_reads _ _ _ Ho n' d' Hd') as (fd' & Hm & Hr). exists fd'. rewrite lookup_insert_ne by done.
      split; [done|]. eapply kept_handle; [done..|]. rewrite <- Hdel. rewrite lookup_delete_ne; [done|].
      by apply not_eq_sym, (Hne n').
  - intros n' fd'. rewrite !lookup_insert_Some. intros [[<- _]|[Hnn Hm]]; [rewrite lookup_insert_eq; eauto|].
    rewrite lookup_insert_ne by done. by eapply o_held.
  - intros n1 n2 fd'. rewrite !lookup_insert_Some.
    intros [[<- <-]|[? H1]] [[<- Hx]|[? H2]]; [done|by apply Hne in H2|subst; by apply Hne in H1|by eapply o_inj].
  - intros fd' Hi. destruct (decide (fd' = fd)) as [->|Hx]; [exists n; apply lookup_insert_eq|].
    destruct (o_all _ _ _ Ho fd') as [n' Hm].
    { rewrite <- Hdel. by rewrite lookup_delete_ne. }
    exists n'. rewrite lookup_insert_ne; [done|congruence].
Qed.

Lemma close_all_hoare l f0 hs :
  hoare (fun f => same_view f0 f /\ fs_handles f = hs) (close_all l)
    (fun _ f => same_view f0 f /\ forall fd, fs_handles f !! fd = if decide (fd ∈ l) then None else hs !! fd)
    (fun _ => True).
Proof.
  revert hs. induction l as [|h l IH]; intros hs; cbn [close_all].
  - apply hoare_ret. intros f [Hv ->]. split; [done|]. intros fd. by rewrite decide_False by apply not_elem_of_nil.
  - eapply hoare_bind with (R := fun _ f => same_view f0 f /\ fs_handles f = delete h hs).
    + assert (forall f, same_view f0 f /\ fs_handles f = hs ->
        same_view f0 (os.close_handle h f) /\ fs_handles (os.close_handle h f) = delete h hs) as Hc.
      { intros f [Hv <-]. split; [|done]. etrans; [exact Hv|apply same_view_close]. }
      apply hoare_sys; [exact Hc|intros f _ _; apply Hc|done].
    + intros r. eapply hoare_conseq; [apply (IH (delete h hs))|done| |done].
      intros u f [Hv Hf]. split; [done|]. intros fd. rewrite Hf. rewrite lookup_delete.
      destruct (decide (fd ∈ l)), (decide (fd ∈ h :: l)) as [Hx|Hx]; rewrite ?elem_of_cons in Hx;
        destruct (decide (h = fd)); try done; by intuition congruence.
Qed.

(** The end of a step, when the fetches have dropped some of their handles. *)
Lemma settle_spec {S E : Type} `{Hosting S E} c w m ps s x hs :
  settle c w m ps s = Some x -> owns m (w_fs w) hs ->
  (forall n d, handles (hp (fetches_of s)) !! n = Some d -> hs !! n = Some d) ->
  cache x = c /\ paths x = ps /\ st x = s /\ same_view (w_fs w) (files x) /\
  owns (fds x) (files x) (handles (hp (fetches_of s))).
Proof.
  intros He Ho Hsub. unfold settle in He. set (s1 := fetches_of s) in *.
  pose proof (close_all_hoare (dropped_fds s1 m) (w_fs w) (fs_handles (w_fs w)) w (conj (same_view_refl _) eq_refl)) as Hc.
  destruct (close_all _ w) as [w' [[]|]]; [|done]. injection He as <-. destruct Hc as [Hv Hf]. simpl.
  do 4 (split; [done|]).
  assert (forall n fd, m !! n = Some fd -> fd ∈ dropped_fds s1 m <-> handles (hp s1) !! n = None) as Hdr.
  { intros n fd Hn. unfold dropped_fds. rewrite list_elem_of_fmap. split.
    - intros ([n' fd'] & -> & [Hx Hy]%list_elem_of_filter). simpl in *. apply elem_of_map_to_list in Hy.
      by rewrite (o_inj _ _ _ Ho n n' fd').
    - intros Hx. exists (n, fd). split; [done|]. apply list_elem_of_filter. split; [done|]. by apply elem_of_map_to_list. }
  unfold held_fds. split.
  - intros n d Hd. destruct (o_reads _ _ _ Ho n d (Hsub _ _ Hd)) as (fd & Hn & Hr). exists fd.
    split; [apply map_lookup_filter_Some; simpl; eauto|]. eapply kept_handle; [apply Hv|done|].
    rewrite Hf. rewrite decide_False; [done|]. rewrite (Hdr n fd Hn). congruence.
  - intros n fd [_ Hx]%map_lookup_filter_Some. done.
  - intros n n' fd [H1 _]%map_lookup_filter_Some [H2 _]%map_lookup_filter_Some. by eapply o_inj.
  - intros fd. rewrite Hf. case_decide as Hx; [by intros [? ?]|]. intros Hi.
    destruct (o_all _ _ _ Ho fd Hi) as [n Hn]. exists n. apply map_lookup_filter_Some. split; [done|]. simpl.
    rewrite (Hdr n fd Hn) in Hx. by apply not_eq_None_Some.
Qed.
End store.
