(* ===== verification/StoreCalls.v ===== *)
(** * What the steps of the fetches and the calls of the cache do to the map

    Two sides of the refinement of StoreRef.v: which steps of the fetches look
    at the map of chunk files and what each opens and pins; and what [Get],
    [Put], [os.Open] and a sweep of the evictor do to the files, seen as the
    map. *)
From S2P Require Import Prelude GoStd GoTime Http Path Sha1 Fs DiskCache Budget Singleflight Chunk Flights FlightsInv FlightsProps FlightsData Evictor Store.

Module storecalls.
Import chunk fl flinv store.

(** ** The steps that do not look at the disk *)

Lemma on_on d d' s : fl_on d (fl_on d' s) = fl_on d s.
Proof. reflexivity. Qed.

Lemma on_disk s : fl_on (disk (hp s)) s = s.
Proof. by destruct s as [? []]. Qed.

Lemma free_on d i h : free i (set_disk d h) = set_disk d <$> free i h.
Proof.
  unfold free. simpl. destruct (flights h !! i) as [f|]; [|done]. simpl.
  destruct (pin f), (buf f); simpl; try done; destruct (budget.release _ _) as [[]|]; done.
Qed.

Lemma unref_on d i h : unref i (set_disk d h) = set_disk d <$> unref i h.
Proof.
  unfold unref. simpl. destruct (flights h !! i) as [f|]; [|done]. simpl.
  set (h1 := set_flights _ h). change (set_flights _ (set_disk d h)) with (set_disk d h1).
  destruct (_ =? 0); [apply free_on|done].
Qed.

Lemma close_on d cr h : close cr (set_disk d h) = (fun '(h, c) => (set_disk d h, c)) <$> close cr h.
Proof.
  unfold close. set (h1 := match file cr with Some f => close_handle f h | None => h end).
  replace (match file cr with Some f => close_handle f (set_disk d h) | None => set_disk d h end)
    with (set_disk d h1) by (unfold h1; by destruct (file cr)).
  destruct (done cr) as [i|]; [|done]. rewrite unref_on. by destruct (unref i h1).
Qed.

Lemma release_budget_on d n h : release_budget n (set_disk d h) = set_disk d <$> release_budget n h.
Proof. unfold release_budget. simpl. by destruct (budget.release n (bud h)) as [[]|]. Qed.

Ltac on_cases :=
  repeat (simpl; try done;
    match goal with
    | |- context [close ?cr (set_disk ?d ?h)] => rewrite (close_on d cr h); destruct (close cr h) as [[]|]
    | |- context [release_budget ?n (set_disk ?d ?h)] => rewrite (release_budget_on d n h); destruct (release_budget n h)
    | |- context [match ?x with _ => _ end] => destruct x
    | |- ?x ≫= _ = _ => destruct x
    end).

Lemma plain_on C d s e :
  plain e = true -> exec (Machine:=flights_machine C) (fl_on d s) e = fl_on d <$> exec (Machine:=flights_machine C) s e.
Proof.
  unfold exec. destruct e; simpl; try discriminate; intros _;
    unfold fetch, cancel, join, see_admitted, abandon, hand, drop_claim, close_result, lead_start, lead_acquire,
      lead_granted, lead_timeout, lead_admit, lead_alloc, lead_download, lead_release_failed, lead_release_stored,
      lead_finish, lead_publish, with_lead, goto; on_cases.
Qed.

(** What they do to the heap: no file is pinned, no handle opened. *)
Definition opens_none (h h' : heap) : Prop :=
  disk h' = disk h /\ fldata.closed_some (handles h) (handles h') /\
  forall i f', flights h' !! i = Some f' -> pin f' <> None ->
    exists f, flights h !! i = Some f /\ pin f <> None /\ fl_path f' = fl_path f.

#[global] Instance opens_none_preorder : PreOrder opens_none.
Proof.
  split; [intros h; repeat split; [by intros n d|eauto]|].
  intros h1 h2 h3 (Hd1 & Hh1 & Hf1) (Hd2 & Hh2 & Hf2). split; [congruence|]. split.
  - intros n d Hn. by apply Hh1, Hh2.
  - intros i f3 H3 Hp. destruct (Hf2 i f3 H3 Hp) as (f2 & H2 & Hp2 & ->). by apply Hf1.
Qed.

Lemma opens_none_quiet h h' : fldata.quiet h h' -> opens_none h h'.
Proof.
  intros (Hd & Hh & Hf). split; [done|]. split; [done|]. intros i f' Hi Hp.
  destruct (Hf i f' Hi) as (f & Hx & (_ & _ & Hpa & Hpi & _)). exists f. split; [done|]. split; congruence.
Qed.

Lemma opens_none_flight i f' h h' :
  disk h' = disk h -> handles h' = handles h -> flights h' = <[i := f']> (flights h) ->
  (forall f, flights h !! i = Some f -> pin f' <> None -> pin f <> None /\ fl_path f' = fl_path f) ->
  (flights h !! i = None -> pin f' = None) -> opens_none h h'.
Proof.
  intros Hd Hh Hfl Hs Hn. split; [done|]. rewrite Hh, Hfl. split; [by intros n d|].
  intros k fk. rewrite lookup_insert_Some.
  intros [[<- <-]|[_ Hk]] Hp; [|eauto]. destruct (flights h !! i) as [f|] eqn:Hf; [exists f; split; auto|].
  by destruct Hp; apply Hn.
Qed.

Lemma opens_none_same h h' :
  disk h' = disk h -> handles h' = handles h -> flights h' = flights h -> opens_none h h'.
Proof. intros Hd Hh Hf. split; [done|]. rewrite Hh, Hf. split; [by intros n d|eauto]. Qed.

Lemma plain_opens_none C s e s' :
  plain e = true -> exec (Machine:=flights_machine C) s e = Some s' -> opens_none (hp s) (hp s').
Proof.
  unfold exec. destruct e; simpl; try discriminate; intros _;
    unfold fetch, cancel, join, see_admitted, abandon, hand, drop_claim, close_result, lead_start, lead_acquire,
      lead_granted, lead_timeout, lead_admit, lead_alloc, lead_download, lead_release_failed, lead_release_stored,
      lead_finish, lead_publish, with_lead, goto, release_budget; intros He.
  all: repeat (inv_bind; match goal with
    | H : match ?x with _ => _ end = Some _ |- _ => destruct x eqn:?; try discriminate
    end); inv_bind; subst; simpl; try reflexivity; try (by apply opens_none_same).
  all: try (apply opens_none_quiet; by eapply fldata.close_quiet).
  all: try (match goal with |- context [hp (match ?b with _ => _ end)] => destruct b end; by apply opens_none_same).
  all: eapply opens_none_flight; [done|done|reflexivity|simpl in *; intros; simplify_eq; simpl; auto..].
Qed.

(** ** The steps that do *)

Lemma lookup_on d i r s : (forall b, r <> LkHit b) -> lookup i r (fl_on d s) = fl_on d <$> lookup i r s.
Proof.
  intros Hr. unfold lookup. simpl. destruct (callers s !! i) as [c|]; [|done]. simpl.
  destruct (c_pc c); [|done..]. by destruct r; try (by destruct (Hr legacy)).
Qed.

Lemma claim_on d n start o hn h :
  (forall f, o = true -> flights h !! n = Some f -> fl_err f = None -> buf f = None -> d !! fl_path f = disk h !! fl_path f) ->
  claim n start o hn (set_disk d h) = (fun '(h, cr) => (set_disk d h, cr)) <$> claim n start o hn h.
Proof.
  intros Ho. unfold claim. simpl. destruct (flights h !! n) as [f|] eqn:Hf; [|done]. simpl.
  destruct (fl_err f) eqn:Her; [rewrite unref_on; by destruct (unref n h)|].
  destruct (buf f) eqn:Hb; [done|].
  assert (open_path (fl_path f) o hn (set_disk d h) = (fun '(h, k) => (set_disk d h, k)) <$> open_path (fl_path f) o hn h) as ->.
  { unfold open_path. destruct o; [|done]. simpl. rewrite (Ho f) by done. by destruct (disk h !! fl_path f). }
  destruct (open_path _ _ _ _) as [[h1 k]|]; simpl.
  - rewrite unref_on. by destruct (unref n h1).
  - by destruct (pin f).
Qed.

Lemma claim_flight_on d i o s :
  (forall c n f, o = true -> callers s !! i = Some c -> c_claim c = KWait n -> flights (hp s) !! n = Some f ->
     d !! fl_path f = disk (hp s) !! fl_path f) ->
  (forall n sc, sf.g_calls (sfg s) !! n = Some sc -> sf.done sc = true -> sf.res sc = Some n) ->
  claim_flight i o (fl_on d s) = fl_on d <$> claim_flight i o s.
Proof.
  intros Ho Hres. unfold claim_flight. simpl. destruct (callers s !! i) as [c|] eqn:Hc; [|done]. simpl.
  destruct (c_claim c) as [|n| |] eqn:Hk; try done.
  destruct (sf.g_calls (sfg s) !! n) as [sc|] eqn:Hsc; [|done]. simpl.
  destruct (sf.done sc) eqn:Hd; [|done]. rewrite (Hres n sc Hsc Hd). simpl. rewrite claim_on.
  - by destruct (claim _ _ _ _ (hp s)) as [[]|].
  - intros f -> Hf _ _. by eapply Ho.
Qed.

(** What a claim opens and drops. *)
Lemma claim_opens n start o hn h h' cr :
  claim n start o hn h = Some (h', cr) ->
  fldata.quiet h h' \/
  exists f d, o = true /\ flights h !! n = Some f /\ disk h !! fl_path f = Some d /\
    fldata.quiet (set_handles (<[hn := d]> (handles h)) h) h'.
Proof.
  unfold claim. intros He. inv_bind. rename c into f, E into Hf.
  destruct (fl_err f); [inv_bind; left; simplify_eq; by eapply fldata.unref_quiet|].
  destruct (buf f); [simplify_eq; by left|].
  destruct (open_path _ _ _ _) as [[h1 k]|] eqn:Ho; inv_bind; simplify_eq; [|by left].
  unfold open_path in Ho. destruct o; [|done]. destruct (disk h !! fl_path f) as [d|] eqn:Hd; [|done].
  simpl in Ho. injection Ho as <- <-. right. exists f, d. do 3 (split; [done|]). by eapply fldata.unref_quiet.
Qed.

Lemma claim_flight_inv i o s s' :
  claim_flight i o s = Some s' ->
  exists c n sc m h cr, callers s !! i = Some c /\ c_claim c = KWait n /\ sf.g_calls (sfg s) !! n = Some sc /\
    sf.done sc = true /\ sf.res sc = Some m /\ claim m (c_start c) o (file_of i) (hp s) = Some (h, cr) /\ hp s' = h.
Proof.
  unfold claim_flight. intros He. inv_bind. destruct (c_claim c) as [|n| |] eqn:Hk; try done. inv_bind.
  destruct p as [h cr]. simplify_eq. by eauto 15.
Qed.

(** ** Fresh handles *)

Lemma file_fresh C U s i c :
  Inv C U s -> callers s !! i = Some c -> ~ has_file c -> handles (hp s) !! file_of i = None.
Proof.
  intros HI Hc Hn. apply eq_None_not_Some. rewrite (h_handles _ _ _ _ _ _ (i_heap _ _ _ HI)).
  intros [(j & f & He & _)|(j & He & c' & Hc' & Hf)]; [by apply eq_sym, pin_file_ne in He|].
  apply file_of_inj in He as <-. by simplify_eq.
Qed.

Lemma pin_fresh C U s i l b :
  Inv C U s -> leads s !! i = Some l -> l_pc l = LPut b -> handles (hp s) !! pin_of i = None.
Proof.
  intros HI Hl Hp. apply eq_None_not_Some. rewrite (h_handles _ _ _ _ _ _ (i_heap _ _ _ HI)).
  intros [(j & f & He & Hf & Hpin & _)|(j & He & _)]; [|by apply pin_file_ne in He].
  apply pin_of_inj in He as <-. destruct (h_lead _ _ _ _ _ _ (i_heap _ _ _ HI) i l Hl) as (_ & _ & sc & _ & _ & _ & _ & Hm).
  rewrite Hp in Hm. destruct Hm as (_ & f' & Hf' & _ & _ & Hm). rewrite Hp in Hm. simplify_eq.
  by destruct Hm as [(_ & _ & ?) _].
Qed.

(** The outcome of a finished call is the flight of its own number. *)
Lemma done_res C U s n sc :
  Inv C U s -> sf.g_calls (sfg s) !! n = Some sc -> sf.done sc = true -> sf.res sc = Some n.
Proof.
  intros HI Hc Hd. destruct (leads s !! n) as [l|] eqn:Hl.
  - destruct (h_lead _ _ _ _ _ _ (i_heap _ _ _ HI) n l Hl) as (_ & _ & sc' & Hc' & Hd' & _). congruence.
  - by destruct (h_done _ _ _ _ _ _ (i_heap _ _ _ HI) n sc Hc Hl) as (_ & ? & _).
Qed.

(** ** The disk calls, seen as steps on the map *)

Section calls.
Context `{TimeLayout} (K : gset chunk_file) (HK : apart K).

Lemma J_start_here X f : fs_wf f -> J X f (fs_handles f) f.
Proof. intros Hwf. split; [|done]. split; [done|]. intros q _. by left. Qed.

(** The files are well formed and the copies of each chunk are the same. *)
Definition sound (f : fsys) : Prop := fs_wf f /\ agree K f.

(** Nothing opened, no chunk published. *)
Definition undisturbed (f f' : fsys) : Prop :=
  sound f' /\ kept f f' /\ fs_handles f' = fs_handles f /\ view K f' = view K f.

Lemma undisturbed_refl f : sound f -> undisturbed f f.
Proof. intros Hs. by repeat (split; [done|]). Qed.

Lemma stable_sound f f' : sound f -> stable marker_content f f' -> sound f' /\ kept f f' /\ view K f' = view K f.
Proof. intros [_ Ha] Hst. destruct (view_stable K f f' Ha Hst). by destruct Hst as [[? ?] _]. Qed.

Lemma J_undisturbed f f' : sound f -> J marker_content f (fs_handles f) f' -> undisturbed f f'.
Proof. intros Hs [Hst Hh]. by destruct (stable_sound f f' Hs Hst) as (? & ? & ?). Qed.

(** The time since which the chunks of a shard bear their versions, when it is
    known: the cache has it already, or it can read it in the shard. *)
Definition shard_time (c : DiskCache) (rt : string) (t : Z) (w : world) : Prop :=
  since c !! rt = Some t \/
  since c !! rt = None /\ exists w' b,
    os.ReadFile (filepath.Join [rt; versionMarker]) w = (w', Some (inr b)) /\ parse_marker (string_of_list_byte b) = inr t.

(** The object has changed since then, so that a chunk without a version is
    none of the version [v]. *)
Definition changed_since (c : DiskCache) (key : string) (v : objVersion) (w : world) : Prop :=
  exists w' rt h t, root c key w = (w', Some (inr (rt, h))) /\ shard_time c rt t w' /\
    t <> time_zero /\ modified v <> time_zero /\ t <= modified v.

(** A lookup that has to fall back on a chunk from before versioning: the
    versioned one cannot be opened, and nothing tells that the object has
    changed since. *)
Definition falls_back (c : option DiskCache) (key : string) (v : objVersion) (off : Z) (w : world) : Prop :=
  exists c0 w1 p w2 e, c = Some c0 /\ path c0 key v off w = (w1, Some (inr p)) /\
    os.Open p w1 = (w2, Some (inl e)) /\ ~ changed_since c0 key v w2.

(** Where [Get] says so of a shard's time, it does not serve one. *)
Lemma untrusted_miss c key v w2 w' cs :
  versionedSince c key w2 = (w', Some cs) -> legacy_trusted (snd cs) v = true -> ~ changed_since c key v w2.
Proof.
  intros Hv Ht (w3 & rt & h & t & Hr & Hs & Ht0 & Hm0 & Hle).
  unfold versionedSince in Hv. rewrite alone_bind, Hr in Hv. unfold markerTime in Hv.
  assert (forall t', t' = t -> legacy_trusted (inr t') v = true -> False) as Hno.
  { intros t' -> Hx. unfold legacy_trusted, IsZero, Before in Hx.
    rewrite !orb_true_iff, !Z.eqb_eq, Z.ltb_lt in Hx. lia. }
  destruct Hs as [Hs|(Hs & w4 & b & Hrd & Hp)]; rewrite Hs in Hv.
  - injection Hv as <- <-. by eapply Hno.
  - rewrite !alone_bind in Hv. unfold readOrCreateMarker in Hv. rewrite alone_bind, Hrd, Hp in Hv.
    injection Hv as <- <-. by eapply Hno.
Qed.

(** A hit is the chunk of the version asked for, or one from before
    versioning that the lookup has had to fall back on. *)
Lemma Get_hit_cases c key v off w w' dc fd size :
  fs_wf (w_fs w) -> Get c key v off w = (w', Some (dc, inr (Some (fd, size)))) ->
  exists d rt, gives (w_fs w) marker_content (fs_handles (w_fs w)) fd d (w_fs w') /\ size = Z.of_nat (length d) /\
    (file_data (w_fs w') (chunk_path rt key v off) = Some d \/
     falls_back c key v off w /\ file_data (w_fs w') (chunk_path rt key noVersion off) = Some d).
Proof.
  intros Hwf He. destruct c as [c|]; [|done].
  pose proof (Get_hoare (w_fs w) (fs_handles (w_fs w)) c key v off w (J_start_here _ _ Hwf)) as Hall.
  rewrite He in Hall. destruct Hall as [_ (d0 & Hg0 & Hsz0 & rt0 & v0 & _ & Hv0 & Hd0)].
  unfold Get in He. rewrite alone_bind in He.
  pose proof (J_path marker_content (w_fs w) (fs_handles (w_fs w)) c key v off w (J_start_here _ _ Hwf)) as Hp.
  destruct (path c key v off w) as [w1 [[e|p]|]] eqn:Hpath; [done| |done]. destruct Hp as [HJ1 (rt & -> & _)].
  rewrite alone_bind in He. unfold open_chunk in He. rewrite alone_bind in He.
  pose proof (J_Open (w_fs w) marker_content (fs_handles (w_fs w)) (chunk_path rt key v off) w1 HJ1) as Ho.
  destruct (os.Open _ w1) as [w2 [[e|h]|]] eqn:Hopen; [| |done].
  - exists d0, rt0. split; [done|]. split; [done|].
    destruct Hv0 as [->|[_ ->]]; [by left|right].
    split; [|done]. exists c, w1, (chunk_path rt key v off), w2, e. do 3 (split; [done|]).
    destruct (errors.IsNotExist e) eqn:Hne'; simpl in He; [|by rewrite Hne' in He].
    destruct (negb (String.eqb (etag v) "")); simpl in He; [|by rewrite Hne' in He].
    rewrite alone_bind in He. destruct (versionedSince c key w2) as [w3 [cs|]] eqn:Hvs; [|done].
    destruct (legacy_trusted (snd cs) v) eqn:Ht; [by eapply untrusted_miss|].
    simpl in He. by rewrite Hne' in He.
  - destruct Ho as (d & Hg & Hd). exists d, rt.
    pose proof (Get_tail_hoare (w_fs w) (fs_handles (w_fs w)) (Some c) h (chunk_path rt key v off) d
      (fun f => file_data f (chunk_path rt key v off) = Some d)) as Htl.
    specialize (Htl (fun f f' Hf Hs => eq_trans (proj1 Hs _) Hf) w2 (conj Hg Hd)).
    change (io_ret (c, inr (inr (h, chunk_path rt key v off))) w2) with
      (w2, Some (c, @inr goerr (goerr + (nat * string)) (inr (h, chunk_path rt key v off)))) in He. cbn [fst snd] in He.
    rewrite He in Htl. destruct Htl as (_ & Hg' & Hsz & Hd'). split; [done|]. split; [done|]. by left.
Qed.

Lemma Get_view c key v off w w' dc r :
  sound (w_fs w) -> Get c key v off w = (w', Some (dc, r)) ->
  match r with
  | inr (Some (fd, size)) =>
      exists d legacy, gives (w_fs w) marker_content (fs_handles (w_fs w)) fd d (w_fs w') /\ sound (w_fs w') /\
        view K (w_fs w') = view K (w_fs w) /\ size = Z.of_nat (length d) /\
        (legacy = true -> falls_back c key v off w) /\
        let x := chunk_file_of key (if legacy : bool then noVersion else v) off in
        (x ∈ K -> view K (w_fs w) !! x = Some d)
  | _ => undisturbed (w_fs w) (w_fs w')
  end.
Proof.
  intros Hs He. destruct r as [e|[[fd size]|]].
  2: { destruct (Get_hit_cases _ _ _ _ _ _ _ _ _ (proj1 Hs) He) as (d & rt & Hg & -> & Hd).
    assert (exists legacy : bool, (legacy = true -> falls_back c key v off w) /\
      file_data (w_fs w') (chunk_path rt key (if legacy then noVersion else v) off) = Some d) as (legacy & Hl & Hd').
    { destruct Hd as [?|[? ?]]; [by exists false|by exists true]. }
    destruct (stable_sound (w_fs w) (w_fs w') Hs) as (Hs' & _ & Hvw); [apply Hg|].
    exists d, legacy. do 5 (split; [done|]). intros x Hx. rewrite <- Hvw. apply view_Some; [apply Hs'|]. split; [done|].
    eexists. split; [apply copy_chunk_path|exact Hd']. }
  all: destruct c as [c|]; [|injection He as <- <-; by apply undisturbed_refl].
  all: pose proof (Get_hoare (w_fs w) (fs_handles (w_fs w)) c key v off w (J_start_here _ _ (proj1 Hs))) as Hp.
  all: rewrite He in Hp; destruct Hp as [_ Hp]; by apply J_undisturbed.
Qed.

(** A probe leaves everything as it was. *)
Lemma probe_view c key v off w w' dc hit :
  sound (w_fs w) -> probe c key v off w = (w', Some (dc, hit)) -> undisturbed (w_fs w) (w_fs w').
Proof.
  intros Hs He. unfold probe in He. rewrite alone_bind in He. destruct (Get c key v off w) as [w1 [[dc1 r]|]] eqn:Hg; [|done].
  apply Get_view in Hg as Hr; [|done]. simpl in He.
  destruct r as [e|[[fd size]|]]; [by injection He as <- <- <-| |by injection He as <- <- <-].
  destruct Hr as (d & legacy & (Hst & _ & Hdel & _) & _).
  assert (undisturbed (w_fs w) (os.close_handle fd (w_fs w1))) as Hu.
  { apply J_undisturbed; [done|]. split; [|exact Hdel]. eapply stable_view; [exact Hst|apply same_view_close]. }
  rewrite alone_bind in He. unfold os.Close in He. rewrite alone_sys in He. unfold sys_call in He. destruct (w_faults w1) as [|[|e n|n] l]; simpl in He; try done; by injection He as <- <- <-.
Qed.

(** A store that agrees with the copies there are. *)
Lemma Put_view c key v off data w w' dc r :
  sound (w_fs w) -> Put c key v off data w = (w', Some (dc, r)) ->
  let x := chunk_file_of key v off in
  x ∈ K -> (forall b, view K (w_fs w) !! x = Some b -> b = data) ->
  match r with
  | inr (Some (fd, p)) =>
      gives (w_fs w) (stored_content x data) (fs_handles (w_fs w)) fd data (w_fs w') /\ sound (w_fs w') /\
      copy_of x p = true /\ view K (w_fs w') = <[x := data]> (view K (w_fs w))
  | _ => undisturbed (w_fs w) (w_fs w')
  end.
Proof.
  intros Hs He x Hx Hsame. destruct c as [c|]; [|injection He as <- <- <-; by apply undisturbed_refl].
  pose proof (Put_hoare (w_fs w) marker_content (stored_content x data) (fs_handles (w_fs w)) c key v off data) as Hp.
  specialize (Hp (fun rt t => ex_intro _ rt (ex_intro _ t (conj eq_refl eq_refl)))).
  specialize (Hp (fun q b Hm => or_introl Hm)).
  specialize (Hp (fun rt _ => or_intror (conj (copy_chunk_path rt key v off) eq_refl))).
  specialize (Hp w (J_start_here _ _ (proj1 Hs))). rewrite He in Hp. destruct Hp as [_ Hp].
  simpl in Hp. destruct r as [e|[[fd p]|]]; try by apply J_undisturbed.
  destruct Hp as (Hg & Hd & rt & -> & _). pose proof (copy_chunk_path rt key v off) as Hc.
  destruct (view_stored K x data _ (w_fs w) (w_fs w') HK (proj2 Hs) Hx Hsame (proj1 Hg) Hc Hd) as [Ha Hv].
  split; [done|]. split; [split; [apply Hg|done]|]. by split.
Qed.
End calls.

(** Opening a copy of a chunk. *)
Lemma Open_view K x p w w' r :
  sound K (w_fs w) -> x ∈ K -> copy_of x p = true -> os.Open p w = (w', Some r) ->
  sound K (w_fs w') /\ view K (w_fs w') = view K (w_fs w) /\
  match r with
  | inr fd => exists X d, gives (w_fs w) X (fs_handles (w_fs w)) fd d (w_fs w') /\ view K (w_fs w) !! x = Some d
  | inl _ => kept (w_fs w) (w_fs w') /\ fs_handles (w_fs w') = fs_handles (w_fs w)
  end.
Proof.
  intros [Hwf Ha] Hx Hc He. set (X := fun (_ : string) (_ : bytes) => False).
  pose proof (J_Open (w_fs w) X (fs_handles (w_fs w)) p w (J_start_here _ _ Hwf)) as Hp. rewrite He in Hp.
  assert (forall f, stable X (w_fs w) f -> sound K f /\ view K f = view K (w_fs w)) as Hs.
  { intros f [[Hw _] Hst]. destruct (view_ext K (w_fs w) f Ha) as [? ?]; [|done]. intros y q _ Hq.
    by destruct (Hst q (copy_not_tmp _ _ Hq)) as [?|(d & [] & _)]. }
  destruct r as [e|fd].
  - destruct Hp as [Hst Hh]. destruct (Hs _ Hst). by pose proof Hst as [[_ ?] _].
  - destruct Hp as (d & Hg & Hd). pose proof Hg as [Hst _]. destruct (Hs _ Hst) as [Hsd Hv].
    split; [done|]. split; [done|]. exists X, d. split; [done|]. rewrite <- Hv. apply view_Some; [apply Hsd|].
    split; [done|]. by exists p.
Qed.

Lemma sweep_view K wo (Hwo : forall f root, wo f root ≡ₚ evictor.files_below f root) so
    (Hso : forall l, so l ≡ₚ l)
    (Hsorted : forall l, StronglySorted (fun a b => evictor.mtime a <= evictor.mtime b) (so l)) e w w' r :
  sound K (w_fs w) -> evictor.runOnce wo so e w = (w', Some r) ->
  sound K (w_fs w') /\ kept (w_fs w) (w_fs w') /\ fs_handles (w_fs w') = fs_handles (w_fs w) /\
  forall x d, view K (w_fs w') !! x = Some d -> view K (w_fs w) !! x = Some d.
Proof.
  intros [Hwf Ha] He.
  pose proof (evictor.runOnce_keeps wo Hwo so Hso Hsorted (fun _ => True) e (w_fs w)) as Hk.
  specialize (Hk (fun p _ => or_intror I) (fun p _ => I) w (evictor.swept_refl _ _)). rewrite He in Hk.
  destruct Hk as [H1 H2 H3 H4 _ _ _].
  assert (forall q d, file_data (w_fs w') q = Some d -> file_data (w_fs w) q = Some d) as Hsub.
  { intros q d. unfold file_data, file_inode. rewrite H1.
    destruct (fs_files (w_fs w') !! q) as [i|] eqn:Hi; [|done]. by rewrite (H4 _ _ Hi). }
  assert (agree K (w_fs w')) as Ha'.
  { intros x q q' d d' Hx Hq Hq' Hd%Hsub Hd'%Hsub. exact (Ha x q q' d d' Hx Hq Hq' Hd Hd'). }
  split; [split; [|done]|split; [by apply kept_inodes|split; [done|]]].
  - destruct Hwf as (W1 & W2 & W3). split; [|split]; rewrite ?H1, ?H2, ?H3; [|done..]. intros p i Hp. eauto.
  - intros x d. rewrite !view_Some by done. intros [Hx (q & Hq & Hd%Hsub)]. split; [done|]. by exists q.
Qed.

(** A sweep, as evictions. *)
Lemma evict_run C ps s :
  @run _ _ (flights_machine C) s (EEvict <$> ps) =
    Some (fl_on (foldl (fun d p => delete p d) (disk (hp s)) ps) s).
Proof.
  revert s. induction ps as [|p ps IH]; intros s; simpl; [by rewrite on_disk|].
  etrans; [apply IH|]. reflexivity.
Qed.

Lemma foldl_delete (ps : list chunk_file) (d : gmap chunk_file bytes) x :
  foldl (fun d p => delete p d) d ps !! x = if decide (x ∈ ps) then None else d !! x.
Proof.
  revert d. induction ps as [|p ps IH]; intros d; cbn [foldl].
  { case_decide as Hx; [by apply elem_of_nil in Hx|done]. }
  rewrite IH, lookup_delete. destruct (decide (x ∈ ps)), (decide (x ∈ p :: ps)) as [Hx|Hx], (decide (p = x));
    rewrite ?elem_of_cons in Hx; try done; by intuition congruence.
Qed.

(** A map that has lost some entries, by evictions. *)
Lemma evictions (d d' : gmap chunk_file bytes) :
  (forall x b, d' !! x = Some b -> d !! x = Some b) ->
  exists ps, foldl (fun d p => delete p d) d ps = d'.
Proof.
  intros Hsub. exists (elements (dom d ∖ dom d')). apply map_eq. intros x. rewrite foldl_delete.
  destruct (d' !! x) as [b|] eqn:Hb.
  - rewrite decide_False; [by apply Hsub|]. rewrite elem_of_elements, elem_of_difference, !elem_of_dom.
    intros [_ Hn]. by destruct Hn; exists b.
  - destruct (d !! x) as [b|] eqn:Hd; [|by case_decide]. rewrite decide_True; [done|].
    rewrite elem_of_elements, elem_of_difference, !elem_of_dom. split; [by exists b|]. rewrite Hb. by intros [? ?].
Qed.
End storecalls.
