(* ===== verification/StoreRef.v ===== *)
(** * A machine over the real disk refines the same machine over a map

    Whatever contains the fetches (the fetches alone, or the whole server):
    every run over the file system is a run over the map of chunk files, so
    what is proved of the latter holds of the former, and its steps are not
    blocked by the disk. *)
From S2P Require Import Prelude GoStd GoTime Http Path Sha1 Fs DiskCache Budget Singleflight Chunk Flights FlightsInv FlightsProps FlightsLive FlightsData Evictor Store StoreCalls.

Module storeref.
Import chunk fl flinv store storecalls.

(** ** Machines with the fetches in them *)

(** An event of the fetches in such a machine is that event, and its other
    events do not look at the map of chunk files, open nothing and pin no
    file. *)
Class Hosts (C : Z) {S E : Type} (hosting : Hosting S E) (machine : Machine S E) : Prop := {
  host_get_put f s : fetches_of (with_fetches f s) = f;
  host_put_get s : with_fetches (fetches_of s) s = s;
  host_put_put f g s : with_fetches f (with_fetches g s) = with_fetches f s;
  host_as_fetch e e0 : as_fetch e = Some e0 -> plain e0 = false -> e = fetch_event e0;
  host_fetch s e : plain e = false ->
    exec s (fetch_event e) = (fun f => with_fetches f s) <$> exec (Machine:=flights_machine C) (fetches_of s) e;
  host_probes d s e : probes (on d s) e = probes s e;
  host_on d s e : plain_event e = true -> exec (on d s) e = on d <$> exec s e;
  host_opens s e s' : plain_event e = true -> exec s e = Some s' ->
    opens_none (hp (fetches_of s)) (hp (fetches_of s'));
  host_next s e s' : exec s e = Some s' -> (next (fetches_of s) <= next (fetches_of s'))%nat;
}.

(** The fetches alone are one. *)
#[global] Instance flights_hosting : Hosting state event :=
  {| fetches_of s := s; with_fetches f _ := f; fetch_event e := e; as_fetch e := Some e; probes _ _ := None |}.

Lemma flights_hosts C : Hosts C flights_hosting (flights_machine C).
Proof.
  split; try done.
  - by intros e e0 [= ->].
  - intros s e _. simpl. by destruct (exec s e).
  - intros d s e. apply (plain_on C d s e).
  - intros s e s'. apply (plain_opens_none C s e s').
  - intros s e s'. apply (next_mono C s e s').
Qed.

(** ** The refinement *)

Section refinement.
Context (C U : Z) {S E : Type} {hosting : Hosting S E} {machine : Machine S E} {hosts : Hosts C hosting machine}.
Context `{TimeLayout} (maxBytes interval : Z).
Context (walk_order : fsys -> string -> list string)
  (walk_perm : forall f root, walk_order f root ≡ₚ evictor.files_below f root)
  (sort_entries : list evictor.fileEntry -> list evictor.fileEntry)
  (sort_perm : forall l, sort_entries l ≡ₚ l)
  (sort_sorted : forall l, StronglySorted (fun a b => evictor.mtime a <= evictor.mtime b) (sort_entries l)).
Context (K : gset chunk_file) (HK : apart K).

#[local] Instance F : Machine state event := flights_machine C.
#[local] Instance D : Machine (store S) (devent E) := store_machine maxBytes interval walk_order sort_entries.

(** The disk of [x] is what the fetches in state [s] have on it. *)
Record backs (x : store S) (s : state) : Prop := {
  r_disk : disk (hp s) = view K (files x);
  r_sound : sound K (files x);
  r_fds : owns (fds x) (files x) (handles (hp s));
  r_paths : forall i f, flights (hp s) !! i = Some f -> pin f <> None ->
    fl_path f ∈ K /\ exists p, paths x !! i = Some p /\ copy_of (fl_path f) p = true;
}.

(** The store [x] is the machine in state [s] over the disk. *)
Definition represents (x : store S) (s : S) : Prop := st x = on ∅ s /\ backs x (fetches_of s).

(** The chunks an event looks up or stores are among those of [K]. *)
Definition touches (x : store S) (e : devent E) : Prop :=
  match e with
  | DLookup i _ => forall c, callers (fetches x) !! i = Some c ->
      chunk_file_of (c_key c) (c_v c) (c_start c) ∈ K /\ chunk_file_of (c_key c) noVersion (c_start c) ∈ K
  | DPut i _ => forall l, leads (fetches x) !! i = Some l -> chunk_file_of (l_key l) (l_v l) (l_start l) ∈ K
  | _ => True
  end.

(** The events of the fetches that an event of the disk is. *)
Inductive fetch_impl : devent E -> list event -> Prop :=
| impl_lookup i l r : fetch_impl (DLookup i l) [ELookup i r]
| impl_claim i l o : fetch_impl (DClaim i l) [EClaim i o]
| impl_put i l b : fetch_impl (DPut i l) [EPut i b]
| impl_sweep l ps : fetch_impl (DSweep l) (EEvict <$> ps).
Inductive impl : devent E -> list E -> Prop :=
| impl_plain e l : impl (DPlain e l) [e]
| impl_fetch e es : fetch_impl e es -> impl e (fetch_event <$> es).

(** A chunk from before versioning is served only where the lookup has had to
    fall back on one. *)
Definition fell_back (x : store S) (e : devent E) (es : list event) : Prop :=
  forall i l c, e = DLookup i l -> es = [ELookup i (LkHit true)] -> callers (fetches x) !! i = Some c ->
    falls_back (cache x) (c_key c) (c_v c) (c_start c) (start l x).
Inductive impl_at (x : store S) : devent E -> list E -> Prop :=
| at_plain e l : impl_at x (DPlain e l) [e]
| at_fetch e es : fetch_impl e es -> fell_back x e es -> impl_at x e (fetch_event <$> es).

Lemma impl_at_impl x e es : impl_at x e es -> impl e es.
Proof. by destruct 1; constructor. Qed.

(** One step of the disk is some steps of the fetches. *)
Definition fetch_simulated (e : devent E) (x x' : store S) (s : state) : Prop :=
  exists es s', fetch_impl e es /\ fell_back x e es /\ run s es = Some s' /\ st x' = put_back s' x /\ backs x' s'.

Lemma run_one (s : state) e s' : exec s e = Some s' -> run s [e] = Some s'.
Proof. simpl. by intros ->. Qed.

Lemma paths_sub x s s' :
  backs x s -> opens_none (hp s) (hp s') ->
  forall i f, flights (hp s') !! i = Some f -> pin f <> None ->
    fl_path f ∈ K /\ exists p, paths x !! i = Some p /\ copy_of (fl_path f) p = true.
Proof.
  intros HR (_ & _ & Hf) i f Hi Hp. destruct (Hf i f Hi Hp) as (f0 & H0 & Hp0 & ->). by eapply r_paths.
Qed.

(** The end of a step of the heap [h], which may have opened a file. *)
Lemma settle_backs x s s' h m dc w t x' :
  backs x s -> disk h = disk (hp s) -> flights h = flights (hp s) -> owns m (w_fs w) (handles h) ->
  opens_none h (hp s') -> fetches_of t = fl_on ∅ s' -> settle dc w m (paths x) t = Some x' ->
  sound K (w_fs w) -> view K (w_fs w) = view K (files x) -> st x' = t /\ backs x' s'.
Proof.
  intros HR Hdh Hfh Hown (Hd & Hsub & Hf) Ht He [Hwf Ha] Hv.
  apply (settle_spec _ _ _ _ _ _ (handles h)) in He as (Hc & Hp & Hst & Hsame & Ho); [|done|by rewrite Ht].
  split; [done|]. rewrite Ht in Ho.
  destruct (view_ext K (w_fs w) (files x') Ha) as [Ha' Hv']; [intros y q _ _; apply Hsame|]. split; [| |done|].
  - by rewrite Hd, Hdh, (r_disk _ _ HR), <- Hv, Hv'.
  - split; [by apply Hsame|done].
  - rewrite Hp. intros k fk Hfk Hpk. destruct (Hf k fk Hfk Hpk) as (f0 & H0 & ? & ->). rewrite Hfh in H0. by eapply r_paths.
Qed.

Lemma fetches_put_back s x : fetches_of (put_back s x) = fl_on ∅ s.
Proof. apply host_get_put. Qed.

Lemma sweep_sim l x x' s :
  fetches x = fl_on ∅ s -> backs x s -> sweep_step maxBytes interval walk_order sort_entries l x = Some x' ->
  fetch_simulated (DSweep l) x x' s.
Proof.
  intros Hx HR He. unfold sweep_step in He. destruct (evictor.NewEvictor _ _ _) as [ev|]; [|done]. simpl in He.
  destruct (evictor.runOnce _ _ _ _) as [w [r|]] eqn:Hw; [|done]. injection He as <-.
  apply (sweep_view K _ walk_perm _ sort_perm sort_sorted) in Hw as (Hsd & Hk & Hh & Hv); [|by eapply r_sound].
  simpl in *. destruct (evictions (disk (hp s)) (view K (w_fs w))) as [ps Hps].
  { rewrite (r_disk _ _ HR). done. }
  exists (EEvict <$> ps), (fl_on (view K (w_fs w)) s). split; [constructor|]. split; [by intros ? ? ?|].
  split; [etrans; [apply (evict_run C)|by rewrite Hps]|]. split.
  - unfold put_back. rewrite on_on, <- Hx. symmetry. apply host_put_get.
  - split; simpl; [done|done|by eapply owns_keep, r_fds|by eapply r_paths].
Qed.

(** A miss, or a lookup that failed. *)
Lemma lookup_missed i l dc w r x x' s :
  fetches x = fl_on ∅ s -> backs x s -> (forall b, r <> LkHit b) ->
  undisturbed K (files x) (w_fs w) ->
  lookup i r (fetches x) ≫= (fun s' =>
    Some {| cache := dc; files := w_fs w; fds := fds x; paths := paths x; st := put_back s' x |}) = Some x' ->
  fetch_simulated (DLookup i l) x x' s.
Proof.
  intros Hx HR Hr (Hsd & Hk & Hh & Hv) He. rewrite Hx, lookup_on in He by done.
  destruct (lookup i r s) as [s'|] eqn:Hs; [|done]. injection He as <-.
  exists [ELookup i r], s'. split; [constructor|]. split; [intros ? ? ? _ [= _ ->]; by destruct (Hr true)|].
  split; [by apply run_one|]. split; [done|].
  unfold lookup in Hs. inv_bind. destruct (c_pc c); try done.
  destruct r; [| |by destruct (Hr legacy)]; injection Hs as <-; split; simpl; try done;
    first [by rewrite Hv; eapply r_disk|by eapply owns_keep, r_fds|by eapply r_paths].
Qed.

Lemma lookup_sim i l x x' s :
  fetches x = fl_on ∅ s -> backs x s -> Inv C U s -> touches x (DLookup i l) -> lookup_step i l x = Some x' ->
  fetch_simulated (DLookup i l) x x' s.
Proof.
  intros Hx HR HI HT He. unfold lookup_step in He. simpl in HT.
  assert (callers (fetches x) = callers s /\ handles (hp (fetches x)) = handles (hp s)) as [Hcs Hhs] by (by rewrite Hx).
  rewrite Hcs in He, HT. destruct (callers s !! i) as [c|] eqn:Hc; [|done]. simpl in He.
  destruct (HT c eq_refl) as [HKv HK0]. clear HT.
  destruct (Get _ _ _ _ _) as [w [[dc r]|]] eqn:Hg; [|done].
  apply (Get_view K) in Hg as Hr; [|by eapply r_sound]. simpl in Hr.
  destruct r as [e|[[fd size]|]].
  1,3: eapply lookup_missed; [exact Hx|exact HR| | |exact He]; done.
  destruct Hr as (d & legacy & Hgv & Hsd & Hvw & -> & Hfb & Hd). destruct (c_pc c) eqn:Hpc; try done.
  pose proof Hgv as (_ & _ & _ & Hfd). rewrite Hfd in He. simpl in He. injection He as <-.
  set (y := chunk_file_of _ _ _) in Hd. assert (y ∈ K) as Hy by (by destruct legacy).
  set (cr := hitResult (file_of i) (Z.of_nat (length d)) (c_start c)).
  set (s' := set_caller i (at_cpc (CReturned cr) KNone true c)
    (set_hp (set_handles (<[file_of i := d]> (handles (hp s))) (hp s)) s)).
  assert (handles (hp s) !! file_of i = None) as Hfresh.
  { eapply file_fresh; [done..|]. unfold has_file.
    rewrite (not_joined s i c (i_callers _ _ _ HI i c Hc) (or_introl Hpc)), Hpc. by intros [[]|[]]. }
  exists [ELookup i (LkHit legacy)], s'. split; [constructor|].
  split; [intros ? ? c0 [= <- <-] [= ->] Hc0; rewrite Hcs in Hc0; simplify_eq; by apply Hfb|]. split; [|split].
  - apply run_one. change (lookup i (LkHit legacy) s = Some s'). unfold lookup. rewrite Hc. simpl.
    rewrite Hpc, (r_disk _ _ HR). fold y. by rewrite (Hd Hy).
  - simpl. unfold put_back. by rewrite Hx.
  - split; simpl; [by rewrite Hvw; eapply r_disk|done| |by eapply r_paths].
    eapply owns_open; [by eapply r_fds|done|done].
Qed.

(** A store seen by the lead that made it: what changes besides the map. *)
Lemma lead_put_stored i ld b f s :
  leads s !! i = Some ld -> l_pc ld = LPut b -> flights (hp s) !! i = Some f ->
  let p := chunk_file_of (l_key ld) (l_v ld) (l_start ld) in
  exists s', lead_put i true s = Some s' /\ disk (hp s') = <[p := b]> (disk (hp s)) /\
    handles (hp s') = <[pin_of i := b]> (handles (hp s)) /\
    flights (hp s') = <[i := with_pin p (pin_of i) f]> (flights (hp s)) /\
    forall d, exists s1, lead_put i true (fl_on d s) = Some s1 /\ fl_on ∅ s1 = fl_on ∅ s'.
Proof.
  intros Hl Hp Hf p. unfold lead_put, with_lead. simpl. rewrite Hl. simpl. rewrite Hp, Hf. simpl.
  eexists. split; [done|]. do 3 (split; [done|]). intros d. by eexists.
Qed.

Lemma lead_put_kept d i ld b s :
  leads s !! i = Some ld -> l_pc ld = LPut b -> pin <$> flights (hp s) !! i = Some None ->
  exists s', lead_put i false s = Some s' /\ lead_put i false (fl_on d s) = Some (fl_on d s') /\
    opens_none (hp s) (hp s') /\ handles (hp s') = handles (hp s).
Proof.
  intros Hl Hp Hf. unfold lead_put, with_lead. simpl. rewrite Hl. simpl. rewrite Hp.
  destruct (flights (hp s) !! i) as [f|] eqn:Hfl; [|done]. injection Hf as Hf. simpl.
  eexists. split; [done|]. split; [done|]. split; [|done].
  eapply opens_none_flight; [done|done|reflexivity| |done]. intros f' Hf'. simplify_eq. simpl. by rewrite Hf.
Qed.

Lemma put_flight s i ld b :
  Inv C U s -> leads s !! i = Some ld -> l_pc ld = LPut b ->
  exists f, flights (hp s) !! i = Some f /\ pin f = None.
Proof.
  intros HI Hl Hp. destruct (h_lead _ _ _ _ _ _ (i_heap _ _ _ HI) i ld Hl) as (_ & _ & sc & _ & _ & _ & _ & Hm).
  rewrite Hp in Hm. destruct Hm as (_ & f & Hf & _ & _ & Hm). rewrite Hp in Hm. exists f. split; [done|]. apply Hm.
Qed.

(** What is about to be stored agrees with what is there. *)
Definition puts_agree (s : state) : Prop := forall i ld b b',
  leads s !! i = Some ld -> l_pc ld = LPut b ->
  disk (hp s) !! chunk_file_of (l_key ld) (l_v ld) (l_start ld) = Some b' -> b' = b.

Lemma put_sim i l x x' s :
  fetches x = fl_on ∅ s -> backs x s -> Inv C U s -> puts_agree s -> touches x (DPut i l) -> put_step i l x = Some x' ->
  fetch_simulated (DPut i l) x x' s.
Proof.
  intros Hx HR HI HA HT He. unfold put_step in He. simpl in HT.
  assert (leads (fetches x) = leads s) as Hls by (by rewrite Hx).
  rewrite Hls in He, HT. destruct (leads s !! i) as [ld|] eqn:Hl; [|done]. simpl in He.
  specialize (HT ld eq_refl). destruct (l_pc ld) as [| | | | | | |b| | |] eqn:Hpc; try done.
  destruct (put_flight s i ld b HI Hl Hpc) as (f & Hf & Hpin).
  destruct (Put _ _ _ _ _ _) as [w [[dc r]|]] eqn:Hp; [|done].
  apply (Put_view K HK) in Hp as Hr; [|by eapply r_sound|done|].
  2: { intros b' Hb'. apply (HA i ld b b' Hl Hpc). by rewrite (r_disk _ _ HR). }
  simpl in Hr. assert (undisturbed K (files x) (w_fs w) ->
    lead_put i false (fetches x) ≫= (fun s' =>
      Some {| cache := dc; files := w_fs w; fds := fds x; paths := paths x; st := put_back s' x |}) = Some x' ->
    fetch_simulated (DPut i l) x x' s) as Hfail.
  { intros (Hsd & Hk & Hh & Hv) He'. destruct (lead_put_kept ∅ i ld b s Hl Hpc) as (s' & Hs & Hon & Hn & Hhs).
    { by rewrite Hf, <- Hpin. }
    rewrite Hx, Hon in He'. injection He' as <-.
    exists [EPut i false], s'. split; [constructor|]. split; [by intros ? ? ?|]. split; [by apply run_one|]. split; [done|]. pose proof Hn as [Hd _].
    split; simpl; [by rewrite Hd, Hv; eapply r_disk|done| |by eapply paths_sub].
    rewrite Hhs. by eapply owns_keep, r_fds. }
  destruct r as [e|[[fd p]|]]; [by apply Hfail| |by apply Hfail]. clear Hfail.
  destruct Hr as (Hg & Hsd & Hcp & Hv).
  destruct (lead_put_stored i ld b f s Hl Hpc Hf) as (s' & Hs & Hd & Hhs & Hfs & Hon).
  destruct (Hon ∅) as (s1 & Hs1 & Hst). rewrite Hx, Hs1 in He. injection He as <-.
  exists [EPut i true], s'. split; [constructor|]. split; [by intros ? ? ?|]. split; [by apply run_one|].
  split; [simpl; unfold put_back; by rewrite Hst|].
  split; simpl; [by rewrite Hd, Hv, (r_disk _ _ HR)|done| |].
  - rewrite Hhs. eapply owns_open; [by eapply r_fds|by eapply pin_fresh|done].
  - intros k fk. rewrite Hfs, lookup_insert_Some. intros [[<- <-]|[Hne Hk]] Hpk.
    + split; [done|]. exists p. by rewrite lookup_insert_eq.
    + rewrite lookup_insert_ne by done. by eapply r_paths.
Qed.

(** A caller about to claim holds no file. *)
Lemma claimer_fresh s i c n :
  Inv C U s -> callers s !! i = Some c -> c_claim c = KWait n -> handles (hp s) !! file_of i = None.
Proof.
  intros HI Hc Hk. eapply file_fresh; [done..|]. destruct (i_callers _ _ _ HI i c Hc) as (Hcl & _).
  unfold has_file. rewrite Hk in *. destruct Hcl as (_ & [Hw|[_ Hl]]); intros [[]|Hf];
    destruct (c_pc c); try done. destruct Hl as [e ->]. by destruct Hf.
Qed.

Lemma claim_handles i o s s' :
  Inv C U s -> claim_flight i o s = Some s' ->
  opens_none (hp s) (hp s') \/
  exists c n f d, callers s !! i = Some c /\ c_claim c = KWait n /\ flights (hp s) !! n = Some f /\
    disk (hp s) !! fl_path f = Some d /\ o = true /\
    opens_none (set_handles (<[file_of i := d]> (handles (hp s))) (hp s)) (hp s').
Proof.
  intros HI He. apply claim_flight_inv in He as (c & n & sc & m & h & cr & Hc & Hk & Hsc & Hd & Hr & Hcl & ->).
  pose proof (done_res _ _ _ _ _ HI Hsc Hd). simplify_eq.
  apply claim_opens in Hcl as [Hq|(f & d & -> & Hf & Hdk & Hq)]; [left; by apply opens_none_quiet|right].
  exists c, m, f, d. do 5 (split; [done|]). by apply opens_none_quiet.
Qed.

(** A flight that can be claimed is filled in. *)
Lemma claimed_pin s i o d s1 c n f :
  Inv C U s -> claim_flight i o (fl_on d s) = Some s1 -> callers s !! i = Some c -> c_claim c = KWait n ->
  flights (hp s) !! n = Some f -> fl_err f = None -> buf f = None -> pin f <> None.
Proof.
  intros HI He Hc Hk Hf Her Hb. apply claim_flight_inv in He as (c' & n' & sc & m & h & cr & Hc' & Hk' & Hsc & Hd & _).
  simpl in Hc', Hsc. assert (c' = c) as -> by congruence. assert (n' = n) as -> by congruence.
  destruct (leads s !! n) as [l|] eqn:Hl.
  - destruct (h_lead _ _ _ _ _ _ (i_heap _ _ _ HI) n l Hl) as (_ & _ & sc' & Hsc' & Hd' & _). congruence.
  - destruct (h_done _ _ _ _ _ _ (i_heap _ _ _ HI) n sc Hsc Hl) as (_ & _ & _ & f' & Hf' & Hfill & _).
    simplify_eq. unfold filled in Hfill. rewrite Her, Hb in Hfill. by destruct (pin f).
Qed.

Lemma claim_target s i (o : bool) c n sc :
  Inv C U s -> small s -> callers s !! i = Some c -> c_claim c = KWait n ->
  sf.g_calls (sfg s) !! n = Some sc -> sf.done sc = true ->
  exists f, flights (hp s) !! n = Some f /\ (fl_err f = None -> buf f = None -> pin f <> None).
Proof.
  intros HI Hsm Hc Hk Hsc Hd. destruct (claim_ok _ _ i o s c n sc HI Hsm Hc Hk Hsc Hd) as (s1 & Hs1 & _).
  pose proof (claim_flight_inv _ _ _ _ Hs1) as (c' & n' & sc' & m & h & cr & Hc' & Hk' & Hsc' & _ & Hr & Hm & _).
  assert (c' = c) as -> by congruence. assert (n' = n) as -> by congruence. assert (sc' = sc) as -> by congruence.
  rewrite (done_res _ _ _ _ _ HI Hsc Hd) in Hr. injection Hr as <-.
  unfold claim in Hm. destruct (flights (hp s) !! n) as [f|] eqn:Hf; [|done]. exists f. split; [done|]. intros Her Hb.
  eapply (claimed_pin s i o (disk (hp s))); [done|by rewrite on_disk|done..].
Qed.

(** A claim that opened nothing. *)
Lemma claim_closed i l x x' s w c :
  fetches x = fl_on ∅ s -> backs x s -> Inv C U s -> callers s !! i = Some c ->
  claim_flight i false (fetches x) ≫= (fun s' => settle (cache x) w (fds x) (paths x) (put_back s' x)) = Some x' ->
  sound K (w_fs w) -> kept (files x) (w_fs w) -> fs_handles (w_fs w) = fs_handles (files x) ->
  view K (w_fs w) = view K (files x) -> fetch_simulated (DClaim i l) x x' s.
Proof.
  intros Hx HR HI Hc He Hsd Hk Hh Hv. rewrite Hx, claim_flight_on in He; [|done|by intros; eapply done_res].
  destruct (claim_flight i false s) as [s'|] eqn:Hs; [|done]. simpl in He.
  exists [EClaim i false], s'. split; [constructor|]. split; [by intros ? ? ?|]. split; [by apply run_one|].
  eapply settle_backs; [done|done|done| | |apply fetches_put_back|exact He|done..]; [by eapply owns_keep, r_fds|].
  by destruct (claim_handles i false s s' HI Hs) as [?|(? & ? & ? & ? & _ & _ & _ & _ & ? & _)].
Qed.

Lemma claim_sim i l x x' s :
  fetches x = fl_on ∅ s -> backs x s -> Inv C U s -> claim_step i l x = Some x' ->
  fetch_simulated (DClaim i l) x x' s.
Proof.
  intros Hx HR HI He. unfold claim_step in He.
  assert (callers (fetches x) = callers s /\ flights (hp (fetches x)) = flights (hp s)) as [Hcs Hfs] by (by rewrite Hx).
  rewrite Hcs, Hfs in He. destruct (callers s !! i) as [c|] eqn:Hc; [|done]. simpl in He.
  destruct (c_claim c) as [|n| |] eqn:Hk; try done. simpl in He.
  destruct (flights (hp s) !! n) as [f|] eqn:Hf; [|done]. simpl in He.
  pose proof (r_sound _ _ HR) as Hsd.
  assert (claim_flight i false (fetches x) ≫= (fun s' => settle (cache x) (start l x) (fds x) (paths x) (put_back s' x)) = Some x' ->
    fetch_simulated (DClaim i l) x x' s) as Hno by (intros He'; by eapply claim_closed).
  destruct (fl_err f) eqn:Her; [by apply Hno|]. destruct (buf f) eqn:Hb; [by apply Hno|]. clear Hno.
  destruct (paths x !! n) as [p|] eqn:Hpx; [|done]. simpl in He.
  assert (forall o d s1, claim_flight i o (fl_on d s) = Some s1 -> fl_path f ∈ K /\ copy_of (fl_path f) p = true) as Hpath.
  { intros o d s1 Hs1. pose proof (claimed_pin s i o d s1 c n f HI Hs1 Hc Hk Hf Her Hb) as Hpin.
    destruct (r_paths _ _ HR n f Hf Hpin) as (? & p' & Hp' & ?). split; [done|congruence]. }
  destruct (os.Open p (start l x)) as [w [[e|fd]|]] eqn:Ho; [| |done].
  - destruct (claim_flight i false (fetches x)) as [s1|] eqn:Hs1; [|done].
    destruct (Hpath false ∅ s1) as [HKf Hcp]; [by rewrite <- Hx|].
    apply (Open_view K (fl_path f)) in Ho as (Hw & Hv & Hkept & Hh); [|done..].
    eapply claim_closed; [done|done|done|exact Hc|by rewrite Hs1|done..].
  - destruct (handle_data (w_fs w) fd) as [d|] eqn:Hfd; [|done]. simpl in He.
    rewrite Hx, on_on in He.
    destruct (claim_flight i true _) as [s1|] eqn:Hs1; [|done]. simpl in He.
    destruct (Hpath _ _ _ Hs1) as [HKf Hcp].
    apply (Open_view K (fl_path f)) in Ho as (Hw & Hv & X & d' & Hg & Hd'); [|done..].
    pose proof Hg as (_ & _ & _ & Hfd'). assert (d' = d) as -> by congruence.
    simpl in Hd'. rewrite <- (r_disk _ _ HR) in Hd'.
    rewrite claim_flight_on in Hs1; [| |by intros; eapply done_res].
    2:{ intros c0 n0 f0 _ Hc0 Hk0 Hf0. simplify_eq. rewrite Hk in Hk0. injection Hk0 as <-. simplify_eq.
        by rewrite lookup_singleton_eq. }
    destruct (claim_flight i true s) as [s'|] eqn:Hs'; [|done]. injection Hs1 as <-.
    exists [EClaim i true], s'. split; [constructor|]. split; [by intros ? ? ?|]. split; [by apply run_one|].
    pose proof (owns_open X _ _ _ _ _ _ d (r_fds _ _ HR) (claimer_fresh _ _ _ _ HI Hc Hk) Hg) as Hown.
    assert (opens_none (set_handles (<[file_of i := d]> (handles (hp s))) (hp s)) (hp s')) as Hn.
    { destruct (claim_handles i true s s' HI Hs') as [Hn|(c0 & n0 & f0 & d0 & Hc0 & Hk0 & Hf0 & Hd0 & _ & Hn)].
      - destruct Hn as (Hdk & Hsub & Hff). split; [done|]. split; [|done]. intros k b Hkb%Hsub. simpl.
        rewrite lookup_insert_ne; [done|]. intros <-. by rewrite (claimer_fresh _ _ _ _ HI Hc Hk) in Hkb.
      - simplify_eq. rewrite Hk in Hk0. injection Hk0 as <-. by simplify_eq. }
    apply (settle_backs x s s' (set_handles (<[file_of i := d]> (handles (hp s))) (hp s)) _ _ w _ x' HR eq_refl eq_refl Hown Hn
      (fetches_put_back _ _) He); done.
Qed.

(** *** Any step *)

(** What is read through the descriptors is what the handles hold. *)
Lemma reading_now x s : st x = on ∅ s -> backs x (fetches_of s) -> reading (read_now x) (st x) = on ∅ s.
Proof.
  intros Hx HR. unfold read_now. rewrite (owns_read_now _ _ _ (r_fds _ _ HR)), Hx. unfold reading, on.
  rewrite host_get_put, host_put_put. reflexivity.
Qed.

Lemma probed_spec e l x s dc w :
  backs x s -> probed e l x = Some (dc, w) -> undisturbed K (files x) (w_fs w).
Proof.
  intros HR Hp. unfold probed in Hp. destruct (probes (st x) e) as [[[[key v] off] hit]|].
  - destruct (probe _ _ _ _ _) as [w1 [[dc1 got]|]] eqn:Hpr; [|done]. destruct (Bool.eqb got hit); [|done].
    injection Hp as <- <-. apply (probe_view K) in Hpr; [done|by eapply r_sound].
  - injection Hp as <- <-. by apply undisturbed_refl, (r_sound _ _ HR).
Qed.

Lemma plain_sim e l x x' s :
  represents x s -> plain_step e l x = Some x' -> exists s', exec s e = Some s' /\ represents x' s'.
Proof.
  intros [Hx HR] He. unfold plain_step in He. destruct (plain_event e) eqn:Hpl; [|done].
  destruct (probed e l x) as [[dc w]|] eqn:Hpr; [|done]. simpl in He.
  destruct (probed_spec _ _ _ _ _ _ HR Hpr) as (Hsd & Hk & Hh & Hv).
  rewrite (reading_now x s Hx HR), (host_on (C:=C)) in He by done. destruct (exec s e) as [s'|] eqn:Hs; [|done]. simpl in He.
  exists s'. split; [done|].
  eapply settle_backs; [done|done|done| |by eapply host_opens|apply host_get_put|exact He|done..].
  by eapply owns_keep, r_fds.
Qed.

(** Steps of the fetches, inside the machine. *)
Lemma run_hosted es : forall s f,
  Forall (fun e => plain e = false) es -> run (fetches_of s) es = Some f ->
  run s (fetch_event <$> es) = Some (with_fetches f s).
Proof.
  induction es as [|e es IH]; intros s f Hes Hr; simpl in *.
  { injection Hr as <-. by rewrite host_put_get. }
  inversion Hes as [|? ? He Hes']; subst. rewrite (host_fetch (C:=C)) by done.
  change (flights_machine C) with F. destruct (exec (fetches_of s) e) as [f1|]; [|done]. simpl in *.
  rewrite (IH (with_fetches f1 s) f Hes'); [by rewrite host_put_put|by rewrite host_get_put].
Qed.

Lemma fetch_impl_plain e es : fetch_impl e es -> Forall (fun e => plain e = false) es.
Proof. destruct 1; [by repeat constructor..|]. apply Forall_fmap, Forall_true. done. Qed.

(** One step over the disk is some steps of the machine. *)
Lemma step_sim x e x' s :
  represents x s -> Inv C U (fetches_of s) -> puts_agree (fetches_of s) -> touches x e -> exec x e = Some x' ->
  exists es s', impl_at x e es /\ run s es = Some s' /\ represents x' s'.
Proof.
  intros HR HI HA HT He. pose proof HR as [Hx HB].
  assert (fetches x = fl_on ∅ (fetches_of s)) as Hf by (unfold fetches; rewrite Hx; apply host_get_put).
  assert (fetch_simulated e x x' (fetches_of s) -> exists es s', impl_at x e es /\ run s es = Some s' /\ represents x' s') as Hsim.
  { intros (es & f & Himpl & Hfb & Hr & Hst & HB'). exists (fetch_event <$> es), (with_fetches f s). split; [by constructor|].
    split; [apply run_hosted; [by eapply fetch_impl_plain|done]|].
    split; [|by rewrite host_get_put]. rewrite Hst. unfold put_back. rewrite Hx. unfold on.
    by rewrite !host_put_put, host_get_put. }
  destruct e as [e l|i l|i l|i l|l].
  - destruct (plain_sim e l x x' s HR He) as (s' & Hs & HR'). exists [e], s'. split; [constructor|].
    split; [by simpl; rewrite Hs|done].
  - apply Hsim. by apply lookup_sim.
  - apply Hsim. by apply claim_sim.
  - apply Hsim. by apply put_sim.
  - apply Hsim. by apply sweep_sim.
Qed.

(** ** Progress *)

Lemma alive_close_all l : alive (close_all l).
Proof. induction l as [|h l IH]; cbn [close_all]; unfold os.Close; alive. Qed.

Lemma settle_alive dc w m ps (s : S) : Forall survives (w_faults w) -> is_Some (settle dc w m ps s).
Proof.
  intros Hw. unfold settle. destruct (alive_returns _ w (alive_close_all (dropped_fds (fetches_of s) m)) Hw) as (w' & [] & -> & _). done.
Qed.

(** Each step the fetches may take can be taken on disk. *)
Lemma lookup_enabled i l x s c :
  fetches x = fl_on ∅ s -> backs x s -> Forall survives l -> callers s !! i = Some c -> c_pc c = CLookup ->
  is_Some (lookup_step i l x).
Proof.
  intros Hx HR Hl Hc Hpc. unfold lookup_step.
  assert (callers (fetches x) = callers s) as -> by (by rewrite Hx). rewrite Hc. simpl.
  destruct (alive_returns _ (start l x) (alive_Get (cache x) (c_key c) (c_v c) (c_start c)) Hl) as (w & [dc r] & Hg & _).
  rewrite Hg. apply (Get_view K) in Hg as Hr; [|by eapply r_sound].
  assert (forall r', (forall b, r' <> LkHit b) -> is_Some (lookup i r' (fetches x))) as Hm.
  { intros r' Hr'. rewrite Hx, lookup_on by done. unfold lookup. rewrite Hc. simpl. rewrite Hpc.
    destruct r'; [done|done|by destruct (Hr' legacy)]. }
  destruct r as [e|[[fd size]|]].
  - by destruct (Hm LkError) as [s1 ->].
  - rewrite Hpc. destruct Hr as (d & _ & (_ & _ & _ & ->) & _). done.
  - by destruct (Hm LkMiss) as [s1 ->].
Qed.

Lemma put_enabled i l x s ld b :
  fetches x = fl_on ∅ s -> Inv C U s -> Forall survives l -> leads s !! i = Some ld -> l_pc ld = LPut b ->
  is_Some (put_step i l x).
Proof.
  intros Hx HI Hl Hld Hp. unfold put_step.
  assert (leads (fetches x) = leads s) as -> by (by rewrite Hx). rewrite Hld. simpl. rewrite Hp.
  destruct (alive_returns _ (start l x) (alive_Put (cache x) (l_key ld) (l_v ld) (l_start ld) b) Hl) as (w & [dc r] & -> & _).
  destruct (put_flight s i ld b HI Hld Hp) as (f & Hf & Hpin).
  destruct (lead_put_stored i ld b f s Hld Hp Hf) as (s' & _ & _ & _ & _ & Hon).
  destruct (Hon ∅) as (s1 & Hs1 & _).
  destruct (lead_put_kept ∅ i ld b s Hld Hp) as (s2 & _ & Hs2 & _); [by rewrite Hf, <- Hpin|].
  rewrite Hx, Hs1, Hs2. by destruct r as [e|[[fd p]|]].
Qed.

Lemma claim_enabled i l x s c n sc :
  fetches x = fl_on ∅ s -> backs x s -> Inv C U s -> small s -> Forall survives l ->
  callers s !! i = Some c -> c_claim c = KWait n -> sf.g_calls (sfg s) !! n = Some sc -> sf.done sc = true ->
  is_Some (claim_step i l x).
Proof.
  intros Hx HR HI Hsm Hl Hc Hk Hsc Hd. unfold claim_step.
  assert (callers (fetches x) = callers s /\ flights (hp (fetches x)) = flights (hp s)) as [-> ->] by (by rewrite Hx).
  rewrite Hc. simpl. rewrite Hk. simpl.
  assert (forall o, exists s', claim_flight i o s = Some s') as Hcl.
  { intros o. destruct (claim_ok _ _ i o s c n sc HI Hsm Hc Hk Hsc Hd) as (s' & ? & _). by exists s'. }
  assert (forall w, Forall survives (w_faults w) ->
    is_Some (claim_flight i false (fetches x) ≫= (fun s' => settle (cache x) w (fds x) (paths x) (put_back s' x)))) as Hno.
  { intros w Hw. rewrite Hx, claim_flight_on; [|done|by intros; eapply done_res].
    destruct (Hcl false) as [s1 ->]. by apply settle_alive. }
  destruct (claim_target s i false c n sc HI Hsm Hc Hk Hsc Hd) as (f & Hf & Hpin). rewrite Hf. simpl.
  destruct (fl_err f) eqn:Her; [by apply Hno|]. destruct (buf f) eqn:Hb; [by apply Hno|].
  destruct (r_paths _ _ HR n f Hf (Hpin eq_refl eq_refl)) as (HKf & p & -> & Hcp). simpl.
  destruct (alive_returns _ (start l x) (alive_sys (fun _ f => f) (os.Open_act p)) Hl) as (w & r & Ho & Hw).
  change (sys _ _ _) with (os.Open p (start l x)) in Ho. rewrite Ho.
  destruct r as [e|fd]; [by apply Hno|].
  apply (Open_view K (fl_path f)) in Ho as (_ & Hv & X & d & Hg & Hd'); [|by eapply r_sound|done..].
  destruct Hg as (_ & _ & _ & ->). simpl. rewrite Hx, on_on, claim_flight_on; [| |by intros; eapply done_res].
  - destruct (Hcl true) as [s2 ->]. by apply settle_alive.
  - intros c0 n0 f0 _ Hc0 Hk0 Hf0. simplify_eq. rewrite Hk in Hk0. injection Hk0 as <-. simplify_eq.
    rewrite lookup_singleton_eq, (r_disk _ _ HR). done.
Qed.

(** The event of the disk that an event of the machine is. *)
Definition disk_event (e : E) (l : list fault) : devent E :=
  match as_fetch e with
  | Some (ELookup i _) => DLookup i l
  | Some (EClaim i _) => DClaim i l
  | Some (EPut i _) => DPut i l
  | Some (EEvict _) => DSweep l
  | _ => DPlain e l
  end.

(** It can happen when the other can, however its calls fail: an eviction
    alone depends on there being an evictor. *)
Lemma enabled x s e l :
  represents x s -> Inv C U (fetches_of s) -> small (fetches_of s) -> (forall p, as_fetch e <> Some (EEvict p)) ->
  probes s e = None -> is_Some (exec s e) -> Forall survives l -> is_Some (exec x (disk_event e l)).
Proof.
  intros [Hst HR] HI Hsm Hne Hpr [s' He] Hl.
  assert (fetches x = fl_on ∅ (fetches_of s)) as Hx by (unfold fetches; rewrite Hst; apply host_get_put).
  assert (plain_event e = true -> is_Some (exec x (DPlain e l))) as Hpl.
  { intros Hpl. change (is_Some (plain_step e l x)). unfold plain_step. rewrite Hpl, (reading_now x s) by done.
    unfold probed. rewrite Hst, (host_probes (C:=C)), Hpr. cbn [mbind option_bind].
    rewrite (host_on (C:=C)), He by done. by apply settle_alive. }
  assert (forall e0, as_fetch e = Some e0 -> plain e0 = false -> is_Some (exec (fetches_of s) e0)) as Hf.
  { intros e0 Ha Hp. pose proof (host_as_fetch e e0 Ha Hp) as Hee. rewrite Hee, (host_fetch (C:=C)) in He by done.
    apply fmap_Some in He as (f & Hf & _). by exists f. }
  unfold disk_event, plain_event in *. destruct (as_fetch e) as [e0|] eqn:Ha; [|by apply Hpl].
  specialize (Hf e0 eq_refl). destruct e0; try (by apply Hpl); destruct (Hf eq_refl) as [f Hf'].
  - change (lookup i r (fetches_of s) = Some f) in Hf'. unfold lookup in Hf'.
    destruct (callers (fetches_of s) !! i) as [c|] eqn:Hc; [|done].
    simpl in Hf'. destruct (c_pc c) eqn:Hp; try done. by eapply (lookup_enabled i l x _ c).
  - change (claim_flight i openable (fetches_of s) = Some f) in Hf'.
    apply claim_flight_inv in Hf' as (c & n & sc & m & h & cr & Hc & Hk & Hsc & Hd & _).
    by eapply (claim_enabled i l x _ c n sc).
  - change (lead_put i stored (fetches_of s) = Some f) in Hf'. unfold lead_put, with_lead in Hf'.
    destruct (leads (fetches_of s) !! i) as [ld|] eqn:Hld; [|done]. simpl in Hf'. destruct (l_pc ld) eqn:Hp; try done.
    by eapply (put_enabled i l x _ ld b).
  - by destruct (Hne p).
Qed.

Lemma alive_probe c key v off : alive (probe c key v off).
Proof. unfold probe, os.Close. alive. apply alive_Get. Qed.

(** So can one that asks the cache, with the answer the cache gives. *)
Lemma probe_enabled x s key v off l :
  represents x s -> Forall survives l ->
  exists hit, forall e, plain_event e = true -> probes s e = Some (key, v, off, hit) -> is_Some (exec s e) ->
    is_Some (exec x (DPlain e l)).
Proof.
  intros [Hst HR] Hl. destruct (alive_returns _ (start l x) (alive_probe (cache x) key v off) Hl) as (w & [dc hit] & Hp & Hw).
  exists hit. intros e Hpl Hpr [s' He]. change (is_Some (plain_step e l x)). unfold plain_step.
  rewrite Hpl, (reading_now x s) by done. unfold probed. rewrite Hst, (host_probes (C:=C)), Hpr, Hp.
  rewrite Bool.eqb_reflx. cbn [mbind option_bind]. rewrite (host_on (C:=C)), He by done. by apply settle_alive.
Qed.

(** ** Whole runs *)

Lemma settle_st c w m ps (s : S) x : settle c w m ps s = Some x -> st x = s.
Proof. unfold settle. destruct (close_all _ w) as [w' [[]|]]; [|done]. by intros [= <-]. Qed.

Lemma plain_next x e l x' :
  plain_step e l x = Some x' -> (next (fetches x) <= next (fetches x'))%nat.
Proof.
  unfold plain_step. intros He. destruct (plain_event e); [|done].
  destruct (probed e l x) as [[dc w]|]; [|done]. simpl in He.
  destruct (exec (reading _ _) e) as [s|] eqn:Hs; [|done]. apply settle_st in He. unfold fetches. rewrite He.
  apply (host_next (C:=C)) in Hs. unfold reading in Hs. by rewrite host_get_put in Hs.
Qed.

(** The step of the fetches in a step over the disk. *)
Lemma put_back_next s e s1 x :
  exec s e = Some s1 -> next s = next (fetches x) -> (next (fetches x) <= next (fetches_of (put_back s1 x)))%nat.
Proof. intros He <-. rewrite fetches_put_back. simpl. by eapply next_mono. Qed.

Lemma next_grows x e x' : exec x e = Some x' -> (next (fetches x) <= next (fetches x'))%nat.
Proof.
  destruct e as [e l|i l|i l|i l|l]; intros He.
  - by eapply plain_next.
  - change (lookup_step i l x = Some x') in He. unfold lookup_step in He.
    destruct (callers (fetches x) !! i) as [c|]; [|done]. simpl in He. destruct (Get _ _ _ _ _) as [w [[dc r]|]]; [|done].
    destruct r as [e|[[fd size]|]].
    1,3: inv_bind; subst; match goal with E : lookup _ ?r _ = Some _ |- _ => exact (put_back_next _ (ELookup i r) _ _ E eq_refl) end.
    destruct (c_pc c); try done. inv_bind. subst. unfold fetches at 2. simpl. rewrite fetches_put_back. done.
  - change (claim_step i l x = Some x') in He. unfold claim_step in He.
    assert (forall o s s', claim_flight i o s = Some s' -> next s = next (fetches x) -> st x' = put_back s' x ->
      (next (fetches x) <= next (fetches x'))%nat) as Hc.
    { intros o s s' Hs Hn Hst. unfold fetches at 2. rewrite Hst. by apply (put_back_next s (EClaim i o)). }
    destruct (callers (fetches x) !! i) as [c|]; [|done]. simpl in He. destruct (c_claim c) as [|n| |]; try done. simpl in He.
    destruct (flights (hp (fetches x)) !! n) as [f|]; [|done]. simpl in He.
    destruct (fl_err f); [inv_bind; apply settle_st in He; by eapply Hc|].
    destruct (buf f); [inv_bind; apply settle_st in He; by eapply Hc|].
    destruct (paths x !! n) as [p|]; [|done]. simpl in He. destruct (os.Open p _) as [w [[e|fd]|]]; [| |done].
    + inv_bind. apply settle_st in He. by eapply Hc.
    + inv_bind. apply settle_st in He. match goal with E : claim_flight _ _ _ = Some _ |- _ => exact (Hc _ _ _ E eq_refl He) end.
  - change (put_step i l x = Some x') in He. unfold put_step in He.
    destruct (leads (fetches x) !! i) as [ld|]; [|done]. simpl in He. destruct (l_pc ld); try done.
    destruct (Put _ _ _ _ _ _) as [w [[dc r]|]]; [|done]. destruct r as [e|[[fd p]|]].
    all: inv_bind; subst; match goal with E : lead_put _ ?b _ = Some _ |- _ => exact (put_back_next _ (EPut i b) _ _ E eq_refl) end.
  - change (sweep_step maxBytes interval walk_order sort_entries l x = Some x') in He. unfold sweep_step in He.
    destruct (evictor.NewEvictor _ _ _); [|done]. simpl in He. destruct (evictor.runOnce _ _ _ _) as [w [r|]]; [|done].
    by injection He as <-.
Qed.

Definition small_store (x : store S) : Prop := small (fetches x).

Lemma represents_small x s : represents x s -> small_store x <-> small (fetches_of s).
Proof. intros [Hx _]. unfold small_store, fetches. rewrite Hx. unfold on. by rewrite host_get_put. Qed.

Lemma small_back x e x' : exec x e = Some x' -> small_store x' -> small_store x.
Proof. intros Hn%next_grows. unfold small_store, small. lia. Qed.

Lemma hosted_before (s : S) e s' : exec s e = Some s' -> small (fetches_of s') -> small (fetches_of s).
Proof. intros Hn%(host_next (C:=C)). unfold small. lia. Qed.

(** [I] is an invariant of the machine over a map, in an environment that
    meets [P]; over the disk, [Q] is that condition. *)
Section runs.
Context (I : S -> Prop) (P : S -> E -> Prop) (Q : store S -> devent E -> Prop)
  (I_Inv : forall s, I s -> Inv C U (fetches_of s))
  (I_agree : forall s, I s -> puts_agree (fetches_of s))
  (I_step : forall s e s', I s -> P s e -> small (fetches_of s') -> exec s e = Some s' -> I s')
  (Q_P : forall x s e es, represents x s -> Q x e -> impl_at x e es -> is_Some (run s es) -> along P s es).

Lemma run_sim es : forall x x' s,
  represents x s -> I s -> along touches x es -> along Q x es -> run x es = Some x' -> small_store x' ->
  exists ess s', Forall2 impl es ess /\ run s (concat ess) = Some s' /\ along P s (concat ess) /\
    represents x' s' /\ I s'.
Proof.
  induction es as [|e es IH]; intros x x' s HR HI HT HQ Hr Hsm.
  { injection Hr as <-. by exists [], s. }
  simpl in HT, HQ, Hr. destruct HT as [HTe HT], HQ as [HQe HQ]. destruct (exec x e) as [x1|] eqn:He; [|done]. simpl in Hr.
  destruct (step_sim _ _ _ _ HR (I_Inv s HI) (I_agree s HI) HTe He) as (es1 & s1 & Himpl & Hs1 & HR1).
  assert (small_store x1) as Hsm1 by (by eapply (run_back small_store); [apply small_back|exact Hr|]).
  pose proof (Q_P _ _ _ _ HR HQe Himpl (ex_intro _ s1 Hs1)) as HP1.
  assert (I s1) as HI1.
  { eapply (along_invariant P I (fun s => small (fetches_of s))); [apply hosted_before|exact I_step|exact HI|exact HP1|exact Hs1|].
    by apply (represents_small _ _ HR1). }
  destruct (IH x1 x' s1 HR1 HI1 HT HQ Hr Hsm) as (ess & s' & Hall & Hrun & HP & HR' & HI').
  exists (es1 :: ess), s'. split; [constructor; [by eapply impl_at_impl|done]|]. simpl. split; [by rewrite run_app, Hs1|].
  split; [|done]. by eapply along_join.
Qed.
End runs.

(** The start: the fetches hold no file and have no flight. *)
Lemma boot_represents c f s :
  sound K f -> fs_handles f = ∅ -> disk (hp (fetches_of s)) = view K f ->
  handles (hp (fetches_of s)) = ∅ -> flights (hp (fetches_of s)) = ∅ -> represents (boot c f (on ∅ s)) s.
Proof.
  intros Hsd Hh Hd Hs Hf. split; [done|]. split; simpl; try done.
  - rewrite Hs. split; try done. intros fd. rewrite Hh, lookup_empty. by intros [? ?].
  - rewrite Hf. intros i g Hg. by rewrite lookup_empty in Hg.
Qed.

(** When the fetches are finished, no descriptor is open. *)
Lemma quiescent_closed x s :
  represents x s -> Inv C U (fetches_of s) -> flprops.quiescent (fetches_of s) -> fs_handles (files x) = ∅.
Proof.
  intros [_ HR] HI Hq. pose proof (flprops.quiescent_clean C U _ HI Hq) as [He _].
  pose proof (r_fds _ _ HR) as Ho. rewrite He in Ho.
  apply map_empty. intros fd. apply eq_None_not_Some. intros [n Hn]%(o_all _ _ _ Ho).
  by apply (o_held _ _ _ Ho) in Hn as [? ?].
Qed.
End refinement.
End storeref.
