(* ===== verification/Interleave.v ===== *)
(** * The cache's operations at the same time (services/cache.go, eviction.go)

    Any number of [Get]s, [Put]s, probes, reopenings and sweeps, each on a
    goroutine of its own, interleaved at every system call, any of which may
    fail or end the process. The rely-guarantee logic of [Interference] gives
    each program its specification; the pool's theorems put them together.

    The memo of marker times is behind a mutex and each operation looks at it
    once: an operation here starts from any memo, which covers whatever the
    others may have put there before it looks, and two operations may write
    the same marker at once, which the mutex forbids. *)
From stdpp Require Import functions.
From S2P Require Import Prelude GoStd GoTime Http Path Sha1 Fs Interference DiskCache Evictor Store.

(** ** What each operation promises among others *)
Section programs.
Context `{TimeLayout} (X : string -> bytes -> Prop).

Lemma silent_listShards loc : silent X (listShards loc).
Proof. unfold listShards. destruct (filepath.SplitLast _). silent. Qed.
#[local] Hint Resolve silent_listShards : silent.

Lemma silent_getDir loc h : silent X (getDir loc h).
Proof. unfold getDir. silent. Qed.
#[local] Hint Resolve silent_getDir : silent.

Lemma silent_root c key : silent X (root c key).
Proof. unfold root. silent. Qed.

(** A chunk's path is below some root, whatever the shards are when it asks. *)
Lemma rg_path c key v off :
  rg X nothing (path c key v off)
    (fun r O f S => nothing O f S /\ forall p, r = inr p -> exists rt, p = chunk_path rt key v off).
Proof.
  unfold path, root. eapply rg_bind with
    (R := fun r O f S => nothing O f S /\ forall rt h, r = inr (rt, h) -> h = sha1hex key).
  - eapply rg_silently; [apply silent_getDir|apply steady_nothing|].
    intros [e|sh]; apply rg_ret; intros O f S _; (split; [done|]); [done|]. by intros rt h [= _ <-].
  - intros [e|[rt h]]; apply rg_pure; intros Hh; apply rg_ret; intros O f S _; (split; [done|]); [done|].
    rewrite (Hh rt h) by done. intros p [= <-]. by exists rt.
Qed.

Section markers.
Context (HM : forall rt t, X (filepath.Join [rt; versionMarker]) (list_byte_of_string (RFC3339Nano_Format t))).

Lemma rg_readOrCreateMarker rt : rg X nothing (readOrCreateMarker rt) (fun _ => nothing).
Proof.
  unfold readOrCreateMarker. cbv zeta. eapply rg_silently; [auto with silent|apply steady_nothing|].
  intros [e|b]; [|by apply rg_ret]. destruct (negb (errors.IsNotExist e)); [by apply rg_ret|].
  eapply rg_silently; [auto with silent|apply steady_nothing|]. intros [e'|_]; [by apply rg_ret|].
  eapply rg_silently; [apply silent_look|apply steady_nothing|]. intros now.
  set (b := list_byte_of_string (RFC3339Nano_Format now)).
  eapply rg_bind; [apply rg_CreateTemp; by right|]. intros [e'|[h name]]; [by apply rg_ret|].
  eapply rg_bind; [apply (rg_Write X h name [] b)|]. intros w.
  eapply rg_silently; [auto with silent| |].
  { apply steady_ex. intros d'. apply steady_and; [apply steady_draft|apply steady_pure]. }
  intros s. eapply rg_bind with (R := fun _ O f S => exists d', (exists i, drafted i name d' O f S) /\
    forall u, w = inr u -> d' = [] ++ b).
  { apply rg_Close.
    - apply steady_ex. intros d'. apply steady_and; [|apply steady_pure]. apply steady_ex. intros i. apply steady_drafted.
    - intros O f S (d' & (i & Hi & _ & _ & Hd) & Hw). split; [done|]. exists d'. split; [by exists i|done]. }
  intros cl. eapply rg_bind with (R := fun _ => nothing).
  - destruct w as [?|[]]; [by apply rg_ret|]. destruct s; [by apply rg_ret|]. destruct cl; [by apply rg_ret|].
    eapply rg_bind with (R := fun _ => nothing); [|intros []; by apply rg_ret].
    eapply rg_conseq; [apply (rg_Rename_closed X name b); [apply marker_not_tmp|apply HM]| |done].
    intros O f S (d' & Hd & Hw). by rewrite (Hw tt eq_refl) in Hd.
  - intros [e'|]; [|by apply rg_ret]. eapply rg_silently; [auto with silent|apply steady_nothing|]. intros _. by apply rg_ret.
Qed.

Lemma rg_versionedSince c key : rg X nothing (versionedSince c key) (fun _ => nothing).
Proof.
  unfold versionedSince. eapply rg_silently; [apply silent_root|apply steady_nothing|].
  intros [e|[rt h]]; [by apply rg_ret|]. eapply rg_bind with (R := fun _ => nothing); [|intros ct; by apply rg_ret].
  unfold markerTime. destruct (since c !! rt); [by apply rg_ret|].
  eapply rg_bind; [apply rg_readOrCreateMarker|]. intros r. by apply rg_ret.
Qed.

(** A handle of a chunk's file, the versioned or the older one, under some
    root. *)
Definition hit_of (key : string) (v : objVersion) (off : Z) (h : nat) (d : bytes) : assn := fun O f S =>
  exists rt v', (v' = v \/ v' = noVersion) /\ X (chunk_path rt key v' off) d /\ opened h d O f S.

Lemma steady_hit key v off h d : steady X (hit_of key v off h d).
Proof.
  do 2 (apply steady_ex; intros ?). do 2 (apply steady_and; [apply steady_pure|]). apply steady_opened.
Qed.

Lemma rg_open_chunk c key v off rt :
  rg X nothing (open_chunk c key v off (chunk_path rt key v off))
    (fun r => match r.2 with
              | inr (inr (h, _)) => fun O f S => exists d, hit_of key v off h d O f S
              | _ => nothing
              end).
Proof.
  unfold open_chunk.
  eapply rg_bind; [apply rg_Open, chunk_path_not_tmp|]. intros [e|h].
  2:{ apply rg_ret. intros O f S (d & Hd & Ho). exists d, rt, v. auto. }
  destruct (_ && _); [|by apply rg_ret].
  eapply rg_bind; [apply rg_versionedSince|]. intros cs. destruct (legacy_trusted _ _); [|by apply rg_ret].
  eapply rg_bind; [apply rg_path|]. intros [e'|p']; apply rg_pure; intros Hp; [by apply rg_ret|].
  destruct (Hp p' eq_refl) as [rt' ->]. eapply rg_bind; [apply rg_Open, chunk_path_not_tmp|].
  intros [e'|h]; apply rg_ret; [done|]. intros O f S (d & Hd & Ho). exists d, rt', noVersion. auto.
Qed.

(** [Get]'s handle reads one complete content of the chunk's file, whatever
    becomes of the file. *)
Lemma rg_Get c key v off :
  rg X nothing (Get (Some c) key v off)
    (fun r => match r.2 with
              | inr (Some (h, size)) => fun O f S =>
                  exists d, hit_of key v off h d O f S /\ size = Z.of_nat (length d)
              | _ => nothing
              end).
Proof.
  unfold Get. eapply rg_bind; [apply rg_path|]. intros [e|p]; apply rg_pure; intros Hp; [by apply rg_ret|].
  destruct (Hp p eq_refl) as [rt ->]. eapply rg_bind; [apply rg_open_chunk|].
  intros [c' [e|[e|[h p']]]]; cbn [fst snd]; [by apply rg_ret| |].
  { apply rg_ret. intros O f S _. by destruct (errors.IsNotExist e). }
  cbv zeta. eapply rg_bind with (R := fun r O f S => exists d, hit_of key v off h d O f S /\
    forall size, r = inr size -> size = Z.of_nat (length d)).
  - intros O f S Hh (d & rt' & v' & Hv & Hx & Ho). eapply wp_mono; [|by apply (rg_Stat X h d)].
    intros a O' f' S' (Hh' & Ho' & Hz). split; [done|]. exists d. split; [|done]. by exists rt', v'.
  - intros [e|size].
    + eapply rg_bind with (R := fun _ => nothing); [|intros _; by apply rg_ret].
      apply rg_Close; [apply steady_nothing|]. by intros O f S (d & (rt' & v' & _ & _ & i & Hi & _) & _).
    + eapply rg_conseq with (Q' := fun r => match r.2 with
          | inr (Some (h, size)) => fun O f S => exists d, hit_of key v off h d O f S /\ size = Z.of_nat (length d)
          | _ => nothing
          end); [|intros O f S HP; exact HP|done].
      assert (steady X (fun O f S => exists d, hit_of key v off h d O f S /\
        forall s, @inr goerr Z size = inr s -> s = Z.of_nat (length d))) as Hst.
      { apply steady_ex. intros d. apply steady_and; [apply steady_hit|apply steady_pure]. }
      eapply rg_silently; [apply silent_look|exact Hst|]. intros now.
      eapply rg_silently; [auto with silent|exact Hst|]. intros _. apply rg_ret.
      intros O f S (d & Hd & Hz). exists d. auto.
Qed.

(** [Put]'s handle reads the bytes it was given. *)
Lemma rg_Put c key v off data :
  (forall rt, X (chunk_path rt key v off) data) ->
  rg X nothing (Put (Some c) key v off data)
    (fun r => match r.2 with
              | inr (Some (h, p)) => fun O f S => (exists rt, p = chunk_path rt key v off) /\ opened h data O f S
              | _ => nothing
              end).
Proof.
  intros HX. unfold Put. eapply rg_bind with (R := fun _ => nothing).
  { destruct (String.eqb (etag v) ""); [by apply rg_ret|]. eapply rg_bind; [apply rg_versionedSince|]. intros cs. by apply rg_ret. }
  intros c'. eapply rg_bind; [apply rg_path|]. intros [e|p]; apply rg_pure; intros Hp; [by apply rg_ret|].
  destruct (Hp p eq_refl) as [rt ->]. cbv zeta.
  eapply rg_silently; [auto with silent|apply steady_nothing|]. intros [e|_]; [by apply rg_ret|].
  eapply rg_bind; [apply rg_CreateTemp; by left|]. intros [e|[tmp name]]; [by apply rg_ret|].
  assert (forall (P : assn) e, (forall O f S, P O f S -> tmp ∈ O) ->
    rg X P (let! _ := os.Close tmp in let! _ := os.Remove name in
            io_ret (Some c', @inl goerr (option (nat * string)) e))
      (fun r => match r.2 with
                | inr (Some (h, p)) => fun O f S => (exists rt, p = chunk_path rt key v off) /\ opened h data O f S
                | _ => nothing
                end)) as Hundo.
  { intros P e HP. eapply rg_bind with (R := fun _ => nothing).
    - apply rg_Close; [apply steady_nothing|]. intros O f S Hx. by split; [eapply HP|].
    - intros _. eapply rg_silently; [auto with silent|apply steady_nothing|]. intros _. by apply rg_ret. }
  eapply rg_bind; [apply (rg_Write X tmp name [] data)|]. intros [e|[]].
  { apply Hundo. by intros O f S (d & (i & Hi & _) & _). }
  eapply rg_bind; [eapply rg_conseq; [apply (rg_Rename_open X tmp name data); [apply chunk_path_not_tmp|apply HX]| |]|].
  - intros O f S (d & Hd & Hw). by rewrite (Hw tt eq_refl) in Hd.
  - intros r O f S Hr. exact Hr.
  - intros [e|u]; [by apply Hundo|]. apply rg_ret. intros O f S Ho. split; [by exists rt|done].
Qed.
End markers.

(** *** Sweeps remove names and nothing else *)

Lemma silent_removeIfEmpty n dir : silent X (evictor.removeIfEmpty n dir).
Proof. revert dir. induction n as [|n IH]; intros dir; cbn [evictor.removeIfEmpty]; silent. Qed.
#[local] Hint Resolve silent_removeIfEmpty : silent.

Lemma silent_walk now l acc : silent X (evictor.walk now l acc).
Proof.
  revert acc. induction l as [|p l IH]; intros acc; cbn [evictor.walk]; [silent|]. apply silent_bind; [|apply IH].
  unfold evictor.visit. apply silent_bind; [apply silent_read; intros f; by destruct (file_inode f p)|]. intros r. silent.
Qed.
#[local] Hint Resolve silent_walk : silent.

Lemma silent_trim target es total freed : silent X (evictor.trim target es total freed).
Proof.
  revert total freed. induction es as [|en es IH]; intros total freed; cbn [evictor.trim]; [silent|].
  destruct (total <=? target); [silent|]. apply silent_bind; [auto with silent|]. intros [e|u]; [apply IH|].
  apply silent_bind; [auto with silent|]. intros _. apply IH.
Qed.
#[local] Hint Resolve silent_trim : silent.

Lemma silent_runOnce walk_order sort_entries e : silent X (evictor.runOnce walk_order sort_entries e).
Proof.
  unfold evictor.runOnce, CacheRoots. apply silent_bind; [silent|]. intros [er|roots]; [silent|].
  induction roots as [|r roots IH]; cbn [evictor.sweep_all]; [silent|]. apply silent_bind; [|intros _; exact IH].
  unfold evictor.sweepShard, evictor.WalkDir, time.Now. silent.
Qed.
End programs.

(** ** The operations and their goroutines *)
Module interleave.
Section pool.
Context `{TimeLayout} (walk_order : fsys -> string -> list string)
  (sort_entries : list evictor.fileEntry -> list evictor.fileEntry).

(** What runs on a goroutine: a [Get] or [Put] of the fetcher, readahead's
    probe, the reopening of a flight's file by its path, a sweep. *)
Inductive op :=
| OpGet (key : string) (v : objVersion) (off : Z)
| OpPut (key : string) (v : objVersion) (off : Z) (data : bytes)
| OpProbe (key : string) (v : objVersion) (off : Z)
| OpReopen (rt key : string) (v : objVersion) (off : Z)
| OpSweep (e : evictor.Evictor).

Inductive outcome :=
| Got (r : goerr + option (nat * Z))
| Stored (r : goerr + option (nat * string))
| Probed (hit : bool)
| Reopened (r : goerr + nat)
| Swept.

Definition prog (c : DiskCache) (o : op) : M outcome :=
  match o with
  | OpGet key v off => let! r := Get (Some c) key v off in io_ret (Got (snd r))
  | OpPut key v off data => let! r := Put (Some c) key v off data in io_ret (Stored (snd r))
  | OpProbe key v off => let! r := store.probe (Some c) key v off in io_ret (Probed (snd r))
  | OpReopen rt key v off => let! r := os.Open (chunk_path rt key v off) in io_ret (Reopened r)
  | OpSweep e => let! _ := evictor.runOnce walk_order sort_entries e in io_ret Swept
  end.

(** The disk and what is left of each goroutine's program. *)
Record pool := { pl_fs : fsys; pl_threads : list (M outcome) }.

Definition start (f : fsys) (ops : list (DiskCache * op)) : pool :=
  {| pl_fs := f; pl_threads := (fun co => prog co.1 co.2) <$> ops |}.

Definition tick (d : Z) (f : fsys) : fsys :=
  {| fs_dirs := fs_dirs f; fs_files := fs_files f; fs_inodes := fs_inodes f; fs_handles := fs_handles f;
     fs_next := fs_next f; fs_now := fs_now f + d; fs_rand := fs_rand f |}.

(** A goroutine makes its next call, which meets the given fault; or time
    passes. A call the process dies in ends every goroutine. *)
Inductive event :=
| EStep (t : nat) (x : fault)
| ETick (d : Z).

#[export] Instance pool_machine : Machine pool event := fun s e =>
  match e with
  | ETick d => if 0 <=? d then Some {| pl_fs := tick d (pl_fs s); pl_threads := pl_threads s |} else None
  | EStep t x =>
      match pl_threads s !! t with
      | Some (Call call next) =>
          let '(w, r) := call {| w_fs := pl_fs s; w_faults := [x] |} in
          Some {| pl_fs := w_fs w;
                  pl_threads := match r with Some a => <[t := next a]> (pl_threads s) | None => [] end |}
      | _ => None
      end
  end.

(** ** Soundness of the logic for the pool *)
Section sound.
Context (X : string -> bytes -> Prop) (f0 : fsys) (S0 : gset nat) (post : nat -> outcome -> assn).

(** Each goroutine owns its own numbers and is safe to go on. *)
Record safe (s : pool) (Os : nat -> gset nat) (S : gset nat) : Prop := {
  s_holds : forall t, holds X (Os t) (pl_fs s) S;
  s_apart : forall t1 t2, t1 <> t2 -> Os t1 ## Os t2;
  s_start : rely X ∅ f0 S0 (pl_fs s) S;
  s_wp : forall t m, pl_threads s !! t = Some m -> forall f' S', rely X (Os t) (pl_fs s) S f' S' ->
    wp X m (fun a O f S => holds X O f S /\ post t a O f S) (Os t) f' S';
}.

Lemma holds_empty O f S : holds X O f S -> holds X ∅ f S.
Proof. intros [Hi _ _]. split; [done|set_solver|intros n Hn; set_solver]. Qed.

Lemma safe_quiet s Os S f' l :
  safe s Os S -> silent_step X (pl_fs s) f' -> (forall t m, l !! t = Some m -> pl_threads s !! t = Some m) ->
  safe {| pl_fs := f'; pl_threads := l |} Os S.
Proof.
  intros [H1 H2 H3 H4] Hf Hl. assert (forall t, rely X (Os t) (pl_fs s) S f' S) as Hr by (intros t; by apply silent_rely).
  split; simpl; [|done| |].
  - intros t. apply Hr.
  - eapply rely_trans; [exact H3|]. apply silent_rely; [done|]. by eapply holds_empty, (H1 0%nat).
  - intros t m Hm f2 S2 Hr2. apply (H4 t m); [auto|]. by eapply rely_trans.
Qed.

Lemma tick_silent d f : silent_step X f (tick d f).
Proof. by apply silent_intro. Qed.

Lemma safe_step s e s' Os S : safe s Os S -> exec s e = Some s' -> exists Os' S', safe s' Os' S'.
Proof.
  intros HS He. destruct e as [t x|d].
  2:{ unfold exec, pool_machine in He. destruct (0 <=? d); [|done]. injection He as <-. exists Os, S.
      apply (safe_quiet s); [done|apply tick_silent|done]. }
  unfold exec, pool_machine in He. destruct (pl_threads s !! t) as [[a|Y call next]|] eqn:Ht; [done| |done].
  destruct HS as [H1 H2 H3 H4]. pose proof (H4 t _ Ht (pl_fs s) S (rely_refl X _ _ _ (H1 t)) x) as Hw.
  assert (forall w O' S', guar X (Os t) (pl_fs s) S O' (w_fs w) S' ->
    (forall u, u <> t -> rely X (Os u) (pl_fs s) S (w_fs w) S' /\ O' ## Os u) /\
    (forall u, holds X (<[t := O']> Os u) (w_fs w) S') /\
    (forall u1 u2, u1 <> u2 -> <[t := O']> Os u1 ## <[t := O']> Os u2) /\ rely X ∅ f0 S0 (w_fs w) S') as Hgo.
  { intros w O' S' Hg.
    assert (forall u, u <> t -> rely X (Os u) (pl_fs s) S (w_fs w) S' /\ O' ## Os u) as Hother.
    { intros u Hu. eapply guar_rely; [exact Hg|done|done|]. by apply H2. }
    split; [done|]. split; [|split].
    + intros u. destruct (decide (u = t)) as [->|Hu]; [rewrite fn_lookup_insert; apply Hg|].
      rewrite fn_lookup_insert_ne by done. apply (Hother u Hu).
    + intros u1 u2 Hu. destruct (decide (u1 = t)) as [->|Hu1].
      { rewrite fn_lookup_insert, fn_lookup_insert_ne by done. by apply (Hother u2). }
      destruct (decide (u2 = t)) as [->|Hu2].
      { rewrite fn_lookup_insert, fn_lookup_insert_ne by done. symmetry. by apply (Hother u1). }
      rewrite !fn_lookup_insert_ne by done. by apply H2.
    + eapply rely_trans; [exact H3|].
      apply (guar_rely X (Os t) (pl_fs s) S O' (w_fs w) S' ∅); [done|done|eapply holds_empty, (H1 t)|set_solver]. }
  destruct (call _) as [w [a|]]; injection He as <-.
  - destruct Hw as (O' & S' & Hg & Hnext). destruct (Hgo w O' S' Hg) as (Hother & ? & ? & ?).
    exists (<[t := O']> Os), S'. split; simpl; [done..|]. intros u m. rewrite list_lookup_insert. case_decide as Hu.
    + destruct Hu as [<- _]. intros [= <-]. rewrite fn_lookup_insert. apply Hnext.
    + destruct (decide (u = t)) as [->|Hne].
        { intros Hm. destruct Hu. split; [done|]. by eapply lookup_lt_Some. }
        rewrite fn_lookup_insert_ne by done. intros Hm f' S2 Hr. apply (H4 u m Hm).
        eapply rely_trans; [apply (Hother u Hne)|done].
  - destruct Hw as (O' & S' & Hg). destruct (Hgo w O' S' Hg) as (_ & ? & ? & ?).
    exists (<[t := O']> Os), S'. by split.
Qed.

Lemma safe_run s es s' Os S : safe s Os S -> run s es = Some s' -> exists Os' S', safe s' Os' S'.
Proof.
  intros HS Hr. apply (run_invariant (fun s => exists Os S, safe s Os S) s es s'); [|by exists Os, S|done].
  intros s1 e s2 (Os1 & S1 & H1) He. by eapply safe_step.
Qed.

Lemma safe_start ops :
  holds X ∅ f0 S0 -> (forall t c o, ops !! t = Some (c, o) -> rg X nothing (prog c o) (post t)) ->
  safe (start f0 ops) (fun _ => ∅) S0.
Proof.
  intros Hh Hops. split; simpl; [done|set_solver|by apply rely_refl|].
  intros t m. rewrite list_lookup_fmap. destruct (ops !! t) as [[c o]|] eqn:Ho; [|done]. intros [= <-].
  intros f' S' Hr. apply (Hops t c o Ho); [apply Hr|done].
Qed.
End sound.

(** ** What a goroutine that has returned was promised *)

(** A finished path shows what it showed at the start, a chunk some [Put]
    among [ops] stores there, or a version marker. *)
Definition contents (f0 : fsys) (ops : list (DiskCache * op)) (p : string) (d : bytes) : Prop :=
  file_data f0 p = Some d \/
  (exists c key v off rt, (c, OpPut key v off d) ∈ ops /\ p = chunk_path rt key v off) \/
  marker_content p d.

(** What an answer means in the state [f]: a handle reads one of the
    [contents] of a path, whole; [Put]'s reads the bytes [Put] was given. *)
Definition answers (f0 : fsys) (ops : list (DiskCache * op)) (f : fsys) (o : op) (out : outcome) : Prop :=
  match o, out with
  | OpGet key v off, Got (inr (Some (h, size))) =>
      exists d rt v', (v' = v \/ v' = noVersion) /\ contents f0 ops (chunk_path rt key v' off) d /\
        handle_data f h = Some d /\ size = Z.of_nat (length d)
  | OpPut key v off data, Stored (inr (Some (h, p))) =>
      (exists rt, p = chunk_path rt key v off) /\ handle_data f h = Some data
  | OpReopen rt key v off, Reopened (inr h) =>
      exists d, contents f0 ops (chunk_path rt key v off) d /\ handle_data f h = Some d
  | OpGet _ _ _, Got _ | OpPut _ _ _ _, Stored _ | OpProbe _ _ _, Probed _ | OpReopen _ _ _ _, Reopened _
  | OpSweep _, Swept => True
  | _, _ => False
  end.

Definition promised (X : string -> bytes -> Prop) (o : op) (out : outcome) : assn :=
  match o, out with
  | OpGet key v off, Got (inr (Some (h, size))) => fun O f S =>
      exists d, hit_of X key v off h d O f S /\ size = Z.of_nat (length d)
  | OpPut key v off data, Stored (inr (Some (h, p))) => fun O f S =>
      (exists rt, p = chunk_path rt key v off) /\ opened h data O f S
  | OpReopen rt key v off, Reopened (inr h) => fun O f S =>
      exists d, X (chunk_path rt key v off) d /\ opened h d O f S
  | OpGet _ _ _, Got _ | OpPut _ _ _ _, Stored _ | OpProbe _ _ _, Probed _ | OpReopen _ _ _ _, Reopened _
  | OpSweep _, Swept => nothing
  | _, _ => fun _ _ _ => False
  end.

Lemma rg_prog X c o :
  (forall rt t, X (filepath.Join [rt; versionMarker]) (list_byte_of_string (RFC3339Nano_Format t))) ->
  (forall key v off data rt, o = OpPut key v off data -> X (chunk_path rt key v off) data) ->
  rg X nothing (prog c o) (promised X o).
Proof.
  intros HM HP. destruct o as [key v off|key v off data|key v off|rt key v off|e]; cbn [prog].
  - eapply rg_bind; [by apply rg_Get|]. intros [c' [e|[[h size]|]]]; by apply rg_ret.
  - eapply rg_bind; [apply rg_Put; [done|intros rt; by apply HP]|]. intros [c' [e|[[h p]|]]]; by apply rg_ret.
  - eapply rg_bind with (R := fun _ => nothing); [|intros r; by apply rg_ret].
    unfold store.probe. eapply rg_bind; [by apply rg_Get|]. intros [c' [e|[[h size]|]]]; [by apply rg_ret| |by apply rg_ret].
    eapply rg_bind with (R := fun _ => nothing); [|intros r; by apply rg_ret].
    apply rg_Close; [apply steady_nothing|]. by intros O f S (d & (rt' & v' & _ & _ & i & Hi & _) & _).
  - eapply rg_bind; [apply rg_Open, chunk_path_not_tmp|]. intros [e|h]; by apply rg_ret.
  - eapply rg_silently; [apply silent_runOnce|apply steady_nothing|]. intros _. by apply rg_ret.
Qed.

(** The numbers in use at the start. *)
Definition old (f : fsys) : gset nat := set_seq 0 (fs_next f).

Lemma holds_start X f0 :
  fs_wf f0 -> NoDup (fs_rand f0) -> (forall p d, file_data f0 p = Some d -> X p d) -> holds X ∅ f0 (old f0).
Proof.
  intros Hwf Hnd HX. destruct Hwf as (H1 & H2 & H3).
  split; [split|set_solver|intros n Hn; set_solver]; [done| | |auto|done].
  - intros p i _ Hi. destruct (H1 p i Hi) as [x Hx]. apply elem_of_set_seq. specialize (H3 i x Hx). lia.
  - intros n Hn. apply elem_of_set_seq in Hn. lia.
Qed.

Lemma safe_at f0 ops es s :
  fs_wf f0 -> NoDup (fs_rand f0) -> run (start f0 ops) es = Some s ->
  exists Os S, safe (contents f0 ops) f0 (old f0)
    (fun t out O f S => forall c o, ops !! t = Some (c, o) -> promised (contents f0 ops) o out O f S) s Os S.
Proof.
  intros Hwf Hnd Hr. eapply safe_run; [|exact Hr]. apply safe_start.
  - apply holds_start; [done|done|]. intros p d Hd. by left.
  - intros t c o Ho. eapply rg_conseq; [apply (rg_prog (contents f0 ops) c o)|done|].
    + intros rt tm. right; right. by exists rt, tm.
    + intros key v off data rt ->. right; left. exists c, key, v, off, rt. split; [|done]. by eapply list_elem_of_lookup_2.
    + intros out O f S Hp c' o' Ho'. rewrite Ho in Ho'. by injection Ho' as <- <-.
Qed.

(** C12: however the system calls of any number of operations interleave, fail
    or are cut short, a path that is not a temporary one shows the complete
    content it had at the start, a complete chunk one of the [Put]s stores
    there, or a complete version marker: nobody ever sees half a chunk. *)
Theorem concurrent_files f0 ops es s p d :
  fs_wf f0 -> NoDup (fs_rand f0) -> run (start f0 ops) es = Some s ->
  is_tmp p = false -> file_data (pl_fs s) p = Some d -> contents f0 ops p d.
Proof.
  intros Hwf Hnd Hr Hp Hd. destruct (safe_at f0 ops es s Hwf Hnd Hr) as (Os & S & HS).
  by apply (i_content _ _ _ (h_inv _ _ _ _ (s_holds _ _ _ _ _ _ _ HS 0%nat))).
Qed.

(** C11: each operation that has returned has its answer, in every state from
    then on: the handle a [Get] or a reopening hands out reads one complete
    content of that chunk's file and [Get] reports its length, the handle a
    [Put] hands out reads the bytes it was given, whatever the other
    operations and sweeps do to the names; and every handle that was open at
    the start reads what it read. *)
Theorem concurrent_answers f0 ops es s :
  fs_wf f0 -> NoDup (fs_rand f0) -> run (start f0 ops) es = Some s ->
  (forall t c o out, ops !! t = Some (c, o) -> pl_threads s !! t = Some (Ret out) -> answers f0 ops (pl_fs s) o out) /\
  (forall h d, handle_data f0 h = Some d -> handle_data (pl_fs s) h = Some d).
Proof.
  intros Hwf Hnd Hr. destruct (safe_at f0 ops es s Hwf Hnd Hr) as (Os & S & HS). split.
  - intros t c o out Ho Ht.
    pose proof (s_wp _ _ _ _ _ _ _ HS t _ Ht _ _ (rely_refl _ _ _ _ (s_holds _ _ _ _ _ _ _ HS t))) as [_ Hp].
    specialize (Hp c o Ho). destruct o, out; simpl in *; try done.
    + destruct r as [|[[h size]|]]; [done| |done]. destruct Hp as (d & (rt & v' & Hv & Hx & Hd) & Hz).
      exists d, rt, v'. repeat split; [done|done|by eapply opened_handle|done].
    + destruct r as [|[[h q]|]]; [done| |done]. destruct Hp as [Hq Hd]. split; [done|by eapply opened_handle].
    + destruct r as [|h]; [done|]. destruct Hp as (d & Hx & Hd). exists d. split; [done|by eapply opened_handle].
  - intros h d Hh. destruct Hwf as (_ & H2 & H3). pose proof (r_spares _ _ _ _ _ _ (s_start _ _ _ _ _ _ _ HS)) as Hs.
    unfold handle_data in *. destruct (fs_handles f0 !! h) as [i|] eqn:Hi; [|done]. simpl in Hh.
    destruct (H2 h i Hi) as [[x Hx] Hlt]. specialize (H3 i x Hx).
    rewrite (sp_handles Hs), Hi by (right; apply elem_of_set_seq; lia). simpl.
    rewrite <- Hh. apply (sp_data Hs). right. apply elem_of_set_seq. lia.
Qed.

(** ** Every goroutine returns *)

Definition survivable (e : event) : Prop := match e with EStep _ x => survives x | ETick _ => True end.

Lemma alive_runOnce e : alive (evictor.runOnce walk_order sort_entries e).
Proof.
  assert (forall n dir, alive (evictor.removeIfEmpty n dir)) as Hr.
  { intros n. induction n as [|n IH]; intros dir; cbn [evictor.removeIfEmpty]; unfold os.ReadDir, os.Remove; alive. }
  assert (forall now l acc, alive (evictor.walk now l acc)) as Hw.
  { intros now l. induction l as [|p l IH]; intros acc; cbn [evictor.walk]; [alive|].
    apply alive_bind; [|intros ?; apply IH]. unfold evictor.visit, evictor.Info, os.Remove. alive. }
  assert (forall target es total freed, alive (evictor.trim target es total freed)) as Ht.
  { intros target es. induction es as [|en es IH]; intros total freed; cbn [evictor.trim]; [alive|].
    unfold os.Remove. alive. }
  unfold evictor.runOnce, CacheRoots, listShards, os.ReadDir. apply alive_bind.
  - destruct (evictor.cache e) as [c|]; [|alive]. apply alive_bind; [|intros; alive]. destruct (filepath.SplitLast _). alive.
  - intros [er|roots]; [alive|]. induction roots as [|r roots IH]; cbn [evictor.sweep_all]; [alive|].
    apply alive_bind; [|intros _; exact IH]. unfold evictor.sweepShard, evictor.WalkDir. alive.
Qed.

#[local] Hint Resolve alive_Get alive_Put alive_runOnce : alive.

Lemma alive_prog c o : alive (prog c o).
Proof. destruct o; cbn [prog]; unfold store.probe, os.Open, os.Close; alive. Qed.

(** One call takes a program to one of the programs after it, and a list of
    programs to one where one of them has moved on, or to none. *)
Definition after {A} (m' m : M A) : Prop :=
  match m with Ret _ => False | Call call next => exists a, m' = next a end.
Definition one_after {A} (l' l : list (M A)) : Prop :=
  (exists t m m', l !! t = Some m /\ after m' m /\ l' = <[t := m']> l) \/ (l' = [] /\ l <> []).

Lemma after_wf {A} (m : M A) : Acc after m.
Proof. induction m as [a|Y call next IH]; constructor; [by intros m' []|]. by intros m' [a ->]. Qed.

Lemma one_after_wf {A} (l : list (M A)) : Acc one_after l.
Proof.
  assert (Acc (@one_after A) []) as Hnil by (constructor; intros l' [(t & m & m' & Ht & _)|[_ ?]]; done).
  induction l as [|m l IH]; [done|]. revert l IH. induction (after_wf m) as [m _ IHm]. intros l Hl.
  pose proof Hl as Hl0. induction Hl as [l Hacc IHl]. constructor. intros l' [(t & n & n' & Ht & Hn & ->)|[-> _]]; [|done].
  destruct t as [|t]; simpl in *; [injection Ht as <-; by apply IHm|].
  apply IHl; [|apply Hl0]; left; by exists t, n, n'.
Qed.

Definition stepped (s' s : pool) : Prop := exists t x, exec s (EStep t x) = Some s'.

Lemma stepped_wf s : Acc stepped s.
Proof.
  remember (pl_threads s) as l eqn:Hl. revert s Hl. induction (one_after_wf l) as [l _ IH]. intros s ->.
  constructor. intros s' (t & x & He). apply (IH (pl_threads s')); [|done]. unfold exec, pool_machine in He.
  destruct (pl_threads s !! t) as [[a|Y call next]|] eqn:Ht; [done| |done].
  destruct (call _) as [w [a|]]; injection He as <-; simpl.
  - left. exists t, (Call call next), (next a). split; [done|]. split; [by exists a|done].
  - right. split; [done|]. intros Hn. by rewrite Hn in Ht.
Qed.

Definition returned {A} (m : M A) : Prop := match m with Ret _ => True | Call _ _ => False end.
#[local] Instance returned_dec {A} (m : M A) : Decision (returned m).
Proof. destruct m; apply _. Defined.

Definition live (n : nat) (s : pool) : Prop := length (pl_threads s) = n /\ Forall alive (pl_threads s).

Lemma live_step n s e s' : live n s -> survivable e -> exec s e = Some s' -> live n s'.
Proof.
  intros [Hn Ha] Hs He. destruct e as [t x|d]; unfold exec, pool_machine in He.
  - destruct (pl_threads s !! t) as [[a|Y call next]|] eqn:Ht; [done| |done].
    pose proof (Forall_lookup_1 _ _ _ _ Ha Ht) as [Hc Hnext].
    destruct (Hc {| w_fs := pl_fs s; w_faults := [x] |}) as (w & a & Hw & _); [by repeat constructor|].
    rewrite Hw in He. injection He as <-. split; simpl; [by rewrite length_insert|]. by apply Forall_insert.
  - destruct (0 <=? d); [|done]. by injection He as <-.
Qed.

(** C22: no schedule of the goroutines goes on for ever, and from wherever the
    system calls, failing or not, have taken them, as long as the process
    lives, all can run until each has returned. *)
Theorem concurrent_returns f0 ops es s :
  run (start f0 ops) es = Some s -> Forall survivable es ->
  Acc stepped s /\
  exists es' s', run s es' = Some s' /\ Forall survivable es' /\ length (pl_threads s') = length ops /\
    forall t m, pl_threads s' !! t = Some m -> exists out, m = Ret out.
Proof.
  intros Hr Hes. split; [apply stepped_wf|].
  assert (live (length ops) s) as Hl.
  { assert (live (length ops) (start f0 ops)) as H0.
    { split; simpl; [by rewrite length_fmap|]. apply Forall_fmap, Forall_forall. intros [c o] _. apply alive_prog. }
    revert H0 Hr. generalize (start f0 ops). induction Hes as [|e es He Hes IH]; intros s0 H0; simpl; [by intros [= <-]|].
    destruct (exec s0 e) as [s1|] eqn:H1; simpl; [|done]. apply IH. by eapply live_step. }
  clear Hr Hes. revert Hl. induction (stepped_wf s) as [s _ IH]. intros Hl.
  destruct (decide (Forall returned (pl_threads s))) as [Hall|Hn].
  - exists [], s. split; [done|]. split; [constructor|]. split; [apply Hl|]. intros t m Hm.
    pose proof (Forall_lookup_1 _ _ _ _ Hall Hm). destruct m as [out|]; [by exists out|done].
  - apply not_Forall_Exists in Hn; [|apply _]. apply Exists_exists in Hn as (m & (t & Ht)%list_elem_of_lookup & Hm).
    destruct m as [|Y call next]; [by destruct Hm|].
    destruct (proj1 (Forall_lookup_1 _ _ _ _ (proj2 Hl) Ht) {| w_fs := pl_fs s; w_faults := [NoFault] |})
      as (w & a & Hw & _); [by repeat constructor|].
    assert (exists s1, exec s (EStep t NoFault) = Some s1) as [s1 H1].
    { unfold exec, pool_machine. rewrite Ht, Hw. by eexists. }
    destruct (IH s1) as (es' & s' & Hr & Hes & Hlen & Hret); [by exists t, NoFault|apply (live_step _ s (EStep t NoFault)); done|].
    exists (EStep t NoFault :: es'), s'. simpl. rewrite H1. split; [done|]. split; [by constructor|done].
Qed.
End pool.
End interleave.

(** ** Two writers, a reader and a sweep on one chunk *)
Module interleave_examples.
Import interleave.
Definition sweeper : evictor.Evictor :=
  {| evictor.cache := Some examples.c0; evictor.maxBytes := 1; evictor.interval := 1 |}.
Definition other : bytes := list_byte_of_string "PAYLOAD".
Definition ops : list (DiskCache * op) :=
  [(examples.c0, OpPut "b/k" examples.v1 0 examples.data0); (examples.c0, OpPut "b/k" examples.v1 0 other);
   (examples.c0, OpGet "b/k" examples.v1 0); (examples.c0, OpSweep sweeper)].
Definition calls (n t : nat) : list event := replicate n (EStep t NoFault).

(** The second writer overtakes the first, which then writes and renames
    while the reader has the second's file open and the sweep has begun. *)
Definition both_written : list event :=
  calls 2 0 ++ calls 4 1 ++ [ETick 5] ++ calls 1 2 ++ calls 1 0 ++ calls 4 3 ++ calls 1 0.
Definition all_done : list event := both_written ++ calls 3 3 ++ calls 3 2.
Definition pool_after (es : list event) : pool :=
  let s0 := start evictor.files_below id examples.disk0 ops in
  default s0 (@run _ _ pool_machine s0 es).

Lemma disk0_rand : NoDup (fs_rand examples.disk0).
Proof. apply (bool_decide_unpack _). vm_compute. exact I. Qed.

Lemma after_runs es :
  match @run _ _ pool_machine (start evictor.files_below id examples.disk0 ops) es with Some _ => true | None => false end = true ->
  @run _ _ pool_machine (start evictor.files_below id examples.disk0 ops) es = Some (pool_after es).
Proof. unfold pool_after. by destruct (@run _ _ pool_machine _ es). Qed.

Lemma both_written_runs :
  @run _ _ pool_machine (start evictor.files_below id examples.disk0 ops) both_written = Some (pool_after both_written).
Proof. apply after_runs. vm_compute. reflexivity. Qed.

Lemma all_done_runs :
  @run _ _ pool_machine (start evictor.files_below id examples.disk0 ops) all_done = Some (pool_after all_done).
Proof. apply after_runs. vm_compute. reflexivity. Qed.
End interleave_examples.

Lemma concurrent_files_witness :
  interleave.contents examples.disk0 interleave_examples.ops examples.path0 examples.data0.
Proof.
  apply (interleave.concurrent_files evictor.files_below id examples.disk0 interleave_examples.ops
    interleave_examples.both_written (interleave_examples.pool_after interleave_examples.both_written)).
  - exact examples.disk0_wf.
  - exact interleave_examples.disk0_rand.
  - exact interleave_examples.both_written_runs.
  - vm_compute. reflexivity.
  - vm_compute. reflexivity.
Defined.

Lemma concurrent_answers_witness :
  let s := interleave_examples.pool_after interleave_examples.all_done in
  interleave.answers examples.disk0 interleave_examples.ops (interleave.pl_fs s)
    (interleave.OpGet "b/k" examples.v1 0) (interleave.Got (inr (Some (4%nat, 7)))).
Proof.
  refine (proj1 (interleave.concurrent_answers evictor.files_below id examples.disk0 interleave_examples.ops
    interleave_examples.all_done (interleave_examples.pool_after interleave_examples.all_done) _ _ _) 2%nat examples.c0 _ _ _ _).
  - exact examples.disk0_wf.
  - exact interleave_examples.disk0_rand.
  - exact interleave_examples.all_done_runs.
  - reflexivity.
  - vm_compute. reflexivity.
Defined.

Lemma concurrent_returns_witness :
  Acc interleave.stepped (interleave_examples.pool_after interleave_examples.both_written) /\
  exists es' s', @run _ _ interleave.pool_machine (interleave_examples.pool_after interleave_examples.both_written) es' = Some s' /\
    Forall interleave.survivable es' /\ length (interleave.pl_threads s') = 4%nat /\
    forall t m, interleave.pl_threads s' !! t = Some m -> exists out, m = Ret out.
Proof.
  apply (interleave.concurrent_returns evictor.files_below id examples.disk0 interleave_examples.ops
    interleave_examples.both_written (interleave_examples.pool_after interleave_examples.both_written)).
  - exact interleave_examples.both_written_runs.
  - vm_compute. repeat constructor.
Defined.
