(* ===== verification/Fetcher.v ===== *)
(** * Resolving a request (services/fetcher.go)

    The sequential parts of the fetcher: its configuration, the metadata
    lookup, the resolution of a range against the object's size, the response
    headers, the chunk grid, and the upstream request of one chunk. *)
From S2P Require Import Prelude GoStd GoTime Http Request HeadCache Budget Singleflight DiskCache Flights.

(** [http.TimeFormat] for the years 0 to 9999 it has room for. *)
Module httptime.
Definition weekday (day : Z) : string :=
  nth (Z.to_nat ((day + 4) mod 7)) ["Sun"; "Mon"; "Tue"; "Wed"; "Thu"; "Fri"; "Sat"]%string "".
Definition month (m : Z) : string :=
  nth (Z.to_nat (m - 1))
    ["Jan"; "Feb"; "Mar"; "Apr"; "May"; "Jun"; "Jul"; "Aug"; "Sep"; "Oct"; "Nov"; "Dec"]%string "".
Definition Format (t : Z) : string :=
  let s := t / rfc3339.second in
  let day := s / 86400 in
  let '(y, m, d) := civil.of_days day in
  let sod := s mod 86400 in
  weekday day +:+ ", " +:+ rfc3339.digits 2 d +:+ " " +:+ month m +:+ " " +:+ rfc3339.digits 4 y +:+ " " +:+
  rfc3339.digits 2 (sod / 3600) +:+ ":" +:+ rfc3339.digits 2 (sod / 60 mod 60) +:+ ":" +:+
  rfc3339.digits 2 (sod mod 60) +:+ " GMT".

Example Format_1 : Format 784111777000000000 = "Sun, 06 Nov 1994 08:49:37 GMT".
Proof. reflexivity. Qed.
End httptime.

Module fetcher.

(** ** Configuration *)

(** Lines 77-92: the parts of the struct that hold no third-party client;
    the disk cache and the readahead are modelled in files of their own. *)
Record Fetcher := {
  bucket : string;
  chunkSize : Z;
  workers : Z;
  sf : sf.singleflight;
  budget : budget.chunkBudget;
  chunkFetchTimeout : Z;
  writeGuardTimeout : Z;
  heads : heads.headCache;
  nflights : Z;
}.

(** Lines 128-138. *)
Definition validateFetcherConfig (chunkSize fetchConcurrency chunkFetchTimeout : Z) : option goerr :=
  if chunkSize <? 1 then
    Some (ErrorString ("CHUNK_SIZE must be positive, got " +:+ strconv.FormatInt chunkSize))
  else if fetchConcurrency <? 1 then
    Some (ErrorString ("FETCH_CONCURRENCY must be at least 1, got " +:+
      strconv.FormatInt fetchConcurrency +:+ ": it is the number of chunk buffers allowed in memory, " +:+
      "and with none every cache miss fails"))
  else if chunkFetchTimeout <=? 0 then
    Some (ErrorString ("CHUNK_FETCH_TIMEOUT must be positive, got " +:+ duration.String_ chunkFetchTimeout))
  else None.

(** Lines 98-120, the flags being arguments; [log.Fatal] is [inl]. *)
Definition NewFetcher (bucket : string) (chunkSize workers conc timeout headTTL : Z) : goerr + Fetcher :=
  if String.eqb bucket "" then inl (ErrorString "AWS_BUCKET is required")
  else
    match validateFetcherConfig chunkSize conc timeout with
    | Some e => inl e
    | None =>
        match budget.newChunkBudget conc with
        | None => inl (ErrorString "panic: makechan: size out of range")
        | Some b =>
            inr {| bucket := bucket; chunkSize := chunkSize; workers := workers;
                   sf := sf.newSingleflight; budget := b; chunkFetchTimeout := timeout;
                   writeGuardTimeout := timeout ÷₆₄ 2; heads := heads.newHeadCache headTTL;
                   nflights := 0 |}
        end
    end.

(** ** Metadata *)

(** What one lookup meets: the clock at the first read, S3's answer, the
    clock when it is stored, and the map iterations of [headCache.put]. *)
Record head_env := {
  he_now : Z;
  he_upstream : goerr + HeadObjectOutput;
  he_put : Z;
  he_it1 : list (string * Z);
  he_it2 : list string;
}.

(** Lines 149-151. *)
Definition head_cached (now : Z) (key : string) (h : heads.headCache) : option HeadObjectOutput :=
  match heads.get now key h with (Some out, true) => Some out | _ => None end.

(** Lines 152-164, once S3 has answered; other requests may have changed the
    cache since it was asked. *)
Definition head_asked (env : head_env) (key : string) (h : heads.headCache)
    : heads.headCache * (goerr + HeadObjectOutput) :=
  match he_upstream env with
  | inl err =>
      match fst (heads.get (he_now env) key h) with
      | Some stale => (h, inr stale)
      | None => (h, inl err)
      end
  | inr out => (heads.put (he_it1 env) (he_it2 env) (he_put env) key out h, inr out)
  end.

(** Lines 148-165 undisturbed, with whether S3 was asked. *)
Definition headObject (env : head_env) (key : string) (h : heads.headCache)
    : heads.headCache * (goerr + HeadObjectOutput) * bool :=
  match head_cached (he_now env) key h with
  | Some out => (h, inr out, false)
  | None => let '(h, r) := head_asked env key h in (h, r, true)
  end.

(** Lines 174-186. *)
Definition setObjectHeaders (out : HeadObjectOutput) (w : http.ResponseWriter) : http.ResponseWriter :=
  let ct := match ContentType out with
            | Some c => if negb (String.eqb c "") && negb (String.eqb c "binary/octet-stream")
                        then c else "application/octet-stream"
            | None => "application/octet-stream"
            end in
  let w := http.HeaderSet "Content-Type" ct w in
  let w := match ETag out with Some e => http.HeaderSet "ETag" e w | None => w end in
  match LastModified out with
  | Some t => http.HeaderSet "Last-Modified" (httptime.Format t) w
  | None => w
  end.

(** Lines 190-202, once the metadata is there. *)
Definition Head (md : goerr + HeadObjectOutput) (w : http.ResponseWriter) : http.ResponseWriter * option goerr :=
  match md with
  | inl err => (w, Some err)
  | inr out =>
      let w := match ContentLength out with
               | Some n => http.HeaderSet "Content-Length" (strconv.FormatInt n) w
               | None => w
               end in
      let w := setObjectHeaders out w in
      let w := http.HeaderSet "Accept-Ranges" "bytes" w in
      (http.WriteHeader http.StatusOK w, None)
  end.

(** ** Ranges *)

(** Lines 230-245: [None] is the 416. *)
Definition resolve (start end_ suffixLen : Z) (rangeRequested : bool) (totalSize : Z) : option (Z * Z) :=
  let '(start, end_) :=
    if 0 <? suffixLen then
      let start := totalSize ⊖ suffixLen in
      (if start <? 0 then 0 else start, totalSize ⊖ 1)
    else (start, end_) in
  if rangeRequested && (totalSize <=? start) then None
  else
    Some (start, if (end_ <? 0) || (totalSize ⊖ 1 <? end_) then totalSize ⊖ 1 else end_).

(** What is left to stream: the arguments of [serveAligned]. *)
Record stream := {
  st_key : string; st_v : objVersion; st_start : Z; st_end : Z; st_total : Z; st_ranged : bool;
}.

(** The range Content-Range reports for an unsatisfiable request. *)
Definition startOf (start suffixLen totalSize : Z) : Z :=
  if 0 <? suffixLen then
    let s := totalSize ⊖ suffixLen in if s <? 0 then 0 else s
  else start.

(** Lines 218-262, once the metadata is there: a finished response, or
    headers and what to stream. *)
Definition Get (md : goerr + HeadObjectOutput) (key : string) (start end_ suffixLen : Z) (rangeRequested : bool)
    (w : http.ResponseWriter) : http.ResponseWriter * (option goerr + stream) :=
  match md with
  | inl err => (httpErrorFromS3 w err, inl (Some err))
  | inr hd =>
      match ContentLength hd with
      | None =>
          (http.Error "upstream missing Content-Length" http.StatusBadGateway w,
           inl (Some (ErrorString "upstream missing Content-Length")))
      | Some totalSize =>
          match resolve start end_ suffixLen rangeRequested totalSize with
          | None =>
              let w := http.HeaderSet "Content-Range" ("bytes */" +:+ strconv.FormatInt totalSize) w in
              (http.Error "range not satisfiable" http.StatusRequestedRangeNotSatisfiable w,
               inl (Some (ErrorString ("range not satisfiable: start=" +:+
                 strconv.FormatInt (startOf start suffixLen totalSize) +:+ " size=" +:+
                 strconv.FormatInt totalSize))))
          | Some (start, end_) =>
              let w := setObjectHeaders hd w in
              if totalSize =? 0 then
                let w := http.HeaderSet "Content-Length" "0" w in
                let w := http.HeaderSet "Accept-Ranges" "bytes" w in
                (http.WriteHeader http.StatusOK w, inl None)
              else
                (w, inr {| st_key := key;
                           st_v := {| etag := default "" (ETag hd);
                                      modified := default time_zero (LastModified hd) |};
                           st_start := start; st_end := end_; st_total := totalSize;
                           st_ranged := rangeRequested |})
          end
      end
  end.

(** ** The chunk grid (lines 272-276 and 320-327) *)

Definition firstChunkIdx (chunkSize : Z) (st : stream) : Z := st_start st ÷₆₄ chunkSize.
Definition lastChunkIdx (chunkSize : Z) (st : stream) : Z := st_end st ÷₆₄ chunkSize.
Definition nChunks (chunkSize : Z) (st : stream) : Z :=
  (lastChunkIdx chunkSize st ⊖ firstChunkIdx chunkSize st) ⊕ 1.
Definition window (workers : Z) : Z := if workers <? 4 then 4 else workers.
Definition chunkSpan (chunkSize : Z) (st : stream) (idx : Z) : Z * Z :=
  let absChunkIdx := firstChunkIdx chunkSize st ⊕ idx in
  let cStart := absChunkIdx ⊗ chunkSize in
  let cEnd := (cStart ⊕ chunkSize) ⊖ 1 in
  (cStart, if (0 <? st_total st) && (st_total st ⊖ 1 <? cEnd) then st_total st ⊖ 1 else cEnd).

(** ** Response headers *)

(** Lines 654-663. *)
Definition writeRangeHeaders (contentRange contentType : string) (totalSize start end_ : Z)
    (w : http.ResponseWriter) : http.ResponseWriter :=
  let w := if negb (String.eqb contentRange "") then http.HeaderSet "Content-Range" contentRange w else w in
  let w := http.HeaderSet "Content-Length" (strconv.FormatInt ((end_ ⊖ start) ⊕ 1)) w in
  let w := if negb (String.eqb contentType "") then http.HeaderSet "Content-Type" contentType w else w in
  http.HeaderSet "Accept-Ranges" "bytes" w.

(** Lines 379-386: the status is committed. *)
Definition commit (st : stream) (w : http.ResponseWriter) : http.ResponseWriter :=
  let '(contentRange, status) :=
    if st_ranged st then
      ("bytes " +:+ strconv.FormatInt (st_start st) +:+ "-" +:+ strconv.FormatInt (st_end st) +:+
       "/" +:+ strconv.FormatInt (st_total st), http.StatusPartialContent)
    else ("", http.StatusOK) in
  http.WriteHeader status (writeRangeHeaders contentRange "" (st_total st) (st_start st) (st_end st) w).

(** Lines 584-587. *)
Definition dropValidatorHeaders (w : http.ResponseWriter) : http.ResponseWriter :=
  http.HeaderDel "Last-Modified" (http.HeaderDel "ETag" w).

(** ** The upstream request of a chunk *)

Record GetObjectInput := { in_Bucket : string; in_Key : string; in_Range : string; in_IfMatch : option string }.

(** Lines 624-633: the request [openRange] makes. *)
Definition openRange (bucket key etag : string) (start end_ : Z) : GetObjectInput :=
  {| in_Bucket := bucket; in_Key := key;
     in_Range := "bytes=" +:+ strconv.FormatInt start +:+ "-" +:+ strconv.FormatInt end_;
     in_IfMatch := if negb (String.eqb etag "") then Some etag else None |}.

(** Lines 590-620, [s3] being what S3 answers to a request. *)
Definition download (s3 : GetObjectInput -> fl.upstream) (dctxErr : option goerr) (bucket key : string)
    (v : objVersion) (start end_ size : Z) (h : heads.headCache) : heads.headCache * (goerr + bytes) :=
  let r := s3 (openRange bucket key (etag v) start end_) in
  match r with
  | inl err =>
      (if errors.IsRequestFailure http.StatusPreconditionFailed err then heads.drop key h else h, inl err)
  | inr _ => (h, fl.read_chunk size r dctxErr)
  end.

(** ** Ranges as RFC 9110 reads them *)

Inductive byte_range := From (s : Z) | Between (s e : Z) | Last (n : Z).

(** The numbers [parseRange] returns, as the form of the header. *)
Definition form_of (start end_ suffixLen : Z) : byte_range :=
  if 0 <? suffixLen then Last suffixLen else if end_ <? 0 then From start else Between start end_.

(** The first and last byte a range selects of an object of [total] bytes;
    [None] is an unsatisfiable range. *)
Definition selects (r : byte_range) (total : Z) : option (Z * Z) :=
  match r with
  | From s => if s <? total then Some (s, total - 1) else None
  | Between s e => if s <? total then Some (s, Z.min e (total - 1)) else None
  | Last n => if 0 <? total then Some (Z.max 0 (total - n), total - 1) else None
  end.

(** What a parsed header's numbers satisfy. *)
Definition parsed (start end_ suffixLen : Z) : Prop :=
  0 <= start <= int64_max /\ 0 <= suffixLen <= int64_max /\ -1 <= end_ <= int64_max /\
  (0 < suffixLen -> start = 0 /\ end_ = -1) /\ (0 <= end_ -> start <= end_).

Lemma parseRange_parsed h s e n : parseRange h = inr (s, e, n) -> parsed s e n.
Proof.
  assert (int64_max = 9223372036854775807) as Hmax by done. unfold parsed.
  intros [|a v Ha Hm|a b v u Ha Hm Hb Hle|b v Hb Hv]%parseRange_sound.
  - lia.
  - pose proof (strconv.ParseInt_range _ _ (int_lit_ParseInt _ _ Ha)).
    pose proof (strconv.ParseInt_nonneg _ _ (int_lit_ParseInt _ _ Ha) Hm). lia.
  - pose proof (strconv.ParseInt_range _ _ (int_lit_ParseInt _ _ Hb)).
    pose proof (strconv.ParseInt_nonneg _ _ (int_lit_ParseInt _ _ Ha) Hm). lia.
  - pose proof (strconv.ParseInt_range _ _ (int_lit_ParseInt _ _ Hb)). lia.
Qed.

Lemma resolve_selects s e n total :
  parsed s e n -> 0 <= total <= int64_max ->
  resolve s e n true total = selects (form_of s e n) total.
Proof.
  intros (Hs & Hn & He & Hsuf & Hle) Ht. assert (int64_max = 9223372036854775807) as Hmax by done.
  unfold resolve, form_of. rewrite (wrap64_small (total - 1)), (wrap64_small (total - n))
    by (unfold int64_min; lia).
  destruct (Z.ltb_spec 0 n) as [Hn0|Hn0]; simpl.
  - destruct Hsuf as [-> ->]; [done|]. unfold selects.
    destruct (Z.ltb_spec (total - n) 0), (Z.ltb_spec 0 total); simpl; zcases; simpl; try lia;
      try done; repeat f_equal; lia.
  - destruct (Z.ltb_spec e 0); simpl; zcases; simpl; try lia; try done; repeat f_equal; lia.
Qed.

Lemma selects_bounds r total a b :
  (match r with From s => 0 <= s | Between s e => 0 <= s <= e | Last n => 0 < n end) ->
  selects r total = Some (a, b) -> 0 <= a <= b /\ b < total.
Proof. destruct r; unfold selects; zcases; intros Hr [= <- <-]; lia. Qed.

Lemma form_ok s e n : parsed s e n ->
  match form_of s e n with From s => 0 <= s | Between s e => 0 <= s <= e | Last n => 0 < n end.
Proof. intros (? & ? & ? & ? & ?). unfold form_of. zcases; simpl; lia. Qed.

Lemma resolve_plain total : 0 <= total <= int64_max -> resolve 0 (-1) 0 false total = Some (0, total - 1).
Proof.
  intros Ht. unfold resolve. simpl. rewrite wrap64_small; [done|].
  assert (int64_max = 9223372036854775807) by done. unfold int64_min. lia.
Qed.

(** C24: every accepted Range header is resolved the way RFC 9110 reads it:
    the bytes selected are clamped to the object, a range that starts past
    its end (or any suffix of an empty object) is unsatisfiable, and what is
    selected lies inside the object. *)
Theorem resolve_rfc9110 h s e n total :
  parseRange h = inr (s, e, n) -> 0 <= total <= int64_max ->
  resolve s e n true total = selects (form_of s e n) total /\
  forall a b, resolve s e n true total = Some (a, b) -> 0 <= a <= b /\ b < total.
Proof.
  intros Hp%parseRange_parsed Ht. pose proof (resolve_selects s e n total Hp Ht) as Hr.
  split; [done|]. intros a b. rewrite Hr. apply selects_bounds. by apply form_ok.
Qed.

Lemma resolve_rfc9110_witness :
  parseRange "bytes=-500" = inr (0, -1, 500) /\
  resolve 0 (-1) 500 true 300 = selects (Last 500) 300 /\ selects (Last 500) 300 = Some (0, 299).
Proof.
  split; [reflexivity|]. split; [|reflexivity].
  refine (proj1 (resolve_rfc9110 "bytes=-500" 0 (-1) 500 300 eq_refl _)). vm_compute.
  split; discriminate.
Defined.

(** ** The chunk grid *)

(** A stream [Get] can ask for, of an object small enough for the last chunk
    boundary to be a number. *)
Definition stream_ok (cs : Z) (st : stream) : Prop :=
  0 < cs /\ 0 <= st_start st <= st_end st /\ st_end st < st_total st /\ st_total st + cs <= int64_max.

Lemma div_bounds a b : 0 <= a -> 0 < b -> 0 <= a / b <= a /\ b * (a / b) <= a < b * (a / b) + b.
Proof.
  intros Ha Hb. pose proof (Z.div_mod a b ltac:(lia)). pose proof (Z.mod_pos_bound a b Hb).
  pose proof (Z.div_pos a b Ha Hb). nia.
Qed.

Lemma chunk_indices cs st :
  stream_ok cs st ->
  firstChunkIdx cs st = st_start st / cs /\ lastChunkIdx cs st = st_end st / cs /\
  nChunks cs st = st_end st / cs - st_start st / cs + 1 /\ 1 <= nChunks cs st.
Proof.
  intros (Hc & Hs & He & Ht). assert (int64_max = 9223372036854775807) as Hmax by done.
  destruct (div_bounds (st_start st) cs ltac:(lia) Hc) as [Hq1 _].
  destruct (div_bounds (st_end st) cs ltac:(lia) Hc) as [Hq2 _].
  pose proof (Z.div_le_mono (st_start st) (st_end st) cs Hc ltac:(lia)).
  assert (firstChunkIdx cs st = st_start st / cs) as H1.
  { unfold firstChunkIdx. rewrite quot_div_nonneg by lia. apply wrap64_small. unfold int64_min; lia. }
  assert (lastChunkIdx cs st = st_end st / cs) as H2.
  { unfold lastChunkIdx. rewrite quot_div_nonneg by lia. apply wrap64_small. unfold int64_min; lia. }
  split; [done|]. split; [done|]. unfold nChunks. rewrite H1, H2.
  rewrite (wrap64_small (_ - _)), wrap64_small by (unfold int64_min; lia). lia.
Qed.

Lemma chunkSpan_eq cs st idx :
  stream_ok cs st -> 0 <= idx < nChunks cs st ->
  let a := (st_start st / cs + idx) * cs in
  chunkSpan cs st idx = (a, Z.min (a + cs - 1) (st_total st - 1)) /\ 0 <= a <= st_end st.
Proof.
  intros Hok Hi a. destruct (chunk_indices cs st Hok) as (H1 & H2 & H3 & _).
  pose proof Hok as (Hc & Hs & He & Ht). assert (int64_max = 9223372036854775807) as Hmax by done.
  destruct (div_bounds (st_start st) cs ltac:(lia) Hc) as [? _].
  destruct (div_bounds (st_end st) cs ltac:(lia) Hc) as [? Hend].
  assert (0 <= a <= st_end st) as Ha by (unfold a; rewrite H3 in Hi; nia).
  split; [|done]. unfold chunkSpan. rewrite H1.
  rewrite (wrap64_small (_ + idx)) by (unfold int64_min; lia). fold a.
  rewrite (wrap64_small a), (wrap64_small (a + cs)) by (unfold int64_min; lia).
  rewrite (wrap64_small (a + cs - 1)), (wrap64_small (st_total st - 1)) by (unfold int64_min; lia).
  destruct (Z.ltb_spec 0 (st_total st)); [|lia]. simpl. f_equal. zcases; lia.
Qed.

(** C26: the chunk grid tiles the request: the first chunk holds its first
    byte, the last its last, each chunk starts where the one before ended,
    on a multiple of the chunk size whatever the request, and none reaches
    past the end of the object or is longer than a chunk. *)
Theorem chunk_grid cs st :
  stream_ok cs st ->
  1 <= nChunks cs st /\
  (chunkSpan cs st 0).1 <= st_start st <= (chunkSpan cs st 0).2 /\
  (chunkSpan cs st (nChunks cs st - 1)).1 <= st_end st <= (chunkSpan cs st (nChunks cs st - 1)).2 /\
  forall idx, 0 <= idx < nChunks cs st ->
    let '(a, b) := chunkSpan cs st idx in
    0 <= a <= b /\ b < st_total st /\ b - a < cs /\ a mod cs = 0 /\
    (idx + 1 < nChunks cs st -> (chunkSpan cs st (idx + 1)).1 = b + 1).
Proof.
  intros Hok. destruct (chunk_indices cs st Hok) as (H1 & H2 & H3 & Hn).
  pose proof Hok as (Hc & Hs & He & Ht).
  destruct (div_bounds (st_start st) cs ltac:(lia) Hc) as [? Hq1].
  destruct (div_bounds (st_end st) cs ltac:(lia) Hc) as [? Hq2].
  split; [done|]. split; [|split].
  - destruct (chunkSpan_eq cs st 0 Hok ltac:(lia)) as [-> ?]. simpl. rewrite Z.add_0_r. nia.
  - destruct (chunkSpan_eq cs st (nChunks cs st - 1) Hok ltac:(lia)) as [-> ?]. simpl.
    rewrite H3. replace (st_start st / cs + (st_end st / cs - st_start st / cs + 1 - 1)) with (st_end st / cs) by lia.
    nia.
  - intros idx Hi. destruct (chunkSpan_eq cs st idx Hok Hi) as [-> Ha]. cbn zeta.
    split; [lia|]. split; [lia|]. split; [lia|]. split; [apply Z.mod_mul; lia|]. intros Hi'.
    destruct (chunkSpan_eq cs st (idx + 1) Hok ltac:(lia)) as [-> Ha']. simpl in *.
    assert ((st_start st / cs + (idx + 1)) * cs = (st_start st / cs + idx) * cs + cs) as Hx by ring.
    rewrite Hx in *. lia.
Qed.

Lemma chunk_grid_witness :
  1 <= nChunks 4 {| st_key := "k"; st_v := noVersion; st_start := 5; st_end := 13; st_total := 15; st_ranged := true |} /\
  chunkSpan 4 {| st_key := "k"; st_v := noVersion; st_start := 5; st_end := 13; st_total := 15; st_ranged := true |} 2
    = (12, 14).
Proof.
  split; [|reflexivity].
  refine (proj1 (chunk_grid 4 {| st_key := "k"; st_v := noVersion; st_start := 5; st_end := 13;
    st_total := 15; st_ranged := true |} _)).
  unfold stream_ok. simpl. unfold int64_max. lia.
Defined.

(** ** Requests to S3 *)

Lemma FormatInt_lit n : 0 <= n <= int64_max -> int_lit (strconv.FormatInt n) n.
Proof.
  intros Hn. destruct (strconv.FormatInt_nonneg n) as (? & ? & ?); [lia|].
  apply lit_plain; [done|done|done|lia].
Qed.

(** The upstream request of a chunk asks for exactly its bytes: its Range
    header reads back as the chunk's bounds, and it is conditional on the
    version the request was resolved against whenever that is known. *)
Theorem openRange_roundtrip b key et start end_ :
  0 <= start <= end_ -> end_ <= int64_max ->
  let req := openRange b key et start end_ in
  parseRange (in_Range req) = inr (start, end_, 0) /\
  in_Bucket req = b /\ in_Key req = key /\
  in_IfMatch req = (if decide (et = "") then None else Some et).
Proof.
  intros Hs He req. split.
  - apply parseRange_complete. change (in_Range req) with
      ("bytes=" +:+ strconv.FormatInt start +:+ String "-" (strconv.FormatInt end_)).
    apply rh_closed; [apply FormatInt_lit; lia| |apply FormatInt_lit; lia|lia].
    apply strconv.all_digits_no_byte; [done|]. apply strconv.FormatInt_nonneg. lia.
  - split; [done|]. split; [done|]. simpl. destruct (String.eqb_spec et "") as [->|Hne].
    + by rewrite decide_True.
    + by rewrite decide_False.
Qed.

Lemma openRange_roundtrip_witness :
  parseRange (in_Range (openRange "b" "k" "e" 4194304 8388607)) = inr (4194304, 8388607, 0).
Proof.
  refine (proj1 (openRange_roundtrip "b" "k" "e" 4194304 8388607 _ _)); vm_compute;
    first [split; discriminate|discriminate].
Defined.

(** C28: a chunk is never truncated: [download] succeeds only with the full
    [size] bytes the upstream sent, and reports anything less as an error;
    when the object has changed the cached metadata is forgotten, so the next
    lookup asks S3. *)
Theorem download_sound s3 dctxErr b key v start end_ size h h' r :
  0 <= size -> download s3 dctxErr b key v start end_ size h = (h', r) ->
  let req := openRange b key (etag v) start end_ in
  match r with
  | inr buf => h' = h /\ Z.of_nat (length buf) = size /\
      exists body e rest, s3 req = inr (body, e) /\ body = buf ++ rest
  | inl err => 
      (s3 req = inl err /\
       (errors.IsRequestFailure http.StatusPreconditionFailed err = true ->
          forall now, heads.get now key h' = (None, false))) \/
      (h' = h /\ exists body e, s3 req = inr (body, e) /\ Z.of_nat (length body) < size)
  end.
Proof.
  intros Hsz. unfold download. set (req := openRange b key (etag v) start end_).
  destruct (s3 req) as [err|[body e]] eqn:Hs.
  - intros [= <- <-]. left. split; [done|]. intros -> now. unfold heads.get, heads.drop. simpl.
    by rewrite lookup_delete_eq.
  - unfold fl.read_chunk. destruct (Z.ltb_spec (Z.of_nat (length body)) size) as [Hlt|Hge].
    + destruct dctxErr; intros [= <- <-]; right; split; eauto.
    + intros [= <- <-]. split; [done|]. split; [rewrite length_take; lia|].
      exists body, e, (List.skipn (Z.to_nat size) body). split; [done|]. symmetry. apply take_drop.
Qed.

Lemma download_sound_witness :
  exists buf, download (fun _ => inr (list_byte_of_string "abcd", None)) None "b" "k" noVersion 0 3 4
    (heads.newHeadCache 60) = (heads.newHeadCache 60, inr buf) /\ Z.of_nat (length buf) = 4.
Proof.
  eexists. split; [reflexivity|].
  refine (proj1 (proj2 (download_sound (fun _ => inr (list_byte_of_string "abcd", None)) None "b" "k"
    noVersion 0 3 4 (heads.newHeadCache 60) _ (inr _) _ eq_refl))).
  vm_compute. discriminate.
Defined.

(** ** Configuration and metadata *)

(** The configuration check accepts exactly the settings under which a
    miss can be served, and the fetcher built from accepted ones starts with
    a budget of at least one unit, nothing in flight, and a write guard of
    half the fetch deadline. *)
Theorem NewFetcher_valid bkt cs wk conc timeout httl :
  int64_ok timeout ->
  (is_Some (validateFetcherConfig cs conc timeout) <-> cs < 1 \/ conc < 1 \/ timeout <= 0) /\
  match NewFetcher bkt cs wk conc timeout httl with
  | inl _ => bkt = "" \/ cs < 1 \/ conc < 1 \/ timeout <= 0
  | inr f =>
      chunkSize f = cs /\ 1 <= cs /\ budget.wf (budget f) /\
      budget.units_cap (budget f) = conc /\ 1 <= conc /\ budget.inUse (budget f) = 0 /\
      sf.inflight (sf f) = 0 /\ writeGuardTimeout f = timeout / 2 /\
      (forall now key, heads.get now key (heads f) = (None, false))
  end.
Proof.
  unfold int64_ok. intros Ht. split.
  { unfold validateFetcherConfig. zcases; split; intros Hx; try lia; try done; by destruct Hx. }
  unfold NewFetcher. destruct (String.eqb_spec bkt ""); [by left|].
  unfold validateFetcherConfig, budget.newChunkBudget. zcases; simpl; try lia.
  split; [done|]. split; [done|]. split.
  { repeat split; simpl; try lia; [done|constructor]. }
  split; [done|]. split; [done|]. split; [done|]. split; [done|]. split; [|done].
  rewrite quot_div_nonneg by lia. apply wrap64_small.
  destruct (div_bounds timeout 2) as [? _]; [lia|lia|]. unfold int64_min in *. lia.
Qed.

Lemma NewFetcher_valid_witness :
  exists f, NewFetcher "b" 4194304 8 32 90000000000 60 = inr f /\ writeGuardTimeout f = 45000000000.
Proof.
  eexists. split; [reflexivity|].
  assert (int64_ok 90000000000) as Ht by (vm_compute; split; discriminate).
  pose proof (proj2 (NewFetcher_valid "b" 4194304 8 32 90000000000 60 Ht)) as Hf.
  destruct Hf as (_ & _ & _ & _ & _ & _ & _ & Hg & _). exact Hg.
Defined.

(** C39: metadata is fresh or the upstream is down: an entry younger than the
    TTL is served without asking; otherwise S3 is asked and its answer is
    what is returned and stored; an older entry is served only when S3
    fails, and an error only when there is no entry at all. *)
Theorem headObject_sources env key h h' r asked :
  headObject env key h = (h', r, asked) ->
  match r with
  | inr o =>
      (asked = false /\ h' = h /\ heads.get (he_now env) key h = (Some o, true)) \/
      (asked = true /\ he_upstream env = inr o /\
       h' = heads.put (he_it1 env) (he_it2 env) (he_put env) key o h) \/
      (asked = true /\ h' = h /\ heads.get (he_now env) key h = (Some o, false) /\
       exists err, he_upstream env = inl err)
  | inl err => asked = true /\ h' = h /\ he_upstream env = inl err /\ heads.m h !! key = None
  end.
Proof.
  unfold headObject, head_cached, head_asked. destruct (heads.get (he_now env) key h) as [[o|] [|]] eqn:Hg; simpl.
  - intros [= <- <- <-]. by left.
  - destruct (he_upstream env) as [err|o'] eqn:Hu; intros [= <- <- <-]; right; [right|by left].
    split; [done|]. split; [done|]. split; [done|by exists err].
  - unfold heads.get in Hg. by destruct (heads.m h !! key).
  - unfold heads.get in Hg. destruct (heads.m h !! key) eqn:Hm; [done|].
    destruct (he_upstream env) as [err|o'] eqn:Hu; intros [= <- <- <-]; [done|right; by left].
Qed.

Module head_examples.
Definition o : HeadObjectOutput :=
  {| ContentLength := Some 10; ContentType := None; ETag := Some "e"; LastModified := None |}.
Definition h : heads.headCache :=
  {| heads.m := {["k" := {| heads.out := o; heads.at_ := 0 |}]}; heads.ttl := 60; heads.cap := 8192 |}.
Definition env : head_env :=
  {| he_now := 100; he_upstream := inl DeadlineExceeded; he_put := 100; he_it1 := []; he_it2 := [] |}.
End head_examples.

(** An outage with an expired entry. *)
Lemma headObject_sources_witness :
  headObject head_examples.env "k" head_examples.h = (head_examples.h, inr head_examples.o, true) /\
  exists err, he_upstream head_examples.env = inl err.
Proof.
  split; [reflexivity|].
  destruct (headObject_sources head_examples.env "k" head_examples.h head_examples.h
    (inr head_examples.o) true eq_refl) as [(Hf & _)|[(_ & Hu & _)|(_ & _ & _ & He)]].
  - discriminate Hf.
  - discriminate Hu.
  - exact He.
Defined.

(** ** [Get] *)

Definition untouched (w : http.ResponseWriter) : Prop :=
  http.w_hdr w = ∅ /\ http.w_sent w = None /\ http.w_body w = [].

(** The headers [setObjectHeaders] adds, and nothing else. *)
Lemma setObjectHeaders_frame out w :
  http.w_sent (setObjectHeaders out w) = http.w_sent w /\
  http.w_body (setObjectHeaders out w) = http.w_body w /\
  http.w_fault (setObjectHeaders out w) = http.w_fault w /\
  http.w_flush (setObjectHeaders out w) = http.w_flush w /\
  (forall k, k <> "Content-Type" -> k <> "ETag" -> k <> "Last-Modified" ->
     http.w_hdr (setObjectHeaders out w) !! k = http.w_hdr w !! k).
Proof.
  unfold setObjectHeaders. destruct (ETag out), (LastModified out); simpl; repeat split; try done;
    intros k H1 H2 H3; by rewrite ?lookup_insert_ne.
Qed.

Lemma setObjectHeaders_etag out w :
  http.w_hdr (setObjectHeaders out w) !! "ETag" =
    match ETag out with Some e => Some e | None => http.w_hdr w !! "ETag" end.
Proof.
  unfold setObjectHeaders. destruct (ETag out), (LastModified out); simpl;
    by rewrite ?(lookup_insert_ne _ "Last-Modified"), ?lookup_insert_eq, ?(lookup_insert_ne _ "Content-Type").
Qed.

Lemma Error_status msg code w : http.w_sent w = None -> http.status (http.Error msg code w) = Some code.
Proof. intros Hs. unfold http.status. by rewrite http.Error_sent. Qed.

Lemma Error_header msg code w k :
  http.w_sent w = None -> k <> "Content-Length" -> k <> "Content-Type" -> k <> "X-Content-Type-Options" ->
  http.sent_header k (http.Error msg code w) = http.w_hdr w !! k.
Proof.
  intros Hs H1 H2 H3. unfold http.sent_header. rewrite http.Error_sent by done. simpl.
  by rewrite !lookup_insert_ne, lookup_delete_ne.
Qed.

(** The statuses [httpErrorFromS3] maps an upstream error to. *)
Definition s3_status (err : goerr) : Z :=
  let msg := errors.Error err in
  if strings.Contains msg "NoSuchKey" || strings.Contains msg "NotFound"
     || strings.Contains msg "status code: 404" then 404
  else if strings.Contains msg "Forbidden" || strings.Contains msg "status code: 403" then 403 else 502.

Lemma httpErrorFromS3_response w err :
  http.w_sent w = None ->
  http.status (httpErrorFromS3 w err) = Some (s3_status err) /\
  forall k, k <> "Content-Length" -> k <> "Content-Type" -> k <> "X-Content-Type-Options" ->
    http.sent_header k (httpErrorFromS3 w err) = http.w_hdr w !! k.
Proof.
  intros Hs. unfold httpErrorFromS3, s3_status.
  destruct (_ || _ || _); [|destruct (_ || _)];
    (split; [by apply Error_status|intros k ? ? ?; by apply Error_header]).
Qed.

(** A request line's numbers: parsed from a Range header, or absent. *)
Definition asked_for (start end_ suffixLen : Z) (ranged : bool) : Prop :=
  parsed start end_ suffixLen /\ (ranged = false -> start = 0 /\ end_ = -1 /\ suffixLen = 0).

(** The first and last byte a request is for, of an object of [total]. *)
Definition wanted (start end_ suffixLen : Z) (ranged : bool) (total : Z) : option (Z * Z) :=
  if ranged then selects (form_of start end_ suffixLen) total else Some (0, total - 1).

Lemma resolve_wanted s e n ranged total :
  asked_for s e n ranged -> 0 <= total <= int64_max ->
  resolve s e n ranged total = wanted s e n ranged total.
Proof.
  intros [Hp Hr] Ht. unfold wanted. destruct ranged; [by apply resolve_selects|].
  destruct Hr as (-> & -> & ->); [done|]. by apply resolve_plain.
Qed.

Lemma wanted_bounds s e n ranged total a b :
  asked_for s e n ranged -> 0 < total -> wanted s e n ranged total = Some (a, b) ->
  0 <= a <= b /\ b < total.
Proof.
  intros [Hp _] Ht. unfold wanted. destruct ranged; [by apply selects_bounds, form_ok|].
  intros [= <- <-]. lia.
Qed.

(** [Get] on every branch, for an untouched response and an object whose
    metadata the lookup returned: an upstream failure becomes 404, 403 or
    502; a missing length 502; an unsatisfiable range a 416 that names the
    object's size and claims no validators; an empty object an empty 200;
    and otherwise nothing is sent yet and exactly the wanted bytes, inside
    the object and of the version whose ETag the headers announce, are left
    to stream. *)
Lemma Get_outcome md key s e n ranged w w' r :
  untouched w -> asked_for s e n ranged ->
  (forall o t, md = inr o -> ContentLength o = Some t -> 0 <= t <= int64_max) ->
  Get md key s e n ranged w = (w', r) ->
  match md with
  | inl err => r = inl (Some err) /\ http.status w' = Some (s3_status err)
  | inr o =>
      match ContentLength o with
      | None => http.status w' = Some 502 /\ exists err, r = inl (Some err)
      | Some total =>
          match wanted s e n ranged total with
          | None =>
              (exists err, r = inl (Some err)) /\ http.status w' = Some 416 /\
              http.sent_header "Content-Range" w' = Some ("bytes */" +:+ strconv.FormatInt total) /\
              http.sent_header "ETag" w' = None /\ http.sent_header "Last-Modified" w' = None
          | Some (a, b) =>
              if total =? 0 then
                r = inl None /\ http.status w' = Some 200 /\ http.w_body w' = [] /\
                http.sent_header "Content-Length" w' = Some "0"
              else
                r = inr {| st_key := key;
                           st_v := {| etag := default "" (ETag o);
                                      modified := default time_zero (LastModified o) |};
                           st_start := a; st_end := b; st_total := total; st_ranged := ranged |} /\
                0 <= a <= b /\ b < total /\ http.w_sent w' = None /\ http.w_body w' = [] /\
                http.w_hdr w' !! "ETag" = ETag o
          end
      end
  end.
Proof.
  intros (Hhdr & Hsent & Hbody) Hask Hlen. unfold Get.
  destruct md as [err|o].
  { intros [= <- <-]. split; [done|]. by apply httpErrorFromS3_response. }
  destruct (ContentLength o) as [total|] eqn:Ho.
  2: { intros [= <- <-]. split; [by apply Error_status|eauto]. }
  specialize (Hlen o total eq_refl Ho). rewrite (resolve_wanted s e n ranged total Hask Hlen).
  destruct (wanted s e n ranged total) as [[a b]|] eqn:Hw.
  2: { intros [= <- <-]. split; [eauto|]. split; [by apply Error_status|].
       rewrite !Error_header by done. simpl. rewrite Hhdr.
       by rewrite lookup_insert_eq, !lookup_insert_ne. }
  destruct (setObjectHeaders_frame o w) as (Hf1 & Hf2 & _ & _ & Hf5).
  destruct (Z.eqb_spec total 0) as [->|Hne].
  - intros [= <- <-]. split; [done|]. unfold http.status, http.sent_header.
    rewrite http.WriteHeader_sent by (simpl; congruence). split; [done|]. split.
    + rewrite (proj1 (http.WriteHeader_frame _ _)). simpl. congruence.
    + simpl. by rewrite lookup_insert_ne, lookup_insert_eq.
  - intros [= <- <-]. split; [done|].
    destruct (wanted_bounds s e n ranged total a b Hask ltac:(lia) Hw) as [Hb1 Hb2].
    split; [done|]. split; [done|]. split; [congruence|]. split; [congruence|].
    rewrite setObjectHeaders_etag, Hhdr. by destruct (ETag o).
Qed.

End fetcher.
