(* ===== verification/Serve.v ===== *)
(** * Streaming a response (services/fetcher.go: serveAligned)

    One request's dispatcher, its fetch goroutines and its consumer, as a
    machine of atomic steps: chunks are fetched in parallel and in order of
    admission, and written to the client in order. *)
From S2P Require Import Prelude GoStd GoTime Http Request HeadCache Budget Chunk DiskCache Flights WriteGuard Fetcher.

Module serve.
Import chunk guard fetcher.

(** The dispatcher (lines 309-353), at chunk [idx] of its loop. *)
Inductive disp_pc :=
| DSelect (idx : nat)      (* before the select on slots, line 312 *)
| DCheck (idx : nat)       (* a slot is taken, before line 319 *)
| DWait (idx : nat)        (* in the select on admitted, line 347 *)
| DDone.

(** A fetch goroutine (lines 332-346): still running, and whether its
    [admitted] channel is closed. *)
Record goroutine := { running : bool; adm : bool }.

(** Why the response is aborted, and with which error. *)
Inductive abort_reason :=
| HeadCancelled (e : goerr)   (* lines 366-370 *)
| HeadFailed (e : goerr)      (* lines 372-377 *)
| MidStream (e : goerr).      (* lines 391-394, 401-407, 411-414, 417-420 *)

(** The consumer (lines 361-422). *)
Inductive cons_pc :=
| CRecv (i : nat)                       (* in the select for chunk i *)
| CWrite (i : nat) (cr : chunkResult)   (* inside writeChunk *)
| CAbort (a : abort_reason)             (* in abort, waiting for the goroutines *)
| CJoin                                 (* in wg.Wait, line 422 *)
| CDone (r : option goerr).

Record state := {
  slots : Z;
  disp : disp_pc;
  gors : gmap nat goroutine;
  pending : gmap nat chunkResult;
  cons : cons_pc;
  w : http.ResponseWriter;
  gd : writeGuard;
  gone : option goerr;
  closed : list nat;
  results : gmap nat chunkResult;
}.

Definition set_disp (d : disp_pc) (s : state) : state :=
  {| slots := slots s; disp := d; gors := gors s; pending := pending s; cons := cons s; w := w s;
     gd := gd s; gone := gone s; closed := closed s; results := results s |}.
Definition set_slots (n : Z) (s : state) : state :=
  {| slots := n; disp := disp s; gors := gors s; pending := pending s; cons := cons s; w := w s;
     gd := gd s; gone := gone s; closed := closed s; results := results s |}.
Definition set_gor (i : nat) (g : goroutine) (s : state) : state :=
  {| slots := slots s; disp := disp s; gors := <[i := g]> (gors s); pending := pending s;
     cons := cons s; w := w s; gd := gd s; gone := gone s; closed := closed s; results := results s |}.
Definition set_cons (c : cons_pc) (s : state) : state :=
  {| slots := slots s; disp := disp s; gors := gors s; pending := pending s; cons := c; w := w s;
     gd := gd s; gone := gone s; closed := closed s; results := results s |}.
Definition set_out (x : http.ResponseWriter) (g : writeGuard) (s : state) : state :=
  {| slots := slots s; disp := disp s; gors := gors s; pending := pending s; cons := cons s; w := x;
     gd := g; gone := gone s; closed := closed s; results := results s |}.
Definition set_pending (p : gmap nat chunkResult) (s : state) : state :=
  {| slots := slots s; disp := disp s; gors := gors s; pending := p; cons := cons s; w := w s;
     gd := gd s; gone := gone s; closed := closed s; results := results s |}.
Definition set_closed (l : list nat) (s : state) : state :=
  {| slots := slots s; disp := disp s; gors := gors s; pending := pending s; cons := cons s; w := w s;
     gd := gd s; gone := gone s; closed := l; results := results s |}.
(** [cancel()], and the end of the client's own context: the first wins. *)
Definition cancel (e : goerr) (s : state) : state :=
  {| slots := slots s; disp := disp s; gors := gors s; pending := pending s; cons := cons s; w := w s;
     gd := gd s; gone := Some (default e (gone s)); closed := closed s; results := results s |}.

Inductive event :=
| ECancel (e : goerr)                  (* the client's context ends *)
| EBreak (n : nat) (e : goerr)         (* the connection takes n more bytes *)
| ETake                                (* a slot is free *)
| EStop                                (* the dispatcher sees ctx.Done *)
| EEnd                                 (* the dispatcher's loop ends *)
| ESpawn
| EAdmit (i : nat)                     (* fetchChunk calls admit *)
| EAdmitted                            (* the dispatcher sees it *)
| EDeliver (i : nat) (r : goerr + chunkResult) (now : Z)
| ERecv (now : Z)                      (* the consumer receives its chunk *)
| ERecvGone                            (* or sees ctx.Done *)
| EWrite                               (* the chunk write returns *)
| EJoin                                (* wg.Wait returns *)
.

Section machine.
(** The configuration, the request, what open handles and buffers hold, and
    whether the connection supports write deadlines. *)
Context (cs wk : Z) (st : stream) (h : heap) (ok : bool).

Definition total_chunks : nat := Z.to_nat (nChunks cs st).

(** What goroutine [i] hands over (lines 335-345). *)
Definition delivered (i : nat) (r : goerr + chunkResult) : chunkResult :=
  let cr := match r with inl e => fl.errResult e | inr cr => cr end in
  {| data := data cr; file := file cr; section := section cr; fileSize := fileSize cr;
     err := err cr; chunkStart := (chunkSpan cs st (Z.of_nat i)).1; via := via cr; done := done cr |}.

Definition take_slot (s : state) : option state :=
  match disp s with
  | DSelect i =>
      if (i <? total_chunks)%nat && (slots s <? window wk) then
        Some (set_disp (DCheck i) (set_slots (slots s + 1) s))
      else None
  | _ => None
  end.

Definition stop (s : state) : option state :=
  match disp s with
  | DSelect i => if (i <? total_chunks)%nat then _ ← gone s; Some (set_disp DDone s) else None
  | DWait _ => _ ← gone s; Some (set_disp DDone s)
  | _ => None
  end.

Definition loop_end (s : state) : option state :=
  match disp s with
  | DSelect i => if (i <? total_chunks)%nat then None else Some (set_disp DDone s)
  | _ => None
  end.

(** Lines 319-346. *)
Definition spawn (s : state) : option state :=
  match disp s with
  | DCheck i =>
      match gone s with
      | Some _ => Some (set_disp DDone s)
      | None => Some (set_disp (DWait i) (set_gor i {| running := true; adm := false |} s))
      end
  | _ => None
  end.

Definition admit_chunk (i : nat) (s : state) : option state :=
  g ← gors s !! i;
  if running g && negb (adm g) then Some (set_gor i {| running := true; adm := true |} s) else None.

Definition see_admitted (s : state) : option state :=
  match disp s with
  | DWait i => g ← gors s !! i; if adm g then Some (set_disp (DSelect (S i)) s) else None
  | _ => None
  end.

(** Lines 335-346 once [fetchChunk] returns. *)
Definition deliver (i : nat) (r : goerr + chunkResult) (now : Z) (s : state) : option state :=
  g ← gors s !! i;
  if running g then
    let cr := delivered i r in
    Some {| slots := slots s; disp := disp s; gors := <[i := {| running := false; adm := true |}]> (gors s);
            pending := <[i := cr]> (pending s); cons := cons s; w := w s;
            gd := if buffered cr then hold now ok (gd s) else gd s; gone := gone s;
            closed := closed s; results := <[i := cr]> (results s) |}
  else None.

(** Entering [abort]: [cancel()] first. *)
Definition begin_abort (a : abort_reason) (s : state) : state := set_cons (CAbort a) (cancel Canceled s).

(** Lines 363-386 for chunk 0, 398-407 for the others. *)
Definition recv (now : Z) (s : state) : option state :=
  match cons s with
  | CRecv i =>
      cr ← pending s !! i;
      let s := set_pending (delete i (pending s)) s in
      match err cr with
      | Some e => Some (begin_abort (if (i =? 0)%nat then HeadFailed e else MidStream e) s)
      | None =>
          let x := if (i =? 0)%nat then commit st (w s) else w s in
          Some (set_cons (CWrite i cr) (set_out x (begin now ok (gd s)) s))
      end
  | _ => None
  end.

Definition recv_gone (s : state) : option state :=
  match cons s with
  | CRecv i =>
      e ← gone s;
      Some (begin_abort (if (i =? 0)%nat then HeadCancelled e else MidStream e) s)
  | _ => None
  end.

(** Lines 388-396 and 408-416. *)
Definition write (s : state) : option state :=
  match cons s with
  | CWrite i cr =>
      let '(x, e) := write_and_flush h (st_start st) (st_end st) cr (w s) in
      let s := set_out x (end_ (buffered cr) ok (gd s)) s in
      let s := set_closed (closed s ++ [i]) s in
      match e with
      | Some e => Some (begin_abort (MidStream e) s)
      | None =>
          if 0 <? slots s then
            Some (set_cons (if (S i <? total_chunks)%nat then CRecv (S i) else CJoin)
                    (set_slots (slots s - 1) s))
          else None
      end
  | _ => None
  end.

(** Lines 368-376: the response an abort leaves, after [cleanupPending]. *)
Definition abort_response (a : abort_reason) (x : http.ResponseWriter) : http.ResponseWriter * goerr :=
  match a with
  | HeadCancelled e => (http.Error "request cancelled" http.StatusBadGateway (dropValidatorHeaders x), e)
  | HeadFailed e => (httpErrorFromS3 (dropValidatorHeaders x) e, e)
  | MidStream e => (x, e)
  end.

Definition no_goroutine (s : state) : bool :=
  match disp s with DDone => true | _ => false end &&
  bool_decide (map_Forall (fun _ g => running g = false) (gors s)).

(** The chunks [cleanupPending] closes, in the order of the channels. *)
Definition leftover (s : state) : list nat :=
  filter (fun i => is_Some (pending s !! i)) (seq 0 total_chunks).

Definition join (s : state) : option state :=
  if no_goroutine s then
    match cons s with
    | CAbort a =>
        let '(x, e) := abort_response a (w s) in
        let s := set_closed (closed s ++ leftover s) s in
        Some (set_cons (CDone (Some e)) (set_out x (gd s) (set_pending ∅ s)))
    | CJoin => Some (set_cons (CDone None) s)
    | _ => None
    end
  else None.

Definition break (n : nat) (e : goerr) (s : state) : state :=
  let x := w s in
  set_out {| http.w_hdr := http.w_hdr x; http.w_sent := http.w_sent x; http.w_body := http.w_body x;
             http.w_fault := Some (n, e); http.w_flush := http.w_flush x |} (gd s) s.

#[global] Instance serve_machine : Machine state event := fun s e =>
  match e with
  | ECancel e => Some (cancel e s)
  | EBreak n e => Some (break n e s)
  | ETake => take_slot s
  | EStop => stop s
  | EEnd => loop_end s
  | ESpawn => spawn s
  | EAdmit i => admit_chunk i s
  | EAdmitted => see_admitted s
  | EDeliver i r now => deliver i r now s
  | ERecv now => recv now s
  | ERecvGone => recv_gone s
  | EWrite => write s
  | EJoin => join s
  end.

(** Lines 272-307, with the response as [Get] left it. *)
Definition start (timeout : Z) (x : http.ResponseWriter) : state :=
  {| slots := 0; disp := DSelect 0; gors := ∅; pending := ∅; cons := CRecv 0; w := x;
     gd := newWriteGuard timeout; gone := None; closed := []; results := ∅ |}.

End machine.

(** A request for the bytes 2 to 9 of ten, in chunks of four: the second
    chunk arrives before the first, which comes from a cache file. *)
Module serve_examples.
Definition obj : bytes := list_byte_of_string "0123456789".
Definition st : stream :=
  {| st_key := "k"; st_v := noVersion; st_start := 2; st_end := 9; st_total := 10; st_ranged := true |}.
Definition h : heap := set_handles {[ 3%nat := slice 0 4 obj ]} chunk_examples.h0.
Definition cr0 : chunkResult :=
  {| data := None; file := Some 3%nat; section := None; fileSize := 4; err := None; chunkStart := 0;
     via := viaHit; done := None |}.
Definition cr (a b : Z) : chunkResult :=
  {| data := Some (slice a b obj); file := None; section := None; fileSize := 0; err := None;
     chunkStart := a; via := viaBuffer; done := None |}.
Definition s0 : state := start 45 (http.fresh None None).
Definition streaming : list event :=
  [ETake; ESpawn; EAdmit 0; EAdmitted; ETake; ESpawn; EAdmit 1; EAdmitted; EDeliver 1 (inr (cr 4 8)) 5;
   EDeliver 0 (inr cr0) 6; ETake; ESpawn; ERecv 7; EWrite].
Definition finished : list event :=
  streaming ++ [EDeliver 2 (inr (cr 8 10)) 8; EAdmitted; EEnd; ERecv 9; EWrite; ERecv 10; EWrite; EJoin].
(** The client goes away while the last chunk is being fetched. *)
Definition aborted : list event :=
  streaming ++ [ECancel Canceled; ERecvGone; EDeliver 2 (inr (cr 8 10)) 8; EStop; EJoin].
(** The first chunk fails. *)
Definition failed : list event :=
  [ETake; ESpawn; EDeliver 0 (inl DeadlineExceeded) 5; ERecv 6; EStop; EJoin].
Definition machine : Machine state event := serve_machine 4 8 st h true.
End serve_examples.
End serve.
