(* ===== verification/ServeInv.v ===== *)
(** * The streaming machine: control

    The invariant of the machine of Serve.v: which chunks were started,
    admitted, delivered, written and closed; and what follows for every
    schedule. *)
From S2P Require Import Prelude GoStd GoTime Http Request HeadCache Budget Chunk DiskCache Flights WriteGuard Fetcher Serve.

Module serveinv.
Import chunk guard fetcher serve.

Section inv.
Context (cs wk : Z) (st : stream) (h : heap) (ok : bool).
Abbreviation N := (total_chunks cs st).

(** [k] chunks were started. *)
Definition at_disp (d : disp_pc) (k : nat) : Prop :=
  match d with
  | DSelect i => k = i
  | DCheck i => k = i /\ (i < N)%nat
  | DWait i => k = S i
  | DDone => True
  end.

(** How many slots the channel holds beyond the chunks in flight. *)
Definition spare (d : disp_pc) (x : Z) : Prop :=
  match d with DSelect _ | DWait _ => x = 0 | DCheck _ => x = 1 | DDone => 0 <= x <= 1 end.

(** [m] chunks were written. *)
Definition at_cons (c : cons_pc) (m k : nat) : Prop :=
  match c with
  | CRecv i => m = i /\ (i < N)%nat
  | CWrite i _ => m = i /\ (i < k)%nat
  | CJoin => m = N
  | CAbort _ | CDone _ => True
  end.

Definition active (c : cons_pc) : bool := match c with CRecv _ | CWrite _ _ | CJoin => true | _ => false end.
Definition in_hand (c : cons_pc) (i : nat) : Prop := match c with CWrite j _ => i = j | _ => False end.

Record Inv (k m : nat) (s : state) : Prop := {
  v_gors : forall i, is_Some (gors s !! i) <-> (i < k)%nat;
  v_bound : (k <= N)%nat /\ (m <= k)%nat;
  v_disp : at_disp (disp s) k;
  v_adm : forall i g, gors s !! i = Some g ->
    (running g = false -> adm g = true) /\
    ((S i < k)%nat \/ (exists j, disp s = DSelect j \/ disp s = DCheck j) -> adm g = true);
  v_cons : at_cons (cons s) m k;
  v_pending : forall i cr, pending s !! i = Some cr ->
    results s !! i = Some cr /\ ~ in_hand (cons s) i /\ i ∉ closed s;
  v_results : forall i, is_Some (results s !! i) <-> exists g, gors s !! i = Some g /\ running g = false;
  v_kept : forall i cr, results s !! i = Some cr ->
    i ∈ closed s \/ is_Some (pending s !! i) \/ in_hand (cons s) i \/
    (active (cons s) = false /\ err cr <> None);
  v_hand : forall i cr, cons s = CWrite i cr -> results s !! i = Some cr /\ err cr = None /\ i ∉ closed s;
  v_slots : spare (disp s) (slots s - (Z.of_nat k - Z.of_nat m)) /\ slots s <= window wk;
  v_gone : (forall a, cons s = CAbort a -> gone s <> None) /\
    (disp s = DDone -> k = N \/ gone s <> None);
  v_closed : NoDup (closed s) /\ (m <= length (closed s))%nat /\
    (active (cons s) = true -> forall i, i ∈ closed s <-> (i < m)%nat) /\
    (forall i, i ∈ closed s -> is_Some (results s !! i));
  v_guard : truthful ok (gd s) /\ (armed (gd s) = true -> exists i cr, cons s = CWrite i cr) /\
    (writing (gd s) = true <-> exists i cr, cons s = CWrite i cr);
  v_end : forall r, cons s = CDone r -> pending s = ∅ /\ disp s = DDone /\
    map_Forall (fun _ g => running g = false) (gors s) /\ (r = None -> m = N);
}.

Lemma window_pos : 4 <= window wk.
Proof. unfold window. zcases; lia. Qed.

(** The parts of the invariant the consumer's side is about do not mention
    the dispatcher, and conversely; the frame of each kind of step. *)

Lemma disp_step k m s d n :
  Inv k m s -> at_disp d k ->
  ((exists j, d = DSelect j \/ d = DCheck j) -> forall i g, gors s !! i = Some g -> adm g = true) ->
  spare d (n - (Z.of_nat k - Z.of_nat m)) -> n <= window wk ->
  (d = DDone -> k = N \/ gone s <> None) -> (forall r, cons s = CDone r -> d = DDone) ->
  Inv k m (set_disp d (set_slots n s)).
Proof.
  intros [] Hd Ha Hsp Hn Hg Hend. split; simpl; try done.
  - intros i g Hi. destruct (v_adm0 i g Hi) as [? ?]. split; [done|].
    intros [?|Hj]; [auto|by eapply Ha].
  - destruct v_gone0. done.
  - intros r Hr. destruct (v_end0 r Hr) as (? & _ & ?). split; [done|]. split; [by eapply Hend|done].
Qed.

Lemma set_slots_id s : set_slots (slots s) s = s.
Proof. by destruct s. Qed.

Lemma cancel_Inv k m e s : Inv k m s -> Inv k m (cancel e s).
Proof. intros []. split; simpl; try done. split; [by intros a _|intros _; by right]. Qed.

Lemma break_Inv k m n e s : Inv k m s -> Inv k m (break n e s).
Proof. intros []. by split. Qed.

Lemma take_slot_Inv k m s s' : Inv k m s -> take_slot cs wk st s = Some s' -> Inv k m s'.
Proof.
  unfold take_slot. intros HI He. destruct (disp s) as [i| | |] eqn:Hd; try done.
  destruct (Nat.ltb_spec i N), (Z.ltb_spec (slots s) (window wk)); try done. injection He as <-.
  pose proof (v_disp _ _ _ HI) as Hk. rewrite Hd in Hk. simpl in Hk. subst k.
  pose proof (v_slots _ _ _ HI) as [Hs _]. rewrite Hd in Hs. simpl in Hs.
  apply disp_step; simpl; try done; try lia.
  - intros _ j g Hj. apply (v_adm _ _ _ HI j g Hj). right. eauto.
  - intros r Hr. destruct (v_end _ _ _ HI r Hr) as (_ & Hx & _). congruence.
Qed.

Lemma stop_Inv k m s s' : Inv k m s -> stop cs st s = Some s' -> Inv k m s'.
Proof.
  unfold stop. intros HI He.
  assert (exists e, gone s = Some e /\ s' = set_disp DDone (set_slots (slots s) s) /\
    (exists i, disp s = DSelect i \/ disp s = DWait i)) as (e & Hg & -> & i & Hd).
  { rewrite set_slots_id. destruct (disp s) as [i| |i|]; try done.
    - destruct (i <? N)%nat; [|done]. destruct (gone s) as [e|]; [|done]. injection He as <-. eauto 6.
    - destruct (gone s) as [e|]; [|done]. injection He as <-. eauto 6. }
  pose proof (v_slots _ _ _ HI) as [Hs Hw]. apply disp_step; simpl; try done.
  - intros [j [?|?]]; done.
  - destruct Hd as [Hd|Hd]; rewrite Hd in Hs; simpl in Hs; lia.
  - intros _. right. congruence.
Qed.

Lemma loop_end_Inv k m s s' : Inv k m s -> loop_end cs st s = Some s' -> Inv k m s'.
Proof.
  unfold loop_end. intros HI He. destruct (disp s) as [i| | |] eqn:Hd; try done.
  destruct (Nat.ltb_spec i N); [done|]. injection He as <-. rewrite <- (set_slots_id s).
  pose proof (v_disp _ _ _ HI) as Hk. rewrite Hd in Hk. simpl in Hk.
  pose proof (v_bound _ _ _ HI). pose proof (v_slots _ _ _ HI) as [Hs Hw]. rewrite Hd in Hs. simpl in Hs.
  apply disp_step; simpl; try done; try lia.
  intros [j [?|?]]; done.
Qed.

Lemma spawn_Inv k m s s' : Inv k m s -> spawn s = Some s' -> exists k', Inv k' m s'.
Proof.
  unfold spawn. intros HI He. destruct (disp s) as [|i| |] eqn:Hd; try done.
  pose proof (v_disp _ _ _ HI) as Hk. rewrite Hd in Hk. destruct Hk as [<- HN].
  pose proof (v_slots _ _ _ HI) as [Hs Hw]. rewrite Hd in Hs. simpl in Hs.
  destruct (gone s) as [e|] eqn:Hg; injection He as <-.
  { exists k. rewrite <- (set_slots_id s). apply disp_step; simpl; try done; try lia.
    - intros [j [?|?]]; done.
    - intros _. right. congruence. }
  exists (S k). assert (gors s !! k = None) as Hnone.
  { apply eq_None_not_Some. intros Hx%(v_gors _ _ _ HI). lia. }
  destruct HI. split; simpl; try done.
  - intros j. rewrite lookup_insert_is_Some', v_gors0. lia.
  - lia.
  - intros j g. rewrite lookup_insert_Some. intros [[<- <-]|[Hne Hj]].
    + split; [done|]. intros [?|[j [?|?]]]; [lia|done|done].
    + destruct (v_adm0 j g Hj) as [? Ha]. split; [done|]. intros _. apply Ha. right. eauto.
  - destruct (cons s); simpl in *; try done; lia.
  - intros j. rewrite v_results0. split; intros (g & Hj & Hr); exists g.
    + rewrite lookup_insert_ne; [done|congruence].
    + apply lookup_insert_Some in Hj as [[<- <-]|[_ Hj]]; done.
  - lia.
  - destruct v_gone0. done.
  - intros r Hr. destruct (v_end0 r Hr) as (_ & ? & _). congruence.
Qed.

Lemma admit_chunk_Inv k m i s s' : Inv k m s -> admit_chunk i s = Some s' -> Inv k m s'.
Proof.
  unfold admit_chunk. intros HI He. destruct (gors s !! i) as [g|] eqn:Hi; [|done]. simpl in He.
  destruct (running g) eqn:Hr, (adm g) eqn:Ha; try done. injection He as <-.
  destruct HI. split; simpl; try done.
  - intros j. rewrite lookup_insert_is_Some', v_gors0. split; [|by right].
    intros [<-|?]; [|done]. apply v_gors0. by exists g.
  - intros j g'. rewrite lookup_insert_Some. intros [[<- <-]|[_ Hj]]; [done|by apply v_adm0].
  - intros j. rewrite v_results0. split; intros (g' & Hj & Hr'); exists g'.
    + rewrite lookup_insert_ne; [done|congruence].
    + apply lookup_insert_Some in Hj as [[<- <-]|[_ Hj]]; done.
  - intros r Hr'. destruct (v_end0 r Hr') as (? & ? & Hall & ?). specialize (Hall i g Hi). simpl in Hall.
    congruence.
Qed.

Lemma see_admitted_Inv k m s s' : Inv k m s -> see_admitted s = Some s' -> Inv k m s'.
Proof.
  unfold see_admitted. intros HI He. destruct (disp s) as [| |i|] eqn:Hd; try done.
  destruct (gors s !! i) as [g|] eqn:Hi; [|done]. simpl in He. destruct (adm g) eqn:Ha; [|done].
  injection He as <-. rewrite <- (set_slots_id s).
  pose proof (v_disp _ _ _ HI) as Hk. rewrite Hd in Hk. simpl in Hk. subst k.
  pose proof (v_slots _ _ _ HI) as [Hs Hw]. rewrite Hd in Hs. simpl in Hs.
  apply disp_step; simpl; try done; try lia.
  - intros _ j g' Hj. destruct (decide (j = i)) as [->|Hne]; [congruence|].
    apply (v_adm _ _ _ HI j g' Hj). left. assert (j < S i)%nat; [|lia].
    apply (v_gors _ _ _ HI). by exists g'.
  - intros r Hr. destruct (v_end _ _ _ HI r Hr) as (_ & Hx & _). congruence.
Qed.

(** ** The guard's steps *)

Lemma hold_guard now g :
  truthful ok g -> (armed g = true -> writing g = true) ->
  truthful ok (hold now ok g) /\ (armed (hold now ok g) = true -> writing g = true) /\
  writing (hold now ok g) = writing g.
Proof.
  intros Ht Ha. unfold hold. set (g1 := set_flags (held g ⊕ 1) (writing g) (armed g) g).
  destruct (arm_spec ok now g1 Ht) as (_ & _ & Hw & Ht' & _). simpl.
  destruct (writing g && negb (armed g)) eqn:Hx; [|done].
  apply andb_true_iff in Hx as [Hx _]. split; [done|]. split; [done|]. by rewrite Hw.
Qed.

Lemma begin_guard now g : truthful ok g -> truthful ok (begin now ok g) /\ writing (begin now ok g) = true.
Proof.
  intros Ht. unfold begin. set (g1 := set_flags (held g) true (armed g) g).
  destruct (arm_spec ok now g1 Ht) as (_ & _ & Hw & Ht' & _). by destruct (0 <? held g1).
Qed.

Lemma end_guard b g :
  truthful ok g -> truthful ok (end_ b ok g) /\ armed (end_ b ok g) = false /\ writing (end_ b ok g) = false.
Proof.
  intros [Hd Hok]. unfold end_. simpl. destruct (armed g) eqn:Ha; simpl.
  - rewrite (Hok eq_refl). split; [|done]. split; [|done]. split; [done|by intros []].
  - split; [|done]. by split.
Qed.

(** ** The steps of a fetch goroutine and of the consumer *)

Lemma deliver_Inv k m i r now s s' : Inv k m s -> deliver cs st ok i r now s = Some s' -> Inv k m s'.
Proof.
  unfold deliver. intros HI He. destruct (gors s !! i) as [g|] eqn:Hi; [|done]. simpl in He.
  destruct (running g) eqn:Hr; [|done]. injection He as <-. set (cr := delivered cs st i r).
  assert (results s !! i = None) as Hnone.
  { apply eq_None_not_Some. intros Hx. apply (v_results _ _ _ HI) in Hx as (g' & Hx & Hr').
    rewrite Hi in Hx. injection Hx as <-. congruence. }
  destruct HI. assert (i < k)%nat as Hik by (apply v_gors0; by exists g).
  destruct v_guard0 as (Hg1 & Hg2 & Hg3).
  assert (armed (gd s) = true -> writing (gd s) = true) as Hg4 by (by rewrite Hg3).
  destruct (hold_guard now (gd s) Hg1 Hg4) as (Ht & Ha & Hw).
  split; simpl; try done.
  - intros j. rewrite lookup_insert_is_Some', v_gors0. split; [intros [<-|?]; done|by right].
  - intros j g'. rewrite lookup_insert_Some. intros [[<- <-]|[_ Hj]]; [done|by apply v_adm0].
  - intros j cr'. rewrite lookup_insert_Some. intros [[<- <-]|[Hne Hj]].
    + rewrite lookup_insert_eq. split; [done|]. split.
      * unfold in_hand. destruct (cons s) as [|i' cr'| | |] eqn:Hc; try (by intros ?). simpl. intros <-.
        destruct (v_hand0 i cr' eq_refl) as (Hx & _). congruence.
      * intros Hx. apply v_closed0 in Hx as [? ?]. congruence.
    + rewrite lookup_insert_ne by done. by apply v_pending0.
  - intros j. rewrite lookup_insert_is_Some', v_results0. split.
    + intros [<-|(g' & Hj & Hr')]; [eexists; by rewrite lookup_insert_eq|].
      exists g'. rewrite lookup_insert_ne; [done|]. intros ->. rewrite Hi in Hj. injection Hj as <-. congruence.
    + intros (g' & Hj & Hr'). apply lookup_insert_Some in Hj as [[<- _]|[_ Hj]]; [by left|right; by exists g'].
  - intros j cr'. rewrite lookup_insert_Some. intros [[<- <-]|[Hne Hj]].
    + right. left. apply lookup_insert_is_Some'. by left.
    + destruct (v_kept0 j cr' Hj) as [?|[?|?]]; [by left| |by right; right].
      right. left. apply lookup_insert_is_Some'. by right.
  - intros j cr' Hc. destruct (v_hand0 j cr' Hc) as (Hx & ?). rewrite lookup_insert_ne; [done|congruence].
  - destruct v_closed0 as (? & ? & ? & Hc). do 3 (split; [done|]). intros j Hj.
    apply lookup_insert_is_Some'. right. by apply Hc.
  - destruct (buffered cr); [|done]. split; [done|]. rewrite Hw. split; [|done].
    intros Hx. by apply Hg3, Ha.
  - intros r' Hr'. destruct (v_end0 r' Hr') as (_ & _ & Hall & _). specialize (Hall i g Hi). simpl in Hall.
    congruence.
Qed.

Lemma recv_gone_Inv k m s s' : Inv k m s -> recv_gone s = Some s' -> Inv k m s'.
Proof.
  unfold recv_gone. intros HI He. destruct (cons s) as [i| | | |] eqn:Hc; try done.
  destruct (gone s) as [e|] eqn:Hg; [|done]. simpl in He. injection He as <-.
  destruct HI. rewrite Hc in *. cbn [at_cons active in_hand] in *. split; simpl; try done.
  - intros j cr Hj. destruct (v_kept0 j cr Hj) as [?|[?|[[]|[? _]]]]; auto; done.
  - by split; [intros a _|intros _; right].
  - destruct v_closed0 as (? & ? & _ & ?). done.
  - destruct v_guard0 as (? & Ha & Hw). split; [done|]. split; [intros Hx|rewrite Hw; split; intros Hx].
    all: try (apply Ha in Hx); destruct Hx as (? & ? & ?); done.
Qed.

Lemma recv_Inv k m now s s' : Inv k m s -> recv st ok now s = Some s' -> Inv k m s'.
Proof.
  unfold recv. intros HI He. destruct (cons s) as [i| | | |] eqn:Hc; try done.
  destruct (pending s !! i) as [cr|] eqn:Hp; [|done]. simpl in He.
  destruct HI. rewrite Hc in *. cbn [at_cons active in_hand] in *. destruct v_cons0 as [-> HiN].
  destruct (v_pending0 i cr Hp) as (Hres & _ & Hncl).
  assert (forall j cr', delete i (pending s) !! j = Some cr' ->
    i <> j /\ results s !! j = Some cr' /\ j ∉ closed s) as Hpend.
  { intros j cr' Hj. apply lookup_delete_Some in Hj as [Hne Hj].
    destruct (v_pending0 j cr' Hj) as (? & _ & ?). done. }
  assert (forall j cr', i <> j -> results s !! j = Some cr' ->
    j ∈ closed s \/ is_Some (delete i (pending s) !! j)) as Hkept.
  { intros j cr' Hne Hj. destruct (v_kept0 j cr' Hj) as [?|[?|[?|[? _]]]]; try done; [by left|right].
    by rewrite lookup_delete_ne. }
  assert (i < k)%nat as Hik.
  { apply v_gors0. destruct (v_results0 i) as [Hx _]. destruct Hx as (g & Hg & _); [by exists cr|by exists g]. }
  destruct v_guard0 as (Hg1 & Hg2 & Hg3).
  destruct (err cr) as [e|] eqn:He'; injection He as <-; split; simpl; try done.
  - intros j cr' Hj. destruct (Hpend j cr' Hj) as (? & ? & ?). auto.
  - intros j cr' Hj. destruct (decide (i = j)) as [<-|Hne].
    + right. right. right. split; [done|]. congruence.
    + destruct (Hkept j cr' Hne Hj); auto.
  - by split; [intros a _|intros _; right].
  - destruct v_closed0 as (? & ? & _ & ?). done.
  - split; [done|]. split; [intros (? & ? & ?)%Hg2; done|]. rewrite Hg3. by split; intros (? & ? & ?).
  - intros j cr' Hj. destruct (Hpend j cr' Hj) as (? & ? & ?). auto.
  - intros j cr' Hj. destruct (decide (i = j)) as [<-|Hne]; [auto|].
    destruct (Hkept j cr' Hne Hj); auto.
  - intros j cr' [= <- <-]. done.
  - destruct v_gone0. done.
  - destruct (begin_guard now (gd s) Hg1) as [Ht Hw]. split; [done|]. rewrite Hw.
    split; [intros _|split; [intros _|done]]; by exists i, cr.
Qed.

Lemma write_Inv k m s s' : Inv k m s -> write cs st h ok s = Some s' -> exists m', Inv k m' s'.
Proof.
  unfold write. intros HI He. destruct (cons s) as [|i cr| | |] eqn:Hc; try done.
  destruct (write_and_flush _ _ _ _ _) as [x e].
  destruct HI. rewrite Hc in *. cbn [at_cons active in_hand] in *. destruct v_cons0 as [-> Hik].
  destruct (v_hand0 i cr eq_refl) as (Hres & Herr & Hncl).
  destruct v_closed0 as (Hnd & Hlen & Hcl & Hclr). specialize (Hcl eq_refl).
  destruct v_guard0 as (Hg1 & _ & _).
  destruct (end_guard (buffered cr) (gd s) Hg1) as (Hg2 & Hg3 & Hg4).
  assert (NoDup (closed s ++ [i])) as Hnd'.
  { apply NoDup_app. split; [done|]. split; [|apply NoDup_singleton]. by intros j Hj ->%list_elem_of_singleton. }
  assert (forall j, j ∈ closed s ++ [i] -> is_Some (results s !! j)) as Hclr'.
  { intros j [Hj| ->%list_elem_of_singleton]%elem_of_app; [by apply Hclr|by exists cr]. }
  assert (forall j cr', pending s !! j = Some cr' -> results s !! j = Some cr' /\ j ∉ closed s ++ [i]) as Hp.
  { intros j cr' Hj. destruct (v_pending0 j cr' Hj) as (? & Hne & ?). split; [done|].
    intros [?| ->%list_elem_of_singleton]%elem_of_app; done. }
  assert (forall j cr', results s !! j = Some cr' -> j ∈ closed s ++ [i] \/ is_Some (pending s !! j)) as Hk.
  { intros j cr' Hj. destruct (v_kept0 j cr' Hj) as [?|[?|[->|[? _]]]]; [left|by right|left|done];
      apply elem_of_app; [by left|right; by apply list_elem_of_singleton]. }
  destruct e as [e|].
  { injection He as <-. exists i. split; simpl; try done.
    - intros j cr' Hj. destruct (Hp j cr' Hj). auto.
    - intros j cr' Hj. destruct (Hk j cr' Hj); auto.
    - by split; [intros a _|intros _; right].
    - split; [done|]. split; [rewrite length_app; simpl; lia|]. done.
    - split; [done|]. rewrite Hg3, Hg4. split; [done|]. split; [done|]. by intros (? & ? & ?). }
  simpl in He. destruct (Z.ltb_spec 0 (slots s)) as [Hsl|]; [|done]. injection He as <-. exists (S i).
  remember (if (S i <? N)%nat then CRecv (S i) else CJoin) as c eqn:Hcc.
  assert (at_cons c (S i) k /\ active c = true /\ (forall j cr', c <> CWrite j cr') /\
    (forall j, ~ in_hand c j) /\ (forall a, c <> CAbort a) /\ (forall r, c <> CDone r))
    as (Hat & Hact & Hnw & Hnh & Hna & Hnd2).
  { subst c. destruct (Nat.ltb_spec (S i) N); simpl; repeat split; try done; try lia; intros j []. }
  clear Hcc. split; simpl; try done.
  - lia.
  - intros j cr' Hj. destruct (Hp j cr' Hj). auto.
  - intros j cr' Hj. destruct (Hk j cr' Hj); auto.
  - intros j cr' Hx. by destruct (Hnw j cr').
  - destruct v_slots0 as [Hs Hw]. split; [|lia].
    replace (slots s - 1 - (Z.of_nat k - Z.of_nat (S i))) with (slots s - (Z.of_nat k - Z.of_nat i)) by lia. done.
  - destruct v_gone0. split; [|done]. by intros a Hx%Hna.
  - split; [done|]. split; [rewrite length_app; simpl; lia|]. split; [|done]. intros _ j.
    rewrite elem_of_app, Hcl, list_elem_of_singleton. lia.
  - split; [done|]. rewrite Hg3, Hg4. split; [done|]. split; [done|]. intros (j & cr' & Hx). by destruct (Hnw j cr').
  - by intros r Hx%Hnd2.
Qed.

Lemma join_Inv k m s s' : Inv k m s -> join cs st s = Some s' -> Inv k m s'.
Proof.
  unfold join. intros HI He. destruct (no_goroutine s) eqn:Hno; [|done].
  unfold no_goroutine in Hno. apply andb_true_iff in Hno as [Hd Hall%bool_decide_eq_true].
  assert (disp s = DDone) as Hdd by (by destruct (disp s)).
  destruct (cons s) as [| |a| |] eqn:Hc; try done.
  - destruct (abort_response a (w s)) as [x e]. injection He as <-.
    destruct HI. rewrite Hc in *. cbn [at_cons active in_hand] in *.
    assert (forall j, j ∈ leftover cs st s <-> is_Some (pending s !! j)) as Hkeys.
    { intros j. unfold leftover. rewrite list_elem_of_filter, elem_of_seq. split; [by intros [? _]|].
      intros [cr Hj]. split; [by exists cr|]. destruct (v_pending0 j cr Hj) as (Hr & _).
      destruct (proj1 (v_results0 j) (ex_intro _ cr Hr)) as (g & Hg & _).
      assert (j < k)%nat by (apply v_gors0; by exists g). lia. }
    destruct v_closed0 as (Hnd & Hlen & _ & Hclr). split; simpl; try done.
    + intros j cr Hj. destruct (v_kept0 j cr Hj) as [?|[?|[?|[_ ?]]]]; [| |done|auto].
      * left. apply elem_of_app. by left.
      * left. apply elem_of_app. right. by apply Hkeys.
    + destruct v_gone0 as [_ ?]. done.
    + split; [|split; [rewrite length_app; lia|split; [done|]]].
      * apply NoDup_app. split; [done|]. split; [|apply NoDup_filter, NoDup_seq].
        intros j Hj [cr Hp]%Hkeys. by destruct (v_pending0 j cr Hp) as (_ & _ & ?).
      * intros j [Hj|[cr Hp]%Hkeys]%elem_of_app; [by apply Hclr|].
        destruct (v_pending0 j cr Hp) as (? & _). by exists cr.
    + destruct v_guard0 as (? & Ha & Hw). split; [done|]. split; [intros Hx|rewrite Hw; split; intros Hx].
      all: try (apply Ha in Hx); destruct Hx as (? & ? & ?); done.
    + by intros r [= <-].
  - injection He as <-. destruct HI. rewrite Hc in *. cbn [at_cons active in_hand] in *. subst m.
    destruct v_closed0 as (Hnd & Hlen & Hcl & Hclr). specialize (Hcl eq_refl).
    assert (k = N) as -> by lia.
    assert (forall j, is_Some (results s !! j) -> j ∈ closed s) as Hdone.
    { intros j Hj. apply Hcl. apply v_results0 in Hj as (g & Hg & _). apply v_gors0. by exists g. }
    split; simpl; try done.
    + intros j cr Hj. left. apply Hdone. by exists cr.
    + destruct v_gone0. done.
    + destruct v_guard0 as (? & Ha & Hw). split; [done|]. split; [intros Hx|rewrite Hw; split; intros Hx].
      all: try (apply Ha in Hx); destruct Hx as (? & ? & ?); done.
    + intros r [= <-]. split; [|done]. apply map_eq. intros j. rewrite lookup_empty.
      apply eq_None_not_Some. intros [cr Hj]. destruct (v_pending0 j cr Hj) as (? & _ & Hn).
      apply Hn, Hdone. by exists cr.
Qed.

Lemma serve_Inv_step k m s e s' :
  Inv k m s -> exec (Machine:=serve_machine cs wk st h ok) s e = Some s' -> exists k' m', Inv k' m' s'.
Proof.
  intros HI He. destruct e; cbn in He.
  - injection He as <-. eexists _, _. by apply cancel_Inv.
  - injection He as <-. eexists _, _. by apply break_Inv.
  - eexists _, _. by eapply take_slot_Inv.
  - eexists _, _. by eapply stop_Inv.
  - eexists _, _. by eapply loop_end_Inv.
  - destruct (spawn_Inv _ _ _ _ HI He). by eexists _, _.
  - eexists _, _. by eapply admit_chunk_Inv.
  - eexists _, _. by eapply see_admitted_Inv.
  - eexists _, _. by eapply deliver_Inv.
  - eexists _, _. by eapply recv_Inv.
  - eexists _, _. by eapply recv_gone_Inv.
  - destruct (write_Inv _ _ _ _ HI He). by eexists _, _.
  - eexists _, _. by eapply join_Inv.
Qed.

(** What a step leaves as it was: only [EDeliver] adds a result, only the
    goroutines' own steps change them, only the consumer closes. *)
Lemma serve_frame s e s' :
  exec (Machine:=serve_machine cs wk st h ok) s e = Some s' ->
  match e with EDeliver _ _ _ => True | _ => results s' = results s end /\
  match e with ESpawn | EAdmit _ | EDeliver _ _ _ => True | _ => gors s' = gors s end /\
  closed s' = closed s ++ match e, cons s with
                          | EWrite, CWrite i _ => [i]
                          | EJoin, CAbort _ => leftover cs st s
                          | _, _ => []
                          end.
Proof.
  intros He. destruct e; cbn in He; try rewrite app_nil_r.
  - by injection He as <-.
  - by injection He as <-.
  - unfold take_slot in He. by destruct (disp s); inv_bind; subst.
  - unfold stop in He. by destruct (disp s); inv_bind; subst.
  - unfold loop_end in He. by destruct (disp s); inv_bind; subst.
  - unfold spawn in He. destruct (disp s); [done| |done|done]. by destruct (gone s); injection He as <-.
  - unfold admit_chunk in He. by inv_bind; subst.
  - unfold see_admitted in He. by destruct (disp s); inv_bind; subst.
  - unfold deliver in He. by inv_bind; subst.
  - unfold recv in He. destruct (cons s); try done. inv_bind. by destruct (err _); injection He as <-.
  - unfold recv_gone in He. destruct (cons s); try done. by inv_bind; subst.
  - unfold write in He. destruct (cons s); try done. destruct (write_and_flush _ _ _ _ _) as [? [|]];
      [by injection He as <-|]. simpl in He. destruct (0 <? slots s); [|done]. by injection He as <-.
  - unfold join in He. destruct (no_goroutine s); [|done]. destruct (cons s); try done.
    + destruct (abort_response _ _). by injection He as <-.
    + injection He as <-. simpl. by rewrite app_nil_r.
Qed.

Lemma start_Inv timeout x : stream_ok cs st -> Inv 0 0 (start timeout x).
Proof.
  intros Hok. destruct (chunk_indices cs st Hok) as (_ & _ & _ & Hn).
  assert (0 < N)%nat by (unfold total_chunks; lia). pose proof window_pos.
  split; simpl; try done; try lia.
  - intros i. rewrite lookup_empty. split; [by intros [? ?]|lia].
  - intros i. rewrite lookup_empty. split; [by intros [? ?]|intros (? & Hx & _)]. by rewrite lookup_empty in Hx.
  - split; [constructor|]. split; [lia|]. split; [intros _ i|intros i]; rewrite elem_of_nil; [lia|done].
  - split; [|split; [done|split; [done|by intros (? & ? & ?)]]]. split; [|done]. split; [done|by intros [? ?]].
Qed.

Lemma serve_Inv timeout x es s :
  stream_ok cs st -> run (H:=serve_machine cs wk st h ok) (start timeout x) es = Some s -> exists k m, Inv k m s.
Proof.
  intros Hok. apply (run_invariant (H:=serve_machine cs wk st h ok) (fun s => exists k m, Inv k m s)).
  - intros s1 e s2 (k & m & HI). by apply (serve_Inv_step k m).
  - exists 0%nat, 0%nat. by apply start_Inv.
Qed.

(** Chunks are started in order, each once the one before is admitted. *)
Lemma earlier_admitted k m s i j :
  Inv k m s -> is_Some (gors s !! j) -> (i < j)%nat -> exists g, gors s !! i = Some g /\ adm g = true.
Proof.
  intros HI Hj Hij. apply (v_gors _ _ _ HI) in Hj.
  destruct (proj2 (v_gors _ _ _ HI i) ltac:(lia)) as [g Hg]. exists g. split; [done|].
  apply (v_adm _ _ _ HI i g Hg). left. lia.
Qed.

End inv.

(** ** What every schedule keeps *)

(** C29: a request never runs further ahead of its client than the window:
    the chunks fetched and not yet written and closed, whatever they hold
    (handles, buffers, budget), are fewer than [window] of the configured
    workers. *)
Theorem serve_window cs wk st h ok timeout x es s j :
  stream_ok cs st -> run (H:=serve_machine cs wk st h ok) (start timeout x) es = Some s ->
  is_Some (gors s !! j) ->
  (j < total_chunks cs st)%nat /\ Z.of_nat j < Z.of_nat (length (closed s)) + window wk.
Proof.
  intros Hok Hr Hj. destruct (serve_Inv _ _ _ _ _ _ _ _ _ Hok Hr) as (k & m & HI).
  apply (v_gors _ _ _ _ _ _ _ HI) in Hj.
  destruct (v_slots _ _ _ _ _ _ _ HI) as [Hs Hw]. destruct (v_closed _ _ _ _ _ _ _ HI) as (_ & Hl & _).
  destruct (v_bound _ _ _ _ _ _ _ HI). split; [lia|].
  assert (0 <= slots s - (Z.of_nat k - Z.of_nat m)); [|lia].
  destruct (disp s); simpl in Hs; lia.
Qed.

(** C19: when [serveAligned] returns, whichever way, nothing of it is left
    behind: dispatcher and fetches have ended, every chunk that was fetched
    has been closed exactly once (an error result holds nothing), no result
    waits in a channel, and no write deadline remains on the connection;
    after a complete response every chunk of the request was written. *)
Theorem serve_leaves_nothing cs wk st h ok timeout x es s r :
  stream_ok cs st -> run (H:=serve_machine cs wk st h ok) (start timeout x) es = Some s ->
  cons s = CDone r ->
  disp s = DDone /\ map_Forall (fun _ g => running g = false) (gors s) /\ pending s = ∅ /\
  NoDup (closed s) /\
  (forall i cr, results s !! i = Some cr -> err cr = None -> i ∈ closed s) /\
  (forall i, i ∈ closed s -> is_Some (results s !! i)) /\
  deadline (gd s) = None /\
  (r = None -> forall i, (i < total_chunks cs st)%nat -> is_Some (results s !! i)).
Proof.
  intros Hok Hr Hc. destruct (serve_Inv _ _ _ _ _ _ _ _ _ Hok Hr) as (k & m & HI).
  destruct (v_end _ _ _ _ _ _ _ HI r Hc) as (Hp & Hd & Hall & HN).
  destruct (v_closed _ _ _ _ _ _ _ HI) as (Hnd & _ & _ & Hclr).
  destruct (v_guard _ _ _ _ _ _ _ HI) as ([Hdl _] & Ha & _).
  do 4 (split; [done|]). split.
  { intros i cr Hi He. destruct (v_kept _ _ _ _ _ _ _ HI i cr Hi) as [?|[Hx|[Hx|[_ Hx]]]]; [done| | |done].
    - rewrite Hp, lookup_empty in Hx. by destruct Hx.
    - by rewrite Hc in Hx. }
  split; [done|]. split.
  { destruct (armed (gd s)) eqn:Harm.
    - destruct (Ha eq_refl) as (? & ? & ?). congruence.
    - apply eq_None_not_Some. intros Hx%Hdl. done. }
  intros Hrn i Hi. destruct (v_bound _ _ _ _ _ _ _ HI) as [Hk Hm]. specialize (HN Hrn).
  apply (v_results _ _ _ _ _ _ _ HI). destruct (proj2 (v_gors _ _ _ _ _ _ _ HI i) ltac:(lia)) as [g Hg].
  exists g. split; [done|]. by apply (Hall i).
Qed.

Module serveinv_examples.
Import serve_examples.
Definition after (es : list event) : state := default s0 (run (H:=machine) s0 es).
Lemma ok : stream_ok 4 st.
Proof. repeat split; simpl; unfold int64_max; lia. Defined.
End serveinv_examples.
Import serve_examples serveinv_examples.

(** While the third chunk is being fetched. *)
Lemma serve_window_witness :
  is_Some (gors (after streaming) !! 2%nat) /\
  2 < Z.of_nat (length (closed (after streaming))) + window 8.
Proof.
  assert (is_Some (gors (after streaming) !! 2%nat)) as Hx
    by (exists {| running := true; adm := false |}; vm_compute; reflexivity).
  split; [exact Hx|].
  apply (serve_window 4 8 st serve_examples.h true 45 (http.fresh None None) streaming (after streaming)
    2 serveinv_examples.ok); [vm_compute; reflexivity|exact Hx].
Defined.

(** A client that leaves in the middle. *)
Lemma serve_leaves_nothing_witness :
  cons (after aborted) = CDone (Some Canceled) /\ pending (after aborted) = ∅ /\ closed (after aborted) = [0; 1; 2]%nat.
Proof.
  assert (cons (after aborted) = CDone (Some Canceled)) as Hx by (vm_compute; reflexivity).
  split; [exact Hx|]. split; [|vm_compute; reflexivity].
  refine (proj1 (proj2 (proj2 (serve_leaves_nothing 4 8 st serve_examples.h true 45 (http.fresh None None) aborted
    (after aborted) _ serveinv_examples.ok _ Hx)))). vm_compute. reflexivity.
Defined.
End serveinv.
