(* ===== verification/ServeOut.v ===== *)
(** * The streaming machine: output

    What the client receives, for every schedule, every mixture of cache
    files, pinned files and buffers, and a connection that may fail anywhere:
    the requested bytes of the object in order, or a prefix of them, or an
    error response that claims nothing about the object. *)
From S2P Require Import Prelude GoStd GoTime Http Request HeadCache Budget Chunk DiskCache Flights WriteGuard Fetcher Serve ServeInv.

Module serveout.
Import chunk guard fetcher serve.

(** The headers of a committed response, [x] being the response as [Get]
    left it. *)
Definition committed (st : stream) (x w : http.ResponseWriter) : Prop :=
  http.status w = Some (if st_ranged st then 206 else 200) /\
  http.sent_header "Content-Length" w = Some (strconv.FormatInt (st_end st - st_start st + 1)) /\
  (st_ranged st = true -> http.sent_header "Content-Range" w =
     Some ("bytes " +:+ strconv.FormatInt (st_start st) +:+ "-" +:+ strconv.FormatInt (st_end st) +:+
           "/" +:+ strconv.FormatInt (st_total st))) /\
  http.sent_header "Accept-Ranges" w = Some "bytes" /\
  http.sent_header "ETag" w = http.w_hdr x !! "ETag".

Section out.
Context (cs wk : Z) (st : stream) (h : heap) (ok : bool) (x : http.ResponseWriter) (obj : bytes).
Abbreviation N := (total_chunks cs st).
Hypothesis Hst : stream_ok cs st.
Hypothesis Hobj : Z.of_nat (length obj) = st_total st.
Hypothesis Hx : http.pristine x.

(** The requested bytes, and where in the object chunk [i]'s output begins. *)
Definition body_of (a b : Z) : bytes := slice a b obj.
Definition requested : bytes := body_of (st_start st) (st_end st + 1).
Definition cut (i : nat) : Z :=
  match i with
  | O => st_start st
  | S _ => if (i <? N)%nat then (chunkSpan cs st (Z.of_nat i)).1 else st_end st + 1
  end.

(** What a fetch hands over: an error, or the bytes of its chunk. *)
Definition honest (i : nat) (cr : chunkResult) : Prop :=
  err cr <> None \/
  holds h cr (slice (chunkSpan cs st (Z.of_nat i)).1 ((chunkSpan cs st (Z.of_nat i)).2 + 1) obj).
Definition honest_event (e : event) : Prop :=
  match e with EDeliver i (inr cr) _ => honest i cr | _ => True end.

(** What the client has so far. *)
Definition uncommitted (w : http.ResponseWriter) : Prop :=
  http.pristine w /\ http.w_hdr w = http.w_hdr x.
Definition streamed (n : Z) (w : http.ResponseWriter) : Prop :=
  committed st x w /\ http.w_body w = body_of (st_start st) n.
Definition cut_short (w : http.ResponseWriter) : Prop :=
  committed st x w /\ http.w_body w `prefix_of` requested.
Definition error_page (e : goerr) (w : http.ResponseWriter) : Prop :=
  (http.status w = Some (s3_status e) \/ http.status w = Some 502) /\
  http.sent_header "ETag" w = None /\ http.sent_header "Last-Modified" w = None.

Definition out_inv (c : cons_pc) (w : http.ResponseWriter) : Prop :=
  match c with
  | CRecv O => uncommitted w
  | CRecv i | CWrite i _ => streamed (cut i) w
  | CJoin | CDone None => streamed (st_end st + 1) w
  | CAbort (HeadCancelled _) | CAbort (HeadFailed _) => uncommitted w
  | CAbort (MidStream _) => cut_short w
  | CDone (Some e) => cut_short w \/ error_page e w
  end.

(** A chunk that can be written: honest, and where its goroutine put it. *)
Definition in_place (i : nat) (cr : chunkResult) : Prop :=
  honest i cr /\ chunkStart cr = (chunkSpan cs st (Z.of_nat i)).1.

Definition out_ok (s : state) : Prop := out_inv (cons s) (w s).
Definition results_ok (s : state) : Prop := forall i cr, results s !! i = Some cr -> in_place i cr.

(** ** The cuts *)

Lemma total_eq : Z.of_nat N = nChunks cs st /\ (0 < N)%nat.
Proof. destruct (chunk_indices cs st Hst) as (_ & _ & _ & Hn). unfold total_chunks. lia. Qed.

(** Chunk [i]'s part of the response runs from its cut to the next. *)
Lemma cut_spec i :
  (i < N)%nat ->
  let '(a, b) := chunkSpan cs st (Z.of_nat i) in
  0 <= a <= b /\ b + 1 <= st_total st /\ b + 1 <= int64_max /\
  cut i = Z.max (st_start st) a /\ cut (S i) = Z.min (b + 1) (st_end st + 1) /\
  st_start st <= cut i < cut (S i) /\ cut (S i) <= st_end st + 1.
Proof.
  intros Hi. destruct total_eq as [HN HN0]. pose proof Hst as (Hc & Hs & He & Ht).
  destruct (chunk_indices cs st Hst) as (H1 & H2 & H3 & _).
  destruct (div_bounds (st_start st) cs ltac:(lia) Hc) as [? Hq1].
  destruct (div_bounds (st_end st) cs ltac:(lia) Hc) as [? Hq2].
  rewrite (proj1 (chunkSpan_eq cs st (Z.of_nat i) Hst ltac:(lia))).
  pose proof (proj2 (chunkSpan_eq cs st (Z.of_nat i) Hst ltac:(lia))) as Ha.
  set (a := (st_start st / cs + Z.of_nat i) * cs) in *.
  assert (a = cs * (st_start st / cs) + Z.of_nat i * cs) as Hae by (unfold a; ring).
  assert (cut i = Z.max (st_start st) a) as Hcut.
  { unfold cut. destruct i as [|i]; [simpl in Hae; lia|]. destruct (Nat.ltb_spec (S i) N); [|lia].
    rewrite (proj1 (chunkSpan_eq cs st (Z.of_nat (S i)) Hst ltac:(lia))). cbn [fst]. fold a.
    rewrite Nat2Z.inj_succ, Z.mul_succ_l in Hae. pose proof (Zmult_le_0_compat (Z.of_nat i) cs). lia. }
  assert (cut (S i) = Z.min (a + cs) (st_end st + 1)) as Hcut'.
  { unfold cut. destruct (Nat.ltb_spec (S i) N).
    - rewrite (proj1 (chunkSpan_eq cs st (Z.of_nat (S i)) Hst ltac:(lia))). cbn [fst].
      pose proof (proj2 (chunkSpan_eq cs st (Z.of_nat (S i)) Hst ltac:(lia))) as Ha'.
      replace ((st_start st / cs + Z.of_nat (S i)) * cs) with (a + cs) in * by (rewrite Nat2Z.inj_succ; unfold a; ring). lia.
    - assert (Z.of_nat i = st_end st / cs - st_start st / cs) as Hlast by lia.
      rewrite Hlast in Hae. lia. }
  assert (st_start st < a + cs) by (pose proof (Zmult_le_0_compat (Z.of_nat i) cs); lia).
  rewrite Hcut, Hcut'. lia.
Qed.

Lemma cut_last : cut N = st_end st + 1.
Proof.
  destruct total_eq as [_ HN]. unfold cut. destruct N as [|n]; [lia|]. by rewrite Nat.ltb_irrefl.
Qed.

Lemma cut_join i : (i < N)%nat -> body_of (st_start st) (cut i) ++ body_of (cut i) (cut (S i)) = body_of (st_start st) (cut (S i)).
Proof.
  intros Hi. pose proof (cut_spec i Hi) as Hc. destruct (chunkSpan cs st _) as [a b]. pose proof Hst as (_ & ? & _).
  unfold body_of. apply slice_app; lia.
Qed.

Lemma body_prefix n m : 0 <= m -> st_start st <= n -> n + m <= st_end st + 1 ->
  body_of (st_start st) n ++ body_of n (n + m) `prefix_of` requested.
Proof.
  pose proof Hst as (_ & ? & _). intros. exists (body_of (n + m) (st_end st + 1)). unfold requested, body_of.
  rewrite !slice_app by lia. done.
Qed.

(** ** The headers *)

Lemma commit_committed (w0 : http.ResponseWriter) :
  uncommitted w0 -> committed st x (commit st w0) /\ http.w_body (commit st w0) = [].
Proof.
  intros [[Hs Hb] Hh]. pose proof Hst as (Hc & Hse & He & Ht).
  assert (int64_max = 9223372036854775807) as Hmax by done.
  unfold committed, commit, writeRangeHeaders, http.status, http.sent_header.
  rewrite (wrap64_small (st_end st - _)), wrap64_small by (unfold int64_min; lia).
  destruct (st_ranged st); cbn [String.eqb negb]; [set (cr := "bytes " +:+ _)|].
  1: replace (String.eqb cr "") with false by done; cbn [negb].
  all: rewrite http.WriteHeader_sent by done; simpl; rewrite Hh;
    (split; [|by rewrite (proj1 (http.WriteHeader_frame _ _))]);
    repeat split; intros; by simplify_map_eq.
Qed.

Lemma committed_sent w1 w2 : http.w_sent w2 = http.w_sent w1 -> committed st x w1 -> committed st x w2.
Proof. unfold committed, http.status, http.sent_header. by intros ->. Qed.

Lemma committed_Some w1 : committed st x w1 -> exists y, http.w_sent w1 = Some y.
Proof. intros [Hs _]. unfold http.status in Hs. destruct (http.w_sent w1) as [y|]; [by exists y|done]. Qed.

Lemma streamed_cut_short n w1 : st_start st <= n <= st_end st + 1 -> streamed n w1 -> cut_short w1.
Proof.
  intros Hn [Hc Hb]. split; [done|]. rewrite Hb. pose proof Hst as (_ & ? & _).
  exists (body_of n (st_end st + 1)). unfold requested, body_of. symmetry. apply slice_app; lia.
Qed.

Lemma streamed_cut i w1 : (i < N)%nat -> streamed (cut i) w1 -> cut_short w1.
Proof.
  intros Hi. pose proof (cut_spec i Hi) as Hc. destruct (chunkSpan cs st _) as [a b].
  apply streamed_cut_short. lia.
Qed.

(** ** The steps *)

(** Writing chunk [i] moves the body from its cut to the next, or leaves a
    prefix. *)
Lemma write_chunk_out i cr w1 w2 e :
  (i < N)%nat -> honest i cr -> err cr = None -> chunkStart cr = (chunkSpan cs st (Z.of_nat i)).1 ->
  streamed (cut i) w1 -> write_and_flush h (st_start st) (st_end st) cr w1 = (w2, e) ->
  match e with None => streamed (cut (S i)) w2 | Some _ => cut_short w2 end.
Proof.
  intros Hi [?|Hh] He Hcs [Hc Hb] Hw; [done|]. pose proof (cut_spec i Hi) as Hcut. rewrite <- Hcs in Hh.
  destruct (chunkSpan cs st (Z.of_nat i)) as [a b]. cbn [fst snd] in *. subst a.
  destruct Hcut as (Hab & Hbt & Hbm & Hc1 & Hc2 & Hlt & Hle). pose proof Hst as (Hcs0 & Hs & Hse & Ht).
  assert (int64_max = 9223372036854775807) as Hmax by done.
  destruct (committed_Some w1 Hc) as [y Hy].
  pose proof (writeSlice_span h obj (st_start st) (st_end st) cr (b + 1) w1 Hh ltac:(lia) ltac:(lia) ltac:(lia)
    ltac:(lia)) as Hspan.
  cbn zeta in Hspan. rewrite <- Hc1, <- Hc2 in Hspan. destruct (Z.leb_spec (cut (S i)) (cut i)); [lia|].
  unfold write_and_flush in Hw. rewrite Hspan in Hw.
  pose proof (http.Write_committed (slice (cut i) (cut (S i)) obj) w1 y Hy) as Hy'.
  destruct (http.Write _ w1) as [[w3 k] e3] eqn:Hwr. cbn [fst] in Hy'.
  apply http.Write_body in Hwr as (Hk & Hb3 & Hfull & _ & _).
  rewrite (slice_length (cut i) (cut (S i)) obj) in * by lia.
  assert (committed st x w3) as Hc3 by (apply (committed_sent w1); congruence).
  rewrite take_slice in Hb3 by lia. fold (body_of (cut i) (cut i + k)) in Hb3. rewrite Hb in Hb3.
  assert (cut_short w3) as Hshort.
  { split; [done|]. rewrite Hb3. apply body_prefix; lia. }
  destruct e3 as [e3|]; [by injection Hw as <- <-|].
  assert (streamed (cut (S i)) w3) as Hfin.
  { split; [done|]. rewrite Hb3, Hfull by done. replace (cut i + (cut (S i) - cut i)) with (cut (S i)) by lia.
    by apply cut_join. }
  destruct (http.Flush w3) as [e4|]; [destruct (errors.IsNotSupported e4)|]; by injection Hw as <- <-.
Qed.

Lemma delivered_honest i r : match r with inl _ => True | inr cr => honest i cr end -> honest i (delivered cs st i r).
Proof.
  unfold delivered. destruct r as [e|cr]; intros Hr; [left; by simpl|].
  destruct Hr as [He|(He & Hcont & Hsize)]; [by left|right]. split; [done|]. by split.
Qed.

(** An abort before the first byte answers with an error page that claims
    nothing about the object. *)
Lemma error_page_out a w1 w2 e :
  out_inv (CAbort a) w1 -> abort_response a w1 = (w2, e) -> out_inv (CDone (Some e)) w2.
Proof.
  intros Ho Ha. destruct a as [e1|e1|e1]; simpl in Ha; injection Ha as <- <-; [right|right|by left].
  all: destruct Ho as [[Hs Hb] _].
  - split; [right; by apply Error_status|].
    rewrite !Error_header by done. simpl. by simplify_map_eq.
  - destruct (httpErrorFromS3_response (dropValidatorHeaders w1) e1) as [Hst1 Hhd]; [done|].
    split; [by left|]. rewrite !Hhd by done. simpl. by simplify_map_eq.
Qed.

Lemma out_inv_ext c w1 w2 :
  http.w_hdr w2 = http.w_hdr w1 -> http.w_sent w2 = http.w_sent w1 -> http.w_body w2 = http.w_body w1 ->
  out_inv c w1 -> out_inv c w2.
Proof.
  intros Hh Hs Hb.
  assert (uncommitted w1 -> uncommitted w2) as Hu by (unfold uncommitted, http.pristine; by rewrite Hh, Hs, Hb).
  assert (forall n, streamed n w1 -> streamed n w2) as Hst'.
  { intros n [??]. split; [by eapply committed_sent|congruence]. }
  assert (cut_short w1 -> cut_short w2) as Hcut.
  { intros [??]. split; [by eapply committed_sent|congruence]. }
  destruct c as [[|i]|i cr|[e|e|e]| |[e|]]; simpl; auto.
  intros [?|?]; [by left; auto|right]. revert H. unfold error_page, http.status, http.sent_header. by rewrite Hs.
Qed.

(** A step that touches neither the consumer nor the response. *)
Lemma out_frame s s' : cons s' = cons s -> w s' = w s -> out_ok s -> out_ok s'.
Proof. unfold out_ok. by intros -> ->. Qed.

Lemma recv_out now k m s s' : serveinv.Inv cs wk st ok k m s -> out_ok s -> recv st ok now s = Some s' -> out_ok s'.
Proof.
  unfold out_ok. intros HI Ho. unfold recv. destruct (cons s) as [i| | | |] eqn:Hc; try done.
  destruct (pending s !! i) as [cr|] eqn:Hp; [|done]. simpl. destruct total_eq as [_ HN].
  destruct (err cr) as [e|] eqn:He; intros [= <-]; destruct i as [|i]; cbn in *; try done.
  - pose proof (serveinv.v_cons _ _ _ _ _ _ _ HI) as Hat. rewrite Hc in Hat.
    apply (streamed_cut (S i)); [apply Hat|done].
  - destruct (commit_committed (w s) Ho) as [Hcm Hb]. split; [done|]. rewrite Hb. unfold body_of.
    by rewrite slice_nil.
Qed.

Lemma recv_gone_out k m s s' : serveinv.Inv cs wk st ok k m s -> out_ok s -> recv_gone s = Some s' -> out_ok s'.
Proof.
  unfold out_ok, recv_gone. intros HI Ho He. destruct (cons s) as [i| | | |] eqn:Hc; try done.
  destruct (gone s); [|done]. injection He as <-. destruct i as [|i]; cbn in *; [done|].
  pose proof (serveinv.v_cons _ _ _ _ _ _ _ HI) as Hat. rewrite Hc in Hat.
  apply (streamed_cut (S i)); [apply Hat|done].
Qed.

Lemma write_out k m s s' :
  serveinv.Inv cs wk st ok k m s -> out_ok s -> (forall i cr, cons s = CWrite i cr -> in_place i cr) ->
  write cs st h ok s = Some s' -> out_ok s'.
Proof.
  unfold out_ok. intros HI Ho Hplace. unfold write. destruct (cons s) as [|i cr| | |] eqn:Hc; try done.
  pose proof (serveinv.v_cons _ _ _ _ _ _ _ HI) as Hat. rewrite Hc in Hat. destruct Hat as [-> Hik].
  destruct (serveinv.v_bound _ _ _ _ _ _ _ HI) as [HkN _].
  destruct (serveinv.v_hand _ _ _ _ _ _ _ HI i cr Hc) as (_ & He & _).
  destruct (Hplace i cr eq_refl) as [Hhon Hcs].
  destruct (write_and_flush h (st_start st) (st_end st) cr (w s)) as [w2 e] eqn:Hw.
  pose proof (write_chunk_out i cr (w s) w2 e ltac:(lia) Hhon He Hcs Ho Hw) as Hout.
  destruct e as [e|]; [by intros [= <-]|]. simpl. destruct (0 <? slots s); [|done].
  intros [= <-]. simpl. destruct (Nat.ltb_spec (S i) N) as [|Hge]; [done|].
  simpl. rewrite <- cut_last. by replace N with (S i) by lia.
Qed.

Lemma join_out s s' : out_ok s -> join cs st s = Some s' -> out_ok s'.
Proof.
  unfold out_ok, join. intros Ho He. destruct (no_goroutine s); [|done].
  destruct (cons s) as [| |a| |] eqn:Hc; try done; [|by injection He as <-].
  destruct (abort_response a (w s)) as [w2 e] eqn:Ha. injection He as <-. by apply (error_page_out a (w s)).
Qed.

(** Only a write needs to know what the chunk in hand holds. *)
Lemma out_step k m s e s' :
  serveinv.Inv cs wk st ok k m s -> out_ok s ->
  (e = EWrite -> forall i cr, cons s = CWrite i cr -> in_place i cr) ->
  exec (Machine:=serve_machine cs wk st h ok) s e = Some s' -> out_ok s'.
Proof.
  intros HI Ho Hh He. destruct e; cbn in He.
  - injection He as <-. by apply (out_frame s).
  - injection He as <-. by apply (out_inv_ext _ (w s)).
  - unfold take_slot in He. destruct (disp s); inv_bind; subst; by apply (out_frame s).
  - unfold stop in He. destruct (disp s); inv_bind; subst; by apply (out_frame s).
  - unfold loop_end in He. destruct (disp s); inv_bind; subst; by apply (out_frame s).
  - unfold spawn in He. destruct (disp s); [done| |done|done]. destruct (gone s); injection He as <-; by apply (out_frame s).
  - unfold admit_chunk in He. inv_bind. subst. by apply (out_frame s).
  - unfold see_admitted in He. destruct (disp s); inv_bind; subst; by apply (out_frame s).
  - unfold deliver in He. inv_bind. subst. by apply (out_frame s).
  - by eapply recv_out.
  - by eapply recv_gone_out.
  - eapply write_out; [done..| |done]. by apply Hh.
  - by eapply join_out.
Qed.

(** What is delivered stays what it was. *)
Lemma results_step s e s' :
  results_ok s -> honest_event e -> exec (Machine:=serve_machine cs wk st h ok) s e = Some s' -> results_ok s'.
Proof.
  unfold results_ok. intros Hres Hh He.
  destruct (serveinv.serve_frame cs wk st h ok s e s' He) as (Hr & _ & _).
  destruct e; try by rewrite Hr.
  cbn in He. unfold deliver in He. inv_bind. subst. simpl.
  intros j cr. rewrite lookup_insert_Some. intros [[<- <-]|[_ Hj]]; [|by apply Hres].
  split; [|done]. apply delivered_honest. by destruct r.
Qed.

Lemma serve_out timeout es s :
  Forall honest_event es -> run (H:=serve_machine cs wk st h ok) (start timeout x) es = Some s -> out_ok s.
Proof.
  intros Hes. pose proof (serveinv.start_Inv cs wk st ok timeout x Hst) as HI0.
  assert (exists k m, serveinv.Inv cs wk st ok k m (start timeout x)) as HI by eauto. clear HI0.
  assert (results_ok (start timeout x)) as HR by done.
  assert (out_ok (start timeout x)) as HO by done.
  revert HI HR HO. generalize (start timeout x). induction Hes as [|e es He Hes IH]; intros s0; simpl.
  - by intros _ _ ? [= <-].
  - destruct (exec s0 e) as [s1|] eqn:Hx1; simpl; [|done]. intros (k & m & HI) HR HO Hr.
    apply (IH s1); [by apply (serveinv.serve_Inv_step cs wk st h ok k m s0 e)|by eapply results_step| |done].
    eapply out_step; [done..| |done]. intros _ i cr Hc.
    destruct (serveinv.v_hand _ _ _ _ _ _ _ HI i cr Hc) as (Hi & _). by apply HR.
Qed.

End out.

(** What the client of the stream [st] of the object [obj] has, [x] being the
    response as [Get] left it. *)
Definition response_ok (st : stream) (x : http.ResponseWriter) (obj : bytes) (s : state) : Prop :=
  let prefix := committed st x (w s) /\ http.w_body (w s) `prefix_of` slice (st_start st) (st_end st + 1) obj in
  match cons s with
  | CDone None =>
      committed st x (w s) /\ http.w_body (w s) = slice (st_start st) (st_end st + 1) obj /\
      Z.of_nat (length (http.w_body (w s))) = st_end st - st_start st + 1
  | CDone (Some e) => prefix \/ error_page e (w s)
  | _ => http.pristine (w s) \/ prefix
  end.

Lemma out_response cs wk st ok x obj k m s :
  stream_ok cs st -> Z.of_nat (length obj) = st_total st -> serveinv.Inv cs wk st ok k m s ->
  out_ok cs st x obj s -> response_ok st x obj s.
Proof.
  intros Hst Hobj HI Ho. unfold out_ok in Ho.
  pose proof (serveinv.v_cons _ _ _ _ _ _ _ HI) as Hat. destruct (serveinv.v_bound _ _ _ _ _ _ _ HI) as [Hk _].
  assert (forall i, (i < total_chunks cs st)%nat -> streamed st x obj (cut cs st i) (w s) -> cut_short st x obj (w s)) as Hcut.
  { intros i Hi. by eapply streamed_cut. }
  unfold response_ok. destruct (cons s) as [[|i]|i cr|[e|e|e]| |[e|]]; simpl in Ho, Hat.
  - left. by destruct Ho.
  - right. apply (Hcut (S i)); [lia|done].
  - right. apply (Hcut i); [lia|done].
  - left. by destruct Ho.
  - left. by destruct Ho.
  - by right.
  - right. apply (streamed_cut_short cs st x obj Hst (st_end st + 1)); [|done].
    destruct Hst as (? & ? & ?). lia.
  - done.
  - destruct Ho as [Hc Hb]. split; [done|]. split; [done|]. rewrite Hb. destruct Hst as (_ & ? & ? & _).
    unfold body_of. rewrite slice_length; lia.
Qed.

(** C9: the client receives the bytes it asked for. Whatever the schedule,
    and wherever each chunk came from, a response that completes has the
    status and headers announced and exactly the requested bytes of the
    object, as many as its Content-Length says; while it streams, and when
    it is aborted, the body is a prefix of them; an abort before the first
    byte is an error page without the object's validators. *)
Theorem serve_output cs wk st h ok timeout x obj es s :
  stream_ok cs st -> Z.of_nat (length obj) = st_total st -> http.pristine x ->
  Forall (honest_event cs st h obj) es ->
  run (H:=serve_machine cs wk st h ok) (start timeout x) es = Some s ->
  response_ok st x obj s.
Proof.
  intros Hst Hobj Hx Hes Hr.
  destruct (serveinv.serve_Inv cs wk st h ok timeout x es s Hst Hr) as (k & m & HI).
  by eapply out_response, serve_out.
Qed.

(** The whole stream, and the same request when its first fetch fails. *)
Lemma serve_output_witness :
  let s := serveinv.serveinv_examples.after serve_examples.finished in
  cons s = CDone None /\ http.w_body (w s) = slice 2 10 serve_examples.obj.
Proof.
  assert (cons (serveinv.serveinv_examples.after serve_examples.finished) = CDone None) as Hc
    by (vm_compute; reflexivity).
  split; [exact Hc|].
  pose proof (serve_output 4 8 serve_examples.st serve_examples.h true 45 (http.fresh None None) serve_examples.obj
    serve_examples.finished (serveinv.serveinv_examples.after serve_examples.finished)
    serveinv.serveinv_examples.ok eq_refl (conj eq_refl eq_refl)) as Hout.
  unfold response_ok in Hout. rewrite Hc in Hout. apply Hout; [|vm_compute; reflexivity].
  repeat constructor; right; vm_compute; repeat split.
Defined.
End serveout.
