(* ===== verification/ServeLive.v ===== *)
(** * The streaming machine: progress

    A request whose fetches return is served in a bounded number of steps,
    and at no point are its dispatcher, its fetches and its consumer all
    waiting for each other. *)
From S2P Require Import Prelude GoStd GoTime Http Request HeadCache Budget Chunk DiskCache Flights WriteGuard Fetcher Serve ServeInv.

Module servelive.
Import chunk guard fetcher serve serveinv.

(** The steps of the request itself; the others are the client's. A fetch
    that returns is one of them: [FlightsLive] has that fetches do. *)
Definition own (e : event) : bool :=
  match e with ECancel _ | EBreak _ _ => false | _ => true end.

Section live.
Context (cs wk : Z) (st : stream) (h : heap) (ok : bool).
Abbreviation N := (total_chunks cs st).
#[local] Instance this : Machine state event := serve_machine cs wk st h ok.

(** ** A measure *)

Definition disp_rank (d : disp_pc) : Z :=
  match d with
  | DSelect i => 6 * (Z.of_nat N - Z.of_nat i) + 1
  | DCheck i => 6 * (Z.of_nat N - Z.of_nat i)
  | DWait i => 6 * (Z.of_nat N - Z.of_nat i) - 4
  | DDone => 0
  end.
Definition gor_rank (g : goroutine) : Z :=
  if running g then (if adm g then 2 else 3) else 0.
Definition cons_rank (c : cons_pc) : Z :=
  match c with
  | CRecv i => 2 * (Z.of_nat N - Z.of_nat i) + 3
  | CWrite i _ => 2 * (Z.of_nat N - Z.of_nat i) + 2
  | CAbort _ | CJoin => 1
  | CDone _ => 0
  end.
Definition rank (s : state) : Z := disp_rank (disp s) + msum gor_rank (gors s) + cons_rank (cons s).

Lemma serve_rank_nonneg k m s : Inv cs wk st ok k m s -> 0 <= rank s.
Proof.
  intros HI. unfold rank. pose proof (v_disp _ _ _ _ _ _ _ HI) as Hd. pose proof (v_cons _ _ _ _ _ _ _ HI) as Hc.
  destruct (v_bound _ _ _ _ _ _ _ HI) as [Hk Hm].
  assert (0 <= msum gor_rank (gors s)).
  { apply msum_nonneg. intros i g _. unfold gor_rank. by destruct (running g), (adm g). }
  assert (0 <= disp_rank (disp s)) by (destruct (disp s); simpl in *; lia).
  assert (0 <= cons_rank (cons s)) by (destruct (cons s); simpl in *; lia).
  lia.
Qed.

(** Every step of the request's own lowers the measure. *)
Lemma rank_step k m s e s' :
  Inv cs wk st ok k m s -> own e = true -> exec s e = Some s' -> rank s' < rank s.
Proof.
  intros HI Ho He. pose proof (v_disp _ _ _ _ _ _ _ HI) as Hd. pose proof (v_cons _ _ _ _ _ _ _ HI) as Hc.
  destruct (v_bound _ _ _ _ _ _ _ HI) as [Hk Hm]. unfold rank.
  destruct e; try done; cbn in He.
  - unfold take_slot in He. destruct (disp s); inv_bind. subst. simpl. lia.
  - unfold stop in He. destruct (disp s) as [i| |i|]; simpl in Hd; try done; inv_bind; subst; simpl; lia.
  - unfold loop_end in He. destruct (disp s) as [i| | |]; simpl in Hd; inv_bind. subst. simpl. lia.
  - unfold spawn in He. destruct (disp s) as [|i| |] eqn:Hdd; try done. simpl in Hd.
    destruct (gone s); injection He as <-; simpl; [lia|].
    rewrite msum_insert_new; [unfold gor_rank at 1; cbn [running adm]; lia|].
    apply eq_None_not_Some. intros Hx%(v_gors _ _ _ _ _ _ _ HI). lia.
  - unfold admit_chunk in He. inv_bind. subst. simpl. erewrite msum_insert_old by done.
    apply andb_true_iff in E0 as [Hr Ha]. apply negb_true_iff in Ha. unfold gor_rank. simpl. rewrite Hr, Ha. lia.
  - unfold see_admitted in He. destruct (disp s) as [| |i|]; simpl in Hd; inv_bind. subst. simpl. lia.
  - unfold deliver in He. inv_bind. subst. simpl. erewrite msum_insert_old by done.
    unfold gor_rank. simpl. rewrite E0. destruct (adm _); lia.
  - unfold recv in He. destruct (cons s) as [i| | | |]; simpl in Hc; try done. inv_bind.
    destruct (err _); injection He as <-; simpl; lia.
  - unfold recv_gone in He. destruct (cons s) as [i| | | |]; simpl in Hc; try done. inv_bind. subst. simpl. lia.
  - unfold write in He. destruct (cons s) as [|i cr| | |]; simpl in Hc; try done.
    destruct (write_and_flush _ _ _ _ _) as [w2 [e|]]; simpl in He; [injection He as <-; simpl; lia|].
    inv_bind. subst. simpl. destruct (Nat.ltb_spec (S i) N); simpl; lia.
  - unfold join in He. destruct (no_goroutine s); [|done]. destruct (cons s) as [| |a| |]; try done.
    + destruct (abort_response a (w s)). injection He as <-. simpl. lia.
    + injection He as <-. simpl. lia.
Qed.

(** ** Somebody can always move *)

Lemma gor_done_adm k m s i :
  Inv cs wk st ok k m s -> map_Forall (fun _ g => running g = false) (gors s) -> (i < k)%nat ->
  exists g, gors s !! i = Some g /\ running g = false /\ adm g = true.
Proof.
  intros HI Hall Hi. destruct (proj2 (v_gors _ _ _ _ _ _ _ HI i) Hi) as [g Hg]. exists g.
  pose proof (Hall i g Hg) as Hr. split; [done|]. split; [done|].
  destruct (v_adm _ _ _ _ _ _ _ HI i g Hg) as [Ha _]. by apply Ha.
Qed.

(** Once its fetch has returned, the chunk the consumer waits for is there. *)
Lemma head_ready k m s i :
  Inv cs wk st ok k m s -> map_Forall (fun _ g => running g = false) (gors s) ->
  cons s = CRecv i -> (i < k)%nat -> is_Some (pending s !! i).
Proof.
  intros HI Hall Hc Hi. destruct (gor_done_adm k m s i HI Hall Hi) as (g & Hg & Hr & _).
  destruct (proj2 (v_results _ _ _ _ _ _ _ HI i) (ex_intro _ g (conj Hg Hr))) as [cr Hcr].
  pose proof (v_cons _ _ _ _ _ _ _ HI) as Hat. rewrite Hc in Hat. destruct Hat as [-> _].
  destruct (v_closed _ _ _ _ _ _ _ HI) as (_ & _ & Hcl & _). rewrite Hc in Hcl. specialize (Hcl eq_refl i).
  destruct (v_kept _ _ _ _ _ _ _ HI i cr Hcr) as [?|[?|[Hx|[Hx _]]]]; [|done| |]; try (rewrite Hc in Hx; done).
  assert (i < i)%nat; [by apply Hcl|lia].
Qed.

Lemma recv_enabled s i cr : cons s = CRecv i -> pending s !! i = Some cr -> exists s', exec s (ERecv 0) = Some s'.
Proof. intros Hc Hp. cbn. unfold recv. rewrite Hc, Hp. simpl. destruct (err cr); eauto. Qed.

Lemma write_enabled s i cr : cons s = CWrite i cr -> 0 < slots s -> exists s', exec s EWrite = Some s'.
Proof.
  intros Hc Hs. cbn. unfold write. rewrite Hc. destruct (write_and_flush _ _ _ _ _) as [w2 [e|]]; [eauto|].
  simpl. destruct (Z.ltb_spec 0 (slots s)); [eauto|lia].
Qed.

Lemma consumer_moves k m s :
  Inv cs wk st ok k m s -> map_Forall (fun _ g => running g = false) (gors s) ->
  match cons s with CRecv _ | CWrite _ _ => True | _ => False end -> (m < k)%nat ->
  exists e s', own e = true /\ exec s e = Some s'.
Proof.
  intros HI Hall Hcase Hmk. pose proof (v_cons _ _ _ _ _ _ _ HI) as Hat.
  destruct (v_slots _ _ _ _ _ _ _ HI) as [Hs _].
  assert (0 <= slots s - (Z.of_nat k - Z.of_nat m)) by (destruct (disp s); simpl in Hs; lia).
  destruct (cons s) as [i|i cr| | |] eqn:Hc; try done; destruct Hat as [-> _].
  - destruct (head_ready k i s i HI Hall Hc Hmk) as [cr Hp]. destruct (recv_enabled s i cr Hc Hp) as [s' Hs']. by exists (ERecv 0), s'.
  - destruct (write_enabled s i cr Hc) as [s' Hs']; [lia|]. by exists EWrite, s'.
Qed.

Lemma some_step k m s :
  Inv cs wk st ok k m s -> (exists r, cons s = CDone r) \/ exists e s', own e = true /\ exec s e = Some s'.
Proof.
  intros HI. destruct (decide (map_Forall (fun _ g => running g = false) (gors s))) as [Hall|Hrun].
  2: { right. apply map_not_Forall in Hrun as (i & g & Hi & Hr); [|apply _].
       exists (EDeliver i (inl Canceled) 0). cbn. unfold deliver. rewrite Hi. simpl.
       destruct (running g); [eauto|done]. }
  pose proof (v_disp _ _ _ _ _ _ _ HI) as Hd. destruct (v_slots _ _ _ _ _ _ _ HI) as [Hs _].
  destruct (v_bound _ _ _ _ _ _ _ HI) as [Hk Hm]. pose proof (window_pos wk).
  pose proof (v_cons _ _ _ _ _ _ _ HI) as Hat. destruct (v_gone _ _ _ _ _ _ _ HI) as [Hga Hgd].
  destruct (disp s) as [i|i|i|] eqn:Hdd; simpl in Hd, Hs.
  - subst k. destruct (Nat.ltb_spec i N) as [Hi|Hi].
    2: { right. exists EEnd. cbn. unfold loop_end. rewrite Hdd.
         destruct (Nat.ltb_spec i N); [lia|eauto]. }
    destruct (Z.ltb_spec (slots s) (window wk)) as [Hsl|Hsl].
    { right. exists ETake. cbn. unfold take_slot. rewrite Hdd.
      destruct (Nat.ltb_spec i N), (Z.ltb_spec (slots s) (window wk)); try lia. simpl. eauto. }
    destruct (cons s) as [j|j cr|a| |r] eqn:Hc; simpl in Hat; [| | |lia|by left; exists r].
    + right. apply (consumer_moves i m s HI Hall); [by rewrite Hc|lia].
    + right. apply (consumer_moves i m s HI Hall); [by rewrite Hc|lia].
    + right. exists EStop. cbn. unfold stop. rewrite Hdd. destruct (Nat.ltb_spec i N); [|lia].
      destruct (gone s) as [e|] eqn:Hg; [simpl; eauto|]. by destruct (Hga a eq_refl).
  - right. exists ESpawn. cbn. unfold spawn. rewrite Hdd. destruct (gone s); eauto.
  - right. destruct (gor_done_adm k m s i HI Hall ltac:(lia)) as (g & Hg & _ & Ha).
    exists EAdmitted. cbn. unfold see_admitted. rewrite Hdd, Hg. simpl. rewrite Ha. eauto.
  - assert (no_goroutine s = true) as Hno by (unfold no_goroutine; rewrite Hdd; by apply bool_decide_eq_true).
    destruct (cons s) as [j|j cr|a| |r] eqn:Hc; simpl in Hat; [| | | |by left; exists r].
    + right. destruct (gone s) as [e|] eqn:Hg.
      { exists ERecvGone. cbn. unfold recv_gone. rewrite Hc, Hg. simpl. eauto. }
      destruct (Hgd eq_refl) as [->|]; [|done].
      apply (consumer_moves N m s HI Hall); [by rewrite Hc|lia].
    + right. apply (consumer_moves k m s HI Hall); [by rewrite Hc|lia].
    + right. exists EJoin. cbn. unfold join. rewrite Hno, Hc. destruct (abort_response a (w s)). eauto.
    + right. exists EJoin. cbn. unfold join. rewrite Hno, Hc. eauto.
Qed.

(** When the last chunk started is the only one still being fetched, the
    consumer moves, or waits for it with nothing in its hands. *)
Lemma lone_fetch m s i g :
  Inv cs wk st ok (S i) m s -> gors s !! i = Some g -> running g = true ->
  (forall i' g', gors s !! i' = Some g' -> i' <> i -> running g' = false) ->
  gone s = None -> (forall x, cons s <> CDone x) ->
  (exists e s', (e = ERecv 0 \/ e = EWrite) /\ exec s e = Some s') \/
  forall i' cr, results s !! i' = Some cr -> i' ∈ closed s.
Proof.
  intros HI Hg Hr Honly Hgone Hov. destruct (v_bound _ _ _ _ _ _ _ HI) as [Hk Hm].
  pose proof (v_cons _ _ _ _ _ _ _ HI) as Hat. destruct (v_gone _ _ _ _ _ _ _ HI) as [Hga _].
  destruct (v_closed _ _ _ _ _ _ _ HI) as (_ & _ & Hcl & Hclr).
  assert (i ∉ closed s) as Hopen.
  { intros (g2 & Hg2 & Hr2)%Hclr%(v_results _ _ _ _ _ _ _ HI). congruence. }
  destruct (cons s) as [i0|i0 cr|a| |x] eqn:Hc; simpl in Hat.
  - destruct Hat as [-> Hi0]. specialize (Hcl eq_refl). destruct (decide (i0 = i)) as [->|Hne].
    + right. intros i' cr (g' & Hg' & Hr')%mk_is_Some%(v_results _ _ _ _ _ _ _ HI).
      apply Hcl. assert (i' < S i)%nat by (apply (v_gors _ _ _ _ _ _ _ HI); by exists g').
      destruct (decide (i' = i)) as [->|?]; [congruence|lia].
    + left. assert (i0 < i)%nat as Hlt.
      { destruct (decide (i < i0)%nat) as [Hx|?]; [by apply Hcl in Hx|lia]. }
      destruct (proj2 (v_gors _ _ _ _ _ _ _ HI i0)) as [g0 Hg0]; [lia|].
      destruct (proj2 (v_results _ _ _ _ _ _ _ HI i0)) as [cr Hcr]; [exists g0; eauto|].
      destruct (v_kept _ _ _ _ _ _ _ HI i0 cr Hcr) as [Hx|[[cr' Hp]|[Hx|[Hx _]]]];
        try (rewrite Hc in Hx; done); [apply Hcl in Hx; lia|].
      destruct (recv_enabled s i0 cr' Hc Hp) as [s' Hs']. exists (ERecv 0), s'. auto.
  - left. destruct Hat as [-> Hi0]. destruct (v_slots _ _ _ _ _ _ _ HI) as [Hs _].
    destruct (write_enabled s i0 cr Hc) as [s' Hs']; [destruct (disp s); simpl in Hs; lia|].
    exists EWrite, s'. auto.
  - by destruct (Hga a eq_refl).
  - destruct Hopen. apply (Hcl eq_refl). lia.
  - by destruct (Hov x).
Qed.

Lemma client_rank s e s' : own e = false -> exec s e = Some s' -> rank s' = rank s.
Proof. destruct e; try done; intros _; cbn; by intros [= <-]. Qed.

Definition steps (es : list event) : Z := Z.of_nat (length (List.filter own es)).

Lemma run_rank s es s' :
  (exists k m, Inv cs wk st ok k m s) -> run s es = Some s' -> steps es + rank s' <= rank s.
Proof.
  unfold steps. revert s. induction es as [|e es IH]; intros s (k & m & HI); simpl; [intros [= <-]; lia|].
  destruct (exec s e) as [s1|] eqn:He; simpl; [|done]. intros Hr.
  specialize (IH s1 (serve_Inv_step cs wk st h ok k m s e s1 HI He) Hr).
  destruct (own e) eqn:Ho.
  - pose proof (rank_step k m s e s1 HI Ho He). simpl. lia.
  - rewrite (client_rank s e s1 Ho He) in IH. done.
Qed.

Lemma start_rank timeout x : rank (start timeout x) = 8 * Z.of_nat N + 4.
Proof. unfold rank. simpl. rewrite msum_empty. lia. Qed.
End live.

(** C16: a request finishes. Whatever its client does meanwhile, it takes at
    most eight steps a chunk and four more; and until its consumer has
    returned one of them can always be taken, the return of a fetch that is
    running included: the slots, the order of admission, the hand-over of
    results and the final wait never block each other. *)
Theorem serve_terminates cs wk st h ok timeout x es s :
  stream_ok cs st -> run (H:=serve_machine cs wk st h ok) (start timeout x) es = Some s ->
  steps es <= 8 * nChunks cs st + 4 /\
  ((exists r, cons s = CDone r) \/
   exists e s', own e = true /\ exec (Machine:=serve_machine cs wk st h ok) s e = Some s').
Proof.
  intros Hst Hr. destruct (serve_Inv cs wk st h ok timeout x es s Hst Hr) as (k & m & HI). split.
  - assert (exists k m, Inv cs wk st ok k m (start timeout x)) as H0 by (eexists _, _; by apply start_Inv).
    pose proof (run_rank cs wk st h ok _ es s H0 Hr) as Hle. rewrite start_rank in Hle.
    pose proof (serve_rank_nonneg cs wk st ok k m s HI).
    destruct (chunk_indices cs st Hst) as (_ & _ & _ & Hn). unfold total_chunks in Hle. lia.
  - by apply (some_step cs wk st h ok k m).
Qed.

(** The complete stream of the example takes all but a few of its steps. *)
Lemma serve_terminates_witness :
  steps serve_examples.finished = 22 /\ steps serve_examples.finished <= 8 * 3 + 4.
Proof.
  split; [reflexivity|].
  apply (proj1 (serve_terminates 4 8 serve_examples.st serve_examples.h true 45 (http.fresh None None)
    serve_examples.finished (serveinv_examples.after serve_examples.finished) serveinv_examples.ok
    ltac:(vm_compute; reflexivity))).
Defined.
End servelive.
