(* ===== verification/Readahead.v ===== *)
(** * Readahead (services/readahead.go)

    The prefetch of the chunks past a served range: which chunks a kick asks
    for, and the machine of the kicks and fetches that share one semaphore
    and one set of keys. *)
From S2P Require Import Prelude GoStd GoTime Http Request HeadCache Budget Chunk DiskCache Flights Fetcher.
From Stdlib Require Import Ascii.

Module readahead.
Import fetcher.

(** ** [itoa] (lines 149-171)

    [i] is the room left in the 20-byte buffer, [acc] what [b[i:]] holds; a
    write below index 0 panics. *)
Definition digit_byte (d : Z) : ascii := ascii_of_N (Z.to_N ((48 + d) mod 256)).

Fixpoint itoa_loop (i : nat) (n : Z) (acc : string) : option (nat * string) :=
  if 0 <? n then
    match i with
    | O => None
    | S i => itoa_loop i (Z.quot n 10) (String (digit_byte (Z.rem n 10)) acc)
    end
  else Some (i, acc).

Definition itoa (n : Z) : option string :=
  if n =? 0 then Some "0"
  else
    let neg := n <? 0 in
    let n := if neg then wrap64 (- n) else n in
    '(i, b) ← itoa_loop 20 n "";
    if neg then match i with O => None | S _ => Some (String "-" b) end else Some b.

Lemma digit_byte_pretty x : (x < 10)%N -> digit_byte (Z.of_N x) = pretty_N_char x.
Proof.
  intros Hx. assert (x = 0 \/ x = 1 \/ x = 2 \/ x = 3 \/ x = 4 \/ x = 5 \/ x = 6
    \/ x = 7 \/ x = 8 \/ x = 9)%N as Hc by lia.
  by repeat destruct Hc as [-> | Hc]; [done..|subst].
Qed.

(** The loop prints the digits in front of [acc], one place of room each. *)
Lemma itoa_loop_spec k i x acc :
  Z.of_N x < 10 ^ Z.of_nat k -> (k <= i)%nat ->
  exists j, itoa_loop i (Z.of_N x) acc = Some (j, pretty_N_go x acc) /\ (i <= j + k)%nat.
Proof.
  revert i x acc. induction k as [|k IH]; intros i x acc Hx Hk.
  - assert (x = 0%N) as -> by (change (10 ^ Z.of_nat 0) with 1 in Hx; lia).
    exists i. split; [by destruct i|lia].
  - destruct (decide (x = 0%N)) as [->|Hne]; [exists i; split; [by destruct i|lia]|].
    destruct i as [|i]; [lia|].
    assert (itoa_loop (S i) (Z.of_N x) acc =
      itoa_loop i (Z.of_N (x / 10)) (String (pretty_N_char (x `mod` 10)) acc)) as ->.
    { cbn [itoa_loop]. destruct (Z.ltb_spec 0 (Z.of_N x)); [|lia]. f_equal.
      - rewrite N2Z.inj_div. apply Z.quot_div_nonneg; lia.
      - f_equal. rewrite <- digit_byte_pretty by (apply N.mod_lt; lia). f_equal.
        rewrite N2Z.inj_mod. apply Z.rem_mod_nonneg; lia. }
    rewrite pretty_N_go_step by lia. edestruct (IH i) as (j & Hj & Hi); [|lia|exists j; split; [exact Hj|lia]].
    rewrite N2Z.inj_div, Nat2Z.inj_succ, Z.pow_succ_r in * by lia. apply Z.div_lt_upper_bound; lia.
Qed.

Lemma itoa_pos x : (0 < x)%N -> Z.of_N x <= int64_max + 1 ->
  exists j, itoa_loop 20 (Z.of_N x) "" = Some (S j, pretty x).
Proof.
  intros Hx Hb. assert (int64_max = 9223372036854775807) as Hmax by done.
  destruct (itoa_loop_spec 19 20 x "") as (j & Hj & Hi); [|lia|].
  - apply Z.le_lt_trans with (int64_max + 1); [done|]. by vm_compute.
  - destruct j as [|j]; [lia|]. exists j. rewrite Hj. unfold pretty, pretty_N.
    destruct (decide (x = 0%N)); [lia|done].
Qed.

Lemma itoa_FormatInt_ok n : int64_min < n <= int64_max -> itoa n = Some (strconv.FormatInt n).
Proof.
  intros Hn. assert (int64_max = 9223372036854775807) as Hmax by done.
  assert (int64_min = -9223372036854775808) as Hmin by done.
  unfold itoa. destruct (Z.eqb_spec n 0) as [->|H0]; [done|].
  destruct n as [|p|p]; [done| |]; cbn zeta.
  - destruct (itoa_pos (N.pos p)) as [j Hj]; [done|lia|].
    change (Z.pos p <? 0) with false. cbn match. change (Z.pos p) with (Z.of_N (N.pos p)). by rewrite Hj.
  - destruct (itoa_pos (N.pos p)) as [j Hj]; [done|lia|].
    change (Z.neg p <? 0) with true. cbn match. rewrite wrap64_small by lia.
    change (- Z.neg p) with (Z.of_N (N.pos p)). by rewrite Hj.
Qed.

(** [itoa] never runs out of its buffer, and prints what [strconv] does;
    only the least 64-bit integer, whose opposite is itself, prints as a
    bare sign. *)
Theorem itoa_FormatInt n :
  int64_ok n ->
  itoa n = Some (if n =? int64_min then "-" else strconv.FormatInt n).
Proof.
  unfold int64_ok. intros Hn. destruct (Z.eqb_spec n int64_min) as [->|Hne]; [by vm_compute|].
  apply itoa_FormatInt_ok. lia.
Qed.

Lemma itoa_FormatInt_witness :
  int64_ok (-4194304) /\ itoa (-4194304) = Some (strconv.FormatInt (-4194304)) /\
  itoa int64_min = Some "-".
Proof.
  assert (int64_ok (-4194304)) as H by (vm_compute; split; discriminate).
  split; [exact H|]. split; [|reflexivity]. exact (itoa_FormatInt (-4194304) H).
Defined.

(** ** Which chunks a kick asks for *)

(** Lines 48-56, without the semaphore and the set, which are the state of
    the machine below. *)
Record Readahead := { chunks : Z; concurrency : Z; timeout : Z }.

(** Lines 58-70, of the values of the three flags. *)
Definition NewReadahead (chunks conc timeout : Z) : Readahead :=
  {| chunks := chunks; concurrency := if conc <? 1 then 1 else conc; timeout := timeout |}.

(** Lines 81-87; [n] iterations are left. *)
Fixpoint kick_loop (n : nat) (i from last : Z) : list Z :=
  match n with
  | O => []
  | S n => let c := from ⊕ i in if last <? c then [] else c :: kick_loop n (i ⊕ 1) from last
  end.

(** Lines 75-88: the chunks [schedule] is called for, in order. *)
Definition Kick (r : option Readahead) (chunkSize fromChunkIdx totalSize : Z) : list Z :=
  match r with
  | None => []
  | Some r =>
      if (chunks r =? 0) || (totalSize <=? 0) then []
      else
        let lastChunkIdx := (totalSize ⊖ 1) ÷₆₄ chunkSize in
        kick_loop (Z.to_nat (chunks r)) 0 fromChunkIdx lastChunkIdx
  end.

(** Lines 91-96. *)
Definition schedule_span (chunkSize totalSize chunkIdx : Z) : Z * Z :=
  let cStart := chunkIdx ⊗ chunkSize in
  let cEnd := (cStart ⊕ chunkSize) ⊖ 1 in
  (cStart, if totalSize ⊖ 1 <? cEnd then totalSize ⊖ 1 else cEnd).

(** Line 104. *)
Definition dedupKey (key : string) (cStart : Z) (v : objVersion) : option string :=
  b ← itoa cStart; Some (key +:+ "/" +:+ b +:+ "/" +:+ etag v).

Lemma kick_loop_spec n i from last c :
  0 <= i -> 0 <= from -> 0 <= last -> last + 1 + Z.of_nat n + i <= int64_max -> from <= last + 1 ->
  c ∈ kick_loop n i from last <-> from + i <= c < from + i + Z.of_nat n /\ c <= last.
Proof.
  assert (int64_max = 9223372036854775807) as Hmax by done.
  revert i. induction n as [|n IH]; intros i Hi Hf Hl Hb Hfl; cbn [kick_loop].
  { rewrite elem_of_nil. lia. }
  rewrite (wrap64_small (from + i)), (wrap64_small (i + 1)) by (unfold int64_min; lia).
  destruct (Z.ltb_spec last (from + i)) as [Hlt|Hle]; [rewrite elem_of_nil; lia|].
  rewrite elem_of_cons, IH by lia. lia.
Qed.

Lemma kick_loop_sorted n i from last :
  0 <= i -> 0 <= from -> 0 <= last -> last + 1 + Z.of_nat n + i <= int64_max -> from <= last + 1 ->
  StronglySorted Z.lt (kick_loop n i from last).
Proof.
  assert (int64_max = 9223372036854775807) as Hmax by done.
  revert i. induction n as [|n IH]; intros i Hi Hf Hl Hb Hfl; cbn [kick_loop]; [constructor|].
  rewrite (wrap64_small (from + i)), (wrap64_small (i + 1)) by (unfold int64_min; lia).
  destruct (Z.ltb_spec last (from + i)); constructor; [apply IH; lia|].
  apply Forall_forall. intros c Hc. apply kick_loop_spec in Hc; lia.
Qed.

(** The chunks a kick schedules, for a request whose numbers fit. *)
Lemma Kick_chunks cs st r :
  stream_ok cs st -> 0 <= chunks r -> st_total st + cs + chunks r <= int64_max ->
  let kicked := Kick (Some r) cs (lastChunkIdx cs st ⊕ 1) (st_total st) in
  StronglySorted Z.lt kicked /\
  forall c, c ∈ kicked <->
     st_end st / cs < c <= st_end st / cs + chunks r /\ c <= (st_total st - 1) / cs.
Proof.
  intros Hst Hn Hb kicked. pose proof Hst as (Hc & Hs & He & Ht).
  assert (int64_max = 9223372036854775807) as Hmax by done.
  assert (int64_min = -9223372036854775808) as Hmin by done.
  destruct (chunk_indices cs st Hst) as (_ & Hlast & _).
  destruct (div_bounds (st_end st) cs ltac:(lia) Hc) as [Hq1 Hq2].
  destruct (div_bounds (st_total st - 1) cs ltac:(lia) Hc) as [Hq3 Hq4].
  assert (kicked = kick_loop (Z.to_nat (chunks r)) 0 (st_end st / cs + 1) ((st_total st - 1) / cs)) as ->.
  { unfold kicked, Kick. rewrite Hlast, wrap64_small by lia. rewrite (wrap64_small (st_total st - 1)) by lia.
    rewrite quot_div_nonneg, wrap64_small by lia.
    destruct (Z.eqb_spec (chunks r) 0) as [->|]; [done|]. destruct (Z.leb_spec (st_total st) 0); [lia|done]. }
  assert (st_end st / cs <= (st_total st - 1) / cs) by (apply Z.div_le_mono; lia).
  split; [apply kick_loop_sorted; lia|]. intros c. rewrite kick_loop_spec by lia. lia.
Qed.

(** The chunk [c] of an object of [total] bytes. *)
Lemma schedule_span_eq cs total c :
  0 < cs -> 0 <= c -> c * cs <= total - 1 -> total + cs <= int64_max ->
  schedule_span cs total c = (c * cs, Z.min (c * cs + cs - 1) (total - 1)).
Proof.
  intros Hc H0 Hle Ht. assert (int64_max = 9223372036854775807) as Hmax by done.
  assert (int64_min = -9223372036854775808) as Hmin by done. assert (0 <= c * cs) by (apply Z.mul_nonneg_nonneg; lia).
  unfold schedule_span. rewrite (wrap64_small (c * cs)), (wrap64_small (c * cs + cs)) by lia.
  rewrite (wrap64_small (c * cs + cs - 1)), (wrap64_small (total - 1)) by lia. f_equal. zcases; lia.
Qed.

Lemma Kick_inside cs st r c :
  stream_ok cs st -> 0 <= chunks r -> st_total st + cs + chunks r <= int64_max ->
  c ∈ Kick (Some r) cs (lastChunkIdx cs st ⊕ 1) (st_total st) -> 0 <= c /\ st_end st < c * cs <= st_total st - 1.
Proof.
  intros Hst Hn Hb Hin. destruct (Kick_chunks cs st r Hst Hn Hb) as [_ Hk]. apply Hk in Hin as [Hc1 Hc2].
  destruct Hst as (Hc & Hs & He & Ht).
  destruct (div_bounds (st_end st) cs ltac:(lia) Hc) as [Hq1 Hq2].
  destruct (div_bounds (st_total st - 1) cs ltac:(lia) Hc) as [Hq3 Hq4].
  pose proof (Z.mul_le_mono_nonneg_l (st_end st / cs + 1) c cs ltac:(lia) ltac:(lia)).
  pose proof (Z.mul_le_mono_nonneg_l c ((st_total st - 1) / cs) cs ltac:(lia) ltac:(lia)). lia.
Qed.

(** C36: after a response a kick asks for the chunks that follow it, in order
    and each once: as many as configured, none past the end of the object,
    none of the bytes just served; each is the same aligned chunk, and is
    deduplicated under the same name, as a later request would fetch. *)
Theorem Kick_follows cs st r c :
  stream_ok cs st -> 0 <= chunks r -> st_total st + cs + chunks r <= int64_max ->
  let kicked := Kick (Some r) cs (lastChunkIdx cs st ⊕ 1) (st_total st) in
  StronglySorted Z.lt kicked /\
  (c ∈ kicked <->
     st_end st / cs < c <= st_end st / cs + chunks r /\ c <= (st_total st - 1) / cs) /\
  (c ∈ kicked ->
     let '(a, b) := schedule_span cs (st_total st) c in
     a = c * cs /\ st_end st < a <= b /\ b = Z.min (a + cs - 1) (st_total st - 1) /\
     dedupKey (st_key st) a (st_v st) = Some (fl.sfKey (st_key st) a (st_v st))).
Proof.
  intros Hst Hn Hb kicked. destruct (Kick_chunks cs st r Hst Hn Hb) as [Hs Hin].
  split; [done|]. split; [apply Hin|]. intros Hk.
  destruct (Kick_inside cs st r c Hst Hn Hb Hk) as [H0 Hc]. destruct Hst as (Hc0 & Hs0 & He & Ht).
  rewrite schedule_span_eq by lia. split; [done|]. split; [lia|]. split; [done|].
  unfold dedupKey. rewrite itoa_FormatInt_ok; [done|]. unfold int64_min. lia.
Qed.

(** The end of an object in chunks of four: bytes 0 to 5 of 15 were served. *)
Module kick_examples.
Definition st : stream :=
  {| st_key := "k"; st_v := {| etag := "e"; modified := time_zero |}; st_start := 0; st_end := 5;
     st_total := 15; st_ranged := true |}.
Definition r : Readahead := NewReadahead 4 8 30.
End kick_examples.

Lemma Kick_follows_witness :
  Kick (Some kick_examples.r) 4 2 15 = [2; 3] /\ StronglySorted Z.lt (Kick (Some kick_examples.r) 4 2 15) /\
  schedule_span 4 15 3 = (12, 14).
Proof.
  split; [reflexivity|]. split; [|reflexivity].
  refine (proj1 (Kick_follows 4 kick_examples.st kick_examples.r 2 _ _ _)); unfold stream_ok, int64_max; simpl; lia.
Defined.

(** ** Kicks and prefetches as a machine *)

(** The arguments of a kick that all its chunks share. *)
Record request := { r_key : string; r_v : objVersion; r_total : Z }.

(** A kick, with the chunks it has yet to schedule. *)
Inductive kick_pc :=
| KNext (rest : list Z)                        (* at the head of the loop, line 81 *)
| KMissed (c : Z) (rest : list Z)              (* the cache has no such chunk, line 104 *)
| KClaimed (dk : string) (c : Z) (rest : list Z)  (* before the select, line 114 *)
| KDrop (dk : string) (rest : list Z).         (* saturated, line 119 *)

(** A prefetch goroutine. *)
Inductive task_pc :=
| TFetch       (* in fetchChunk, line 136 *)
| TRelease     (* before [<-r.sem], line 129 *)
| TDelete      (* before the delete, line 131 *)
| TDone.

Record task := { tk_key : string; tk_v : objVersion; tk_start : Z; tk_end : Z; tk_dedup : string; tk_pc : task_pc }.
Definition set_pc (p : task_pc) (t : task) : task :=
  {| tk_key := tk_key t; tk_v := tk_v t; tk_start := tk_start t; tk_end := tk_end t;
     tk_dedup := tk_dedup t; tk_pc := p |}.

Record state := {
  sem : Z;
  inflight : gset string;
  kicks : gmap nat (request * kick_pc);
  tasks : gmap nat task;
}.

Inductive event :=
| EKick (id : nat) (q : request) (fromChunkIdx : Z)   (* a request calls Kick *)
| ELookup (id : nat) (hit : bool)    (* the cache answers, lines 98-102 *)
| EDedup (id : nat)                  (* lines 105-112 *)
| ESelect (id t : nat)               (* lines 114-126 *)
| EDrop (id : nat)                   (* lines 119-123 *)
| EFetched (t : nat)                 (* fetchChunk returns and its result is closed *)
| ERelease (t : nat)
| EDelete (t : nat)
.

Section machine.
Context (r : Readahead) (cs : Z).

Definition set_kick (id : nat) (x : request * kick_pc) (s : state) : state :=
  {| sem := sem s; inflight := inflight s; kicks := <[id := x]> (kicks s); tasks := tasks s |}.
Definition set_inflight (x : gset string) (s : state) : state :=
  {| sem := sem s; inflight := x; kicks := kicks s; tasks := tasks s |}.
Definition set_task (t : nat) (x : task) (n : Z) (s : state) : state :=
  {| sem := n; inflight := inflight s; kicks := kicks s; tasks := <[t := x]> (tasks s) |}.

Definition kick (id : nat) (q : request) (from : Z) (s : state) : option state :=
  match kicks s !! id with
  | Some _ => None
  | None => Some (set_kick id (q, KNext (Kick (Some r) cs from (r_total q))) s)
  end.

Definition lookup (id : nat) (hit : bool) (s : state) : option state :=
  '(q, pc) ← kicks s !! id;
  match pc with
  | KNext (c :: rest) => Some (set_kick id (q, if hit then KNext rest else KMissed c rest) s)
  | _ => None
  end.

Definition dedup (id : nat) (s : state) : option state :=
  '(q, pc) ← kicks s !! id;
  match pc with
  | KMissed c rest =>
      dk ← dedupKey (r_key q) (schedule_span cs (r_total q) c).1 (r_v q);
      if decide (dk ∈ inflight s) then Some (set_kick id (q, KNext rest) s)
      else Some (set_inflight ({[dk]} ∪ inflight s) (set_kick id (q, KClaimed dk c rest) s))
  | _ => None
  end.

Definition select (id t : nat) (s : state) : option state :=
  '(q, pc) ← kicks s !! id;
  match pc, tasks s !! t with
  | KClaimed dk c rest, None =>
      if sem s <? concurrency r then
        let '(a, b) := schedule_span cs (r_total q) c in
        let x := {| tk_key := r_key q; tk_v := r_v q; tk_start := a; tk_end := b; tk_dedup := dk;
                    tk_pc := TFetch |} in
        Some (set_task t x (sem s + 1) (set_kick id (q, KNext rest) s))
      else Some (set_kick id (q, KDrop dk rest) s)
  | _, _ => None
  end.

Definition drop_key (id : nat) (s : state) : option state :=
  '(q, pc) ← kicks s !! id;
  match pc with
  | KDrop dk rest => Some (set_inflight (inflight s ∖ {[dk]}) (set_kick id (q, KNext rest) s))
  | _ => None
  end.

Definition fetched (t : nat) (s : state) : option state :=
  x ← tasks s !! t;
  match tk_pc x with TFetch => Some (set_task t (set_pc TRelease x) (sem s) s) | _ => None end.

Definition release_sem (t : nat) (s : state) : option state :=
  x ← tasks s !! t;
  match tk_pc x with
  | TRelease => if 0 <? sem s then Some (set_task t (set_pc TDelete x) (sem s - 1) s) else None
  | _ => None
  end.

Definition delete_key (t : nat) (s : state) : option state :=
  x ← tasks s !! t;
  match tk_pc x with
  | TDelete => Some (set_inflight (inflight s ∖ {[tk_dedup x]}) (set_task t (set_pc TDone x) (sem s) s))
  | _ => None
  end.

#[global] Instance readahead_machine : Machine state event := fun s e =>
  match e with
  | EKick id q from => kick id q from s
  | ELookup id hit => lookup id hit s
  | EDedup id => dedup id s
  | ESelect id t => select id t s
  | EDrop id => drop_key id s
  | EFetched t => fetched t s
  | ERelease t => release_sem t s
  | EDelete t => delete_key t s
  end.

Definition idle : state := {| sem := 0; inflight := ∅; kicks := ∅; tasks := ∅ |}.

(** ** Keys and their owners

    A key is in the set while exactly one kick or prefetch owns it. *)
Definition owner : Type := nat + nat.

Definition kick_key (p : kick_pc) : option string :=
  match p with KClaimed dk _ _ | KDrop dk _ => Some dk | _ => None end.
Definition task_key (x : task) : option string :=
  match tk_pc x with TDone => None | _ => Some (tk_dedup x) end.
Definition owned (s : state) (o : owner) : option string :=
  match o with
  | inl id => kicks s !! id ≫= fun x => kick_key x.2
  | inr t => tasks s !! t ≫= task_key
  end.

Definition keys_ok (own : owner -> option string) (inf : gset string) : Prop :=
  (forall o1 o2 dk, own o1 = Some dk -> own o2 = Some dk -> o1 = o2) /\
  (forall dk, dk ∈ inf <-> exists o, own o = Some dk).

Lemma keys_ext own own' inf : (forall o, own' o = own o) -> keys_ok own inf -> keys_ok own' inf.
Proof.
  intros He [Hu Hi]. split; [intros o1 o2 dk; rewrite !He; apply Hu|].
  intros dk. rewrite Hi. split; intros [o Ho]; exists o; congruence.
Qed.

Lemma keys_add own own' inf o dk :
  keys_ok own inf -> own o = None -> dk ∉ inf ->
  (forall o', own' o' = if decide (o' = o) then Some dk else own o') -> keys_ok own' ({[dk]} ∪ inf).
Proof.
  intros [Hu Hi] Ho Hdk He. assert (forall o', own o' <> Some dk) as Hnew.
  { intros o' Ho'. apply Hdk, Hi. by exists o'. }
  split.
  - intros o1 o2 d. rewrite !He. repeat case_decide; subst; [done| | |apply Hu].
    + intros [= <-] Hx. by destruct (Hnew o2).
    + intros Hx [= <-]. by destruct (Hnew o1).
  - intros d. rewrite elem_of_union, elem_of_singleton, Hi. split.
    + intros [->|[o' Ho']]; [exists o; by rewrite He, decide_True|].
      exists o'. rewrite He, decide_False; [done|congruence].
    + intros [o' Ho']. rewrite He in Ho'. case_decide; [left; congruence|right; by exists o'].
Qed.

Lemma keys_remove own own' inf o dk :
  keys_ok own inf -> own o = Some dk ->
  (forall o', own' o' = if decide (o' = o) then None else own o') -> keys_ok own' (inf ∖ {[dk]}).
Proof.
  intros [Hu Hi] Ho He. split.
  - intros o1 o2 d. rewrite !He. repeat case_decide; try done. apply Hu.
  - intros d. rewrite elem_of_difference, elem_of_singleton, Hi. split.
    + intros [[o' Ho'] Hne]. exists o'. rewrite He, decide_False; [done|congruence].
    + intros [o' Ho']. rewrite He in Ho'. case_decide as Hd; [done|]. split; [by exists o'|].
      intros ->. by apply Hd, (Hu o' o dk).
Qed.

Lemma owned_kick id x s o :
  owned (set_kick id x s) o = if decide (o = inl id) then kick_key x.2 else owned s o.
Proof.
  destruct o as [id'|t]; unfold owned; cbn [kicks tasks set_kick]; [|by rewrite decide_False].
  rewrite lookup_insert. repeat case_decide; try congruence; done.
Qed.

Lemma owned_task t x n s o :
  owned (set_task t x n s) o = if decide (o = inr t) then task_key x else owned s o.
Proof.
  destruct o as [id|t']; unfold owned; cbn [kicks tasks set_task]; [by rewrite decide_False|].
  rewrite lookup_insert. repeat case_decide; try congruence; done.
Qed.

(** ** The invariant *)

Definition token (x : task) : Z := match tk_pc x with TFetch | TRelease => 1 | _ => 0 end.

Definition named (s : state) : Prop :=
  (forall t x, tasks s !! t = Some x -> dedupKey (tk_key x) (tk_start x) (tk_v x) = Some (tk_dedup x)) /\
  (forall id q dk c rest, kicks s !! id = Some (q, KClaimed dk c rest) ->
     dedupKey (r_key q) (schedule_span cs (r_total q) c).1 (r_v q) = Some dk).

Record Inv (s : state) : Prop := {
  a_sem : sem s = msum token (tasks s) /\ sem s <= Z.max 0 (concurrency r);
  a_keys : keys_ok (owned s) (inflight s);
  a_named : named s;
}.

Lemma token_nonneg s : 0 <= msum token (tasks s).
Proof. apply msum_nonneg. intros _ x _. unfold token. by destruct (tk_pc x). Qed.

(** A kick that moves on without touching the set. *)
Lemma kick_Inv id q p p' s :
  Inv s -> (kicks s !! id = Some (q, p) /\ kick_key p' = kick_key p) \/ (kicks s !! id = None /\ kick_key p' = None) ->
  (forall dk c rest, p' <> KClaimed dk c rest) -> Inv (set_kick id (q, p') s).
Proof.
  intros [Hs Hk [Hn1 Hn2]] Hid Hp. split; [done| |].
  - apply (keys_ext (owned s)); [|done]. intros o. rewrite owned_kick. case_decide as Ho; [|done].
    subst o. simpl. destruct Hid as [[-> ->]|[-> ->]]; done.
  - split; [done|]. intros id' q' dk c rest. simpl. rewrite lookup_insert_Some.
    intros [[_ [= _ Hx]]|[_ Hx]]; [by destruct (Hp dk c rest)|by eapply Hn2].
Qed.

Lemma dedup_Inv id s s' : Inv s -> dedup id s = Some s' -> Inv s'.
Proof.
  intros HI. unfold dedup. destruct (kicks s !! id) as [[q pc]|] eqn:Hid; [|done]. simpl.
  destruct pc as [rest|c rest| |]; try done. destruct (dedupKey _ _ _) as [dk|] eqn:Hdk; [|done]. simpl.
  destruct (decide _) as [Hin|Hin]; intros [= <-].
  - apply (kick_Inv id q (KMissed c rest)); [done|by left|done].
  - destruct HI as [Hs Hk [Hn1 Hn2]]. split; [done| |].
    + apply (keys_add (owned s) _ _ (inl id)); [done|simpl; by rewrite Hid|done|].
      intros o. exact (owned_kick id (q, KClaimed dk c rest) s o).
    + split; [done|]. intros id' q' dk' c' rest'. simpl. rewrite lookup_insert_Some.
      intros [[_ [= <- <- <- <-]]|[_ Hx]]; [done|by eapply Hn2].
Qed.

Lemma select_Inv id t s s' : Inv s -> select id t s = Some s' -> Inv s'.
Proof.
  intros HI. unfold select. destruct (kicks s !! id) as [[q pc]|] eqn:Hid; [|done]. simpl.
  destruct pc as [| |dk c rest|]; try done. destruct (tasks s !! t) eqn:Ht; [done|].
  destruct (Z.ltb_spec (sem s) (concurrency r)) as [Hlt|Hge]; intros Hs'.
  2: { injection Hs' as <-. apply (kick_Inv id q (KClaimed dk c rest)); [done|by left|done]. }
  destruct (schedule_span cs (r_total q) c) as [a b] eqn:Hspan. injection Hs' as <-.
  destruct HI as [Hs Hk [Hn1 Hn2]]. set (x := {| tk_key := _ |}).
  pose proof (Hn2 id q dk c rest Hid) as Hdk. rewrite Hspan in Hdk. injection Hspan as <- <-. split.
  - simpl. rewrite msum_insert_new by done. change (token x) with 1. lia.
  - assert (dk ∈ inflight s) as Hin by (apply Hk; exists (inl id); simpl; by rewrite Hid).
    simpl. rewrite (union_difference_L {[dk]} (inflight s)) by set_solver.
    apply (keys_add (owned (set_kick id (q, KNext rest) s)) _ _ (inr t)).
    + apply (keys_remove (owned s) _ _ (inl id)); [done|simpl; by rewrite Hid|]. intros o. apply owned_kick.
    + simpl. by rewrite Ht.
    + set_solver.
    + intros o. apply owned_task.
  - split; simpl.
    + intros t' y. rewrite lookup_insert_Some. intros [[_ <-]|[_ Hy]]; [exact Hdk|by eapply Hn1].
    + intros id' q' dk' c' rest'. rewrite lookup_insert_Some. intros [[_ [=]]|[_ Hx]]. by eapply Hn2.
Qed.

(** A prefetch that moves on. *)
Lemma task_Inv t x p n s :
  Inv s -> tasks s !! t = Some x -> task_key (set_pc p x) = task_key x ->
  n = sem s - token x + token (set_pc p x) -> token (set_pc p x) <= token x -> Inv (set_task t (set_pc p x) n s).
Proof.
  intros [Hs Hk [Hn1 Hn2]] Hx Hkey Hn Hle. split.
  - simpl. rewrite (msum_insert_old _ _ _ _ _ Hx). lia.
  - apply (keys_ext (owned s)); [|done]. intros o. rewrite owned_task. case_decide as Ho; [|done].
    subst o. simpl. by rewrite Hx.
  - split; [|done]. simpl. intros t' y. rewrite lookup_insert_Some. intros [[_ <-]|[_ Hy]]; [|by eapply Hn1].
    by apply (Hn1 t x).
Qed.

Lemma readahead_step s e s' : Inv s -> exec s e = Some s' -> Inv s'.
Proof.
  intros HI He. destruct e; cbn in He.
  - unfold kick in He. destruct (kicks s !! id) eqn:Hid; [done|]. injection He as <-.
    apply (kick_Inv id q (KNext [])); [done|by right|done].
  - unfold lookup in He. destruct (kicks s !! id) as [[q pc]|] eqn:Hid; [|done]. simpl in He.
    destruct pc as [[|c rest]| | |]; try done. injection He as <-.
    destruct hit; (apply (kick_Inv id q (KNext (c :: rest))); [done|by left|done]).
  - by eapply dedup_Inv.
  - by eapply select_Inv.
  - unfold drop_key in He. destruct (kicks s !! id) as [[q pc]|] eqn:Hid; [|done]. simpl in He.
    destruct pc as [| | |dk rest]; try done. injection He as <-. destruct HI as [Hs Hk [Hn1 Hn2]]. split; [done| |].
    + apply (keys_remove (owned s) _ _ (inl id)); [done|simpl; by rewrite Hid|].
      intros o. exact (owned_kick id (q, KNext rest) s o).
    + split; [done|]. simpl. intros id' q' dk' c' rest'. rewrite lookup_insert_Some.
      intros [[_ [=]]|[_ Hx]]. by eapply Hn2.
  - unfold fetched in He. destruct (tasks s !! t) as [x|] eqn:Hx; [|done]. simpl in He.
    destruct (tk_pc x) eqn:Hp; try done. injection He as <-.
    apply task_Inv; [done|done| | |]; unfold task_key, token; simpl; rewrite Hp; [done|lia|lia].
  - unfold release_sem in He. destruct (tasks s !! t) as [x|] eqn:Hx; [|done]. simpl in He.
    destruct (tk_pc x) eqn:Hp; try done. destruct (0 <? sem s); [|done]. injection He as <-.
    apply task_Inv; [done|done| | |]; unfold task_key, token; simpl; rewrite Hp; [done|lia|lia].
  - unfold delete_key in He. destruct (tasks s !! t) as [x|] eqn:Hx; [|done]. simpl in He.
    destruct (tk_pc x) eqn:Hp; try done. injection He as <-. destruct HI as [Hs Hk [Hn1 Hn2]]. split.
    + simpl. rewrite (msum_insert_old _ _ _ _ _ Hx). unfold token at 2 3. simpl. rewrite Hp. lia.
    + apply (keys_remove (owned s) _ _ (inr t)); [done|simpl; rewrite Hx; simpl; unfold task_key; by rewrite Hp|].
      intros o. exact (owned_task t (set_pc TDone x) (sem s) s o).
    + split; [|done]. simpl. intros t' y. rewrite lookup_insert_Some. intros [[_ <-]|[_ Hy]]; [|by eapply Hn1].
      by apply (Hn1 t x).
Qed.

Lemma idle_Inv : Inv idle.
Proof.
  split; simpl.
  - rewrite msum_empty. lia.
  - assert (forall o, owned idle o = None) as Hno by (by intros [?|?]).
    split; [intros o1 o2 dk; by rewrite Hno|]. intros dk. split; [set_solver|]. intros [o Ho]. by rewrite Hno in Ho.
  - split; [by intros t x|by intros id q dk c rest].
Qed.

Lemma readahead_Inv es s : run idle es = Some s -> Inv s.
Proof. apply run_invariant; [|apply idle_Inv]. intros s1 e s2. apply readahead_step. Qed.
End machine.

(** How many prefetches are running. *)
Definition running (s : state) : Z :=
  msum (fun x => match tk_pc x with TFetch => 1 | _ => 0 end) (tasks s).

Lemma task_owned s t x : tasks s !! t = Some x -> tk_pc x <> TDone -> owned s (inr t) = Some (tk_dedup x).
Proof. intros Hx Hp. simpl. rewrite Hx. simpl. unfold task_key. by destruct (tk_pc x). Qed.

(** C35: prefetching is bounded and never duplicates itself: in every
    interleaving of kicks at most the configured number of prefetches run,
    and two that run are never for the same chunk of the same version; when
    the kicks have returned and the prefetches ended, every slot and every
    key has been given back. *)
Theorem readahead_bounded chunks conc timeout cs es s :
  run (H:=readahead_machine (NewReadahead chunks conc timeout) cs) idle es = Some s ->
  running s <= Z.max 1 conc /\
  (forall t1 t2 x1 x2, tasks s !! t1 = Some x1 -> tasks s !! t2 = Some x2 ->
     tk_pc x1 <> TDone -> tk_pc x2 <> TDone ->
     tk_key x1 = tk_key x2 -> tk_start x1 = tk_start x2 -> etag (tk_v x1) = etag (tk_v x2) -> t1 = t2) /\
  ((forall id q pc, kicks s !! id = Some (q, pc) -> pc = KNext []) ->
   (forall t x, tasks s !! t = Some x -> tk_pc x = TDone) -> sem s = 0 /\ inflight s = ∅).
Proof.
  intros Hr. apply readahead_Inv in Hr as [[Hs Hc] [Hu Hi] [Hn _]]. split; [|split].
  - assert (running s <= msum token (tasks s)) as Hle.
    { apply msum_le. intros t x _. unfold token. by destruct (tk_pc x). }
    unfold NewReadahead in Hc. simpl in Hc. destruct (Z.ltb_spec conc 1); lia.
  - intros t1 t2 x1 x2 H1 H2 Hp1 Hp2 Hk Hst Hv.
    pose proof (Hn t1 x1 H1) as Hd1. pose proof (Hn t2 x2 H2) as Hd2. unfold dedupKey in Hd1, Hd2.
    rewrite <- Hk, <- Hst, <- Hv, Hd1 in Hd2. injection Hd2 as Hd.
    assert (inr t1 = inr t2 :> owner) as He; [|by injection He].
    apply (Hu _ _ (tk_dedup x1)); [by apply task_owned|]. rewrite Hd. by apply task_owned.
  - intros Hq1 Hq2. split.
    + rewrite Hs. apply msum_zero. intros t x Hx. unfold token. by rewrite (Hq2 t x Hx).
    + apply set_eq. intros dk. split; [|set_solver]. intros [[id|t] Ho]%Hi; simpl in Ho.
      * destruct (kicks s !! id) as [[q pc]|] eqn:Hid; [|done]. by rewrite (Hq1 id q pc Hid) in Ho.
      * destruct (tasks s !! t) as [x|] eqn:Hx; [|done]. simpl in Ho. unfold task_key in Ho.
        by rewrite (Hq2 t x Hx) in Ho.
Qed.

(** A kick never waits. Whatever prefetches are running and whatever the
    set holds, the next step of an unfinished kick can be taken at once, and
    nothing it computes can panic: a saturated process drops the chunk. *)
Theorem kick_never_waits r cs (s : state) id q pc :
  kicks s !! id = Some (q, pc) -> pc <> KNext [] ->
  exists e s', match e with
               | ELookup i _ | EDedup i | ESelect i _ | EDrop i => i = id
               | _ => False
               end /\ exec (Machine:=readahead_machine r cs) s e = Some s'.
Proof.
  intros Hid Hpc. destruct pc as [[|c rest]|c rest|dk c rest|dk rest]; [done| | | |].
  - exists (ELookup id true). cbn. unfold lookup. rewrite Hid. simpl. eauto.
  - exists (EDedup id). cbn. unfold dedup. rewrite Hid. simpl.
    assert (exists dk, dedupKey (r_key q) (c ⊗ cs) (r_v q) = Some dk) as [dk ->].
    { unfold dedupKey. destruct (decide (c ⊗ cs = int64_min)) as [->|Hne]; [by vm_compute; eauto|].
      rewrite itoa_FormatInt_ok; [by eexists|]. pose proof (wrap64_ok (c * cs)) as [? ?]. lia. }
    simpl. case_decide; eauto.
  - exists (ESelect id (fresh (dom (tasks s)))). cbn. unfold select. rewrite Hid. simpl.
    assert (tasks s !! fresh (dom (tasks s)) = None) as -> by (apply not_elem_of_dom, is_fresh).
    destruct (_ <? _); eauto.
  - exists (EDrop id). cbn. unfold drop_key. rewrite Hid. simpl. eauto.
Qed.

(** Two requests have just served the bytes 0 to 5 of one object; with one
    slot, the first chunk is prefetched once and the next one is dropped. *)
Module ahead_examples.
Definition r : Readahead := NewReadahead 2 0 30.
Definition q : request := {| r_key := "k"; r_v := st_v kick_examples.st; r_total := 15 |}.
Definition busy : list event :=
  [EKick 0 q 2; EKick 1 q 2; ELookup 0 false; ELookup 1 false; EDedup 1; EDedup 0; ESelect 1 7;
   ELookup 0 false; EDedup 0; ESelect 0 8].
Definition quiet : list event :=
  busy ++ [EDrop 0; ELookup 1 true; EFetched 7; ERelease 7; EDelete 7].
Definition after (es : list event) : state := default idle (run (H:=readahead_machine r 4) idle es).
End ahead_examples.

Lemma readahead_bounded_witness :
  running (ahead_examples.after ahead_examples.busy) = 1 /\
  running (ahead_examples.after ahead_examples.busy) <= Z.max 1 0 /\
  sem (ahead_examples.after ahead_examples.quiet) = 0.
Proof.
  split; [vm_compute; reflexivity|]. split.
  - refine (proj1 (readahead_bounded 2 0 30 4 ahead_examples.busy (ahead_examples.after ahead_examples.busy) _)).
    vm_compute. reflexivity.
  - vm_compute. reflexivity.
Defined.

(** The kick whose second chunk found no slot. *)
Lemma kick_never_waits_witness :
  exists e s', match e with
               | ELookup i _ | EDedup i | ESelect i _ | EDrop i => i = 0%nat
               | _ => False
               end /\
    exec (Machine:=readahead_machine ahead_examples.r 4) (ahead_examples.after ahead_examples.busy) e = Some s'.
Proof.
  apply (kick_never_waits ahead_examples.r 4 (ahead_examples.after ahead_examples.busy) 0 ahead_examples.q
    (KDrop "k/12/e" [])); [vm_compute; reflexivity|discriminate].
Defined.
End readahead.
