(* ===== verification/Web.v ===== *)
(** * The HTTP front end (services/web.go) and a request from end to end

    [handle] up to the point where a stream starts, its composition with the
    streaming machine of Serve.v, and the contract of the whole: what each
    request is answered with, given the object. *)
From S2P Require Import Prelude GoStd GoTime Http Path Request HeadCache Budget Singleflight Chunk DiskCache Flights WriteGuard Fetcher Serve ServeInv ServeOut Readahead.

Module web.
Import chunk fetcher.

(** What [handle] reads of a request. *)
Record HttpRequest := { Method : string; URLPath : string; Range : string }.

(** A finished response with the labels of [requestsTotal], or the stream
    [serveAligned] is about to start. *)
Inductive reply :=
| Finished (w : http.ResponseWriter) (counted : option (string * string))
| Streaming (st : stream) (w : http.ResponseWriter).

Definition outcome (err : option goerr) : string := match err with Some _ => "error" | None => "ok" end.

(** Lines 117-134: a refusal, or the key and the range that was parsed. *)
Definition check (req : HttpRequest) (w : http.ResponseWriter)
    : http.ResponseWriter + (string * (Z * Z * Z)) :=
  if negb (String.eqb (Method req) "GET") && negb (String.eqb (Method req) "HEAD") then
    inl (http.Error "method not allowed" http.StatusMethodNotAllowed
           (http.HeaderSet "Allow" "GET, HEAD" w))
  else
    let '(key, ok) := parseKey (URLPath req) in
    if negb ok then inl (http.Error "expected /{key}" http.StatusBadRequest w)
    else
      match parseRange (Range req) with
      | inl err => inl (http.Error (errors.Error err) http.StatusBadRequest w)
      | inr range => inr (key, range)
      end.

(** Lines 146-166, once [headObject] has returned. *)
Definition reply_with (req : HttpRequest) (key : string) (range : Z * Z * Z) (md : goerr + HeadObjectOutput)
    (w : http.ResponseWriter) : reply :=
  let rangeRequested := negb (String.eqb (Range req) "") in
  if String.eqb (Method req) "HEAD" then
    match Head md w with
    | (w, Some err) => Finished (httpErrorFromS3 w err) (Some ("HEAD", "error"))
    | (w, None) => Finished w (Some ("HEAD", "ok"))
    end
  else
    let '(start, end_, suffixLen) := range in
    match Get md key start end_ suffixLen rangeRequested w with
    | (w, inl err) => Finished w (Some ("GET", outcome err))
    | (w, inr st) => Streaming st w
    end.

(** ** The contract *)

(** A response of status [code] whose validators are absent. *)
Definition refusal (code : Z) (w : http.ResponseWriter) : Prop :=
  http.status w = Some code /\ http.sent_header "ETag" w = None /\ http.sent_header "Last-Modified" w = None.

Definition content_range (a b total : Z) : string :=
  "bytes " +:+ strconv.FormatInt a +:+ "-" +:+ strconv.FormatInt b +:+ "/" +:+ strconv.FormatInt total.

(** Status, length, range and ETag of a response that carries [a] to [b]. *)
Definition success (ranged : bool) (a b total : Z) (etag : option string) (w : http.ResponseWriter) : Prop :=
  http.status w = Some (if ranged then 206 else 200) /\
  http.sent_header "Content-Length" w = Some (strconv.FormatInt (b + 1 - a)) /\
  (ranged = true -> http.sent_header "Content-Range" w = Some (content_range a b total)) /\
  http.sent_header "ETag" w = etag.

(** The key a path names: what follows its first slash, if it starts with one. *)
Definition key_of (path key : string) : Prop :=
  key <> "" /\ (path = String "/" key \/ (path = key /\ filepath.rooted path = false)).

Definition allowed (req : HttpRequest) : Prop := Method req = "GET" \/ Method req = "HEAD".

(** What the service takes: a GET or a HEAD, of a key, with no Range header or
    one of its grammar. *)
Definition asks (req : HttpRequest) (key : string) (s e n : Z) : Prop :=
  allowed req /\ key_of (URLPath req) key /\ range_header (Range req) s e n.

(** What it answers anything else with: 405 and the methods there are, 400. *)
Definition refused (req : HttpRequest) (w : http.ResponseWriter) : Prop :=
  (~ allowed req /\ refusal 405 w /\ http.sent_header "Allow" w = Some "GET, HEAD") \/
  (allowed req /\ (forall key s e n, ~ asks req key s e n) /\ refusal 400 w).

(** What a request it takes, with the numbers [s], [e] and [n] in its Range
    header, for the object [obj], whose metadata lookup gave [md], is answered
    with, and how it is counted in [requestsTotal]. *)
Definition answers (req : HttpRequest) (s e n : Z) (md : goerr + HeadObjectOutput) (obj : bytes)
    (w : http.ResponseWriter) (counted : option (string * string)) : Prop :=
  match md with
  | inl err => refusal (s3_status err) w /\ counted = Some (Method req, "error")
  | inr o =>
      if String.eqb (Method req) "HEAD" then
        counted = Some ("HEAD", "ok") /\
        http.status w = Some 200 /\ http.w_body w = [] /\ http.sent_header "ETag" w = ETag o /\
        http.sent_header "Content-Length" w = strconv.FormatInt <$> ContentLength o
      else
        match ContentLength o with
        | None => refusal 502 w /\ counted = Some ("GET", "error")
        | Some total =>
            let ranged := negb (String.eqb (Range req) "") in
            match wanted s e n ranged total with
            | None =>
                refusal 416 w /\ counted = Some ("GET", "error") /\
                http.sent_header "Content-Range" w = Some ("bytes */" +:+ strconv.FormatInt total)
            | Some (a, b) =>
                (counted = Some ("GET", "ok") /\ success ranged a b total (ETag o) w /\
                 http.w_body w = slice a (b + 1) obj) \/
                (counted = Some ("GET", "error") /\
                 ((success ranged a b total (ETag o) w /\ http.w_body w `prefix_of` slice a (b + 1) obj) \/
                  (exists err, refusal (s3_status err) w) \/ refusal 502 w))
            end
        end
  end.

(** ** The front end meets its contract *)

Definition no_validators (w : http.ResponseWriter) : Prop :=
  http.w_sent w = None /\ http.w_hdr w !! "ETag" = None /\ http.w_hdr w !! "Last-Modified" = None.

Lemma untouched_no_validators w : untouched w -> no_validators w.
Proof. intros (Hh & Hs & _). unfold no_validators. by rewrite Hh, !lookup_empty. Qed.

Lemma refusal_Error msg code w : no_validators w -> refusal code (http.Error msg code w).
Proof. intros (Hs & He & Hl). split; [by apply Error_status|]. by rewrite !Error_header. Qed.

Lemma refusal_s3 w err : no_validators w -> refusal (s3_status err) (httpErrorFromS3 w err).
Proof.
  intros (Hs & He & Hl). destruct (httpErrorFromS3_response w err Hs) as [Hst Hh].
  split; [done|]. by rewrite !Hh.
Qed.

Lemma error_page_refusal e w : serveout.error_page e w -> (exists err, refusal (s3_status err) w) \/ refusal 502 w.
Proof. intros [[Hs|Hs] Hv]; [left; by exists e|by right]. Qed.

Lemma committed_success st x w :
  serveout.committed st x w ->
  success (st_ranged st) (st_start st) (st_end st) (st_total st) (http.w_hdr x !! "ETag") w.
Proof.
  intros (Hs & Hl & Hr & _ & He). split; [done|]. split; [|done]. rewrite Hl. do 2 f_equal. lia.
Qed.

Lemma Head_answer md w w' r :
  untouched w -> Head md w = (w', r) ->
  match md with
  | inl err => r = Some err /\ w' = w
  | inr o =>
      r = None /\ http.status w' = Some 200 /\ http.w_body w' = [] /\ http.sent_header "ETag" w' = ETag o /\
      http.sent_header "Content-Length" w' = strconv.FormatInt <$> ContentLength o
  end.
Proof.
  intros (Hh & Hs & Hb). unfold Head. destruct md as [err|o]; [by intros [= <- <-]|].
  set (w1 := match ContentLength o with Some _ => _ | None => _ end). intros [= <- <-]. split; [done|].
  assert (http.w_sent w1 = None /\ http.w_body w1 = [] /\ http.w_hdr w1 !! "ETag" = None /\
    http.w_hdr w1 !! "Content-Length" = strconv.FormatInt <$> ContentLength o) as (H1 & H2 & H3 & H4).
  { unfold w1. destruct (ContentLength o); simpl; rewrite Hh; by simplify_map_eq. }
  destruct (setObjectHeaders_frame o w1) as (F1 & F2 & _ & _ & F5).
  unfold http.status, http.sent_header. rewrite http.WriteHeader_sent by (simpl; congruence). split; [done|].
  rewrite (proj1 (http.WriteHeader_frame _ _)). simpl. split; [congruence|].
  rewrite !lookup_insert_ne by done. rewrite setObjectHeaders_etag, H3, F5 by done.
  split; [by destruct (ETag o)|done].
Qed.

(** An object with the metadata [md], of a size the arithmetic of chunks of
    [cs] bytes can handle. *)
Definition object_size (cs : Z) (md : goerr + HeadObjectOutput) (obj : bytes) : Prop :=
  0 < cs /\ Z.of_nat (length obj) + cs <= int64_max /\
  forall o t, md = inr o -> ContentLength o = Some t -> t = Z.of_nat (length obj).

(** A GET request that needs no stream. *)
Lemma get_answer md key s e n ranged w w' err cs obj :
  untouched w -> asked_for s e n ranged -> object_size cs md obj ->
  Get md key s e n ranged w = (w', inl err) ->
  match md with
  | inl er => refusal (s3_status er) w' /\ is_Some err
  | inr o =>
      match ContentLength o with
      | None => refusal 502 w' /\ is_Some err
      | Some total =>
          match wanted s e n ranged total with
          | None => refusal 416 w' /\ is_Some err /\
              http.sent_header "Content-Range" w' = Some ("bytes */" +:+ strconv.FormatInt total)
          | Some (a, b) => err = None /\ success ranged a b total (ETag o) w' /\
              http.w_body w' = slice a (b + 1) obj
          end
      end
  end.
Proof.
  intros Hw Hask (Hcs & Hmax & Hlen). pose proof (untouched_no_validators w Hw) as Hnv.
  destruct Hw as (Hhdr & Hsent & Hbody). unfold Get.
  destruct md as [er|o]; [intros [= <- <-]; split; [by apply refusal_s3|done]|].
  destruct (ContentLength o) as [total|] eqn:Hcl; [|intros [= <- <-]; split; [by apply refusal_Error|done]].
  specialize (Hlen o total eq_refl Hcl). rewrite (resolve_wanted s e n ranged total Hask) by lia.
  destruct (wanted s e n ranged total) as [[a b]|] eqn:Hwt.
  - destruct (Z.eqb_spec total 0) as [Ht|]; [|done]. intros [= <- <-]. split; [done|].
    assert (ranged = false /\ a = 0 /\ b = -1) as (-> & -> & ->).
    { unfold wanted in Hwt. destruct ranged; [|injection Hwt as <- <-; by rewrite Ht]. exfalso.
      destruct Hask as [Hp%form_ok _]. unfold selects in Hwt. destruct (form_of s e n); subst total.
      - destruct (Z.ltb_spec s0 (Z.of_nat (length obj))); [lia|done].
      - destruct (Z.ltb_spec s0 (Z.of_nat (length obj))); [lia|done].
      - by rewrite Ht in Hwt. }
    destruct (setObjectHeaders_frame o w) as (F1 & F2 & _ & _ & F5).
    unfold success, http.status, http.sent_header. rewrite http.WriteHeader_sent by (simpl; congruence).
    rewrite (proj1 (http.WriteHeader_frame _ _)). simpl. split; [|rewrite F2, Hbody; by rewrite slice_nil by lia].
    split; [done|]. split; [by simplify_map_eq|]. split; [done|].
    rewrite !lookup_insert_ne by done. rewrite setObjectHeaders_etag, Hhdr. by destruct (ETag o).
  - intros [= <- <-]. split; [apply refusal_Error|split; [done|rewrite Error_header by done; simpl; by rewrite lookup_insert_eq]].
    split; [done|]. simpl. rewrite Hhdr. by simplify_map_eq.
Qed.

(** A GET request that needs one. *)
Lemma get_stream md key s e n ranged w x st cs obj :
  untouched w -> asked_for s e n ranged -> object_size cs md obj ->
  Get md key s e n ranged w = (x, inr st) ->
  exists o total a b, md = inr o /\ ContentLength o = Some total /\ wanted s e n ranged total = Some (a, b) /\
    st = {| st_key := key;
            st_v := {| etag := default "" (ETag o); modified := default time_zero (LastModified o) |};
            st_start := a; st_end := b; st_total := total; st_ranged := ranged |} /\
    stream_ok cs st /\ Z.of_nat (length obj) = total /\ http.pristine x /\ http.w_hdr x !! "ETag" = ETag o.
Proof.
  intros Hw Hask (Hcs & Hmax & Hlen) HG.
  assert (forall o t, md = inr o -> ContentLength o = Some t -> 0 <= t <= int64_max) as Hlen'.
  { intros o t Ho Ht. rewrite (Hlen o t Ho Ht). lia. }
  pose proof (Get_outcome md key s e n ranged w x _ Hw Hask Hlen' HG) as Hout.
  destruct md as [err|o]; [by destruct Hout|].
  destruct (ContentLength o) as [total|] eqn:Hcl; [|by destruct Hout as (_ & err & ?)].
  destruct (wanted s e n ranged total) as [[a b]|] eqn:Hwt; [|by destruct Hout as ((err & ?) & _)].
  destruct (Z.eqb_spec total 0); [by destruct Hout|].
  destruct Hout as (Hst & Hab & Hbt & Hs1 & Hb1 & Het). injection Hst as Hst.
  specialize (Hlen o total eq_refl Hcl). exists o, total, a, b. do 4 (split; [done|]).
  split; [rewrite Hst; repeat split; simpl; lia|]. split; [done|]. by split.
Qed.

Lemma parseKey_of p key : parseKey p = (key, true) <-> key_of p key.
Proof.
  unfold parseKey, key_of, filepath.rooted, strings.TrimPrefix. destruct (strings.HasPrefix p "/") eqn:Hp.
  - pose proof (strings.prefix_inv "/" p Hp) as He. revert He. generalize (strings.drop (String.length "/") p).
    intros q ->. change ("/" +:+ q) with (String "/" q). destruct (String.eqb_spec q "") as [->|Hq].
    + split; [done|]. intros [Hk [[= <-]|[_ ?]]]; done.
    + split; [intros [= <-]; auto|]. by intros [_ [[= <-]|[_ ?]]].
  - destruct (String.eqb_spec p "") as [->|Hne].
    + split; [done|]. by intros [Hk [?|[<- _]]].
    + split; [intros [= <-]; auto|]. intros [_ [->|[-> _]]]; [|done]. by destruct key.
Qed.

Lemma not_allowed req :
  negb (String.eqb (Method req) "GET") && negb (String.eqb (Method req) "HEAD") = true <-> ~ allowed req.
Proof. rewrite andb_true_iff, !negb_true_iff, !String.eqb_neq. unfold allowed. tauto. Qed.

Lemma is_allowed req :
  negb (String.eqb (Method req) "GET") && negb (String.eqb (Method req) "HEAD") = false <-> allowed req.
Proof.
  rewrite andb_false_iff, !negb_false_iff, !String.eqb_eq. done.
Qed.

(** The requests [check] refuses. *)
Lemma check_refused req w w' : untouched w -> check req w = inl w' -> refused req w'.
Proof.
  intros Hw. pose proof (untouched_no_validators w Hw) as Hnv. unfold check, refused.
  destruct (_ && _) eqn:Hm; [apply not_allowed in Hm|apply is_allowed in Hm].
  { intros [= <-]. destruct Hw as (Hh & Hs & _). left. split; [done|]. split.
    - apply refusal_Error. split; [done|]. simpl. rewrite Hh. by simplify_map_eq.
    - rewrite Error_header by done. simpl. by rewrite lookup_insert_eq. }
  destruct (parseKey (URLPath req)) as [key [|]] eqn:Hk; simpl.
  - destruct (parseRange (Range req)) as [err|[[s e] n]] eqn:Hr; [|done]. intros [= <-]. right.
    split; [done|]. split; [|by apply refusal_Error]. intros k s e n (_ & _ & Hh%parseRange_complete). congruence.
  - intros [= <-]. right. split; [done|]. split; [|by apply refusal_Error].
    intros k s e n (_ & Hkey%parseKey_of & _). congruence.
Qed.

(** What [check] has established of the others. *)
Lemma check_passed req w key s e n :
  check req w = inr (key, (s, e, n)) ->
  asks req key s e n /\ asked_for s e n (negb (String.eqb (Range req) "")).
Proof.
  unfold check. destruct (_ && _) eqn:Hm; [done|]. apply is_allowed in Hm.
  destruct (parseKey (URLPath req)) as [k [|]] eqn:Hk; [|done]. apply parseKey_of in Hk.
  destruct (parseRange (Range req)) as [err|[[s1 e1] n1]] eqn:Hp; [done|]. intros [= <- <- <- <-].
  split; [split; [done|]; split; [done|by apply parseRange_sound]|].
  split; [by eapply parseRange_parsed|]. simpl.
  destruct (String.eqb_spec (Range req) "") as [Hr|]; [|done]. rewrite Hr in Hp. by injection Hp as <- <- <-.
Qed.

Lemma get_method req key s e n : asks req key s e n -> String.eqb (Method req) "HEAD" = false -> Method req = "GET".
Proof. intros ([Hm|Hm] & _) Hh; [done|by rewrite Hm, String.eqb_refl in Hh]. Qed.

(** A reply that needs no stream. *)
Lemma finished_answers req w key s e n md w' counted cs obj :
  untouched w -> check req w = inr (key, (s, e, n)) -> object_size cs md obj ->
  reply_with req key (s, e, n) md w = Finished w' counted -> answers req s e n md obj w' counted.
Proof.
  intros Hw Hc Hobj. pose proof (untouched_no_validators w Hw) as Hnv.
  destruct (check_passed _ _ _ _ _ _ Hc) as [Ha Hask]. unfold answers, reply_with.
  destruct (String.eqb (Method req) "HEAD") eqn:Hhead.
  - apply String.eqb_eq in Hhead. rewrite Hhead.
    destruct (Head md w) as [w1 r] eqn:Hhd. pose proof (Head_answer md w w1 r Hw Hhd) as Hr.
    destruct md as [err|o]; destruct Hr as [-> Hr].
    + intros [= <- <-]. subst w1. split; [by apply refusal_s3|done].
    + by intros [= <- <-].
  - rewrite (get_method _ _ _ _ _ Ha Hhead).
    destruct (Get md key s e n _ w) as [w1 [err|st]] eqn:HG; [|done]. intros [= <- <-].
    pose proof (get_answer md key s e n _ w w1 err cs obj Hw Hask Hobj HG) as Hr.
    destruct md as [er|o]; [destruct Hr as (Hr & ? & ->); done|].
    destruct (ContentLength o) as [total|]; [|destruct Hr as (Hr & ? & ->); done].
    destruct (wanted s e n _ total) as [[a b]|]; [destruct Hr as (-> & ? & ?); by left|].
    by destruct Hr as (? & (? & ->) & ?).
Qed.

(** A reply that starts a stream, and the stream's end. *)
Lemma streamed_answers req w key s0 e n md st x cs obj r (s : serve.state) :
  untouched w -> check req w = inr (key, (s0, e, n)) -> object_size cs md obj ->
  reply_with req key (s0, e, n) md w = Streaming st x ->
  serveout.out_ok cs st x obj s -> serve.cons s = serve.CDone r ->
  answers req s0 e n md obj (serve.w s) (Some ("GET", outcome r)).
Proof.
  intros Hw Hc Hobj. destruct (check_passed _ _ _ _ _ _ Hc) as [_ Hask].
  unfold answers, reply_with. destruct (String.eqb (Method req) "HEAD").
  { by destruct (Head md w) as [w1 [err|]]. }
  destruct (Get md key s0 e n _ w) as [w1 [err|st1]] eqn:HG; [done|]. intros [= -> ->].
  destruct (get_stream md key s0 e n _ w x st cs obj Hw Hask Hobj HG)
    as (o & total & a & b & -> & Hcl & Hwt & Hst & Hok & _ & _ & Het).
  rewrite Hcl, Hwt. unfold serveout.out_ok. intros Ho Hcons. rewrite Hcons in Ho.
  assert (forall y, serveout.committed st x y -> success (st_ranged st) a b total (ETag o) y) as Hsuc.
  { intros y Hy. apply committed_success in Hy. rewrite Hst in *. simpl in *. by rewrite <- Het. }
  rewrite Hst in *. simpl in *. unfold outcome. destruct r as [err|].
  - right. split; [done|]. destruct Ho as [[Hcm Hpre]|Hpage]; [left|right; by eapply error_page_refusal].
    split; [by apply Hsuc|exact Hpre].
  - left. split; [done|]. destruct Ho as [Hcm Hbody]. split; [by apply Hsuc|exact Hbody].
Qed.

(** The stream of a reply. *)
Lemma reply_streams req w key range md st x cs obj :
  untouched w -> check req w = inr (key, range) -> object_size cs md obj ->
  reply_with req key range md w = Streaming st x ->
  exists o, md = inr o /\ is_Some (ContentLength o) /\ st_key st = key /\ etag (st_v st) = default "" (ETag o) /\
    stream_ok cs st /\ Z.of_nat (length obj) = st_total st /\ http.pristine x.
Proof.
  intros Hw Hc Hobj. destruct range as [[s e] n].
  destruct (check_passed _ _ _ _ _ _ Hc) as [_ Hask]. unfold reply_with. destruct (String.eqb (Method req) "HEAD").
  { by destruct (Head md w) as [w1 [err|]]. }
  destruct (Get md key s e n _ w) as [w1 [err|st1]] eqn:HG; [done|]. intros [= -> ->].
  destruct (get_stream md key s e n _ w x st cs obj Hw Hask Hobj HG)
    as (o & total & a & b & -> & Hcl & _ & -> & Hok & Hlen & Hx & _).
  exists o. split; [done|]. split; [by eexists|]. done.
Qed.
End web.
