(* ===== verification/Service.v ===== *)
(** * The service: many streams over one set of fetches

    The machines of Serve.v and Flights.v composed as the code composes
    them: each stream's fetch goroutines call [fetchChunk], each admission
    and each result a stream sees is one of these calls', a written or
    abandoned chunk is closed, and a cancelled stream cancels its calls. The
    fetches, and the budget they share, are those of all streams and of the
    readahead. *)
From S2P Require Import Prelude GoStd GoTime Http Request HeadCache Budget Singleflight Chunk DiskCache Flights FlightsInv FlightsProps FlightsLive FlightsData WriteGuard Fetcher Serve ServeInv ServeOut ServeLive.

Module service.
Import chunk fetcher.

(** One [serveAligned] call, and the [fetchChunk] call of each chunk it has
    started. *)
Record stream_run := {
  sr_st : stream;
  sr_ok : bool;               (* its connection supports write deadlines *)
  sr : serve.state;
  calls : gmap nat nat;
}.

Record state := {
  fetches : fl.state;
  runs : gmap nat stream_run;
}.

Inductive event :=
| Fetch (e : fl.event)                    (* a step of the fetches, or a call from the readahead *)
| Begin (r : nat) (st : stream) (ok : bool) (x : http.ResponseWriter)
| Serve (r : nat) (e : serve.event)       (* a step of stream [r] *)
| Deliver (r i : nat) (now : Z).          (* its [i]-th [fetchChunk] has returned *)

(** [j] is the call of some stream, which alone may close or cancel it. *)
Definition owned (s : state) (j : nat) : bool :=
  existsb (fun rq => existsb (fun ij => Nat.eqb ij.2 j) (map_to_list (calls rq.2))) (map_to_list (runs s)).

Section machine.
(** [CHUNK_SIZE], [WORKERS] and the write guard's timeout. *)
Context (C wk timeout : Z).

Definition free (s : state) (e : fl.event) : bool :=
  match e with fl.EClose j | fl.ECancel j _ => negb (owned s j) | _ => true end.

(** The call line 335 makes. *)
Definition call_by (q : stream_run) (e : serve.event) (sv : serve.state) : list fl.event :=
  match e, serve.disp sv with
  | serve.ESpawn, serve.DWait i =>
      let '(a, b) := chunkSpan C (sr_st q) (Z.of_nat i) in [fl.EFetch (st_key (sr_st q)) (st_v (sr_st q)) a b]
  | _, _ => []
  end.

(** The results lines 390, 410 and 358 close. *)
Definition closed_by (q : stream_run) (e : serve.event) : list nat :=
  match e, serve.cons (sr q) with
  | serve.EWrite, serve.CWrite i _ => omap (fun i => calls q !! i) [i]
  | serve.EJoin, serve.CAbort _ =>
      omap (fun i => match serve.pending (sr q) !! i with
                     | Some cr => match err cr with None => calls q !! i | Some _ => None end
                     | None => None
                     end) (serve.leftover C (sr_st q) (sr q))
  | _, _ => []
  end.

(** The calls whose context has just ended, and how. *)
Definition cancelled_by (q : stream_run) (sv : serve.state) : list fl.event :=
  match serve.gone (sr q), serve.gone sv with
  | None, Some e => (fun ij => fl.ECancel ij.2 e) <$> map_to_list (calls q)
  | _, _ => []
  end.

Definition effects (q : stream_run) (e : serve.event) (sv : serve.state) : list fl.event :=
  call_by q e sv ++ (fl.EClose <$> closed_by q e) ++ cancelled_by q sv.

Definition set_run (r : nat) (q : stream_run) (f : fl.state) (s : state) : state :=
  {| fetches := f; runs := <[r := q]> (runs s) |}.

(** [admit] closes a channel only when [fetchChunk] calls it. *)
Definition permitted (s : state) (q : stream_run) (e : serve.event) : bool :=
  match e with
  | serve.EDeliver _ _ _ => false
  | serve.EAdmit i =>
      match calls q !! i ≫= fun j => fl.callers (fetches s) !! j with
      | Some c => fl.c_admitted c
      | None => false
      end
  | _ => true
  end.

Definition serve_step (r : nat) (e : serve.event) (s : state) : option state :=
  q ← runs s !! r;
  if permitted s q e then
    sv ← exec (Machine:=serve.serve_machine C wk (sr_st q) (fl.hp (fetches s)) (sr_ok q)) (sr q) e;
    f ← run (H:=fl.flights_machine C) (fetches s) (effects q e sv);
    let calls' := match e, serve.disp sv with
                  | serve.ESpawn, serve.DWait i => <[i := fl.next (fetches s)]> (calls q)
                  | _, _ => calls q
                  end in
    Some (set_run r {| sr_st := sr_st q; sr_ok := sr_ok q; sr := sv; calls := calls' |} f s)
  else None.

Definition result_of (cr : chunkResult) : goerr + chunkResult :=
  match err cr with Some e => inl e | None => inr cr end.

(** An error result holds nothing: it is dropped. *)
Definition deliver_step (r i : nat) (now : Z) (s : state) : option state :=
  q ← runs s !! r;
  j ← calls q !! i;
  c ← fl.callers (fetches s) !! j;
  match fl.c_pc c with
  | fl.CReturned cr =>
      sv ← exec (Machine:=serve.serve_machine C wk (sr_st q) (fl.hp (fetches s)) (sr_ok q)) (sr q)
             (serve.EDeliver i (result_of cr) now);
      f ← run (H:=fl.flights_machine C) (fetches s)
            match err cr with Some _ => [fl.EClose j] | None => [] end;
      Some (set_run r {| sr_st := sr_st q; sr_ok := sr_ok q; sr := sv; calls := calls q |} f s)
  | _ => None
  end.

#[global] Instance service_machine : Machine state event := fun s e =>
  match e with
  | Fetch e =>
      if free s e then
        f ← exec (Machine:=fl.flights_machine C) (fetches s) e; Some {| fetches := f; runs := runs s |}
      else None
  | Begin r st ok x =>
      match runs s !! r with
      | Some _ => None
      | None => Some (set_run r {| sr_st := st; sr_ok := ok; sr := serve.start timeout x; calls := ∅ |}
                        (fetches s) s)
      end
  | Serve r e => serve_step r e s
  | Deliver r i now => deliver_step r i now s
  end.

(** The process as it starts: [cap] budget units, the cache on disk. *)
Definition init (cap : Z) (d : gmap chunk_file bytes) : state :=
  {| fetches := flinv.init cap d; runs := ∅ |}.
End machine.

(** Two clients and a budget of one chunk: the second client's chunk is the
    first's first one, which stays in memory until both have written it,
    while the first client's second chunk waits for its unit. *)
Module service_examples.
Definition v1 : objVersion := {| etag := "e1"; modified := 0 |}.
Definition obj : bytes := list_byte_of_string "0123456789".
Definition st (a b : Z) : stream :=
  {| st_key := "k"; st_v := v1; st_start := a; st_end := b; st_total := 10; st_ranged := true |}.
(** Call [j] misses the cache. *)
Definition misses (j : nat) : list event := [Fetch (fl.ELookup j fl.LkMiss); Fetch (fl.EJoin j)].
Definition starts (r : nat) : list event := [Serve r serve.ETake; Serve r serve.ESpawn].
Definition admits (r i j : nat) : list event :=
  [Fetch (fl.ESeeAdmitted j); Serve r (serve.EAdmit i); Serve r serve.EAdmitted].
Definition hands (r i j : nat) (now : Z) : list event :=
  [Fetch (fl.EClaim j true); Fetch (fl.EHand j); Deliver r i now].
Definition sends (r : nat) (now : Z) : list event := [Serve r (serve.ERecv now); Serve r serve.EWrite].
Definition leads (n : nat) : list event := [Fetch (fl.EAdmit n); Fetch (fl.EAlloc n)].
Definition downloads (n : nat) (a b : Z) (stored : bool) : list event :=
  [Fetch (fl.EDownload n (inr (slice a b obj, None)) None); Fetch (fl.EPut n stored)] ++
  (if stored then [Fetch (fl.EReleaseStored n)] else []) ++ [Fetch (fl.EFinish n); Fetch (fl.EPublish n)].

Definition waiting : list event :=
  [Begin 0 (st 2 9) true (http.fresh None None)] ++ starts 0 ++ misses 0 ++
  [Fetch (fl.ELeadStart 1); Fetch (fl.EAcquire 1); Fetch (fl.EAdmit 1)] ++ admits 0 0 0 ++
  starts 0 ++ misses 2 ++ [Fetch (fl.ELeadStart 3); Fetch (fl.EAcquire 3)] ++
  [Begin 1 (st 0 3) true (http.fresh None None)] ++ starts 1 ++ misses 4 ++
  [Fetch (fl.EAlloc 1)] ++ downloads 1 0 4 false ++ hands 0 0 0 5.
Definition served : list event :=
  waiting ++ sends 0 6 ++ admits 1 0 4 ++ hands 1 0 4 7 ++ [Serve 1 serve.EEnd] ++ sends 1 8 ++
  [Serve 1 serve.EJoin; Fetch (fl.EGranted 3)] ++ leads 3 ++ downloads 3 4 8 true ++ admits 0 1 2 ++
  hands 0 1 2 9 ++ starts 0 ++ misses 5 ++ [Fetch (fl.ELeadStart 6); Fetch (fl.EAcquire 6)] ++ leads 6 ++
  downloads 6 8 10 true ++ [Fetch (fl.EEvict ("k", "e1", 8))] ++ admits 0 2 5 ++ hands 0 2 5 10 ++
  [Serve 0 serve.EEnd] ++ sends 0 11 ++ sends 0 12 ++ [Serve 0 serve.EJoin].

Definition s0 : state := init 1 ∅.
Definition machine : Machine state event := service_machine 4 8 45.
Definition after (es : list event) : state := default s0 (run (H:=machine) s0 es).
(** Stays folded when a type that mentions a state is checked. *)
#[global] Strategy 100 [after].
(** What client [r] has been sent. *)
Definition response (r : nat) (s : state) : option (option goerr * bytes) :=
  q ← runs s !! r;
  match serve.cons (sr q) with serve.CDone e => Some (e, http.w_body (serve.w (sr q))) | _ => None end.
End service_examples.
End service.
