(* ===== verification/ServiceInv.v ===== *)
(** * The service: every stream and its calls

    The invariant that ties each stream to the [fetchChunk] calls it made:
    same chunk, same context, admitted together, delivered once and closed
    once; whatever the other streams, the readahead and the fetches do. *)
From S2P Require Import Prelude GoStd GoTime Http Request HeadCache Budget Singleflight Chunk DiskCache Flights FlightsInv FlightsProps FlightsLive FlightsData WriteGuard Fetcher Serve ServeInv ServeOut ServeLive Service.

Module serviceinv.
Import chunk fetcher service.

(** ** What a step of the fetches does to a call *)

Definition same_call (c c' : fl.caller) : Prop :=
  fl.c_key c' = fl.c_key c /\ fl.c_v c' = fl.c_v c /\ fl.c_start c' = fl.c_start c /\ fl.c_end c' = fl.c_end c.

(** A step that neither closes nor cancels the call. *)
Definition kept (c c' : fl.caller) : Prop :=
  same_call c c' /\ fl.gone c' = fl.gone c /\
  (fl.c_admitted c = true -> fl.c_admitted c' = true) /\
  (fl.c_pc c' = fl.CClosed <-> fl.c_pc c = fl.CClosed) /\
  (forall cr, fl.c_pc c = fl.CReturned cr -> fl.c_pc c' = fl.CReturned cr).

Lemma kept_refl c : kept c c.
Proof. by repeat split. Qed.

Section calls.
Import fl fllive.
Context (C : Z).
#[local] Instance this : Machine fl.state fl.event := flights_machine C.

Lemma other_call s e s' j c :
  exec s e = Some s' -> e <> EClose j -> (forall e0, e <> ECancel j e0) ->
  callers s !! j = Some c -> (j < next s)%nat ->
  exists c', callers s' !! j = Some c' /\ kept c c'.
Proof.
  intros He Hcl Hcan Hj Hn. pose proof (kept_refl c) as Hk.
  assert (forall i c1 c2 (cs : gmap nat caller), callers s !! i = Some c1 -> kept c1 c2 -> cs = <[i := c2]> (callers s) ->
    exists c', cs !! j = Some c' /\ kept c c') as Hupd.
  { intros i c1 c2 cs H1 H2 ->. destruct (decide (i = j)) as [->|Hne].
    - rewrite lookup_insert_eq. exists c2. split; [done|]. congruence.
    - rewrite lookup_insert_ne by done. by exists c. }
  destruct e; cbn in He.
  11-22: exists c; step_cases He; done.
  - unfold fetch in He. inv_bind. subst. simpl. rewrite lookup_insert_ne by lia. by exists c.
  - unfold cancel in He. inv_bind. subst. simpl.
    destruct (decide (i = j)) as [->|Hne]; [by destruct (Hcan e)|]. rewrite lookup_insert_ne by done. by exists c.
  - unfold lookup in He. destruct (callers s !! i) as [c1|] eqn:H1; [|done]. simpl in He.
    destruct (c_pc c1) eqn:Hp; try done.
    destruct r; inv_bind; subst; (eapply Hupd; [exact H1| |reflexivity]); repeat split; simpl; try done; congruence.
  - unfold join in He. destruct (callers s !! i) as [c1|] eqn:H1; [|done]. simpl in He.
    destruct (c_pc c1) eqn:Hp; try done. destruct (gone c1) as [e0|] eqn:Hg.
    { injection He as <-. eapply Hupd; [exact H1| |reflexivity]. repeat split; simpl; try done; congruence. }
    destruct (sf.join _ _ _) as [[[g n] [|]]|]; simpl in He; try done; injection He as <-;
      (eapply Hupd; [exact H1| |reflexivity]); repeat split; simpl; try done; congruence.
  - unfold see_admitted in He. destruct (callers s !! i) as [c1|] eqn:H1; [|done]. simpl in He.
    destruct (c_pc c1) eqn:Hp; try done. inv_bind. subst.
    eapply Hupd; [exact H1| |reflexivity]. repeat split; simpl; try done; congruence.
  - unfold abandon in He. destruct (callers s !! i) as [c1|] eqn:H1; [|done]. simpl in He.
    destruct (c_pc c1) eqn:Hp; try done; inv_bind; subst;
      (eapply Hupd; [exact H1| |reflexivity]); repeat split; simpl; try done; congruence.
  - unfold claim_flight in He. destruct (callers s !! i) as [c1|] eqn:H1; [|done]. simpl in He.
    destruct (c_claim c1) eqn:Hk1; try done. inv_bind. destruct p as [h cr]. injection He as <-.
    eapply Hupd; [exact H1| |reflexivity]. by repeat split.
  - unfold hand in He. destruct (callers s !! i) as [c1|] eqn:H1; [|done]. simpl in He.
    destruct (c_pc c1) eqn:Hp; try done. destruct (c_claim c1); try done. injection He as <-.
    eapply Hupd; [exact H1| |reflexivity]. repeat split; simpl; try done; congruence.
  - unfold drop_claim in He. destruct (callers s !! i) as [c1|] eqn:H1; [|done]. simpl in He.
    destruct (c_claim c1) eqn:Hk1; try done. inv_bind. destruct p as [h cr']. injection He as <-.
    eapply Hupd; [exact H1| |reflexivity]. by repeat split.
  - unfold close_result in He. destruct (callers s !! i) as [c1|] eqn:H1; [|done]. simpl in He.
    destruct (c_pc c1) eqn:Hp; try done. inv_bind. destruct p as [h cr']. injection He as <-. simpl.
    destruct (decide (i = j)) as [->|Hne]; [done|]. rewrite lookup_insert_ne by done. by exists c.
  - unfold evict in He. injection He as <-. by exists c.
Qed.

(** Closing and cancelling calls. *)
Lemma close_run js s s' :
  run s (EClose <$> js) = Some s' ->
  next s' = next s /\
  forall j c, callers s !! j = Some c -> exists c', callers s' !! j = Some c' /\ same_call c c' /\
    gone c' = gone c /\ c_admitted c' = c_admitted c /\
    c_pc c' = if decide (j ∈ js) then CClosed else c_pc c.
Proof.
  revert s. induction js as [|i js IH]; intros s; simpl.
  - intros [= <-]. split; [done|]. intros j c Hj. by exists c.
  - destruct (exec s (EClose i)) as [s1|] eqn:He; simpl; [|done]. intros Hr.
    destruct (IH s1 Hr) as [Hn HIH].
    cbn in He. unfold close_result in He. destruct (callers s !! i) as [c1|] eqn:H1; [|done]. simpl in He.
    destruct (c_pc c1) eqn:Hp; try done. destruct (close _ _) as [[h cr']|]; [|done]. injection He as <-.
    split; [done|]. intros j c Hj. simpl in HIH. destruct (decide (i = j)) as [->|Hne].
    + destruct (HIH j (at_cpc CClosed (c_claim c1) (c_admitted c1) c1)) as (c' & Hc' & Hs & Hg & Ha & Hpc);
        [apply lookup_insert_eq|].
      exists c'. assert (c1 = c) as -> by congruence. rewrite (decide_True (P := j ∈ j :: js)) by apply list_elem_of_here.
      split; [done|]. split; [done|]. split; [done|]. split; [done|]. rewrite Hpc. by case_decide.
    + destruct (HIH j c) as (c' & Hc' & Hs & Hg & Ha & Hpc); [by rewrite lookup_insert_ne|].
      exists c'. do 4 (split; [done|]). rewrite Hpc.
      destruct (decide (j ∈ js)) as [Hin|Hin], (decide (j ∈ i :: js)) as [Hin'|Hin']; try done.
      * by destruct Hin'; apply list_elem_of_further.
      * by apply elem_of_cons in Hin' as [->|?].
Qed.

Lemma cancel_run e (l : list (nat * nat)) s s' :
  run s ((fun ij => ECancel ij.2 e) <$> l) = Some s' ->
  next s' = next s /\
  forall j c, callers s !! j = Some c -> exists c', callers s' !! j = Some c' /\ same_call c c' /\
    c_admitted c' = c_admitted c /\ c_pc c' = c_pc c /\
    gone c' = if decide (j ∈ l.*2) then Some (default e (gone c)) else gone c.
Proof.
  revert s. induction l as [|[i0 i] l IH]; intros s; simpl.
  - intros [= <-]. split; [done|]. intros j c Hj. by exists c.
  - destruct (exec s (ECancel i e)) as [s1|] eqn:He; simpl; [|done]. intros Hr.
    destruct (IH s1 Hr) as [Hn HIH].
    cbn in He. unfold cancel in He. destruct (callers s !! i) as [c1|] eqn:H1; [|done]. injection He as <-.
    split; [done|]. intros j c Hj. simpl in HIH. destruct (decide (i = j)) as [->|Hne].
    + edestruct (HIH j) as (c' & Hc' & Hs & Ha & Hp & Hg); [apply lookup_insert_eq|]. simpl in *.
      exists c'. assert (c1 = c) as -> by congruence. change (list_fmap _ _ snd l) with l.*2.
      rewrite (decide_True (P := j ∈ j :: l.*2)) by apply list_elem_of_here.
      do 4 (split; [done|]). rewrite Hg. by case_decide.
    + destruct (HIH j c) as (c' & Hc' & Hs & Ha & Hp & Hg); [by rewrite lookup_insert_ne|].
      exists c'. do 4 (split; [done|]). rewrite Hg. simpl. change (list_fmap _ _ snd l) with l.*2.
      destruct (decide (j ∈ l.*2)) as [Hin|Hin], (decide (j ∈ i :: l.*2)) as [Hin'|Hin']; try done.
      * by destruct Hin'; apply list_elem_of_further.
      * by apply elem_of_cons in Hin' as [->|?].
Qed.
End calls.

(** ** The invariant *)

Section inv.
Context (C wk timeout : Z).
#[local] Instance fl_this : Machine fl.state fl.event := fl.flights_machine C.

(** The call [c] behind the [i]-th goroutine [g] of a stream. *)
Definition call_ok (q : stream_run) (i : nat) (g : serve.goroutine) (c : fl.caller) : Prop :=
  fl.c_key c = st_key (sr_st q) /\ fl.c_v c = st_v (sr_st q) /\
  (fl.c_start c, fl.c_end c) = chunkSpan C (sr_st q) (Z.of_nat i) /\
  fl.gone c = serve.gone (sr q) /\
  if serve.running g then
    fl.c_pc c <> fl.CClosed /\ (serve.adm g = true -> fl.c_admitted c = true)
  else
    exists cr', serve.results (sr q) !! i = Some cr' /\
      match err cr' with
      | Some _ => fl.c_pc c = fl.CClosed
      | None =>
          if decide (i ∈ serve.closed (sr q)) then fl.c_pc c = fl.CClosed
          else exists cr, fl.c_pc c = fl.CReturned cr /\ err cr = None /\ cr' = serve.delivered C (sr_st q) i (inr cr)
      end.

Definition linked (f : fl.state) (q : stream_run) : Prop :=
  (forall i, is_Some (calls q !! i) <-> is_Some (serve.gors (sr q) !! i)) /\
  (forall i j g, calls q !! i = Some j -> serve.gors (sr q) !! i = Some g ->
     exists c, fl.callers f !! j = Some c /\ call_ok q i g c).

Record SInv (s : state) : Prop := {
  s_ok : forall r q, runs s !! r = Some q -> stream_ok C (sr_st q);
  s_serve : forall r q, runs s !! r = Some q -> exists k m, serveinv.Inv C wk (sr_st q) (sr_ok q) k m (sr q);
  s_linked : forall r q, runs s !! r = Some q -> linked (fetches s) q;
  s_apart : forall r1 r2 q1 q2 i1 i2 j, runs s !! r1 = Some q1 -> runs s !! r2 = Some q2 ->
    calls q1 !! i1 = Some j -> calls q2 !! i2 = Some j -> r1 = r2 /\ i1 = i2;
  s_next : forall r q i j, runs s !! r = Some q -> calls q !! i = Some j -> (j < fl.next (fetches s))%nat;
}.

Lemma owned_spec s j : owned s j = true <-> exists r q i, runs s !! r = Some q /\ calls q !! i = Some j.
Proof.
  unfold owned. rewrite existsb_exists. split.
  - intros ([r q] & Hr%list_elem_of_In%elem_of_map_to_list & Hq).
    apply existsb_exists in Hq as ([i j'] & Hi%list_elem_of_In%elem_of_map_to_list & Hj%Nat.eqb_eq).
    simpl in *. subst. by exists r, q, i.
  - intros (r & q & i & Hr & Hi). exists (r, q). split; [by apply list_elem_of_In, elem_of_map_to_list|].
    apply existsb_exists. exists (i, j). split; [by apply list_elem_of_In, elem_of_map_to_list|]. simpl. apply Nat.eqb_refl.
Qed.

Lemma call_ok_kept q i g c c' : call_ok q i g c -> kept c c' -> call_ok q i g c'.
Proof.
  intros (Hk & Hv & Hs & Hg & Hp) ((K1 & K2 & K3 & K4) & K5 & K6 & K7 & K8). unfold call_ok.
  rewrite K1, K2, K3, K4, K5. do 4 (split; [done|]).
  destruct (serve.running g).
  - destruct Hp as [Hp Ha]. split; [by rewrite K7|auto].
  - destruct Hp as (cr' & Hr & Hp). exists cr'. split; [done|]. destruct (err cr'); [by apply K7|].
    destruct (decide _); [by apply K7|]. destruct Hp as (cr & Hp & ?). exists cr. auto.
Qed.

Lemma linked_kept f f' q :
  linked f q ->
  (forall i j c, calls q !! i = Some j -> fl.callers f !! j = Some c ->
     exists c', fl.callers f' !! j = Some c' /\ kept c c') ->
  linked f' q.
Proof.
  intros [Hd Hl] Hk. split; [done|]. intros i j g Hi Hg. destruct (Hl i j g Hi Hg) as (c & Hc & Hok).
  destruct (Hk i j c Hi Hc) as (c' & Hc' & Hkept). exists c'. split; [done|]. by eapply call_ok_kept.
Qed.

Lemma fetch_SInv s e f' :
  SInv s -> free s e = true -> exec (fetches s) e = Some f' -> SInv {| fetches := f'; runs := runs s |}.
Proof.
  intros [Hok Hsv Hli Hap Hne] Hfr He. pose proof (flinv.next_mono C _ _ _ He) as Hm.
  split; simpl; try done.
  - intros r q Hq. apply (linked_kept (fetches s)); [by eapply Hli|]. intros i j c Hi Hc.
    assert (owned s j = true) as Hown by (apply owned_spec; by exists r, q, i).
    apply (other_call C (fetches s) e f' j c He); [| |done|by eapply Hne].
    + intros ->. simpl in Hfr. by rewrite Hown in Hfr.
    + intros e0 ->. simpl in Hfr. by rewrite Hown in Hfr.
  - intros r q i j Hq Hi. specialize (Hne r q i j Hq Hi). lia.
Qed.

(** A stream moves, the others keep their calls. *)
Lemma SInv_update s r q q' f' :
  SInv s -> runs s !! r = Some q -> calls q' = calls q -> sr_st q' = sr_st q -> sr_ok q' = sr_ok q ->
  (exists k m, serveinv.Inv C wk (sr_st q') (sr_ok q') k m (sr q')) -> linked f' q' ->
  fl.next f' = fl.next (fetches s) ->
  (forall j c, (forall i, calls q !! i <> Some j) -> fl.callers (fetches s) !! j = Some c ->
     exists c', fl.callers f' !! j = Some c' /\ kept c c') ->
  SInv (set_run r q' f' s).
Proof.
  intros [Hok Hsv Hli Hap Hne] Hq Hca Hst Hso HI Hl Hn Hothers. split; simpl.
  - intros r' q1 [[<- <-]|[_ Hq1]]%lookup_insert_Some; [rewrite Hst|]; by eapply Hok.
  - intros r' q1 [[<- <-]|[_ Hq1]]%lookup_insert_Some; [done|by eapply Hsv].
  - intros r' q1 [[<- <-]|[Hne' Hq1]]%lookup_insert_Some; [done|].
    apply (linked_kept (fetches s)); [by eapply Hli|]. intros i j c Hi Hc. apply Hothers; [|done].
    intros i' Hi'. by destruct (Hap r' r q1 q i i' j Hq1 Hq Hi Hi').
  - intros r1 r2 q1 q2 i1 i2 j [[<- <-]|[_ H1]]%lookup_insert_Some [[<- <-]|[_ H2]]%lookup_insert_Some Hj1 Hj2;
      rewrite ?Hca in *; by eapply Hap.
  - rewrite Hn. intros r' q1 i j [[<- <-]|[_ H1]]%lookup_insert_Some Hi; rewrite ?Hca in *; by eapply Hne.
Qed.

(** ** A step of a stream *)

Lemma gone_mono h ok st sv e sv' x :
  exec (Machine:=serve.serve_machine C wk st h ok) sv e = Some sv' -> serve.gone sv = Some x -> serve.gone sv' = Some x.
Proof.
  intros He Hx. destruct e; cbn in He.
  - injection He as <-. simpl. by rewrite Hx.
  - by injection He as <-.
  - unfold serve.take_slot in He. by destruct (serve.disp sv); inv_bind; subst.
  - unfold serve.stop in He. by destruct (serve.disp sv); inv_bind; subst.
  - unfold serve.loop_end in He. by destruct (serve.disp sv); inv_bind; subst.
  - unfold serve.spawn in He. destruct (serve.disp sv); try done. rewrite Hx in He. by injection He as <-.
  - unfold serve.admit_chunk in He. by inv_bind; subst.
  - unfold serve.see_admitted in He. by destruct (serve.disp sv); inv_bind; subst.
  - unfold serve.deliver in He. by inv_bind; subst.
  - unfold serve.recv in He. destruct (serve.cons sv); try done. inv_bind.
    destruct (err _); injection He as <-; simpl; by rewrite ?Hx.
  - unfold serve.recv_gone in He. destruct (serve.cons sv); try done. rewrite Hx in He. simpl in He.
    injection He as <-. simpl. by rewrite Hx.
  - unfold serve.write in He. destruct (serve.cons sv); try done. destruct (guard.write_and_flush _ _ _ _ _) as [? [|]];
      [injection He as <-; simpl; by rewrite Hx|]. simpl in He. destruct (0 <? serve.slots sv); [|done]. by injection He as <-.
  - unfold serve.join in He. destruct (serve.no_goroutine sv); [|done]. destruct (serve.cons sv); try done; [|by injection He as <-].
    destruct (serve.abort_response _ _). by injection He as <-.
Qed.

Lemma closed_by_calls q e j : j ∈ closed_by C q e -> exists i, calls q !! i = Some j.
Proof.
  unfold closed_by. destruct e, (serve.cons (sr q)); try (by intros ?%elem_of_nil);
    intros (i' & _ & Hi)%list_elem_of_omap; [by exists i'|exists i'].
  destruct (serve.pending (sr q) !! i'); [|done]. by destruct (err c).
Qed.

Lemma plain_effects f q e sv f' :
  call_by C q e sv = [] -> run f (effects C q e sv) = Some f' ->
  fl.next f' = fl.next f /\
  forall j c, fl.callers f !! j = Some c ->
    exists c', fl.callers f' !! j = Some c' /\ same_call c c' /\ fl.c_admitted c' = fl.c_admitted c /\
      fl.c_pc c' = (if decide (j ∈ closed_by C q e) then fl.CClosed else fl.c_pc c) /\
      fl.gone c' = match serve.gone (sr q), serve.gone sv with
                   | None, Some x => if decide (j ∈ (map_to_list (calls q)).*2) then Some (default x (fl.gone c)) else fl.gone c
                   | _, _ => fl.gone c
                   end.
Proof.
  unfold effects. intros ->. simpl. rewrite run_app.
  destruct (run f (fl.EClose <$> closed_by C q e)) as [f1|] eqn:H1; [|done]. simpl. intros H2.
  destruct (close_run C _ _ _ H1) as [Hn1 Hc1].
  assert (forall c1 c2 c3, same_call c1 c2 -> same_call c2 c3 -> same_call c1 c3) as Htrans.
  { intros c1 c2 c3 (?&?&?&?) (?&?&?&?). repeat split; congruence. }
  unfold cancelled_by in H2. destruct (serve.gone (sr q)) as [x0|], (serve.gone sv) as [x|]; simpl in H2.
  3: destruct (cancel_run C x _ _ _ H2) as [Hn2 Hc2].
  1, 2, 4: injection H2 as <-.
  all: split; [congruence|]; intros j c Hj; destruct (Hc1 j c Hj) as (c1 & Hj1 & Hs1 & Hg1 & Ha1 & Hp1).
  1-3: exists c1; do 3 (split; [assumption|]); split; [rewrite Hp1; by repeat case_decide|assumption].
  destruct (Hc2 j c1 Hj1) as (c2 & Hj2 & Hs2 & Ha2 & Hp2 & Hg2). exists c2. split; [done|].
  split; [by eapply Htrans|]. split; [congruence|].
  split; [rewrite Hp2, Hp1; by repeat case_decide|]. rewrite Hg2, Hg1. by repeat case_decide.
Qed.

Lemma calls_values q i j : calls q !! i = Some j -> j ∈ (map_to_list (calls q)).*2.
Proof. intros Hi. apply list_elem_of_fmap. exists (i, j). split; [done|]. by apply elem_of_map_to_list. Qed.

Lemma values_calls q j : j ∈ (map_to_list (calls q)).*2 -> exists i, calls q !! i = Some j.
Proof. intros ([i j'] & -> & Hi%elem_of_map_to_list)%list_elem_of_fmap. by exists i. Qed.

(** The calls of the others. *)
Lemma plain_others f q e sv f' j c :
  call_by C q e sv = [] -> run f (effects C q e sv) = Some f' ->
  (forall i, calls q !! i <> Some j) -> fl.callers f !! j = Some c ->
  exists c', fl.callers f' !! j = Some c' /\ kept c c'.
Proof.
  intros Hcb Hr Hj Hc. destruct (plain_effects f q e sv f' Hcb Hr) as [_ Hall].
  destruct (Hall j c Hc) as (c' & Hc' & Hs & Ha & Hp & Hg). exists c'. split; [done|].
  rewrite decide_False in Hp by (intros [i Hi]%closed_by_calls; by destruct (Hj i)).
  split; [done|]. split.
  { destruct (serve.gone (sr q)), (serve.gone sv); try done.
    rewrite decide_False in Hg; [done|]. intros [i Hi]%values_calls. by destruct (Hj i). }
  split; [congruence|]. rewrite Hp. done.
Qed.

Definition moved (q : stream_run) (sv : serve.state) : stream_run :=
  {| sr_st := sr_st q; sr_ok := sr_ok q; sr := sv; calls := calls q |}.

(** A step that starts and delivers nothing: the calls follow. *)
Lemma linked_plain f f' q e sv k m :
  serveinv.Inv C wk (sr_st q) (sr_ok q) k m (sr q) -> linked f q ->
  call_by C q e sv = [] -> run f (effects C q e sv) = Some f' ->
  (forall x, serve.gone (sr q) = Some x -> serve.gone sv = Some x) ->
  serve.results sv = serve.results (sr q) ->
  (forall i g', serve.gors sv !! i = Some g' -> exists g, serve.gors (sr q) !! i = Some g /\
     serve.running g' = serve.running g /\
     (serve.adm g' = true -> serve.adm g = true \/
        forall j c, calls q !! i = Some j -> fl.callers f !! j = Some c -> fl.c_admitted c = true)) ->
  (forall i, is_Some (serve.gors (sr q) !! i) -> is_Some (serve.gors sv !! i)) ->
  (forall i j cr, calls q !! i = Some j -> serve.results (sr q) !! i = Some cr -> err cr = None ->
     (i ∈ serve.closed sv <-> i ∈ serve.closed (sr q) \/ j ∈ closed_by C q e)) ->
  (forall i j, calls q !! i = Some j -> j ∈ closed_by C q e -> is_Some (serve.results (sr q) !! i)) ->
  linked f' (moved q sv).
Proof.
  intros HI [Hd Hl] Hcb Hr Hgm Hres Hgor Hdom Hcl Hclr.
  destruct (plain_effects f q e sv f' Hcb Hr) as [_ Hall]. split; simpl.
  { intros i. rewrite Hd. split; [by apply Hdom|]. intros [g' Hg']. destruct (Hgor i g' Hg') as (g & Hg & _).
    by exists g. }
  intros i j g' Hi Hg'. destruct (Hgor i g' Hg') as (g & Hg & Hrun & Hadm).
  destruct (Hl i j g Hi Hg) as (c & Hc & Hk & Hv & Hs & Hgo & Hp).
  destruct (Hall j c Hc) as (c' & Hc' & (K1 & K2 & K3 & K4) & Ha & Hpc & Hgo').
  exists c'. split; [done|]. unfold call_ok. simpl. rewrite K1, K2, K3, K4. do 3 (split; [done|]). split.
  { rewrite Hgo', Hgo. destruct (serve.gone (sr q)) as [x|] eqn:Hgq.
    - by rewrite (Hgm x eq_refl).
    - destruct (serve.gone sv) as [x|]; [|done]. rewrite decide_True; [done|]. by eapply calls_values. }
  rewrite Hrun. destruct (serve.running g) eqn:Hrg.
  - rewrite decide_False in Hpc.
    2: { intros Hj. destruct (Hclr i j Hi Hj) as [cr Hcr].
         destruct (proj1 (serveinv.v_results _ _ _ _ _ _ _ HI i) (ex_intro _ cr Hcr)) as (g2 & Hg2 & Hr2).
         congruence. }
    destruct Hp as [Hp Hpa]. split; [congruence|]. intros Hg2. rewrite Ha.
    destruct (Hadm Hg2) as [?|Hx]; [by apply Hpa|by apply (Hx j c)].
  - destruct Hp as (cr' & Hcr & Hp). exists cr'. rewrite Hres. split; [done|].
    destruct (err cr') eqn:He; rewrite ?He in Hp; [rewrite Hpc; by destruct (decide (j ∈ closed_by C q e))|].
    pose proof (Hcl i j cr' Hi Hcr He) as Hiff. rewrite Hpc.
    destruct (decide (i ∈ serve.closed sv)) as [Hin|Hout].
    + destruct (decide (j ∈ closed_by C q e)) as [Hj|Hj]; [done|]. rewrite decide_True in Hp; [done|]. by apply Hiff in Hin as [?|?].
    + rewrite decide_False by (intros ?; apply Hout, Hiff; by right).
      rewrite decide_False in Hp; [exact Hp|]. intros ?. apply Hout, Hiff. by left.
Qed.

Lemma own_apart s r q i1 i2 j :
  SInv s -> runs s !! r = Some q -> calls q !! i1 = Some j -> calls q !! i2 = Some j -> i1 = i2.
Proof. intros HS Hq H1 H2. by destruct (s_apart s HS r r q q i1 i2 j Hq Hq H1 H2). Qed.

(** The chunks a step closes are those whose calls it closes. *)
Lemma closes_match s r q e h sv k m i j cr :
  SInv s -> runs s !! r = Some q -> serveinv.Inv C wk (sr_st q) (sr_ok q) k m (sr q) ->
  exec (Machine:=serve.serve_machine C wk (sr_st q) h (sr_ok q)) (sr q) e = Some sv ->
  calls q !! i = Some j -> serve.results (sr q) !! i = Some cr -> err cr = None ->
  (i ∈ serve.closed sv <-> i ∈ serve.closed (sr q) \/ j ∈ closed_by C q e).
Proof.
  intros HS Hq HI He Hi Hcr Herr.
  destruct (serveinv.serve_frame C wk (sr_st q) h (sr_ok q) (sr q) e sv He) as (_ & _ & ->).
  rewrite elem_of_app. apply or_iff_compat_l. unfold closed_by.
  destruct e, (serve.cons (sr q)); try (rewrite !elem_of_nil; done).
  - rewrite list_elem_of_singleton, list_elem_of_omap. split.
    + intros ->. exists i0. split; [by apply list_elem_of_singleton|done].
    + intros (i' & ->%list_elem_of_singleton & Hi'). by eapply own_apart.
  - unfold serve.leftover at 1. rewrite list_elem_of_omap. split.
    + intros Hin. exists i. split; [done|]. apply list_elem_of_filter in Hin as [[cr2 Hp] _]. rewrite Hp.
      destruct (serveinv.v_pending _ _ _ _ _ _ _ HI i cr2 Hp) as (Hr & _).
      assert (cr2 = cr) as -> by congruence. by rewrite Herr.
    + intros (i' & Hin & Hi'). destruct (serve.pending (sr q) !! i') as [cr2|]; [|done].
      destruct (err cr2); [done|]. assert (i = i') as -> by (by eapply own_apart). done.
Qed.

Lemma closes_results s r q e k m i j :
  SInv s -> runs s !! r = Some q -> serveinv.Inv C wk (sr_st q) (sr_ok q) k m (sr q) ->
  calls q !! i = Some j -> j ∈ closed_by C q e -> is_Some (serve.results (sr q) !! i).
Proof.
  intros HS Hq HI Hi. unfold closed_by.
  destruct e, (serve.cons (sr q)) as [| |a| |] eqn:Hc; try (by intros ?%elem_of_nil);
    intros (i' & Hin & Hi')%list_elem_of_omap.
  - apply list_elem_of_singleton in Hin as ->. assert (i = i0) as -> by (by eapply own_apart).
    destruct (serveinv.v_hand _ _ _ _ _ _ _ HI i0 cr Hc) as (Hr & _). by exists cr.
  - destruct (serve.pending (sr q) !! i') as [cr2|] eqn:Hp; [|done]. destruct (err cr2); [done|].
    assert (i = i') as -> by (by eapply own_apart).
    destruct (serveinv.v_pending _ _ _ _ _ _ _ HI i' cr2 Hp) as (Hr & _). by exists cr2.
Qed.

(** A step of a stream that calls nobody. *)
Lemma plain_SInv s r q e sv f' :
  SInv s -> runs s !! r = Some q -> permitted s q e = true ->
  exec (Machine:=serve.serve_machine C wk (sr_st q) (fl.hp (fetches s)) (sr_ok q)) (sr q) e = Some sv ->
  call_by C q e sv = [] -> run (fetches s) (effects C q e sv) = Some f' ->
  SInv (set_run r (moved q sv) f' s).
Proof.
  intros HS Hq Hper He Hcb Hr. destruct (s_serve s HS r q Hq) as (k & m & HI).
  pose proof (plain_effects _ _ _ _ _ Hcb Hr) as [Hn _].
  apply (SInv_update s r q); [done..| | |done|].
  - by eapply serveinv.serve_Inv_step.
  - destruct (serveinv.serve_frame _ _ _ _ _ _ _ _ He) as (Hres & Hgor & _).
    assert (serve.results sv = serve.results (sr q)) as Hres' by (by destruct e).
    apply (linked_plain (fetches s) f' q e sv k m HI); [by eapply s_linked|done|done| |done| | | |].
    + intros x. by eapply gone_mono.
    + intros i g' Hg'. destruct e; try (rewrite Hgor in Hg'; exists g'; auto; done).
      * exists g'. split; [|auto]. unfold call_by in Hcb. cbn in He. unfold serve.spawn in He.
        destruct (serve.disp (sr q)); try done. destruct (serve.gone (sr q)); injection He as <-; [done|].
        discriminate Hcb.
      * cbn in He. unfold serve.admit_chunk in He. destruct (serve.gors (sr q) !! i0) as [g|] eqn:Hg; [|done]. simpl in He.
        destruct (serve.running g) eqn:Hrg; [|done]. destruct (serve.adm g) eqn:Hag; [done|]. injection He as <-.
        simpl in Hg'. apply lookup_insert_Some in Hg' as [[<- <-]|[_ Hg']]; [|exists g'; auto].
        exists g. split; [done|]. split; [done|]. intros _. right. intros j c Hj Hc.
        unfold permitted in Hper. rewrite Hj in Hper. simpl in Hper. by rewrite Hc in Hper.
      * done.
    + intros i Hi. destruct e; try by rewrite Hgor.
      * unfold call_by in Hcb. cbn in He. unfold serve.spawn in He.
        destruct (serve.disp (sr q)); try done. destruct (serve.gone (sr q)); injection He as <-; [done|].
        discriminate Hcb.
      * cbn in He. unfold serve.admit_chunk in He. inv_bind. subst. simpl. apply lookup_insert_is_Some'. by right.
      * done.
    + intros i j cr Hi Hcr Herr. by eapply closes_match.
    + intros i j Hi Hj. by eapply closes_results.
  - intros j c Hj Hc. by eapply plain_others.
Qed.

(** The step that starts chunk [i], and the call it makes. *)
Lemma spawn_SInv s r q i f' a b :
  SInv s -> runs s !! r = Some q -> serve.disp (sr q) = serve.DCheck i -> serve.gone (sr q) = None ->
  chunkSpan C (sr_st q) (Z.of_nat i) = (a, b) ->
  fl.fetch C (st_key (sr_st q)) (st_v (sr_st q)) a b (fetches s) = Some f' ->
  SInv (set_run r
    {| sr_st := sr_st q; sr_ok := sr_ok q;
       sr := serve.set_disp (serve.DWait i) (serve.set_gor i {| serve.running := true; serve.adm := false |} (sr q));
       calls := <[i := fl.next (fetches s)]> (calls q) |} f' s).
Proof.
  intros HS Hq Hd Hg Hab Hf. pose proof HS as [Hok Hsv Hli Hap Hne].
  destruct (Hsv r q Hq) as (k & m & HI). destruct (Hli r q Hq) as [Hdom Hlk].
  assert (fl.next f' = S (fl.next (fetches s)) /\
    forall j, fl.callers f' !! j = if decide (j = fl.next (fetches s)) then
      Some {| fl.c_key := st_key (sr_st q); fl.c_v := st_v (sr_st q); fl.c_start := a; fl.c_end := b;
              fl.gone := None; fl.c_admitted := false; fl.c_pc := fl.CLookup; fl.c_claim := fl.KNone |}
    else fl.callers (fetches s) !! j) as [Hn Hc].
  { unfold fl.fetch in Hf. destruct (_ && _); [|done]. injection Hf as <-. simpl. split; [done|]. intros j.
    case_decide; [subst; apply lookup_insert_eq|by rewrite lookup_insert_ne]. }
  assert (forall r' q' i' j c, runs s !! r' = Some q' -> calls q' !! i' = Some j ->
    fl.callers (fetches s) !! j = Some c -> fl.callers f' !! j = Some c) as Hold.
  { intros r' q' i' j c Hq' Hi' Hj. specialize (Hne r' q' i' j Hq' Hi'). by rewrite Hc, decide_False by lia. }
  split; simpl.
  - intros r' q1 [[<- <-]|[_ Hq1]]%lookup_insert_Some; [by apply (Hok r q)|by eapply Hok].
  - intros r' q1 [[<- <-]|[_ Hq1]]%lookup_insert_Some; [simpl|by eapply Hsv].
    destruct (serveinv.spawn_Inv C wk (sr_st q) (sr_ok q) k m (sr q)
      (serve.set_disp (serve.DWait i) (serve.set_gor i {| serve.running := true; serve.adm := false |} (sr q))) HI) as [k' HI'];
      [unfold serve.spawn; by rewrite Hd, Hg|by exists k', m].
  - intros r' q1 [[<- <-]|[_ Hq1]]%lookup_insert_Some.
    2: { apply (linked_kept (fetches s)); [by eapply Hli|]. intros i' j c Hi' Hj. exists c.
         split; [by eapply Hold|apply kept_refl]. }
    split; simpl.
    { intros i'. rewrite !lookup_insert_is_Some'. by rewrite Hdom. }
    intros i' j g [[<- <-]|[Hni Hi']]%lookup_insert_Some Hg'.
    { rewrite lookup_insert_eq in Hg'. injection Hg' as <-. rewrite Hc, decide_True by done.
      eexists. split; [done|]. unfold call_ok. simpl. by rewrite Hab, Hg. }
    rewrite lookup_insert_ne in Hg' by done. destruct (Hlk i' j g Hi' Hg') as (c & Hj & Hcok).
    exists c. split; [by eapply Hold|exact Hcok].
  - intros r1 r2 q1 q2 i1 i2 j [[<- <-]|[Hn1 H1]]%lookup_insert_Some [[<- <-]|[Hn2 H2]]%lookup_insert_Some; simpl;
      intros Hj1 Hj2.
    + split; [done|].
      apply lookup_insert_Some in Hj1 as [[Hi1 Hj1]|[_ Hj1]]; apply lookup_insert_Some in Hj2 as [[Hi2 Hj2]|[_ Hj2]].
      * congruence.
      * specialize (Hne r q i2 _ Hq Hj2). lia.
      * specialize (Hne r q i1 _ Hq Hj1). lia.
      * by eapply own_apart.
    + apply lookup_insert_Some in Hj1 as [[<- <-]|[_ Hj1]]; [specialize (Hne r2 q2 i2 _ H2 Hj2); lia|by eapply Hap].
    + apply lookup_insert_Some in Hj2 as [[<- <-]|[_ Hj2]]; [specialize (Hne r1 q1 i1 _ H1 Hj1); lia|by eapply Hap].
    + by eapply Hap.
  - rewrite Hn. intros r' q1 i' j [[<- <-]|[_ H1]]%lookup_insert_Some Hi'; simpl in Hi'.
    + apply lookup_insert_Some in Hi' as [[_ <-]|[_ Hi']]; [lia|]. specialize (Hne r q i' j Hq Hi'). lia.
    + specialize (Hne r' q1 i' j H1 Hi'). lia.
Qed.

(** The step that hands the result of call [i] over. *)
Lemma deliver_SInv s r i now s' :
  SInv s -> deliver_step C wk r i now s = Some s' -> SInv s'.
Proof.
  intros HS He. unfold deliver_step in He. destruct (runs s !! r) as [q|] eqn:Hq; [|done]. simpl in He.
  destruct (calls q !! i) as [j|] eqn:Hi; [|done]. simpl in He.
  destruct (fl.callers (fetches s) !! j) as [c|] eqn:Hj; [|done]. simpl in He.
  destruct (fl.c_pc c) as [| | | |cr|] eqn:Hp; try done.
  destruct (exec (sr q) _) as [sv|] eqn:Hsv; [|done]. simpl in He.
  destruct (run (fetches s) _) as [f'|] eqn:Hf; [|done]. simpl in He. injection He as <-.
  destruct (s_serve s HS r q Hq) as (k & m & HI). destruct (s_linked s HS r q Hq) as [Hdom Hlk].
  cbn in Hsv. unfold serve.deliver in Hsv. destruct (serve.gors (sr q) !! i) as [g|] eqn:Hg; [|done]. simpl in Hsv.
  destruct (serve.running g) eqn:Hrun; [|done].
  assert (run (fetches s) (fl.EClose <$> match err cr with Some _ => [j] | None => [] end) = Some f') as Hf'
    by (by destruct (err cr)).
  destruct (close_run C _ _ _ Hf') as [Hn Hall].
  assert (serve.results (sr q) !! i = None) as Hnone.
  { apply eq_None_not_Some. intros (g' & Hg' & ?)%(serveinv.v_results _ _ _ _ _ _ _ HI). congruence. }
  assert (i ∉ serve.closed (sr q)) as Hncl.
  { intros Hx. apply (serveinv.v_closed _ _ _ _ _ _ _ HI) in Hx as [? ?]. congruence. }
  apply (SInv_update s r q); try done.
  - exists k, m. simpl. apply (serveinv.deliver_Inv C wk (sr_st q) (sr_ok q) k m i (result_of cr) now (sr q)); [done|].
    unfold serve.deliver. by rewrite Hg; simpl; rewrite Hrun.
  - injection Hsv as <-. split; simpl.
    { intros i'. rewrite Hdom, lookup_insert_is_Some'. split; [by right|intros [<-|?]; [by exists g|done]]. }
    intros i' j' g' Hi' Hg'.
    assert (exists c0 g0, fl.callers (fetches s) !! j' = Some c0 /\ serve.gors (sr q) !! i' = Some g0 /\ call_ok q i' g0 c0)
      as (c0 & g0 & Hj0 & Hg0 & Hok0).
    { destruct (proj1 (Hdom i') (ex_intro _ j' Hi')) as [g0 Hg0]. destruct (Hlk i' j' g0 Hi' Hg0) as (c0 & ? & ?).
      by exists c0, g0. }
    destruct (Hall j' c0 Hj0) as (c' & Hc' & (K1 & K2 & K3 & K4) & Hgn & Ha & Hpc). exists c'. split; [done|].
    destruct Hok0 as (Hk & Hv & Hs & Hgo & Hp0). unfold call_ok. simpl. rewrite K1, K2, K3, K4, Hgn.
    do 4 (split; [done|]).
    apply lookup_insert_Some in Hg' as [[<- <-]|[Hne Hg']]; simpl.
    + assert (j' = j) as -> by congruence. assert (c0 = c) as -> by congruence.
      rewrite lookup_insert_eq. eexists. split; [done|].
      unfold result_of. destruct (err cr) as [e|] eqn:He; simpl.
      * by rewrite Hpc, decide_True by (by apply list_elem_of_singleton).
      * rewrite He, decide_False by done. exists cr. by rewrite Hpc.
    + assert (g0 = g') as -> by congruence.
      assert (j' ∉ match err cr with Some _ => [j] | None => [] end) as Hnj.
      { destruct (err cr); [|apply not_elem_of_nil]. rewrite list_elem_of_singleton. intros ->. destruct Hne. by eapply own_apart. }
      rewrite lookup_insert_ne by done. by rewrite Hpc, Ha, decide_False by done.
  - intros j' c0 Hj' Hc0. destruct (Hall j' c0 Hc0) as (c' & Hc' & Hsm & Hgn & Ha & Hpc). exists c'. split; [done|].
    rewrite decide_False in Hpc.
    2: { destruct (err cr); [|apply not_elem_of_nil]. rewrite list_elem_of_singleton. intros ->. by destruct (Hj' i). }
    split; [done|]. split; [done|]. split; [congruence|]. by rewrite Hpc.
Qed.

(** What a stream's step is. *)
Lemma serve_step_cases r e s s' :
  serve_step C wk r e s = Some s' ->
  exists q sv f', runs s !! r = Some q /\ permitted s q e = true /\
    exec (Machine:=serve.serve_machine C wk (sr_st q) (fl.hp (fetches s)) (sr_ok q)) (sr q) e = Some sv /\
    run (fetches s) (effects C q e sv) = Some f' /\
    ((call_by C q e sv = [] /\ s' = set_run r (moved q sv) f' s) \/
     (exists i a b, e = serve.ESpawn /\ serve.disp (sr q) = serve.DCheck i /\ serve.gone (sr q) = None /\
        sv = serve.set_disp (serve.DWait i) (serve.set_gor i {| serve.running := true; serve.adm := false |} (sr q)) /\
        chunkSpan C (sr_st q) (Z.of_nat i) = (a, b) /\
        fl.fetch C (st_key (sr_st q)) (st_v (sr_st q)) a b (fetches s) = Some f' /\
        s' = set_run r {| sr_st := sr_st q; sr_ok := sr_ok q; sr := sv;
                          calls := <[i := fl.next (fetches s)]> (calls q) |} f' s)).
Proof.
  unfold serve_step. destruct (runs s !! r) as [q|] eqn:Hq; [|done]. simpl.
  destruct (permitted s q e) eqn:Hper; [|done].
  destruct (exec (sr q) e) as [sv|] eqn:He; [|done]. simpl.
  destruct (run (fetches s) (effects C q e sv)) as [f'|] eqn:Hf; [|done]. simpl. intros [= <-].
  exists q, sv, f'. do 4 (split; [done|]).
  destruct e; try (left; done).
  cbn in He. unfold serve.spawn in He. destruct (serve.disp (sr q)) as [|i|i|] eqn:Hd; try done.
  destruct (serve.gone (sr q)) as [e|] eqn:Hg; injection He as <-; [by left|right].
  destruct (chunkSpan C (sr_st q) (Z.of_nat i)) as [a b] eqn:Hab. exists i, a, b.
  do 5 (split; [done|]). split; [|done].
  unfold effects, call_by, closed_by, cancelled_by in Hf.
  cbn [serve.disp serve.set_disp serve.set_gor serve.gone] in Hf. rewrite Hab, Hg in Hf. cbn in Hf.
  by destruct (fl.fetch _ _ _ _ _ _).
Qed.

Lemma service_step s e s' :
  SInv s -> exec (Machine:=service_machine C wk timeout) s e = Some s' ->
  match e with Begin _ st _ _ => stream_ok C st | _ => True end -> SInv s'.
Proof.
  intros HS He Hst. destruct e as [e|r st ok x|r e|r i now]; cbn in He.
  - destruct (free s e) eqn:Hfr; [|done]. destruct (exec (fetches s) e) as [f|] eqn:Hf; [|done]. injection He as <-.
    by eapply fetch_SInv.
  - destruct (runs s !! r) eqn:Hr; [done|]. injection He as <-. destruct HS as [Hok Hsv Hli Hap Hne]. split; simpl.
    + intros r' q1 [[<- <-]|[_ Hq1]]%lookup_insert_Some; [apply Hst|by eapply Hok].
    + intros r' q1 [[<- <-]|[_ Hq1]]%lookup_insert_Some; [|by eapply Hsv].
      exists 0%nat, 0%nat. by apply serveinv.start_Inv.
    + intros r' q1 [[<- <-]|[_ Hq1]]%lookup_insert_Some; [|by eapply Hli]. split; simpl;
        [intros i; by rewrite !lookup_empty|]. intros i j g Hi. by rewrite lookup_empty in Hi.
    + intros r1 r2 q1 q2 i1 i2 j [[<- <-]|[_ H1]]%lookup_insert_Some [[<- <-]|[_ H2]]%lookup_insert_Some; simpl;
        [done..|]. by eapply Hap.
    + intros r' q1 i' j [[<- <-]|[_ H1]]%lookup_insert_Some; simpl; [done|]. by eapply Hne.
  - apply serve_step_cases in He as (q & sv & f' & Hq & Hper & Hx & Hf & [[Hcb ->]|(i & a & b & -> & Hd & Hg & -> & Hab & Hfe & ->)]).
    + by eapply plain_SInv.
    + by eapply spawn_SInv.
  - by eapply deliver_SInv.
Qed.

Lemma init_SInv cap d : SInv (init cap d).
Proof. by split; intros *; unfold init; simpl; intros. Qed.

Lemma call_of s r q i g :
  SInv s -> runs s !! r = Some q -> serve.gors (sr q) !! i = Some g ->
  exists j c, calls q !! i = Some j /\ fl.callers (fetches s) !! j = Some c /\ call_ok q i g c.
Proof.
  intros HS Hq Hg. destruct (s_linked _ HS r q Hq) as [Hd Hl].
  destruct (proj2 (Hd i) (ex_intro _ g Hg)) as [j Hj]. destruct (Hl i j g Hj Hg) as (c & Hc & Hok). by exists j, c.
Qed.

(** A chunk its stream has received and not yet closed is what its call
    returned. *)
Lemma held_result s r q k m i cr :
  SInv s -> runs s !! r = Some q -> serveinv.Inv C wk (sr_st q) (sr_ok q) k m (sr q) ->
  serve.results (sr q) !! i = Some cr -> err cr = None -> i ∉ serve.closed (sr q) ->
  exists j c cr0, calls q !! i = Some j /\ fl.callers (fetches s) !! j = Some c /\
    (fl.c_key c = st_key (sr_st q) /\ fl.c_v c = st_v (sr_st q) /\
     (fl.c_start c, fl.c_end c) = chunkSpan C (sr_st q) (Z.of_nat i)) /\
    fl.c_pc c = fl.CReturned cr0 /\ err cr0 = None /\ cr = serve.delivered C (sr_st q) i (inr cr0).
Proof.
  intros HS Hq HI Hr He Hcl. destruct (proj1 (serveinv.v_results _ _ _ _ _ _ _ HI i) (ex_intro _ cr Hr)) as (g & Hg & Hrun).
  destruct (call_of s r q i g HS Hq Hg) as (j & c & Hj & Hc & Hk & Hv & Hs & _ & Hok). rewrite Hrun in Hok.
  destruct Hok as (cr' & Hr' & Hok). assert (cr' = cr) as -> by congruence. rewrite He, decide_False in Hok by done.
  destruct Hok as (cr0 & Hp & He0 & ->). by exists j, c, cr0.
Qed.

(** ** What a step does to the streams *)

Definition calm (e : fl.event) : Prop := match e with fl.EClose _ | fl.ECancel _ _ => True | _ => False end.

Lemma calm_effects q e sv : call_by C q e sv = [] -> Forall calm (effects C q e sv).
Proof.
  unfold effects. intros ->. simpl. apply Forall_app. split; [by apply Forall_fmap, Forall_true|]. unfold cancelled_by.
  destruct (serve.gone (sr q)), (serve.gone sv); try done. by apply Forall_fmap, Forall_true.
Qed.

Lemma step_runs s e s' :
  exec (Machine:=service_machine C wk timeout) s e = Some s' ->
  runs s' = runs s \/
  (exists r st ok x, e = Begin r st ok x /\ runs s !! r = None /\
     runs s' = <[r := {| sr_st := st; sr_ok := ok; sr := serve.start timeout x; calls := ∅ |}]> (runs s)) \/
  (exists r q q' e', runs s !! r = Some q /\ runs s' = <[r := q']> (runs s) /\
     sr_st q' = sr_st q /\ sr_ok q' = sr_ok q /\
     exec (Machine:=serve.serve_machine C wk (sr_st q) (fl.hp (fetches s)) (sr_ok q)) (sr q) e' = Some (sr q')).
Proof.
  intros He. destruct e as [e|r st ok x|r e|r i now]; cbn in He.
  - destruct (free s e); [|done]. destruct (exec (fetches s) e); [|done]. injection He as <-. by left.
  - right. left. destruct (runs s !! r) eqn:Hr; [done|]. injection He as <-. by exists r, st, ok, x.
  - right. right. apply serve_step_cases in He as (q & sv & f' & Hq & _ & Hx & _ & Hs').
    destruct Hs' as [[_ ->]|(i & a & b & _ & _ & _ & _ & _ & _ & ->)]; exists r, q; eexists _, e; eauto.
  - right. right. unfold deliver_step in He. destruct (runs s !! r) as [q|] eqn:Hq; [|done]. simpl in He.
    destruct (calls q !! i) as [j|]; [|done]. simpl in He.
    destruct (fl.callers (fetches s) !! j) as [c|]; [|done]. simpl in He. destruct (fl.c_pc c) as [| | | |cr|]; try done.
    destruct (exec (sr q) _) as [sv|] eqn:Hx; [|done]. simpl in He. destruct (run (fetches s) _); [|done].
    injection He as <-. exists r, q. eexists _, _. split; [done|]. split; [done|]. do 2 (split; [done|]). exact Hx.
Qed.

(** ** Whose a call is *)

(** A step changes at most one call, and none comes back from the dead. *)
Lemma callers_change f e f' :
  exec f e = Some f' ->
  fl.callers f' = fl.callers f \/
  (exists i c1 c2, fl.callers f !! i = Some c1 /\ fl.callers f' = <[i := c2]> (fl.callers f) /\
     (fl.c_pc c1 = fl.CClosed -> fl.c_pc c2 = fl.CClosed)) \/
  (exists k v a b c2, e = fl.EFetch k v a b /\ fl.callers f' = <[fl.next f := c2]> (fl.callers f)).
Proof.
  intros He. unfold fl_this in He. destruct e.
  1: { right. right. cbn in He. unfold fl.fetch in He. destruct (_ && _); [|done]. injection He as <-. by eexists _, _, _, _, _. }
  1: { right. left. cbn in He. unfold fl.cancel in He. destruct (fl.callers f !! i) as [c|] eqn:Hc; [|done].
       injection He as <-. by eexists _, _, _. }
  21: { injection He as <-. by left. }
  all: fllive.step_cases He; first [by left|right; left; eexists _, _, _; split; [eassumption|]; split; [reflexivity|];
    intros; simpl in *; congruence].
Qed.

Lemma caller_back f e f' j c' :
  exec f e = Some f' -> fl.callers f' !! j = Some c' ->
  (exists c, fl.callers f !! j = Some c /\ (fl.c_pc c = fl.CClosed -> fl.c_pc c' = fl.CClosed)) \/
  (j = fl.next f /\ exists k v a b, e = fl.EFetch k v a b).
Proof.
  intros He Hj. destruct (callers_change f e f' He) as [Heq|[(i & c1 & c2 & H1 & Heq & Hcl)|(k & v & a & b & c2 & -> & Heq)]];
    rewrite Heq in Hj.
  - left. by exists c'.
  - left. apply lookup_insert_Some in Hj as [[<- <-]|[_ Hj]]; [by exists c1|by exists c'].
  - apply lookup_insert_Some in Hj as [[<- _]|[_ Hj]]; [right; eauto 8|left; by exists c'].
Qed.

Lemma calm_back f es f' j c' :
  Forall calm es -> run f es = Some f' -> fl.callers f' !! j = Some c' ->
  exists c, fl.callers f !! j = Some c /\ (fl.c_pc c = fl.CClosed -> fl.c_pc c' = fl.CClosed).
Proof.
  intros Hes. revert f. induction Hes as [|e es He Hes IH]; intros f; simpl; [intros [= <-]; by exists c'|].
  destruct (exec f e) as [f1|] eqn:Hx; simpl; [|done]. intros Hr Hj.
  destruct (IH f1 Hr Hj) as (c1 & H1 & Hc1).
  destruct (caller_back f e f1 j c1 Hx H1) as [(c & Hc & Hcc)|(_ & k & v & a & b & ->)]; [exists c; auto|done].
Qed.

(** Streams keep their calls, and get none but new ones. *)
Lemma owned_step s e s' j :
  SInv s -> exec (Machine:=service_machine C wk timeout) s e = Some s' ->
  (owned s j = true -> owned s' j = true) /\
  (owned s' j = true -> owned s j = true \/ j = fl.next (fetches s)).
Proof.
  intros HS He. rewrite !owned_spec.
  assert (forall r q q', runs s !! r = Some q -> calls q' = calls q -> runs s' = <[r := q']> (runs s) ->
    (exists r q i, runs s !! r = Some q /\ calls q !! i = Some j) <->
    (exists r q i, runs s' !! r = Some q /\ calls q !! i = Some j)) as Hsame.
  { intros r q q' Hq Hc ->. split.
    - intros (r1 & q1 & i & H1 & H2). destruct (decide (r = r1)) as [->|Hne].
      + exists r1, q', i. rewrite lookup_insert_eq, Hc. split; [done|congruence].
      + exists r1, q1, i. by rewrite lookup_insert_ne.
    - intros (r1 & q1 & i & [[<- <-]|[_ H1]]%lookup_insert_Some & H2); [exists r, q, i; by rewrite <- Hc|by exists r1, q1, i]. }
  destruct e as [e|r st ok x|r e|r i now]; cbn in He.
  - destruct (free s e); [|done]. destruct (exec (fetches s) e); [|done]. injection He as <-. simpl. tauto.
  - destruct (runs s !! r) eqn:Hr; [done|]. injection He as <-. simpl. split.
    + intros (r1 & q1 & i & H1 & H2). exists r1, q1, i. rewrite lookup_insert_ne; [done|congruence].
    + intros (r1 & q1 & i & [[<- <-]|[_ H1]]%lookup_insert_Some & H2); [done|left; by exists r1, q1, i].
  - apply serve_step_cases in He as (q & sv & f' & Hq & _ & _ & _ & [[_ ->]|(i & a & b & _ & Hd & _ & _ & _ & _ & ->)]).
    + rewrite (Hsame r q (moved q sv) Hq eq_refl eq_refl). tauto.
    + destruct (s_serve s HS r q Hq) as (k & m & HI). destruct (s_linked s HS r q Hq) as [Hdom _].
      pose proof (serveinv.v_disp _ _ _ _ _ _ _ HI) as Hi. rewrite Hd in Hi. destruct Hi as [-> _].
      assert (calls q !! i = None) as Hnew.
      { apply eq_None_not_Some. rewrite Hdom. intros Hx%(serveinv.v_gors _ _ _ _ _ _ _ HI). lia. }
      simpl. split.
      * intros (r1 & q1 & i1 & H1 & H2). destruct (decide (r = r1)) as [->|Hne].
        -- assert (q1 = q) as -> by congruence. eexists r1, _, i1. split; [apply lookup_insert_eq|]. simpl.
           rewrite lookup_insert_ne; [done|congruence].
        -- exists r1, q1, i1. by rewrite lookup_insert_ne.
      * intros (r1 & q1 & i1 & [[<- <-]|[_ H1]]%lookup_insert_Some & H2); [simpl in H2|left; by exists r1, q1, i1].
        apply lookup_insert_Some in H2 as [[_ <-]|[_ H2]]; [by right|left; by exists r, q, i1].
  - unfold deliver_step in He. destruct (runs s !! r) as [q|] eqn:Hq; [|done]. simpl in He.
    destruct (calls q !! i); [|done]. simpl in He. destruct (fl.callers (fetches s) !! _) as [c|]; [|done]. simpl in He.
    destruct (fl.c_pc c); try done. destruct (exec (sr q) _) as [sv|]; [|done]. simpl in He.
    destruct (run (fetches s) _) as [f'|]; [|done]. injection He as <-.
    rewrite (Hsame r q (moved q sv) Hq eq_refl eq_refl). tauto.
Qed.

(** A call no stream made: only its own close closes it, and only a call from
    outside makes one. *)
Lemma unowned_call s e s' j c :
  SInv s -> exec (Machine:=service_machine C wk timeout) s e = Some s' ->
  owned s j = false -> (j < fl.next (fetches s))%nat -> fl.callers (fetches s) !! j = Some c ->
  e <> Fetch (fl.EClose j) ->
  exists c', fl.callers (fetches s') !! j = Some c' /\ (fl.c_pc c' = fl.CClosed <-> fl.c_pc c = fl.CClosed).
Proof.
  intros HS He Hown Hn Hj Hne.
  assert (forall r q i, runs s !! r = Some q -> calls q !! i <> Some j) as Hno.
  { intros r q i Hq Hi. assert (owned s j = true); [|congruence]. apply owned_spec. by exists r, q, i. }
  destruct e as [e|r st ok x|r e|r i now]; cbn in He.
  - destruct (free s e); [|done]. destruct (exec (fetches s) e) as [f|] eqn:Hf; [|done]. injection He as <-. simpl.
    assert ((exists x, e = fl.ECancel j x) \/ forall x, e <> fl.ECancel j x) as [[x ->]|Hc].
    { destruct e; try (right; done). destruct (decide (i = j)) as [->|]; [left; by eexists|right; congruence]. }
    + cbn in Hf. unfold fl.cancel in Hf. rewrite Hj in Hf. injection Hf as <-. simpl.
      eexists. by rewrite lookup_insert_eq.
    + destruct (other_call C (fetches s) e f j c Hf) as (c' & Hc' & (_ & _ & _ & Hp & _)); [congruence|done..|].
      by exists c'.
  - destruct (runs s !! r); [done|]. injection He as <-. by exists c.
  - apply serve_step_cases in He as (q & sv & f' & Hq & _ & _ & Hf & [[Hcb ->]|(i & a & b & _ & _ & _ & _ & _ & Hfe & ->)]).
    + destruct (plain_others (fetches s) q e sv f' j c Hcb Hf) as (c' & Hc' & (_ & _ & _ & Hp & _));
        [intros i; by eapply Hno|done|]. by exists c'.
    + unfold fl.fetch in Hfe. destruct (_ && _); [|done]. injection Hfe as <-. simpl. exists c.
      by rewrite lookup_insert_ne by lia.
  - unfold deliver_step in He. destruct (runs s !! r) as [q|] eqn:Hq; [|done]. simpl in He.
    destruct (calls q !! i) as [j0|] eqn:Hi; [|done]. simpl in He.
    destruct (fl.callers (fetches s) !! j0) as [c0|]; [|done]. simpl in He. destruct (fl.c_pc c0) as [| | | |cr|]; try done.
    destruct (exec (sr q) _); [|done]. simpl in He. destruct (run (fetches s) _) as [f'|] eqn:Hf; [|done].
    injection He as <-. simpl.
    assert (run (fetches s) (fl.EClose <$> match err cr with Some _ => [j0] | None => [] end) = Some f') as Hf'
      by (by destruct (err cr)).
    destruct (close_run C _ _ _ Hf') as [_ Hall]. destruct (Hall j c Hj) as (c' & Hc' & _ & _ & _ & Hp).
    exists c'. rewrite decide_False in Hp; [by rewrite Hp|]. destruct (err cr); [|apply not_elem_of_nil].
    intros ->%list_elem_of_singleton. by eapply Hno.
Qed.

Lemma call_origin s e s' j c' :
  exec (Machine:=service_machine C wk timeout) s e = Some s' ->
  fl.callers (fetches s') !! j = Some c' -> fl.c_pc c' <> fl.CClosed -> owned s' j = false ->
  (exists c, fl.callers (fetches s) !! j = Some c /\ fl.c_pc c <> fl.CClosed) \/
  (j = fl.next (fetches s) /\ exists k v a b, e = Fetch (fl.EFetch k v a b)).
Proof.
  intros He Hj Hp Hown. destruct e as [e|r st ok x|r e|r i now]; cbn in He.
  - destruct (free s e); [|done]. destruct (exec (fetches s) e) as [f|] eqn:Hf; [|done]. injection He as <-. simpl in Hj.
    destruct (caller_back _ _ _ _ _ Hf Hj) as [(c & Hc & Hcc)|(Hn & k & v & a & b & ->)];
      [left; exists c; auto|right; eauto 8].
  - destruct (runs s !! r); [done|]. injection He as <-. left. by exists c'.
  - left. apply serve_step_cases in He as (q & sv & f' & Hq & _ & _ & Hf & [[Hcb ->]|(i & a & b & _ & _ & _ & _ & _ & Hfe & ->)]).
    + destruct (calm_back _ _ _ _ _ (calm_effects q e sv Hcb) Hf Hj) as (c & Hc & Hcc). exists c. auto.
    + unfold fl.fetch in Hfe. destruct (_ && _); [|done]. injection Hfe as <-. simpl in Hj.
      apply lookup_insert_Some in Hj as [[<- _]|[_ Hj]]; [|by exists c'].
      exfalso. apply not_true_iff_false in Hown. apply Hown, owned_spec.
      eexists r, _, i. split; apply lookup_insert_eq.
  - left. unfold deliver_step in He. destruct (runs s !! r) as [q|] eqn:Hq; [|done]. simpl in He.
    destruct (calls q !! i) as [j0|] eqn:Hi; [|done]. simpl in He.
    destruct (fl.callers (fetches s) !! j0) as [c0|]; [|done]. simpl in He. destruct (fl.c_pc c0) as [| | | |cr|]; try done.
    destruct (exec (sr q) _); [|done]. simpl in He. destruct (run (fetches s) _) as [f'|] eqn:Hf; [|done].
    injection He as <-. simpl in Hj.
    destruct (fun Hes => calm_back _ _ _ _ _ Hes Hf Hj) as (c & Hc & Hcc); [by destruct (err cr); repeat constructor|].
    exists c. auto.
Qed.

(** ** Runs

    The fetches of a run of the service are a run of the fetches. *)

Lemma service_fetches s e s' :
  exec (Machine:=service_machine C wk timeout) s e = Some s' ->
  exists fes, run (fetches s) fes = Some (fetches s').
Proof.
  intros He. destruct e as [e|r st ok x|r e|r i now]; cbn in He.
  - destruct (free s e); [|done]. destruct (exec (fetches s) e) as [f|] eqn:Hf; [|done]. injection He as <-.
    exists [e]. simpl. unfold exec, fl_this in *. by rewrite Hf.
  - destruct (runs s !! r); [done|]. injection He as <-. by exists [].
  - apply serve_step_cases in He as (q & sv & f' & _ & _ & _ & Hf & [[_ ->]|(i & a & b & _ & _ & _ & _ & _ & _ & ->)]);
      by eexists.
  - unfold deliver_step in He. destruct (runs s !! r) as [q|]; [|done]. simpl in He.
    destruct (calls q !! i) as [j|]; [|done]. simpl in He.
    destruct (fl.callers (fetches s) !! j) as [c|]; [|done]. simpl in He.
    destruct (fl.c_pc c); try done. destruct (exec (sr q) _); [|done]. simpl in He.
    destruct (run (fetches s) _) as [f'|] eqn:Hf; [|done]. injection He as <-. by eexists.
Qed.

Lemma service_next_mono s e s' :
  exec (Machine:=service_machine C wk timeout) s e = Some s' -> (fl.next (fetches s) <= fl.next (fetches s'))%nat.
Proof.
  intros He. destruct (service_fetches s e s' He) as [fes Hf].
  eapply (run_invariant (fun f => fl.next (fetches s) <= fl.next f)%nat); [|done|exact Hf].
  intros f1 e1 f2 Hle Hx%flinv.next_mono. lia.
Qed.

Lemma run_fetches s es s' :
  run (H:=service_machine C wk timeout) s es = Some s' -> exists fes, run (fetches s) fes = Some (fetches s').
Proof.
  revert s. induction es as [|e es IH]; intros s; simpl; [intros [= <-]; by exists []|].
  destruct (exec (Machine:=service_machine C wk timeout) s e) as [s1|] eqn:He; simpl; [|done]. intros Hr.
  destruct (service_fetches s e s1 He) as [f1 H1]. destruct (IH s1 Hr) as [f2 H2].
  exists (f1 ++ f2). by rewrite run_app, H1.
Qed.

Lemma fetches_Inv U f fes f' :
  flinv.Inv C U f -> flinv.small f' -> run f fes = Some f' -> flinv.Inv C U f'.
Proof.
  intros HI Hsm Hr. apply (run_invariant_while (H:=fl_this) (flinv.Inv C U) flinv.small f fes f'); try done.
  - intros s0 e s1 He Hs1. apply flinv.next_mono in He. unfold flinv.small in *. lia.
  - intros s0 e s1 H0 Hs1 He. eapply flinv.Inv_step; [done| |done].
    apply flinv.next_mono in He. unfold flinv.small in *. lia.
Qed.

(** Every stream begun is one [Get] asks for. *)
Definition begins (e : event) : Prop := match e with Begin _ st _ _ => stream_ok C st | _ => True end.

Lemma run_SInv s es s' :
  SInv s -> Forall begins es -> run (H:=service_machine C wk timeout) s es = Some s' -> SInv s'.
Proof.
  revert s. induction es as [|e es IH]; intros s HS HB; simpl; [by intros [= <-]|].
  apply Forall_cons in HB as [Hb HB]. destruct (exec (Machine:=service_machine C wk timeout) s e) as [s1|] eqn:He; simpl; [|done].
  apply IH; [|done]. eapply service_step; [done|exact He|done].
Qed.

(** A state the service can be in. *)
Definition reachable (cap : Z) (d : gmap chunk_file bytes) (s : state) : Prop :=
  1 <= cap /\ 0 < C /\ cap * C <= int64_max /\ flinv.small (fetches s) /\
  exists es, Forall begins es /\ run (H:=service_machine C wk timeout) (init cap d) es = Some s.

Lemma reachable_SInv cap d s : reachable cap d s -> SInv s.
Proof. intros (_ & _ & _ & _ & es & HB & Hr). eapply run_SInv; [apply init_SInv|done|exact Hr]. Qed.

Lemma reachable_fetches cap d s : reachable cap d s -> flprops.reachable C cap d (fetches s).
Proof.
  intros (H1 & H2 & H3 & H4 & es & _ & Hr). do 4 (split; [done|]).
  destruct (run_fetches _ _ _ Hr) as [fes Hf]. by exists fes.
Qed.

(** ** Admission in order *)

(** A lead that has the unit it fetches with, and one that needs none any
    more: it has filled in its flight. *)
Definition has_unit (pc : fl.lead_pc) : Prop :=
  match pc with
  | fl.LAdmitted | fl.LDownload | fl.LFailed _ | fl.LPut _ | fl.LStored => True
  | _ => False
  end.
Definition is_over (pc : fl.lead_pc) : Prop := match pc with fl.LFinish | fl.LPublish => True | _ => False end.

(** A call that waits neither for the cache nor for the budget: it has
    returned, with an error, with a file of its own or with the chunk of a
    flight that is over; or it waits for a flight whose lead, if there still
    is one, is not parked on the budget's channel and has its unit or is over. *)
Definition past_budget (f : fl.state) (c : fl.caller) : Prop :=
  match fl.c_pc c with
  | fl.CLookup | fl.CMissed | fl.CWaitAdmitted _ => False
  | fl.CWaitOut n =>
      (n ∉ budget.units_queue (bud (fl.hp f))) /\
      (forall l, fl.leads f !! n = Some l -> has_unit (fl.l_pc l) \/ is_over (fl.l_pc l))
  | fl.CReturned cr =>
      is_Some (err cr) \/ is_Some (file cr) \/ (exists n, done cr = Some n /\ fl.leads f !! n = None)
  | fl.CClosed => True
  end.

Lemma admitted_past_budget U f j c :
  flinv.Inv C U f -> fl.callers f !! j = Some c -> fl.c_admitted c = true -> past_budget f c.
Proof.
  intros HI Hj Ha. destruct (flinv.i_callers _ _ _ HI j c Hj) as (_ & Hpc & Had). specialize (Had Ha).
  unfold past_budget. destruct (fl.c_pc c) as [| |n0|n|cr|] eqn:Hp; try done.
  - destruct (fl.leads f !! n) as [l|] eqn:Hl.
    + destruct (flprops.admitted_unqueued C U f j c n l HI Hj) as [Hpu Hq]; [by rewrite Hp|done..|].
      split; [done|]. intros l' [= <-]. destruct (fl.l_pc l); try done; first [by left|by right].
    + split; [|done]. intros (l & Hl' & _)%(flinv.h_queue _ _ _ _ _ _ (flinv.i_heap _ _ _ HI)). congruence.
  - unfold flinv.result_ok in Hpc. destruct (err cr) as [e|]; [left; by eexists|right].
    destruct Hpc as [(Hf & _)|(_ & i & f0 & Hd & Hl & _)]; [left; by eexists|right; by exists i].
Qed.

Lemma linked_past_budget U f q i j g :
  flinv.Inv C U f -> linked f q -> calls q !! i = Some j -> serve.gors (sr q) !! i = Some g -> serve.adm g = true ->
  exists c, fl.callers f !! j = Some c /\ past_budget f c.
Proof.
  intros HI [_ Hl] Hi Hg Ha. destruct (Hl i j g Hi Hg) as (c & Hc & _ & _ & _ & _ & Hp). exists c. split; [done|].
  destruct (serve.running g).
  - destruct Hp as [_ Hadm]. by eapply admitted_past_budget; auto.
  - unfold past_budget. destruct Hp as (cr' & _ & Hp). destruct (err cr'); [by rewrite Hp|].
    destruct (decide _); [by rewrite Hp|]. destruct Hp as (cr & Hp & He & _).
    destruct (flinv.i_callers _ _ _ HI j c Hc) as (_ & Hpc & _). rewrite Hp in *. unfold flinv.result_ok in Hpc.
    rewrite He in Hpc. right. destruct Hpc as [(Hf & _)|(_ & i0 & f0 & Hd & Hn & _)]; [left; by eexists|right; by exists i0].
Qed.

(** C20: a stream calls [fetchChunk] for its chunks in order, and for a chunk
    only once the calls for all chunks before it are past the budget: each has
    returned, or waits for a fetch that holds its unit or is over, and none
    waits for a fetch that is queued for one. So a stream waits for budget
    with its last chunk only, and requests that share the budget never hold it
    for chunks they cannot write yet while they queue for the one they need. *)
Theorem admission_in_order cap d s r q i j jc :
  reachable cap d s -> runs s !! r = Some q -> calls q !! j = Some jc -> (i < j)%nat ->
  exists ic c, calls q !! i = Some ic /\ fl.callers (fetches s) !! ic = Some c /\ past_budget (fetches s) c.
Proof.
  intros Hr Hq Hj Hij. pose proof (reachable_SInv _ _ _ Hr) as HS.
  pose proof (flprops.reachable_Inv _ _ _ _ (reachable_fetches _ _ _ Hr)) as HF.
  destruct (s_serve s HS r q Hq) as (k & m & HI). pose proof (s_linked s HS r q Hq) as Hl.
  destruct (serveinv.earlier_admitted _ _ _ _ k m _ i j HI) as (g & Hg & Ha); [apply Hl; by eexists|done|].
  destruct (proj2 (proj1 Hl i)) as [ic Hi]; [by eexists|].
  destruct (linked_past_budget _ _ q i ic g HF Hl Hi Hg Ha) as (c & Hc & Hp). by exists ic, c.
Qed.
End inv.

(** With a budget of one unit: the first chunk's fetch has it and is about to
    allocate its buffer, and the second chunk's queues behind it. *)
Module serviceinv_examples.
Import service_examples.
Definition queued : list event :=
  [Begin 0 (st 2 9) true (http.fresh None None)] ++ starts 0 ++ misses 0 ++
  [Fetch (fl.ELeadStart 1); Fetch (fl.EAcquire 1); Fetch (fl.EAdmit 1)] ++ admits 0 0 0 ++
  starts 0 ++ misses 2 ++ [Fetch (fl.ELeadStart 3); Fetch (fl.EAcquire 3)].
Definition first : stream_run :=
  default {| sr_st := st 2 9; sr_ok := true; sr := serve.start 45 (http.fresh None None); calls := ∅ |}
    (runs (after queued) !! 0%nat).
End serviceinv_examples.

Lemma admission_in_order_witness :
  budget.units_queue (bud (fl.hp (fetches (service_examples.after serviceinv_examples.queued)))) = [3%nat] /\
  exists ic c, calls serviceinv_examples.first !! 0%nat = Some ic /\
    fl.callers (fetches (service_examples.after serviceinv_examples.queued)) !! ic = Some c /\
    past_budget (fetches (service_examples.after serviceinv_examples.queued)) c.
Proof.
  split; [vm_compute; reflexivity|].
  refine (admission_in_order 4 8 45 1 ∅ (service_examples.after serviceinv_examples.queued) 0
    serviceinv_examples.first 0 1 2 _ _ _ _).
  - split; [lia|]. split; [lia|]. split; [vm_compute; discriminate|]. split; [vm_compute; discriminate|].
    exists serviceinv_examples.queued. split; [|vm_compute; reflexivity].
    repeat constructor; vm_compute; try done.
  - vm_compute. reflexivity.
  - vm_compute. reflexivity.
  - lia.
Defined.
End serviceinv.
