(* ===== verification/ServiceLive.v ===== *)
(** * The service: progress

    The streams, the readahead and the fetches share one budget, and a
    stream keeps its buffers until it has written them: whatever they have
    come to, some of them can move, and they come to an end. *)
From S2P Require Import Prelude GoStd GoTime Http Request HeadCache Budget Singleflight Chunk DiskCache Flights FlightsInv FlightsProps FlightsLive FlightsData WriteGuard Fetcher Serve ServeInv ServeOut ServeLive Service ServiceInv.

Module servicelive.
Import chunk fetcher service serviceinv.

(** The steps that need no client, no timeout and no eviction. *)
Definition forward (e : event) : Prop :=
  match e with
  | Fetch e => fllive.unforced e
  | Begin _ _ _ _ => False
  | Serve _ e => servelive.own e = true
  | Deliver _ _ _ => True
  end.

Definition over (q : stream_run) : bool := match serve.cons (sr q) with serve.CDone _ => true | _ => false end.
Definition finished (s : state) : Prop :=
  flprops.quiescent (fetches s) /\ map_Forall (fun _ q => over q = true) (runs s).

Section live.
Context (C wk timeout U : Z).
#[local] Instance fl_this : Machine fl.state fl.event := fl.flights_machine C.
#[local] Instance this : Machine state event := service_machine C wk timeout.

Definition good (s : state) : Prop :=
  SInv C wk s /\ flinv.Inv C U (fetches s) /\ flinv.small (fetches s).

Definition can_move (s : state) : Prop := exists e, forward e /\ is_Some (exec s e).

(** ** Steps that can be taken *)

Lemma by_fetch s e :
  free s e = true -> fllive.unforced e -> is_Some (exec (fetches s) e) -> can_move s.
Proof. intros Hf Hu [f He]. exists (Fetch e). split; [done|]. cbn. rewrite Hf. unfold fl_this in He. by rewrite He. Qed.

Lemma by_lead s : fllive.moves fllive.lead_step C (fetches s) -> can_move s.
Proof. intros (e & He & Hx). by apply (by_fetch s e); [destruct e..|]. Qed.

Lemma by_call s : fllive.moves fllive.call_step C (fetches s) -> can_move s.
Proof. intros (e & He & Hx). by apply (by_fetch s e); [destruct e..|]. Qed.

Definition returned (f : fl.state) (j : nat) : Prop :=
  exists c cr, fl.callers f !! j = Some c /\ fl.c_pc c = fl.CReturned cr.

(** Distinct results can be closed one after the other. *)
Lemma closes_run f js :
  flinv.Inv C U f -> flinv.small f -> NoDup js -> (forall j, j ∈ js -> returned f j) ->
  is_Some (run f (fl.EClose <$> js)).
Proof.
  revert f. induction js as [|j js IH]; intros f HI Hsm Hnd Hr; simpl; [done|].
  apply NoDup_cons in Hnd as [Hj Hnd]. destruct (Hr j) as (c & cr & Hc & Hp); [apply list_elem_of_here|].
  destruct (fllive.close_moves C U f j c cr HI Hsm Hc Hp) as [f1 H1].
  assert (run f (fl.EClose <$> [j]) = Some f1) as H1' by (simpl; unfold exec, fl_this in *; by rewrite H1).
  destruct (close_run C _ _ _ H1') as [Hn Hall]. unfold exec, fl_this in *. rewrite H1. simpl. apply IH; [|unfold flinv.small in *; lia|done|].
  - by eapply flinv.Inv_step.
  - intros j' Hj'. destruct (Hr j') as (c' & cr' & Hc' & Hp'); [by apply list_elem_of_further|].
    destruct (Hall j' c' Hc') as (c2 & Hc2 & _ & _ & _ & Hpc). exists c2, cr'. split; [done|].
    rewrite decide_False in Hpc; [congruence|]. rewrite list_elem_of_singleton. by intros ->.
Qed.

Lemma cancels_run f (l : list (nat * nat)) e :
  (forall j, j ∈ l.*2 -> is_Some (fl.callers f !! j)) -> is_Some (run f ((fun ij => fl.ECancel ij.2 e) <$> l)).
Proof.
  revert f. induction l as [|[i j] l IH]; intros f Hl; simpl; [done|].
  destruct (Hl j) as [c Hc]; [apply list_elem_of_here|]. unfold exec, fl_this in *. cbn. unfold fl.cancel. rewrite Hc. simpl.
  apply IH. intros j' Hj'. simpl. apply lookup_insert_is_Some'. right. apply Hl. by apply list_elem_of_further.
Qed.

Lemma held_call s r q k m i cr :
  SInv C wk s -> runs s !! r = Some q -> serveinv.Inv C wk (sr_st q) (sr_ok q) k m (sr q) ->
  serve.results (sr q) !! i = Some cr -> err cr = None -> i ∉ serve.closed (sr q) ->
  exists j, calls q !! i = Some j /\ returned (fetches s) j.
Proof.
  intros HS Hq HI Hr He Hcl. destruct (held_result C wk s r q k m i cr HS Hq HI Hr He Hcl) as (j & c & cr0 & Hj & Hc & _ & Hp & _).
  exists j. split; [done|]. by exists c, cr0.
Qed.

Lemma NoDup_omap_calls s r q (f : nat -> option nat) (l : list nat) :
  SInv C wk s -> runs s !! r = Some q -> (forall i j, f i = Some j -> calls q !! i = Some j) ->
  NoDup l -> NoDup (omap f l).
Proof.
  intros HS Hq Hf. induction 1 as [|i l Hi Hnd IH]; csimpl; [constructor|].
  destruct (f i) as [j|] eqn:Hj; [|done]. constructor; [|done].
  intros (i' & Hi' & Hj')%list_elem_of_omap.
  assert (i = i') as -> by (eapply own_apart; eauto). done.
Qed.

(** The results a stream closes are open. *)
Lemma closed_by_open s r q k m e :
  SInv C wk s -> runs s !! r = Some q -> serveinv.Inv C wk (sr_st q) (sr_ok q) k m (sr q) ->
  NoDup (closed_by C q e) /\ forall j, j ∈ closed_by C q e -> returned (fetches s) j.
Proof.
  intros HS Hq HI. unfold closed_by.
  destruct e, (serve.cons (sr q)) as [|x cr|a| |] eqn:Hc;
    try (split; [constructor|by intros j ?%elem_of_nil]).
  - destruct (serveinv.v_hand _ _ _ _ _ _ _ HI x cr Hc) as (Hr & He & Hcl).
    destruct (held_call s r q k m x cr HS Hq HI Hr He Hcl) as (j & Hj & Hret). csimpl. rewrite Hj.
    split; [apply NoDup_singleton|]. by intros j' ->%list_elem_of_singleton.
  - set (f := fun i => match serve.pending (sr q) !! i with Some cr => _ | None => _ end).
    assert (forall i j, f i = Some j -> calls q !! i = Some j) as Hf.
    { intros i j. unfold f. destruct (serve.pending (sr q) !! i) as [cr|]; [|done]. by destruct (err cr). }
    split; [eapply NoDup_omap_calls; [done..|]; apply NoDup_filter, NoDup_ListNoDup, seq_NoDup|].
    intros j (i & _ & Hi)%list_elem_of_omap. pose proof (Hf i j Hi) as Hj. unfold f in Hi.
    destruct (serve.pending (sr q) !! i) as [cr|] eqn:Hp; [|done]. destruct (err cr) eqn:He; [done|].
    destruct (serveinv.v_pending _ _ _ _ _ _ _ HI i cr Hp) as (Hr & _ & Hcl).
    destruct (held_call s r q k m i cr HS Hq HI Hr He Hcl) as (j' & Hj' & Hret). congruence.
Qed.

(** What a stream does to the fetches can always be done. *)
Lemma effects_run s r q k m e sv :
  good s -> runs s !! r = Some q -> serveinv.Inv C wk (sr_st q) (sr_ok q) k m (sr q) ->
  exec (Machine:=serve.serve_machine C wk (sr_st q) (fl.hp (fetches s)) (sr_ok q)) (sr q) e = Some sv ->
  is_Some (run (fetches s) (effects C q e sv)).
Proof.
  intros (HS & HF & Hsm) Hq HI He. unfold effects. rewrite run_app.
  destruct (closed_by_open s r q k m e HS Hq HI) as [Hnd Hret].
  destruct (decide (call_by C q e sv = [])) as [->|Hcb].
  - simpl. rewrite run_app. destruct (closes_run _ _ HF Hsm Hnd Hret) as [f1 H1]. rewrite H1. simpl.
    unfold cancelled_by. destruct (serve.gone (sr q)), (serve.gone sv) as [x|]; try done.
    apply cancels_run. intros j [i Hi]%values_calls. destruct (s_linked _ _ _ HS r q Hq) as [Hd Hl].
    destruct (proj1 (Hd i) (ex_intro _ j Hi)) as [g Hg]. destruct (Hl i j g Hi Hg) as (c & Hc & _).
    destruct (close_run C _ _ _ H1) as [_ Hall]. destruct (Hall j c Hc) as (c' & -> & _). done.
  - destruct e; try done. cbn in He. unfold serve.spawn in He.
    destruct (serve.disp (sr q)) as [|i| |] eqn:Hd; try done.
    destruct (serve.gone (sr q)) as [e|] eqn:Hg; injection He as <-; [done|].
    unfold call_by, closed_by, cancelled_by. cbn [serve.disp serve.set_disp serve.set_gor serve.gone]. rewrite Hg.
    pose proof (s_ok _ _ _ HS r q Hq) as Hok. pose proof (serveinv.v_disp _ _ _ _ _ _ _ HI) as Hi. rewrite Hd in Hi.
    destruct Hi as [_ Hi]. unfold serve.total_chunks in Hi.
    destruct (chunkSpan_eq C (sr_st q) (Z.of_nat i) Hok ltac:(lia)) as [-> Ha].
    destruct Hok as (HC & Hs & He & Ht). cbn. unfold fl.fetch. zcases; simpl; try done; lia.
Qed.

Lemma by_serve s r q e sv :
  good s -> runs s !! r = Some q -> servelive.own e = true -> permitted s q e = true ->
  exec (Machine:=serve.serve_machine C wk (sr_st q) (fl.hp (fetches s)) (sr_ok q)) (sr q) e = Some sv ->
  can_move s.
Proof.
  intros HG Hq Ho Hp He. destruct (s_serve _ _ _ (proj1 HG) r q Hq) as (k & m & HI).
  destruct (effects_run s r q k m e sv HG Hq HI He) as [f Hf].
  exists (Serve r e). split; [done|]. cbn. unfold serve_step. rewrite Hq. simpl. rewrite Hp, He. simpl.
  unfold fl_this in Hf. by rewrite Hf.
Qed.

Lemma by_deliver s r q i j g :
  good s -> runs s !! r = Some q -> calls q !! i = Some j -> returned (fetches s) j ->
  serve.gors (sr q) !! i = Some g -> serve.running g = true -> can_move s.
Proof.
  intros (HS & HF & Hsm) Hq Hi (c & cr & Hj & Hp) Hg Hr. exists (Deliver r i 0). split; [done|]. cbn.
  unfold deliver_step. rewrite Hq. simpl. rewrite Hi. simpl. rewrite Hj. simpl. rewrite Hp.
  unfold exec at 1, serve.serve_machine, serve.deliver. rewrite Hg. simpl. rewrite Hr. simpl.
  destruct (fllive.close_moves C U _ j c cr HF Hsm Hj Hp) as [f Hf]. destruct (err cr); [|done].
  simpl. by rewrite Hf.
Qed.

(** ** Streams that wait *)

Definition all_parked (f : fl.state) : Prop := map_Forall (fun i l => fllive.parked f i l = true) (fl.leads f).

(** A call that is under way moves, has returned, or waits for a lead without
    having been admitted. *)
Lemma call_waits s j c :
  good s -> all_parked (fetches s) -> fl.callers (fetches s) !! j = Some c -> fl.c_pc c <> fl.CClosed ->
  can_move s \/ returned (fetches s) j \/
  (fl.gone c = None /\ fl.c_admitted c = false /\ fl.leads (fetches s) <> ∅).
Proof.
  intros (HS & HF & Hsm) Hall Hj Hncl. destruct (fl.c_pc c) as [| | | |cr|] eqn:Hp; try done.
  5: by right; left; exists c, cr.
  all: destruct (fllive.open_moves C U _ j c HF Hsm Hj) as [(n & l & _ & Hw & Hl & Hg)|Hm];
    [by rewrite Hp| |left; by apply by_call].
  all: right; right; split; [done|]; split; [|intros Hx; by rewrite Hx, lookup_empty in Hl].
  all: destruct (fl.c_admitted c) eqn:Ha; [|done].
  all: destruct (flprops.admitted_unqueued C U _ j c n l HF Hj Hw Ha Hl) as [_ Hq].
  all: by destruct (proj1 (fllive.parked_spec _ n l) (Hall n l Hl)).
Qed.

Lemma running_waits s r q k m i g :
  good s -> all_parked (fetches s) -> runs s !! r = Some q ->
  serveinv.Inv C wk (sr_st q) (sr_ok q) k m (sr q) ->
  serve.gors (sr q) !! i = Some g -> serve.running g = true ->
  can_move s \/ (serve.gone (sr q) = None /\ k = S i /\ fl.leads (fetches s) <> ∅).
Proof.
  intros HG Hall Hq HI Hg Hr. pose proof HG as (HS & _ & _).
  destruct (call_of C wk s r q i g HS Hq Hg) as (j & c & Hi & Hj & _ & _ & _ & Hgo & Hok). rewrite Hr in Hok.
  destruct Hok as [Hp Ha]. destruct (call_waits s j c HG Hall Hj Hp) as [?|[Hret|(Hgn & Had & Hl)]]; [by left| |].
  - left. by eapply by_deliver.
  - right. split; [congruence|]. split; [|done].
    assert (i < k)%nat as Hik by (apply (serveinv.v_gors _ _ _ _ _ _ _ HI); by exists g).
    destruct (decide (S i < k)%nat) as [Hlt|Hge]; [|lia].
    destruct (serveinv.v_adm _ _ _ _ _ _ _ HI i g Hg) as [_ Hadm]. rewrite Ha in Had; [done|]. by apply Hadm; left.
Qed.

(** A stream that is not over moves, or waits for the budget with nothing in
    its hands. *)
Lemma stream_moves s r q :
  good s -> all_parked (fetches s) -> runs s !! r = Some q -> over q = false ->
  can_move s \/
  (fl.leads (fetches s) <> ∅ /\ forall i cr, serve.results (sr q) !! i = Some cr -> i ∈ serve.closed (sr q)).
Proof.
  intros HG Hpk Hq Hov. destruct (s_serve _ _ _ (proj1 HG) r q Hq) as (k & m & HI).
  destruct (decide (map_Forall (fun _ g => serve.running g = false) (serve.gors (sr q)))) as [Hall|Hrun].
  { left. destruct (servelive.some_step C wk (sr_st q) (fl.hp (fetches s)) (sr_ok q) k m (sr q) HI) as [[x Hx]|(e & sv & Ho & He)].
    { unfold over in Hov. by rewrite Hx in Hov. }
    apply (by_serve s r q e sv HG Hq Ho); [|done]. destruct e; try done; cbn in He.
    - unfold serve.admit_chunk in He. destruct (serve.gors (sr q) !! i) as [g|] eqn:Hg; [|done].
      simpl in He. by rewrite (Hall i g Hg) in He.
    - unfold serve.deliver in He. destruct (serve.gors (sr q) !! i) as [g|] eqn:Hg; [|done].
      simpl in He. by rewrite (Hall i g Hg) in He. }
  apply map_not_Forall in Hrun as (i & g & Hg & Hr); [|apply _]. apply not_false_is_true in Hr.
  destruct (running_waits s r q k m i g HG Hpk Hq HI Hg Hr) as [?|(Hgone & -> & Hl)]; [by left|].
  (* only goroutine [i] runs, or a step is enabled *)
  assert (can_move s \/ forall i' g', serve.gors (sr q) !! i' = Some g' -> i' <> i -> serve.running g' = false) as [?|Honly].
  { destruct (decide (map_Forall (fun i' g' => i' = i \/ serve.running g' = false) (serve.gors (sr q)))) as [Hx|Hx].
    - right. intros i' g' Hg' Hne. by destruct (Hx i' g' Hg').
    - left. apply map_not_Forall in Hx as (i' & g' & Hg' & Hx); [|intros ? ?; apply _].
      destruct (serve.running g') eqn:Hr'; [|destruct Hx; by right].
      destruct (running_waits s r q (S i) m i' g' HG Hpk Hq HI Hg' Hr') as [?|(_ & Hk & _)]; [done|].
      destruct Hx. left. lia. }
  { by left. }
  destruct (servelive.lone_fetch C wk (sr_st q) (fl.hp (fetches s)) (sr_ok q) m (sr q) i g HI Hg Hr Honly Hgone)
    as [(e & sv & He & Hsv)|Hcl].
  - intros x Hx. unfold over in Hov. by rewrite Hx in Hov.
  - left. by apply (by_serve s r q e sv HG Hq); [destruct He as [->| ->]..|].
  - by right.
Qed.

(** A stream that is over has closed all its calls. *)
Lemma over_closed s r q i j c :
  SInv C wk s -> runs s !! r = Some q -> over q = true -> calls q !! i = Some j ->
  fl.callers (fetches s) !! j = Some c -> fl.c_pc c = fl.CClosed.
Proof.
  intros HS Hq Hov Hi Hj. destruct (s_serve _ _ _ HS r q Hq) as (k & m & HI).
  unfold over in Hov. destruct (serve.cons (sr q)) as [| | | |x] eqn:Hc; try done.
  destruct (serveinv.v_end _ _ _ _ _ _ _ HI x Hc) as (Hp & _ & Hall & _).
  destruct (s_linked _ _ _ HS r q Hq) as [Hd Hl]. destruct (proj1 (Hd i) (ex_intro _ j Hi)) as [g Hg].
  destruct (Hl i j g Hi Hg) as (c' & Hj' & _ & _ & _ & _ & Hok). assert (c' = c) as -> by congruence.
  rewrite (Hall i g Hg) in Hok. destruct Hok as (cr & Hr & Hok). destruct (err cr) eqn:He; [done|].
  destruct (serveinv.v_kept _ _ _ _ _ _ _ HI i cr Hr) as [Hx|[Hx|[Hx|[_ Hx]]]].
  - by rewrite decide_True in Hok.
  - rewrite Hp, lookup_empty in Hx. by destruct Hx.
  - by rewrite Hc in Hx.
  - done.
Qed.

Lemma by_close s j : good s -> owned s j = false -> returned (fetches s) j -> can_move s.
Proof.
  intros (_ & HF & Hsm) Ho (c & cr & Hj & Hp). apply (by_fetch s (fl.EClose j)); [simpl; by rewrite Ho|done|].
  by eapply fllive.close_moves.
Qed.

(** Whoever holds a result moves on, or closes it. *)
Lemma returned_moves s j :
  good s -> all_parked (fetches s) -> returned (fetches s) j -> can_move s.
Proof.
  intros HG Hall Hret. pose proof HG as (HS & HF & Hsm). destruct (owned s j) eqn:Hown; [|by apply (by_close s j)].
  apply owned_spec in Hown as (r & q & i & Hq & Hi). pose proof Hret as (c & cr & Hj & Hp).
  destruct (s_linked _ _ _ HS r q Hq) as [Hd Hl]. destruct (proj1 (Hd i) (ex_intro _ j Hi)) as [g Hg].
  destruct (serve.running g) eqn:Hr; [by eapply by_deliver|].
  destruct (Hl i j g Hi Hg) as (c' & Hj' & _ & _ & _ & _ & Hok). assert (c' = c) as -> by congruence.
  rewrite Hr in Hok. destruct Hok as (cr' & Hcr & Hok).
  destruct (over q) eqn:Hov; [by rewrite (over_closed s r q i j c HS Hq Hov Hi Hj) in Hp|].
  destruct (stream_moves s r q HG Hall Hq Hov) as [?|[_ Hcl]]; [done|]. specialize (Hcl i cr' Hcr).
  destruct (err cr'); [|rewrite decide_True in Hok by done]; congruence.
Qed.

(** Every lead waits for a unit that is out: whoever has it moves. *)
Lemma parked_moves s :
  good s -> all_parked (fetches s) -> fl.leads (fetches s) <> ∅ -> can_move s.
Proof.
  intros HG Hall Hne. pose proof HG as (HS & HF & Hsm).
  destruct (fllive.all_parked C U _ HF Hall Hne) as (n & j & c & Hl & Hj & Ho).
  assert (match fl.c_pc c with fl.CReturned _ | fl.CClosed => False | _ => True end -> can_move s) as Hopen.
  { intros Hp. destruct (fllive.open_moves C U _ j c HF Hsm Hj Hp) as [(m & l & Hk & _ & Hm & _)|?]; [|by apply by_call].
    unfold flinv.owes in Ho. rewrite Hk in Ho. simpl in Ho. case_decide; [congruence|].
    destruct (fl.c_pc c); done. }
  destruct (fl.c_pc c) as [| | | |cr|] eqn:Hp; try by apply Hopen.
  - apply (returned_moves s j HG Hall). by exists c, cr.
  - apply by_call, (fllive.claim_moves C U _ j c HF Hsm Hj); [by rewrite Hp|].
    unfold flinv.owes in Ho. rewrite Hp in Ho. simpl in Ho. destruct (fl.c_claim c); simpl in Ho; try done.
    case_decide; [by subst|lia].
Qed.

Lemma service_progress s : good s -> ~ finished s -> can_move s.
Proof.
  intros HG Hnf. pose proof HG as (HS & HF & Hsm).
  destruct (decide (all_parked (fetches s))) as [Hall|Hall].
  2: { apply map_not_Forall in Hall as (i & l & Hl & Hp); [|apply _].
       destruct (fllive.lead_moves C U _ i l HF Hl) as [Hq%fllive.parked_spec|?]; [done|by apply by_lead]. }
  destruct (decide (fl.leads (fetches s) = ∅)) as [He|Hne]; [|by apply parked_moves].
  destruct (decide (map_Forall (fun _ q => over q = true) (runs s))) as [Hov|Hov].
  2: { apply map_not_Forall in Hov as (r & q & Hq & Hx); [|intros ? ?; apply _]. apply not_true_is_false in Hx.
       by destruct (stream_moves s r q HG Hall Hq Hx) as [?|[? _]]. }
  destruct (decide (map_Forall (fun _ c => flprops.finished c = true) (fl.callers (fetches s)))) as [Hf|Hf].
  { destruct Hnf. split; [|done]. split; [by rewrite He|done]. }
  apply map_not_Forall in Hf as (j & c & Hj & Hf); [|intros ? ?; apply _].
  assert (fl.c_pc c = fl.CClosed \/ fl.c_pc c <> fl.CClosed) as [Hp|Hp] by (destruct (fl.c_pc c); auto).
  - apply by_call, (fllive.claim_moves C U _ j c HF Hsm Hj); [by rewrite Hp|].
    unfold flprops.finished in Hf. rewrite Hp in Hf. destruct (fl.c_claim c); try done. by rewrite He, lookup_empty.
  - destruct (call_waits s j c HG Hall Hj Hp) as [?|[Hret|(_ & _ & ?)]]; [done|by eapply returned_moves|done].
Qed.

(** ** A measure *)

(** Every step of the service's own, queue timeouts included. *)
Definition ours (e : event) : Prop :=
  match e with Fetch e => fllive.internal e | _ => forward e end.

(** A started chunk adds a call, which has at most 40 steps to go. *)
Definition run_rank (q : stream_run) : Z := 41 * servelive.rank C (sr_st q) (sr q).
Definition rank (s : state) : Z := fllive.rank (fetches s) + msum run_rank (runs s).

(** The chunks a stream has yet to start; each may number a call and a lead. *)
Definition to_start (q : stream_run) : Z :=
  match serve.disp (sr q) with
  | serve.DSelect i | serve.DCheck i => Z.of_nat (serve.total_chunks C (sr_st q)) - Z.of_nat i
  | serve.DWait i => Z.of_nat (serve.total_chunks C (sr_st q)) - Z.of_nat i - 1
  | serve.DDone => 0
  end.
Definition ids (s : state) : Z := fllive.ids (fetches s) + 2 * msum to_start (runs s).
Definition room (s : state) : Prop := 2 * ids s + 2 <= int32_max.

Lemma to_start_nonneg s r q : SInv C wk s -> runs s !! r = Some q -> 0 <= to_start q.
Proof.
  intros HS Hq. destruct (s_serve _ _ _ HS r q Hq) as (k & m & HI).
  pose proof (serveinv.v_disp _ _ _ _ _ _ _ HI) as Hd. destruct (serveinv.v_bound _ _ _ _ _ _ _ HI) as [Hk _].
  unfold to_start. destruct (serve.disp (sr q)); simpl in Hd; lia.
Qed.

Lemma service_small s : SInv C wk s -> room s -> flinv.small (fetches s).
Proof.
  unfold room, flinv.small, ids, fllive.ids. intros HS.
  assert (0 <= msum fllive.pending (fl.callers (fetches s))).
  { apply msum_nonneg. intros i c _. unfold fllive.pending. destruct (fl.c_pc c); lia. }
  assert (0 <= msum to_start (runs s)); [|lia]. apply msum_nonneg. intros r q Hq. by eapply to_start_nonneg.
Qed.

Lemma service_rank_nonneg s : SInv C wk s -> 0 <= rank s.
Proof.
  intros HS. pose proof (fllive.rank_nonneg (fetches s)). assert (0 <= msum run_rank (runs s)); [|unfold rank; lia].
  apply msum_nonneg. intros r q Hq. destruct (s_serve _ _ _ HS r q Hq) as (k & m & HI).
  pose proof (servelive.serve_rank_nonneg _ _ _ _ _ _ _ HI). unfold run_rank. lia.
Qed.

(** A step of a stream starts at most the chunk it stands at. *)
Lemma to_start_step h st ok calls calls' sv e sv' k m :
  serveinv.Inv C wk st ok k m sv ->
  exec (Machine:=serve.serve_machine C wk st h ok) sv e = Some sv' ->
  let q := {| sr_st := st; sr_ok := ok; sr := sv; calls := calls |} in
  let q' := {| sr_st := st; sr_ok := ok; sr := sv'; calls := calls' |} in
  to_start q' + (match call_by C q e sv' with [] => 0 | _ => 1 end) <= to_start q.
Proof.
  intros HI He. cbn zeta. unfold to_start, call_by. simpl.
  pose proof (serveinv.v_disp _ _ _ _ _ _ _ HI) as Hd. destruct (serveinv.v_bound _ _ _ _ _ _ _ HI) as [Hk _].
  destruct e; cbn in He.
  - injection He as <-. simpl. lia.
  - injection He as <-. simpl. lia.
  - unfold serve.take_slot in He. destruct (serve.disp sv); inv_bind; subst; simpl; lia.
  - unfold serve.stop in He. destruct (serve.disp sv); simpl in Hd; inv_bind; subst; simpl; lia.
  - unfold serve.loop_end in He. destruct (serve.disp sv); simpl in Hd; inv_bind; subst; simpl; lia.
  - unfold serve.spawn in He. destruct (serve.disp sv) eqn:Hdd; simpl in Hd; try done.
    destruct (serve.gone sv); injection He as <-; simpl; rewrite ?Hdd; simpl; lia.
  - unfold serve.admit_chunk in He. inv_bind; subst; simpl; lia.
  - unfold serve.see_admitted in He. destruct (serve.disp sv); simpl in Hd; inv_bind; subst; simpl; lia.
  - unfold serve.deliver in He. inv_bind; subst; simpl; lia.
  - unfold serve.recv in He. destruct (serve.cons sv); try done. inv_bind.
    destruct (err _); injection He as <-; simpl; lia.
  - unfold serve.recv_gone in He. destruct (serve.cons sv); try done. inv_bind; subst; simpl; lia.
  - unfold serve.write in He. destruct (serve.cons sv); try done.
    destruct (guard.write_and_flush _ _ _ _ _) as [w' [e|]]; [injection He as <-; simpl; lia|].
    simpl in He. destruct (0 <? serve.slots sv); [|done]. injection He as <-. simpl. lia.
  - unfold serve.join in He. destruct (serve.no_goroutine sv); [|done]. destruct (serve.cons sv); try done;
      [destruct (serve.abort_response _ _)|]; injection He as <-; simpl; lia.
Qed.

(** Closing and cancelling calls raises nothing. *)
Lemma calm_run f es f' :
  flinv.Inv C U f -> flinv.small f ->
  Forall calm es ->
  run f es = Some f' -> fllive.rank f' <= fllive.rank f /\ fllive.ids f' <= fllive.ids f.
Proof.
  revert f. induction es as [|e es IH]; intros f HI Hsm He; simpl; [intros [= <-]; lia|].
  apply Forall_cons in He as [He Hes]. destruct (exec f e) as [f1|] eqn:Hx; simpl; [|done]. intros Hr.
  assert (fllive.rank f1 <= fllive.rank f /\ fllive.ids f1 <= fllive.ids f /\ fl.next f1 = fl.next f) as (H1 & H2 & H3).
  { destruct e; try done.
    - cbn in Hx. unfold fl.cancel in Hx. destruct (fl.callers f !! i) as [c|] eqn:Hc; [|done]. injection Hx as <-.
      unfold fllive.rank, fllive.ids. simpl. rewrite !(msum_insert_old _ _ _ _ _ Hc). unfold fllive.caller_rank, fllive.pending.
      simpl. lia.
    - destruct (fllive.internal_step C U f (fl.EClose i) f1 HI I Hx). split; [lia|]. split; [done|].
      cbn in Hx. unfold fl.close_result in Hx. fllive.step_cases Hx; done. }
  destruct (IH f1); [by eapply flinv.Inv_step|unfold flinv.small in *; lia|done|done|lia].
Qed.

Lemma effects_rank s r q e sv k m f' :
  good s -> runs s !! r = Some q -> serveinv.Inv C wk (sr_st q) (sr_ok q) k m (sr q) ->
  exec (Machine:=serve.serve_machine C wk (sr_st q) (fl.hp (fetches s)) (sr_ok q)) (sr q) e = Some sv ->
  run (fetches s) (effects C q e sv) = Some f' ->
  let n := match call_by C q e sv with [] => 0 | _ => 1 end in
  fllive.rank f' <= fllive.rank (fetches s) + 40 * n /\ fllive.ids f' <= fllive.ids (fetches s) + 2 * n.
Proof.
  intros (HS & HF & Hsm) Hq HI He Hf. unfold effects in Hf.
  destruct (call_by C q e sv) as [|e1 es1] eqn:Hcb; simpl.
  - destruct (calm_run (fetches s) ((fl.EClose <$> closed_by C q e) ++ cancelled_by q sv) f' HF Hsm); [|done|lia].
    apply Forall_app. split; [by apply Forall_fmap, Forall_true|]. unfold cancelled_by.
    destruct (serve.gone (sr q)), (serve.gone sv); try done. by apply Forall_fmap, Forall_true.
  - unfold call_by in Hcb. destruct e; try done. destruct (serve.disp sv) as [| |i|] eqn:Hd; try done.
    destruct (chunkSpan _ _ _) as [a b]. injection Hcb as <- <-.
    cbn in He. unfold serve.spawn in He. destruct (serve.disp (sr q)) as [|i'| |] eqn:Hd'; try done.
    destruct (serve.gone (sr q)) as [x|] eqn:Hg; [injection He as <-; done|]. injection He as <-.
    unfold closed_by, cancelled_by in Hf. cbn [serve.set_disp serve.set_gor serve.gone] in Hf. rewrite Hg in Hf.
    cbn in Hf. unfold fl.fetch in Hf. destruct (_ && _); [|done]. injection Hf as <-.
    destruct (flinv.i_ids _ _ _ HF (fl.next (fetches s)) (le_n _)) as (_ & Hnew & _).
    unfold fllive.rank, fllive.ids. simpl. rewrite !(msum_insert_new _ _ _ _ Hnew).
    unfold fllive.caller_rank, fllive.pending, fllive.claim_rank. simpl. lia.
Qed.

Lemma set_run_rank s r q q' f :
  runs s !! r = Some q ->
  rank (set_run r q' f s) = fllive.rank f + msum run_rank (runs s) - run_rank q + run_rank q' /\
  ids (set_run r q' f s) = fllive.ids f + 2 * (msum to_start (runs s) - to_start q + to_start q').
Proof. intros Hq. unfold rank, ids. simpl. rewrite !(msum_insert_old _ _ _ _ _ Hq). lia. Qed.

Lemma ours_rank s e s' :
  good s -> ours e -> exec s e = Some s' -> rank s' < rank s /\ ids s' <= ids s.
Proof.
  intros HG Ho He. pose proof HG as (HS & HF & Hsm). destruct e as [e|r st ok x|r e|r i now]; [|done| |].
  - cbn in He. destruct (free s e); [|done]. destruct (exec (fetches s) e) as [f|] eqn:Hf; [|done]. injection He as <-.
    destruct (fllive.internal_step C U (fetches s) e f HF Ho Hf). unfold rank, ids. simpl. lia.
  - cbn in He, Ho. apply serve_step_cases in He as (q & sv & f' & Hq & Hper & Hx & Hf & Hs').
    destruct (s_serve _ _ _ HS r q Hq) as (k & m & HI).
    destruct (effects_rank s r q e sv k m f' HG Hq HI Hx Hf) as [Hr Hi].
    pose proof (servelive.rank_step _ _ _ _ _ k m (sr q) e sv HI Ho Hx) as Hdown.
    assert (exists cs', s' = set_run r {| sr_st := sr_st q; sr_ok := sr_ok q; sr := sv; calls := cs' |} f' s) as [cs' ->].
    { destruct Hs' as [[_ ->]|(i & a & b & _ & _ & _ & _ & _ & _ & ->)]; eauto. }
    pose proof (to_start_step _ (sr_st q) (sr_ok q) (calls q) cs' (sr q) e sv k m HI Hx) as Hts.
    destruct q as [st ok sv0 cs0]; simpl in *.
    destruct (set_run_rank s r _ {| sr_st := st; sr_ok := ok; sr := sv; calls := cs' |} f' Hq) as [-> ->].
    unfold rank, ids. unfold run_rank in *. simpl in *. destruct (call_by C _ e sv); lia.
  - cbn in He. unfold deliver_step in He. destruct (runs s !! r) as [q|] eqn:Hq; [|done]. simpl in He.
    destruct (calls q !! i) as [j|]; [|done]. simpl in He.
    destruct (fl.callers (fetches s) !! j) as [c|]; [|done]. simpl in He. destruct (fl.c_pc c) as [| | | |cr|]; try done.
    destruct (exec (sr q) _) as [sv|] eqn:Hx; [|done]. simpl in He.
    destruct (run (fetches s) _) as [f'|] eqn:Hf; [|done]. injection He as <-.
    destruct (s_serve _ _ _ HS r q Hq) as (k & m & HI).
    pose proof (servelive.rank_step _ _ _ _ _ k m (sr q) (serve.EDeliver i (result_of cr) now) sv HI eq_refl Hx) as Hdown.
    pose proof (to_start_step _ (sr_st q) (sr_ok q) (calls q) (calls q) (sr q) _ sv k m HI Hx) as Hts.
    destruct (fun Hes => calm_run _ _ _ HF Hsm Hes Hf) as [Hr Hi]; [by destruct (err cr); repeat constructor|].
    destruct q as [st ok sv0 cs0]; simpl in *.
    destruct (set_run_rank s r _ {| sr_st := st; sr_ok := ok; sr := sv; calls := cs0 |} f' Hq) as [-> ->].
    unfold rank, ids. unfold run_rank in *. simpl in *. lia.
Qed.

Lemma ours_down s e s' :
  good s /\ room s -> ours e -> exec s e = Some s' ->
  (good s' /\ room s') /\ (Z.to_nat (rank s') < Z.to_nat (rank s))%nat.
Proof.
  intros [HG Hroom] Ho He. destruct (ours_rank s e s' HG Ho He) as [Hr Hi]. destruct HG as (HS & HF & Hsm).
  assert (SInv C wk s') as HS' by (eapply service_step; [done|exact He|by destruct e]).
  assert (room s') as Hroom' by (unfold room in *; lia).
  pose proof (service_small s' HS' Hroom') as Hsm'. destruct (service_fetches C wk timeout s e s' He) as [fes Hf].
  pose proof (service_rank_nonneg s' HS'). split; [|lia]. split; [|done]. split; [done|]. split; [|done].
  by eapply fetches_Inv.
Qed.

Lemma reachable_good d s : reachable C wk timeout U d s -> good s.
Proof.
  intros Hr. split; [by eapply reachable_SInv|]. split; [by eapply flprops.reachable_Inv, reachable_fetches|].
  by destruct Hr as (_ & _ & _ & ? & _).
Qed.

#[global] Instance finished_dec s : Decision (finished s).
Proof.
  unfold finished, flprops.quiescent. apply and_dec; [apply and_dec; [apply _|]|];
    apply map_Forall_dec; intros; apply _.
Defined.

End live.

(** The service does not deadlock. However many streams share the budget,
    whoever is parked on it, whatever the readahead and the evictor do and
    whatever has failed, some stream, call, lead or claim can move, without a
    client's help and without a queue timeout, until every fetch is over and
    every request answered. A stream keeps the units of the chunks it has not
    written, and this holds because it starts no chunk before the one ahead
    of it has its unit. *)
Theorem service_no_deadlock C wk timeout cap d s :
  reachable C wk timeout cap d s -> ~ finished s ->
  exists e, forward e /\ is_Some (exec (Machine:=service_machine C wk timeout) s e).
Proof. intros Hr. by eapply service_progress, reachable_good. Qed.

(** The service finishes: once no request arrives any more, every schedule
    of what is left, queue timeouts included, is at most [rank s] steps long
    and ends with everything finished; a schedule without any timeout does
    too; and what is left then is no handle, no unit, no byte, no flight. *)
Theorem service_terminates C wk timeout cap d s :
  reachable C wk timeout cap d s -> room C s ->
  (forall es s', Forall ours es -> run (H:=service_machine C wk timeout) s es = Some s' ->
     Z.of_nat (length es) <= rank C s /\ (finished s' \/ can_move C wk timeout s')) /\
  (exists es s', Forall forward es /\ run (H:=service_machine C wk timeout) s es = Some s' /\
     finished s' /\ flprops.clean (fetches s')).
Proof.
  intros Hr Hroom. pose proof (reachable_good C wk timeout cap d s Hr) as HG.
  assert (forall e, forward e -> ours e) as Hfo by (intros [[]| | |]; done).
  pose proof (service_rank_nonneg C wk s (proj1 HG)). split.
  - intros es s' Hes Hrun.
    destruct (@run_bounded _ _ (service_machine C wk timeout) (fun s => good C wk cap s /\ room C s) ours
      (fun s => Z.to_nat (rank C s)) s es s') as [[HG' Hr'] Hlen]; [|done..|].
    { intros. by eapply ours_down. }
    split; [lia|]. destruct (decide (finished s')) as [?|Hnf]; [by left|right]. by eapply service_progress.
  - destruct (@run_reaches _ _ (service_machine C wk timeout) (fun s => good C wk cap s /\ room C s) forward
      (fun s => Z.to_nat (rank C s)) finished s) as (es & s' & Hes & Hrun & Hfin); [apply _| | |done|].
    + intros s1 e s2 H1 He Hx. eapply ours_down; [done|by apply Hfo|done].
    + intros s1 [H1 _] Hnf. destruct (service_progress C wk timeout cap s1 H1 Hnf) as (e & He & s2 & Hx). by exists e, s2.
    + exists es, s'. do 3 (split; [done|]).
      destruct (@run_bounded _ _ (service_machine C wk timeout) (fun s => good C wk cap s /\ room C s) ours
        (fun s => Z.to_nat (rank C s)) s es s') as [[(_ & HF & _) _] _]; [|done| |done|].
      * intros. by eapply ours_down.
      * by eapply Forall_impl.
      * eapply flprops.quiescent_clean; [exact HF|apply Hfin].
Qed.

(** In the state with a parked lead and two streams. *)
Lemma waiting_reachable :
  reachable 4 8 45 1 ∅ (service_examples.after service_examples.waiting).
Proof.
  split; [lia|]. split; [lia|]. split; [vm_compute; discriminate|]. split; [vm_compute; discriminate|].
  exists service_examples.waiting. split; [|vm_compute; reflexivity].
  repeat constructor; vm_compute; try done.
Qed.

Lemma service_no_deadlock_witness :
  exists e, forward e /\
    is_Some (exec (Machine:=service_machine 4 8 45) (service_examples.after service_examples.waiting) e).
Proof.
  refine (service_no_deadlock 4 8 45 1 ∅ _ waiting_reachable _).
  intros [[Hl _] _]. vm_compute in Hl. discriminate Hl.
Defined.

Lemma service_terminates_witness :
  exists es s', Forall forward es /\
    run (H:=service_machine 4 8 45) (service_examples.after service_examples.waiting) es = Some s' /\
    finished s' /\ flprops.clean (fetches s').
Proof.
  refine (proj2 (service_terminates 4 8 45 1 ∅ _ waiting_reachable _)).
  vm_compute. discriminate.
Defined.
End servicelive.
