(* ===== verification/ServiceOut.v ===== *)
(** * The service: what the clients receive

    The chunks a stream writes are those its fetches, shared or not, come
    from the cache or from an upstream that honours conditional range
    requests; so each response is the bytes its client asked for, a prefix of
    them or an error page, whatever the other clients do. *)
From S2P Require Import Prelude GoStd GoTime Http Request HeadCache Budget Singleflight Chunk DiskCache Flights FlightsInv FlightsProps FlightsLive FlightsData WriteGuard Fetcher Serve ServeInv ServeOut ServeLive Service ServiceInv.

Module serviceout.
Import chunk fetcher service serviceinv.

Section world.
Context (C wk timeout U : Z) (object : string -> string -> bytes) (legacy_ok : string -> string -> Prop).
#[local] Instance fl_this : Machine fl.state fl.event := fl.flights_machine C.
#[local] Instance this : Machine state event := service_machine C wk timeout.

Definition object_of (st : stream) : bytes := object (st_key st) (etag (st_v st)).

(** The environment's part: the upstream and the disk as for the fetches, and
    requests resolved against the version the HEAD named. *)
Definition asks (st : stream) : Prop :=
  stream_ok C st /\ fldata.etag_ok (st_v st) /\ Z.of_nat (length (object_of st)) = st_total st.
Definition honest (s : state) (e : event) : Prop :=
  match e with
  | Fetch e => fldata.honest C object legacy_ok (fetches s) e
  | Begin _ st _ x => asks st /\ http.pristine x
  | _ => True
  end.

Record WInv (s : state) : Prop := {
  w_inv : SInv C wk s;
  w_fetches : flinv.Inv C U (fetches s);
  w_data : fldata.dinv C object legacy_ok (fetches s);
  w_asks : forall r q, runs s !! r = Some q -> asks (sr_st q);
}.

(** The fetches see an honest environment. *)
Lemma honest_fetches s e s' :
  WInv s -> honest s e -> exec s e = Some s' ->
  exists fes, fldata.honest_run C object legacy_ok (fetches s) fes /\ run (fetches s) fes = Some (fetches s').
Proof.
  intros [HS HF HD HA] Hh He.
  assert (forall f es, Forall calm es -> fldata.honest_run C object legacy_ok f es) as Hcalm.
  { intros f es. apply along_all. by intros ? []. }
  destruct e as [e|r st ok x|r e|r i now]; cbn in He.
  - destruct (free s e); [|done]. destruct (exec (fetches s) e) as [f|] eqn:Hf; [|done]. injection He as <-.
    exists [e]. split.
    + split; [done|]. by destruct (exec (fetches s) e).
    + unfold exec, fl_this in *. simpl. unfold exec. by rewrite Hf.
  - destruct (runs s !! r); [done|]. injection He as <-. by exists [].
  - apply serve_step_cases in He as (q & sv & f' & Hq & _ & _ & Hf & [[Hcb ->]|(i & a & b & _ & Hd & _ & _ & Hab & Hfe & ->)]).
    + exists (effects C q e sv). split; [|done]. by apply Hcalm, calm_effects.
    + destruct (HA r q Hq) as (Hok & Het & Hlen). destruct (s_serve _ _ _ HS r q Hq) as (k & m & HI).
      pose proof (serveinv.v_disp _ _ _ _ _ _ _ HI) as Hi. rewrite Hd in Hi. destruct Hi as [_ Hi].
      unfold serve.total_chunks in Hi. destruct (chunkSpan_eq C (sr_st q) (Z.of_nat i) Hok ltac:(lia)) as [Heq _].
      rewrite Heq in Hab. injection Hab as <- <-.
      exists [fl.EFetch (st_key (sr_st q)) (st_v (sr_st q)) ((st_start (sr_st q) / C + Z.of_nat i) * C)
        (Z.min ((st_start (sr_st q) / C + Z.of_nat i) * C + C - 1) (st_total (sr_st q) - 1))].
      split; [|simpl; unfold exec, fl_this, fl.flights_machine; by rewrite Hfe].
      simpl. split; [|unfold exec, fl.flights_machine; by rewrite Hfe].
      split; [done|]. unfold fldata.chunk_end. fold (object_of (sr_st q)). by rewrite Hlen.
  - unfold deliver_step in He. destruct (runs s !! r) as [q|]; [|done]. simpl in He.
    destruct (calls q !! i) as [j|]; [|done]. simpl in He.
    destruct (fl.callers (fetches s) !! j) as [c|]; [|done]. simpl in He. destruct (fl.c_pc c); try done.
    destruct (exec (sr q) _); [|done]. simpl in He. destruct (run (fetches s) _) as [f'|] eqn:Hf; [|done].
    injection He as <-. eexists. split; [|exact Hf]. apply Hcalm. by destruct (err cr); repeat constructor.
Qed.

Lemma WInv_step s e s' :
  WInv s -> honest s e -> flinv.small (fetches s') -> exec s e = Some s' -> WInv s'.
Proof.
  intros HW Hh Hsm He. destruct (honest_fetches s e s' HW Hh He) as (fes & Hhf & Hf). destruct HW as [HS HF HD HA].
  destruct (fldata.honest_run_dinv C object legacy_ok U fes _ _ HF HD Hhf Hf Hsm) as [HF' HD'].
  split; [|done|done|].
  - eapply service_step; [done|exact He|]. destruct e; try done. apply Hh.
  - destruct (step_runs C wk timeout s e s' He) as [->|[(r & st & ok & x & -> & _ & ->)|(r & q & q' & e' & Hq & -> & Hst & _)]];
      [done| |].
    + intros r' q' [[<- <-]|[_ Hq']]%lookup_insert_Some; [apply Hh|by eapply HA].
    + intros r' q1 [[<- <-]|[_ Hq']]%lookup_insert_Some; [rewrite Hst|]; by eapply HA.
Qed.

(** The chunk in a consumer's hand holds its part of the object. *)
Lemma hand_in_place s r q k m i cr :
  WInv s -> runs s !! r = Some q -> serveinv.Inv C wk (sr_st q) (sr_ok q) k m (sr q) ->
  serve.cons (sr q) = serve.CWrite i cr ->
  serveout.in_place C (sr_st q) (fl.hp (fetches s)) (object_of (sr_st q)) i cr.
Proof.
  intros [HS HF HD HA] Hq HI Hc. destruct (serveinv.v_hand _ _ _ _ _ _ _ HI i cr Hc) as (Hr & He & Hcl).
  destruct (held_result C wk s r q k m i cr HS Hq HI Hr He Hcl) as (j & c & cr0 & _ & Hj & (Hk & Hv & Hs) & Hp & He0 & ->).
  destruct (fldata.returned_bytes C object legacy_ok U _ j c cr0 HF HD Hj Hp He0) as [Hst Hh].
  destruct (fldata.d_callers _ _ _ _ HD j c Hj) as (_ & Hend & _).
  split; [|done]. apply serveout.delivered_honest. right. rewrite <- Hs. cbn [fst snd].
  unfold fldata.chunk_of in Hh. rewrite <- Hend in Hh. by rewrite Hk, Hv in Hh.
Qed.

(** Stream [r], begun with the response [x], and its client. *)
Definition served (r : nat) (st : stream) (ok : bool) (x : http.ResponseWriter) (s : state) : Prop :=
  exists q, runs s !! r = Some q /\ sr_st q = st /\ sr_ok q = ok /\ serveout.out_ok C st x (object_of st) (sr q).

Lemma served_step r st ok x s e s' :
  http.pristine x -> WInv s -> served r st ok x s -> exec s e = Some s' -> served r st ok x s'.
Proof.
  intros Hx HW (q & Hq & <- & <- & Ho) He.
  destruct (step_runs C wk timeout s e s' He) as [Hr|[(r' & st' & ok' & x' & _ & Hnone & Hr)|(r' & q0 & q' & e' & Hq0 & Hr & Hst & Hok & Hx')]].
  - exists q. by rewrite Hr.
  - exists q. rewrite Hr, lookup_insert_ne by congruence. done.
  - destruct (decide (r' = r)) as [->|Hne]; [|exists q; by rewrite Hr, lookup_insert_ne].
    assert (q0 = q) as -> by congruence. exists q'. rewrite Hr, lookup_insert_eq. do 3 (split; [done|]).
    destruct (s_serve _ _ _ (w_inv s HW) r q Hq) as (k & m & HI). destruct (w_asks s HW r q Hq) as (Hs & _ & Hlen).
    eapply (serveout.out_step C wk (sr_st q) (fl.hp (fetches s)) (sr_ok q) x); [done..| |exact Hx'].
    intros _ i cr Hc. by eapply hand_in_place.
Qed.

Lemma small_before s e s' :
  exec s e = Some s' -> flinv.small (fetches s') -> flinv.small (fetches s).
Proof.
  intros He%service_next_mono Hs. unfold flinv.small in *. lia.
Qed.

Lemma init_WInv d :
  1 <= U -> U * C <= int64_max -> fldata.disk_data C object legacy_ok d -> WInv (init U d).
Proof.
  intros H1 H2 Hd. split; [apply init_SInv|by apply flinv.init_inv|by apply fldata.init_dinv|].
  intros r q Hq. unfold init in Hq. simpl in Hq. by rewrite lookup_empty in Hq.
Qed.

Lemma begin_served r st ok x s s' : http.pristine x -> exec s (Begin r st ok x) = Some s' -> served r st ok x s'.
Proof.
  intros Hx He. cbn in He. destruct (runs s !! r); [done|]. injection He as <-.
  eexists. split; [apply lookup_insert_eq|]. done.
Qed.

Lemma run_served r st ok x s es s' :
  http.pristine x -> WInv s -> served r st ok x s -> along honest s es -> run s es = Some s' ->
  flinv.small (fetches s') -> WInv s' /\ served r st ok x s'.
Proof.
  intros Hx HW Hs Ha Hr Hsm.
  apply (along_invariant honest (fun s => WInv s /\ served r st ok x s) (fun s => flinv.small (fetches s)) s es);
    [apply small_before| |done..].
  intros s1 e s2 [H1 H2] He Hsm2 Hx2. split; [by eapply WInv_step|by eapply served_step].
Qed.

(** [honest] as a check, for runs whose upstream never errs. *)
Definition asksb (st : stream) : bool :=
  (0 <? C) && (0 <=? st_start st) && (st_start st <=? st_end st) && (st_end st <? st_total st) &&
  (st_total st + C <=? int64_max) && negb (bool_decide (etag (st_v st) = "")) &&
  negb (strings.has_byte "/"%char (etag (st_v st))) && (Z.of_nat (length (object_of st)) =? st_total st).
Definition honestb (s : state) (e : event) : bool :=
  match e with
  | Fetch e => fldata.honestb C object (fetches s) e
  | Begin _ st _ x => asksb st && match http.w_sent x, http.w_body x with None, [] => true | _, _ => false end
  | _ => true
  end.

Lemma service_honestb s e : honestb s e = true -> honest s e.
Proof.
  destruct e as [e|r st ok x| |]; simpl; try done; [apply fldata.honestb_sound|].
  unfold asksb. rewrite !andb_true_iff, !negb_true_iff, bool_decide_eq_false, !Z.ltb_lt, !Z.leb_le, Z.eqb_eq.
  intros [[[[[[[[? ?] ?] ?] ?] ?] ?] ?] Hx].
  split; [|unfold http.pristine; by destruct (http.w_sent x), (http.w_body x)].
  split; [unfold stream_ok; lia|]. by split.
Qed.
End world.

(** C8: every client gets the bytes it asked for, whatever the others do. For
    every interleaving of any number of requests, of the readahead, the
    evictor, failing connections, contexts that end, timeouts and upstream
    errors: if the upstream honours [If-Match] and [Range] and the cached
    files are chunks of the versions they are named after, the response to a
    request, begun at any point of the run, is once complete exactly the
    requested bytes of the version of the object it was resolved against,
    with the headers that announce them; it is a prefix of them while it
    streams or when it is aborted, or an error page. *)
Theorem service_output C wk timeout object legacy_ok cap d es1 r st ok x es2 s :
  1 <= cap -> cap * C <= int64_max -> fldata.disk_data C object legacy_ok d ->
  along (H:=service_machine C wk timeout) (honest C object legacy_ok) (init cap d) (es1 ++ Begin r st ok x :: es2) ->
  run (H:=service_machine C wk timeout) (init cap d) (es1 ++ Begin r st ok x :: es2) = Some s ->
  flinv.small (fetches s) ->
  exists q, runs s !! r = Some q /\ sr_st q = st /\
    serveout.response_ok st x (object (st_key st) (etag (st_v st))) (sr q).
Proof.
  intros H1 H2 Hd Ha Hr Hsm. rewrite run_app in Hr.
  destruct (run (init cap d) es1) as [s1|] eqn:Hr1; simpl in Hr; [|done].
  destruct (along_app _ _ _ _ s1 Ha Hr1) as [Ha1 [Hh Ha2]].
  destruct (exec s1 (Begin r st ok x)) as [s2|] eqn:He; simpl in Hr; [|done].
  pose proof (small_before C wk timeout) as Hback.
  assert (flinv.small (fetches s2)) as Hsm2 by exact (run_back (fun s => flinv.small (fetches s)) s2 es2 s Hback Hr Hsm).
  assert (flinv.small (fetches s1)) as Hsm1 by (by eapply Hback).
  assert (WInv C wk cap object legacy_ok s1) as HW1.
  { apply (along_invariant (H:=service_machine C wk timeout) (honest C object legacy_ok) (WInv C wk cap object legacy_ok) (fun s => flinv.small (fetches s)) (init cap d) es1 s1 Hback);
      [|by apply init_WInv|done..]. intros. by eapply WInv_step. }
  destruct (run_served C wk timeout cap object legacy_ok r st ok x s2 es2 s) as [HW (q & Hq & <- & <- & Ho)];
    [apply Hh|by eapply WInv_step|eapply begin_served; [apply Hh|exact He]|done..|].
  exists q. do 2 (split; [done|]). destruct (s_serve _ _ _ (w_inv _ _ _ _ _ s HW) r q Hq) as (k & m & HI).
  destruct (w_asks _ _ _ _ _ s HW r q Hq) as (Hst & _ & Hlen). by eapply serveout.out_response.
Qed.

(** Both clients of the example, the second one's chunk shared with the first. *)
Lemma service_output_witness :
  exists q, runs (service_examples.after service_examples.served) !! 0%nat = Some q /\
    http.w_body (serve.w (sr q)) = slice 2 10 service_examples.obj.
Proof.
  destruct (service_output 4 8 45 (fun _ _ => service_examples.obj) (fun _ _ => False) 1 ∅ []
    0 (service_examples.st 2 9) true (http.fresh None None) (tail service_examples.served)
    (service_examples.after service_examples.served)) as (q & Hq & Hst & Ho).
  - discriminate.
  - discriminate.
  - split; intros k et st b _ Hb; by rewrite lookup_empty in Hb.
  - apply (alongb_sound _ _ _ _ (service_honestb 4 (fun _ _ => service_examples.obj) (fun _ _ => False))).
    vm_compute. reflexivity.
  - vm_compute. reflexivity.
  - vm_compute. discriminate.
  - exists q. split; [done|]. revert Ho. unfold serveout.response_ok.
    assert (serve.cons <$> (sr <$> runs (service_examples.after service_examples.served) !! 0%nat) = Some (serve.CDone None))
      as Hc by (vm_compute; reflexivity).
    rewrite Hq in Hc. simpl in Hc. injection Hc as ->. intros (_ & Hb & _). exact Hb.
Defined.
End serviceout.
