(* ===== verification/System.v ===== *)
(** * The server

    Everything at once: the requests of all clients with the metadata cache
    they share, their streams over one set of fetches and one budget, and the
    readahead that finished streams kick. Its events are the steps of all
    these goroutines and the answers of the outside: S3, the disk, the
    evictor, connections and clocks. *)
From S2P Require Import Prelude GoStd GoTime Http Request HeadCache Budget Singleflight Chunk DiskCache Flights FlightsInv FlightsProps FlightsLive FlightsData WriteGuard Fetcher Serve ServeInv ServeOut ServeLive Readahead Web Service ServiceInv ServiceLive ServiceOut.

Module system.
Import chunk fetcher web.

(** Where a request is. *)
Inductive client_pc :=
| PAsking (key : string) (range : Z * Z * Z)  (* S3 is asked for the metadata, line 152 *)
| PStreaming                                  (* in [serveAligned] *)
| PDone (w : http.ResponseWriter) (counted : option (string * string)).

Record client := {
  cl_req : HttpRequest;
  cl_ok : bool;                               (* its connection supports write deadlines *)
  cl_w : http.ResponseWriter;                 (* the response as [handle] got it *)
  cl_md : option (goerr + HeadObjectOutput);  (* what [headObject] returned *)
  cl_pc : client_pc;
}.
Definition at_pc (pc : client_pc) (c : client) : client :=
  {| cl_req := cl_req c; cl_ok := cl_ok c; cl_w := cl_w c; cl_md := cl_md c; cl_pc := pc |}.
Definition with_md (md : goerr + HeadObjectOutput) (c : client) : client :=
  {| cl_req := cl_req c; cl_ok := cl_ok c; cl_w := cl_w c; cl_md := Some md; cl_pc := cl_pc c |}.

(** Requests, streams and kicks share their numbers. *)
Record state := {
  svc : service.state;
  hc : heads.headCache;
  ahead : readahead.state;
  clients : gmap nat client;
  prefetches : gmap nat nat;   (* the [fetchChunk] call of each readahead goroutine *)
}.

Definition set_client (r : nat) (c : client) (s : state) : state :=
  {| svc := svc s; hc := hc s; ahead := ahead s; clients := <[r := c]> (clients s); prefetches := prefetches s |}.
Definition set_svc (x : service.state) (s : state) : state :=
  {| svc := x; hc := hc s; ahead := ahead s; clients := clients s; prefetches := prefetches s |}.
Definition set_hc (h : heads.headCache) (s : state) : state :=
  {| svc := svc s; hc := h; ahead := ahead s; clients := clients s; prefetches := prefetches s |}.
Definition set_ahead (a : readahead.state) (s : state) : state :=
  {| svc := svc s; hc := hc s; ahead := a; clients := clients s; prefetches := prefetches s |}.
Definition set_prefetch (t j : nat) (s : state) : state :=
  {| svc := svc s; hc := hc s; ahead := ahead s; clients := clients s; prefetches := <[t := j]> (prefetches s) |}.

Inductive event :=
| Arrive (r : nat) (req : HttpRequest) (now : Z) (ok : bool) (w : http.ResponseWriter)
| Metadata (r : nat) (env : head_env)          (* S3 answers the metadata request *)
| Step (e : service.event)                     (* a step of the streams and the fetches *)
| Finish (r : nat)                             (* [serveAligned] returns *)
| Ahead (e : readahead.event)                  (* a step of the readahead *)
| AheadTimeout (t : nat).                      (* a prefetch's deadline *)

Section machine.
Context (f : Fetcher) (rd : readahead.Readahead).
#[local] Instance service_this : Machine service.state service.event :=
  service.service_machine (chunkSize f) (workers f) (writeGuardTimeout f).

(** The rest of [handle] once the metadata is there. *)
Definition proceed (r : nat) (c : client) (key : string) (range : Z * Z * Z) (md : goerr + HeadObjectOutput)
    (s : state) : option state :=
  match reply_with (cl_req c) key range md (cl_w c) with
  | Finished w counted => Some (set_client r (at_pc (PDone w counted) (with_md md c)) s)
  | Streaming st w =>
      x ← exec (svc s) (service.Begin r st (cl_ok c) w);
      Some (set_client r (at_pc PStreaming (with_md md c)) (set_svc x s))
  end.

Definition arrive (r : nat) (req : HttpRequest) (now : Z) (ok : bool) (w : http.ResponseWriter) (s : state)
    : option state :=
  match clients s !! r with
  | Some _ => None
  | None =>
      let c pc := {| cl_req := req; cl_ok := ok; cl_w := w; cl_md := None; cl_pc := pc |} in
      match check req w with
      | inl w => Some (set_client r (c (PDone w None)) s)
      | inr (key, range) =>
          match head_cached now key (hc s) with
          | Some out => proceed r (c (PAsking key range)) key range (inr out) s
          | None => Some (set_client r (c (PAsking key range)) s)
          end
      end
  end.

Definition metadata (r : nat) (env : head_env) (s : state) : option state :=
  c ← clients s !! r;
  match cl_pc c with
  | PAsking key range =>
      let '(h, md) := head_asked env key (hc s) in
      proceed r c key range md (set_hc h s)
  | _ => None
  end.

(** Lines 596-600: a chunk the upstream no longer has in that version. *)
Definition dropped (e : service.event) (x : service.state) (h : heads.headCache) : heads.headCache :=
  match e with
  | service.Fetch (fl.EDownload i (inl err) _) =>
      match fl.leads (service.fetches x) !! i with
      | Some l => if errors.IsRequestFailure http.StatusPreconditionFailed err then heads.drop (fl.l_key l) h else h
      | None => h
      end
  | _ => h
  end.

(** Streams begin in [proceed]; the calls no stream made are the readahead's. *)
Definition stepped (e : service.event) : bool :=
  match e with
  | service.Begin _ _ _ _ | service.Fetch (fl.EFetch _ _ _ _)
  | service.Fetch (fl.EClose _) | service.Fetch (fl.ECancel _ _) => false
  | _ => true
  end.

Definition step (e : service.event) (s : state) : option state :=
  if stepped e then
    x ← exec (svc s) e;
    Some (set_hc (dropped e (svc s) (hc s)) (set_svc x s))
  else None.

(** The end of [handle]; a complete response kicks the readahead. The kick's
    loop runs in the request's goroutine, after the last byte was written. *)
Definition finish (r : nat) (s : state) : option state :=
  c ← clients s !! r;
  q ← service.runs (svc s) !! r;
  match cl_pc c, serve.cons (service.sr q) with
  | PStreaming, serve.CDone err =>
      let st := service.sr_st q in
      let s' := set_client r (at_pc (PDone (serve.w (service.sr q)) (Some ("GET", outcome err))) c) s in
      match err with
      | Some _ => Some s'
      | None =>
          a ← exec (Machine:=readahead.readahead_machine rd (chunkSize f)) (ahead s)
                (readahead.EKick r {| readahead.r_key := st_key st; readahead.r_v := st_v st;
                                      readahead.r_total := st_total st |} (lastChunkIdx (chunkSize f) st ⊕ 1));
          Some (set_ahead a s')
      end
  | _, _ => None
  end.

(** Lines 127-146 of readahead.go: a goroutine that is started calls
    [fetchChunk]; when it has returned its result is closed. *)
Definition ahead_step (e : readahead.event) (s : state) : option state :=
  a ← exec (Machine:=readahead.readahead_machine rd (chunkSize f)) (ahead s) e;
  match e with
  | readahead.EKick _ _ _ => None
  | readahead.ESelect _ t =>
      match readahead.tasks a !! t with
      | Some x =>
          y ← exec (svc s) (service.Fetch (fl.EFetch (readahead.tk_key x) (readahead.tk_v x)
                                             (readahead.tk_start x) (readahead.tk_end x)));
          Some (set_prefetch t (fl.next (service.fetches (svc s))) (set_svc y (set_ahead a s)))
      | None => Some (set_ahead a s)
      end
  | readahead.EFetched t =>
      j ← prefetches s !! t;
      y ← exec (svc s) (service.Fetch (fl.EClose j));
      Some (set_svc y (set_ahead a s))
  | _ => Some (set_ahead a s)
  end.

Definition ahead_timeout (t : nat) (s : state) : option state :=
  j ← prefetches s !! t;
  y ← exec (svc s) (service.Fetch (fl.ECancel j DeadlineExceeded));
  Some (set_svc y s).

#[global] Instance system_machine : Machine state event := fun s e =>
  match e with
  | Arrive r req now ok w => arrive r req now ok w s
  | Metadata r env => metadata r env s
  | Step e => step e s
  | Finish r => finish r s
  | Ahead e => ahead_step e s
  | AheadTimeout t => ahead_timeout t s
  end.

(** The process as it starts, with the cache on disk. *)
Definition init (d : gmap chunk_file bytes) : state :=
  {| svc := service.init (budget.units_cap (budget f)) d; hc := heads f; ahead := readahead.idle;
     clients := ∅; prefetches := ∅ |}.
End machine.

(** The run of [service_examples] as the server sees it, and the prefetch the
    second client's request kicks: of the chunk that was evicted. *)
Module system_examples.
Import service.service_examples.
Definition f : Fetcher :=
  {| bucket := "b"; chunkSize := 4; workers := 8; sf := Singleflight.sf.newSingleflight;
     budget := {| budget.units_cap := 1; budget.units_held := 0; budget.units_queue := []; budget.inUse := 0;
                  budget.peak := 0 |};
     chunkFetchTimeout := 90; writeGuardTimeout := 45; heads := heads.newHeadCache 60; nflights := 0 |}.
Definition rd : readahead.Readahead := readahead.NewReadahead 4 8 30.
Definition get (range : string) : HttpRequest := {| Method := "GET"; URLPath := "/k"; Range := range |}.
Definition md : HeadObjectOutput :=
  {| ContentLength := Some 10; ContentType := None; ETag := Some "e1"; LastModified := Some 60 |}.
Definition env : head_env :=
  {| he_now := 1; he_upstream := inr md; he_put := 1; he_it1 := []; he_it2 := [] |}.
Definition as_step (e : service.event) : list event :=
  match e with
  | service.Begin 0 _ ok w => [Arrive 0 (get "bytes=2-") 0 ok w; Metadata 0 env]
  | service.Begin r _ ok w => [Arrive r (get "bytes=0-3") 2 ok w]   (* the metadata is cached by now *)
  | e => [Step e]
  end.
Definition prefetched : list event :=
  [Ahead (readahead.ELookup 1 true); Ahead (readahead.ELookup 1 false); Ahead (readahead.EDedup 1);
   Ahead (readahead.ESelect 1 0)] ++
  (Step <$> misses 7 ++ [service.Fetch (fl.ELeadStart 8); service.Fetch (fl.EAcquire 8)] ++ leads 8 ++
     downloads 8 8 10 true ++ [service.Fetch (fl.ESeeAdmitted 7); service.Fetch (fl.EClaim 7 true);
     service.Fetch (fl.EHand 7)]) ++
  [Ahead (readahead.EFetched 0); Ahead (readahead.ERelease 0); Ahead (readahead.EDelete 0)].
Definition asked : list event := (mjoin (as_step <$> waiting)).
Definition all : list event := (mjoin (as_step <$> served)) ++ [Finish 0; Finish 1] ++ prefetched.
Definition machine : Machine state event := system_machine f rd.
Definition after (es : list event) : state := default (init f ∅) (run (H:=machine) (init f ∅) es).
#[global] Strategy 100 [after].
(** The second client, and the response it got. *)
Definition c1 : client :=
  default {| cl_req := get ""; cl_ok := true; cl_w := http.fresh None None; cl_md := None; cl_pc := PStreaming |}
    (clients (after all) !! 1%nat).
Definition w1 : http.ResponseWriter := match cl_pc c1 with PDone w _ => w | _ => http.fresh None None end.
#[global] Strategy 100 [c1 w1].
End system_examples.
End system.
