(* ===== verification/SystemOut.v ===== *)
(** * The server: what its clients are answered

    In every run of the machine of System.v whose S3 and disk tell the truth,
    every request that was answered was answered as the contract of Web.v
    says, whatever the other requests, the readahead and the evictor did. *)
From S2P Require Import Prelude GoStd GoTime Http Request HeadCache Budget Singleflight Chunk DiskCache Flights FlightsInv FlightsProps FlightsLive FlightsData WriteGuard Fetcher Serve ServeInv ServeOut ServeLive Readahead Web Service ServiceInv ServiceLive ServiceOut System.

Module systemout.
Import chunk fetcher web system.

Section world.
Context (f : Fetcher) (rd : readahead.Readahead).
Context (object : string -> string -> bytes) (legacy_ok : string -> string -> Prop).
Abbreviation C := (chunkSize f).
Abbreviation wk := (workers f).
Abbreviation U := (budget.units_cap (budget f)).
#[local] Instance service_this : Machine service.state service.event :=
  service.service_machine C wk (writeGuardTimeout f).
#[local] Instance this : Machine state event := system_machine f rd.

Definition etag_of (o : HeadObjectOutput) : string := default "" (ETag o).

(** Metadata that S3 may return for [key]: of a version that can be told
    from others by its ETag, and whose size the arithmetic can handle. *)
Definition describes (key : string) (o : HeadObjectOutput) : Prop :=
  forall n, ContentLength o = Some n ->
    n = Z.of_nat (length (object key (etag_of o))) /\ n + C + readahead.chunks rd <= int64_max /\
    etag_of o <> "" /\ fldata.slashless (etag_of o).

Definition describes_md (key : string) (md : goerr + HeadObjectOutput) : Prop :=
  match md with inr o => describes key o | inl _ => True end.

(** The version of the object [md] is about. *)
Definition object_of (key : string) (md : goerr + HeadObjectOutput) : bytes :=
  match md with
  | inr o => match ContentLength o with Some _ => object key (etag_of o) | None => [] end
  | inl _ => []
  end.

(** The environment's part. *)
Definition honest (s : state) (e : event) : Prop :=
  match e with
  | Arrive _ _ _ _ w => untouched w
  | Metadata r env =>
      forall c key range o, clients s !! r = Some c -> cl_pc c = PAsking key range ->
        he_upstream env = inr o -> describes key o
  | Step e => serviceout.honest C object legacy_ok (svc s) e
  | _ => True
  end.

(** A request answered with the response [w]: refused, where it is not one the
    service takes, or else answered for the key and the range it asks for,
    according to the metadata it was resolved against. *)
Definition answered (c : client) (w : http.ResponseWriter) (counted : option (string * string)) : Prop :=
  match cl_md c with
  | None => refused (cl_req c) w /\ counted = None
  | Some md =>
      exists key s e n, asks (cl_req c) key s e n /\ describes_md key md /\
        answers (cl_req c) s e n md (object_of key md) w counted
  end.

Definition client_ok (x : service.state) (r : nat) (c : client) : Prop :=
  untouched (cl_w c) /\
  match cl_pc c with
  | PAsking key range => check (cl_req c) (cl_w c) = inr (key, range)
  | PStreaming =>
      exists key range md st w, check (cl_req c) (cl_w c) = inr (key, range) /\ cl_md c = Some md /\
        describes_md key md /\ reply_with (cl_req c) key range md (cl_w c) = Streaming st w /\
        http.pristine w /\ serviceout.served C object r st (cl_ok c) w x
  | PDone w counted => answered c w counted
  end.

(** What the readahead still has to fetch lies inside its object. *)
Definition chunks_left (pc : readahead.kick_pc) : list Z :=
  match pc with
  | readahead.KNext rest | readahead.KDrop _ rest => rest
  | readahead.KMissed c rest | readahead.KClaimed _ c rest => c :: rest
  end.
Definition kick_ok (q : readahead.request) (pc : readahead.kick_pc) : Prop :=
  fldata.etag_ok (readahead.r_v q) /\
  readahead.r_total q = Z.of_nat (length (object (readahead.r_key q) (etag (readahead.r_v q)))) /\
  readahead.r_total q + C <= int64_max /\
  forall c, c ∈ chunks_left pc -> 0 <= c /\ c * C <= readahead.r_total q - 1.
Definition ahead_ok (a : readahead.state) : Prop :=
  forall id q pc, readahead.kicks a !! id = Some (q, pc) -> kick_ok q pc.

Record YInv (s : state) : Prop := {
  y_svc : serviceout.WInv C wk U object legacy_ok (svc s);
  y_heads : forall key e, heads.m (hc s) !! key = Some e -> describes key (heads.out e);
  y_clients : forall r c, clients s !! r = Some c -> client_ok (svc s) r c;
  y_ahead : ahead_ok (ahead s);
}.

Hypothesis HC : 0 < C /\ C <= int64_max.
Hypothesis Hrd : 0 <= readahead.chunks rd.

Lemma object_size_of key md : describes_md key md -> object_size C md (object_of key md).
Proof.
  intros Hd. destruct HC as [? ?]. split; [done|]. destruct md as [err|o]; simpl in *; [split; [lia|by intros ? ? ?]|].
  destruct (ContentLength o) as [n|] eqn:Hn.
  - destruct (Hd n Hn) as (-> & ? & _). split; [lia|]. intros o' t [= <-] Ht. congruence.
  - split; [simpl; lia|]. intros o' t [= <-] Ht. congruence.
Qed.

(** A stream [proceed] begins is one the service is asked for. *)
Lemma stream_asks req w key range md st x :
  untouched w -> check req w = inr (key, range) -> describes_md key md ->
  reply_with req key range md w = Streaming st x ->
  serviceout.asks C object st /\ http.pristine x /\ serviceout.object_of object st = object_of key md /\
  st_total st + C + readahead.chunks rd <= int64_max.
Proof.
  intros Hw Hc Hd Hr. pose proof (object_size_of key md Hd) as Hsize.
  destruct (reply_streams req w key range md st x C _ Hw Hc Hsize Hr) as (o & -> & [n Hn] & Hk & He & Hok & Hlen & Hx).
  simpl in *. rewrite Hn in *. destruct (Hd n Hn) as (-> & Hmax & Het1 & Het2).
  assert (serviceout.object_of object st = object key (etag_of o)) as Hobj.
  { unfold serviceout.object_of. by rewrite Hk, He. }
  split; [|split; [done|split; [done|lia]]]. split; [done|]. split; [|by rewrite Hobj].
  split; by rewrite He.
Qed.

Definition small (s : state) : Prop := flinv.small (service.fetches (svc s)).

Lemma client_step x e x' r c :
  serviceout.WInv C wk U object legacy_ok x -> exec x e = Some x' -> client_ok x r c -> client_ok x' r c.
Proof.
  intros HW He [Hu Hc]. split; [done|]. destruct (cl_pc c) as [|  |]; [done| |done].
  destruct Hc as (key & range & md & st & w & H1 & H2 & H3 & H4 & H5 & H6).
  exists key, range, md, st, w. do 5 (split; [done|]). by eapply serviceout.served_step.
Qed.

(** A step of the service, under the rest of the state. *)
Lemma svc_YInv s e x' :
  YInv s -> exec (svc s) e = Some x' -> serviceout.honest C object legacy_ok (svc s) e ->
  flinv.small (service.fetches x') -> YInv (set_svc x' s).
Proof.
  intros [HW Hh Hcl Ha] He Hhon Hsm. split; [by eapply serviceout.WInv_step|done| |done].
  intros r c Hr. eapply client_step; [done..|]. by apply Hcl.
Qed.

Lemma set_client_YInv s r c : YInv s -> client_ok (svc s) r c -> YInv (set_client r c s).
Proof.
  intros [HW Hh Hcl Ha] Hc. split; simpl; [done|done| |done].
  intros r' c' [[<- <-]|[_ Hr]]%lookup_insert_Some; [done|by apply Hcl].
Qed.

Lemma proceed_YInv s r c key range md s' :
  YInv s -> untouched (cl_w c) -> check (cl_req c) (cl_w c) = inr (key, range) -> describes_md key md ->
  proceed f r c key range md s = Some s' -> small s' -> YInv s'.
Proof.
  intros HY Hw Hc Hd Hp Hsm. unfold proceed in Hp.
  destruct (reply_with _ _ _ _ _) as [w counted|st x] eqn:Hr.
  - injection Hp as <-. apply set_client_YInv; [done|]. split; [done|]. simpl. unfold answered. simpl.
    destruct range as [[s0 e] n]. exists key, s0, e, n. split; [by eapply check_passed|]. split; [done|].
    by eapply finished_answers, Hr; [..|by apply object_size_of].
  - destruct (exec (svc s) _) as [x'|] eqn:He; [|done]. simpl in Hp. injection Hp as <-.
    destruct (stream_asks _ _ _ _ _ _ _ Hw Hc Hd Hr) as (Hask & Hx & _ & _).
    apply set_client_YInv; [eapply svc_YInv; [done|exact He|by split|done]|]. split; [done|].
    exists key, range, md, st, x. do 5 (split; [done|]). by eapply serviceout.begin_served.
Qed.

Lemma head_asked_YInv s r env c key range h md :
  YInv s -> honest s (Metadata r env) -> clients s !! r = Some c -> cl_pc c = PAsking key range ->
  head_asked env key (hc s) = (h, md) -> YInv (set_hc h s) /\ describes_md key md.
Proof.
  intros [HW Hh Hcl Ha] Hhon Hr Hp. unfold head_asked. destruct (he_upstream env) as [err|o] eqn:Hu.
  - unfold heads.get. destruct (heads.m (hc s) !! key) as [e|] eqn:He; simpl; intros [= <- <-];
      (split; [by destruct s|]); [by eapply Hh|done].
  - intros [= <- <-]. pose proof (Hhon c key range o Hr Hp Hu) as Hd. split; [|done].
    split; simpl; [done| |done|done]. intros k e [[-> ->]|Hk]%heads.put_entries; [done|by eapply Hh].
Qed.

Lemma dropped_heads e x h k d : heads.m (dropped e x h) !! k = Some d -> heads.m h !! k = Some d.
Proof.
  unfold dropped. destruct e as [[]| | |]; try done. destruct r as [err|]; [|done].
  destruct (fl.leads _ !! i); [|done]. destruct (errors.IsRequestFailure _ _); [|done].
  simpl. by intros [_ ?]%lookup_delete_Some.
Qed.

Lemma finish_YInv s r s' : YInv s -> finish f rd r s = Some s' -> YInv s'.
Proof.
  intros HY He. unfold finish in He. destruct (clients s !! r) as [c|] eqn:Hr; [|done]. simpl in He.
  destruct (service.runs (svc s) !! r) as [q|] eqn:Hq; [|done]. simpl in He.
  destruct (cl_pc c) eqn:Hp; try done. destruct (serve.cons (service.sr q)) as [| | | |err] eqn:Hc; try done.
  pose proof (y_clients s HY r c Hr) as [Hu Hok]. rewrite Hp in Hok.
  destruct Hok as (key & range & md & st & w & Hck & Hmd & Hd & Hrep & Hx & q' & Hq' & Hst & _ & Ho).
  assert (q' = q) as -> by congruence. clear Hq'.
  destruct (stream_asks _ _ _ _ _ _ _ Hu Hck Hd Hrep) as (Hask & _ & Hobj & Hmax). rewrite Hobj in Ho.
  assert (YInv (set_client r (at_pc (PDone (serve.w (service.sr q)) (Some ("GET", outcome err))) c) s)) as HY'.
  { apply set_client_YInv; [done|]. split; [done|]. simpl. unfold answered. simpl. rewrite Hmd.
    destruct range as [[s0 e] n]. exists key, s0, e, n. split; [by eapply check_passed|]. split; [done|].
    by eapply streamed_answers, Hc; [..|by apply object_size_of| |]. }
  destruct err as [err|]; [by injection He as <-|].
  destruct (exec (ahead s) _) as [a|] eqn:Ha; [|done]. simpl in He. injection He as <-.
  destruct HY' as [HW Hh Hcl Hah]. split; simpl; [done..|]. subst st.
  cbn in Ha. unfold readahead.kick in Ha. destruct (readahead.kicks (ahead s) !! r); [done|]. injection Ha as <-.
  intros id q1 pc. simpl. rewrite lookup_insert_Some. intros [[_ [= <- <-]]|[_ Hk]]; [|by eapply Hah].
  destruct Hask as (Hso & Het & Hlen). split; [done|]. split; [done|]. split; [destruct Hso as (_ & _ & _ & ?); simpl; lia|].
  intros n Hn. destruct (readahead.Kick_inside C (service.sr_st q) rd n Hso Hrd) as [? ?]; [lia|exact Hn|simpl; lia].
Qed.

(** The readahead works through its kicks; what it asks for are chunks of the
    versions it was kicked with. *)
Lemma kick_moves a id q pc pc' a' :
  ahead_ok a -> readahead.kicks a !! id = Some (q, pc) ->
  (forall c, c ∈ chunks_left pc' -> c ∈ chunks_left pc) ->
  readahead.kicks a' = <[id := (q, pc')]> (readahead.kicks a) -> ahead_ok a'.
Proof.
  intros Ha Hid Hsub Hk id' q' p'. rewrite Hk, lookup_insert_Some. intros [[<- [= <- <-]]|[_ Hx]]; [|by eapply Ha].
  destruct (Ha id q pc Hid) as (? & ? & ? & Hc). do 3 (split; [done|]). auto.
Qed.

Lemma ahead_ok_step a e a' :
  ahead_ok a -> exec (Machine:=readahead.readahead_machine rd C) a e = Some a' ->
  match e with readahead.EKick _ _ _ => True | _ => ahead_ok a' end.
Proof.
  intros Ha He. destruct e; try done; cbn in He.
  - unfold readahead.lookup in He. destruct (readahead.kicks a !! id) as [[q pc]|] eqn:Hid; [|done]. simpl in He.
    destruct pc as [[|c rest]| | |]; try done. injection He as <-.
    eapply kick_moves; [done|exact Hid| |done]. intros m. destruct hit; simpl; [|done]. by apply list_elem_of_further.
  - unfold readahead.dedup in He. destruct (readahead.kicks a !! id) as [[q pc]|] eqn:Hid; [|done]. simpl in He.
    destruct pc as [|c rest| |]; try done. destruct (readahead.dedupKey _ _ _) as [dk|]; [|done]. simpl in He.
    destruct (decide _); injection He as <-; (eapply kick_moves; [done|exact Hid| |reflexivity]); intros m; simpl; [|done].
    by apply list_elem_of_further.
  - unfold readahead.select in He. destruct (readahead.kicks a !! id) as [[q pc]|] eqn:Hid; [|done]. simpl in He.
    destruct pc as [| |dk c rest|]; try done. destruct (readahead.tasks a !! t); [done|].
    destruct (_ <? _); injection He as <-;
      (eapply kick_moves; [done|exact Hid| |reflexivity]); intros m; simpl; by apply list_elem_of_further.
  - unfold readahead.drop_key in He. destruct (readahead.kicks a !! id) as [[q pc]|] eqn:Hid; [|done]. simpl in He.
    destruct pc; try done. injection He as <-. by eapply kick_moves; [done|exact Hid| |reflexivity].
  - unfold readahead.fetched in He. destruct (readahead.tasks a !! t) as [x|]; [|done]. simpl in He.
    destruct (readahead.tk_pc x); try done. by injection He as <-.
  - unfold readahead.release_sem in He. destruct (readahead.tasks a !! t) as [x|]; [|done]. simpl in He.
    destruct (readahead.tk_pc x); try done. destruct (_ <? _); [|done]. by injection He as <-.
  - unfold readahead.delete_key in He. destruct (readahead.tasks a !! t) as [x|]; [|done]. simpl in He.
    destruct (readahead.tk_pc x); try done. by injection He as <-.
Qed.

Lemma prefetch_honest x a id t a' y :
  ahead_ok a -> exec (Machine:=readahead.readahead_machine rd C) a (readahead.ESelect id t) = Some a' ->
  readahead.tasks a' !! t = Some y ->
  serviceout.honest C object legacy_ok x
    (service.Fetch (fl.EFetch (readahead.tk_key y) (readahead.tk_v y) (readahead.tk_start y) (readahead.tk_end y))).
Proof.
  intros Ha He Hy. cbn in He. unfold readahead.select in He.
  destruct (readahead.kicks a !! id) as [[q pc]|] eqn:Hid; [|done].
  cbn [mbind option_bind] in He.
  destruct pc as [| |dk c rest|]; try done. destruct (readahead.tasks a !! t) eqn:Ht; [done|].
  destruct (_ <? _); [|injection He as <-; simpl in Hy; congruence].
  destruct (Ha id q _ Hid) as (Het & Htot & Hmax & Hc). destruct (Hc c) as [Hc0 Hcl]; [apply list_elem_of_here|].
  rewrite (readahead.schedule_span_eq C (readahead.r_total q) c) in He by (destruct HC; lia).
  injection He as <-. simpl in Hy. rewrite lookup_insert_eq in Hy. injection Hy as <-. simpl.
  split; [done|]. unfold fldata.chunk_end. by rewrite Htot.
Qed.

(** ** Every event *)

Lemma set_ahead_YInv a s : YInv s -> ahead_ok a -> YInv (set_ahead a s).
Proof. by intros [] ?. Qed.

Lemma arrive_YInv s r req now ok w s' :
  YInv s -> untouched w -> arrive f r req now ok w s = Some s' -> small s' -> YInv s'.
Proof.
  intros HY Hw He Hsm. unfold arrive in He. destruct (clients s !! r); [done|].
  destruct (check req w) as [w'|[key range]] eqn:Hc.
  - injection He as <-. apply set_client_YInv; [done|]. split; [done|]. split; [by eapply check_refused|done].
  - unfold head_cached, heads.get in He. destruct (heads.m (hc s) !! key) as [e|] eqn:Hk.
    + destruct (Sub _ _ <? _).
      * eapply proceed_YInv; [done| | | |exact He|done]; try done. by eapply (y_heads s).
      * injection He as <-. by apply set_client_YInv.
    + injection He as <-. by apply set_client_YInv.
Qed.

Lemma ahead_YInv s e s' : YInv s -> ahead_step f rd e s = Some s' -> small s' -> YInv s'.
Proof.
  intros HY He Hsm. unfold ahead_step in He. destruct (exec (ahead s) e) as [a|] eqn:Ha; [|done]. simpl in He.
  pose proof (ahead_ok_step (ahead s) e a (y_ahead s HY) Ha) as Hok.
  destruct e; try (injection He as <-; by apply set_ahead_YInv); [done| |].
  - destruct (readahead.tasks a !! t) as [x|] eqn:Ht; [|injection He as <-; by apply set_ahead_YInv].
    destruct (exec (svc s) _) as [y|] eqn:Hy; [|done]. simpl in He. injection He as <-.
    assert (YInv (set_svc y (set_ahead a s))) as [] by
      (eapply svc_YInv; [by apply set_ahead_YInv|exact Hy|by eapply prefetch_honest, Ht; [apply HY|]|done]). done.
  - destruct (prefetches s !! t) as [j|]; [|done]. simpl in He.
    destruct (exec (svc s) _) as [y|] eqn:Hy; [|done]. simpl in He. injection He as <-.
    eapply svc_YInv; [by apply set_ahead_YInv|exact Hy|done|done].
Qed.

Lemma system_YInv s e s' : YInv s -> honest s e -> small s' -> exec s e = Some s' -> YInv s'.
Proof.
  intros HY Hh Hsm He. destruct e as [r req now ok w|r env|e|r|e|t]; cbn in He.
  - by eapply arrive_YInv.
  - unfold metadata in He. destruct (clients s !! r) as [c|] eqn:Hr; [|done]. simpl in He.
    destruct (cl_pc c) as [key range| |] eqn:Hp; try done.
    destruct (head_asked env key (hc s)) as [h md] eqn:Hm.
    destruct (head_asked_YInv s r env c key range h md HY Hh Hr Hp Hm) as [HY' Hd].
    pose proof (y_clients s HY r c Hr) as [Hu Hc]. rewrite Hp in Hc. by eapply proceed_YInv, Hsm; [exact HY'|..].
  - unfold step in He. destruct (stepped e); [|done]. destruct (exec (svc s) e) as [x|] eqn:Hx; [|done].
    simpl in He. injection He as <-.
    assert (YInv (set_svc x s)) as [HW Hhd Hcl Ha] by (eapply svc_YInv; [done|exact Hx|exact Hh|done]).
    split; simpl in *; [done| |done|done]. intros key d Hk. by eapply Hhd, dropped_heads.
  - by eapply finish_YInv.
  - by eapply ahead_YInv.
  - unfold ahead_timeout in He. destruct (prefetches s !! t) as [j|]; [|done]. simpl in He.
    destruct (exec (svc s) _) as [y|] eqn:Hy; [|done]. simpl in He. injection He as <-.
    eapply svc_YInv; [done|exact Hy|done|done].
Qed.

(** At most one step of the service in each, and only a [Step] makes other
    steps than those the server makes itself. *)
Lemma system_svc s e s' :
  exec s e = Some s' ->
  svc s' = svc s \/ exists e', exec (svc s) e' = Some (svc s') /\ (e = Step e' \/ stepped e' = false).
Proof.
  assert (forall r c key range md s1, proceed f r c key range md s1 = Some s' -> svc s1 = svc s ->
    svc s' = svc s \/ exists e', exec (svc s) e' = Some (svc s') /\ (e = Step e' \/ stepped e' = false)) as Hproc.
  { intros r c key range md s1 Hp <-. unfold proceed in Hp. destruct (reply_with _ _ _ _ _) as [w ct|st x].
    - injection Hp as <-. by left.
    - destruct (exec (svc s1) _) as [y|] eqn:Hy; [|done]. injection Hp as <-. right. eexists. split; [exact Hy|by right]. }
  intros He. destruct e as [r req now ok w|r env|e|r|e|t]; cbn in He.
  - unfold arrive in He. destruct (clients s !! r); [done|]. destruct (check req w) as [w'|[key range]].
    + injection He as <-. by left.
    + destruct (head_cached now key (hc s)); [by eapply Hproc|]. injection He as <-. by left.
  - unfold metadata in He. destruct (clients s !! r) as [c|]; [|done]. simpl in He.
    destruct (cl_pc c); try done. destruct (head_asked _ _ _) as [h md]. by eapply Hproc.
  - unfold step in He. destruct (stepped e); [|done]. destruct (exec (svc s) e) as [x|] eqn:Hx; [|done].
    injection He as <-. right. exists e. split; [exact Hx|by left].
  - unfold finish in He. destruct (clients s !! r) as [c|]; [|done]. simpl in He.
    destruct (service.runs (svc s) !! r) as [q|]; [|done]. simpl in He.
    destruct (cl_pc c); try done. destruct (serve.cons (service.sr q)) as [| | | |[err|]]; try done.
    + injection He as <-. by left.
    + destruct (exec (ahead s) _); [|done]. injection He as <-. by left.
  - unfold ahead_step in He. destruct (exec (ahead s) e) as [a|]; [|done]. simpl in He.
    destruct e; try (injection He as <-; by left); [done| |].
    + destruct (readahead.tasks a !! t); [|injection He as <-; by left].
      destruct (exec (svc s) _) as [y|] eqn:Hy; [|done]. injection He as <-. right. eexists. split; [exact Hy|by right].
    + destruct (prefetches s !! t) as [j|]; [|done]. simpl in He.
      destruct (exec (svc s) _) as [y|] eqn:Hy; [|done]. injection He as <-. right. eexists. split; [exact Hy|by right].
  - unfold ahead_timeout in He. destruct (prefetches s !! t) as [j|]; [|done]. simpl in He.
    destruct (exec (svc s) _) as [y|] eqn:Hy; [|done]. injection He as <-. right. eexists. split; [exact Hy|by right].
Qed.

Lemma system_before s e s' : exec s e = Some s' -> small s' -> small s.
Proof.
  unfold small. intros He Hs. destruct (system_svc s e s' He) as [<-|(e' & He' & _)]; [done|].
  by eapply serviceout.small_before.
Qed.

Lemma init_YInv d :
  1 <= U -> U * C <= int64_max -> heads.m (heads f) = ∅ -> fldata.disk_data C object legacy_ok d -> YInv (init f d).
Proof.
  intros H1 H2 Hh Hd. split; simpl; [by apply serviceout.init_WInv| | |].
  - intros key e. by rewrite Hh, lookup_empty.
  - intros r c. by rewrite lookup_empty.
  - intros id q pc. simpl. by rewrite lookup_empty.
Qed.

(** [honest] as a check, for runs whose upstream never errs. *)
Definition describesb (key : string) (o : HeadObjectOutput) : bool :=
  match ContentLength o with
  | Some n => (n =? Z.of_nat (length (object key (etag_of o)))) && (n + C + readahead.chunks rd <=? int64_max) &&
              negb (bool_decide (etag_of o = "")) && negb (strings.has_byte "/"%char (etag_of o))
  | None => true
  end.
Definition honestb (s : state) (e : event) : bool :=
  match e with
  | Arrive _ _ _ _ w =>
      bool_decide (http.w_hdr w = ∅) && match http.w_sent w, http.w_body w with None, [] => true | _, _ => false end
  | Metadata r env =>
      match clients s !! r with
      | Some c => match cl_pc c, he_upstream env with PAsking key _, inr o => describesb key o | _, _ => true end
      | None => true
      end
  | Step e => serviceout.honestb C object (svc s) e
  | _ => true
  end.

Lemma system_honestb s e : honestb s e = true -> honest s e.
Proof.
  destruct e as [r req now ok w|r env|e| | |]; simpl; try done.
  - intros [Hh%bool_decide_eq_true Hw]%andb_true_iff. unfold untouched. by destruct (http.w_sent w), (http.w_body w).
  - intros Hb c key range o Hr Hp Hu. rewrite Hr, Hp, Hu in Hb. unfold describesb in Hb. intros n Hn. rewrite Hn in Hb.
    rewrite !andb_true_iff, !negb_true_iff, bool_decide_eq_false, Z.leb_le, Z.eqb_eq in Hb.
    destruct Hb as [[[? ?] ?] ?]. by repeat split.
  - apply serviceout.service_honestb.
Qed.
End world.

(** ** The states the server can be in

    A run whose environment is honest, from an empty metadata cache and the
    files of [d], with fewer than 2^30 calls (see [flinv.small]). *)
Definition reachable (f : Fetcher) (rd : readahead.Readahead) (object : string -> string -> bytes)
    (legacy_ok : string -> string -> Prop) (d : gmap chunk_file bytes) (s : state) : Prop :=
  0 < chunkSize f /\ 1 <= budget.units_cap (budget f) /\ budget.units_cap (budget f) * chunkSize f <= int64_max /\
  heads.m (heads f) = ∅ /\ 0 <= readahead.chunks rd /\ fldata.disk_data (chunkSize f) object legacy_ok d /\
  exists es, along (H:=system_machine f rd) (honest f rd object legacy_ok) (init f d) es /\
    run (H:=system_machine f rd) (init f d) es = Some s /\ small s.

(** [YInv] and what else it takes to preserve holds in all of them. *)
Lemma reachable_invariant f rd object legacy_ok d s (I : state -> Prop) :
  (forall s e s', YInv f rd object legacy_ok s -> I s -> exec (Machine:=system_machine f rd) s e = Some s' -> I s') ->
  I (init f d) -> reachable f rd object legacy_ok d s -> YInv f rd object legacy_ok s /\ I s.
Proof.
  intros HI Hi (H1 & H2 & H3 & Hh & Hrd & Hd & es & Ha & Hr & Hsm).
  assert (0 < chunkSize f /\ chunkSize f <= int64_max) as HC by (split; [done|nia]).
  apply (along_invariant (H:=system_machine f rd) (honest f rd object legacy_ok)
    (fun s => YInv f rd object legacy_ok s /\ I s) small (init f d) es s (system_before f rd)); [|split|done..].
  - intros s1 e s2 [HY Hi1] Hhon Hsm2 He. split; [by eapply system_YInv|by eapply HI].
  - by apply init_YInv.
  - done.
Qed.

Lemma reachable_YInv f rd object legacy_ok d s :
  reachable f rd object legacy_ok d s -> YInv f rd object legacy_ok s.
Proof. intros Hr. by apply (reachable_invariant _ _ _ _ d s (fun _ => True)). Qed.

(** The examples' states are among them. *)
Lemma example_reachable es s :
  alongb (H:=system_examples.machine) (honestb system_examples.f system_examples.rd (fun _ _ => service.service_examples.obj))
    (init system_examples.f ∅) es = true ->
  run (H:=system_examples.machine) (init system_examples.f ∅) es = Some s -> small s ->
  reachable system_examples.f system_examples.rd (fun _ _ => service.service_examples.obj) (fun _ _ => False) ∅ s.
Proof.
  intros Ha Hr Hs. do 3 (split; [done|]). split; [done|]. split; [done|].
  split; [split; intros k et st b _ Hb; by rewrite lookup_empty in Hb|]. exists es. split; [|done].
  apply (alongb_sound _ _ _ _ (system_honestb system_examples.f system_examples.rd
    (fun _ _ => service.service_examples.obj) (fun _ _ => False))), Ha.
Qed.

(** C2: the server meets its contract. In every run of any number of requests,
    with their streams, shared fetches, budget, metadata cache and readahead,
    and with evictions, timeouts, broken connections and failures of S3 at
    any point: if the metadata S3 returns is that of some version of the
    object, if S3 honours [If-Match] and [Range], and if the files the cache
    started with are what they are named after, then every request that was
    answered was answered as its contract says, for one version of the
    object: methods, paths and ranges the server does not accept are refused
    with 405 and 400; a failed metadata lookup with 404, 403 or 502; an
    unsatisfiable range with a 416 that names the size; a HEAD gets the
    metadata; a GET gets exactly the bytes RFC 9110 selects, with matching
    status, length, range and ETag, or is counted as an error and got a
    prefix of them or a refusal. *)
Theorem system_answers f rd object legacy_ok d s r c w counted :
  reachable f rd object legacy_ok d s -> clients s !! r = Some c -> cl_pc c = PDone w counted ->
  answered f rd object c w counted.
Proof.
  intros HY%reachable_YInv Hc Hp. pose proof (y_clients _ _ _ _ s HY r c Hc) as [_ Hok]. by rewrite Hp in Hok.
Qed.

(** The second client of the example, served from the first one's chunk. *)
Lemma system_answers_witness :
  clients (system_examples.after system_examples.all) !! 1%nat = Some system_examples.c1 /\
  exists key s e n, asks (system_examples.get "bytes=0-3") key s e n /\
    answers (system_examples.get "bytes=0-3") s e n (inr system_examples.md) service.service_examples.obj
      system_examples.w1 (Some ("GET", "ok")).
Proof.
  assert (clients (system_examples.after system_examples.all) !! 1%nat = Some system_examples.c1) as Hc
    by (vm_compute; reflexivity).
  split; [exact Hc|].
  assert (answered system_examples.f system_examples.rd (fun _ _ => service.service_examples.obj)
    system_examples.c1 system_examples.w1 (Some ("GET", "ok"))) as Ha.
  { refine (system_answers system_examples.f system_examples.rd (fun _ _ => service.service_examples.obj) (fun _ _ => False)
      ∅ (system_examples.after system_examples.all) 1 system_examples.c1 system_examples.w1
      (Some ("GET", "ok")) (example_reachable system_examples.all _ _ _ _) Hc _).
    - vm_compute. reflexivity.
    - vm_compute. reflexivity.
    - vm_compute. discriminate.
    - vm_compute. reflexivity. }
  assert (cl_md system_examples.c1 = Some (inr system_examples.md)) as Hm by (vm_compute; reflexivity).
  assert (cl_req system_examples.c1 = system_examples.get "bytes=0-3") as Hq by (vm_compute; reflexivity).
  unfold answered in Ha. rewrite Hm, Hq in Ha. destruct Ha as (key & a & e & n & Hask & _ & Ha).
  exists key, a, e, n. split; [exact Hask|exact Ha].
Defined.
End systemout.
