(* ===== verification/SystemLive.v ===== *)
(** * The server: progress

    Every call that no stream made is a prefetch's, and every prefetch under
    way has its call; so whatever the server has come to, something can move
    until every request is answered and everything behind it is over. *)
From S2P Require Import Prelude GoStd GoTime Http Request HeadCache Budget Singleflight Chunk DiskCache Flights FlightsInv FlightsProps FlightsLive FlightsData WriteGuard Fetcher Serve ServeInv ServeOut ServeLive Readahead Web Service ServiceInv ServiceLive ServiceOut System SystemOut.

Module systemlive.
Import chunk fetcher web system systemout.

(** ** The readahead's calls *)

Section link.
Context (C wk timeout : Z).
#[local] Instance service_this : Machine service.state service.event := service.service_machine C wk timeout.

Definition fetching (a : readahead.state) (t : nat) : Prop :=
  exists y, readahead.tasks a !! t = Some y /\ readahead.tk_pc y = readahead.TFetch.

Record link (x : service.state) (a : readahead.state) (p : gmap nat nat) : Prop := {
  k_task : forall t, fetching a t -> exists j c, p !! t = Some j /\
    fl.callers (service.fetches x) !! j = Some c /\ fl.c_pc c <> fl.CClosed /\ service.owned x j = false;
  k_call : forall j c, fl.callers (service.fetches x) !! j = Some c -> fl.c_pc c <> fl.CClosed ->
    service.owned x j = false -> exists t, p !! t = Some j /\ fetching a t;
  k_inj : forall t1 t2 j, p !! t1 = Some j -> p !! t2 = Some j -> t1 = t2;
  k_next : forall t j, p !! t = Some j -> (j < fl.next (service.fetches x))%nat;
}.

(** A step of the service that neither makes nor closes a call from outside. *)
Lemma link_svc x a p e x' :
  link x a p -> serviceinv.SInv C wk x -> exec x e = Some x' ->
  (forall k v b n, e <> service.Fetch (fl.EFetch k v b n)) -> (forall j, e <> service.Fetch (fl.EClose j)) ->
  link x' a p.
Proof.
  intros [Ht Hc Hi Hn] HS He Hf Hcl. pose proof (serviceinv.service_next_mono C wk timeout x e x' He) as Hm.
  pose proof (serviceinv.owned_step C wk timeout x e x') as Hown. split; [| |done|].
  - intros t Hft. destruct (Ht t Hft) as (j & c & Hp & Hj & Hpc & Ho). pose proof (Hn t j Hp) as Hjn.
    destruct (serviceinv.unowned_call C wk timeout x e x' j c HS He Ho Hjn Hj (Hcl j)) as (c' & Hj' & Hiff).
    exists j, c'. do 2 (split; [done|]). split; [by rewrite Hiff|]. apply not_true_is_false. intros Ho'.
    destruct (proj2 (Hown j HS He) Ho') as [?|?]; [congruence|lia].
  - intros j c' Hj' Hpc Ho'.
    assert (service.owned x j = false) as Ho.
    { apply not_true_is_false. intros Hx. rewrite (proj1 (Hown j HS He) Hx) in Ho'. done. }
    destruct (serviceinv.call_origin C wk timeout x e x' j c' He Hj' Hpc Ho') as [(c & Hj & Hp)|(_ & k & v & b & n & ->)];
      [by eapply Hc|by destruct (Hf k v b n)].
  - intros t j Hp. specialize (Hn t j Hp). lia.
Qed.

(** A step of the readahead that starts and ends no fetch. *)
Lemma link_ahead x a a' p : link x a p -> (forall t, fetching a' t <-> fetching a t) -> link x a' p.
Proof.
  intros [Ht Hc Hi Hn] Hf. split; [by intros t Hx%Hf; apply Ht| |done|done].
  intros j c Hj Hp Ho. destruct (Hc j c Hj Hp Ho) as (t & Hx & Hft). exists t. split; [done|by apply Hf].
Qed.

(** A prefetch makes its call. *)
Lemma link_select x a p t k v b n x' a' :
  link x a p -> serviceinv.SInv C wk x -> exec x (service.Fetch (fl.EFetch k v b n)) = Some x' ->
  (forall t', fetching a' t' <-> t' = t \/ fetching a t') -> p !! t = None ->
  link x' a' (<[t := fl.next (service.fetches x)]> p).
Proof.
  intros [Ht Hc Hi Hn] HS He Hf Hpt.
  assert (service.runs x' = service.runs x /\ fl.next (service.fetches x') = S (fl.next (service.fetches x)) /\
    exists c, fl.callers (service.fetches x') = <[fl.next (service.fetches x) := c]> (fl.callers (service.fetches x)) /\
      fl.c_pc c = fl.CLookup) as (Hr & Hnx & c0 & Hcs & Hp0).
  { cbn in He. destruct (fl.fetch _ _ _ _ _ _) as [f'|] eqn:Hfe; [|done]. injection He as <-.
    unfold fl.fetch in Hfe. destruct (_ && _); [|done]. injection Hfe as <-. simpl. do 2 (split; [done|]). by eexists. }
  assert (forall j, service.owned x' j = service.owned x j) as Hown by (intros j; unfold service.owned; by rewrite Hr).
  assert (service.owned x (fl.next (service.fetches x)) = false) as Hfresh.
  { apply not_true_is_false. intros (r & q & i & Hq & Hq')%serviceinv.owned_spec.
    pose proof (serviceinv.s_next _ _ _ HS r q i _ Hq Hq'). lia. }
  split.
  - intros t' [->|Hx]%Hf.
    + exists (fl.next (service.fetches x)), c0. rewrite lookup_insert_eq, Hcs, lookup_insert_eq, Hown, Hp0. done.
    + destruct (Ht t' Hx) as (j & c & Hp & Hj & Hpc & Ho). exists j, c.
      rewrite lookup_insert_ne by congruence. rewrite Hcs, Hown.
      rewrite lookup_insert_ne by (specialize (Hn t' j Hp); lia). done.
  - intros j c. rewrite Hcs, Hown, lookup_insert_Some. intros [[<- <-]|[Hne Hj]] Hpc Ho.
    + exists t. rewrite lookup_insert_eq. split; [done|]. apply Hf. by left.
    + destruct (Hc j c Hj Hpc Ho) as (t' & Hp & Hx). exists t'. rewrite lookup_insert_ne by congruence.
      split; [done|]. apply Hf. by right.
  - intros t1 t2 j. rewrite !lookup_insert_Some. intros [[<- <-]|[H1 Hp1]] [[<- Hj]|[H2 Hp2]]; try done.
    + specialize (Hn _ _ Hp2). lia.
    + subst. specialize (Hn _ _ Hp1). lia.
    + by eapply Hi.
  - rewrite Hnx. intros t' j. rewrite lookup_insert_Some. intros [[<- <-]|[_ Hp]]; [lia|]. specialize (Hn _ _ Hp). lia.
Qed.

(** A prefetch closes its result. *)
Lemma link_fetched x a p t j x' a' :
  link x a p -> serviceinv.SInv C wk x -> p !! t = Some j -> exec x (service.Fetch (fl.EClose j)) = Some x' ->
  (forall t', fetching a' t' <-> t' <> t /\ fetching a t') -> link x' a' p.
Proof.
  intros [Ht Hc Hi Hn] HS Hpt He Hf.
  pose proof (serviceinv.service_next_mono C wk timeout x _ x' He) as Hm.
  pose proof (serviceinv.owned_step C wk timeout x (service.Fetch (fl.EClose j)) x') as Hown.
  split; [| |done|].
  - intros t' [Hne Hx]%Hf. destruct (Ht t' Hx) as (j' & c & Hp & Hj & Hpc & Ho). pose proof (Hn t' j' Hp) as Hjn.
    destruct (serviceinv.unowned_call C wk timeout x _ x' j' c HS He Ho Hjn Hj) as (c' & Hj' & Hiff).
    { intros [= ->]. apply Hne. by eapply Hi. }
    exists j', c'. do 2 (split; [done|]). split; [by rewrite Hiff|]. apply not_true_is_false. intros Ho'.
    destruct (proj2 (Hown j' HS He) Ho') as [?|?]; [congruence|lia].
  - intros j' c' Hj' Hpc Ho'.
    assert (service.owned x j' = false) as Ho.
    { apply not_true_is_false. intros Hx. rewrite (proj1 (Hown j' HS He) Hx) in Ho'. done. }
    destruct (serviceinv.call_origin C wk timeout x _ x' j' c' He Hj' Hpc Ho') as [(c & Hj & Hp)|(_ & k & v & b & n & [=])].
    destruct (Hc j' c Hj Hp Ho) as (t' & Hp' & Hx). exists t'. split; [done|]. apply Hf. split; [|done].
    intros ->. assert (j' = j) as -> by congruence. apply Hpc.
    cbn in He. destruct (negb _); [|done]. unfold fl.close_result in He. rewrite Hj in He. simpl in He.
    destruct (fl.c_pc c); try done. destruct (close _ _) as [[h cr']|]; [|done]. injection He as <-. simpl in Hj'.
    rewrite lookup_insert_eq in Hj'. by injection Hj' as <-.
  - intros t' j' Hp. specialize (Hn t' j' Hp). lia.
Qed.
End link.

(** ** What a step of the readahead changes *)

Lemma ahead_tasks rd C a e a' :
  exec (Machine:=readahead.readahead_machine rd C) a e = Some a' ->
  match e with
  | readahead.ESelect _ t =>
      (readahead.tasks a' !! t = None /\ readahead.tasks a' = readahead.tasks a) \/
      (readahead.tasks a !! t = None /\ exists y, readahead.tasks a' = <[t := y]> (readahead.tasks a) /\
         readahead.tk_pc y = readahead.TFetch)
  | readahead.EFetched t => exists y y', readahead.tasks a !! t = Some y /\
      readahead.tasks a' = <[t := y']> (readahead.tasks a) /\ readahead.tk_pc y' <> readahead.TFetch
  | _ => (forall t, fetching a' t <-> fetching a t) /\
      forall t, is_Some (readahead.tasks a !! t) -> is_Some (readahead.tasks a' !! t)
  end.
Proof.
  assert (forall t y y', readahead.tasks a !! t = Some y -> readahead.tk_pc y <> readahead.TFetch ->
    readahead.tk_pc y' <> readahead.TFetch -> readahead.tasks a' = <[t := y']> (readahead.tasks a) ->
    (forall t, fetching a' t <-> fetching a t) /\
    forall t, is_Some (readahead.tasks a !! t) -> is_Some (readahead.tasks a' !! t)) as Hset.
  { intros t y y' Hy Hp Hp' Ha. split; [|intros t'; rewrite Ha, lookup_insert_is_Some'; by right].
    intros t'. unfold fetching. rewrite Ha. destruct (decide (t = t')) as [->|Hne]; [|by rewrite lookup_insert_ne].
    rewrite lookup_insert_eq. split; intros (z & Hz & ?); simplify_eq; congruence. }
  intros He. destruct e; cbn in He.
  - unfold readahead.kick in He. destruct (readahead.kicks a !! id); [done|]. by injection He as <-.
  - unfold readahead.lookup in He. destruct (readahead.kicks a !! id) as [[q pc]|]; [|done]. simpl in He.
    destruct pc as [[|c rest]| | |]; try done. by injection He as <-.
  - unfold readahead.dedup in He. destruct (readahead.kicks a !! id) as [[q pc]|]; [|done]. simpl in He.
    destruct pc; try done. destruct (readahead.dedupKey _ _ _); [|done]. simpl in He.
    by destruct (decide _); injection He as <-.
  - unfold readahead.select in He. destruct (readahead.kicks a !! id) as [[q pc]|]; [|done]. simpl in He.
    destruct pc; try done. destruct (readahead.tasks a !! t) eqn:Ht; [done|].
    destruct (_ <? _); injection He as <-; simpl; [right|by left]. split; [done|]. by eexists.
  - unfold readahead.drop_key in He. destruct (readahead.kicks a !! id) as [[q pc]|]; [|done]. simpl in He.
    destruct pc; try done. by injection He as <-.
  - unfold readahead.fetched in He. destruct (readahead.tasks a !! t) as [y|] eqn:Hy; [|done]. simpl in He.
    destruct (readahead.tk_pc y); try done. injection He as <-. by eexists y, _.
  - unfold readahead.release_sem in He. destruct (readahead.tasks a !! t) as [y|] eqn:Hy; [|done]. simpl in He.
    destruct (readahead.tk_pc y) eqn:Hp; try done. destruct (_ <? _); [|done]. injection He as <-.
    eapply (Hset t y); [done| | |reflexivity]; simpl; congruence.
  - unfold readahead.delete_key in He. destruct (readahead.tasks a !! t) as [y|] eqn:Hy; [|done]. simpl in He.
    destruct (readahead.tk_pc y) eqn:Hp; try done. injection He as <-.
    eapply (Hset t y); [done| | |reflexivity]; simpl; congruence.
Qed.

Lemma ahead_kicks rd C a e a' id :
  exec (Machine:=readahead.readahead_machine rd C) a e = Some a' -> is_Some (readahead.kicks a' !! id) ->
  is_Some (readahead.kicks a !! id) \/ exists q n, e = readahead.EKick id q n.
Proof.
  assert (forall id' x x', readahead.kicks a !! id' = Some x -> readahead.kicks a' = <[id' := x']> (readahead.kicks a) ->
    is_Some (readahead.kicks a' !! id) -> is_Some (readahead.kicks a !! id)) as Hset.
  { intros id' x x' Hx ->. rewrite lookup_insert_is_Some'. intros [<-|?]; [by exists x|done]. }
  intros He Hid. destruct e; cbn in He.
  - unfold readahead.kick in He. destruct (readahead.kicks a !! id0); [done|]. injection He as <-. simpl in Hid.
    apply lookup_insert_is_Some' in Hid as [->|?]; [right; eauto|by left].
  - left. unfold readahead.lookup in He. destruct (readahead.kicks a !! id0) as [[q pc]|] eqn:Hk; [|done]. simpl in He.
    destruct pc as [[|c rest]| | |]; try done. injection He as <-. by eapply Hset.
  - left. unfold readahead.dedup in He. destruct (readahead.kicks a !! id0) as [[q pc]|] eqn:Hk; [|done]. simpl in He.
    destruct pc; try done. destruct (readahead.dedupKey _ _ _); [|done]. simpl in He.
    destruct (decide _); injection He as <-; by eapply Hset.
  - left. unfold readahead.select in He. destruct (readahead.kicks a !! id0) as [[q pc]|] eqn:Hk; [|done]. simpl in He.
    destruct pc; try done. destruct (readahead.tasks a !! t); [done|].
    destruct (_ <? _); injection He as <-; by eapply Hset.
  - left. unfold readahead.drop_key in He. destruct (readahead.kicks a !! id0) as [[q pc]|] eqn:Hk; [|done]. simpl in He.
    destruct pc; try done. injection He as <-. by eapply Hset.
  - left. unfold readahead.fetched in He. destruct (readahead.tasks a !! t) as [y|]; [|done]. simpl in He.
    destruct (readahead.tk_pc y); try done. by injection He as <-.
  - left. unfold readahead.release_sem in He. destruct (readahead.tasks a !! t) as [y|]; [|done]. simpl in He.
    destruct (readahead.tk_pc y); try done. destruct (_ <? _); [|done]. by injection He as <-.
  - left. unfold readahead.delete_key in He. destruct (readahead.tasks a !! t) as [y|]; [|done]. simpl in He.
    destruct (readahead.tk_pc y); try done. by injection He as <-.
Qed.

(** ** The invariant *)

Definition not_asking (c : client) : Prop := match cl_pc c with PAsking _ _ => False | _ => True end.
Definition done (c : client) : Prop := match cl_pc c with PDone _ _ => True | _ => False end.

Section live.
Context (f : Fetcher) (rd : readahead.Readahead).
Context (object : string -> string -> bytes) (legacy_ok : string -> string -> Prop).
Abbreviation C := (chunkSize f).
Abbreviation wk := (workers f).
Abbreviation U := (budget.units_cap (budget f)).
#[local] Instance svc_this : Machine service.state service.event :=
  service.service_machine C wk (writeGuardTimeout f).
#[local] Instance this : Machine state event := system_machine f rd.

Record LInv (s : state) : Prop := {
  l_link : link (svc s) (ahead s) (prefetches s);
  l_pre : forall t, is_Some (prefetches s !! t) -> is_Some (readahead.tasks (ahead s) !! t);
  l_ahead : readahead.Inv rd C (ahead s);
  l_runs : forall r, is_Some (service.runs (svc s) !! r) -> exists c, clients s !! r = Some c /\ not_asking c;
  l_kicks : forall id, is_Some (readahead.kicks (ahead s) !! id) -> exists c, clients s !! id = Some c /\ done c;
}.

Lemma set_client_LInv s r c :
  LInv s -> (is_Some (service.runs (svc s) !! r) -> not_asking c) ->
  (is_Some (readahead.kicks (ahead s) !! r) -> done c) -> LInv (set_client r c s).
Proof.
  intros [Hl Hp Ha Hr Hk] H1 H2. split; simpl; [done..| |].
  - intros r' Hr'. destruct (decide (r = r')) as [<-|Hne]; [exists c; by rewrite lookup_insert_eq; auto|].
    rewrite lookup_insert_ne by done. auto.
  - intros r' Hr'. destruct (decide (r = r')) as [<-|Hne]; [exists c; by rewrite lookup_insert_eq; auto|].
    rewrite lookup_insert_ne by done. auto.
Qed.

(** What a step of the service does to its streams. *)
Lemma runs_step (x : service.state) e x' r :
  exec x e = Some x' -> is_Some (service.runs x' !! r) ->
  is_Some (service.runs x !! r) \/ exists st ok w, e = service.Begin r st ok w.
Proof.
  intros He Hr. destruct (serviceinv.step_runs C wk (writeGuardTimeout f) x e x' He)
    as [Hx|[(r' & st & ok & w & -> & _ & Hx)|(r' & q & q' & _ & Hq & Hx & _)]]; rewrite Hx in Hr; [by left| |].
  - apply lookup_insert_is_Some' in Hr as [->|?]; [right; eauto|by left].
  - left. apply lookup_insert_is_Some' in Hr as [<-|?]; [by exists q|done].
Qed.

Lemma svc_LInv s e x' :
  LInv s -> serviceinv.SInv C wk (svc s) -> exec (svc s) e = Some x' ->
  (forall k v b n, e <> service.Fetch (fl.EFetch k v b n)) -> (forall j, e <> service.Fetch (fl.EClose j)) ->
  (forall r st ok w, e = service.Begin r st ok w -> exists c, clients s !! r = Some c /\ not_asking c) ->
  LInv (set_svc x' s).
Proof.
  intros [Hl Hp Ha Hr Hk] HS He H1 H2 Hb. split; simpl; [by eapply link_svc|done|done| |done].
  intros r Hx. destruct (runs_step _ _ _ r He Hx) as [?|(st & ok & w & ->)]; [by apply Hr|by eapply Hb].
Qed.

Lemma ahead_LInv s e a :
  LInv s -> exec (Machine:=readahead.readahead_machine rd C) (ahead s) e = Some a ->
  (forall id q n, e = readahead.EKick id q n -> exists c, clients s !! id = Some c /\ done c) ->
  (forall t, fetching a t <-> fetching (ahead s) t) ->
  (forall t, is_Some (readahead.tasks (ahead s) !! t) -> is_Some (readahead.tasks a !! t)) ->
  LInv (set_ahead a s).
Proof.
  intros [Hl Hp Ha Hr Hk] He Hkick Hf Ht. split; simpl; [by eapply link_ahead|auto| |done|].
  - by eapply readahead.readahead_step.
  - intros id Hid. destruct (ahead_kicks _ _ _ _ _ id He Hid) as [?|(q & n & ->)]; [auto|by eapply Hkick].
Qed.

Lemma proceed_LInv s r c key range md s' :
  LInv s -> serviceinv.SInv C wk (svc s) -> ~ is_Some (service.runs (svc s) !! r) ->
  ~ is_Some (readahead.kicks (ahead s) !! r) -> proceed f r c key range md s = Some s' -> LInv s'.
Proof.
  intros HL HS Hr Hk Hp. unfold proceed in Hp. destruct (reply_with _ _ _ _ _) as [w counted|st x].
  - injection Hp as <-. by apply set_client_LInv.
  - destruct (exec (svc s) _) as [x'|] eqn:He; [|done]. injection Hp as <-.
    apply (svc_LInv (set_client r (at_pc PStreaming (with_md md c)) s) (service.Begin r st (cl_ok c) x)); try done.
    + by apply set_client_LInv.
    + intros r' st' ok' w' [= -> _ _ _]. simpl. rewrite lookup_insert_eq. by eexists.
Qed.

(** A number no request has yet. *)
Lemma no_client s r : LInv s -> clients s !! r = None ->
  ~ is_Some (service.runs (svc s) !! r) /\ ~ is_Some (readahead.kicks (ahead s) !! r).
Proof.
  intros HL Hr. split; [intros Hx; destruct (l_runs s HL r Hx) as (c & ? & _)|intros Hx; destruct (l_kicks s HL r Hx) as (c & ? & _)];
    congruence.
Qed.
Lemma asking_client s r c key range : LInv s -> clients s !! r = Some c -> cl_pc c = PAsking key range ->
  ~ is_Some (service.runs (svc s) !! r) /\ ~ is_Some (readahead.kicks (ahead s) !! r).
Proof.
  intros HL Hr Hp. split.
  - intros Hx. destruct (l_runs s HL r Hx) as (c' & Hc & Hn). unfold not_asking in Hn.
    assert (c' = c) as -> by congruence. by rewrite Hp in Hn.
  - intros Hx. destruct (l_kicks s HL r Hx) as (c' & Hc & Hn). unfold done in Hn.
    assert (c' = c) as -> by congruence. by rewrite Hp in Hn.
Qed.

Lemma set_hc_LInv s h : LInv s -> LInv (set_hc h s).
Proof. by intros []. Qed.

Lemma finish_LInv s r s' : LInv s -> finish f rd r s = Some s' -> LInv s'.
Proof.
  intros HL He. unfold finish in He. destruct (clients s !! r) as [c|] eqn:Hr; [|done]. simpl in He.
  destruct (service.runs (svc s) !! r) as [q|] eqn:Hq; [|done]. simpl in He.
  destruct (cl_pc c) eqn:Hp; try done. destruct (serve.cons (service.sr q)) as [| | | |err] eqn:Hc; try done.
  assert (LInv (set_client r (at_pc (PDone (serve.w (service.sr q)) (Some ("GET", outcome err))) c) s)) as HL'
    by (by apply set_client_LInv).
  destruct err as [err|]; [by injection He as <-|].
  destruct (exec (ahead s) _) as [a|] eqn:Ha; [|done]. simpl in He. injection He as <-.
  pose proof (ahead_tasks rd C _ _ _ Ha) as [? ?].
  eapply ahead_LInv; [exact HL'|exact Ha| |done|done].
  intros id q' n [= <- _ _]. simpl. rewrite lookup_insert_eq. by eexists.
Qed.

(** A prefetch is started, and makes its call. *)
Lemma select_LInv s id t a x y :
  LInv s -> serviceinv.SInv C wk (svc s) ->
  exec (Machine:=readahead.readahead_machine rd C) (ahead s) (readahead.ESelect id t) = Some a ->
  readahead.tasks a !! t = Some x ->
  exec (svc s) (service.Fetch (fl.EFetch (readahead.tk_key x) (readahead.tk_v x) (readahead.tk_start x)
                                 (readahead.tk_end x))) = Some y ->
  LInv (set_prefetch t (fl.next (service.fetches (svc s))) (set_svc y (set_ahead a s))).
Proof.
  intros [Hl Hp Ha Hr Hk] HS He Hx Hy.
  destruct (ahead_tasks rd C _ _ _ He) as [[? _]|(Ht & x' & Htk & Hpc)]; [congruence|].
  assert (x' = x) as -> by (rewrite Htk, lookup_insert_eq in Hx; congruence).
  split; simpl.
  - eapply link_select; [done..| |].
    + intros t'. unfold fetching. rewrite Htk. split.
      * intros (z & [[<- <-]|[_ Hz]]%lookup_insert_Some & Hpz); [by left|right; by exists z].
      * intros [->|(z & Hz & Hpz)]; [exists x; by rewrite lookup_insert_eq|].
        exists z. rewrite lookup_insert_ne by congruence. done.
    + destruct (prefetches s !! t) eqn:Hpt; [|done]. destruct (Hp t) as [? ?]; [by eexists|congruence].
  - intros t'. rewrite Htk, !lookup_insert_is_Some'. intros [->|?]; [by left|right; auto].
  - by eapply readahead.readahead_step.
  - intros r Hrr. destruct (runs_step _ _ _ r Hy Hrr) as [?|(st & ok & w & [=])]. auto.
  - intros id' Hid. destruct (ahead_kicks _ _ _ _ _ id' He Hid) as [?|(q & n & [=])]. auto.
Qed.

(** A prefetch has returned, and its result is closed. *)
Lemma fetched_LInv s t a j y :
  LInv s -> serviceinv.SInv C wk (svc s) ->
  exec (Machine:=readahead.readahead_machine rd C) (ahead s) (readahead.EFetched t) = Some a ->
  prefetches s !! t = Some j -> exec (svc s) (service.Fetch (fl.EClose j)) = Some y ->
  LInv (set_svc y (set_ahead a s)).
Proof.
  intros [Hl Hp Ha Hr Hk] HS He Ht Hy. destruct (ahead_tasks rd C _ _ _ He) as (x & x' & Hx & Htk & Hpc).
  split; simpl.
  - eapply link_fetched; [done..|]. intros t'. unfold fetching. rewrite Htk. split.
    + intros (z & [[<- <-]|[Hne Hz]]%lookup_insert_Some & Hpz); [done|]. split; [done|by exists z].
    + intros [Hne (z & Hz & Hpz)]. exists z. by rewrite lookup_insert_ne.
  - intros t'. rewrite Htk, lookup_insert_is_Some'. right. auto.
  - by eapply readahead.readahead_step.
  - intros r Hrr. destruct (runs_step _ _ _ r Hy Hrr) as [?|(st & ok & w & [=])]. auto.
  - intros id' Hid. destruct (ahead_kicks _ _ _ _ _ id' He Hid) as [?|(q & n & [=])]. auto.
Qed.

Lemma ahead_step_LInv s e s' : LInv s -> serviceinv.SInv C wk (svc s) -> ahead_step f rd e s = Some s' -> LInv s'.
Proof.
  intros HL HS He. unfold ahead_step in He. destruct (exec (ahead s) e) as [a|] eqn:Ha; [|done]. simpl in He.
  pose proof (ahead_tasks rd C _ _ _ Ha) as Ht.
  destruct e; try (destruct Ht; injection He as <-; by eapply ahead_LInv); [done| |].
  - destruct (readahead.tasks a !! t) as [x|] eqn:Hx.
    + destruct (exec (svc s) _) as [y|] eqn:Hy; [|done]. injection He as <-. by eapply select_LInv.
    + injection He as <-. destruct Ht as [[_ Ht]|(_ & y & Ht & _)]; [|rewrite Ht, lookup_insert_eq in Hx; done].
      eapply ahead_LInv; [done|exact Ha|done| |]; unfold fetching; by rewrite Ht.
  - destruct (prefetches s !! t) as [j|] eqn:Hj; [|done]. simpl in He.
    destruct (exec (svc s) _) as [y|] eqn:Hy; [|done]. injection He as <-. by eapply fetched_LInv.
Qed.

Lemma system_LInv s e s' : LInv s -> serviceinv.SInv C wk (svc s) -> exec s e = Some s' -> LInv s'.
Proof.
  intros HL HS He. destruct e as [r req now ok w|r env|e|r|e|t]; cbn in He.
  - unfold arrive in He. destruct (clients s !! r) eqn:Hr; [done|]. destruct (no_client s r HL Hr) as [H1 H2].
    assert (forall pc, LInv (set_client r
      {| cl_req := req; cl_ok := ok; cl_w := w; cl_md := None; cl_pc := pc |} s)) as Hset by (intros; by apply set_client_LInv).
    destruct (check req w) as [w'|[key range]]; [injection He as <-; apply Hset|].
    destruct (head_cached now key (hc s)); [by eapply proceed_LInv|]. injection He as <-. apply Hset.
  - unfold metadata in He. destruct (clients s !! r) as [c|] eqn:Hr; [|done]. simpl in He.
    destruct (cl_pc c) as [key range| |] eqn:Hp; try done. destruct (asking_client s r c _ _ HL Hr Hp) as [H1 H2].
    destruct (head_asked env key (hc s)) as [h md]. eapply proceed_LInv; [by apply set_hc_LInv|..|exact He]; done.
  - unfold step in He. destruct (stepped e) eqn:Hst; [|done]. destruct (exec (svc s) e) as [x|] eqn:Hx; [|done].
    injection He as <-. apply set_hc_LInv. eapply svc_LInv; [done|done|exact Hx|..].
    + by intros k v b n ->.
    + by intros j ->.
    + by intros r st ok w ->.
  - by eapply finish_LInv.
  - by eapply ahead_step_LInv.
  - unfold ahead_timeout in He. destruct (prefetches s !! t) as [j|]; [|done]. simpl in He.
    destruct (exec (svc s) _) as [y|] eqn:Hy; [|done]. injection He as <-. by eapply svc_LInv.
Qed.

Lemma init_LInv d : LInv (init f d).
Proof.
  split; simpl.
  - split; simpl; [|by intros j c; rewrite lookup_empty..].
    intros t (y & Hy & _). simpl in Hy. by rewrite lookup_empty in Hy.
  - intros t [? Ht]. by rewrite lookup_empty in Ht.
  - apply readahead.idle_Inv.
  - intros r [? Hr]. by rewrite lookup_empty in Hr.
  - intros r [? Hr]. by rewrite lookup_empty in Hr.
Qed.

(** ** Progress *)

(** Steps that need no new request, no eviction and no timeout. *)
Definition forward (e : event) : Prop :=
  match e with
  | Arrive _ _ _ _ _ | AheadTimeout _ => False
  | Metadata _ _ | Finish _ => True
  | Step e => servicelive.forward e
  | Ahead e => match e with readahead.EKick _ _ _ => False | _ => True end
  end.

(** Every request is answered, and nothing goes on behind them. *)
Definition all_done (s : state) : Prop :=
  servicelive.finished (svc s) /\ map_Forall (fun _ c => done c) (clients s) /\
  map_Forall (fun _ k => snd k = readahead.KNext []) (readahead.kicks (ahead s)) /\
  map_Forall (fun _ x => readahead.tk_pc x = readahead.TDone) (readahead.tasks (ahead s)).

Definition can_move (s : state) : Prop := exists e, forward e /\ is_Some (exec s e).

#[global] Instance not_asking_dec c : Decision (not_asking c).
Proof. unfold not_asking. destruct (cl_pc c); apply _. Defined.
#[global] Instance done_dec c : Decision (done c).
Proof. unfold done. destruct (cl_pc c); apply _. Defined.
#[global] Instance kick_pc_dec : EqDecision readahead.kick_pc.
Proof. solve_decision. Defined.
#[global] Instance task_pc_dec : EqDecision readahead.task_pc.
Proof. solve_decision. Defined.

Lemma by_ahead_call s t a j y :
  exec (Machine:=readahead.readahead_machine rd C) (ahead s) (readahead.EFetched t) = Some a ->
  prefetches s !! t = Some j -> service.service_machine C wk (writeGuardTimeout f) (svc s) (service.Fetch (fl.EClose j)) = Some y ->
  is_Some (exec s (Ahead (readahead.EFetched t))).
Proof.
  intros Ha Ht Hy. change (is_Some (ahead_step f rd (readahead.EFetched t) s)). unfold ahead_step. rewrite Ha.
  cbn [mbind option_bind]. rewrite Ht. cbn [mbind option_bind]. unfold exec, system.service_this. rewrite Hy. by eexists.
Qed.

Lemma service_moves s :
  LInv s -> servicelive.good C wk U (svc s) -> ~ servicelive.finished (svc s) -> can_move s.
Proof.
  intros HL HG Hnf. destruct (servicelive.service_progress C wk (writeGuardTimeout f) U (svc s) HG Hnf) as (e & He & y & Hy).
  change (service.service_machine C wk (writeGuardTimeout f) (svc s) e = Some y) in Hy.
  destruct (stepped e) eqn:Hst.
  { exists (Step e). split; [done|]. unfold exec, this, system_machine, step, exec, system.service_this. rewrite Hst, Hy. by eexists. }
  destruct e as [[]| | |]; try done.
  (* the readahead closes what it fetched *)
  pose proof Hy as Hcl. cbn in Hcl. destruct (service.owned (svc s) i) eqn:Hown; [done|]. simpl in Hcl.
  unfold fl.close_result in Hcl. destruct (fl.callers (service.fetches (svc s)) !! i) as [c|] eqn:Hc; [|done].
  destruct (k_call _ _ _ (l_link s HL) i c) as (t & Ht & x & Hx & Hp); [done| |done|].
  { intros Hp. simpl in Hcl. by rewrite Hp in Hcl. }
  exists (Ahead (readahead.EFetched t)). split; [done|]. eapply by_ahead_call; [|exact Ht|exact Hy]. cbn. unfold readahead.fetched.
  rewrite Hx. simpl. by rewrite Hp.
Qed.

(** S3 may answer that it cannot be reached. *)
Definition unreachable : head_env :=
  {| he_now := 0; he_upstream := inl DeadlineExceeded; he_put := 0; he_it1 := []; he_it2 := [] |}.

Lemma asking_moves s r c key range :
  LInv s -> clients s !! r = Some c -> cl_pc c = PAsking key range -> can_move s.
Proof.
  intros HL Hr Hp. destruct (asking_client s r c key range HL Hr Hp) as [Hn _].
  exists (Metadata r unreachable). split; [done|]. change (is_Some (metadata f r unreachable s)).
  unfold metadata. rewrite Hr. simpl. rewrite Hp. destruct (head_asked unreachable key (hc s)) as [h md].
  unfold proceed. destruct (reply_with _ _ _ _ _) as [w counted|st x]; [by eexists|].
  unfold exec, system.service_this, service.service_machine. simpl.
  destruct (service.runs (svc s) !! r); [by destruct Hn|by eexists].
Qed.

Lemma streaming_moves s r c :
  YInv f rd object legacy_ok s -> LInv s -> servicelive.finished (svc s) ->
  clients s !! r = Some c -> cl_pc c = PStreaming -> can_move s.
Proof.
  intros HY HL [_ Hov] Hr Hp. pose proof (y_clients _ _ _ _ s HY r c Hr) as [_ Hok]. rewrite Hp in Hok.
  destruct Hok as (key & range & md & st & w & _ & _ & _ & _ & _ & q & Hq & _).
  specialize (Hov r q Hq). cbv beta in Hov. unfold servicelive.over in Hov.
  destruct (serve.cons (service.sr q)) as [| | | |err] eqn:Hc; try done.
  exists (Finish r). split; [done|]. change (is_Some (finish f rd r s)). unfold finish. rewrite Hr. simpl.
  rewrite Hq. simpl. rewrite Hp, Hc. destruct err as [err|]; [by eexists|]. cbn. unfold readahead.kick.
  destruct (readahead.kicks (ahead s) !! r) as [k|] eqn:Hk; [|by eexists].
  destruct (l_kicks s HL r) as (c' & Hc' & Hd); [by eexists|]. assert (c' = c) as -> by congruence.
  unfold done in Hd. by rewrite Hp in Hd.
Qed.

(** A kick's next chunk gets its prefetch, whose call the fetches accept. *)
Lemma select_moves s id q dk c rest :
  YInv f rd object legacy_ok s -> readahead.kicks (ahead s) !! id = Some (q, readahead.KClaimed dk c rest) ->
  0 < C -> C <= int64_max -> is_Some (exec s (Ahead (readahead.ESelect id (fresh (dom (readahead.tasks (ahead s))))))).
Proof.
  intros HY Hk H1 H2. set (t := fresh _).
  assert (readahead.tasks (ahead s) !! t = None) as Ht by apply not_elem_of_dom, is_fresh. clearbody t.
  destruct (y_ahead _ _ _ _ s HY id q _ Hk) as (_ & _ & Hmax & Hc). destruct (Hc c) as [Hc0 Hcl]; [apply list_elem_of_here|].
  change (is_Some (ahead_step f rd (readahead.ESelect id t) s)). unfold ahead_step.
  assert (exec (Machine:=readahead.readahead_machine rd C) (ahead s) (readahead.ESelect id t) =
    readahead.select rd C id t (ahead s)) as -> by done. unfold readahead.select. rewrite Hk. cbn [mbind option_bind]. rewrite Ht.
  rewrite (readahead.schedule_span_eq C (readahead.r_total q) c) by lia.
  destruct (_ <? _); simpl; [|rewrite Ht; by eexists]. rewrite lookup_insert_eq.
  cbn -[Z.min Z.mul Z.add Z.sub int64_max]. unfold fl.fetch. assert (0 <= c * C) by (apply Z.mul_nonneg_nonneg; lia).
  assert ((0 <=? c * C) && (c * C <=? Z.min (c * C + C - 1) (readahead.r_total q - 1)) &&
    (Z.min (c * C + C - 1) (readahead.r_total q - 1) <? c * C + C) &&
    (Z.min (c * C + C - 1) (readahead.r_total q - 1) <? int64_max) = true) as Hb.
  { rewrite !andb_true_iff, !Z.leb_le, !Z.ltb_lt. lia. }
  rewrite Hb. by eexists.
Qed.

Lemma kick_moves_on s id q pc :
  YInv f rd object legacy_ok s -> 0 < C -> C <= int64_max ->
  readahead.kicks (ahead s) !! id = Some (q, pc) -> pc <> readahead.KNext [] -> can_move s.
Proof.
  intros HY H1 H2 Hk Hpc. destruct (readahead.kick_never_waits rd C (ahead s) id q pc Hk Hpc) as (e & a & He & Hx).
  destruct pc as [[|c rest]|c rest|dk c rest|dk rest]; [done| | |by eexists (Ahead _); split; [|by eapply select_moves]|].
  all: exists (Ahead e); split; [by destruct e|]; change (is_Some (ahead_step f rd e s)); unfold ahead_step; rewrite Hx;
    destruct e; try done; try (by eexists); cbn in Hx; unfold readahead.select in Hx; subst; rewrite Hk in Hx; done.
Qed.

Lemma task_moves s t x :
  LInv s -> servicelive.finished (svc s) -> readahead.tasks (ahead s) !! t = Some x ->
  readahead.tk_pc x <> readahead.TDone -> can_move s.
Proof.
  intros HL [[_ Hq] _] Ht Hp. destruct (readahead.tk_pc x) eqn:Hx; [| | |done].
  - destruct (k_task _ _ _ (l_link s HL) t) as (j & c & _ & Hj & Hc & _); [by exists x|].
    specialize (Hq j c Hj). cbv beta in Hq. unfold flprops.finished in Hq. by destruct (fl.c_pc c).
  - exists (Ahead (readahead.ERelease t)). split; [done|]. cbn. unfold readahead.release_sem. rewrite Ht. simpl. rewrite Hx.
    destruct (readahead.a_sem _ _ _ (l_ahead s HL)) as [Hs _].
    assert (readahead.token x <= msum readahead.token (readahead.tasks (ahead s))) as Hge.
    { eapply msum_ge; [|done]. intros _ y _. unfold readahead.token. by destruct (readahead.tk_pc y). }
    destruct (Z.ltb_spec 0 (readahead.sem (ahead s))) as [?|Hle]; [by eexists|].
    assert (readahead.token x = 1) by (unfold readahead.token; by rewrite Hx). exfalso. lia.
  - exists (Ahead (readahead.EDelete t)). split; [done|]. cbn. unfold readahead.delete_key. rewrite Ht. simpl. rewrite Hx.
    by eexists.
Qed.

Lemma system_progress s :
  YInv f rd object legacy_ok s -> LInv s -> small s -> 0 < C -> C <= int64_max -> ~ all_done s -> can_move s.
Proof.
  intros HY HL Hsm H1 H2 Hnd. pose proof (y_svc _ _ _ _ s HY) as [HS HF _ _].
  destruct (decide (servicelive.finished (svc s))) as [Hf|Hf]; [|by apply service_moves].
  destruct (decide (map_Forall (fun _ c => done c) (clients s))) as [Hc|Hc].
  2: { apply map_not_Forall in Hc as (r & c & Hr & Hc); [|apply _]. destruct (cl_pc c) as [key range| |] eqn:Hp.
       - by eapply asking_moves.
       - by eapply streaming_moves.
       - unfold done in Hc. by rewrite Hp in Hc. }
  destruct (decide (map_Forall (fun _ k => snd k = readahead.KNext []) (readahead.kicks (ahead s)))) as [Hk|Hk].
  2: { apply map_not_Forall in Hk as (id & [q pc] & Hid & Hpc); [|apply _]. by eapply kick_moves_on. }
  destruct (decide (map_Forall (fun _ x => readahead.tk_pc x = readahead.TDone) (readahead.tasks (ahead s)))) as [Ht|Ht].
  - by destruct Hnd.
  - apply map_not_Forall in Ht as (t & x & Hx & Hp); [|apply _]. by eapply task_moves.
Qed.
End live.

Lemma reachable_LInv f rd object legacy_ok d s :
  reachable f rd object legacy_ok d s -> YInv f rd object legacy_ok s /\ LInv f rd s.
Proof.
  apply (reachable_invariant f rd object legacy_ok d s (LInv f rd)); [|apply init_LInv].
  intros s1 e s2 HY HL He. eapply system_LInv; [done|apply (y_svc _ _ _ _ s1 HY)|done].
Qed.

Lemma reachable_progress f rd object legacy_ok d s :
  reachable f rd object legacy_ok d s -> ~ all_done s ->
  exists e, forward e /\ is_Some (exec (Machine:=system_machine f rd) s e).
Proof.
  intros Hr Hnd. destruct (reachable_LInv _ _ _ _ _ _ Hr) as [HY HL].
  destruct Hr as (H1 & H2 & H3 & _ & _ & _ & _ & _ & _ & Hsm).
  apply (system_progress f rd object legacy_ok s HY HL Hsm H1); [nia|done].
Qed.

(** C3: the server never deadlocks: in every state it can come to in
    which some request is not answered, some stream or fetch is under way, or
    some prefetch or its bookkeeping is not over, some step can be taken
    without a new request, without an eviction and without any timeout: each
    call that no stream made is a running prefetch's, which returns once its
    call has, and whose slot and key are then given back. *)
Theorem system_no_deadlock f rd object legacy_ok d s :
  reachable f rd object legacy_ok d s -> ~ all_done s ->
  exists e, forward e /\ is_Some (exec (Machine:=system_machine f rd) s e).
Proof. apply reachable_progress. Qed.

(** While the first client's second chunk waits for its unit. *)
Lemma system_no_deadlock_witness :
  exists e, forward e /\
    is_Some (exec (Machine:=system_machine system_examples.f system_examples.rd)
      (system_examples.after system_examples.asked) e).
Proof.
  refine (system_no_deadlock system_examples.f system_examples.rd (fun _ _ => service.service_examples.obj) (fun _ _ => False)
      ∅ (system_examples.after system_examples.asked) (example_reachable system_examples.asked _ _ _ _) _).
  - vm_compute. reflexivity.
  - vm_compute. reflexivity.
  - vm_compute. discriminate.
  - intros [[[Hl _] _] _]. vm_compute in Hl. discriminate Hl.
Defined.
End systemlive.
