(* ===== verification/SystemEnd.v ===== *)
(** * The server: termination

    What is left to do once no request arrives is bounded: each chunk of a
    stream, and each chunk of the prefetches it may still kick, is worth the
    steps it can take at most, and every step uses some up. *)
From S2P Require Import Prelude GoStd GoTime Http Request HeadCache Budget Singleflight Chunk DiskCache Flights FlightsInv FlightsProps FlightsLive FlightsData WriteGuard Fetcher Serve ServeInv ServeOut ServeLive Readahead Web Service ServiceInv ServiceLive ServiceOut System SystemOut SystemLive.

Module systemend.
Import chunk fetcher web system systemout systemlive.

(** ** A measure *)

(** A chunk of a kick has four steps of its own; its prefetch three, and a
    call. *)
Definition left_in (pc : readahead.kick_pc) : Z :=
  match pc with
  | readahead.KNext rest | readahead.KDrop _ rest => Z.of_nat (length rest)
  | readahead.KMissed _ rest | readahead.KClaimed _ _ rest => Z.of_nat (length rest) + 1
  end.
Definition kick_rank (k : readahead.request * readahead.kick_pc) : Z :=
  match k.2 with
  | readahead.KNext rest => 47 * Z.of_nat (length rest)
  | readahead.KMissed _ rest => 47 * Z.of_nat (length rest) + 46
  | readahead.KClaimed _ _ rest => 47 * Z.of_nat (length rest) + 45
  | readahead.KDrop _ rest => 47 * Z.of_nat (length rest) + 1
  end.
Definition task_rank (x : readahead.task) : Z :=
  match readahead.tk_pc x with
  | readahead.TFetch => 3 | readahead.TRelease => 2 | readahead.TDelete => 1 | readahead.TDone => 0
  end.
Definition ahead_rank (a : readahead.state) : Z := msum kick_rank (readahead.kicks a) + msum task_rank (readahead.tasks a).
(** The calls the kicks may still make. *)
Definition ahead_ids (a : readahead.state) : Z := msum (fun k => left_in k.2) (readahead.kicks a).

Section rank.
Context (f : Fetcher) (rd : readahead.Readahead).
Abbreviation C := (chunkSize f).
Abbreviation wk := (workers f).
Abbreviation U := (budget.units_cap (budget f)).
#[local] Instance svc_this : Machine service.state service.event :=
  service.service_machine C wk (writeGuardTimeout f).
#[local] Instance this : Machine state event := system_machine f rd.

(** The chunks a stream may kick when it ends. *)
Definition to_kick (c : client) : Z :=
  match cl_pc c with PStreaming => Z.max 0 (readahead.chunks rd) | _ => 0 end.
Definition client_rank (c : client) : Z :=
  match cl_pc c with PStreaming => 1 + 47 * to_kick c | _ => 0 end.

Definition rank (s : state) : Z :=
  servicelive.rank C (svc s) + ahead_rank (ahead s) + msum client_rank (clients s).

(** The calls that may be numbered yet, as in [servicelive.ids]. *)
Definition ids (s : state) : Z :=
  servicelive.ids C (svc s) + 2 * (ahead_ids (ahead s) + msum to_kick (clients s)).
Definition room (s : state) : Prop := 2 * ids s + 2 <= int32_max.

Lemma left_in_nonneg pc : 0 <= left_in pc.
Proof. destruct pc; simpl; lia. Qed.
Lemma to_kick_nonneg c : 0 <= to_kick c.
Proof. unfold to_kick. destruct (cl_pc c); lia. Qed.

Lemma system_rank_nonneg s : serviceinv.SInv C wk (svc s) -> 0 <= rank s.
Proof.
  intros HS. pose proof (servicelive.service_rank_nonneg C wk (svc s) HS).
  assert (0 <= msum kick_rank (readahead.kicks (ahead s))).
  { apply msum_nonneg. intros i [q pc] _. unfold kick_rank. destruct pc; simpl; lia. }
  assert (0 <= msum task_rank (readahead.tasks (ahead s))).
  { apply msum_nonneg. intros i x _. unfold task_rank. destruct (readahead.tk_pc x); lia. }
  assert (0 <= msum client_rank (clients s)); [|unfold rank, ahead_rank; lia].
  apply msum_nonneg. intros i c _. unfold client_rank. pose proof (to_kick_nonneg c). destruct (cl_pc c); lia.
Qed.

Lemma room_svc s : room s -> servicelive.room C (svc s).
Proof.
  unfold room, servicelive.room, ids. intros Hr.
  assert (0 <= ahead_ids (ahead s)) by (apply msum_nonneg; intros; apply left_in_nonneg).
  assert (0 <= msum to_kick (clients s)) by (apply msum_nonneg; intros; apply to_kick_nonneg). lia.
Qed.

Lemma kick_loop_length n i from last : (length (readahead.kick_loop n i from last) <= n)%nat.
Proof.
  revert i. induction n as [|n IH]; intros i; simpl; [lia|]. destruct (_ <? _); simpl; [lia|].
  specialize (IH (i ⊕ 1)). lia.
Qed.

Lemma Kick_length c from total :
  Z.of_nat (length (readahead.Kick (Some rd) c from total)) <= Z.max 0 (readahead.chunks rd).
Proof.
  unfold readahead.Kick. destruct (_ || _); simpl; [lia|].
  pose proof (kick_loop_length (Z.to_nat (readahead.chunks rd)) 0 from ((total ⊖ 1) ÷₆₄ c)). lia.
Qed.

(** A call made for the readahead. *)
Lemma fetch_rank x k v a b y :
  servicelive.good C wk U x -> exec x (service.Fetch (fl.EFetch k v a b)) = Some y ->
  servicelive.rank C y = servicelive.rank C x + 40 /\ servicelive.ids C y = servicelive.ids C x + 2.
Proof.
  intros (_ & HF & _) He. cbn in He. destruct (fl.fetch _ _ _ _ _ _) as [g|] eqn:Hf; [|done]. injection He as <-.
  unfold fl.fetch in Hf. destruct (_ && _); [|done]. injection Hf as <-.
  destruct (flinv.i_ids _ _ _ HF (fl.next (service.fetches x)) (le_n _)) as (_ & Hnew & _).
  unfold servicelive.rank, servicelive.ids, fllive.rank, fllive.ids. simpl. rewrite !(msum_insert_new _ _ _ _ Hnew).
  unfold fllive.caller_rank, fllive.pending, fllive.claim_rank. simpl. lia.
Qed.

(** ** Every step goes down *)

(** The server's own steps: no new request, no answer of S3 to a metadata
    request, no timeout of a prefetch and no eviction. *)
Definition ours (e : event) : Prop :=
  match e with
  | Step e => servicelive.ours e
  | Finish _ => True
  | Ahead e => match e with readahead.EKick _ _ _ => False | _ => True end
  | _ => False
  end.

Lemma set_kick_rank (a : readahead.state) id q pc pc' k :
  readahead.kicks a !! id = Some (q, pc) -> k = <[id := (q, pc')]> (readahead.kicks a) ->
  msum kick_rank k = msum kick_rank (readahead.kicks a) - kick_rank (q, pc) + kick_rank (q, pc') /\
  msum (fun k => left_in k.2) k = msum (fun k => left_in k.2) (readahead.kicks a) - left_in pc + left_in pc'.
Proof. intros Hk ->. by rewrite !(msum_insert_old _ _ _ _ _ Hk). Qed.

(** The readahead alone; a select also makes a call. *)
Lemma ahead_down (a : readahead.state) e a' :
  exec (Machine:=readahead.readahead_machine rd C) a e = Some a' ->
  match e with readahead.EKick _ _ _ => False | _ => True end ->
  let n := match e with
           | readahead.ESelect _ t => match readahead.tasks a' !! t with Some _ => 1 | None => 0 end
           | _ => 0
           end in
  ahead_rank a' + 40 * n < ahead_rank a /\ ahead_ids a' + n <= ahead_ids a.
Proof.
  intros He Hne. destruct e; cbn in He; try done; unfold ahead_rank, ahead_ids.
  - unfold readahead.lookup in He. destruct (readahead.kicks a !! id) as [[q pc]|] eqn:Hk; [|done]. simpl in He.
    destruct pc as [[|c rest]| | |]; try done. injection He as <-. simpl.
    edestruct (set_kick_rank a id q _ (if hit then readahead.KNext rest else readahead.KMissed c rest) _ Hk eq_refl) as [-> ->].
    unfold kick_rank. destruct hit; simpl; lia.
  - unfold readahead.dedup in He. destruct (readahead.kicks a !! id) as [[q pc]|] eqn:Hk; [|done]. simpl in He.
    destruct pc as [|c rest| |]; try done. destruct (readahead.dedupKey _ _ _) as [dk|]; [|done]. simpl in He.
    destruct (decide _); injection He as <-; simpl.
    + edestruct (set_kick_rank a id q _ (readahead.KNext rest) _ Hk eq_refl) as [-> ->]. unfold kick_rank. simpl. lia.
    + edestruct (set_kick_rank a id q _ (readahead.KClaimed dk c rest) _ Hk eq_refl) as [-> ->]. unfold kick_rank. simpl. lia.
  - unfold readahead.select in He. destruct (readahead.kicks a !! id) as [[q pc]|] eqn:Hk; [|done]. simpl in He.
    destruct pc as [| |dk c rest|]; try done. destruct (readahead.tasks a !! t) eqn:Ht; [done|].
    destruct (_ <? _).
    + injection He as <-. simpl. rewrite lookup_insert_eq.
      rewrite (msum_insert_new _ _ _ _ Ht).
      edestruct (set_kick_rank a id q _ (readahead.KNext rest) _ Hk eq_refl) as [-> ->]. unfold kick_rank, task_rank. simpl. lia.
    + injection He as <-. simpl. rewrite Ht.
      edestruct (set_kick_rank a id q _ (readahead.KDrop dk rest) _ Hk eq_refl) as [-> ->]. unfold kick_rank. simpl. lia.
  - unfold readahead.drop_key in He. destruct (readahead.kicks a !! id) as [[q pc]|] eqn:Hk; [|done]. simpl in He.
    destruct pc as [| | |dk rest]; try done. injection He as <-. simpl.
    edestruct (set_kick_rank a id q _ (readahead.KNext rest) _ Hk eq_refl) as [-> ->]. unfold kick_rank. simpl. lia.
  - unfold readahead.fetched in He. destruct (readahead.tasks a !! t) as [x|] eqn:Ht; [|done]. simpl in He.
    destruct (readahead.tk_pc x) eqn:Hp; try done. injection He as <-. simpl. rewrite (msum_insert_old _ _ _ _ _ Ht).
    unfold task_rank. rewrite Hp. simpl. lia.
  - unfold readahead.release_sem in He. destruct (readahead.tasks a !! t) as [x|] eqn:Ht; [|done]. simpl in He.
    destruct (readahead.tk_pc x) eqn:Hp; try done. destruct (_ <? _); [|done]. injection He as <-. simpl.
    rewrite (msum_insert_old _ _ _ _ _ Ht). unfold task_rank. rewrite Hp. simpl. lia.
  - unfold readahead.delete_key in He. destruct (readahead.tasks a !! t) as [x|] eqn:Ht; [|done]. simpl in He.
    destruct (readahead.tk_pc x) eqn:Hp; try done. injection He as <-. simpl. rewrite (msum_insert_old _ _ _ _ _ Ht).
    unfold task_rank. rewrite Hp. simpl. lia.
Qed.

(** A stream ends, and kicks its readahead. *)
Lemma finish_down s r s' :
  finish f rd r s = Some s' -> svc s' = svc s /\ rank s' < rank s /\ ids s' <= ids s.
Proof.
  intros He. unfold finish in He. destruct (clients s !! r) as [c|] eqn:Hr; [|done]. cbn [mbind option_bind] in He.
  destruct (service.runs (svc s) !! r) as [q|]; [|done]. cbn [mbind option_bind] in He.
  destruct (cl_pc c) eqn:Hp; try done. destruct (serve.cons (service.sr q)) as [| | | |err]; try done.
  set (c' := at_pc _ c) in He.
  assert (msum client_rank (<[r := c']> (clients s)) =
            msum client_rank (clients s) - (1 + 47 * Z.max 0 (readahead.chunks rd)) /\
          msum to_kick (<[r := c']> (clients s)) = msum to_kick (clients s) - Z.max 0 (readahead.chunks rd)) as [H1 H2].
  { rewrite !(msum_insert_old _ _ _ _ _ Hr). unfold client_rank, to_kick. rewrite Hp. simpl. lia. }
  destruct err as [err|]; [injection He as <-; split; [done|]; unfold rank, ids; simpl; rewrite H1, H2; lia|].
  destruct (exec (ahead s) _) as [a|] eqn:Ha; [|done]. injection He as <-. split; [done|].
  cbn in Ha. unfold readahead.kick in Ha. destruct (readahead.kicks (ahead s) !! r) eqn:Hk; [done|]. injection Ha as <-.
  unfold rank, ids, ahead_rank, ahead_ids. simpl. rewrite !(msum_insert_new _ _ _ _ Hk), H1, H2. unfold kick_rank. simpl.
  pose proof (Kick_length C (lastChunkIdx C (service.sr_st q) ⊕ 1) (st_total (service.sr_st q))). simpl in *. lia.
Qed.

(** What an own step does to the service is one of its own, or the call of a
    prefetch. *)
Lemma ours_svc s e s' :
  servicelive.good C wk U (svc s) -> ours e -> exec s e = Some s' ->
  rank s' < rank s /\ ids s' <= ids s /\
  (svc s' = svc s \/ exists e', exec (svc s) e' = Some (svc s') /\ forall r st ok w, e' <> service.Begin r st ok w).
Proof.
  intros HG Ho He. destruct e as [| |e|r|e|]; try done.
  - change (step f e s = Some s') in He. unfold step in He. destruct (stepped e) eqn:Hst; [|done].
    destruct (exec (svc s) e) as [x|] eqn:Hx; [|done]. injection He as <-.
    destruct (servicelive.ours_rank C wk (writeGuardTimeout f) U (svc s) e x HG Ho Hx).
    split; [unfold rank; simpl; lia|]. split; [unfold ids; simpl; lia|]. right. exists e. split; [exact Hx|]. by intros r st ok w ->.
  - apply finish_down in He as (Hs & ? & ?). split; [done|]. split; [done|]. by left.
  - change (ahead_step f rd e s = Some s') in He. unfold ahead_step in He.
    destruct (exec (ahead s) e) as [a|] eqn:Ha; [|done]. cbn [mbind option_bind] in He.
    destruct (ahead_down (ahead s) e a Ha Ho) as [Hd Hi].
    assert (forall y p, s' = {| svc := y; hc := hc s; ahead := a; clients := clients s; prefetches := p |} ->
      rank s' = rank s - servicelive.rank C (svc s) + servicelive.rank C y - ahead_rank (ahead s) + ahead_rank a /\
      ids s' = ids s - servicelive.ids C (svc s) + servicelive.ids C y + 2 * (ahead_ids a - ahead_ids (ahead s))) as Hs'.
    { intros y p ->. unfold rank, ids. simpl. lia. }
    destruct e; try done; try (injection He as <-; destruct (Hs' (svc s) (prefetches s) eq_refl); simpl in *; split; [lia|split; [lia|by left]]).
    + destruct (readahead.tasks a !! t) as [x|] eqn:Ht.
      * destruct (exec (svc s) _) as [y|] eqn:Hy; [|done]. injection He as <-.
        destruct (fetch_rank _ _ _ _ _ _ HG Hy). destruct (Hs' y _ eq_refl). split; [lia|]. split; [lia|]. right. by eexists.
      * injection He as <-. destruct (Hs' (svc s) (prefetches s) eq_refl). simpl in *. split; [lia|split; [lia|by left]].
    + destruct (prefetches s !! t) as [j|]; [|done]. cbn [mbind option_bind] in He.
      destruct (exec (svc s) _) as [y|] eqn:Hy; [|done]. injection He as <-.
      destruct (servicelive.ours_rank C wk (writeGuardTimeout f) U (svc s) (service.Fetch (fl.EClose j)) y HG I Hy). destruct (Hs' y _ eq_refl).
      split; [lia|]. split; [lia|]. right. by eexists.
Qed.

Lemma system_ours_down s e s' :
  servicelive.good C wk U (svc s) /\ room s -> ours e -> exec s e = Some s' ->
  (servicelive.good C wk U (svc s') /\ room s') /\ (Z.to_nat (rank s') < Z.to_nat (rank s))%nat.
Proof.
  intros [HG Hroom] Ho He. destruct (ours_svc s e s' HG Ho He) as (Hr & Hi & Hsvc).
  assert (room s') as Hroom' by (unfold room in *; lia). pose proof HG as (HS & HF & Hsm).
  assert (serviceinv.SInv C wk (svc s')) as HS'.
  { destruct Hsvc as [->|(e' & He' & Hb)]; [done|]. eapply serviceinv.service_step; [done|exact He'|].
    destruct e'; try done. by edestruct Hb. }
  pose proof (system_rank_nonneg s' HS'). split; [|lia]. split; [|done]. split; [done|].
  pose proof (servicelive.service_small C wk (svc s') HS' (room_svc s' Hroom')) as Hsm'. split; [|done].
  destruct Hsvc as [->|(e' & He' & _)]; [done|].
  destruct (serviceinv.service_fetches C wk (writeGuardTimeout f) _ _ _ He') as [fes Hf]. by eapply serviceinv.fetches_Inv.
Qed.

(** ** The end is reached *)

Definition no_asking (s : state) : Prop := map_Forall (fun _ c => not_asking c) (clients s).

Lemma ours_no_asking s e s' : no_asking s -> ours e -> exec s e = Some s' -> no_asking s'.
Proof.
  intros Hn Ho He. destruct e as [| |e|r|e|]; try done; cbn in He.
  - unfold step in He. destruct (stepped e); [|done]. destruct (exec (svc s) e); [|done]. by injection He as <-.
  - unfold finish in He. destruct (clients s !! r) as [c|]; [|done]. simpl in He.
    destruct (service.runs (svc s) !! r) as [q|]; [|done]. simpl in He.
    destruct (cl_pc c); try done. destruct (serve.cons (service.sr q)) as [| | | |[err|]]; try done.
    + injection He as <-. by apply map_Forall_insert_2.
    + destruct (exec (ahead s) _) as [a|]; [|done]. injection He as <-. by apply map_Forall_insert_2.
  - unfold ahead_step in He. destruct (exec (ahead s) e) as [a|]; [|done]. simpl in He.
    destruct e; try (by injection He as <-); [done| |].
    + destruct (readahead.tasks a !! t); [|by injection He as <-]. destruct (exec (svc s) _); [|done]. by injection He as <-.
    + destruct (prefetches s !! t); [|done]. simpl in He. destruct (exec (svc s) _); [|done]. by injection He as <-.
Qed.

(** Steps that any S3 and any disk allow: chunks are not found in the cache,
    and downloads fail. *)
Definition tame (e : event) : Prop :=
  match e with
  | Step (service.Fetch (fl.ELookup _ r)) => r = fl.LkMiss
  | Step (service.Fetch (fl.EDownload _ r _)) => exists err, r = inl err
  | _ => True
  end.

Lemma tame_honest object legacy_ok s e : ours e /\ tame e -> honest f rd object legacy_ok s e.
Proof.
  intros [Ho Ht]. destruct e as [| |[[]| | |]| | |]; try done.
  - simpl in Ht. by subst.
  - by destruct Ht as [err ->].
Qed.

Lemma step_fetch s e :
  stepped (service.Fetch e) = true -> service.free (svc s) e = true ->
  is_Some (exec s (Step (service.Fetch e))) <->
  is_Some (exec (Machine:=fl.flights_machine C) (service.fetches (svc s)) e).
Proof.
  intros Hst Hf. change (exec s (Step (service.Fetch e))) with (step f (service.Fetch e) s). unfold step. rewrite Hst.
  cbn. rewrite Hf. unfold exec. destruct (fl.flights_machine C (service.fetches (svc s)) e); simpl; [|done].
  by split; intros _; eexists.
Qed.

Lemma tame_move s e :
  no_asking s -> forward e -> is_Some (exec s e) ->
  exists e', (forward e' /\ ours e' /\ tame e') /\ is_Some (exec s e').
Proof.
  intros Hn Hf He. destruct e as [|r env|e|r|e|]; try done.
  - exfalso. destruct He as [s' He]. change (metadata f r env s = Some s') in He. unfold metadata in He.
    destruct (clients s !! r) as [c|] eqn:Hc; [|done]. simpl in He. specialize (Hn r c Hc). unfold not_asking in Hn.
    by destruct (cl_pc c).
  - destruct e as [e| | |]; [|done|exists (Step (service.Serve r e)); done|exists (Step (service.Deliver r i now)); done].
    destruct e; try done; try (by eexists (Step (service.Fetch _)); split; [|exact He]).
    + exists (Step (service.Fetch (fl.ELookup i fl.LkMiss))). split; [done|]. rewrite !step_fetch in * by done.
      cbn in *. unfold fl.lookup in *. destruct (fl.callers _ !! i) as [c|]; [|by destruct He].
      simpl in *. by destruct (fl.c_pc c); try by destruct He.
    + exists (Step (service.Fetch (fl.EDownload i (inl IoEOF) None))). split; [split; [done|split; [done|by eexists]]|].
      rewrite !step_fetch in * by done. cbn in *. unfold fl.lead_download, fl.with_lead in *.
      destruct (fl.leads _ !! i) as [l|]; [|by destruct He]. simpl in *. by destruct (fl.l_pc l); try by destruct He.
  - by exists (Finish r).
  - by exists (Ahead e).
Qed.

(** What holds while the last requests are served. *)
Section ending.
Context (object : string -> string -> bytes) (legacy_ok : string -> string -> Prop).
Hypothesis HC : 0 < C /\ C <= int64_max.
Hypothesis Hrd : 0 <= readahead.chunks rd.

Record ending (s : state) : Prop := {
  n_data : YInv f rd object legacy_ok s;
  n_live : LInv f rd s;
  n_known : no_asking s;
  n_room : servicelive.good C wk U (svc s) /\ room s;
}.

Lemma ending_step s e s' :
  ending s -> forward e /\ ours e /\ tame e -> exec s e = Some s' ->
  ending s' /\ (Z.to_nat (rank s') < Z.to_nat (rank s))%nat.
Proof.
  intros [HY HL Hn HG] (_ & Ho & Ht) He. destruct (system_ours_down s e s' HG Ho He) as [HG' Hlt]. split; [|done]. split; [| | |done].
  - apply (system_YInv f rd object legacy_ok HC Hrd s e s' HY); [by apply tame_honest|apply HG'|done].
  - apply (system_LInv f rd s e s' HL); [apply HG|done].
  - by eapply ours_no_asking.
Qed.

Lemma ending_moves s : ending s -> ~ all_done s -> exists e s', (forward e /\ ours e /\ tame e) /\ exec s e = Some s'.
Proof.
  intros [HY HL Hn [HG _]] Hnd.
  destruct (system_progress f rd object legacy_ok s HY HL) as (e & Hf & He); [apply HG|apply HC..|done|].
  destruct (tame_move s e Hn Hf He) as (e' & He' & s' & Hs'). by exists e', s'.
Qed.
End ending.
End rank.

(** C4: the server finishes: once no request arrives any more and no metadata
    is given, every schedule of the steps the server itself can take, those
    of its streams, calls, upstream requests, queue timeouts and prefetches,
    is at most [rank s] steps long; and when every request has its metadata,
    such steps, without any timeout, lead to a state in which every request
    is answered and nothing goes on behind them. *)
Theorem system_terminates f rd object legacy_ok d s :
  reachable f rd object legacy_ok d s -> room f rd s ->
  (forall es s', Forall ours es -> run (H:=system_machine f rd) s es = Some s' -> Z.of_nat (length es) <= rank f rd s) /\
  (no_asking s -> exists es s', Forall forward es /\ run (H:=system_machine f rd) s es = Some s' /\
     reachable f rd object legacy_ok d s' /\ all_done s').
Proof.
  intros Hr Hroom. destruct (reachable_LInv _ _ _ _ _ _ Hr) as [HY HL].
  destruct Hr as (H1 & H2 & H3 & Hh & Hrd & Hd & es0 & Ha0 & Hr0 & Hsm).
  assert (servicelive.good (chunkSize f) (workers f) (budget.units_cap (budget f)) (svc s)) as HG.
  { pose proof (y_svc _ _ _ _ s HY) as [HS HF _ _]. by split. }
  assert (0 < chunkSize f /\ chunkSize f <= int64_max) as HC by (split; [done|nia]).
  pose proof (system_rank_nonneg f rd s (proj1 HG)).
  assert (forall es s', Forall ours es -> run (H:=system_machine f rd) s es = Some s' ->
    small s' /\ Z.of_nat (length es) <= rank f rd s) as Hbound.
  { intros es s' Hes Hrun.
    destruct (@run_bounded _ _ (system_machine f rd) _ ours (fun s => Z.to_nat (rank f rd s)) s es s'
      (system_ours_down f rd) (conj HG Hroom) Hes Hrun) as [[HG' _] Hlen]. split; [apply HG'|lia]. }
  split; [intros es s' Hes Hrun; by apply (Hbound es s')|]. intros Hn.
  destruct (@run_reaches _ _ (system_machine f rd) (ending f rd object legacy_ok)
    (fun e => forward e /\ ours e /\ tame e) (fun s => Z.to_nat (rank f rd s)) all_done s) as (es & s' & Hes & Hrun & Hfin).
  - intros s0. unfold all_done. apply _.
  - by apply ending_step.
  - by apply ending_moves.
  - by split.
  - exists es, s'. split; [eapply Forall_impl; [exact Hes|by intros ? [? _]]|]. split; [done|]. split; [|done].
    do 6 (split; [done|]). exists (es0 ++ es). split; [|split; [by rewrite run_app, Hr0|]].
    + eapply along_join; [done|done|]. apply (along_all _ (fun e => ours e /\ tame e)).
      * intros s0 e. apply tame_honest.
      * eapply Forall_impl; [exact Hes|by intros ? [_ ?]].
    + apply (Hbound es s'); [|done]. eapply Forall_impl; [exact Hes|by intros ? (_ & ? & _)].
Qed.

(** From where the first client's second chunk waits for its unit. *)
Lemma system_terminates_witness :
  exists es s', Forall forward es /\
    run (H:=system_machine system_examples.f system_examples.rd) (system_examples.after system_examples.asked) es = Some s' /\
    all_done s'.
Proof.
  destruct (system_terminates system_examples.f system_examples.rd (fun _ _ => service.service_examples.obj) (fun _ _ => False)
      ∅ (system_examples.after system_examples.asked)) as [_ Hend].
  - apply (example_reachable system_examples.asked); [vm_compute; reflexivity|vm_compute; reflexivity|vm_compute; discriminate].
  - vm_compute. discriminate.
  - destruct Hend as (es & s' & Hf & Hr & _ & Hd); [|by exists es, s'].
    apply (bool_decide_unpack (map_Forall (fun _ c => not_asking c) (clients (system_examples.after system_examples.asked)))).
    vm_compute. exact I.
Defined.
End systemend.
