(* ===== verification/ServiceStore.v ===== *)
(** * The service and the server over the real disk

    The streams and the server host the fetches (see [Hosts] in StoreRef.v):
    what is proved of the server over a map of chunk files holds over the file
    system, whose every call may fail. *)
From S2P Require Import Prelude GoStd GoTime Http Path Sha1 Fs DiskCache Request HeadCache Budget Singleflight Chunk Flights FlightsInv FlightsProps FlightsLive FlightsData Evictor Store StoreCalls StoreRef WriteGuard Fetcher Serve ServeInv ServeOut ServeLive Readahead Web Service ServiceInv ServiceLive ServiceOut System SystemOut SystemLive.

Module servicestore.
Import chunk fl flinv store storecalls storeref.

(** ** Steps of the fetches that do not look at the disk, in sequence *)
Section plain.
Context (C : Z).
#[local] Abbreviation frun := (run (H:=flights_machine C)).
#[local] Abbreviation fexec := (exec (Machine:=flights_machine C)).

Definition all_plain (es : list fl.event) : Prop := Forall (fun e => plain e = true) es.

Lemma plain_step_on d (s : fl.state) (e : fl.event) : plain e = true -> fexec (fl_on d s) e = fl_on d <$> fexec s e.
Proof. apply (plain_on C d s e). Qed.

Lemma plain_run_on d s es : all_plain es -> frun (fl_on d s) es = fl_on d <$> frun s es.
Proof.
  intros Hes. revert s. induction Hes as [|e es He Hes IH]; intros s; [done|]. cbn [run].
  rewrite plain_step_on by done. destruct (fexec s e) as [s1|]; [apply IH|done].
Qed.

Lemma plain_run_opens s es s' : all_plain es -> frun s es = Some s' -> opens_none (hp s) (hp s').
Proof.
  intros Hes. revert s. induction Hes as [|e es He Hes IH]; intros s; simpl; [by intros [= ->]|].
  destruct (fexec s e) as [s1|] eqn:Hs; [|done]. simpl. intros Hr. etrans; [by eapply plain_opens_none|by apply IH].
Qed.

Lemma run_next (s : fl.state) es s' : frun s es = Some s' -> (next s <= next s')%nat.
Proof.
  revert s. induction es as [|e es IH]; intros s; simpl; [by intros [= ->]|].
  destruct (fexec s e) as [s1|] eqn:He; [|done]. simpl. intros Hr%IH. apply next_mono in He. lia.
Qed.
End plain.

(** ** The service *)

#[global] Instance service_hosting : Hosting service.state service.event := {|
  fetches_of := service.fetches;
  with_fetches f s := {| service.fetches := f; service.runs := service.runs s |};
  fetch_event := service.Fetch;
  as_fetch e := match e with service.Fetch e => Some e | _ => None end;
  probes _ _ := None;
|}.

Lemma effects_plain C q e sv : all_plain (service.effects C q e sv).
Proof.
  unfold all_plain, service.effects. rewrite !Forall_app. split; [|split].
  - unfold service.call_by. destruct e; try by constructor. destruct (serve.disp sv); try by constructor.
  - by apply Forall_fmap, Forall_true.
  - unfold service.cancelled_by. destruct (serve.gone (service.sr q)), (serve.gone sv); try by constructor.
    by apply Forall_fmap, Forall_true.
Qed.

Section service.
Context (C wk timeout : Z).
#[local] Instance service_this : Machine service.state service.event := service.service_machine C wk timeout.

Lemma service_on d s e :
  plain_event e = true -> exec (on d s) e = on d <$> exec s e.
Proof.
  destruct e as [e|r st ok x|r e|r i now]; intros Hp.
  - change (plain e = true) in Hp. unfold exec, service_this, service.service_machine.
    change (service.free (on d s) e) with (service.free s e). destruct (service.free s e); [|done].
    change (service.fetches (on d s)) with (fl_on d (service.fetches s)). rewrite plain_on by done.
    by destruct (exec (service.fetches s) e).
  - unfold exec, service_this, service.service_machine. simpl. by destruct (service.runs s !! r).
  - change (service.serve_step C wk r e (on d s) = on d <$> service.serve_step C wk r e s).
    unfold service.serve_step. change (service.runs (on d s)) with (service.runs s).
    destruct (service.runs s !! r) as [q|]; [|done]. cbn [mbind option_bind].
    change (service.permitted (on d s) q e) with (service.permitted s q e). destruct (service.permitted s q e); [|done].
    change (serve.serve_machine C wk (service.sr_st q) (hp (service.fetches (on d s))) (service.sr_ok q))
      with (serve.serve_machine C wk (service.sr_st q) (hp (service.fetches s)) (service.sr_ok q)).
    destruct (exec (service.sr q) e) as [sv|]; [|done]. simpl.

    rewrite (plain_run_on C d (service.fetches s) _ (effects_plain C q e sv)).
    by destruct (run (service.fetches s) _).
  - change (service.deliver_step C wk r i now (on d s) = on d <$> service.deliver_step C wk r i now s).
    unfold service.deliver_step. simpl. destruct (service.runs s !! r) as [q|]; [|done]. simpl.
    destruct (service.calls q !! i) as [j|]; [|done]. simpl.
    destruct (callers (service.fetches s) !! j) as [c|]; [|done]. simpl. destruct (c_pc c); try done.
    match goal with |- exec ?a ?b ≫= _ = _ => destruct (exec a b) as [sv|] end; [|done]. simpl.
    rewrite (plain_run_on C d (service.fetches s)); [by destruct (run (service.fetches s) _)|].
    destruct (err cr); by repeat constructor.
Qed.

(** What the other steps do to the fetches is a run of plain steps. *)
Lemma service_runs s e s' :
  plain_event e = true -> exec s e = Some s' ->
  exists es, all_plain es /\ run (H:=flights_machine C) (service.fetches s) es = Some (service.fetches s').
Proof.
  destruct e as [e|r st ok x|r e|r i now]; intros Hp He.
  - unfold exec, service_this, service.service_machine in He. destruct (service.free s e); [|done].
    destruct (exec (service.fetches s) e) as [f|] eqn:Hf; [|done]. injection He as <-. exists [e].
    split; [by constructor; [exact Hp|constructor]|]. simpl. by rewrite Hf.
  - unfold exec, service_this, service.service_machine in He. destruct (service.runs s !! r); [done|].
    injection He as <-. exists []. split; [constructor|done].
  - change (service.serve_step C wk r e s = Some s') in He. unfold service.serve_step in He.
    destruct (service.runs s !! r) as [q|]; [|done]. simpl in He. destruct (service.permitted s q e); [|done].
    destruct (exec (service.sr q) e) as [sv|]; [|done]. simpl in He.
    destruct (run (service.fetches s) _) as [f|] eqn:Hf; [|done]. injection He as <-.
    exists (service.effects C q e sv). split; [apply effects_plain|done].
  - change (service.deliver_step C wk r i now s = Some s') in He. unfold service.deliver_step in He.
    destruct (service.runs s !! r) as [q|]; [|done]. simpl in He. destruct (service.calls q !! i) as [j|]; [|done]. simpl in He.
    destruct (callers (service.fetches s) !! j) as [c|]; [|done]. simpl in He. destruct (c_pc c); try done.
    match type of He with exec ?a ?b ≫= _ = _ => destruct (exec a b) as [sv|] end; [|done]. simpl in He.
    destruct (run (service.fetches s) _) as [f|] eqn:Hf; [|done]. injection He as <-.
    eexists. split; [|exact Hf]. destruct (err cr); by repeat constructor.
Qed.

(** Its steps of the fetches that do look at the disk are just these. *)
Lemma service_fetch s e :
  plain e = false ->
  exec s (service.Fetch e) = (fun f => with_fetches f s) <$> exec (Machine:=flights_machine C) (service.fetches s) e.
Proof.
  intros Hp. unfold exec, service_this, service.service_machine.
  assert (service.free s e = true) as -> by (by destruct e).
  unfold exec. by destruct (flights_machine C (service.fetches s) e).
Qed.

Lemma service_next s e s' : exec s e = Some s' -> (next (service.fetches s) <= next (service.fetches s'))%nat.
Proof.
  intros He. destruct (plain_event e) eqn:Hp.
  - destruct (service_runs s e s' Hp He) as (es & _ & Hr). by eapply run_next.
  - destruct e as [e| | |]; try done. rewrite service_fetch in He by done.
    apply fmap_Some in He as (f & Hf & ->). by eapply next_mono.
Qed.

#[global] Instance service_hosts : Hosts C service_hosting service_this.
Proof.
  split; try done.
  - by intros [].
  - intros e e0 Ha. by destruct e; simpl in Ha; simplify_eq.
  - apply service_fetch.
  - apply service_on.
  - intros s e s' Hp He. destruct (service_runs s e s' Hp He) as (es & Hes & Hr). by eapply plain_run_opens.
  - apply service_next.
Qed.
End service.

(** ** The server *)

Section server.
Context (f : fetcher.Fetcher) (rd : readahead.Readahead).

(** A kick at the head of its loop asks for its next chunk. *)
Definition system_probes (s : system.state) (e : system.event) : option (string * objVersion * Z * bool) :=
  match e with
  | system.Ahead (readahead.ELookup id hit) =>
      match readahead.kicks (system.ahead s) !! id with
      | Some (q, readahead.KNext (c :: _)) =>
          Some (readahead.r_key q, readahead.r_v q,
            (readahead.schedule_span (fetcher.chunkSize f) (readahead.r_total q) c).1, hit)
      | _ => None
      end
  | _ => None
  end.

#[global] Instance system_hosting : Hosting system.state system.event := {|
  fetches_of s := service.fetches (system.svc s);
  with_fetches f s := system.set_svc (with_fetches f (system.svc s)) s;
  fetch_event e := system.Step (service.Fetch e);
  as_fetch e := match e with system.Step e => as_fetch e | _ => None end;
  probes := system_probes;
|}.

#[local] Abbreviation service_this :=
  (service.service_machine (fetcher.chunkSize f) (fetcher.workers f) (fetcher.writeGuardTimeout f)).
#[local] Instance system_this : Machine system.state system.event := system.system_machine f rd.

Lemma svc_on d e (x : service.state) :
  plain_event e = true ->
  exec (Machine:=service_this) (on d x) e = on d <$> exec (Machine:=service_this) x e.
Proof. apply service_on. Qed.

Lemma proceed_on d r c key range md s :
  system.proceed f r c key range md (on d s) = on d <$> system.proceed f r c key range md s.
Proof.
  unfold system.proceed. destruct (web.reply_with _ _ _ _ _); [done|].
  change (system.svc (on d s)) with (on d (system.svc s)). rewrite svc_on by done.
  by destruct (exec (system.svc s) _).
Qed.

Lemma ahead_on d e s : system.ahead_step f rd e (on d s) = on d <$> system.ahead_step f rd e s.
Proof.
  unfold system.ahead_step. change (system.ahead (on d s)) with (system.ahead s).
  destruct (exec (system.ahead s) e) as [a|]; [|done]. cbn [mbind option_bind].
  change (system.svc (on d s)) with (on d (system.svc s)). change (system.prefetches (on d s)) with (system.prefetches s).
  destruct e; try done.
  - destruct (readahead.tasks a !! t) as [x|]; [|done]. rewrite svc_on by done. by destruct (exec (system.svc s) _).
  - destruct (system.prefetches s !! t) as [j|]; [|done]. cbn [mbind option_bind]. rewrite svc_on by done.
    by destruct (exec (system.svc s) _).
Qed.

Lemma system_on d s e : plain_event e = true -> exec (on d s) e = on d <$> exec s e.
Proof.
  destruct e as [r req now ok w|r env|e|r|e|t]; intros Hp.
  - change (system.arrive f r req now ok w (on d s) = on d <$> system.arrive f r req now ok w s).
    unfold system.arrive. change (system.clients (on d s)) with (system.clients s).
    change (system.hc (on d s)) with (system.hc s). destruct (system.clients s !! r); [done|].
    destruct (web.check req w) as [|[key range]]; [done|].
    destruct (fetcher.head_cached now key (system.hc s)); [apply proceed_on|done].
  - change (system.metadata f r env (on d s) = on d <$> system.metadata f r env s).
    unfold system.metadata. change (system.clients (on d s)) with (system.clients s).
    change (system.hc (on d s)) with (system.hc s).
    destruct (system.clients s !! r) as [c|]; [|done]. cbn [mbind option_bind]. destruct (system.cl_pc c); [|done..].
    destruct (fetcher.head_asked env key (system.hc s)) as [h md].
    change (system.set_hc h (on d s)) with (on d (system.set_hc h s)). apply proceed_on.
  - change (system.step f e (on d s) = on d <$> system.step f e s). unfold system.step.
    destruct (system.stepped e); [|done]. change (system.svc (on d s)) with (on d (system.svc s)).
    rewrite svc_on by done. by destruct (exec (system.svc s) e).
  - change (system.finish f rd r (on d s) = on d <$> system.finish f rd r s). unfold system.finish.
    change (system.clients (on d s)) with (system.clients s).
    change (service.runs (system.svc (on d s))) with (service.runs (system.svc s)).
    change (system.ahead (on d s)) with (system.ahead s).
    destruct (system.clients s !! r) as [c|]; [|done]. cbn [mbind option_bind].
    destruct (service.runs (system.svc s) !! r) as [q|]; [|done]. cbn [mbind option_bind].
    destruct (system.cl_pc c); try done. destruct (serve.cons (service.sr q)) as [| | | |err]; try done.
    destruct err; [done|]. match goal with |- exec ?a ?b ≫= _ = _ => by destruct (exec a b) end.
  - apply ahead_on.
  - change (system.ahead_timeout f t (on d s) = on d <$> system.ahead_timeout f t s). unfold system.ahead_timeout.
    change (system.prefetches (on d s)) with (system.prefetches s).
    change (system.svc (on d s)) with (on d (system.svc s)).
    destruct (system.prefetches s !! t) as [j|]; [|done]. cbn [mbind option_bind]. rewrite svc_on by done.
    by destruct (exec (system.svc s) _).
Qed.

(** The steps of the service that the server makes itself open nothing. *)
Lemma svc_plain s e s' :
  exec s e = Some s' ->
  system.svc s' = system.svc s \/
  exists e', exec (Machine:=service_this) (system.svc s) e' = Some (system.svc s') /\
    (plain_event e = true -> plain_event e' = true).
Proof.
  intros [?|(e' & He & Hs)]%systemout.system_svc; [by left|right]. exists e'. split; [done|].
  destruct Hs as [-> |Hs]; [done|]. by destruct e' as [[]| | |].
Qed.

Lemma system_fetch s e :
  plain e = false ->
  exec s (system.Step (service.Fetch e)) =
    (fun g => with_fetches g s) <$> exec (Machine:=flights_machine (fetcher.chunkSize f)) (fetches_of s) e.
Proof.
  intros Hp. change (exec s (system.Step (service.Fetch e))) with (system.step f (service.Fetch e) s).
  unfold system.step. assert (system.stepped (service.Fetch e) = true) as -> by (by destruct e).
  pose proof (service_fetch (fetcher.chunkSize f) (fetcher.workers f) (fetcher.writeGuardTimeout f) (system.svc s) e Hp) as Hf.
  match goal with |- ?a ≫= _ = _ => change a with (exec (Machine:=service_this) (system.svc s) (service.Fetch e)) end.
  etrans; [exact (f_equal (fun o => o ≫= _) Hf)|].
  change (service.fetches (system.svc s)) with (fetches_of s).
  destruct (exec (fetches_of s) e) as [g|]; [|done]. simpl. by destruct e.
Qed.

#[global] Instance system_hosts : Hosts (fetcher.chunkSize f) system_hosting system_this.
Proof.
  split.
  - done.
  - by intros [[] ? ? ? ?].
  - done.
  - intros e e0 Ha Hp. destruct e as [| |e| | |]; try done. by destruct e; simpl in Ha; simplify_eq.
  - apply system_fetch.
  - done.
  - apply system_on.
  - intros s e s' Hp [He|(e' & He & Hpl)]%svc_plain; simpl; [by rewrite He|].
    destruct (service_runs _ _ _ _ _ _ (Hpl Hp) He) as (es & Hes & Hr). by eapply plain_run_opens.
  - intros s e s' [He|(e' & He & _)]%svc_plain; simpl; [by rewrite He|]. by eapply service_next.
Qed.
End server.
End servicestore.
