(* ===== verification/ServerDisk.v ===== *)
(** * The server over the real disk: what its clients are answered

    The whole server with [DiskCache.Get], [Put], the claims, the readahead's
    probes and the evictor's sweeps run on a file system whose every call may
    fail: what was proved of it over a map of chunk files holds of it. *)
From S2P Require Import Prelude GoStd GoTime Http Path Sha1 Fs DiskCache Request HeadCache Budget Singleflight Chunk Flights FlightsInv FlightsProps FlightsLive FlightsData Evictor Store StoreCalls StoreRef WriteGuard Fetcher Serve ServeInv ServeOut ServeLive Readahead Web Service ServiceInv ServiceLive ServiceOut System SystemOut SystemLive ServiceStore.

Module serverdisk.
Import chunk fl flinv store storecalls storeref servicestore.

Section server.
Context (f : fetcher.Fetcher) (rd : readahead.Readahead).
Context (object : string -> string -> bytes) (legacy_ok : string -> string -> Prop).
Context `{TimeLayout} (maxBytes interval : Z).
Context (walk_order : fsys -> string -> list string)
  (walk_perm : forall f root, walk_order f root ≡ₚ evictor.files_below f root)
  (sort_entries : list evictor.fileEntry -> list evictor.fileEntry)
  (sort_perm : forall l, sort_entries l ≡ₚ l)
  (sort_sorted : forall l, StronglySorted (fun a b => evictor.mtime a <= evictor.mtime b) (sort_entries l)).
Context (K : gset chunk_file) (HK : apart K).
Abbreviation C := (fetcher.chunkSize f).
Abbreviation U := (budget.units_cap (fetcher.budget f)).
#[local] Instance this : Machine system.state system.event := system.system_machine f rd.
#[local] Instance host_this : Hosting system.state system.event := system_hosting f.
#[local] Instance hosts_this : Hosts C host_this this := system_hosts f rd.
#[local] Instance disk_this : Machine (store system.state) (devent system.event) :=
  store_machine maxBytes interval walk_order sort_entries.

(** [systemout.honest], where the chunks cached before versioning may be stale.
    Only where a lookup has to fall back on one, that is when the versioned
    chunk cannot be opened and neither the memo of marker times nor a marker
    the shard has says that the object has changed since, it must be a chunk
    of the version asked for, as the comment of [versionMarker] has it. *)
Definition honest_disk (x : store system.state) (e : devent system.event) : Prop :=
  match e with
  | DPlain e _ => systemout.honest f rd object legacy_ok (st x) e
  | DLookup i l => forall c, callers (fetches x) !! i = Some c ->
      is_Some (view K (files x) !! chunk_file_of (c_key c) noVersion (c_start c)) ->
      falls_back (cache x) (c_key c) (c_v c) (c_start c) (start l x) -> legacy_ok (c_key c) (etag (c_v c))
  | _ => True
  end.

Lemma along_one {S E} `{Machine S E} (P : S -> E -> Prop) s e : P s e -> along P s [e].
Proof. intros HP. split; [done|]. by destruct (exec s e). Qed.

Lemma honest_carries x s e es :
  represents K x s -> honest_disk x e -> impl_at x e es -> is_Some (run s es) ->
  along (systemout.honest f rd object legacy_ok) s es.
Proof.
  intros [Hx HR] HQ Hi Hrun. destruct Hi as [e l|e es Hi Hfb].
  { apply along_one. unfold honest_disk in HQ. rewrite Hx in HQ. by destruct e as [| |[e| | |]| | |]. }
  assert (callers (fetches x) = callers (fetches_of s)) as Hcs by (unfold fetches; by rewrite Hx).
  destruct Hi as [i l r|i l o|i l b|l ps]; [apply along_one..|].
  - destruct r as [| |[]]; try done. intros c Hc. apply (HQ c); [by rewrite Hcs| |by apply (Hfb i l c); rewrite ?Hcs].
    rewrite <- (r_disk _ _ _ HR). destruct Hrun as [s' Hrun].
    change (fetch_event <$> [ELookup i (LkHit true)]) with [fetch_event (ELookup i (LkHit true))] in Hrun.
    cbn [run] in Hrun. rewrite (host_fetch (C:=C)) in Hrun by done.
    destruct (exec (fetches_of s) _) as [f'|] eqn:Hl; [|done]. cbn in Hl. unfold lookup in Hl. rewrite Hc in Hl.
    simpl in Hl. destruct (c_pc c); try done. by destruct (disk _ !! _) as [d|] eqn:Hd; [exists d|].
  - done.
  - done.
  - change (fetch_event <$> (EEvict <$> ps)) with (fetch_event <$> (EEvict <$> ps)).
    apply (along_all _ (fun e => exists p, e = fetch_event (EEvict p))); [by intros s0 e [p ->]|].
    rewrite <- list_fmap_compose. apply Forall_fmap, Forall_true. intros p. by exists p.
Qed.

Definition at_start (c : option DiskCache) (fs : fsys) : store system.state := boot c fs (system.init f ∅).

(** A run of the server from its start over the files [fs], in the
    environment of [systemout.reachable]: no file is open, the chunks asked
    for are among those of [K], and if a chunk has copies in several shards at
    the start, they are the same. *)
Record disk_run (c : option DiskCache) (fs : fsys) (es : list (devent system.event)) (x : store system.state) : Prop := {
  d_chunk : 0 < C;
  d_units : 1 <= U;
  d_fits : U * C <= int64_max;
  d_heads : heads.m (fetcher.heads f) = ∅;
  d_ahead : 0 <= readahead.chunks rd;
  d_sound : sound K fs;
  d_closed : fs_handles fs = ∅;
  d_data : fldata.disk_data C object legacy_ok (view K fs);
  d_touches : along (touches K) (at_start c fs) es;
  d_honest : along honest_disk (at_start c fs) es;
  d_run : run (at_start c fs) es = Some x;
  d_small : small_store x;
}.

Lemma start_represents c fs :
  sound K fs -> fs_handles fs = ∅ -> represents K (at_start c fs) (system.init f (view K fs)).
Proof. intros Hs Hh. exact (boot_represents K c fs (system.init f (view K fs)) Hs Hh eq_refl eq_refl eq_refl). Qed.

(** All stores of a chunk are of its own bytes, so they agree. *)
Lemma YInv_agree s : systemout.YInv f rd object legacy_ok s -> puts_agree (fetches_of s).
Proof.
  intros HY i ld b b' Hl Hp Hd. pose proof (systemout.y_svc _ _ _ _ s HY) as [_ _ [[Hdisk _] Hleads _] _].
  destruct (Hleads i ld Hl) as ([Het _] & _ & _ & _ & Hb & _). rewrite (Hb b Hp). by apply Hdisk in Hd.
Qed.

Lemma disk_sim c fs es x :
  disk_run c fs es x ->
  exists ess s, Forall2 impl es ess /\ run (system.init f (view K fs)) (concat ess) = Some s /\
    systemout.reachable f rd object legacy_ok (view K fs) s /\ represents K x s.
Proof.
  intros [H1 H2 H3 H4 H5 Hsd Hh Hd HT HQ Hr Hsm].
  assert (0 < C /\ C <= int64_max) as HC by (split; [done|nia]).
  destruct (run_sim C U maxBytes interval walk_order walk_perm sort_entries sort_perm sort_sorted K HK
    (systemout.YInv f rd object legacy_ok) (systemout.honest f rd object legacy_ok) honest_disk) with (es := es)
    (x := at_start c fs) (x' := x) (s := system.init f (view K fs)) as (ess & s & Hall & Hrun & HP & HR & _); try done.
  - intros s HY. apply (systemout.y_svc _ _ _ _ s HY).
  - apply YInv_agree.
  - intros s e s' HY HP Hs He. by eapply systemout.system_YInv.
  - apply honest_carries.
  - by apply start_represents.
  - by apply systemout.init_YInv.
  - exists ess, s. do 2 (split; [done|]). split; [|done]. do 6 (split; [done|]). exists (concat ess).
    do 2 (split; [done|]). by apply (represents_small C K x s HR).
Qed.

(** C5: the server may be studied over a map of chunk files: whatever the
    system calls of [Get], [Put], the claims, the readahead's probes and the
    evictor's sweeps do, fail or leave half done, every run over the file
    system is, event by event, a run of the server over the map, from the map
    that the files were at the start; it ends with the same clients, streams,
    fetches, budget, metadata cache and readahead, with the map that the files
    now are, and with one open descriptor, reading those very bytes, for each
    file the server holds open, and no other. *)
Theorem disk_refines c fs es x :
  disk_run c fs es x ->
  exists ess s, Forall2 impl es ess /\ run (system.init f (view K fs)) (concat ess) = Some s /\ represents K x s.
Proof. intros (ess & s & ? & ? & _ & ?)%disk_sim. by exists ess, s. Qed.

(** C1: the server meets its contract over the real disk: whatever mixture of
    hits, stores, sweeps and failing system calls, on however many requests,
    every request that was answered was answered as the contract of
    [systemout.answered] says: with 405 or 400 if it asks for nothing, and
    otherwise for one version of the object; in particular a complete [GET]
    got exactly the bytes it asked for, and an incomplete one a prefix of
    them. It is assumed, as there, that S3 tells the truth and that the files
    the cache starts with are what they are named after; and of chunks from
    before versioning, whose names do not say of which version they are, that
    they are of the version asked for where nothing tells the lookup
    otherwise ([honest_disk]): those that the shard's marker time gives away
    may be stale. *)
Theorem disk_answers c fs es x r cl w counted :
  disk_run c fs es x -> system.clients (st x) !! r = Some cl -> system.cl_pc cl = system.PDone w counted ->
  systemout.answered f rd object cl w counted.
Proof.
  intros (ess & s & _ & _ & Hr & [Hx _])%disk_sim Hc Hp. rewrite Hx in Hc.
  pose proof (systemout.y_clients _ _ _ _ s (systemout.reachable_YInv _ _ _ _ _ _ Hr) r cl Hc) as [_ Ha].
  by rewrite Hp in Ha.
Qed.

(** What is finished is so over the disk too. *)
Lemma all_done_on d s : systemlive.all_done (on d s) <-> systemlive.all_done s.
Proof. done. Qed.

Lemma probes_lookup s e p : probes s e = Some p -> exists id hit key v off,
  e = system.Ahead (readahead.ELookup id hit) /\ p = (key, v, off, hit) /\
  forall hit', probes s (system.Ahead (readahead.ELookup id hit')) = Some (key, v, off, hit') /\
    (is_Some (exec s e) -> is_Some (exec s (system.Ahead (readahead.ELookup id hit')))).
Proof.
  intros He. destruct e as [| | | |[|id hit| | | | | |]|]; try done. cbn in He.
  destruct (readahead.kicks (system.ahead s) !! id) as [[q [[|ch rest]| | |]]|] eqn:Hk; try done. injection He as <-.
  exists id, hit. do 3 eexists. split; [done|]. split; [done|]. intros hit'. split; [by cbn; rewrite Hk|]. intros _.
  cbn. unfold system.ahead_step, readahead.lookup. cbn. unfold readahead.lookup. rewrite Hk. by eexists.
Qed.

(** C6: neither the disk nor its failures can block the server: as long as a
    request is unanswered or anything goes on behind one, some step other
    than a new request, an eviction or a timeout can be taken, whatever
    failures its system calls meet. *)
Theorem disk_no_deadlock c fs es x l :
  disk_run c fs es x -> ~ systemlive.all_done (st x) -> Forall survives l ->
  exists e, systemlive.forward e /\ is_Some (exec x (disk_event e l)).
Proof.
  intros (ess & s & _ & _ & Hr & HR)%disk_sim Hnd Hl. pose proof HR as [Hx _].
  destruct (systemlive.reachable_progress f rd object legacy_ok (view K fs) s Hr) as (e & Hf & He).
  { intros Hd. apply Hnd. rewrite Hx. by apply all_done_on. }
  destruct (probes s e) as [p|] eqn:Hp.
  - destruct (probes_lookup s e p Hp) as (id & hit & key & v & off & -> & -> & Hany).
    destruct (probe_enabled C maxBytes interval walk_order sort_entries K x s key v off l HR Hl) as [hit' He'].
    exists (system.Ahead (readahead.ELookup id hit')). split; [done|]. destruct (Hany hit') as [Hp' Hen].
    apply He'; [done|done|by apply Hen].
  - exists e. split; [done|]. pose proof (systemout.reachable_YInv _ _ _ _ _ _ Hr) as HY.
    destruct Hr as (_ & _ & _ & _ & _ & _ & _ & _ & _ & Hsm).
    apply (enabled C U maxBytes interval walk_order sort_entries K x s e l HR); try done.
    + apply (systemout.y_svc _ _ _ _ s HY).
    + intros p. by destruct e as [| |[[]| | |]| | |].
Qed.

(** C7: when every request is answered and all that went on behind them is
    over, nothing is left, whatever system calls failed on the way: no
    descriptor is open in the process, no flight is live, no unit or byte of
    the budget is held and no call is registered. *)
Theorem no_descriptor_leak c fs es x :
  disk_run c fs es x -> systemlive.all_done (st x) ->
  fs_handles (files x) = ∅ /\ fds x = ∅ /\ flprops.clean (fetches x).
Proof.
  intros (ess & s & _ & _ & Hr & HR)%disk_sim Hd. pose proof HR as [Hx HB]. rewrite Hx in Hd. destruct Hd as [[Hq _] _].
  pose proof (systemout.reachable_YInv _ _ _ _ _ _ Hr) as HY. pose proof (systemout.y_svc _ _ _ _ s HY) as [_ HI _ _].
  pose proof (flprops.quiescent_clean _ _ _ HI Hq) as Hcl.
  split; [by eapply quiescent_closed|]. unfold fetches. rewrite Hx. split; [|done].
  apply map_empty. intros n. apply eq_None_not_Some. intros [fd Hn%(o_held _ _ _ (r_fds _ _ _ HB))].
  destruct Hcl as [He _]. change (handles (hp (fetches_of s))) with (handles (hp (service.fetches (system.svc s)))) in Hn.
  rewrite He in Hn. by destruct Hn.
Qed.
End server.

(** ** The clients of [system_examples], from an empty cache of two shards

    The first chunk cannot be stored and is served from memory; the others
    are, until a sweep removes one of them, which the second client's prefetch
    fetches again. *)
Module disk_examples.
Import system.system_examples.
#[local] Instance hosted : Hosting system.state system.event := system_hosting f.
#[local] Instance map_machine : Machine system.state system.event := system.system_machine f rd.
Definition K : gset chunk_file :=
  {[ ("k", "e1", 0); ("k", "e1", 4); ("k", "e1", 8); ("k", "", 0); ("k", "", 4); ("k", "", 8) ]}.
(** A chunk of an older version of the object, from before versioning: the
    shards' markers are of the time 50, the object was uploaded again at 60. *)
Definition stale : string := chunk_path "/webtor/data1/s3-cache" "k" noVersion 4.
Definition fs0 : fsys :=
  {| fs_dirs := list_to_set (["/webtor/data1"; "/webtor/data2"] ++ ancestors (filepath.Dir stale));
     fs_files := {[ stale := 0%nat ]}; fs_inodes := {[ 0%nat := Inode (list_byte_of_string "old!") 40 ]};
     fs_handles := ∅; fs_next := 1; fs_now := 100; fs_rand := [7; 8; 9; 10; 11; 12] |}.
Definition bad : fault := Fails (OsError "input/output error") 0.
Definition on_disk (e : system.event) : devent system.event :=
  match e with
  | system.Step (service.Fetch (EPut n false)) => DPut n [bad; bad]
  | system.Step (service.Fetch (EEvict _)) => DSweep []
  | e => disk_event (S:=system.state) e []
  end.
Definition asked : list (devent system.event) := on_disk <$> system.system_examples.asked.
Definition all : list (devent system.event) := on_disk <$> system.system_examples.all.

Definition machine : Machine (store system.state) (devent system.event) :=
  store_machine 4 60 evictor.files_below evictor.evict_examples.sort.
Definition c0 : DiskCache :=
  {| location := "/webtor/data*"; subdir := "s3-cache";
     since := {[ "/webtor/data1/s3-cache" := 50; "/webtor/data2/s3-cache" := 50 ]} |}.
Definition x0 : store system.state := at_start f (Some c0) fs0.
Definition at_end (es : list (devent system.event)) : store system.state := default x0 (@run _ _ machine x0 es).
#[global] Strategy 100 [at_end].

(** [touches] and [honest_disk], as checks. *)
Definition touchesb (x : store system.state) (e : devent system.event) : bool :=
  match e with
  | DLookup i _ =>
      match callers (fetches x) !! i with
      | Some c => bool_decide (chunk_file_of (c_key c) (c_v c) (c_start c) ∈ K) &&
                  bool_decide (chunk_file_of (c_key c) noVersion (c_start c) ∈ K)
      | None => true
      end
  | DPut i _ =>
      match leads (fetches x) !! i with
      | Some l => bool_decide (chunk_file_of (l_key l) (l_v l) (l_start l) ∈ K)
      | None => true
      end
  | _ => true
  end.

Lemma touchesb_sound x e : touchesb x e = true -> touches K x e.
Proof.
  destruct e as [| i l| |i l|]; cbn; try done.
  - intros Hb c Hc. rewrite Hc in Hb. apply andb_true_iff in Hb as [?%bool_decide_eq_true ?%bool_decide_eq_true]. done.
  - intros Hb c Hc. rewrite Hc in Hb. by apply bool_decide_eq_true in Hb.
Qed.

Definition object (_ _ : string) : bytes := service.service_examples.obj.
(** The chunks from before versioning need not be of any version. *)
Definition none (_ _ : string) : Prop := False.

Definition changedb (c : DiskCache) (key : string) (v : objVersion) (w : world) : bool :=
  match root c key w with
  | (_, Some (inr (rt, _))) =>
      match since c !! rt with
      | Some t => negb (t =? time_zero) && negb (modified v =? time_zero) && (t <=? modified v)
      | None => false
      end
  | _ => false
  end.
Definition falls_backb (c : option DiskCache) (key : string) (v : objVersion) (off : Z) (w : world) : bool :=
  match c with
  | Some c0 =>
      match path c0 key v off w with
      | (w1, Some (inr p)) => match os.Open p w1 with (w2, Some (inl _)) => negb (changedb c0 key v w2) | _ => false end
      | _ => false
      end
  | None => false
  end.
Definition honestb (x : store system.state) (e : devent system.event) : bool :=
  match e with
  | DPlain e _ => systemout.honestb f rd object (st x) e
  | DLookup i l =>
      match callers (fetches x) !! i with
      | Some c => match view K (files x) !! chunk_file_of (c_key c) noVersion (c_start c) with
                  | Some _ => negb (falls_backb (cache x) (c_key c) (c_v c) (c_start c) (start l x))
                  | None => true
                  end
      | None => true
      end
  | _ => true
  end.

Lemma changedb_sound c key v w : changedb c key v w = true -> changed_since c key v w.
Proof.
  unfold changedb. destruct (root c key w) as [w' [[e|[rt h]]|]] eqn:Hr; try done.
  destruct (since c !! rt) as [t|] eqn:Ht; [|done].
  rewrite !andb_true_iff, !negb_true_iff, !Z.eqb_neq, Z.leb_le. intros [[? ?] ?].
  exists w', rt, h, t. split; [done|]. split; [by left|done].
Qed.

Lemma falls_backb_sound c key v off w : falls_backb c key v off w = false -> ~ falls_back c key v off w.
Proof.
  intros Hb (c0 & w1 & p & w2 & e & -> & Hp & Ho & Hn). unfold falls_backb in Hb. rewrite Hp, Ho in Hb.
  apply Hn, changedb_sound. by apply negb_false_iff in Hb.
Qed.

Lemma honest_disk_sound x e : honestb x e = true -> honest_disk f rd object none K x e.
Proof.
  destruct e as [e l|i l| | |]; try done; [apply systemout.system_honestb|].
  cbn. intros Hb c Hc [b Hv] Hf. rewrite Hc, Hv in Hb. apply negb_true_iff, falls_backb_sound in Hb. by apply Hb.
Qed.

Lemma K_apart : apart K.
Proof.
  assert (forall a, a ∈ K -> a ∈ [("k", "e1", 0); ("k", "e1", 4); ("k", "e1", 8); ("k", "", 0); ("k", "", 4); ("k", "", 8)]) as HK.
  { intros a. unfold K. rewrite !elem_of_union, !elem_of_singleton, !elem_of_cons. tauto. }
  intros a b Ha%HK Hb%HK. clear HK.
  repeat (apply elem_of_cons in Ha as [->|Ha]; [|try by apply elem_of_nil in Ha]);
  repeat (apply elem_of_cons in Hb as [->|Hb]; [|try by apply elem_of_nil in Hb]).
  all: split; [intros _; reflexivity|].
  all: first [intros _; reflexivity | intros Hx; vm_compute in Hx; discriminate Hx].
Qed.

Lemma fs0_data q d : file_data fs0 q = Some d -> q = stale.
Proof.
  unfold file_data, file_inode. simpl. destruct (decide (stale = q)) as [->|Hne]; [done|].
  by rewrite lookup_singleton_ne.
Qed.

Lemma fs0_sound : sound K fs0.
Proof.
  split; [split; [|split]; simpl|].
  - intros p i [<- <-]%lookup_singleton_Some. by eexists.
  - intros h i Hx. by rewrite lookup_empty in Hx.
  - intros i x [<- _]%lookup_singleton_Some. lia.
  - intros x q q' d d' _ _ _ Hd Hd'. pose proof (fs0_data _ _ Hd). pose proof (fs0_data _ _ Hd'). congruence.
Qed.

Lemma fs0_unversioned : fldata.disk_data 4 object none (view K fs0).
Proof.
  split; [|intros k et n b []]. intros k et n b Hne Hv. exfalso.
  apply view_Some in Hv as [Hin (q & Hq & Hd%fs0_data)]; [|apply fs0_sound]. subst q.
  assert ((k, et, n) = ("k", "", 4)) as Hx; [|congruence].
  eapply (copy_inj K _ _ stale K_apart Hin); [|exact Hq|apply (copy_chunk_path "/webtor/data1/s3-cache" "k" noVersion 4)].
  unfold K. set_solver.
Qed.

Lemma at_end_run es :
  match @run _ _ machine x0 es with Some _ => true | None => false end = true ->
  (2 * Z.of_nat (next (fetches (at_end es))) + 2 <=? int32_max) = true ->
  @alongb _ _ machine touchesb x0 es = true -> @alongb _ _ machine honestb x0 es = true ->
  disk_run f rd object none 4 60 evictor.files_below evictor.evict_examples.sort K (Some c0) fs0 es (at_end es).
Proof.
  intros Hr Hs%Z.leb_le Ht Hh. split.
  - reflexivity.
  - discriminate.
  - discriminate.
  - reflexivity.
  - discriminate.
  - exact fs0_sound.
  - reflexivity.
  - exact fs0_unversioned.
  - exact (@alongb_sound _ _ machine (touches K) touchesb x0 es touchesb_sound Ht).
  - exact (@alongb_sound _ _ machine _ honestb x0 es honest_disk_sound Hh).
  - change (@run _ _ machine x0 es = Some (at_end es)). unfold at_end. by destruct (@run _ _ machine x0 es).
  - exact Hs.
Qed.

(** The first client, and the response it got: from the memory of the first
    flight and the files of the two others. *)
Definition cl0 : system.client :=
  default system.system_examples.c1 (system.clients (st (at_end all)) !! 0%nat).
Definition w0 : http.ResponseWriter :=
  match system.cl_pc cl0 with system.PDone w _ => w | _ => http.fresh None None end.
#[global] Strategy 100 [cl0 w0].
End disk_examples.

Lemma disk_refines_witness :
  exists s, represents disk_examples.K (hosting:=disk_examples.hosted) (disk_examples.at_end disk_examples.all) s /\
    disk (hp (service.fetches (system.svc s))) !! ("k", "e1", 4) = Some (list_byte_of_string "4567").
Proof.
  destruct (disk_refines system.system_examples.f system.system_examples.rd disk_examples.object disk_examples.none 4 60
    evictor.files_below (fun f root => reflexivity _) evictor.evict_examples.sort
    evictor.evict_examples.sort_perm evictor.evict_examples.sort_sorted disk_examples.K
    disk_examples.K_apart (Some disk_examples.c0) disk_examples.fs0 disk_examples.all
    (disk_examples.at_end disk_examples.all)) as (ess & s & _ & _ & HR).
  - apply disk_examples.at_end_run; vm_compute; reflexivity.
  - exists s. split; [exact HR|]. refine (eq_trans (f_equal (fun m : gmap chunk_file bytes => m !! ("k", "e1", 4)) (r_disk _ _ _ (proj2 HR))) _). vm_compute. reflexivity.
Defined.

Lemma disk_answers_witness :
  systemout.answered system.system_examples.f system.system_examples.rd disk_examples.object disk_examples.cl0
    disk_examples.w0 (Some ("GET", "ok")) /\
  http.w_body disk_examples.w0 = list_byte_of_string "23456789".
Proof.
  split; [|vm_compute; reflexivity].
  refine (disk_answers system.system_examples.f system.system_examples.rd disk_examples.object disk_examples.none 4 60
    evictor.files_below (fun f root => reflexivity _) evictor.evict_examples.sort
    evictor.evict_examples.sort_perm evictor.evict_examples.sort_sorted disk_examples.K
    disk_examples.K_apart (Some disk_examples.c0) disk_examples.fs0 disk_examples.all
    (disk_examples.at_end disk_examples.all) 0 disk_examples.cl0 disk_examples.w0 _ _ _ _).
  - apply disk_examples.at_end_run; vm_compute; reflexivity.
  - vm_compute. reflexivity.
  - vm_compute. reflexivity.
Defined.

(** While the second chunk waits for its unit, and the disk has just failed. *)
Lemma disk_no_deadlock_witness :
  exists e, is_Some (@exec _ _ disk_examples.machine (disk_examples.at_end disk_examples.asked)
    (disk_event (S:=system.state) (hosting:=disk_examples.hosted) e [disk_examples.bad])).
Proof.
  destruct (disk_no_deadlock system.system_examples.f system.system_examples.rd disk_examples.object disk_examples.none 4 60
    evictor.files_below (fun f root => reflexivity _) evictor.evict_examples.sort
    evictor.evict_examples.sort_perm evictor.evict_examples.sort_sorted disk_examples.K
    disk_examples.K_apart (Some disk_examples.c0) disk_examples.fs0 disk_examples.asked
    (disk_examples.at_end disk_examples.asked) [disk_examples.bad]) as (e & _ & He).
  - apply disk_examples.at_end_run; vm_compute; reflexivity.
  - intros [[[Hl _] _] _]. vm_compute in Hl. discriminate Hl.
  - repeat constructor.
  - exists e. exact He.
Defined.

Lemma no_descriptor_leak_witness : fs_handles (files (disk_examples.at_end disk_examples.all)) = ∅.
Proof.
  refine (proj1 (no_descriptor_leak system.system_examples.f system.system_examples.rd disk_examples.object
    disk_examples.none 4 60 evictor.files_below (fun f root => reflexivity _) evictor.evict_examples.sort
    evictor.evict_examples.sort_perm evictor.evict_examples.sort_sorted disk_examples.K
    disk_examples.K_apart (Some disk_examples.c0) disk_examples.fs0 disk_examples.all
    (disk_examples.at_end disk_examples.all) _ _)).
  - apply disk_examples.at_end_run; vm_compute; reflexivity.
  - apply (bool_decide_unpack (systemlive.all_done (st (disk_examples.at_end disk_examples.all)))). vm_compute. exact I.
Defined.
End serverdisk.
