(* ===== verification/Process.v ===== *)
(** * The process (configure.go, main.go and the flags of each service)

    The flags the services register, what they build of their values, and how
    [run] puts the services together: which servers run, in which order they
    are closed, and that what is served is the server of ServerDisk.v. The flag
    library, the probes, the S3 client and the loop that waits for signals
    are third-party code: parameters, or the flags' values themselves. *)
From S2P Require Import Prelude GoStd GoTime Http Path Fs DiskCache HeadCache Budget Chunk Flights FlightsInv FlightsData Evictor Store StoreCalls Fetcher Readahead Web System SystemOut ServerDisk.

(** What the services use of the flag library: a flag as it is registered,
    without its help text, and the readers of a parsed command line. *)
Module cli.
Inductive value :=
| BoolFlag                       (* false unless given *)
| StringFlag (default : string)
| IntFlag (default : Z)
| Int64Flag (default : Z)
| DurationFlag (default : Z).
Record Flag := { Name : string; Value : value; EnvVar : string }.

Record Context := {
  Bool : string -> bool;
  String_ : string -> string;
  Int : string -> Z;
  Int64 : string -> Z;
  Duration : string -> Z;
}.

(** The flag reads as its default. *)
Definition at_default (c : Context) (f : Flag) : Prop :=
  match Value f with
  | BoolFlag => Bool c (Name f) = false
  | StringFlag s => String_ c (Name f) = s
  | IntFlag n => Int c (Name f) = n
  | Int64Flag n => Int64 c (Name f) = n
  | DurationFlag n => Duration c (Name f) = n
  end.
End cli.

Module process.
Import cli.

(** ** The flags *)

Definition second : Z := 1000000000.

Definition WebHostFlag : string := "host".
Definition WebPortFlag : string := "port".
Definition ChunkSizeFlag : string := "chunk-size".
Definition WorkersFlag : string := "workers".
Definition BucketFlag : string := "aws-bucket".
Definition FetchConcurrencyFlag : string := "fetch-concurrency".
Definition ChunkFetchTimeoutFlag : string := "chunk-fetch-timeout".
Definition HeadCacheTTLFlag : string := "head-cache-ttl".
Definition CacheDirFlag : string := "cache-dir".
Definition CacheEnabledFlag : string := "cache-enabled".
Definition CacheShardSubdirFlag : string := "cache-shard-subdir".
Definition ReadaheadChunksFlag : string := "readahead-chunks".
Definition ReadaheadConcurrencyFlag : string := "readahead-concurrency".
Definition ReadaheadTimeoutFlag : string := "readahead-timeout".
Definition EvictionMaxBytesPerShardFlag : string := "eviction-max-bytes".
Definition EvictionIntervalFlag : string := "eviction-interval".

Definition RegisterFetcherFlags (f : list Flag) : list Flag :=
  f ++ [{| Name := ChunkSizeFlag; Value := Int64Flag (Z.shiftl 4 20); EnvVar := "CHUNK_SIZE" |};
        {| Name := WorkersFlag; Value := IntFlag 8; EnvVar := "WORKERS" |};
        {| Name := BucketFlag; Value := StringFlag ""; EnvVar := "AWS_BUCKET" |};
        {| Name := FetchConcurrencyFlag; Value := IntFlag 32; EnvVar := "FETCH_CONCURRENCY" |};
        {| Name := ChunkFetchTimeoutFlag; Value := DurationFlag (90 * second); EnvVar := "CHUNK_FETCH_TIMEOUT" |};
        {| Name := HeadCacheTTLFlag; Value := DurationFlag (60 * second); EnvVar := "HEAD_CACHE_TTL" |}].

Definition RegisterCacheFlags (f : list Flag) : list Flag :=
  f ++ [{| Name := CacheEnabledFlag; Value := BoolFlag; EnvVar := "CACHE_ENABLED" |};
        {| Name := CacheDirFlag; Value := StringFlag "/webtor/data*"; EnvVar := "CACHE_DIR" |};
        {| Name := CacheShardSubdirFlag; Value := StringFlag "s3-cache"; EnvVar := "CACHE_SHARD_SUBDIR" |}].

Definition RegisterReadaheadFlags (f : list Flag) : list Flag :=
  f ++ [{| Name := ReadaheadChunksFlag; Value := IntFlag 4; EnvVar := "READAHEAD_CHUNKS" |};
        {| Name := ReadaheadConcurrencyFlag; Value := IntFlag 8; EnvVar := "READAHEAD_CONCURRENCY" |};
        {| Name := ReadaheadTimeoutFlag; Value := DurationFlag (30 * second); EnvVar := "READAHEAD_TIMEOUT" |}].

Definition RegisterEvictionFlags (f : list Flag) : list Flag :=
  f ++ [{| Name := EvictionMaxBytesPerShardFlag; Value := Int64Flag (Z.shiftl 10 30); EnvVar := "EVICTION_MAX_BYTES" |};
        {| Name := EvictionIntervalFlag; Value := DurationFlag (60 * second); EnvVar := "EVICTION_INTERVAL" |}].

(** ** The constructors

    Of the values their flags have; see each service's file. *)

Record Web := { host : string; port : Z }.
Definition NewWeb (c : Context) : Web := {| host := String_ c WebHostFlag; port := Int c WebPortFlag |}.

Definition new_cache (c : Context) : M (option DiskCache) :=
  NewDiskCache (Bool c CacheEnabledFlag) (String_ c CacheDirFlag) (String_ c CacheShardSubdirFlag).
Definition new_readahead (c : Context) : readahead.Readahead :=
  readahead.NewReadahead (Int c ReadaheadChunksFlag) (Int c ReadaheadConcurrencyFlag) (Duration c ReadaheadTimeoutFlag).
Definition new_fetcher (c : Context) : goerr + fetcher.Fetcher :=
  fetcher.NewFetcher (String_ c BucketFlag) (Int64 c ChunkSizeFlag) (Int c WorkersFlag) (Int c FetchConcurrencyFlag)
    (Duration c ChunkFetchTimeoutFlag) (Duration c HeadCacheTTLFlag).
Definition new_evictor (c : Context) (cache : option DiskCache) : option evictor.Evictor :=
  evictor.NewEvictor (Int64 c EvictionMaxBytesPerShardFlag) (Duration c EvictionIntervalFlag) cache.

(** ** [run] *)

Inductive servable := Probe | Prom | Pprof | EvictorServer (e : evictor.Evictor) | WebServer (w : Web).

(** Which of the third-party services their flags enable. *)
Record services := { probe : bool; prom : bool; pprof : bool; s3cl : bool }.

(** The servers, and the [Close] calls deferred so far, the last one first. *)
Record wiring := {
  servers : list servable;
  closes : list servable;
  fetcher : fetcher.Fetcher;
  readahead : readahead.Readahead;
  cache : option DiskCache;
}.

Definition start (on : bool) (s : servable) (a : list servable * list servable) : list servable * list servable :=
  if on then (a.1 ++ [s], s :: a.2) else a.

Definition run (t : services) (c : Context) : M (goerr + wiring) :=
  let a := start (pprof t) Pprof (start (prom t) Prom (start (probe t) Probe ([], []))) in
  if negb (s3cl t) then
    io_ret (inl (ErrorString "S3 client not configured — set AWS_ACCESS_KEY_ID/AWS_SECRET_ACCESS_KEY/AWS_ENDPOINT/AWS_REGION"))
  else
    let! cache := new_cache c in
    let readahead := new_readahead c in
    match new_fetcher c with
    | inl err => io_ret (inl err)
    | inr fetcher =>
        let a := match new_evictor c cache with Some e => start true (EvictorServer e) a | None => a end in
        let web := WebServer (NewWeb c) in
        io_ret (inr {| servers := a.1 ++ [web]; closes := web :: a.2; fetcher := fetcher; readahead := readahead;
                       cache := cache |})
    end.

Section flags.
(** The registrations of common-services. *)
Context (RegisterProbeFlags RegisterPromFlags RegisterPprofFlags RegisterS3ClientFlags RegisterShutdownFlags :
  list Flag -> list Flag).

Definition RegisterWebFlags (f : list Flag) : list Flag :=
  RegisterShutdownFlags f ++
    [{| Name := WebHostFlag; Value := StringFlag ""; EnvVar := "WEB_HOST" |};
     {| Name := WebPortFlag; Value := IntFlag 8080; EnvVar := "WEB_PORT" |}].

Definition configure : list Flag :=
  let f := [] in
  let f := RegisterProbeFlags f in
  let f := RegisterPromFlags f in
  let f := RegisterPprofFlags f in
  let f := RegisterS3ClientFlags f in
  let f := RegisterWebFlags f in
  let f := RegisterFetcherFlags f in
  let f := RegisterCacheFlags f in
  let f := RegisterReadaheadFlags f in
  RegisterEvictionFlags f.
End flags.

(** Command lines that give a bucket and nothing else, or a cache as well. *)
Module process_examples.
Definition shutdown (f : list Flag) : list Flag :=
  f ++ [{| Name := "web-shutdown-timeout"; Value := DurationFlag (20 * second); EnvVar := "WEB_SHUTDOWN_TIMEOUT" |}].
Definition flags : list Flag := configure id id id id shutdown.
Definition value_of (n : string) : option value :=
  Value <$> head (filter (fun f => Name f = n) flags).
Definition c (cached : bool) : Context :=
  {| Bool := fun n => cached && String.eqb n CacheEnabledFlag;
     String_ := fun n => if String.eqb n BucketFlag then "b" else
       match value_of n with Some (StringFlag s) => s | _ => "" end;
     Int := fun n => match value_of n with Some (IntFlag z) => z | _ => 0 end;
     Int64 := fun n => match value_of n with Some (Int64Flag z) => z | _ => 0 end;
     Duration := fun n => match value_of n with Some (DurationFlag z) => z | _ => 0 end |}.
Definition t : services := {| probe := true; prom := true; pprof := false; s3cl := true |}.
Definition f0 : fsys :=
  {| fs_dirs := {["/webtor"; "/webtor/data1"]}; fs_files := ∅; fs_inodes := ∅; fs_handles := ∅; fs_next := 0;
     fs_now := 100; fs_rand := [] |}.
(** Both services with a cache. *)
Definition started : option wiring :=
  match (run t (c true) (calm f0)).2 with Some (inr p) => Some p | _ => None end.
End process_examples.

(** ** What the process serves *)

Lemma start_closed on s a : a.2 = rev a.1 -> (start on s a).2 = rev (start on s a).1.
Proof. intros Ha. destruct on; simpl; [|done]. by rewrite rev_app_distr, Ha. Qed.

Lemma no_evictor t e : EvictorServer e ∉ (start (pprof t) Pprof (start (prom t) Prom (start (probe t) Probe ([], [])))).1.
Proof. destruct (pprof t), (prom t), (probe t); simpl; set_solver. Qed.

(** A fetcher that was accepted starts a server that can be reached. *)
Lemma accepted_reachable bkt cs wk conc timeout httl f rd object legacy_ok d :
  fetcher.NewFetcher bkt cs wk conc timeout httl = inr f ->
  conc * cs <= int64_max -> 0 <= readahead.chunks rd -> fldata.disk_data cs object legacy_ok d ->
  systemout.reachable f rd object legacy_ok d (system.init f d).
Proof.
  unfold fetcher.NewFetcher. destruct (String.eqb bkt ""); [done|].
  unfold fetcher.validateFetcherConfig, budget.newChunkBudget. zcases; try done; try lia. intros [= <-] Hm Hrd Hd.
  unfold systemout.reachable. cbn [fetcher.chunkSize fetcher.budget fetcher.heads budget.units_cap].
  do 3 (split; [lia|]). do 3 (split; [done|]). exists []. split; [done|]. split; [done|]. vm_compute. discriminate.
Qed.

(** The cache it starts with has changed the disk by markers at most. *)
Lemma new_cache_disk K c w w' dc :
  new_cache c w = (w', Some dc) -> storecalls.sound K (w_fs w) ->
  storecalls.sound K (w_fs w') /\ fs_handles (w_fs w') = fs_handles (w_fs w) /\
  store.view K (w_fs w') = store.view K (w_fs w).
Proof.
  intros Hc Hs.
  pose proof (NewDiskCache_hoare marker_content (w_fs w) (fun rt t => ex_intro _ rt (ex_intro _ t (conj eq_refl eq_refl)))
    (fs_handles (w_fs w)) (Bool c CacheEnabledFlag) (String_ c CacheDirFlag) (String_ c CacheShardSubdirFlag)
    w (storecalls.J_start_here _ _ (proj1 Hs))) as Hp.
  unfold new_cache in Hc. rewrite Hc in Hp. destruct Hp as [Hst Hh].
  by destruct (storecalls.stable_sound K (w_fs w) (w_fs w') Hs Hst) as (? & _ & ?).
Qed.

(** C34: what a configuration leads to. The process refuses to start exactly for
    want of an S3 client or a bucket, or with a chunk size, a concurrency or
    a fetch timeout that is not positive; else the front end is the first
    service to be closed, before what its requests use, the others follow in
    the reverse of their order; the evictor runs if there is a cache and a
    cap, on that cache; and with every chunk buffer inside the integer range,
    over the files the process found (none open, copies of a chunk alike, and
    what they are named after), what is served is the server over the disk at
    the start of its runs, so that what holds of these holds of it. *)
Theorem run_serves t c w w' r :
  run t c w = (w', Some r) -> int64_ok (Duration c ChunkFetchTimeoutFlag) ->
  match r with
  | inl _ => s3cl t = false \/ String_ c BucketFlag = "" \/ Int64 c ChunkSizeFlag < 1 \/
      Int c FetchConcurrencyFlag < 1 \/ Duration c ChunkFetchTimeoutFlag <= 0
  | inr p =>
      (s3cl t = true /\ String_ c BucketFlag <> "" /\ 1 <= Int64 c ChunkSizeFlag /\
       1 <= Int c FetchConcurrencyFlag /\ 0 < Duration c ChunkFetchTimeoutFlag) /\
      closes p = rev (servers p) /\ head (closes p) = Some (WebServer (NewWeb c)) /\
      (forall e, EvictorServer e ∈ servers p -> evictor.cache e = cache p) /\
      ((exists e, EvictorServer e ∈ servers p) <-> is_Some (cache p) /\ 0 < Int64 c EvictionMaxBytesPerShardFlag) /\
      (Int c FetchConcurrencyFlag * Int64 c ChunkSizeFlag <= int64_max -> 0 <= Int c ReadaheadChunksFlag ->
       forall object legacy_ok walk_order sort_entries K, storecalls.sound K (w_fs w) -> fs_handles (w_fs w) = ∅ ->
         fldata.disk_data (Int64 c ChunkSizeFlag) object legacy_ok (store.view K (w_fs w)) ->
         serverdisk.disk_run (fetcher p) (readahead p) object legacy_ok
           (Int64 c EvictionMaxBytesPerShardFlag) (Duration c EvictionIntervalFlag) walk_order sort_entries
           K (cache p) (w_fs w') [] (serverdisk.at_start (fetcher p) (cache p) (w_fs w')))
  end.
Proof.
  intros Hr Ht. unfold run in Hr. destruct (s3cl t); [|injection Hr as _ <-; by left].
  cbn [negb] in Hr. rewrite alone_bind in Hr. destruct (new_cache c w) as [w1 [dc|]] eqn:Hcache; [|done].
  destruct (fetcher.NewFetcher_valid (String_ c BucketFlag) (Int64 c ChunkSizeFlag) (Int c WorkersFlag)
    (Int c FetchConcurrencyFlag) (Duration c ChunkFetchTimeoutFlag) (Duration c HeadCacheTTLFlag) Ht) as [Hvalid Hf].
  destruct (new_fetcher c) as [err|f] eqn:Hnf; unfold new_fetcher in Hnf; rewrite Hnf in Hf;
    injection Hr as <- <-; [by right|].
  split.
  { destruct Hf as (_ & H1 & _ & _ & H2 & _). destruct Hvalid as [_ Hvalid]. split; [done|].
    unfold fetcher.NewFetcher in Hnf. destruct (String.eqb_spec (String_ c BucketFlag) ""); [done|].
    split; [done|]. split; [done|]. split; [done|]. destruct (fetcher.validateFetcherConfig _ _ _); [done|].
    destruct (Z.lt_ge_cases 0 (Duration c ChunkFetchTimeoutFlag)) as [?|Hle]; [done|].
    destruct Hvalid as [? [=]]. by right; right. }
  pose proof (no_evictor t) as Hno. cbn [servers closes fetcher readahead cache].
  set (a := start (pprof t) Pprof _) in *.
  assert (a.2 = rev a.1) as Ha by (unfold a; by repeat apply start_closed).
  unfold new_evictor, evictor.NewEvictor. split; [|split; [done|]].
  { rewrite rev_app_distr. simpl. f_equal. destruct dc; [|done]. destruct (_ <=? 0); [done|].
    simpl. by rewrite rev_app_distr, Ha. }
  split; [|split].
  - intros e. rewrite elem_of_app, list_elem_of_singleton. intros [He|[=]]. destruct dc as [dc|]; [|by destruct (Hno e)].
    destruct (_ <=? 0); [by destruct (Hno e)|]. simpl in He. apply elem_of_app in He as [He|He]; [by destruct (Hno e)|].
    by apply list_elem_of_singleton in He as [= ->].
  - destruct dc as [dc|].
    + destruct (Z.leb_spec (Int64 c EvictionMaxBytesPerShardFlag) 0); (split; [intros [e He]|intros [_ ?]]); try lia.
      * apply elem_of_app in He as [He|He]; [by destruct (Hno e)|by apply list_elem_of_singleton in He].
      * split; [done|lia].
      * eexists. apply elem_of_app. left. simpl. apply elem_of_app. right. by apply list_elem_of_singleton.
    + split; [intros [e He]|by intros [[? [=]] _]].
      apply elem_of_app in He as [He|He]; [by destruct (Hno e)|by apply list_elem_of_singleton in He].
  - intros Hm Hc object legacy_ok wo so K Hs Hh Hd. destruct (new_cache_disk K c w w1 dc Hcache Hs) as (Hs' & Hh' & Hv).
    destruct (accepted_reachable _ _ _ _ _ _ f (new_readahead c) object legacy_ok (store.view K (w_fs w)) Hnf Hm Hc Hd)
      as (H1 & H2 & H3 & H4 & H5 & H6 & _).
    split; [done..|congruence|by rewrite Hv|done|done|done|done].
Qed.

(** ** The default configuration *)

(** The services' own flags are registered, whatever the others are. *)
Lemma registered (R1 R2 R3 R4 R5 : list Flag -> list Flag) x :
  x ∈ RegisterEvictionFlags (RegisterReadaheadFlags (RegisterCacheFlags (RegisterFetcherFlags
        (RegisterWebFlags (fun f => f) [])))) ->
  x ∈ configure R1 R2 R3 R4 R5.
Proof.
  unfold configure, RegisterEvictionFlags, RegisterReadaheadFlags, RegisterCacheFlags,
    RegisterFetcherFlags, RegisterWebFlags. rewrite !elem_of_app, elem_of_nil. tauto.
Qed.

(** The defaults are a server that works: with a bucket, an S3 client and
    nothing else configured, every value a service reads is that of a flag
    that is registered, under that name and with that type, and what starts
    is the front end on port 8080 with chunks of 4 MiB, 8 fetches per
    request, 32 buffers, a fetch deadline of 90 and a write deadline of 45
    seconds, readahead of 4 chunks, no cache and hence no evictor: a server
    all whose states the theorems on the server speak of. *)
Theorem default_server (R1 R2 R3 R4 R5 : list Flag -> list Flag) t c f object legacy_ok d :
  (forall x, x ∈ configure R1 R2 R3 R4 R5 -> Name x <> BucketFlag -> at_default c x) ->
  String_ c BucketFlag <> "" -> s3cl t = true -> fldata.disk_data 4194304 object legacy_ok d ->
  exists p, run t c (calm f) = (calm f, Some (inr p)) /\
    servers p = (if probe t then [Probe] else []) ++ (if prom t then [Prom] else []) ++
                (if pprof t then [Pprof] else []) ++ [WebServer {| host := ""; port := 8080 |}] /\
    cache p = None /\ readahead p = readahead.NewReadahead 4 8 (30 * second) /\
    fetcher.chunkSize (fetcher p) = 4194304 /\ fetcher.workers (fetcher p) = 8 /\
    budget.units_cap (fetcher.budget (fetcher p)) = 32 /\ fetcher.chunkFetchTimeout (fetcher p) = 90 * second /\
    fetcher.writeGuardTimeout (fetcher p) = 45 * second /\
    systemout.reachable (fetcher p) (readahead p) object legacy_ok d (system.init (fetcher p) d).
Proof.
  intros Hdef Hb Hs3 Hd.
  assert (forall x, x ∈ RegisterEvictionFlags (RegisterReadaheadFlags (RegisterCacheFlags (RegisterFetcherFlags
    (RegisterWebFlags (fun f => f) [])))) -> Name x <> BucketFlag -> at_default c x) as Hown.
  { intros x Hx. by apply Hdef, registered. }
  clear Hdef. assert (Forall (fun x => Name x <> BucketFlag -> at_default c x)
    (RegisterEvictionFlags (RegisterReadaheadFlags (RegisterCacheFlags (RegisterFetcherFlags
      (RegisterWebFlags (fun f => f) [])))))) as Hall by (apply Forall_forall; exact Hown).
  clear Hown. cbn [RegisterEvictionFlags RegisterReadaheadFlags RegisterCacheFlags RegisterFetcherFlags
    RegisterWebFlags app] in Hall. rewrite !Forall_cons in Hall. unfold at_default in Hall. simpl in Hall.
  destruct Hall as (Hhost & Hport & Hcs & Hwk & _ & Hconc & Hto & Httl & Hen & Hdir & Hsub & Hra & Hrc & Hrt & Hmax & Hint & _).
  unfold run. rewrite Hs3. cbn [negb]. unfold new_cache. rewrite Hen by done. unfold NewDiskCache, io_ret. rewrite alone_bind. simpl.
  unfold new_fetcher. rewrite Hcs, Hwk, Hconc, Hto, Httl by done. unfold fetcher.NewFetcher.
  destruct (String.eqb_spec (String_ c BucketFlag) "") as [?|_]; [done|].
  eexists. split; [reflexivity|]. cbn [servers cache readahead fetcher]. split.
  { unfold NewWeb. rewrite Hhost, Hport by done. by destruct (probe t), (prom t), (pprof t). }
  split; [done|]. unfold new_readahead. rewrite Hra, Hrc, Hrt by done. split; [done|].
  do 5 (split; [done|]). eapply (accepted_reachable (String_ c BucketFlag) 4194304 8 32 (90 * second) (60 * second));
    [|vm_compute; discriminate|simpl; lia|done].
  unfold fetcher.NewFetcher. by destruct (String.eqb_spec (String_ c BucketFlag) "").
Qed.

Lemma run_serves_witness :
  match (run process_examples.t (process_examples.c true) (calm process_examples.f0)).2 with
  | Some (inr p) => closes p = rev (servers p) /\ length (servers p) = 4%nat
  | _ => False
  end.
Proof.
  assert (int64_ok (Duration (process_examples.c true) ChunkFetchTimeoutFlag)) as Ht
    by (vm_compute; split; discriminate).
  destruct (run process_examples.t (process_examples.c true) (calm process_examples.f0)) as [w' [[e|p]|]] eqn:Hr;
    [vm_compute in Hr; discriminate Hr| |vm_compute in Hr; discriminate Hr].
  pose proof (run_serves process_examples.t (process_examples.c true) _ _ _ Hr Ht) as (_ & Hcl & _).
  split; [exact Hcl|].
  assert (process_examples.started = Some p) as Hp by (unfold process_examples.started; rewrite Hr; reflexivity).
  assert (Some 4%nat = Some (length (servers p))) as Hl; [|by injection Hl].
  change (Some (length (servers p))) with ((fun p => length (servers p)) <$> Some p). rewrite <- Hp. vm_compute. reflexivity.
Defined.

Lemma default_server_witness :
  exists p, run process_examples.t (process_examples.c false) (calm process_examples.f0) =
      (calm process_examples.f0, Some (inr p)) /\
    servers p = [Probe; Prom; WebServer {| host := ""; port := 8080 |}].
Proof.
  destruct (default_server id id id id process_examples.shutdown process_examples.t (process_examples.c false)
    process_examples.f0 (fun _ _ => []) (fun _ _ => False) ∅) as (p & Hr & Hs & _).
  - apply (proj1 (Forall_forall (fun x => Name x <> BucketFlag -> at_default (process_examples.c false) x) process_examples.flags)).
    repeat constructor; intros Hn; first [vm_compute; reflexivity|by destruct Hn].
  - discriminate.
  - reflexivity.
  - split; intros k et st b _ Hb; by rewrite lookup_empty in Hb.
  - exists p. split; [exact Hr|exact Hs].
Defined.
End process.
